(* ===== verification/_CoqProject ===== *)
-Q . S2P
Prelude.v
LLVM.v
IRType.v
Value.v
Opcode.v
Operation.v
Matching.v
Create.v
Semantics.v
Simplifier.v
SimplifierInt.v
SimplifierSound.v
Folding.v
Overflow.v
AtEnv.v
ModelEval.v
SparseVector.v
SharedArray.v
SetTrie.v
Assertions.v
Allocation.v
Slicer.v
Solvers.v
SlotMap.v
BumpAllocator.v
MemHeap.v
UnionFind.v
EGraph.v
EGraphSound.v
EGraphRebuild.v
Extract.v
GraphAssertions.v
Frames.v
Context.v
Constprop.v
EMatching.v
Rewrites.v
RewriteSound.v
RuleSound.v
AssocSound.v
Saturation.v
ValueMemory.v
Effects.v
OperationBuilder.v
InterpreterContext.v
ExprEval.v
Interpreter.v
Paths.v
Branching.v
ControlFlow.v
ValueRoundtrip.v
MemoryAccess.v
Externals.v
ContextStore.v
StoreAdapters.v
Executor.v
Z3Convert.v
Z3Sound.v
Z3Visit.v
Z3Solver.v
Z3Instance.v
