(* ===== verification/Prelude.v ===== *)
(** * Verification of caffeine, a symbolic executor for LLVM

    Caffeine runs a program on symbolic inputs.  Values are expression graphs;
    a path through the program is an execution context that holds the memory
    and the assertions under which the path is taken; a solver decides which
    paths are feasible and gives inputs for them.

    ** Parts of the program and where they are modelled

    Expressions (src/IR):
    - LLVM.v: the members of [llvm::APInt], [llvm::APFloat] and LLVM's math
      helpers that the sources call, as classes with their documented laws, and
      concrete instances of them that make the model executable.  The laws of
      integers are for positive widths, since LLVM has no others.
    - IRType.v: [Type] (Type.cpp), the packed type descriptors.
    - Value.v: [Value] (Value.cpp), concrete values and their operations.
    - Opcode.v, Operation.v: opcodes, [classof] tests, [OperationData],
      [Symbol] and [Operation] (OperationBase.cpp, OperationData.cpp).
    - Matching.v: the expression matchers (include/caffeine/IR/Matching.h).
    - Create.v: every [Create] function (Operation.cpp, OperationBase.cpp).
    - Simplifier.v: [OperationSimplifier], which every constructor runs.
    - Semantics.v: the meaning [denote] of an expression in an environment and
      the typing [wf] of expressions.  It is the specification of everything
      below.
    - SimplifierInt.v, SimplifierSound.v, Folding.v: constant folding keeps
      type and meaning, method by method and as a whole.
    - Overflow.v: the multiplication overflow circuits.
    - UnionFind.v, EGraph.v: [UnionFind] and [EGraph] (EGraph.cpp).
    - EGraphSound.v, EGraphRebuild.v: the invariant and the soundness of the
      e-graph under [add] and [merge], and under [rebuild].
    - Extract.v: [EGraphExtractor].
    - Constprop.v: [EGraph::constprop] (EGraphConstprop.cpp).
    - EMatching.v, Rewrites.v: patterns, the matcher, equality saturation
      (EGraphMatching.cpp, EGraphMatcher.cpp) and the rewrite rules
      (src/IR/EMatching).
    - RewriteSound.v, RuleSound.v, AssocSound.v, Saturation.v: captures, single
      rules, the regrouping of sums, and saturation as a whole are sound, for
      the matcher of the program ([DefaultMatcher]) and graphs in its scope.

    Path conditions and solving (src/Model, src/Query, src/Solver):
    - SparseVector.v: [SparseVector], the container of the path condition.
    - Assertions.v: [Assertion] and [AssertionList].
    - Slicer.v: [ConstraintSlicer].
    - Solvers.v: [Solver] and its adapters, each shown to keep the contract
      [SolverSpec] over any inner solver that has it.
    - ModelEval.v: [ModelEvaluator].
    - GraphAssertions.v: [GraphAssertionList], the path condition as classes of
      the e-graph.
    - SetTrie.v: [SetTrie], subset queries over sets kept as a trie.
    - Z3Convert.v: [Z3OpVisitor], the translation of expressions into Z3 terms
      (Z3/Convert.cpp), over an interface to Z3 with the laws it relies on.
    - Z3Sound.v, Z3Visit.v: each term has the value of its expression, and the
      visitor with its cache and temporary constants keeps this.
    - Z3Solver.v: [Z3Solver] and [Z3Model]; Z3Instance.v: a concrete Z3 with
      which the laws hold.

    Memory (src/Memory, src/ADT):
    - SharedArray.v: [SharedArray], the lazily copied bytes of array values.
    - AtEnv.v: what building an expression does, seen from one environment.
    - Allocation.v: [Allocation], reads and writes of scalars.
    - ValueMemory.v: reads and writes of values by their LLVM type.
    - ValueRoundtrip.v: values of nested types as cells in memory.
    - SlotMap.v: [slot_map], the container of the heap.
    - BumpAllocator.v: [BumpAllocator], the concrete allocator.
    - MemHeap.v: [Pointer] and [MemHeap], over the interface to the execution
      context: [PathOps], its operations, and [PathContext], their laws, which
      [Context] keeps ([context_laws] of Paths.v).
    - MemoryAccess.v: stores and loads through an execution context.

    The interpreter (src/Interpreter, src/Model):
    - Frames.v: [LLVMScalar], [LLVMValue] and stack frames.
    - Context.v: [MemHeapMgr] and [Context], its stack, path and queries.
    - Effects.v: the monad of state and errors of the files below.
    - OperationBuilder.v: [OperationBuilder].
    - InterpreterContext.v: the part of [InterpreterContext] that works on one
      context, and what is read off LLVM's IR ([LLVMProgram]).
    - ExprEval.v: [ExprEvaluator].
    - Interpreter.v: the queue of contexts, failures, forks, and [Interpreter],
      one instruction at a time.  The solver, the matcher and the handlers of
      calls are a [Machine].
    - Externals.v: external functions and intrinsics.
    - Paths.v: environments that take the path of a context, and what growing
      the e-graph, adding an assertion and asking the solver do to them.
    - Branching.v: branches, switches and assertions.
    - ControlFlow.v: PHI nodes, calls and returns.
    - ContextStore.v: the queueing and the randomized store, shared by threads.
    - StoreAdapters.v: all stores as one worker uses them; [ContextStore] is
      their interface, [StoreLaws] and [Stops] what its users rely on.
    - Executor.v: the loop of a worker, against [StoreLaws].

    ** Modelling conventions

    A C++ function is a Rocq function into [result]: [Ok], or the [error] the
    code ends in (a failed assertion, an abort, undefined behaviour, a thrown
    exception).  An object that is mutated is passed in and returned.
    Machine integers are [Z] with [wrap] written where the code wraps.  An
    [OpRef] is the expression it points to; pointer comparison is the class
    [PtrEq], of which only soundness is used.  The order in which an unordered
    container is iterated is a parameter ([MapOrder], [iterate]).  What belongs
    to LLVM, to the containers of the C++ library that have no order, or to Z3
    is a parameter with laws; every class has an instance, and the main
    theorems have a lemma [.._witness] that applies them to a concrete input.

    ** What the theorems show

    - Folding: [simplify_correct] (every opcode, at every width, but for the
      folds of the findings); [ModelEval.evaluate_correct]: evaluation in a
      model is [denote], and [evaluate_icmp_eq]: a comparison that is false
      cannot be evaluated.
    - E-graph: adding, merging and rebuilding keep the structural invariant and
      soundness in every environment; [rebuild] terminates; an extracted
      expression has the value of its class, and extraction terminates where
      costs are bounded; constant propagation, and saturation with the default
      rules on graphs of their scope, give no class another value.
    - Path conditions: inserting keeps the meaning of the list, checkpoints
      restore it; a slice means exactly the assertions that share a symbol with
      the query; the solver stack keeps the
      contract of [Solver]; a query of a context is answered for its path.
    - Z3: the term of a convertible expression has its value under
      every interpretation that satisfies the assertions added with it, and
      these can always be satisfied; an UNSAT answer excludes every environment
      in which the arrays of a symbol are parts of one array, and a model comes
      from an environment that satisfies what has a value.
    - Memory: allocations of every reachable heap are pairwise apart and do not
      wrap around; [resolve] finds every allocation a pointer can point into;
      the assertions of the bounds checks are exact; a value of integers and
      pointers, nested in any way, that is stored is loaded again, also through
      an alias.
    - Interpreter: a branch forks a context for exactly the sides the solver does
      not refute, narrowed to that side; a switch loses no case; a failed
      assertion is reported with a model that really fails it; a call binds its
      arguments, and the return from it delivers the result and frees the
      allocations of the callee.
    - Workers: none is left asleep, each run ends, a store is done only when
      every context was taken; a worker accounts for every context, the ones it
      drops at an exception included, and runs none twice.
    - Containers: slot map, sparse vector and union-find refine abstract maps
      and partitions; arrays that share bytes behave as independent vectors; a
      set trie finds a subset exactly if one was inserted.
    - Where the code departs from what it means to do, a theorem of kind error
      states the behaviour it has.

    Where a theorem holds under conditions, its comment lists them.  They come
    from what the code gets wrong, and each has a lemma or a finding that shows
    it to be needed: folding a floating-point remainder, a comparison of NaN
    with itself, array accesses out of range and empty allocations ([safe] of
    SimplifierInt.v, [values_safe] of Extract.v); folding divisions in the
    e-graph, floating-point rules and captures of stale nodes ([safe_opcode] of
    RewriteSound.v, with or without arrays, [OpScope]); e-graph nodes of float
    constants that are confused ([clean] of EGraphSound.v); and what the backend
    translates wrongly ([convertible] of Z3Sound.v).  The theorems about paths
    (Paths.v, Branching.v) are for expressions and graphs without integer
    divisions, truncations, selections, arrays and floating-point arithmetic and
    comparisons ([usable], [path_ok]), and for machines with a correct solver
    ([SolverSpec]) and the default matcher.

    ** Fuel

    Recursion that is not structural takes fuel, and each such function is shown
    to be total with the fuel it is given: [constant_fold] takes the size of the
    node and three more nested calls; [evaluate] the size of the expression and
    one more; [insert_loop] the size of the expressions to take apart; the
    union-find walks the number of elements; [rebuild_loop] one round more than
    there are classes, [clear_caches] the stack and all parents; extraction the
    number of classes; [assoc_rewrite] one step more than there are classes;
    [modified_get] one step more than there are shared variants, [remove_node]
    one more than there are nodes.
    Three functions take a bound from their caller, because the code has none:
    [gl_canonicalize], which does not end on some graphs
    ([canonicalize_diverges]); the rounds of saturation, which the code repeats
    until nothing changes; and the depth of nested constants in [visit].  The
    theorems about them hold for every bound.  [run_worker] counts rounds: its
    theorem is about the state after any number of them.

    ** Not modelled

    Z3 itself, and the values of its floating-point terms: the theorems on the
    backend are for expressions of integers and arrays, with one type per symbol
    name ([convertible]); the external functions that keep a state of their own between steps (memset, the chain of
    constructors, symbolic allocation, setjmp, longjmp, unwinding); the superseded
    heap; start and end of the threads; failure loggers, tracing and
    coverage; the command-line tools and the C runtime libraries.  A data race
    on the stores other than through their mutex is not considered. *)
From stdpp Require Export prelude list gmap strings.
From Stdlib Require Export ZArith Lia Bool.
Open Scope Z_scope.

(** ** Errors

    [CAFFEINE_ASSERT], [CAFFEINE_ABORT], [CAFFEINE_UNIMPLEMENTED] and
    [CAFFEINE_UNREACHABLE] end the process, a C++ [throw] raises an exception,
    and an out-of-range index into an [llvm::ArrayRef] or a [std::vector] is
    undefined behaviour.  A computation of the model that meets one of them
    returns the corresponding [error].  [OutOfFuel] is the model's own: a
    recursion that was given too little fuel. *)
Inductive error : Set :=
| AssertFailed
| Aborted
| Unimplemented
| UndefinedBehaviour
| Thrown
| OutOfFuel.

Inductive result (A : Type) : Type :=
| Ok (a : A)
| Err (e : error).
Arguments Ok {_} _.
Arguments Err {_} _.

#[export] Instance error_eq_dec : EqDecision error.
Proof. solve_decision. Defined.

#[export] Instance result_eq_dec {A} `{EqDecision A} : EqDecision (result A).
Proof. solve_decision. Defined.

#[export] Instance result_ret : MRet result := fun A a => Ok a.
#[export] Instance result_bind : MBind result := fun A B f m =>
  match m with Ok a => f a | Err e => Err e end.
#[export] Instance result_fmap : FMap result := fun A B f m =>
  match m with Ok a => Ok (f a) | Err e => Err e end.

(** [CAFFEINE_ASSERT(cond)]. *)
Definition assert_ (b : bool) : result unit :=
  if b then Ok tt else Err AssertFailed.

(** A value that may be missing, with the error its absence means. *)
Definition of_option {A} (e : error) (o : option A) : result A :=
  match o with Some a => Ok a | None => Err e end.

Definition is_ok {A} (r : result A) : bool :=
  match r with Ok _ => true | Err _ => false end.

Lemma bind_Ok {A B} (m : result A) (f : A -> result B) b :
  (m ≫= f) = Ok b <-> exists a, m = Ok a /\ f a = Ok b.
Proof. destruct m; split; cbn; [eauto| |discriminate|]; intros (?&?&?); by simplify_eq. Qed.

Lemma ok_bind {A B} (a : A) (f : A -> result B) : (Ok a ≫= f) = f a.
Proof. done. Qed.

Lemma assert_Ok b u : assert_ b = Ok u <-> b = true.
Proof. destruct b, u; cbn; split; congruence. Qed.

Lemma of_option_Ok {A} e (o : option A) a : of_option e o = Ok a <-> o = Some a.
Proof. destruct o; cbn; split; congruence. Qed.

(** Invert every [m ≫= k = Ok _] and [assert_ _ = Ok _] in the context. *)
Ltac inv_ok :=
  repeat match goal with
  | H : (_ ≫= _) = Ok _ |- _ =>
      apply bind_Ok in H; let a := fresh "a" in destruct H as (a & ? & H)
  | H : assert_ _ = Ok ?u |- _ => apply assert_Ok in H
  | H : of_option _ _ = Ok _ |- _ => apply of_option_Ok in H
  | H : Ok _ = Ok _ |- _ => injection H as H
  | H : Err _ = Ok _ |- _ => discriminate H
  end.

(** Prove a decidable proposition by evaluating its decision procedure; the
    evaluated term is a boolean, so no class instance is normalised. *)
Ltac vm_decide := refine (bool_decide_eq_true_1 _ _); vm_compute; reflexivity.

(** ** Fixed-width integers

    [wrap w z] is [z] reduced to [w] bits, [sgn w v] the two's complement
    reading of a [w]-bit value. *)
Definition wrap (w z : Z) : Z := z mod 2 ^ w.
Definition sgn (w v : Z) : Z := if v <? 2 ^ (w - 1) then v else v - 2 ^ w.

(** [size_t] and [uint64_t] are 64 bits wide, [SIZE_MAX] is the largest. *)
Definition SIZE_MAX : Z := 2 ^ 64 - 1.

Section widths.
Context (w : Z) (Hw : 0 <= w).

Lemma pow2_pos : 0 < 2 ^ w.
Proof using Hw. by apply Z.pow_pos_nonneg. Qed.

Lemma wrap_range z : 0 <= wrap w z < 2 ^ w.
Proof using Hw. apply Z.mod_pos_bound, pow2_pos. Qed.

Lemma wrap_small z : 0 <= z < 2 ^ w -> wrap w z = z.
Proof using. apply Z.mod_small. Qed.

Lemma wrap_wrap z : wrap w (wrap w z) = wrap w z.
Proof using Hw. apply wrap_small, wrap_range. Qed.

Lemma testbit_wrap z i :
  0 <= i -> Z.testbit (wrap w z) i = (i <? w) && Z.testbit z i.
Proof using Hw.
  intros Hi. unfold wrap. destruct (Z.ltb_spec i w).
  - by rewrite Z.mod_pow2_bits_low.
  - by rewrite Z.mod_pow2_bits_high.
Qed.

Lemma testbit_high v i : 0 <= v < 2 ^ w -> w <= i -> Z.testbit v i = false.
Proof using Hw.
  intros Hv Hi. rewrite <- (Z.mod_small v (2 ^ w)) by done.
  by apply Z.mod_pow2_bits_high.
Qed.

(** Two [w]-bit values that agree on every bit below [w] are equal. *)
Lemma bits_eq u v :
  0 <= u < 2 ^ w -> 0 <= v < 2 ^ w ->
  (forall i, 0 <= i < w -> Z.testbit u i = Z.testbit v i) -> u = v.
Proof using Hw.
  intros Hu Hv H. apply Z.bits_inj'. intros i Hi.
  destruct (decide (i < w)); [by apply H|].
  by rewrite !testbit_high by lia.
Qed.

Lemma sgn_range v : 0 < w -> 0 <= v < 2 ^ w -> - 2 ^ (w - 1) <= sgn w v < 2 ^ (w - 1).
Proof using Hw.
  intros ? ?. unfold sgn.
  assert (2 ^ w = 2 * 2 ^ (w - 1)) as E.
  { rewrite <- Z.pow_succ_r by lia. f_equal; lia. }
  destruct (Z.ltb_spec v (2 ^ (w - 1))); lia.
Qed.

Lemma wrap_sgn v : 0 <= v < 2 ^ w -> wrap w (sgn w v) = v.
Proof using Hw.
  intros ?. unfold sgn. case_match; [by apply wrap_small|].
  unfold wrap. rewrite Zminus_mod, Z_mod_same_full, Z.sub_0_r, Z.mod_mod by lia.
  by apply Z.mod_small.
Qed.

Lemma sgn_inj u v : 0 <= u < 2 ^ w -> 0 <= v < 2 ^ w -> sgn w u = sgn w v -> u = v.
Proof using Hw. intros ? ? E. by rewrite <- (wrap_sgn u), <- (wrap_sgn v), E. Qed.

Lemma wrap_add_l a b : wrap w (wrap w a + b) = wrap w (a + b).
Proof using Hw. apply Zplus_mod_idemp_l. Qed.
Lemma wrap_add_r a b : wrap w (a + wrap w b) = wrap w (a + b).
Proof using Hw. apply Zplus_mod_idemp_r. Qed.
End widths.

(** [ones_up w n] has the bits [n .. w-1] set, as [APInt::getBitsSetFrom]. *)
Definition ones_up (w n : Z) : Z := Z.ones w - Z.ones n.

Lemma testbit_ones_up w n i :
  0 <= n <= w -> 0 <= i -> Z.testbit (ones_up w n) i = (n <=? i) && (i <? w).
Proof.
  intros Hn Hi. unfold ones_up.
  replace (Z.ones w - Z.ones n) with (Z.shiftl (Z.ones (w - n)) n).
  - rewrite Z.shiftl_spec by done. rewrite Z.testbit_ones by lia.
    destruct (Z.leb_spec n i), (Z.ltb_spec i w), (Z.leb_spec 0 (i - n)),
      (Z.ltb_spec (i - n) (w - n)); lia || done.
  - rewrite Z.shiftl_mul_pow2, !Z.ones_equiv by lia.
    assert (2 ^ w = 2 ^ (w - n) * 2 ^ n) as -> by (rewrite <- Z.pow_add_r by lia; f_equal; lia).
    lia.
Qed.

(** Bitwise extensionality: prove an equality of non-negative bit expressions
    by looking at one bit. *)
Ltac zbits :=
  apply Z.bits_inj'; let i := fresh "i" in intros i ?;
  repeat first
    [ rewrite Z.land_spec | rewrite Z.lor_spec | rewrite Z.lxor_spec
    | rewrite Z.shiftl_spec by lia | rewrite Z.shiftr_spec by lia
    | rewrite testbit_wrap by lia | rewrite testbit_ones_up by lia
    | rewrite Z.testbit_ones_nonneg by lia
    | rewrite Z.lnot_spec by lia | rewrite Z.bits_0 ].

(** ** Lists *)
Lemma Forall_filter {A} (P Q : A -> Prop) `{forall x, Decision (Q x)} (l : list A) :
  Forall P l -> Forall P (filter Q l).
Proof. rewrite !Forall_forall. intros Hl x Hx. apply list_elem_of_filter in Hx as [_ Hx]. auto. Qed.
