(* ===== verification/LLVM.v ===== *)
(** The parts of LLVM that caffeine's sources call and that are not part of
    the repository: [llvm::APInt] and [llvm::APFloat].

    They are parameters of the development.  [APIntAPI] and [APFloatAPI] list
    the members the sources use and the documented behaviour they rely on; the
    components are written and proved against these classes.  [bits_APInt] and
    [bits_APFloat] at the end of the file are concrete implementations that
    satisfy every law, used to evaluate the model on concrete inputs. *)
From S2P Require Import Prelude.
From stdpp Require Import vector.
Open Scope Z_scope.

(** ** llvm::APInt

    [getBitWidth] is the width in bits, [getZExtValue] the unsigned value (the
    sources use it through comparisons and [getLimitedValue]), [APInt_of w v]
    the constructor [APInt(numBits, val, isSigned)], whose argument is reduced
    to the width.  The constructor asserts that the width is positive and the
    binary members assert that the widths of their arguments agree; the laws say
    nothing where these assertions fail. *)
Class APIntAPI := {
  APInt : Type;
  APInt_eq_dec :: EqDecision APInt;
  getBitWidth : APInt -> Z;
  getZExtValue : APInt -> Z;
  APInt_of : Z -> Z -> APInt;

  ap_add : APInt -> APInt -> APInt;
  ap_sub : APInt -> APInt -> APInt;
  ap_mul : APInt -> APInt -> APInt;
  ap_udiv : APInt -> APInt -> APInt;
  ap_sdiv : APInt -> APInt -> APInt;
  ap_urem : APInt -> APInt -> APInt;
  ap_srem : APInt -> APInt -> APInt;
  ap_and : APInt -> APInt -> APInt;
  ap_or : APInt -> APInt -> APInt;
  ap_xor : APInt -> APInt -> APInt;
  ap_shl : APInt -> APInt -> APInt;
  ap_lshr : APInt -> APInt -> APInt;
  ap_ashr : APInt -> APInt -> APInt;
  ap_not : APInt -> APInt;
  ap_trunc : APInt -> Z -> APInt;
  ap_zext : APInt -> Z -> APInt;
  ap_sext : APInt -> Z -> APInt;
  ap_sextOrTrunc : APInt -> Z -> APInt;

  ap_eq : APInt -> APInt -> bool;
  ap_eq_u64 : APInt -> Z -> bool;
  ap_ult_u64 : APInt -> Z -> bool;
  ap_ult : APInt -> APInt -> bool;
  ap_ule : APInt -> APInt -> bool;
  ap_ugt : APInt -> APInt -> bool;
  ap_uge : APInt -> APInt -> bool;
  ap_slt : APInt -> APInt -> bool;
  ap_sle : APInt -> APInt -> bool;
  ap_sgt : APInt -> APInt -> bool;
  ap_sge : APInt -> APInt -> bool;
  isAllOnesValue : APInt -> bool;
  isNullValue : APInt -> bool;
  isMinSignedValue : APInt -> bool;
  isPowerOf2 : APInt -> bool;
  getBoolValue : APInt -> bool;
  getLimitedValue : APInt -> Z -> Z;

  getMaxValue : Z -> APInt;
  getSignedMaxValue : Z -> APInt;
  getSignedMinValue : Z -> APInt;
  getNullValue : Z -> APInt;
  getBitsSetFrom : Z -> Z -> APInt;
  getLowBitsSet : Z -> Z -> APInt;

  (** A value is its width and its unsigned reading. *)
  APInt_width_pos : forall a, 0 < getBitWidth a;
  APInt_range : forall a, 0 <= getZExtValue a < 2 ^ getBitWidth a;
  APInt_eta : forall a, APInt_of (getBitWidth a) (getZExtValue a) = a;
  APInt_of_width : forall w v, 0 < w -> getBitWidth (APInt_of w v) = w;
  APInt_of_value : forall w v, 0 < w -> getZExtValue (APInt_of w v) = wrap w v;

  (** Arithmetic modulo [2^w]; division truncates towards zero. *)
  ap_add_spec : forall a b, getBitWidth a = getBitWidth b ->
    ap_add a b = APInt_of (getBitWidth a) (getZExtValue a + getZExtValue b);
  ap_sub_spec : forall a b, getBitWidth a = getBitWidth b ->
    ap_sub a b = APInt_of (getBitWidth a) (getZExtValue a - getZExtValue b);
  ap_mul_spec : forall a b, getBitWidth a = getBitWidth b ->
    ap_mul a b = APInt_of (getBitWidth a) (getZExtValue a * getZExtValue b);
  ap_udiv_spec : forall a b, getBitWidth a = getBitWidth b -> getZExtValue b <> 0 ->
    ap_udiv a b = APInt_of (getBitWidth a) (getZExtValue a / getZExtValue b);
  ap_urem_spec : forall a b, getBitWidth a = getBitWidth b -> getZExtValue b <> 0 ->
    ap_urem a b = APInt_of (getBitWidth a) (getZExtValue a mod getZExtValue b);
  ap_sdiv_spec : forall a b, getBitWidth a = getBitWidth b -> getZExtValue b <> 0 ->
    ap_sdiv a b = APInt_of (getBitWidth a)
      (Z.quot (sgn (getBitWidth a) (getZExtValue a)) (sgn (getBitWidth b) (getZExtValue b)));
  ap_srem_spec : forall a b, getBitWidth a = getBitWidth b -> getZExtValue b <> 0 ->
    ap_srem a b = APInt_of (getBitWidth a)
      (Z.rem (sgn (getBitWidth a) (getZExtValue a)) (sgn (getBitWidth b) (getZExtValue b)));

  (** Bit operations; a shift by the width or more shifts every bit out. *)
  ap_and_spec : forall a b, getBitWidth a = getBitWidth b ->
    ap_and a b = APInt_of (getBitWidth a) (Z.land (getZExtValue a) (getZExtValue b));
  ap_or_spec : forall a b, getBitWidth a = getBitWidth b ->
    ap_or a b = APInt_of (getBitWidth a) (Z.lor (getZExtValue a) (getZExtValue b));
  ap_xor_spec : forall a b, getBitWidth a = getBitWidth b ->
    ap_xor a b = APInt_of (getBitWidth a) (Z.lxor (getZExtValue a) (getZExtValue b));
  ap_shl_spec : forall a b,
    ap_shl a b = APInt_of (getBitWidth a) (Z.shiftl (getZExtValue a) (getZExtValue b));
  ap_lshr_spec : forall a b,
    ap_lshr a b = APInt_of (getBitWidth a) (Z.shiftr (getZExtValue a) (getZExtValue b));
  ap_ashr_spec : forall a b,
    ap_ashr a b = APInt_of (getBitWidth a)
      (Z.shiftr (sgn (getBitWidth a) (getZExtValue a)) (getZExtValue b));
  ap_not_spec : forall a, ap_not a = APInt_of (getBitWidth a) (Z.lnot (getZExtValue a));

  (** Changes of width. *)
  ap_trunc_spec : forall a w, 0 < w <= getBitWidth a ->
    ap_trunc a w = APInt_of w (getZExtValue a);
  ap_zext_spec : forall a w, getBitWidth a <= w ->
    ap_zext a w = APInt_of w (getZExtValue a);
  ap_sext_spec : forall a w, 0 < getBitWidth a <= w ->
    ap_sext a w = APInt_of w (sgn (getBitWidth a) (getZExtValue a));
  ap_sextOrTrunc_spec : forall a w, 0 < getBitWidth a -> 0 < w ->
    ap_sextOrTrunc a w = APInt_of w (sgn (getBitWidth a) (getZExtValue a));

  (** Comparisons. *)
  ap_eq_spec : forall a b, getBitWidth a = getBitWidth b ->
    ap_eq a b = (getZExtValue a =? getZExtValue b);
  ap_eq_u64_spec : forall a v, ap_eq_u64 a v = (getZExtValue a =? v);
  ap_ult_u64_spec : forall a v, ap_ult_u64 a v = (getZExtValue a <? v);
  ap_ult_spec : forall a b, getBitWidth a = getBitWidth b ->
    ap_ult a b = (getZExtValue a <? getZExtValue b);
  ap_ule_spec : forall a b, getBitWidth a = getBitWidth b ->
    ap_ule a b = (getZExtValue a <=? getZExtValue b);
  ap_ugt_spec : forall a b, getBitWidth a = getBitWidth b ->
    ap_ugt a b = (getZExtValue b <? getZExtValue a);
  ap_uge_spec : forall a b, getBitWidth a = getBitWidth b ->
    ap_uge a b = (getZExtValue b <=? getZExtValue a);
  ap_slt_spec : forall a b, getBitWidth a = getBitWidth b ->
    ap_slt a b = (sgn (getBitWidth a) (getZExtValue a) <? sgn (getBitWidth b) (getZExtValue b));
  ap_sle_spec : forall a b, getBitWidth a = getBitWidth b ->
    ap_sle a b = (sgn (getBitWidth a) (getZExtValue a) <=? sgn (getBitWidth b) (getZExtValue b));
  ap_sgt_spec : forall a b, getBitWidth a = getBitWidth b ->
    ap_sgt a b = (sgn (getBitWidth b) (getZExtValue b) <? sgn (getBitWidth a) (getZExtValue a));
  ap_sge_spec : forall a b, getBitWidth a = getBitWidth b ->
    ap_sge a b = (sgn (getBitWidth b) (getZExtValue b) <=? sgn (getBitWidth a) (getZExtValue a));
  isAllOnesValue_spec : forall a,
    isAllOnesValue a = (getZExtValue a =? 2 ^ getBitWidth a - 1);
  isNullValue_spec : forall a, isNullValue a = (getZExtValue a =? 0);
  isMinSignedValue_spec : forall a,
    isMinSignedValue a = (getZExtValue a =? 2 ^ (getBitWidth a - 1));
  isPowerOf2_spec : forall a, isPowerOf2 a = (getZExtValue a =? 2 ^ Z.log2 (getZExtValue a));
  getBoolValue_spec : forall a, getBoolValue a = negb (getZExtValue a =? 0);
  getLimitedValue_spec : forall a l, getLimitedValue a l = Z.min (getZExtValue a) l;

  (** Constants. *)
  getMaxValue_spec : forall w, 0 < w -> getMaxValue w = APInt_of w (2 ^ w - 1);
  getSignedMaxValue_spec : forall w, 0 < w -> getSignedMaxValue w = APInt_of w (2 ^ (w - 1) - 1);
  getSignedMinValue_spec : forall w, 0 < w -> getSignedMinValue w = APInt_of w (2 ^ (w - 1));
  getNullValue_spec : forall w, 0 < w -> getNullValue w = APInt_of w 0;
  getBitsSetFrom_spec : forall w lo, 0 < w -> 0 <= lo <= w ->
    getBitsSetFrom w lo = APInt_of w (ones_up w lo);
  getLowBitsSet_spec : forall w n, 0 < w -> 0 <= n <= w ->
    getLowBitsSet w n = APInt_of w (Z.ones n)
}.

(** ** llvm::APFloat

    [fltSemantics] are the formats the sources name.  Arithmetic is opaque:
    only the format of a result, the comparison rules of IEEE 754 for NaN and
    the bit-pattern conversions matter to the components. *)
Inductive fltSemantics : Set :=
| IEEEhalf | BFloat | IEEEsingle | IEEEdouble | IEEEquad | x87DoubleExtended.

#[export] Instance fltSemantics_eq_dec : EqDecision fltSemantics.
Proof. solve_decision. Defined.

Inductive cmpResult : Set := cmpLessThan | cmpEqual | cmpGreaterThan | cmpUnordered.

#[export] Instance cmpResult_eq_dec : EqDecision cmpResult.
Proof. solve_decision. Defined.

Class APFloatAPI `{APIntAPI} := {
  APFloat : Type;
  semanticsPrecision : fltSemantics -> Z;
  semanticsSizeInBits : fltSemantics -> Z;
  getSemantics : APFloat -> fltSemantics;
  bitwiseIsEqual : APFloat -> APFloat -> bool;
  fl_add : APFloat -> APFloat -> APFloat;
  fl_sub : APFloat -> APFloat -> APFloat;
  fl_mul : APFloat -> APFloat -> APFloat;
  fl_div : APFloat -> APFloat -> APFloat;
  (** [remainder] updates its object and returns an [opStatus]. *)
  fl_remainder : APFloat -> APFloat -> APFloat * Z;
  fl_compare : APFloat -> APFloat -> cmpResult;
  isNaN : APFloat -> bool;
  getZero : fltSemantics -> APFloat;
  (** [APFloat(double)] at an integral double. *)
  APFloat_of_double : Z -> APFloat;
  bitcastToAPInt : APFloat -> APInt;
  APFloat_of_bits : fltSemantics -> APInt -> APFloat;

  (** The constants LLVM documents for each format. *)
  semanticsPrecision_spec : forall s, semanticsPrecision s =
    match s with
    | IEEEhalf => 11 | BFloat => 8 | IEEEsingle => 24
    | IEEEdouble => 53 | IEEEquad => 113 | x87DoubleExtended => 64
    end;
  semanticsSizeInBits_spec : forall s, semanticsSizeInBits s =
    match s with
    | IEEEhalf => 16 | BFloat => 16 | IEEEsingle => 32
    | IEEEdouble => 64 | IEEEquad => 128 | x87DoubleExtended => 80
    end;
  bitwiseIsEqual_spec : forall a b, bitwiseIsEqual a b = true <-> a = b;
  fl_add_sem : forall a b, getSemantics (fl_add a b) = getSemantics a;
  fl_sub_sem : forall a b, getSemantics (fl_sub a b) = getSemantics a;
  fl_mul_sem : forall a b, getSemantics (fl_mul a b) = getSemantics a;
  fl_div_sem : forall a b, getSemantics (fl_div a b) = getSemantics a;
  fl_remainder_sem : forall a b, getSemantics (fl_remainder a b).1 = getSemantics a;
  getZero_sem : forall s, getSemantics (getZero s) = s;
  APFloat_of_double_sem : forall d, getSemantics (APFloat_of_double d) = IEEEdouble;
  fl_compare_refl : forall a, isNaN a = false -> fl_compare a a = cmpEqual;
  fl_compare_nan : forall a b, isNaN a = true \/ isNaN b = true ->
    fl_compare a b = cmpUnordered;
  bitcast_width : forall a,
    getBitWidth (bitcastToAPInt a) = semanticsSizeInBits (getSemantics a);
  of_bits_sem : forall s a, getSemantics (APFloat_of_bits s a) = s;
  of_bits_bitcast : forall a, APFloat_of_bits (getSemantics a) (bitcastToAPInt a) = a;
  (** The x87 format has bit patterns that are not canonical. *)
  bitcast_of_bits : forall s a, s <> x87DoubleExtended ->
    getBitWidth a = semanticsSizeInBits s ->
    bitcastToAPInt (APFloat_of_bits s a) = a
}.

#[export] Instance APFloat_eq_dec `{APFloatAPI} : EqDecision APFloat.
Proof.
  intros a b. destruct (bitwiseIsEqual a b) eqn:E.
  - left. by apply bitwiseIsEqual_spec.
  - right. intros ->. assert (bitwiseIsEqual b b = true) by by apply bitwiseIsEqual_spec.
    congruence.
Defined.

(** ** llvm/Support/MathExtras.h

    [countLeadingZeros] of a 64-bit value; 64 for 0. *)
Class MathExtrasAPI := {
  countLeadingZeros : Z -> Z;
  countLeadingZeros_0 : countLeadingZeros 0 = 64;
  countLeadingZeros_pos : forall x, 0 < x < 2 ^ 64 -> countLeadingZeros x = 63 - Z.log2 x
}.

#[export, refine] Instance log2_MathExtras : MathExtrasAPI := {|
  countLeadingZeros x := if x =? 0 then 64 else 63 - Z.log2 x
|}.
Proof.
  - reflexivity.
  - intros x Hx. by rewrite (proj2 (Z.eqb_neq x 0)) by lia.
Defined.

(** ** Consequences of the APInt laws *)
Section apint.
Context `{APIntAPI}.

(** Two integers of the same width and value are equal. *)
Lemma APInt_ext a b :
  getBitWidth a = getBitWidth b -> getZExtValue a = getZExtValue b -> a = b.
Proof. intros Hw Hv. by rewrite <- (APInt_eta a), <- (APInt_eta b), Hw, Hv. Qed.

Lemma APInt_width_nonneg a : 0 <= getBitWidth a.
Proof. pose proof (APInt_width_pos a). lia. Qed.

Lemma APInt_of_wrap w v : 0 < w -> APInt_of w (wrap w v) = APInt_of w v.
Proof.
  intros. apply APInt_ext; rewrite ?APInt_of_width, ?APInt_of_value by done; [done|].
  apply wrap_wrap. lia.
Qed.

Lemma APInt_of_eq w u v : 0 < w -> wrap w u = wrap w v -> APInt_of w u = APInt_of w v.
Proof. intros ? E. by rewrite <- APInt_of_wrap, E, APInt_of_wrap. Qed.

Lemma APInt_of_is a w v :
  getBitWidth a = w -> wrap w v = getZExtValue a -> APInt_of w v = a.
Proof.
  intros <- E. rewrite <- (APInt_eta a) at 2. apply APInt_of_eq; [apply APInt_width_pos|].
  rewrite E. symmetry. apply wrap_small, APInt_range.
Qed.

Lemma getZExtValue_nonneg a : 0 <= getZExtValue a.
Proof. apply APInt_range. Qed.

Lemma wrap_value a : wrap (getBitWidth a) (getZExtValue a) = getZExtValue a.
Proof. apply wrap_small, APInt_range. Qed.
End apint.

(** ** A concrete [APInt]: little-endian lists of bits, at least one *)
Fixpoint bits_val (l : list bool) : Z :=
  match l with [] => 0 | b :: l => Z.b2z b + 2 * bits_val l end.
Fixpoint bits_of (n : nat) (z : Z) : list bool :=
  match n with O => [] | S n => Z.odd z :: bits_of n (Z.div2 z) end.

Definition bits : Type := bool * list bool.
Definition bits_list (a : bits) : list bool := a.1 :: a.2.
Definition bits_mk (w z : Z) : bits := (Z.odd z, bits_of (Z.to_nat (w - 1)) (Z.div2 z)).
Definition bits_width (a : bits) : Z := Z.of_nat (length (bits_list a)).
Definition bits_value (a : bits) : Z := bits_val (bits_list a).
Definition bits_sgn (a : bits) : Z := sgn (bits_width a) (bits_value a).

Lemma bits_of_length n z : length (bits_of n z) = n.
Proof. revert z; induction n; intros; cbn; auto. Qed.

Lemma bits_val_range l : 0 <= bits_val l < 2 ^ Z.of_nat (length l).
Proof.
  induction l as [|b l IH]; [cbn; lia|].
  cbn [bits_val length]. rewrite Nat2Z.inj_succ, Z.pow_succ_r by lia.
  destruct b; cbn [Z.b2z]; lia.
Qed.

Lemma bits_val_of n z : bits_val (bits_of n z) = wrap (Z.of_nat n) z.
Proof.
  unfold wrap. revert z; induction n; intros; [symmetry; apply Z.mod_1_r|].
  cbn [bits_val bits_of]. rewrite IHn, Nat2Z.inj_succ, Z.pow_succ_r by lia.
  rewrite Z.rem_mul_r, Z.div2_div by (try apply Z.pow_pos_nonneg; lia).
  by rewrite (Zmod_odd z); destruct (Z.odd z).
Qed.

Lemma bits_of_val l : bits_of (length l) (bits_val l) = l.
Proof.
  induction l as [|b l IH]; [done|]. cbn [bits_of bits_val length].
  rewrite Z.odd_add_mul_2, Z.div2_div. f_equal; [by destruct b|].
  rewrite Z.mul_comm, Z.div_add by lia.
  by replace (Z.b2z b / 2) with 0 by (by destruct b).
Qed.

Lemma bits_mk_list w z : 0 < w -> bits_list (bits_mk w z) = bits_of (Z.to_nat w) z.
Proof. intros Hw. unfold bits_list, bits_mk. replace (Z.to_nat w) with (S (Z.to_nat (w - 1))) by lia. done. Qed.
Lemma bits_mk_width w z : 0 < w -> bits_width (bits_mk w z) = w.
Proof. intros Hw. unfold bits_width. rewrite bits_mk_list, bits_of_length by done. lia. Qed.
Lemma bits_mk_value w z : 0 < w -> bits_value (bits_mk w z) = wrap w z.
Proof. intros Hw. unfold bits_value. rewrite bits_mk_list, bits_val_of by done. f_equal. lia. Qed.
Lemma bits_list_inj a b : bits_list a = bits_list b -> a = b.
Proof. destruct a, b. unfold bits_list. cbn. congruence. Qed.
Lemma bits_mk_eta a : bits_mk (bits_width a) (bits_value a) = a.
Proof.
  apply bits_list_inj. unfold bits_width. rewrite bits_mk_list by (unfold bits_list; cbn [length]; lia). rewrite Nat2Z.id. apply bits_of_val.
Qed.

#[export, refine] Instance bits_APInt : APIntAPI := {|
  APInt := bits;
  getBitWidth := bits_width;
  getZExtValue := bits_value;
  APInt_of := bits_mk;
  ap_add a b := bits_mk (bits_width a) (bits_value a + bits_value b);
  ap_sub a b := bits_mk (bits_width a) (bits_value a - bits_value b);
  ap_mul a b := bits_mk (bits_width a) (bits_value a * bits_value b);
  ap_udiv a b := bits_mk (bits_width a) (bits_value a / bits_value b);
  ap_sdiv a b := bits_mk (bits_width a) (Z.quot (bits_sgn a) (bits_sgn b));
  ap_urem a b := bits_mk (bits_width a) (bits_value a mod bits_value b);
  ap_srem a b := bits_mk (bits_width a) (Z.rem (bits_sgn a) (bits_sgn b));
  ap_and a b := bits_mk (bits_width a) (Z.land (bits_value a) (bits_value b));
  ap_or a b := bits_mk (bits_width a) (Z.lor (bits_value a) (bits_value b));
  ap_xor a b := bits_mk (bits_width a) (Z.lxor (bits_value a) (bits_value b));
  ap_shl a b := bits_mk (bits_width a) (Z.shiftl (bits_value a) (bits_value b));
  ap_lshr a b := bits_mk (bits_width a) (Z.shiftr (bits_value a) (bits_value b));
  ap_ashr a b := bits_mk (bits_width a) (Z.shiftr (bits_sgn a) (bits_value b));
  ap_not a := bits_mk (bits_width a) (Z.lnot (bits_value a));
  ap_trunc a w := bits_mk w (bits_value a);
  ap_zext a w := bits_mk w (bits_value a);
  ap_sext a w := bits_mk w (bits_sgn a);
  ap_sextOrTrunc a w := bits_mk w (bits_sgn a);
  ap_eq a b := bits_value a =? bits_value b;
  ap_eq_u64 a v := bits_value a =? v;
  ap_ult_u64 a v := bits_value a <? v;
  ap_ult a b := bits_value a <? bits_value b;
  ap_ule a b := bits_value a <=? bits_value b;
  ap_ugt a b := bits_value b <? bits_value a;
  ap_uge a b := bits_value b <=? bits_value a;
  ap_slt a b := bits_sgn a <? bits_sgn b;
  ap_sle a b := bits_sgn a <=? bits_sgn b;
  ap_sgt a b := bits_sgn b <? bits_sgn a;
  ap_sge a b := bits_sgn b <=? bits_sgn a;
  isAllOnesValue a := bits_value a =? 2 ^ bits_width a - 1;
  isNullValue a := bits_value a =? 0;
  isMinSignedValue a := bits_value a =? 2 ^ (bits_width a - 1);
  isPowerOf2 a := bits_value a =? 2 ^ Z.log2 (bits_value a);
  getBoolValue a := negb (bits_value a =? 0);
  getLimitedValue a l := Z.min (bits_value a) l;
  getMaxValue w := bits_mk w (2 ^ w - 1);
  getSignedMaxValue w := bits_mk w (2 ^ (w - 1) - 1);
  getSignedMinValue w := bits_mk w (2 ^ (w - 1));
  getNullValue w := bits_mk w 0;
  getBitsSetFrom w lo := bits_mk w (ones_up w lo);
  getLowBitsSet w n := bits_mk w (Z.ones n)
|}.
Proof.
  all: try done; intros.
  - apply bits_val_range.
  - apply bits_mk_eta.
  - by apply bits_mk_width.
  - by apply bits_mk_value.
Defined.

(** ** A concrete [APFloat]: bit patterns of each format

    Comparison is the IEEE one on sign and magnitude; arithmetic returns its
    left argument, which satisfies the (few) laws asked of it. *)
Definition flt_size (s : fltSemantics) : nat :=
  match s with
  | IEEEhalf => 16 | BFloat => 16 | IEEEsingle => 32
  | IEEEdouble => 64 | IEEEquad => 128 | x87DoubleExtended => 80
  end%nat.
Definition flt_prec (s : fltSemantics) : Z :=
  match s with
  | IEEEhalf => 11 | BFloat => 8 | IEEEsingle => 24
  | IEEEdouble => 53 | IEEEquad => 113 | x87DoubleExtended => 64
  end.
Definition flt_bits : Type := {s : fltSemantics & vec bool (flt_size s)}.

Definition flt_raw (f : flt_bits) : Z := bits_val (vec_to_list (projT2 f)).
Definition flt_mag (f : flt_bits) : Z := flt_raw f mod 2 ^ (Z.of_nat (flt_size (projT1 f)) - 1).
Definition flt_inf (s : fltSemantics) : Z :=
  2 ^ (Z.of_nat (flt_size s) - 1) - 2 ^ (flt_prec s - 1).
Definition flt_nan (f : flt_bits) : bool := flt_inf (projT1 f) <? flt_mag f.
Definition flt_key (f : flt_bits) : Z :=
  if flt_raw f =? flt_mag f then flt_mag f else - flt_mag f.
Fixpoint vec_of (n : nat) (z : Z) : vec bool n :=
  match n with O => vnil | S n => vcons (Z.odd z) (vec_of n (Z.div2 z)) end.
Definition flt_of (s : fltSemantics) (z : Z) : flt_bits := existT s (vec_of (flt_size s) z).
Definition flt_cmp (a b : flt_bits) : cmpResult :=
  if flt_nan a || flt_nan b then cmpUnordered
  else match flt_key a ?= flt_key b with
       | Lt => cmpLessThan | Eq => cmpEqual | Gt => cmpGreaterThan
       end.
Definition flt_eqb (a b : flt_bits) : bool :=
  bool_decide (projT1 a = projT1 b /\ vec_to_list (projT2 a) = vec_to_list (projT2 b)).

Lemma vec_of_list n z : vec_to_list (vec_of n z) = bits_of n z.
Proof. revert z; induction n as [|n IH]; intros z; cbn; [done|]. by rewrite IH. Qed.

Lemma flt_of_list s z : vec_to_list (projT2 (flt_of s z)) = bits_of (flt_size s) z.
Proof. apply vec_of_list. Qed.

Lemma flt_ext (a b : flt_bits) :
  projT1 a = projT1 b -> vec_to_list (projT2 a) = vec_to_list (projT2 b) -> a = b.
Proof.
  destruct a as [s v], b as [s' v']; cbn. intros <- E. f_equal. by apply vec_to_list_inj2.
Qed.

#[export, refine] Instance bits_APFloat : APFloatAPI := {|
  APFloat := flt_bits;
  semanticsPrecision := flt_prec;
  semanticsSizeInBits s := Z.of_nat (flt_size s);
  getSemantics := projT1;
  bitwiseIsEqual := flt_eqb;
  fl_add a b := a; fl_sub a b := a; fl_mul a b := a; fl_div a b := a;
  fl_remainder a b := (a, 0);
  fl_compare := flt_cmp;
  isNaN := flt_nan;
  getZero s := flt_of s 0;
  APFloat_of_double d := flt_of IEEEdouble d;
  bitcastToAPInt f := bits_mk (Z.of_nat (flt_size (projT1 f))) (flt_raw f);
  APFloat_of_bits s a := flt_of s (bits_value a)
|}.
Proof.
  all: try done.
  - by intros [].
  - intros a b. unfold flt_eqb. rewrite bool_decide_eq_true.
    split; [intros []; by apply flt_ext|by intros ->].
  - intros a Ha. unfold flt_cmp. by rewrite Ha, Z.compare_refl.
  - intros a b [E|E]; unfold flt_cmp; rewrite E; by rewrite ?orb_true_r.
  - intros [s v]. cbn. apply bits_mk_width. by destruct s.
  - intros [s v]. apply flt_ext; [done|]. cbn -[flt_size flt_of bits_mk bits_value]. rewrite flt_of_list. unfold bits_value.
    rewrite bits_mk_list by by destruct s. rewrite Nat2Z.id, bits_val_of. unfold flt_raw. cbn -[flt_size].
    pose proof (bits_val_range (vec_to_list v)) as Hr. pose proof (bits_of_val (vec_to_list v)) as Hv.
    rewrite length_vec_to_list in Hr, Hv. by rewrite wrap_small.
  - intros s a _ Ha. cbn -[flt_size flt_of bits_mk bits_value] in *. apply bits_list_inj. unfold bits_width in Ha.
    rewrite bits_mk_list by by destruct s. unfold flt_raw. rewrite Nat2Z.id, flt_of_list. unfold bits_value. cbn [projT1 flt_of].
    assert (length (bits_list a) = flt_size s) as <- by lia. by rewrite !bits_of_val.
Defined.
