(* ===== verification/IRType.v ===== *)
(** Expression types: [caffeine::Type] (include/caffeine/IR/Type.h,
    include/caffeine/IR/Type.inl, src/IR/Type.cpp).

    A [Ty] is the packed descriptor of the class: a kind, a 24-bit payload and
    a pointer to an LLVM type.  The constructors, accessors, byte sizes and the
    translation of LLVM types follow the sources, assertions included. *)
From S2P Require Import Prelude LLVM.
Open Scope Z_scope.

Inductive Kind : Set :=
| KVoid | KInteger | KFloatingPoint | KPointer | KFunction | KArray | KVector.

#[export] Instance Kind_eq_dec : EqDecision Kind.
Proof. solve_decision. Defined.

(** [kind_] and [desc_] are bit fields of 8 and 24 bits; [llvm_] is a pointer,
    0 when null. *)
Record Ty : Set := mkTy { kind_ : Kind; desc_ : Z; llvm_ : Z }.

#[export] Instance Ty_eq_dec : EqDecision Ty.
Proof. solve_decision. Defined.

(** [Type::operator==]. *)
Definition ty_eqb (a b : Ty) : bool :=
  bool_decide (kind_ a = kind_ b) && (desc_ a =? desc_ b) && (llvm_ a =? llvm_ b).

(** The private constructor of a kind, a descriptor and an LLVM type. *)
Definition Type_ctor (kind : Kind) (desc inner : Z) : result Ty :=
  assert_ (desc <? 2 ^ 24) ;; Ok (mkTy kind desc inner).

Definition int_ty (bitwidth : Z) : result Ty :=
  assert_ (negb (bitwidth =? 0) && (bitwidth <? 2 ^ 24)) ;;
  Type_ctor KInteger bitwidth 0.
Definition void_ty : Ty := mkTy KVoid 0 0.
Definition bool_ty : Ty := mkTy KInteger 1 0.
Definition float_ty (exponent mantissa : Z) : result Ty :=
  assert_ (negb (exponent =? 0) && (exponent <? 2 ^ 12)) ;;
  assert_ (negb (mantissa =? 0) && (mantissa <? 2 ^ 12)) ;;
  Type_ctor KFloatingPoint (Z.lor (Z.shiftl exponent 12) mantissa) 0.
Definition pointer_ty : Ty := mkTy KPointer 0 0.
Definition array_ty (bitwidth : Z) : result Ty := Type_ctor KArray bitwidth 0.
Definition vector_ty : Ty := mkTy KVector 0 0.

Definition is_int (t : Ty) : bool := bool_decide (kind_ t = KInteger).
Definition is_float (t : Ty) : bool := bool_decide (kind_ t = KFloatingPoint).
Definition is_pointer (t : Ty) : bool := bool_decide (kind_ t = KPointer).
Definition is_void (t : Ty) : bool := bool_decide (kind_ t = KVoid).
Definition is_function (t : Ty) : bool := bool_decide (kind_ t = KFunction).
Definition is_array (t : Ty) : bool := bool_decide (kind_ t = KArray).
Definition is_vector (t : Ty) : bool := bool_decide (kind_ t = KVector).

Definition bitwidth (t : Ty) : result Z :=
  assert_ (is_int t || is_array t) ;; Ok (desc_ t).
Definition mantissa_bits (t : Ty) : result Z :=
  assert_ (is_float t) ;; Ok (Z.land (desc_ t) 0xFFF).
Definition exponent_bits (t : Ty) : result Z :=
  assert_ (is_float t) ;; Ok (Z.shiftr (desc_ t) 12).

(** [divceil], in [uint32_t] arithmetic. *)
Definition divceil (x y : Z) : Z := wrap 32 (x + wrap 32 (y - 1)) / y.

(** The size of a pointer is the data layout's. *)
Class DataLayout := { getPointerSize : Z }.

Definition byte_size `{DataLayout} (t : Ty) : result Z :=
  match kind_ t with
  | KVoid => Ok 0
  | KInteger => w ← bitwidth t; Ok (divceil w 8)
  | KFloatingPoint =>
      m ← mantissa_bits t; e ← exponent_bits t; Ok (divceil (wrap 32 (m + e)) 8)
  | KPointer => Ok getPointerSize
  | KFunction | KArray | KVector => Err Aborted
  end.

(** [type_of<T>] for the C++ types of [sizeof(T)] bytes, and for [double],
    [float], [void] and [bool]. *)
Definition type_of_integral (sizeof : Z) : result Ty := int_ty (sizeof * 8).
Definition type_of_double : result Ty := float_ty 11 53.
Definition type_of_float : result Ty := float_ty 8 24.
Definition type_of_void : Ty := void_ty.
Definition type_of_bool : Ty := bool_ty.

(** [type_of(const APInt&)] and [type_of(const APFloat&)]. *)
Definition type_of_apint `{APIntAPI} (a : APInt) : result Ty := int_ty (getBitWidth a).
Definition type_of_apfloat `{APFloatAPI} (f : APFloat) : result Ty :=
  let semantics := getSemantics f in
  let mantissa := semanticsPrecision semantics in
  let exponent := wrap 32 (semanticsSizeInBits semantics - mantissa) in
  float_ty exponent mantissa.

(** The LLVM types the translation distinguishes ([isVoidTy], [isHalfTy], ...). *)
Inductive llvm_type : Set :=
| LVoid | LHalf | LFloat | LDouble | LFP128 | LX86_FP80 | LPPC_FP128
| LInteger (w : Z)
| LPointer (pointee_is_function : bool) (addrspace : Z)
| LFunction | LToken | LMetadata | LLabel
| LArray (n : Z) (elem : llvm_type)
| LVector (n : Z) (elem : llvm_type)
| LStruct (elems : list llvm_type)
| LOther.

Definition from_llvm (t : llvm_type) : result Ty :=
  match t with
  | LVector _ _ | LToken | LMetadata | LLabel | LStruct _ | LFunction | LArray _ _ =>
      Err AssertFailed
  | LVoid => Ok void_ty
  | LHalf => float_ty 5 11
  | LFloat => float_ty 8 24
  | LDouble => float_ty 11 53
  | LFP128 => float_ty 15 113
  | LX86_FP80 => float_ty 15 64
  | LPPC_FP128 => Err Unimplemented
  | LInteger w => int_ty w
  | LPointer _ _ => Type_ctor KPointer 0 0
  | LOther => Err Unimplemented
  end.

Definition semanticsSizes `{APFloatAPI} (s : fltSemantics) : Z * Z :=
  let size := semanticsSizeInBits s in
  let sbits := semanticsPrecision s in
  (wrap 32 (size - sbits), sbits).

Definition llvm_flt_semantics `{APFloatAPI} (t : Ty) : result (option fltSemantics) :=
  assert_ (is_float t) ;;
  d ← type_of_double;
  if ty_eqb t d then Ok (Some IEEEdouble) else
  f ← type_of_float;
  if ty_eqb t f then Ok (Some IEEEsingle) else
  e ← exponent_bits t; m ← mantissa_bits t;
  let sizes := (e, m) in
  Ok (if bool_decide (sizes = semanticsSizes IEEEhalf) then Some IEEEhalf
      else if bool_decide (sizes = semanticsSizes IEEEquad) then Some IEEEquad
      else if bool_decide (sizes = semanticsSizes x87DoubleExtended)
           then Some x87DoubleExtended
      else if bool_decide (sizes = semanticsSizes BFloat) then Some BFloat
      else None).

(** ** Lemmas *)

Lemma ty_eqb_eq a b : ty_eqb a b = true <-> a = b.
Proof.
  unfold ty_eqb. rewrite !andb_true_iff, bool_decide_eq_true, !Z.eqb_eq.
  destruct a, b; cbn; naive_solver.
Qed.
Lemma ty_eqb_refl t : ty_eqb t t = true.
Proof. by apply ty_eqb_eq. Qed.

(** The descriptor of the [w]-bit integer type. *)
Definition ity (w : Z) : Ty := mkTy KInteger w 0.
(** The descriptor of an array indexed by [w]-bit integers. *)
Definition aty (w : Z) : Ty := mkTy KArray w 0.
(** The widths the integer types can have. *)
Definition good_width (w : Z) : Prop := 0 < w < 2 ^ 24.

Lemma bitwidth_ity w : bitwidth (ity w) = Ok w.
Proof. done. Qed.
Lemma assert_int w : assert_ (is_int (ity w)) = Ok tt.
Proof. done. Qed.

(** Run the checks of a constructor whose operands are integers. *)
Ltac run_ok := repeat first [rewrite ok_bind | rewrite assert_int | rewrite bitwidth_ity].

Lemma bitwidth_aty w : bitwidth (aty w) = Ok w.
Proof. done. Qed.

Lemma int_ty_Ok w t : 0 <= w -> int_ty w = Ok t <-> good_width w /\ t = ity w.
Proof.
  intros Hw. unfold int_ty, Type_ctor, good_width, ity. split.
  - intros E. inv_ok. subst. apply andb_true_iff in H as [H1 H2].
    apply negb_true_iff, Z.eqb_neq in H1. split; [lia|done].
  - intros [? ->]. rewrite (proj2 (Z.eqb_neq w 0)), (proj2 (Z.ltb_lt w (2 ^ 24))) by lia. done.
Qed.

Lemma int_ty_good w : good_width w -> int_ty w = Ok (ity w).
Proof. intros [? ?]. apply int_ty_Ok; [lia|]. split; [by split|done]. Qed.

Lemma array_ty_good w : good_width w -> array_ty w = Ok (aty w).
Proof.
  intros [? ?]. unfold array_ty, Type_ctor.
  rewrite (proj2 (Z.ltb_lt w (2 ^ 24))) by lia. done.
Qed.

Lemma float_desc e m :
  0 <= e -> 0 <= m < 2 ^ 12 ->
  Z.land (Z.lor (Z.shiftl e 12) m) 0xFFF = m /\ Z.shiftr (Z.lor (Z.shiftl e 12) m) 12 = e.
Proof.
  intros He Hm. change 0xFFF with (Z.ones 12). split.
  - zbits. destruct (Z.ltb_spec i 12).
    + rewrite andb_true_r, (Z.testbit_neg_r e (i - 12)) by lia. done.
    + rewrite andb_false_r. symmetry. apply (testbit_high 12); lia.
  - zbits. rewrite (testbit_high 12 ltac:(lia) m), orb_false_r by lia. f_equal; lia.
Qed.

Lemma float_ty_Ok e m t :
  0 <= e -> 0 <= m -> float_ty e m = Ok t ->
  0 < e < 2 ^ 12 /\ 0 < m < 2 ^ 12 /\
  t = mkTy KFloatingPoint (Z.lor (Z.shiftl e 12) m) 0.
Proof.
  intros He Hm E. unfold float_ty, Type_ctor in E. inv_ok.
  rewrite !andb_true_iff, !negb_true_iff, !Z.eqb_neq in *.
  split_and!; try lia. done.
Qed.

(** A type built by [int_ty] reports the width it was built with. *)
Lemma int_ty_bitwidth w t : 0 <= w -> int_ty w = Ok t -> is_int t = true /\ bitwidth t = Ok w.
Proof. intros Hw E. apply int_ty_Ok in E as [? ->]; done. Qed.

(** The packed floating-point descriptor gives back both of its sizes. *)
Lemma float_ty_sizes e m t :
  0 <= e -> 0 <= m -> float_ty e m = Ok t ->
  is_float t = true /\ exponent_bits t = Ok e /\ mantissa_bits t = Ok m.
Proof.
  intros He Hm E. apply float_ty_Ok in E as (? & ? & ->); [|done..].
  destruct (float_desc e m) as [E1 E2]; [lia..|].
  unfold exponent_bits, mantissa_bits. cbn. by rewrite E1, E2.
Qed.

Lemma divceil_spec x : 0 <= x < 2 ^ 31 -> 8 * divceil x 8 - 8 < x <= 8 * divceil x 8.
Proof.
  intros Hx. unfold divceil. change (wrap 32 (8 - 1)) with 7.
  rewrite wrap_small by lia. Z.div_mod_to_equations. lia.
Qed.

(** The LLVM float types and the format LLVM gives their constants. *)
Definition llvm_semantics (t : llvm_type) : option fltSemantics :=
  match t with
  | LHalf => Some IEEEhalf | LFloat => Some IEEEsingle | LDouble => Some IEEEdouble
  | LFP128 => Some IEEEquad | LX86_FP80 => Some x87DoubleExtended
  | _ => None
  end.

(** ** Properties *)

(** the descriptor packing round-trips.  Whatever sizes the checked
    constructors accept, the accessors return them: [int_ty] and [bitwidth],
    [float_ty] and [exponent_bits]/[mantissa_bits]. *)
Theorem type_descriptor_roundtrip w e m t u :
  0 <= w -> 0 <= e -> 0 <= m ->
  int_ty w = Ok t -> float_ty e m = Ok u ->
  bitwidth t = Ok w /\ exponent_bits u = Ok e /\ mantissa_bits u = Ok m /\
  kind_ t <> kind_ u.
Proof.
  intros Hw He Hm E1 E2.
  destruct (int_ty_bitwidth w t) as [Hi ?]; [done..|].
  destruct (float_ty_sizes e m u) as (Hf & ? & ?); [done..|].
  split_and!; [done..|]. unfold is_int, is_float in *.
  rewrite bool_decide_eq_true in *. congruence.
Qed.

Lemma type_descriptor_roundtrip_witness :
  exists t u, int_ty 32 = Ok t /\ float_ty 8 24 = Ok u /\ exponent_bits u = Ok 8.
Proof.
  do 2 eexists. split_and!; [reflexivity..|].
  eapply (type_descriptor_roundtrip 32 8 24); reflexivity || discriminate.
Defined.

(** the byte size of a type covers its bits with less than one byte to
    spare, for integers of every width and for the float types. *)
Theorem byte_size_covers `{DataLayout} w e m t u :
  0 <= w -> 0 <= e -> 0 <= m ->
  int_ty w = Ok t -> float_ty e m = Ok u ->
  exists n k, byte_size t = Ok n /\ 8 * n - 8 < w <= 8 * n /\
              byte_size u = Ok k /\ 8 * k - 8 < e + m <= 8 * k.
Proof.
  intros Hw He Hm E1 E2.
  pose proof E2 as E3. apply float_ty_Ok in E3 as (? & ? & Eu); [|done..].
  destruct (float_ty_sizes e m u) as (_ & Ee & Em); [done..|].
  apply int_ty_Ok in E1 as [[? ?] ->]; [|done].
  exists (divceil w 8), (divceil (e + m) 8). split_and!.
  - reflexivity.
  - apply divceil_spec. lia.
  - apply divceil_spec. lia.
  - unfold byte_size. rewrite Eu in *. cbn [kind_]. rewrite Em, Ee. cbn.
    rewrite wrap_small by lia. by rewrite Z.add_comm.
  - apply divceil_spec. lia.
  - apply divceil_spec. lia.
Qed.

Lemma byte_size_covers_witness :
  exists n k, @byte_size {| getPointerSize := 8 |} (ity 17) = Ok n /\ 8 * n - 8 < 17 <= 8 * n /\
              @byte_size {| getPointerSize := 8 |} (mkTy KFloatingPoint 32792 0) = Ok k /\
              8 * k - 8 < 8 + 24 <= 8 * k.
Proof.
  apply (@byte_size_covers {| getPointerSize := 8 |} 17 8 24 (ity 17)
           (mkTy KFloatingPoint 32792 0)); reflexivity || discriminate.
Defined.

(** a floating-point constant has the type its LLVM type translates to,
    for every format but x86_fp80: [type_of] computes the exponent width of
    an 80-bit x87 value as 16 where [from_llvm] says 15, so the two types
    differ. *)
Theorem float_constant_type_agrees `{APFloatAPI} (t : llvm_type) (f : APFloat) :
  llvm_semantics t = Some (getSemantics f) ->
  is_ok (type_of_apfloat f) = true /\
  (type_of_apfloat f = from_llvm t <-> t <> LX86_FP80).
Proof.
  unfold type_of_apfloat.
  rewrite semanticsPrecision_spec, semanticsSizeInBits_spec.
  destruct t; cbn [llvm_semantics]; intros [= <-]; vm_compute; intuition congruence.
Qed.

Lemma float_constant_type_agrees_witness :
  llvm_semantics LDouble = Some (getSemantics (getZero (APFloatAPI := bits_APFloat) IEEEdouble)) /\
  type_of_apfloat (getZero (APFloatAPI := bits_APFloat) IEEEdouble) = from_llvm LDouble.
Proof.
  split; [reflexivity|].
  apply (float_constant_type_agrees (H0 := bits_APFloat) LDouble); [reflexivity|discriminate].
Defined.
