(* ===== verification/Value.v ===== *)
(** Concrete values: [caffeine::Value] (include/caffeine/IR/Value.h,
    src/IR/Value.cpp).

    The variant of the class is the inductive type [Value]; each static
    operation is a function that returns an error where the source asserts.
    An array value is the sequence of its bytes; that the lazily copied container
    that holds it is not observable is shown in SharedArray.v.  A [char] is its unsigned value. *)
From S2P Require Import Prelude LLVM IRType.
Open Scope Z_scope.

Section value.
Context `{APFloatAPI}.

Inductive Value : Type :=
| VEmpty
| VInt (a : APInt)
| VFloat (f : APFloat)
| VArray (data : list Z) (index_bitwidth : Z)
| VVector (vs : list Value).

Definition v_is_int (v : Value) : bool := match v with VInt _ => true | _ => false end.
Definition v_is_float (v : Value) : bool := match v with VFloat _ => true | _ => false end.
Definition v_is_array (v : Value) : bool := match v with VArray _ _ => true | _ => false end.

(** [explicit Value(bool)]: the source passes the boolean as [APInt]'s first
    argument, its number of bits, and 1 as the value; [APInt] asserts that the
    number of bits is not 0. *)
Definition Value_of_bool (ival : bool) : result Value :=
  let numBits := Z.b2z ival in assert_ (0 <? numBits) ;; Ok (VInt (APInt_of numBits 1)).

(** [Value(SharedArray, Type)]. *)
Definition Value_of_array (data : list Z) (index_ty : Ty) : result Value :=
  assert_ (is_int index_ty) ;; w ← bitwidth index_ty; Ok (VArray data w).

Definition value_type (v : Value) : result Ty :=
  match v with
  | VEmpty => Ok void_ty
  | VInt a => type_of_apint a
  | VFloat f => type_of_apfloat f
  | VArray _ w => array_ty w
  | VVector _ => Ok vector_ty
  end.

Definition v_apint (v : Value) : result APInt :=
  match v with VInt a => Ok a | _ => Err AssertFailed end.
Definition v_apfloat (v : Value) : result APFloat :=
  match v with VFloat f => Ok f | _ => Err AssertFailed end.
Definition v_array (v : Value) : result (list Z) :=
  match v with VArray d _ => Ok d | _ => Err AssertFailed end.
Definition v_vector (v : Value) : result (list Value) :=
  match v with VVector vs => Ok vs | _ => Err AssertFailed end.

(** [Value::operator==]: floats bitwise, arrays by their bytes. *)
Fixpoint value_eqb (u v : Value) {struct u} : bool :=
  match u, v with
  | VEmpty, VEmpty => true
  | VInt a, VInt b => ap_eq a b
  | VFloat f, VFloat g => bitwiseIsEqual f g
  | VArray d _, VArray e _ => bool_decide (d = e)
  | VVector us, VVector vs =>
      (fix go us vs := match us, vs with
        | [], [] => true
        | u :: us, v :: vs => value_eqb u v && go us vs
        | _, _ => false
        end) us vs
  | _, _ => false
  end.

(** *** Integer operations *)
Definition lift2 (f : APInt -> APInt -> APInt) (lhs rhs : Value) : result Value :=
  a ← v_apint lhs; b ← v_apint rhs; Ok (VInt (f a b)).

Definition bvadd := lift2 ap_add.
Definition bvsub := lift2 ap_sub.
Definition bvmul := lift2 ap_mul.

Definition bvudiv (lhs rhs : Value) : result Value :=
  b ← v_apint rhs;
  if isNullValue b
  then t ← value_type lhs; w ← bitwidth t; Ok (VInt (getMaxValue w))
  else a ← v_apint lhs; Ok (VInt (ap_udiv a b)).

Definition bvsdiv (lhs rhs : Value) : result Value :=
  b ← v_apint rhs;
  if isNullValue b
  then t ← value_type lhs; w ← bitwidth t; Ok (VInt (getSignedMaxValue w))
  else a ← v_apint lhs;
       if isMinSignedValue a && isAllOnesValue b
       then t ← value_type lhs; w ← bitwidth t; Ok (VInt (getSignedMaxValue w))
       else Ok (VInt (ap_sdiv a b)).

Definition bvurem (lhs rhs : Value) : result Value :=
  b ← v_apint rhs;
  if isNullValue b then Ok lhs else a ← v_apint lhs; Ok (VInt (ap_urem a b)).

Definition bvsrem (lhs rhs : Value) : result Value :=
  b ← v_apint rhs;
  if isNullValue b then Ok lhs else a ← v_apint lhs; Ok (VInt (ap_srem a b)).

Definition bvand := lift2 ap_and.
Definition bvor := lift2 ap_or.
Definition bvxor := lift2 ap_xor.
Definition bvshl := lift2 ap_shl.
Definition bvlshr := lift2 ap_lshr.
Definition bvashr := lift2 ap_ashr.
Definition bvnot (v : Value) : result Value := a ← v_apint v; Ok (VInt (ap_not a)).

(** *** Floating-point operations *)
Definition liftf2 (f : APFloat -> APFloat -> APFloat) (lhs rhs : Value) : result Value :=
  a ← v_apfloat lhs; b ← v_apfloat rhs; Ok (VFloat (f a b)).

Definition fadd := liftf2 fl_add.
Definition fsub := liftf2 fl_sub.
Definition fmul := liftf2 fl_mul.
Definition fdiv := liftf2 fl_div.
Definition frem := liftf2 (fun a b => (fl_remainder a b).1).
Definition fneg (v : Value) : result Value :=
  f ← v_apfloat v; Ok (VFloat (fl_sub (getZero (getSemantics f)) f)).
Definition FIsNaN (v : Value) : result Value :=
  f ← v_apfloat v; Ok (VInt (APInt_of 1 (Z.b2z (isNaN f)))).

(** *** Selection and conversions *)
Definition select (cond t f : Value) : result Value :=
  ct ← value_type cond; assert_ (ty_eqb ct bool_ty) ;;
  tt' ← value_type t; ft ← value_type f; assert_ (ty_eqb tt' ft) ;;
  c ← v_apint cond; Ok (if ap_eq_u64 c 1 then t else f).

Definition trunc (v : Value) (w : Z) : result Value :=
  a ← v_apint v; t ← value_type v; vw ← bitwidth t;
  assert_ (w <? vw) ;; Ok (VInt (ap_trunc a w)).
Definition sext (v : Value) (w : Z) : result Value :=
  a ← v_apint v; t ← value_type v; vw ← bitwidth t;
  assert_ (vw <? w) ;; Ok (VInt (ap_sext a w)).
Definition zext (v : Value) (w : Z) : result Value :=
  a ← v_apint v; t ← value_type v; vw ← bitwidth t;
  assert_ (vw <? w) ;; Ok (VInt (ap_zext a w)).

Definition bitcast (v : Value) (tgt : Ty) : result Value :=
  match v with
  | VInt a =>
      assert_ (is_float tgt) ;;
      t ← value_type v; vw ← bitwidth t; m ← mantissa_bits tgt; e ← exponent_bits tgt;
      assert_ (vw =? wrap 32 (m + e)) ;;
      tf ← type_of_float; td ← type_of_double;
      th ← float_ty 5 11; tq ← float_ty 15 113; tx ← float_ty 15 64;
      if ty_eqb tgt tf then Ok (VFloat (APFloat_of_bits IEEEsingle a))
      else if ty_eqb tgt td then Ok (VFloat (APFloat_of_bits IEEEdouble a))
      else if ty_eqb tgt th then Ok (VFloat (APFloat_of_bits IEEEhalf a))
      else if ty_eqb tgt tq then Ok (VFloat (APFloat_of_bits IEEEquad a))
      else if ty_eqb tgt tx then Ok (VFloat (APFloat_of_bits x87DoubleExtended a))
      else Err Unimplemented
  | _ =>
      assert_ (is_int tgt) ;;
      tw ← bitwidth tgt; t ← value_type v; m ← mantissa_bits t; e ← exponent_bits t;
      assert_ (tw =? wrap 32 (m + e)) ;;
      f ← v_apfloat v; Ok (VInt (bitcastToAPInt f))
  end.

(** *** Arrays

    [load] and [store] assert that the index has the array's index width and is
    below its size. *)
Definition load (data index : Value) : result Value :=
  d ← v_array data; i ← v_apint index;
  dt ← value_type data; dw ← bitwidth dt; it ← value_type index; iw ← bitwidth it;
  assert_ (dw =? iw) ;;
  assert_ (ap_ult_u64 i (Z.of_nat (length d))) ;;
  c ← of_option UndefinedBehaviour (d !! Z.to_nat (getLimitedValue i SIZE_MAX));
  Ok (VInt (APInt_of 8 c)).

Definition store (data index byte : Value) : result Value :=
  d ← v_array data; i ← v_apint index;
  dt ← value_type data; dw ← bitwidth dt; it ← value_type index; iw ← bitwidth it;
  assert_ (dw =? iw) ;;
  bt ← value_type byte; i8 ← int_ty 8; assert_ (ty_eqb bt i8) ;;
  assert_ (ap_ult_u64 i (Z.of_nat (length d))) ;;
  b ← v_apint byte;
  Value_of_array (<[Z.to_nat (getLimitedValue i SIZE_MAX) := wrap 8 (getLimitedValue b SIZE_MAX)]> d) it.
End value.
