(* ===== verification/Opcode.v ===== *)
(** Opcodes of expression nodes (include/caffeine/IR/Operation.def and the
    encoding of include/caffeine/IR/OperationBase.h), and the [classof] tests
    of include/caffeine/IR/Operation.inl that LLVM's casting helpers use.

    An opcode packs an operation number, auxiliary data and a number of
    arguments into 16 bits.  The class tests compare packed values, some of
    them as ranges, so they are modelled on the packed values too. *)
From S2P Require Import Prelude.
Open Scope Z_scope.

(** [detail::opcode(op, nargs, aux)]: a [uint16_t]. *)
Definition opcode (op nargs aux : Z) : result Z :=
  if 8 <=? nargs then Err Aborted
  else if 0x10 <=? aux then Err Aborted
  else Ok (wrap 16 (Z.lor (Z.lor (Z.shiftl op 7) (Z.shiftl aux 3)) nargs)).
Definition opcode_nargs (op : Z) : Z := Z.land op 7.
Definition opcode_aux (op : Z) : Z := Z.land (Z.shiftr op 3) 0xF.
Definition opcode_base (op : Z) : Z := Z.shiftr op 7.

Inductive ICmpOpcode : Set :=
| EQ | NE | UGT | UGE | ULT | ULE | SGT | SGE | SLT | SLE.
Inductive FCmpOpcode : Set := FEQ | FGT | FGE | FLT | FLE | FNE.

Definition icmp_val (c : ICmpOpcode) : Z :=
  match c with
  | EQ => 0x8 | NE => 0x9
  | UGT => 0 | UGE => 1 | ULT => 2 | ULE => 3
  | SGT => 4 | SGE => 5 | SLT => 6 | SLE => 7
  end.
Definition fcmp_val (c : FCmpOpcode) : Z :=
  match c with FEQ => 0 | FGT => 1 | FGE => 2 | FLT => 3 | FLE => 4 | FNE => 5 end.

(** The operations of Operation.def. *)
Inductive Opcode : Set :=
| OpConstantNamed | OpConstantNumbered | OpConstantInt | OpConstantFloat
| OpConstantArray | OpFunctionObject | OpEGraphNode | OpUndef
| OpAdd | OpSub | OpMul | OpUDiv | OpSDiv | OpURem | OpSRem
| OpAnd | OpOr | OpXor | OpShl | OpLShr | OpAShr
| OpFAdd | OpFSub | OpFMul | OpFDiv | OpFRem
| OpICmp (c : ICmpOpcode)
| OpFCmp (c : FCmpOpcode)
| OpNot | OpFNeg | OpFIsNaN
| OpTrunc | OpSExt | OpZExt | OpFpTrunc | OpFpExt
| OpFpToUI | OpFpToSI | OpUIToFp | OpSIToFp | OpBitcast
| OpSelect | OpFixedArray | OpAlloc | OpStore | OpLoad.

#[export] Instance ICmpOpcode_eq_dec : EqDecision ICmpOpcode.
Proof. solve_decision. Defined.
#[export] Instance FCmpOpcode_eq_dec : EqDecision FCmpOpcode.
Proof. solve_decision. Defined.
#[export] Instance Opcode_eq_dec : EqDecision Opcode.
Proof. solve_decision. Defined.

Definition icmp_base : Z := 5.
Definition fcmp_base : Z := 4.

(** The [op_base], [op_nargs] and [op_aux] columns of Operation.def. *)
Definition op_fields (o : Opcode) : Z * Z * Z :=
  match o with
  | OpConstantNamed => (1, 0, 0) | OpConstantNumbered => (1, 0, 1)
  | OpConstantInt => (1, 0, 5) | OpConstantFloat => (1, 0, 6)
  | OpConstantArray => (1, 1, 7) | OpFunctionObject => (1, 0, 8)
  | OpEGraphNode => (1, 0, 9) | OpUndef => (1, 0, 15)
  | OpAdd => (2, 2, 0) | OpSub => (2, 2, 1) | OpMul => (2, 2, 2)
  | OpUDiv => (2, 2, 3) | OpSDiv => (2, 2, 4) | OpURem => (2, 2, 5) | OpSRem => (2, 2, 6)
  | OpAnd => (2, 2, 7) | OpOr => (2, 2, 8) | OpXor => (2, 2, 9)
  | OpShl => (2, 2, 10) | OpLShr => (2, 2, 11) | OpAShr => (2, 2, 12)
  | OpFAdd => (3, 2, 0) | OpFSub => (3, 2, 1) | OpFMul => (3, 2, 2)
  | OpFDiv => (3, 2, 3) | OpFRem => (3, 2, 4)
  | OpICmp c => (icmp_base, 2, icmp_val c)
  | OpFCmp c => (fcmp_base, 2, fcmp_val c)
  | OpNot => (10, 1, 0) | OpFNeg => (10, 1, 1) | OpFIsNaN => (10, 1, 2)
  | OpTrunc => (11, 1, 0) | OpSExt => (11, 1, 1) | OpZExt => (11, 1, 2)
  | OpFpTrunc => (11, 1, 3) | OpFpExt => (11, 1, 4)
  | OpFpToUI => (11, 1, 5) | OpFpToSI => (11, 1, 6)
  | OpUIToFp => (11, 1, 7) | OpSIToFp => (11, 1, 8) | OpBitcast => (11, 1, 9)
  | OpSelect => (20, 3, 0) | OpFixedArray => (21, 4, 0)
  | OpAlloc => (21, 2, 0) | OpStore => (21, 3, 1) | OpLoad => (21, 2, 2)
  end.

(** The value of the enumerator, [detail::opcode(op_base, op_nargs, op_aux)];
    [Invalid] is 0, and [opcode] fails for no operation of the table. *)
Definition opcode_val (o : Opcode) : Z :=
  match opcode (op_fields o).1.1 (op_fields o).1.2 (op_fields o).2 with
  | Ok v => v
  | Err _ => 0
  end.

(** [BinaryOpFirst = Add], and [BinaryOpLast] is the enumerator that follows
    [FCmpNe]; the same for the unary range around [Bitcast]. *)
Definition BinaryOpFirst : Z := opcode_val OpAdd.
Definition BinaryOpLast : Z := opcode_val (OpFCmp FNE) + 1.
Definition UnaryOpFirst : Z := opcode_val OpNot.
Definition UnaryOpLast : Z := opcode_val OpBitcast + 1.

(** *** The [classof] tests *)
Definition Constant_classof (o : Opcode) : bool :=
  bool_decide (o = OpConstantNamed) || bool_decide (o = OpConstantNumbered).
Definition BinaryOp_classof (o : Opcode) : bool :=
  (BinaryOpFirst <=? opcode_val o) && (opcode_val o <=? BinaryOpLast).
Definition UnaryOp_classof (o : Opcode) : bool :=
  (UnaryOpFirst <=? opcode_val o) && (opcode_val o <=? UnaryOpLast).
Definition range_of_base (base : Z) (o : Opcode) : bool :=
  match opcode base 0 0, opcode base 3 0xF with
  | Ok lo, Ok hi => (lo <=? opcode_val o) && (opcode_val o <=? hi)
  | _, _ => false
  end.
Definition ICmpOp_classof (o : Opcode) : bool := range_of_base icmp_base o.
Definition FCmpOp_classof (o : Opcode) : bool := range_of_base fcmp_base o.
Definition ArrayBase_classof (o : Opcode) : bool :=
  bool_decide (o = OpAlloc) || bool_decide (o = OpStore) || bool_decide (o = OpFixedArray).

(** [Operation::is_constant]. *)
Definition is_constant (o : Opcode) : bool := opcode_base (opcode_val o) =? 1.

(** [ICmpOp::comparison] and its signedness tests read the auxiliary bits. *)
Definition comparison_of_aux (aux : Z) : option ICmpOpcode :=
  head (filter (fun c => icmp_val c = aux) [EQ; NE; UGT; UGE; ULT; ULE; SGT; SGE; SLT; SLE]).
Definition ICmp_is_signed (o : Opcode) : bool :=
  let aux := opcode_aux (opcode_val o) in
  (aux <? icmp_val EQ) && negb (Z.land aux 4 =? 0).
Definition ICmp_is_unsigned (o : Opcode) : bool :=
  let aux := opcode_aux (opcode_val o) in
  (aux <? icmp_val EQ) && (Z.land aux 4 =? 0).
Definition FCmp_is_ordered (o : Opcode) : bool :=
  negb (Z.land (opcode_aux (opcode_val o)) 8 =? 0).

(** Every operation, for proofs by enumeration. *)
Definition all_opcodes : list Opcode :=
  [OpConstantNamed; OpConstantNumbered; OpConstantInt; OpConstantFloat; OpConstantArray;
   OpFunctionObject; OpEGraphNode; OpUndef; OpAdd; OpSub; OpMul; OpUDiv; OpSDiv; OpURem;
   OpSRem; OpAnd; OpOr; OpXor; OpShl; OpLShr; OpAShr; OpFAdd; OpFSub; OpFMul; OpFDiv; OpFRem]
  ++ (OpICmp <$> [EQ; NE; UGT; UGE; ULT; ULE; SGT; SGE; SLT; SLE])
  ++ (OpFCmp <$> [FEQ; FGT; FGE; FLT; FLE; FNE])
  ++ [OpNot; OpFNeg; OpFIsNaN; OpTrunc; OpSExt; OpZExt; OpFpTrunc; OpFpExt; OpFpToUI;
      OpFpToSI; OpUIToFp; OpSIToFp; OpBitcast; OpSelect; OpFixedArray; OpAlloc; OpStore; OpLoad].

Lemma all_opcodes_complete o : In o all_opcodes.
Proof. destruct o as [| | | | | | | | | | | | | | | | | | | | | | | | | | c|c| | | | | | | | | | | | | | | | | |];
  try destruct c; vm_compute; tauto. Qed.

(** Decide a boolean fact of every opcode by enumerating the table. *)
Lemma opcode_forall (P : Opcode -> bool) : forallb P all_opcodes = true -> forall o, P o = true.
Proof. intros E o. rewrite forallb_forall in E. apply E, all_opcodes_complete. Qed.

Lemma opcode_fields_of_val o :
  opcode_base (opcode_val o) = (op_fields o).1.1 /\
  opcode_nargs (opcode_val o) = (op_fields o).1.2 /\
  opcode_aux (opcode_val o) = (op_fields o).2.
Proof.
  assert (bool_decide (opcode_base (opcode_val o) = (op_fields o).1.1) &&
          bool_decide (opcode_nargs (opcode_val o) = (op_fields o).1.2) &&
          bool_decide (opcode_aux (opcode_val o) = (op_fields o).2) = true) as E.
  { revert o. apply opcode_forall. vm_compute. reflexivity. }
  rewrite !andb_true_iff, !bool_decide_eq_true in E. tauto.
Qed.

(** ** Properties *)

(** the packed opcodes are a faithful encoding of the table: the three
    fields of every operation are recovered from its 16-bit value, so distinct
    operations have distinct values and none is [Invalid]; and the auxiliary
    bits of a comparison give back its predicate. *)
Theorem opcode_encoding_faithful o o' :
  opcode_base (opcode_val o) = (op_fields o).1.1 /\
  opcode_nargs (opcode_val o) = (op_fields o).1.2 /\
  opcode_aux (opcode_val o) = (op_fields o).2 /\
  0 < opcode_val o < 2 ^ 16 /\
  (opcode_val o = opcode_val o' <-> o = o') /\
  (forall c, o = OpICmp c -> comparison_of_aux (opcode_aux (opcode_val o)) = Some c).
Proof.
  destruct (opcode_fields_of_val o) as (? & ? & ?). split_and!; try done.
  - assert ((0 <? opcode_val o) = true) as ?%Z.ltb_lt; [|lia].
    revert o H H0 H1. intros o _ _ _. revert o. apply opcode_forall. vm_compute. reflexivity.
  - assert ((opcode_val o <? 2 ^ 16) = true) as ?%Z.ltb_lt; [|lia].
    revert o H H0 H1. intros o _ _ _. revert o. apply opcode_forall. vm_compute. reflexivity.
  - split; [|by intros ->]. intros E.
    assert (forallb (fun o' => bool_decide (opcode_val o = opcode_val o' -> o = o')) all_opcodes = true) as F.
    { revert o E H H0 H1. intros o _ _ _ _. revert o. apply opcode_forall.
      vm_compute. reflexivity. }
    rewrite forallb_forall in F. specialize (F o' (all_opcodes_complete o')).
    apply bool_decide_eq_true in F. by apply F.
  - intros c ->. by destruct c.
Qed.

(** The source's class of each opcode: which C++ class of Operation.h the
    table's [opclass] column names. *)
Definition derives_BinaryOp (o : Opcode) : bool :=
  match o with
  | OpAdd | OpSub | OpMul | OpUDiv | OpSDiv | OpURem | OpSRem | OpAnd | OpOr | OpXor
  | OpShl | OpLShr | OpAShr | OpFAdd | OpFSub | OpFMul | OpFDiv | OpFRem
  | OpICmp _ | OpFCmp _ => true
  | _ => false
  end.
Definition derives_UnaryOp (o : Opcode) : bool := (op_fields o).1.2 =? 1.
Definition derives_ArrayBase (o : Opcode) : bool :=
  match o with
  | OpConstantArray | OpFixedArray | OpAlloc | OpStore => true | _ => false
  end.
Definition is_ICmp (o : Opcode) : bool := match o with OpICmp _ => true | _ => false end.
Definition is_FCmp (o : Opcode) : bool := match o with OpFCmp _ => true | _ => false end.

(** what the [classof] range tests accept.  The comparison and unary tests
    are exact, with [ConstantArray] (one operand, but a constant) outside the
    unary range.  Two tests are narrower than the class hierarchy: [BinaryOp]'s
    range ends at the floating-point comparisons and rejects every [ICmpOp],
    which derives from [BinaryOp], and [ArrayBase] rejects [ConstantArray],
    which derives from [ArrayBase]. *)
Theorem classof_ranges o :
  ICmpOp_classof o = is_ICmp o /\ FCmpOp_classof o = is_FCmp o /\
  UnaryOp_classof o = derives_UnaryOp o && negb (bool_decide (o = OpConstantArray)) /\
  BinaryOp_classof o = derives_BinaryOp o && negb (is_ICmp o) /\
  ArrayBase_classof o = derives_ArrayBase o && negb (bool_decide (o = OpConstantArray)).
Proof.
  assert (eqb (ICmpOp_classof o) (is_ICmp o) && eqb (FCmpOp_classof o) (is_FCmp o) &&
    eqb (UnaryOp_classof o) (derives_UnaryOp o && negb (bool_decide (o = OpConstantArray))) &&
    eqb (BinaryOp_classof o) (derives_BinaryOp o && negb (is_ICmp o)) &&
    eqb (ArrayBase_classof o) (derives_ArrayBase o && negb (bool_decide (o = OpConstantArray)))
    = true) as E.
  { revert o. apply opcode_forall. vm_compute. reflexivity. }
  rewrite !andb_true_iff, !eqb_true_iff in E. tauto.
Qed.
