(* ===== verification/Operation.v ===== *)
(** Expression nodes: [caffeine::Operation], [caffeine::OperationData] and
    [caffeine::Symbol] (include/caffeine/IR/OperationBase.h,
    src/IR/OperationBase.cpp, src/IR/OperationData.cpp, src/IR/Symbol.cpp).

    A node is its data (opcode, type, payload) and its operands.  An [OpRef] is
    a shared pointer to an immutable node; the model works with the nodes
    themselves, and pointer comparison is the parameter [ptr_eq], of which the
    development only uses that equal pointers reach equal nodes. *)
From S2P Require Import Prelude LLVM IRType Value Opcode.
Open Scope Z_scope.

Inductive Symbol : Set :=
| Named (name : string)
| Numbered (number : Z).

#[export] Instance Symbol_eq_dec : EqDecision Symbol.
Proof. solve_decision. Defined.

Definition is_named (s : Symbol) : bool := match s with Named _ => true | _ => false end.
Definition is_numbered (s : Symbol) : bool := match s with Numbered _ => true | _ => false end.
(** [Symbol::operator==]. *)
Definition symbol_eqb (a b : Symbol) : bool := bool_decide (a = b).

Section operation.
Context `{APFloatAPI}.

(** The payloads of the classes derived from [OperationData]. *)
Inductive Payload : Type :=
| NoPayload
| PSymbol (s : Symbol)
| PInt (a : APInt)
| PFloat (f : APFloat)
| PFunction (ptr : Z)
| PEGraph (id : Z).

Record OperationData : Type := mkData {
  od_opcode : Opcode;
  od_type : Ty;
  od_payload : Payload
}.

Inductive Operation : Type := mkOp (data : OperationData) (operands : list Operation).

Definition op_data (op : Operation) : OperationData := let 'mkOp d _ := op in d.
Definition op_operands (op : Operation) : list Operation := let 'mkOp _ l := op in l.
Definition op_opcode (op : Operation) : Opcode := od_opcode (op_data op).
Definition op_type (op : Operation) : Ty := od_type (op_data op).
Definition num_operands (op : Operation) : Z := Z.of_nat (length (op_operands op)).

(** [operand_at]: reading past the operands is undefined. *)
Definition operand_at (op : Operation) (idx : nat) : result Operation :=
  of_option UndefinedBehaviour (op_operands op !! idx).
(** [Operation::operator[]]: the same with a bounds assertion. *)
Definition op_index (op : Operation) (idx : nat) : result Operation :=
  assert_ (Z.of_nat idx <? num_operands op) ;; operand_at op idx.

(** *** Constructors of the data classes *)
Definition ConstantData (t : Ty) (symbol : Symbol) : OperationData :=
  mkData (if is_array t then OpConstantArray
          else if is_named symbol then OpConstantNamed else OpConstantNumbered)
         t (PSymbol symbol).
Definition ConstantIntData (a : APInt) : result OperationData :=
  t ← type_of_apint a; Ok (mkData OpConstantInt t (PInt a)).
Definition ConstantFloatData (f : APFloat) : result OperationData :=
  t ← type_of_apfloat f; Ok (mkData OpConstantFloat t (PFloat f)).
(** The LLVM type of a function is a pointer. *)
Definition FunctionObjectData (ptr : Z) : result OperationData :=
  t ← from_llvm (LPointer true 0); Ok (mkData OpFunctionObject t (PFunction ptr)).
Definition EGraphNodeData (t : Ty) (id : Z) : OperationData := mkData OpEGraphNode t (PEGraph id).

(** [OperationData::operator==].  Floats are compared with [APFloat]'s
    [operator==], the IEEE comparison. *)
Definition data_eqb (a b : OperationData) : bool :=
  ty_eqb (od_type a) (od_type b) && bool_decide (od_opcode a = od_opcode b) &&
  match od_payload a, od_payload b with
  | PSymbol s, PSymbol s' => symbol_eqb s s'
  | PInt v, PInt v' => ap_eq v v'
  | PFloat f, PFloat f' => bool_decide (fl_compare f f' = cmpEqual)
  | PFunction p, PFunction p' => p =? p'
  | PEGraph i, PEGraph i' => i =? i'
  | _, _ => true
  end.

(** [OperationData::clone] rebuilds the data through the derived class's
    constructor. *)
Definition data_clone (d : OperationData) : result OperationData :=
  match od_payload d with
  | PSymbol s => Ok (ConstantData (od_type d) s)
  | PInt a => ConstantIntData a
  | PFloat f => ConstantFloatData f
  | PFunction p => FunctionObjectData p
  | PEGraph i => Ok (EGraphNodeData (od_type d) i)
  | NoPayload => Ok (mkData (od_opcode d) (od_type d) NoPayload)
  end.

(** The constructors of [Operation]: the operand count is the opcode's unless
    the opcode says 4, "any number". *)
Definition Operation_ctor (d : OperationData) (operands : list Operation) : result Operation :=
  let nargs := opcode_nargs (opcode_val (od_opcode d)) in
  (if nargs =? 4 then Ok tt else assert_ (nargs =? Z.of_nat (length operands))) ;;
  Ok (mkOp d operands).

(** ** Induction and size *)
Section induction.
Context (P : Operation -> Prop).
Hypothesis node : forall d l, Forall P l -> P (mkOp d l).

Fixpoint operation_ind' (op : Operation) : P op :=
  match op with
  | mkOp d l => node d l
      ((fix go l : Forall P l :=
          match l with
          | [] => Forall_nil_2 P
          | x :: l => Forall_cons_2 P x l (operation_ind' x) (go l)
          end) l)
  end.
End induction.

Fixpoint op_size (op : Operation) : nat :=
  let 'mkOp _ l := op in S (list_sum (op_size <$> l)).

Lemma op_size_pos x : (1 <= op_size x)%nat.
Proof. destruct x. cbn. lia. Qed.

#[export] Instance Payload_eq_dec : EqDecision Payload.
Proof. solve_decision. Defined.
#[export] Instance OperationData_eq_dec : EqDecision OperationData.
Proof. solve_decision. Defined.
#[export] Instance Operation_eq_dec : EqDecision Operation.
Proof.
  refine (fix go (a b : Operation) : Decision (a = b) :=
    match a, b with
    | mkOp d l, mkOp d' l' =>
        match decide (d = d') with
        | left E =>
            match (fix gol l l' : Decision (l = l') :=
              match l, l' with
              | [], [] => left eq_refl
              | x :: l, y :: l' =>
                  match go x y with
                  | left E => match gol l l' with left E' => left _ | right N => right _ end
                  | right N => right _
                  end
              | _, _ => right _
              end) l l' with
            | left E' => left _
            | right N => right _
            end
        | right N => right _
        end
    end); clear go; congruence.
Defined.
End operation.

(** ** Pointer comparison

    [a.get() == b.get()] for two [OpRef]s. *)
Class PtrEq `{APFloatAPI} := {
  ptr_eq : Operation -> Operation -> bool;
  ptr_eq_sound : forall a b, ptr_eq a b = true -> a = b
}.

(** Full hash-consing: equal nodes are shared. *)
#[export, refine] Instance structural_PtrEq `{APFloatAPI} : PtrEq := {|
  ptr_eq a b := bool_decide (a = b)
|}.
Proof. intros a b. apply bool_decide_eq_true. Defined.

(** [Operation::operator==]: operand pointers, then data. *)
Definition operation_eqb `{PtrEq} (a b : Operation) : bool :=
  bool_decide (length (op_operands a) = length (op_operands b)) &&
  forallb (fun p => ptr_eq p.1 p.2) (zip (op_operands a) (op_operands b)) &&
  data_eqb (op_data a) (op_data b).
