(* ===== verification/Matching.v ===== *)
(** Expression matchers (include/caffeine/IR/Matching.h).

    The matcher templates become the patterns of [Pat]; a capture names the
    [OpRef] variable it assigns.  [matches] first tests the whole pattern and
    runs the assignments only when the test succeeds. *)
From S2P Require Import Prelude LLVM IRType Value Opcode Operation.
Open Scope Z_scope.

Inductive Pat : Set :=
| Any
| RefOp (output : nat)
| BinaryOpPat (o : Opcode) (lhs rhs : Pat)
| UnaryOpPat (o : Opcode) (inner : Pat)
| OpClassPat (classof : Opcode -> bool) (capture : option nat)
| CapturePat (capture : nat) (inner : Pat)
| ICmpPat (c : ICmpOpcode) (lhs rhs : Pat).

(** [m::ConstantInt()], [m::ConstantFloat()] and [m::Constant()]. *)
Definition is_ConstantInt_op (o : Opcode) : bool := bool_decide (o = OpConstantInt).
Definition is_ConstantFloat_op (o : Opcode) : bool := bool_decide (o = OpConstantFloat).
Definition ConstantIntPat (cap : option nat) : Pat := OpClassPat is_ConstantInt_op cap.
Definition ConstantPat (cap : option nat) : Pat := OpClassPat Constant_classof cap.

Section matching.
Context `{APFloatAPI}.

(** The variables a match assigns. *)
Definition Captures : Type := nat -> option Operation.
Definition no_captures : Captures := fun _ => None.
Definition capture (k : nat) (op : Operation) (c : Captures) : Captures :=
  fun j => if (j =? k)%nat then Some op else c j.

(** [Matcher::matches]. *)
Fixpoint pat_matches (p : Pat) (op : Operation) : bool :=
  match p with
  | Any | RefOp _ => true
  | BinaryOpPat o l r =>
      bool_decide (op_opcode op = o) &&
      match op_operands op !! 0%nat, op_operands op !! 1%nat with
      | Some a, Some b => pat_matches l a && pat_matches r b
      | _, _ => false
      end
  | UnaryOpPat o i =>
      bool_decide (op_opcode op = o) &&
      match op_operands op !! 0%nat with Some a => pat_matches i a | None => false end
  | OpClassPat cls _ => cls (op_opcode op)
  | CapturePat _ i => pat_matches i op
  | ICmpPat c l r =>
      ICmpOp_classof (op_opcode op) &&
      bool_decide (comparison_of_aux (opcode_aux (opcode_val (op_opcode op))) = Some c) &&
      match op_operands op !! 0%nat, op_operands op !! 1%nat with
      | Some a, Some b => pat_matches l a && pat_matches r b
      | _, _ => false
      end
  end.

(** [Matcher::on_match]. *)
Fixpoint on_match (p : Pat) (op : Operation) (c : Captures) : Captures :=
  match p with
  | Any => c
  | RefOp k => capture k op c
  | BinaryOpPat _ l r | ICmpPat _ l r =>
      match op_operands op !! 0%nat, op_operands op !! 1%nat with
      | Some a, Some b => on_match r b (on_match l a c)
      | _, _ => c
      end
  | UnaryOpPat _ i =>
      match op_operands op !! 0%nat with Some a => on_match i a c | None => c end
  | OpClassPat _ cap => match cap with Some k => capture k op c | None => c end
  | CapturePat k i => capture k op (on_match i op c)
  end.

(** [caffeine::matches]: the captures keep their old values on a mismatch. *)
Definition matches (op : Operation) (p : Pat) (c : Captures) : bool * Captures :=
  if pat_matches p op then (true, on_match p op c) else (false, c).

(** The loop over the operands: stop at the first one that reports a match. *)
Definition first_match (f : Operation -> option Operation * Captures) (c : Captures) :
    list Operation -> option Operation * Captures :=
  fix go l :=
    match l with
    | [] => (None, c)
    | x :: l => match f x with (Some m, c') => (Some m, c') | (None, _) => go l end
    end.

(** [caffeine::matches_anywhere]: the first match in a depth-first, left to
    right traversal. *)
Fixpoint matches_anywhere (op : Operation) (p : Pat) (c : Captures) : option Operation * Captures :=
  if pat_matches p op then (Some op, on_match p op c)
  else let 'mkOp _ ops := op in first_match (fun x => matches_anywhere x p c) c ops.

(** A sub-expression of [op]. *)
Inductive subterm (x : Operation) : Operation -> Prop :=
| subterm_refl : subterm x x
| subterm_operand d l y : y ∈ l -> subterm x y -> subterm x (mkOp d l).

(** ** Lemmas *)
Lemma pat_binary_inv o l r op :
  pat_matches (BinaryOpPat o l r) op = true ->
  exists a b rest, op_opcode op = o /\ op_operands op = a :: b :: rest /\
    pat_matches l a = true /\ pat_matches r b = true /\
    forall c, on_match (BinaryOpPat o l r) op c = on_match r b (on_match l a c).
Proof.
  cbn. rewrite andb_true_iff, bool_decide_eq_true. intros [Ho Hm].
  destruct (op_operands op) as [|a [|b rest]]; try done. cbn in *.
  apply andb_true_iff in Hm as [? ?]. exists a, b, rest. naive_solver.
Qed.

Lemma pat_unary_inv o i op :
  pat_matches (UnaryOpPat o i) op = true ->
  exists a rest, op_opcode op = o /\ op_operands op = a :: rest /\ pat_matches i a = true /\
    forall c, on_match (UnaryOpPat o i) op c = on_match i a c.
Proof.
  cbn. rewrite andb_true_iff, bool_decide_eq_true. intros [Ho Hm].
  destruct (op_operands op) as [|a rest]; try done. exists a, rest. naive_solver.
Qed.

(** What a search returns for one expression. *)
Definition search_result (p : Pat) (c : Captures) (S : Operation -> Prop)
    (r : option Operation * Captures) : Prop :=
  match r with
  | (Some m, c') => S m /\ pat_matches p m = true /\ c' = on_match p m c
  | (None, c') => c' = c /\ forall m, S m -> pat_matches p m = false
  end.

Lemma first_match_spec p c f l :
  Forall (fun x => search_result p c (fun m => subterm m x) (f x)) l ->
  search_result p c (fun m => exists x, x ∈ l /\ subterm m x) (first_match f c l).
Proof.
  induction 1 as [|x l Hx _ IHl]; [split; [done|set_solver]|]. cbn.
  destruct (f x) as [[m|] c'].
  - destruct Hx as (? & ? & ?). split_and!; [exists x; set_solver|done..].
  - destruct Hx as [_ Hx]. destruct (first_match f c l) as [[m|] c''].
    + destruct IHl as ((y & ? & ?) & ? & ?). split_and!; [exists y; set_solver|done..].
    + destruct IHl as [? IHl]. split; [done|]. intros m (y & Hy & Hs).
      apply elem_of_cons in Hy as [->|Hy]; [by apply Hx|apply IHl; eauto].
Qed.

(** [matches_anywhere] is a search: it reports a node exactly when some
    sub-expression satisfies the pattern, the node it reports is such a
    sub-expression, and the captures are those of matching that node (and are
    left alone when there is none). *)
Theorem matches_anywhere_spec p op c :
  match matches_anywhere op p c with
  | (Some m, c') => subterm m op /\ pat_matches p m = true /\ c' = on_match p m c
  | (None, c') => c' = c /\ forall m, subterm m op -> pat_matches p m = false
  end.
Proof.
  change (search_result p c (fun m => subterm m op) (matches_anywhere op p c)).
  induction op as [d l IH] using operation_ind'. cbn [matches_anywhere].
  destruct (pat_matches p (mkOp d l)) eqn:Hm; [split_and!; [constructor|done..]|].
  apply first_match_spec in IH. destruct (first_match _ c l) as [[m|] c'].
  - destruct IH as ((x & ? & ?) & ? & ?). split_and!; [by econstructor|done..].
  - destruct IH as [? G]. split; [done|]. intros m Hs. inversion Hs; subst; [done|].
    apply G. eauto.
Qed.
End matching.
