(* ===== verification/Create.v ===== *)
(** Construction of expression nodes: the [Create] functions of
    src/IR/Operation.cpp, src/IR/OperationBase.cpp and src/IR/Operation.h.

    Every constructor checks its arguments, builds a node and hands it to
    [constant_fold], which in turn calls constructors.  The functions of this
    file take that callee as their first argument [fold]; Simplifier.v ties
    the knot. *)
From S2P Require Import Prelude LLVM IRType Value Opcode Operation.
Open Scope Z_scope.

Section create.
Context `{PtrEq} `{MathExtrasAPI}.
Context (fold : Operation -> result Operation).

(** Build the node and simplify it. *)
Definition build (d : OperationData) (operands : list Operation) : result Operation :=
  op ← Operation_ctor d operands; fold op.

(** *** Constants *)
Definition Constant_Create (t : Ty) (symbol : Symbol) : result Operation :=
  build (ConstantData t symbol) [].
Definition ConstantInt_Create (iconst : APInt) : result Operation :=
  d ← ConstantIntData iconst; build d [].
Definition ConstantInt_Create_bool (value : bool) : result Operation :=
  ConstantInt_Create (APInt_of 1 (Z.b2z value)).
Definition ConstantInt_Create_value (value : Value) : result Operation :=
  a ← v_apint value; ConstantInt_Create a.
Definition ConstantInt_CreateZero (w : Z) : result Operation :=
  ConstantInt_Create (getNullValue w).
Definition ConstantFloat_Create (fconst : APFloat) : result Operation :=
  d ← ConstantFloatData fconst; build d [].
Definition ConstantFloat_Create_double (value : Z) : result Operation :=
  ConstantFloat_Create (APFloat_of_double value).
Definition ConstantArray_Create (symbol : Symbol) (size : Operation) : result Operation :=
  assert_ (is_int (op_type size)) ;;
  w ← bitwidth (op_type size); t ← array_ty w;
  build (ConstantData t symbol) [size].
Definition Undef_Create (t : Ty) : result Operation := build (mkData OpUndef t NoPayload) [].
Definition FunctionObject_Create (function : Z) : result Operation :=
  assert_ (negb (function =? 0)) ;; d ← FunctionObjectData function; build d [].
Definition EGraphNode_Create (t : Ty) (id : Z) : result Operation :=
  build (EGraphNodeData t id) [].

(** *** Binary operations *)
Definition BinaryOp_Create (o : Opcode) (lhs rhs : Operation) : result Operation :=
  assert_ (Z.land (opcode_val o) 3 =? 2) ;;
  assert_ (ty_eqb (op_type lhs) (op_type rhs)) ;;
  build (mkData o (op_type lhs) NoPayload) [lhs; rhs].
(** [DECL_BINOP_CREATE] with [ASSERT_INT] and with [ASSERT_FP]. *)
Definition IntOp_Create (o : Opcode) (lhs rhs : Operation) : result Operation :=
  assert_ (is_int (op_type lhs)) ;; assert_ (is_int (op_type rhs)) ;;
  BinaryOp_Create o lhs rhs.
Definition FloatOp_Create (o : Opcode) (lhs rhs : Operation) : result Operation :=
  assert_ (is_float (op_type lhs)) ;; assert_ (is_float (op_type rhs)) ;;
  BinaryOp_Create o lhs rhs.
Definition CreateAnd := IntOp_Create OpAnd.
Definition CreateOr := IntOp_Create OpOr.
Definition CreateXor := IntOp_Create OpXor.
Definition CreateShl := IntOp_Create OpShl.
Definition CreateLShr := IntOp_Create OpLShr.
Definition CreateAdd := IntOp_Create OpAdd.
Definition CreateMul := IntOp_Create OpMul.
(** [DEF_INT_BINOP_CONST_CREATE_DETAIL]: an [int64_t] on one side. *)
Definition IntOp_Create_ri (o : Opcode) (lhs : Operation) (rhs : Z) : result Operation :=
  assert_ (is_int (op_type lhs)) ;;
  w ← bitwidth (op_type lhs); c ← ConstantInt_Create (APInt_of w rhs);
  IntOp_Create o lhs c.
Definition IntOp_Create_li (o : Opcode) (lhs : Z) (rhs : Operation) : result Operation :=
  assert_ (is_int (op_type rhs)) ;;
  w ← bitwidth (op_type rhs); c ← ConstantInt_Create (APInt_of w lhs);
  IntOp_Create o c rhs.

(** *** Unary operations and conversions *)
Definition UnaryOp_Create (o : Opcode) (operand : Operation) (returnType : Ty) : result Operation :=
  assert_ (Z.land (opcode_val o) 3 =? 1) ;;
  build (mkData o returnType NoPayload) [operand].
Definition CreateNot (operand : Operation) : result Operation :=
  assert_ (is_int (op_type operand)) ;; UnaryOp_Create OpNot operand (op_type operand).
Definition CreateFNeg (operand : Operation) : result Operation :=
  assert_ (is_float (op_type operand)) ;; UnaryOp_Create OpFNeg operand (op_type operand).
Definition CreateFIsNaN (operand : Operation) : result Operation :=
  assert_ (is_float (op_type operand)) ;; t ← int_ty 1; UnaryOp_Create OpFIsNaN operand t.
Definition CreateTrunc (tgt : Ty) (operand : Operation) : result Operation :=
  assert_ (is_int tgt) ;; assert_ (is_int (op_type operand)) ;;
  tw ← bitwidth tgt; ow ← bitwidth (op_type operand); assert_ (tw <=? ow) ;;
  UnaryOp_Create OpTrunc operand tgt.
Definition CreateZExt (tgt : Ty) (operand : Operation) : result Operation :=
  assert_ (is_int tgt) ;; assert_ (is_int (op_type operand)) ;;
  tw ← bitwidth tgt; ow ← bitwidth (op_type operand); assert_ (ow <=? tw) ;;
  UnaryOp_Create OpZExt operand tgt.
Definition CreateSExt (tgt : Ty) (operand : Operation) : result Operation :=
  assert_ (is_int tgt) ;; assert_ (is_int (op_type operand)) ;;
  tw ← bitwidth tgt; ow ← bitwidth (op_type operand); assert_ (ow <=? tw) ;;
  UnaryOp_Create OpSExt operand tgt.
Definition CreateFpTrunc (tgt : Ty) (operand : Operation) : result Operation :=
  assert_ (is_float tgt) ;; assert_ (is_float (op_type operand)) ;;
  te ← exponent_bits tgt; oe ← exponent_bits (op_type operand);
  tm ← mantissa_bits tgt; om ← mantissa_bits (op_type operand);
  assert_ ((te <? oe) && (tm <? om)) ;; UnaryOp_Create OpFpTrunc operand tgt.
Definition CreateFpExt (tgt : Ty) (operand : Operation) : result Operation :=
  assert_ (is_float tgt) ;; assert_ (is_float (op_type operand)) ;;
  te ← exponent_bits tgt; oe ← exponent_bits (op_type operand);
  tm ← mantissa_bits tgt; om ← mantissa_bits (op_type operand);
  assert_ ((oe <? te) && (om <? tm)) ;; UnaryOp_Create OpFpExt operand tgt.
Definition CreateFpToUI (tgt : Ty) (operand : Operation) : result Operation :=
  assert_ (is_int tgt) ;; assert_ (is_float (op_type operand)) ;;
  UnaryOp_Create OpFpToUI operand tgt.
Definition CreateFpToSI (tgt : Ty) (operand : Operation) : result Operation :=
  assert_ (is_int tgt) ;; assert_ (is_float (op_type operand)) ;;
  UnaryOp_Create OpFpToSI operand tgt.
Definition CreateUIToFp (tgt : Ty) (operand : Operation) : result Operation :=
  assert_ (is_float tgt) ;; assert_ (is_int (op_type operand)) ;;
  UnaryOp_Create OpUIToFp operand tgt.
Definition CreateSIToFp (tgt : Ty) (operand : Operation) : result Operation :=
  assert_ (is_float tgt) ;; assert_ (is_int (op_type operand)) ;;
  UnaryOp_Create OpSIToFp operand tgt.
Definition CreateBitcast (tgt : Ty) (operand : Operation) : result Operation :=
  UnaryOp_Create OpBitcast operand tgt.
Definition CreateTruncOrZExt (tgt : Ty) (operand : Operation) : result Operation :=
  assert_ (is_int (op_type operand)) ;; assert_ (is_int tgt) ;;
  tw ← bitwidth tgt; ow ← bitwidth (op_type operand);
  if tw <? ow then CreateTrunc tgt operand
  else if ow <? tw then CreateZExt tgt operand
  else Ok operand.
Definition CreateTruncOrSExt (tgt : Ty) (operand : Operation) : result Operation :=
  assert_ (is_int (op_type operand)) ;; assert_ (is_int tgt) ;;
  tw ← bitwidth tgt; ow ← bitwidth (op_type operand);
  if tw <? ow then CreateTrunc tgt operand
  else if ow <? tw then CreateSExt tgt operand
  else Ok operand.

(** *** Selection and comparisons *)
Definition SelectOp_Create (cond true_value false_value : Operation) : result Operation :=
  i1 ← int_ty 1; assert_ (ty_eqb (op_type cond) i1) ;;
  assert_ (ty_eqb (op_type true_value) (op_type false_value)) ;;
  build (mkData OpSelect (op_type true_value) NoPayload) [cond; true_value; false_value].
Definition CreateICmp (cmp : ICmpOpcode) (lhs rhs : Operation) : result Operation :=
  assert_ (ty_eqb (op_type rhs) (op_type lhs)) ;; assert_ (is_int (op_type lhs)) ;;
  build (mkData (OpICmp cmp) type_of_bool NoPayload) [lhs; rhs].
(** The overloads with an [int64_t]: the literal is a 64-bit integer that is
    sign-extended or truncated to the operand's width. *)
Definition CreateICmp_ri (cmp : ICmpOpcode) (lhs : Operation) (rhs : Z) : result Operation :=
  assert_ (is_int (op_type lhs)) ;;
  w ← bitwidth (op_type lhs);
  c ← ConstantInt_Create (ap_sextOrTrunc (APInt_of 64 rhs) w); CreateICmp cmp lhs c.
Definition CreateICmp_li (cmp : ICmpOpcode) (lhs : Z) (rhs : Operation) : result Operation :=
  assert_ (is_int (op_type rhs)) ;;
  w ← bitwidth (op_type rhs);
  c ← ConstantInt_Create (ap_sextOrTrunc (APInt_of 64 lhs) w); CreateICmp cmp c rhs.
Definition CreateFCmp (cmp : FCmpOpcode) (lhs rhs : Operation) : result Operation :=
  assert_ (ty_eqb (op_type rhs) (op_type lhs)) ;; assert_ (is_float (op_type lhs)) ;;
  build (mkData (OpFCmp cmp) type_of_bool NoPayload) [lhs; rhs].

(** *** Arrays *)
Definition AllocOp_Create (size defaultval : Operation) : result Operation :=
  assert_ (is_int (op_type size)) ;;
  i8 ← int_ty 8; assert_ (ty_eqb (op_type defaultval) i8) ;;
  w ← bitwidth (op_type size); t ← array_ty w;
  build (mkData OpAlloc t NoPayload) [size; defaultval].
Definition LoadOp_Create (data offset : Operation) : result Operation :=
  assert_ (is_int (op_type offset)) ;;
  i8 ← int_ty 8; build (mkData OpLoad i8 NoPayload) [data; offset].
Definition StoreOp_Create (data offset value : Operation) : result Operation :=
  assert_ (is_int (op_type offset)) ;;
  i8 ← int_ty 8; assert_ (ty_eqb (op_type value) i8) ;;
  build (mkData OpStore (op_type data) NoPayload) [data; offset; value].

(** [ilog2] of src/IR/Operation.h, in [uint64_t] arithmetic. *)
Definition ilog2 (x : Z) : Z :=
  let ispow2 := Z.land x (wrap 64 (x - 1)) =? 0 in
  wrap 64 (64 - countLeadingZeros x - (if ispow2 then 1 else 0)).

Definition FixedArray_Create (index_ty : Ty) (data : list Operation) : result Operation :=
  assert_ (is_int index_ty) ;;
  w ← bitwidth index_ty; assert_ (ilog2 (Z.of_nat (length data)) <=? w) ;;
  t ← array_ty w; build (mkData OpFixedArray t NoPayload) data.
Definition FixedArray_Create_fill (index_ty : Ty) (value : Operation) (size : Z) : result Operation :=
  FixedArray_Create index_ty (replicate (Z.to_nat size) value).

(** [ArrayBase::size]; a store has the size of the array it stores into, which
    [llvm::cast<ArrayBase>] first checks to be an [ArrayBase]. *)
Fixpoint ArrayBase_size (op : Operation) : result Operation :=
  match op_opcode op with
  | OpAlloc | OpConstantArray => operand_at op 0
  | OpStore =>
      let 'mkOp _ l := op in
      match l with
      | x :: _ => assert_ (ArrayBase_classof (op_opcode x)) ;; ArrayBase_size x
      | [] => Err UndefinedBehaviour
      end
  | OpFixedArray =>
      w ← bitwidth (op_type op); ConstantInt_Create (APInt_of w (num_operands op))
  | _ => Err Unimplemented
  end.

(** *** Generic construction *)
Definition with_new_operands (op : Operation) (operands : list Operation) : result Operation :=
  assert_ (Z.of_nat (length operands) =? num_operands op) ;;
  if num_operands op =? 0 then Ok op
  else if forallb (fun p => ptr_eq p.1 p.2) (zip (op_operands op) operands) then Ok op
  else d ← data_clone (op_data op); build d operands.
Definition CreateRaw (d : OperationData) (operands : list Operation) : result Operation :=
  (if BinaryOp_classof (od_opcode d)
   then a ← of_option UndefinedBehaviour (operands !! 0%nat);
        b ← of_option UndefinedBehaviour (operands !! 1%nat);
        assert_ (ty_eqb (op_type a) (op_type b))
   else Ok tt) ;;
  build d operands.

(** *** Overflow detection *)
Definition extract_bit (op : Operation) (bit : Z) : result Operation :=
  assert_ (is_int (op_type op)) ;;
  w ← bitwidth (op_type op); assert_ (bit <? w) ;;
  i1 ← int_ty 1; s ← IntOp_Create_ri OpLShr op bit; CreateTrunc i1 s.

(** The loop of [CreateUMulOverflow] over [i = 2 .. bitwidth - 1]; [n]
    iterations are left. *)
Fixpoint umul_loop (a b : Operation) (w i : Z) (n : nat) (o v : Operation) :
    result (Operation * Operation) :=
  match n with
  | O => Ok (o, v)
  | S n =>
      ai ← extract_bit a (w - i); o ← CreateOr o ai;
      bi ← extract_bit b i; ob ← CreateAnd o bi; v ← CreateOr v ob;
      umul_loop a b w (i + 1) n o v
  end.

Definition CreateUMulOverflow (a b : Operation) : result Operation :=
  assert_ (ty_eqb (op_type a) (op_type b)) ;;
  assert_ (is_int (op_type a)) ;; assert_ (is_int (op_type b)) ;;
  w ← bitwidth (op_type a);
  if w <? 2 then ConstantInt_Create_bool false else
  o ← extract_bit a (w - 1);
  a1 ← extract_bit a (w - 1); b1 ← extract_bit b 1; v ← CreateAnd a1 b1;
  ov ← umul_loop a b w 2 (Z.to_nat (w - 2)) o v;
  t ← int_ty (w + 1);
  za ← CreateZExt t a; zb ← CreateZExt t b; mult ← CreateMul za zb;
  m ← extract_bit mult w; CreateOr ov.2 m.

(** The loop of [CreateSMulOverflow] over [i = 2 .. bitwidth - 2]. *)
Fixpoint smul_loop (ax bx : Operation) (w i : Z) (n : nat) (o v : Operation) :
    result (Operation * Operation) :=
  match n with
  | O => Ok (o, v)
  | S n =>
      ai ← extract_bit ax (w - i - 1); o ← CreateOr o ai;
      bi ← extract_bit bx i; ob ← CreateAnd o bi; v ← CreateOr v ob;
      smul_loop ax bx w (i + 1) n o v
  end.

Definition CreateSMulOverflow (a b : Operation) : result Operation :=
  assert_ (ty_eqb (op_type a) (op_type b)) ;;
  assert_ (is_int (op_type a)) ;; assert_ (is_int (op_type b)) ;;
  w ← bitwidth (op_type a);
  if w <? 2 then CreateAnd a b else
  sa ← IntOp_Create_ri OpAShr a (w - 1); ax ← CreateXor sa a;
  sb ← IntOp_Create_ri OpAShr b (w - 1); bx ← CreateXor sb b;
  o ← extract_bit ax (w - 2);
  x1 ← extract_bit ax (w - 2); b1 ← extract_bit bx 1; v ← CreateAnd x1 b1;
  ov ← smul_loop ax bx w 2 (Z.to_nat (w - 3)) o v;
  ha ← extract_bit a (w - 1); hb ← extract_bit b (w - 1); sign ← CreateICmp EQ ha hb;
  t ← int_ty (w + 1);
  xa ← CreateSExt t a; xb ← CreateSExt t b; mult ← CreateMul xa xb;
  mw ← extract_bit mult w; mw1 ← extract_bit mult (w - 1);
  overflow1 ← CreateXor mw mw1;
  either ← CreateOr overflow1 ov.2; CreateAnd sign either.
End create.
