(* ===== verification/Semantics.v ===== *)
(** The meaning of expressions, as the specification the simplifier, the model
    evaluator and the memory model are measured against.

    [denote e op] is the value of [op] when its symbols have the values of
    [e]: bit-vector arithmetic modulo the width, IEEE comparisons, arrays of
    bytes.  It is [None] where LLVM leaves the result undefined (undef,
    division by zero, signed division overflow, an access outside an array) and
    for the operations that have no meaning of their own here (function
    objects, float conversions).  [wf] is the typing of nodes that the
    assertions of the constructors enforce. *)
From S2P Require Import Prelude LLVM IRType Value Opcode Operation Create.
Open Scope Z_scope.

(** Split the operands of a node whose shape [node_ok] fixes. *)
Ltac node_shape l Hn :=
  destruct l as [|?x l]; try done;
  try (destruct l as [|?y l]; try done);
  try (destruct l as [|?z l]; try done);
  try (destruct l as [|? l]; try done).

Section semantics.
Context `{APFloatAPI} `{MathExtrasAPI}.

(** Values; a byte of an array may be undefined. *)
Inductive Den : Type :=
| DInt (a : APInt)
| DFloat (f : APFloat)
| DArr (bytes : list (option APInt)) (index_width : Z).

#[export] Instance Den_eq_dec : EqDecision Den.
Proof. solve_decision. Defined.

(** Bytes are 8 bits wide. *)
Definition byte_ok (b : option APInt) : bool :=
  match b with Some a => getBitWidth a =? 8 | None => true end.

Definition den_ty (v : Den) : result Ty :=
  match v with
  | DInt a => type_of_apint a
  | DFloat f => type_of_apfloat f
  | DArr bs w => assert_ (forallb byte_ok bs) ;; array_ty w
  end.

Record Env : Type := {
  env_symbol : Symbol -> Den;
  env_array : Symbol -> Z -> Den;
  env_node : Z -> option Den
}.

(** A symbol only has a meaning if its value has the symbol's type. *)
Definition typed (t : Ty) (v : Den) : option Den :=
  if bool_decide (den_ty v = Ok t) then Some v else None.

(** *** Integers, on unsigned values of width [w] *)
Definition sem_int (o : Opcode) (w x y : Z) : option Z :=
  match o with
  | OpAdd => Some (x + y)
  | OpSub => Some (x - y)
  | OpMul => Some (x * y)
  | OpUDiv => if y =? 0 then None else Some (x / y)
  | OpSDiv => if (y =? 0) || ((x =? 2 ^ (w - 1)) && (y =? 2 ^ w - 1)) then None
              else Some (Z.quot (sgn w x) (sgn w y))
  | OpURem => if y =? 0 then None else Some (x mod y)
  | OpSRem => if y =? 0 then None else Some (Z.rem (sgn w x) (sgn w y))
  | OpAnd => Some (Z.land x y)
  | OpOr => Some (Z.lor x y)
  | OpXor => Some (Z.lxor x y)
  | OpShl => Some (Z.shiftl x y)
  | OpLShr => Some (Z.shiftr x y)
  | OpAShr => Some (Z.shiftr (sgn w x) y)
  | _ => None
  end.

Definition sem_icmp (c : ICmpOpcode) (w x y : Z) : bool :=
  match c with
  | EQ => x =? y | NE => negb (x =? y)
  | UGT => y <? x | UGE => y <=? x | ULT => x <? y | ULE => x <=? y
  | SGT => sgn w y <? sgn w x | SGE => sgn w y <=? sgn w x
  | SLT => sgn w x <? sgn w y | SLE => sgn w x <=? sgn w y
  end.

Definition sem_float (o : Opcode) (a b : APFloat) : option APFloat :=
  match o with
  | OpFAdd => Some (fl_add a b)
  | OpFSub => Some (fl_sub a b)
  | OpFMul => Some (fl_mul a b)
  | OpFDiv => Some (fl_div a b)
  | OpFRem => Some (fl_remainder a b).1
  | _ => None
  end.

(** Ordered comparisons are false on NaN, [NE] is true. *)
Definition sem_fcmp (c : FCmpOpcode) (a b : APFloat) : bool :=
  match c, fl_compare a b with
  | FEQ, cmpEqual | FGE, cmpEqual | FLE, cmpEqual => true
  | FGT, cmpGreaterThan | FGE, cmpGreaterThan => true
  | FLT, cmpLessThan | FLE, cmpLessThan => true
  | FNE, cmpEqual => false
  | FNE, _ => true
  | _, _ => false
  end.

Definition den_bool (b : bool) : Den := DInt (APInt_of 1 (Z.b2z b)).
Lemma den_bool_inj u v : den_bool u = den_bool v -> u = v.
Proof.
  intros [= E]. apply (f_equal getZExtValue) in E. rewrite !APInt_of_value in E by lia.
  by destruct u, v.
Qed.

(** The IEEE format with a given type; bit casts to the x87 format, which has
    non-canonical bit patterns, have no meaning here. *)
Definition format_of (t : Ty) : option fltSemantics :=
  head (filter (fun s => float_ty (semanticsSizeInBits s - semanticsPrecision s)
                          (semanticsPrecision s) = Ok t)
    [IEEEhalf; BFloat; IEEEsingle; IEEEdouble; IEEEquad]).

(** A byte of a fixed array: a defined 8-bit integer. *)
Definition den_byte (v : option Den) : option APInt :=
  match v with Some (DInt a) => Some a | _ => None end.

Definition sem_unary (o : Opcode) (t : Ty) (v : Den) : option Den :=
  match o, v with
  | OpNot, DInt a => Some (DInt (APInt_of (getBitWidth a) (Z.lnot (getZExtValue a))))
  | OpTrunc, DInt a | OpZExt, DInt a => Some (DInt (APInt_of (desc_ t) (getZExtValue a)))
  | OpSExt, DInt a =>
      Some (DInt (APInt_of (desc_ t) (sgn (getBitWidth a) (getZExtValue a))))
  | OpFNeg, DFloat f => Some (DFloat (fl_sub (getZero (getSemantics f)) f))
  | OpFIsNaN, DFloat f => Some (den_bool (isNaN f))
  | OpBitcast, DInt a =>
      if is_float t then
        s ← format_of t;
        if getBitWidth a =? semanticsSizeInBits s
        then Some (DFloat (APFloat_of_bits s a)) else None
      else None
  | OpBitcast, DFloat f =>
      if bool_decide (t = ity (semanticsSizeInBits (getSemantics f)))
      then Some (DInt (bitcastToAPInt f)) else None
  | _, _ => None
  end.

Definition sem_binary (o : Opcode) (u v : Den) : option Den :=
  match u, v with
  | DInt a, DInt b =>
      if getBitWidth a =? getBitWidth b then
        match o with
        | OpICmp c =>
            Some (den_bool (sem_icmp c (getBitWidth a) (getZExtValue a) (getZExtValue b)))
        | _ =>
            (fun z => DInt (APInt_of (getBitWidth a) z)) <$>
              sem_int o (getBitWidth a) (getZExtValue a) (getZExtValue b)
        end
      else None
  | DFloat f, DFloat g =>
      match o with
      | OpFCmp c => Some (den_bool (sem_fcmp c f g))
      | _ => DFloat <$> sem_float o f g
      end
  | _, _ => None
  end.

(** The value of a node from the values of its operands; [select] only needs
    the branch it takes. *)
Definition denote_node (e : Env) (d : OperationData) (vs : list (option Den)) : option Den :=
  match od_opcode d, vs with
  | (OpConstantNamed | OpConstantNumbered), [] =>
      match od_payload d with
      | PSymbol s => typed (od_type d) (env_symbol e s) | _ => None
      end
  | OpConstantInt, [] => match od_payload d with PInt a => Some (DInt a) | _ => None end
  | OpConstantFloat, [] => match od_payload d with PFloat f => Some (DFloat f) | _ => None end
  | OpConstantArray, [Some (DInt n)] =>
      match od_payload d with
      | PSymbol s => typed (od_type d) (env_array e s (getZExtValue n)) | _ => None
      end
  | OpEGraphNode, [] =>
      match od_payload d with
      | PEGraph i => env_node e i ≫= typed (od_type d) | _ => None
      end
  | OpSelect, [Some (DInt c); t; f] => if getZExtValue c =? 1 then t else f
  | OpFixedArray, bs => Some (DArr (den_byte <$> bs) (desc_ (od_type d)))
  | OpAlloc, [Some (DInt n); b] =>
      Some (DArr (replicate (Z.to_nat (getZExtValue n)) (den_byte b)) (getBitWidth n))
  | OpLoad, [Some (DArr bs w); Some (DInt i)] =>
      if w =? getBitWidth i
      then DInt <$> mjoin (bs !! Z.to_nat (getZExtValue i)) else None
  | OpStore, [Some (DArr bs w); Some (DInt i); b] =>
      if (w =? getBitWidth i) && (getZExtValue i <? Z.of_nat (length bs))
      then Some (DArr (<[Z.to_nat (getZExtValue i) := den_byte b]> bs) w) else None
  | o, [Some v] => sem_unary o (od_type d) v
  | o, [Some u; Some v] => sem_binary o u v
  | _, _ => None
  end.

Fixpoint denote (e : Env) (op : Operation) : option Den :=
  let 'mkOp d l := op in denote_node e d (denote e <$> l).

(** *** Well-formed nodes *)
Definition int_binop (o : Opcode) : bool :=
  match o with
  | OpAdd | OpSub | OpMul | OpUDiv | OpSDiv | OpURem | OpSRem
  | OpAnd | OpOr | OpXor | OpShl | OpLShr | OpAShr => true
  | _ => false
  end.
Definition float_binop (o : Opcode) : bool :=
  match o with OpFAdd | OpFSub | OpFMul | OpFDiv | OpFRem => true | _ => false end.

Definition node_ok (d : OperationData) (l : list Operation) : Prop :=
  match od_opcode d, l with
  | (OpConstantNamed | OpConstantNumbered), [] => exists s, od_payload d = PSymbol s
  | OpConstantInt, [] => exists a, od_payload d = PInt a /\
      good_width (getBitWidth a) /\ od_type d = ity (getBitWidth a)
  | OpConstantFloat, [] => exists f, od_payload d = PFloat f /\
      type_of_apfloat f = Ok (od_type d)
  | OpConstantArray, [n] => exists s w, od_payload d = PSymbol s /\ good_width w /\
      op_type n = ity w /\ od_type d = aty w
  | OpFunctionObject, [] => exists p, od_payload d = PFunction p
  | OpEGraphNode, [] => exists i, od_payload d = PEGraph i
  | OpUndef, [] => True
  | (OpAdd | OpSub | OpMul | OpUDiv | OpSDiv | OpURem | OpSRem
    | OpAnd | OpOr | OpXor | OpShl | OpLShr | OpAShr), [x; y] =>
      exists w, good_width w /\ od_type d = ity w /\ op_type x = ity w /\ op_type y = ity w
  | (OpFAdd | OpFSub | OpFMul | OpFDiv | OpFRem), [x; y] =>
      is_float (od_type d) = true /\ op_type x = od_type d /\ op_type y = od_type d
  | OpICmp _, [x; y] =>
      exists w, good_width w /\ od_type d = ity 1 /\ op_type x = ity w /\ op_type y = ity w
  | OpFCmp _, [x; y] =>
      od_type d = ity 1 /\ is_float (op_type x) = true /\ op_type x = op_type y
  | OpNot, [x] => exists w, good_width w /\ od_type d = ity w /\ op_type x = ity w
  | OpFNeg, [x] => is_float (od_type d) = true /\ op_type x = od_type d
  | OpFIsNaN, [x] => od_type d = ity 1 /\ is_float (op_type x) = true
  | OpTrunc, [x] => exists w w', good_width w /\ good_width w' /\ w <= w' /\
      od_type d = ity w /\ op_type x = ity w'
  | (OpZExt | OpSExt), [x] => exists w w', good_width w /\ good_width w' /\ w' <= w /\
      od_type d = ity w /\ op_type x = ity w'
  | (OpFpTrunc | OpFpExt | OpFpToUI | OpFpToSI | OpUIToFp | OpSIToFp | OpBitcast), [_] => True
  | OpSelect, [c; x; y] => op_type c = ity 1 /\ op_type x = od_type d /\ op_type y = od_type d
  | OpFixedArray, l => exists w, good_width w /\ od_type d = aty w /\
      Forall (fun x => op_type x = ity 8) l /\ ilog2 (Z.of_nat (length l)) <= w
  | OpAlloc, [n; b] => exists w, good_width w /\ od_type d = aty w /\
      op_type n = ity w /\ op_type b = ity 8
  | OpLoad, [a; i] => exists w, good_width w /\ od_type d = ity 8 /\
      op_type a = aty w /\ op_type i = ity w
  | OpStore, [a; i; b] => exists w, good_width w /\ od_type d = aty w /\
      op_type a = aty w /\ op_type i = ity w /\ op_type b = ity 8
  | _, _ => False
  end.

Inductive wf : Operation -> Prop :=
| wf_node d l : Forall wf l -> node_ok d l -> wf (mkOp d l).

(** [r] can stand for [op]: it is well-formed, has its type, and has its value
    in every environment in which [op] has one. *)
Definition refines (op r : Operation) : Prop :=
  wf r /\ op_type r = op_type op /\
  forall e v, denote e op = Some v -> denote e r = Some v.

(** ** Values have the type of the node *)
Lemma den_ty_int a t : den_ty (DInt a) = Ok t <-> good_width (getBitWidth a) /\ t = ity (getBitWidth a).
Proof. cbn. apply int_ty_Ok, APInt_width_nonneg. Qed.

Lemma den_ty_bool b : den_ty (den_bool b) = Ok (ity 1).
Proof.
  apply den_ty_int. rewrite APInt_of_width by lia. split; [split; reflexivity|done].
Qed.

Lemma den_ty_mk w z : good_width w -> den_ty (DInt (APInt_of w z)) = Ok (ity w).
Proof. intros Hw. apply den_ty_int. rewrite APInt_of_width by (destruct Hw; lia). done. Qed.

Lemma den_ty_float f t : den_ty (DFloat f) = Ok t -> is_float t = true.
Proof.
  cbn. unfold type_of_apfloat. intros E. apply float_ty_sizes in E as [? _]; [done|..].
  - by apply wrap_range.
  - rewrite semanticsPrecision_spec. by destruct (getSemantics f).
Qed.

Lemma type_of_apfloat_sem f g :
  getSemantics f = getSemantics g -> type_of_apfloat f = type_of_apfloat g.
Proof. unfold type_of_apfloat. by intros ->. Qed.

Lemma typed_Some t v v' : typed t v = Some v' -> v' = v /\ den_ty v = Ok t.
Proof. unfold typed. case_bool_decide; [|done]. by intros [= <-]. Qed.

(** The value of a node of integer type is an integer of its width. *)
Lemma den_int_inv v w : den_ty v = Ok (ity w) -> exists a, v = DInt a /\ getBitWidth a = w.
Proof.
  destruct v as [a|f|bs iw]; intros E.
  - apply den_ty_int in E as [_ [= ->]]. eauto.
  - by apply den_ty_float in E.
  - cbn in E. unfold array_ty, Type_ctor in E. inv_ok. discriminate.
Qed.

Lemma den_arr_inv v w : den_ty v = Ok (aty w) ->
  exists bs, v = DArr bs w /\ forallb byte_ok bs = true.
Proof.
  destruct v as [a|f|bs iw]; intros E.
  - by apply den_ty_int in E as [_ [=]].
  - by apply den_ty_float in E.
  - cbn in E. unfold array_ty, Type_ctor in E. inv_ok. subst. eauto.
Qed.

Lemma den_ty_arr bs w :
  good_width w -> forallb byte_ok bs = true -> den_ty (DArr bs w) = Ok (aty w).
Proof. intros Hw Hb. cbn. rewrite Hb. by apply array_ty_good. Qed.

Lemma byte_ok_den v : (forall u, v = Some u -> den_ty u = Ok (ity 8)) -> byte_ok (den_byte v) = true.
Proof.
  intros Hv. destruct v as [[a| |]|]; try done. specialize (Hv _ eq_refl).
  apply den_ty_int in Hv as [_ [= E]]. cbn. by apply Z.eqb_eq.
Qed.

Lemma format_of_inv t s : format_of t = Some s ->
  float_ty (semanticsSizeInBits s - semanticsPrecision s) (semanticsPrecision s) = Ok t /\
  s <> x87DoubleExtended.
Proof.
  unfold format_of. set (L := [_; _; _; _; _]). intros E.
  assert (s ∈ filter (fun s' => float_ty (semanticsSizeInBits s' - semanticsPrecision s')
     (semanticsPrecision s') = Ok t) L) as Hin.
  { destruct (filter _ L); [done|]. injection E as ->. set_solver. }
  apply list_elem_of_filter in Hin as [Hin HL]. split; [done|]. intros ->. subst L. set_solver.
Qed.

(** [format_of] inverts the type of a constant. *)
Lemma format_of_type f s : format_of s = Some (getSemantics f) -> type_of_apfloat f = Ok s.
Proof.
  intros E. apply format_of_inv in E as [E _]. unfold type_of_apfloat. rewrite <- E. f_equal.
  apply wrap_small. rewrite semanticsSizeInBits_spec, semanticsPrecision_spec.
  by destruct (getSemantics f).
Qed.

(** A type determines the format. *)
Lemma format_of_unique f t s :
  type_of_apfloat f = Ok t -> format_of t = Some s -> s = getSemantics f.
Proof.
  intros Hf Hs. apply format_of_inv in Hs as [Hs _]. unfold type_of_apfloat in Hf.
  rewrite <- Hs in Hf. revert Hf. rewrite !semanticsSizeInBits_spec, !semanticsPrecision_spec.
  destruct s, (getSemantics f); vm_compute; congruence.
Qed.

Lemma byte_ok_lookup bs i a :
  forallb byte_ok bs = true -> bs !! i = Some (Some a) -> getBitWidth a = 8.
Proof.
  intros Hb Hi. rewrite forallb_forall in Hb. apply Z.eqb_eq, (Hb (Some a)).
  apply list_elem_of_In. by eapply list_elem_of_lookup_2.
Qed.

Lemma byte_ok_insert bs i b :
  forallb byte_ok bs = true -> byte_ok b = true -> forallb byte_ok (<[i := b]> bs) = true.
Proof.
  rewrite !forallb_forall. intros Hb Hx c Hc%list_elem_of_In.
  apply list_elem_of_lookup in Hc as [j Hj].
  destruct (decide (i = j)) as [->|].
  - destruct (decide (j < length bs)%nat).
    + rewrite list_lookup_insert_eq in Hj by done. by injection Hj as <-.
    + rewrite list_insert_ge in Hj by lia. apply lookup_lt_Some in Hj. lia.
  - rewrite list_lookup_insert_ne in Hj by done. apply Hb, list_elem_of_In.
    by eapply list_elem_of_lookup_2.
Qed.

Lemma sem_int_typed o u v w r :
  good_width w -> den_ty u = Ok (ity w) -> den_ty v = Ok (ity w) ->
  int_binop o = true -> sem_binary o u v = Some r -> den_ty r = Ok (ity w).
Proof.
  intros Hw Hu Hv Ho. apply den_int_inv in Hu as (a & -> & Ha), Hv as (b & -> & Hb). cbn.
  rewrite Ha, Hb, Z.eqb_refl.
  destruct o; try done; intros E; apply fmap_Some in E as (z & _ & ->); by apply den_ty_mk.
Qed.

Lemma sem_float_typed o u v t r :
  is_float t = true -> den_ty u = Ok t -> den_ty v = Ok t ->
  float_binop o = true -> sem_binary o u v = Some r -> den_ty r = Ok t.
Proof.
  intros Ht Hu Hv Ho. destruct u as [a|f|], v as [b|g|]; cbn; try done.
  - by destruct o; try done; case_match.
  - cbn in Hu, Hv. destruct o; try done; cbn; intros [= <-]; cbn; rewrite <- Hu;
      apply type_of_apfloat_sem;
      auto using fl_add_sem, fl_sub_sem, fl_mul_sem, fl_div_sem, fl_remainder_sem.
Qed.

Lemma sem_cmp_typed o u v r :
  is_ICmp o || is_FCmp o = true -> sem_binary o u v = Some r -> den_ty r = Ok (ity 1).
Proof.
  intros Ho. destruct u as [a|f|], v as [b|g|]; cbn; try done.
  - case_match; [|done]. destruct o; try done; intros [= <-]; apply den_ty_bool.
  - destruct o; try done; intros [= <-]; apply den_ty_bool.
Qed.

Lemma sem_ext_typed o v w r :
  good_width w -> (o = OpTrunc \/ o = OpZExt \/ o = OpSExt) ->
  sem_unary o (ity w) v = Some r -> den_ty r = Ok (ity w).
Proof.
  intros Hw [->|[->| ->]]; destruct v; cbn; try done; intros [= <-]; by apply den_ty_mk.
Qed.

Lemma sem_bitcast_typed t v r :
  sem_unary OpBitcast t v = Some r -> den_ty r = Ok t.
Proof.
  destruct v as [a|f|]; cbn; try done.
  - case_match; [|done]. intros E. apply bind_Some in E as (s & Es & E).
    case_match; [|done]. injection E as <-. cbn. apply format_of_type. by rewrite of_bits_sem.
  - case_bool_decide as Ht; [|done]. intros [= <-]. subst t. rewrite <- bitcast_width.
    apply den_ty_int. split; [|done]. rewrite bitcast_width, semanticsSizeInBits_spec.
    by destruct (getSemantics f).
Qed.

Lemma node_typed e d l v :
  node_ok d l ->
  Forall (fun x => forall u, denote e x = Some u -> den_ty u = Ok (op_type x)) l ->
  denote_node e d (denote e <$> l) = Some v -> den_ty v = Ok (od_type d).
Proof.
  unfold node_ok. intros Hn Hl.
  destruct (od_opcode d) eqn:Ho; unfold denote_node; rewrite Ho;
    try solve [destruct l as [|? [|]]; done];
    lazymatch goal with
    | H : od_opcode d = OpFixedArray |- _ =>
        destruct Hn as (w & Hw & -> & Ht & _); intros [= <-]
    | _ => node_shape l Hn
    end;
    rewrite ?Forall_cons in Hl; destruct_and? Hl; cbn [fmap list_fmap].
  all: try (destruct (denote e x) as [u|] eqn:Eu; try done).
  all: try (destruct (denote e y) as [u'|] eqn:Eu'; try done).
  (* symbols and constants *)
  all: try solve [destruct (od_payload d); try done; by intros [-> ?]%typed_Some].
  all: try solve [destruct u as [a| |]; try done; destruct (od_payload d); try done;
    by intros [-> ?]%typed_Some].
  all: try solve [destruct (od_payload d); try done;
    intros (? & _ & [-> ?]%typed_Some)%bind_Some; done].
  all: try solve [destruct Hn as (a & -> & ? & ->); intros [= <-]; by apply den_ty_int].
  all: try solve [destruct Hn as (f & -> & Hf); by intros [= <-]].
  (* integer operations *)
  all: try solve [destruct Hn as (w & Hw & Hd & Hx & Hy); rewrite Hd, Hx, Hy in *;
    intros E; eapply sem_int_typed in E; eauto].
  (* float operations *)
  all: try solve [destruct Hn as (Hf & Hx & Hy); rewrite Hx, Hy in *;
    intros E; eapply sem_float_typed in E; eauto].
  (* comparisons *)
  all: try solve [destruct Hn as (w & Hw & -> & _); by apply sem_cmp_typed].
  all: try solve [destruct Hn as (-> & _); by apply sem_cmp_typed].
  (* unary operations *)
  all: try solve [destruct Hn as (w & w' & Hw & _ & _ & -> & _); apply sem_ext_typed; auto].
  all: try solve [by apply sem_bitcast_typed].
  - destruct Hn as (w & Hw & -> & Hx). rewrite Hx in *.
    edestruct den_int_inv as (a & -> & Ha); eauto. cbn. intros [= <-].
    rewrite Ha. by apply den_ty_mk.
  - destruct Hn as (Hf & <-). destruct u; cbn; try done. intros [= <-].
    rewrite <- (H2 _ eq_refl). apply type_of_apfloat_sem. by rewrite fl_sub_sem, getZero_sem.
  - destruct Hn as (-> & _). destruct u; cbn; try done. intros [= <-]. apply den_ty_bool.
  - destruct Hn as (_ & Hy & Hz), u as [c| |]; try done. case_match; [intros [= <-]; rewrite <- Hy|rewrite <- Hz]; auto.
  - destruct Hn as (_ & Hy & Hz), u as [c| |]; try done. case_match; [done|]. rewrite <- Hz; auto.
  - apply den_ty_arr; [done|]. apply forallb_forall. intros b Hb%list_elem_of_In.
    apply list_elem_of_fmap in Hb as (o & -> & (x & -> & Hx)%list_elem_of_fmap).
    apply byte_ok_den. rewrite Forall_forall in Ht, Hl. intros u Hu. rewrite <- (Ht x Hx). by apply Hl.
  - destruct Hn as (w & Hw & -> & Hx & Hy). rewrite Hx in *.
    edestruct (den_int_inv u) as (a & -> & Ha); eauto. intros [= <-]. subst w.
    apply den_ty_arr; [done|]. apply forallb_forall. intros b Hb%list_elem_of_In.
    apply elem_of_replicate in Hb as [-> _]. apply (byte_ok_den (Some u')). rewrite <- Hy. naive_solver.
  - destruct Hn as (w & Hw & -> & Hx & Hy). rewrite Hx in *.
    edestruct (den_int_inv u) as (a & -> & Ha); eauto. intros [= <-]. subst w.
    apply den_ty_arr; [done|]. apply forallb_forall. intros b Hb%list_elem_of_In.
    by apply elem_of_replicate in Hb as [-> _].
  - destruct Hn as (w & Hw & -> & Hx & Hy & Hz). rewrite Hx, Hy in *.
    edestruct (den_arr_inv u) as (bs & -> & Hbs); eauto.
    edestruct (den_int_inv u') as (a & -> & Ha); eauto. case_match; [|done]. intros [= <-].
    apply den_ty_arr; [done|]. apply byte_ok_insert; [done|]. apply byte_ok_den. rewrite <- Hz. auto.
  - destruct Hn as (w & Hw & -> & Hx & Hy). rewrite Hx, Hy in *.
    edestruct (den_arr_inv u) as (bs & -> & Hbs); eauto.
    edestruct (den_int_inv u') as (a & -> & Ha); eauto. case_match; [|done].
    intros E. apply fmap_Some in E as (b & E & ->).
    destruct (bs !! _) as [[b'|]|] eqn:Eb; try done. injection E as ->.
    apply den_ty_int. erewrite byte_ok_lookup by eauto. split; [split; reflexivity|done].
Qed.

(** A well-formed expression only has values of its type. *)
Lemma denote_typed e op v : wf op -> denote e op = Some v -> den_ty v = Ok (op_type op).
Proof.
  revert v. induction op as [d l IH] using operation_ind'. intros v Hwf. inversion Hwf; subst.
  cbn [denote]. intros E. eapply node_typed; eauto.
  rewrite Forall_forall in *. eauto.
Qed.

Lemma denote_int e op v w :
  wf op -> op_type op = ity w -> denote e op = Some v ->
  exists a, v = DInt a /\ getBitWidth a = w.
Proof. intros Hwf Ht E. apply den_int_inv. rewrite <- Ht. by eapply denote_typed. Qed.

Lemma refines_refl op : wf op -> refines op op.
Proof. by repeat split. Qed.

Lemma refines_trans a b c : refines a b -> refines b c -> refines a c.
Proof. intros (? & ? & ?) (? & ? & ?). split_and!; [done|congruence|auto]. Qed.
End semantics.
