(* ===== verification/Simplifier.v ===== *)
(** Constant folding: [caffeine::OperationSimplifier]
    (include/caffeine/IR/OperationSimplifier.h, src/IR/OperationSimplifier.cpp)
    and the dispatch of [OpVisitorBase::visit]
    (include/caffeine/IR/Visitor.inl).

    [visit fold op] is one call of the simplifier; [fold] is the simplifier it
    calls again, through the constructors of Create.v.  [constant_fold n] runs
    it with at most [n] nested calls, and [simplify] with as many as the node
    has sub-expressions, which always suffices (SimplifierSound.v). *)
From S2P Require Import Prelude LLVM IRType Value Opcode Operation Matching Create.
Open Scope Z_scope.

(** [CAFFEINE_ENABLE_IMPLICIT_CONSTANT_FOLDING], on by default. *)
Class Config := { IMPLICIT_CONSTANT_FOLDING : bool }.

Section simplifier.
Context `{PtrEq} `{MathExtrasAPI} `{Config}.

(** [llvm::dyn_cast<ConstantInt>] and its value; the same for floats. *)
Definition as_ConstantInt (op : Operation) : option APInt :=
  match op_opcode op, od_payload (op_data op) with
  | OpConstantInt, PInt a => Some a
  | _, _ => None
  end.
Definition as_ConstantFloat (op : Operation) : option APFloat :=
  match op_opcode op, od_payload (op_data op) with
  | OpConstantFloat, PFloat f => Some f
  | _, _ => None
  end.
Definition is_Undef (op : Operation) : bool := bool_decide (op_opcode op = OpUndef).

Definition is_constant_int (op : Operation) (value : Z) : bool :=
  match as_ConstantInt op with Some a => ap_eq_u64 a value | None => false end.
Definition is_constant_ones (op : Operation) : bool :=
  match as_ConstantInt op with Some a => isAllOnesValue a | None => false end.

Definition constant_int_compare (cmp : ICmpOpcode) (lhs rhs : APInt) : bool :=
  match cmp with
  | EQ => ap_eq lhs rhs
  | NE => negb (ap_eq lhs rhs)
  | SGE => ap_sge lhs rhs | SGT => ap_sgt lhs rhs
  | SLE => ap_sle lhs rhs | SLT => ap_slt lhs rhs
  | UGE => ap_uge lhs rhs | UGT => ap_ugt lhs rhs
  | ULE => ap_ule lhs rhs | ULT => ap_ult lhs rhs
  end.

Definition constant_float_compare (cmp : FCmpOpcode) (lhs rhs : APFloat) : bool :=
  let res := fl_compare lhs rhs in
  match cmp with
  | FEQ => bool_decide (res = cmpEqual)
  | FNE => negb (bool_decide (res = cmpEqual))
  | FGE => bool_decide (res = cmpGreaterThan) || bool_decide (res = cmpEqual)
  | FGT => bool_decide (res = cmpGreaterThan)
  | FLE => bool_decide (res = cmpLessThan) || bool_decide (res = cmpEqual)
  | FLT => bool_decide (res = cmpLessThan)
  end.

(** [as_const_int] and the tests of [try_const_int], [try_const_float]. *)
Definition const_ints (lhs rhs : Operation) : option (APInt * APInt) :=
  match as_ConstantInt lhs, as_ConstantInt rhs with
  | Some a, Some b => Some (a, b)
  | _, _ => None
  end.
Definition const_floats (lhs rhs : Operation) : option (APFloat * APFloat) :=
  match as_ConstantFloat lhs, as_ConstantFloat rhs with
  | Some a, Some b => Some (a, b)
  | _, _ => None
  end.

(** [visitOperation]: the code returns the node of the operation cache that is
    equal to [op] by [operator==].  The model returns [op]: the two are the same
    expression but for float constants, which [operator==] compares as numbers,
    so that a cached 0.0 can take the place of -0.0. *)
Definition visitOperation (op : Operation) : result Operation := Ok op.

Section visit.
Context (fold : Operation -> result Operation).

(** [TRY_CONST_INT(ConstantInt::Create(f(lhs, rhs)))], then [k]. *)
Definition TRY_CONST_INT (lhs rhs : Operation) (f : APInt -> APInt -> APInt)
    (k : result Operation) : result Operation :=
  match const_ints lhs rhs with
  | Some (a, b) => ConstantInt_Create fold (f a b)
  | None => k
  end.
Definition TRY_CONST_FLOAT (lhs rhs : Operation) (f : APFloat -> APFloat -> result Operation)
    (k : result Operation) : result Operation :=
  match const_floats lhs rhs with
  | Some (a, b) => f a b
  | None => k
  end.
(** The folds of the division family, through [Value]. *)
Definition FOLD_VALUE (lhs rhs : Operation) (f : Value -> Value -> result Value)
    (k : result Operation) : result Operation :=
  match const_ints lhs rhs with
  | Some (a, b) => v ← f (VInt a) (VInt b); ConstantInt_Create_value fold v
  | None => k
  end.

Definition visitAdd (op lhs rhs : Operation) : result Operation :=
  if is_Undef lhs || is_Undef rhs then Undef_Create fold (op_type op)
  else if is_constant_int lhs 0 then Ok rhs
  else if is_constant_int rhs 0 then Ok lhs
  else TRY_CONST_INT lhs rhs ap_add (visitOperation op).

Definition visitSub (op lhs rhs : Operation) : result Operation :=
  if is_Undef lhs || is_Undef rhs then Undef_Create fold (op_type op)
  else if is_constant_int rhs 0 then Ok lhs
  else if ptr_eq rhs lhs
       then w ← bitwidth (op_type op); ConstantInt_Create fold (APInt_of w 0)
  else TRY_CONST_INT lhs rhs ap_sub (visitOperation op).

Definition visitMul (op lhs rhs : Operation) : result Operation :=
  if is_constant_int lhs 0 then Ok lhs
  else if is_constant_int rhs 0 then Ok rhs
  else TRY_CONST_INT lhs rhs ap_mul (visitOperation op).

Definition visitUDiv (op lhs rhs : Operation) : result Operation :=
  if is_constant_int lhs 0 || is_constant_int rhs 1 then Ok lhs
  else FOLD_VALUE lhs rhs bvudiv (visitOperation op).

Definition visitSDiv (op lhs rhs : Operation) : result Operation :=
  if is_constant_int lhs 0 then Ok lhs
  else w ← bitwidth (op_type op);
       if is_constant_int rhs 1 && (1 <? w) then Ok lhs
       else FOLD_VALUE lhs rhs bvsdiv (visitOperation op).

Definition visitURem (op lhs rhs : Operation) : result Operation :=
  if is_constant_int lhs 0 then Ok lhs
  else if is_constant_int rhs 1
       then w ← bitwidth (op_type op); ConstantInt_Create fold (APInt_of w 0)
  else FOLD_VALUE lhs rhs bvurem (visitOperation op).

Definition visitSRem (op lhs rhs : Operation) : result Operation :=
  if is_constant_int lhs 0 then Ok lhs
  else w ← bitwidth (op_type op);
       if is_constant_int rhs 1 && (1 <? w) then ConstantInt_Create fold (APInt_of w 0)
       else FOLD_VALUE lhs rhs bvsrem (visitOperation op).

(** (and (lshr x s) m) -> (lshr (and x (shl m s)) s), for constants m and s;
    the captures are mask (0), value (1) and shift (2). *)
Definition lshr_mask (lhs rhs : Operation) : option (Operation * Operation * Operation) :=
  let p := BinaryOpPat OpLShr (RefOp 1) (ConstantIntPat (Some 2%nat)) in
  let '(m1, c) := matches lhs (ConstantIntPat (Some 0%nat)) no_captures in
  let '(m2, c) := if m1 then matches rhs p c else (false, c) in
  let '(m3, c) := if m2 then (true, c)
                  else let '(m, c) := matches rhs (ConstantIntPat (Some 0%nat)) c in
                       if m then matches lhs p c else (false, c) in
  if m3 then
    match c 0%nat, c 1%nat, c 2%nat with
    | Some mask, Some value, Some shift => Some (mask, value, shift)
    | _, _, _ => None
    end
  else None.

(** (and (and x m2) m1) with both masks constant; the captures are mask1 (0),
    mask2 (1) and value (2). *)
Definition and_mask (lhs rhs : Operation) : option (Operation * Operation * Operation) :=
  let inner x c :=
    let '(m, c) := matches x (BinaryOpPat OpAnd (ConstantIntPat (Some 1%nat)) (RefOp 2)) c in
    if m then (true, c)
    else matches x (BinaryOpPat OpAnd (RefOp 2) (ConstantIntPat (Some 1%nat))) c in
  let '(m1, c) := matches lhs (ConstantIntPat (Some 0%nat)) no_captures in
  let '(m, c) :=
    if m1 then inner rhs c
    else let '(m2, c) := matches rhs (ConstantIntPat (Some 0%nat)) c in
         if m2 then inner lhs c else (false, c) in
  if m then
    match c 0%nat, c 1%nat, c 2%nat with
    | Some mask1, Some mask2, Some value => Some (mask1, mask2, value)
    | _, _, _ => None
    end
  else None.

Definition visitAnd (op lhs rhs : Operation) : result Operation :=
  if is_constant_int lhs 0 then Ok lhs
  else if is_constant_int rhs 0 then Ok rhs
  else if is_constant_ones lhs then Ok rhs
  else if is_constant_ones rhs then Ok lhs
  else TRY_CONST_INT lhs rhs ap_and
    match lshr_mask lhs rhs with
    | Some (mask, value, shift) =>
        m ← CreateShl fold mask shift; a ← CreateAnd fold value m; CreateLShr fold a shift
    | None =>
        match and_mask lhs rhs with
        | Some (mask1, mask2, value) =>
            m ← CreateAnd fold mask1 mask2; CreateAnd fold value m
        | None => visitOperation op
        end
    end.

(** (or (and x m1) (and x m2)); the captures are value1 (0), mask1 (1),
    value2 (2) and mask2 (3). *)
Definition or_masks (lhs rhs : Operation) : option (Operation * Operation * Operation) :=
  let '(m1, c) :=
    matches lhs (BinaryOpPat OpAnd (RefOp 0) (ConstantIntPat (Some 1%nat))) no_captures in
  let '(m2, c) :=
    if m1 then matches rhs (BinaryOpPat OpAnd (RefOp 2) (ConstantIntPat (Some 3%nat))) c
    else (false, c) in
  if m2 then
    match c 0%nat, c 1%nat, c 2%nat, c 3%nat with
    | Some value1, Some mask1, Some value2, Some mask2 =>
        if ptr_eq value1 value2 then Some (value1, mask1, mask2) else None
    | _, _, _, _ => None
    end
  else None.

Definition visitOr (op lhs rhs : Operation) : result Operation :=
  if is_constant_int lhs 0 then Ok rhs
  else if is_constant_int rhs 0 then Ok lhs
  else if is_constant_ones lhs then Ok lhs
  else if is_constant_ones rhs then Ok rhs
  else TRY_CONST_INT lhs rhs ap_or
    match or_masks lhs rhs with
    | Some (value1, mask1, mask2) =>
        m ← CreateOr fold mask1 mask2; CreateAnd fold value1 m
    | None => visitOperation op
    end.

Definition visitXor (op lhs rhs : Operation) : result Operation :=
  if is_Undef lhs || is_Undef rhs then Undef_Create fold (op_type op)
  else if is_constant_int lhs 0 then Ok rhs
  else if is_constant_int rhs 0 then Ok lhs
  else TRY_CONST_INT lhs rhs ap_xor (visitOperation op).

(** (shl (lshr x s) s); the captures are value (0), rshift (1), lshift (2). *)
Definition shl_lshr (lhs rhs : Operation) : option (Operation * Operation * Operation) :=
  let '(m1, c) :=
    matches lhs (BinaryOpPat OpLShr (RefOp 0) (ConstantIntPat (Some 1%nat))) no_captures in
  let '(m2, c) :=
    if m1 then matches rhs (ConstantIntPat (Some 2%nat)) c else (false, c) in
  if m2 then
    match c 0%nat, c 1%nat, c 2%nat with
    | Some value, Some rshift, Some lshift => Some (value, rshift, lshift)
    | _, _, _ => None
    end
  else None.

Definition visitShl (op lhs rhs : Operation) : result Operation :=
  if is_constant_int lhs 0 || is_constant_int rhs 0 then Ok lhs
  else TRY_CONST_INT lhs rhs ap_shl
    match shl_lshr lhs rhs with
    | Some (value, rshift, lshift) =>
        lv ← of_option AssertFailed (as_ConstantInt lshift);
        rv ← of_option AssertFailed (as_ConstantInt rshift);
        w ← bitwidth (op_type op);
        let shift := getLimitedValue lv w in
        if ap_eq lv rv && negb (shift =? w)
        then mask ← ConstantInt_Create fold (getBitsSetFrom w shift);
             CreateAnd fold value mask
        else visitOperation op
    | None => visitOperation op
    end.

Definition visitLShr (op lhs rhs : Operation) : result Operation :=
  if is_constant_int lhs 0 || is_constant_int rhs 0 then Ok lhs
  else TRY_CONST_INT lhs rhs ap_lshr (visitOperation op).
Definition visitAShr (op lhs rhs : Operation) : result Operation :=
  if is_constant_int lhs 0 || is_constant_int rhs 0 then Ok lhs
  else TRY_CONST_INT lhs rhs ap_ashr (visitOperation op).

Definition visitFloat (f : APFloat -> APFloat -> APFloat) (op lhs rhs : Operation) :
    result Operation :=
  TRY_CONST_FLOAT lhs rhs (fun a b => ConstantFloat_Create fold (f a b)) (visitOperation op).
Definition visitFAdd := visitFloat fl_add.
Definition visitFSub := visitFloat fl_sub.
Definition visitFMul := visitFloat fl_mul.
Definition visitFDiv := visitFloat fl_div.
(** [APFloat::remainder] returns the status of the operation, which the source
    passes to [ConstantFloat::Create(double)]. *)
Definition visitFRem (op lhs rhs : Operation) : result Operation :=
  TRY_CONST_FLOAT lhs rhs
    (fun a b => ConstantFloat_Create_double fold (fl_remainder a b).2) (visitOperation op).

Definition visitFIsNaN (op x : Operation) : result Operation :=
  match as_ConstantFloat x with
  | Some f => ConstantInt_Create_bool fold (isNaN f)
  | None => visitOperation op
  end.
Definition visitNot (op x : Operation) : result Operation :=
  match as_ConstantInt x with
  | Some a => ConstantInt_Create fold (ap_not a)
  | None =>
      let '(m, c) := matches x (UnaryOpPat OpNot (RefOp 0)) no_captures in
      match m, c 0%nat with
      | true, Some value => Ok value
      | _, _ => visitOperation op
      end
  end.
Definition visitTrunc (op x : Operation) : result Operation :=
  match as_ConstantInt x with
  | Some a => w ← bitwidth (op_type op); ConstantInt_Create fold (ap_trunc a w)
  | None => if ty_eqb (op_type op) (op_type x) then Ok x else visitOperation op
  end.
Definition visitZExt (op x : Operation) : result Operation :=
  match as_ConstantInt x with
  | Some a => w ← bitwidth (op_type op); ConstantInt_Create fold (ap_zext a w)
  | None =>
      if ty_eqb (op_type op) (op_type x) then Ok x else
      let '(m, c) := matches x (UnaryOpPat OpTrunc (RefOp 0)) no_captures in
      match m, c 0%nat with
      | true, Some inner =>
          bw1 ← bitwidth (op_type op); bw2 ← bitwidth (op_type inner);
          tbw ← bitwidth (op_type x);
          if bw1 =? bw2
          then mask ← ConstantInt_Create fold (getLowBitsSet bw1 tbw);
               CreateAnd fold inner mask
          else visitOperation op
      | _, _ => visitOperation op
      end
  end.
Definition visitSExt (op x : Operation) : result Operation :=
  match as_ConstantInt x with
  | Some a => w ← bitwidth (op_type op); ConstantInt_Create fold (ap_sext a w)
  | None => if ty_eqb (op_type op) (op_type x) then Ok x else visitOperation op
  end.
Definition visitBitcast (op x : Operation) : result Operation :=
  let '(m, c) := matches x (UnaryOpPat OpBitcast (RefOp 0)) no_captures in
  match m, c 0%nat with
  | true, Some value =>
      if ty_eqb (op_type value) (op_type op) then Ok value else visitOperation op
  | _, _ => visitOperation op
  end.

Definition visitSelectOp (op cond tv fv : Operation) : result Operation :=
  match as_ConstantInt cond with
  | Some c => Ok (if ap_eq_u64 c 1 then tv else fv)
  | None => if ptr_eq tv fv then Ok tv else visitOperation op
  end.

Definition visitICmp (cmp : ICmpOpcode) (op lhs rhs : Operation) : result Operation :=
  match const_ints lhs rhs with
  | Some (a, b) => ConstantInt_Create_bool fold (constant_int_compare cmp a b)
  | None =>
      if ptr_eq lhs rhs then
        if is_Undef lhs then t ← int_ty 1; Undef_Create fold t
        else ConstantInt_Create_bool fold
               (match cmp with EQ | ULE | SLE | UGE | SGE => true | _ => false end)
      else visitOperation op
  end.
Definition visitFCmp (cmp : FCmpOpcode) (op lhs rhs : Operation) : result Operation :=
  TRY_CONST_FLOAT lhs rhs
    (fun a b => ConstantInt_Create_bool fold (constant_float_compare cmp a b))
    (if ptr_eq lhs rhs
     then ConstantInt_Create_bool fold (match cmp with FEQ | FLE | FGE => true | _ => false end)
     else visitOperation op).

Definition visitAllocOp (op size default_value : Operation) : result Operation :=
  match as_ConstantInt size with
  | Some cnst =>
      if getLimitedValue cnst SIZE_MAX <? SIZE_MAX
      then FixedArray_Create_fill fold (op_type size) default_value (getLimitedValue cnst SIZE_MAX)
      else visitOperation op
  | None => visitOperation op
  end.

(** The chain of selects of [visitLoadOp]: [output] so far, next index [i]. *)
Fixpoint load_selects (offset : Operation) (data : list Operation) (i : Z) (output : Operation) :
    result Operation :=
  match data with
  | [] => Ok output
  | value :: data =>
      c ← CreateICmp_ri fold EQ offset i;
      output ← SelectOp_Create fold c value output;
      load_selects offset data (i + 1) output
  end.

(** When the array is large and its offset symbolic the source interns the
    array and rebuilds the load around the interned (equal) node. *)
Definition visitLoadOp (op data offset : Operation) : result Operation :=
  if bool_decide (op_opcode data = OpFixedArray) then
    match as_ConstantInt offset with
    | Some i =>
        of_option UndefinedBehaviour
          (op_operands data !! Z.to_nat (getLimitedValue i SIZE_MAX))
    | None =>
        if num_operands data <? 1024
        then i8 ← int_ty 8; u ← Undef_Create fold i8;
             load_selects offset (op_operands data) 0 u
        else visitOperation op
    end
  else visitOperation op.

Definition visitStoreOp (op data offset value : Operation) : result Operation :=
  match as_ConstantInt offset, bool_decide (op_opcode data = OpFixedArray) with
  | Some i, true =>
      let idx := Z.to_nat (getLimitedValue i SIZE_MAX) in
      (if (idx <? length (op_operands data))%nat then Ok tt else Err UndefinedBehaviour) ;;
      FixedArray_Create fold (op_type offset) (<[idx := value]> (op_operands data))
  | _, _ => visitOperation op
  end.

(** [BinaryOp::lhs], [UnaryOp::operand] and the other accessors. *)
Definition with_operand (op : Operation) (k : Operation -> result Operation) : result Operation :=
  x ← operand_at op 0; k x.
Definition with_operands2 (op : Operation) (k : Operation -> Operation -> result Operation) :
    result Operation :=
  x ← operand_at op 0; y ← operand_at op 1; k x y.
Definition with_operands3 (op : Operation)
    (k : Operation -> Operation -> Operation -> result Operation) : result Operation :=
  x ← operand_at op 0; y ← operand_at op 1; z ← operand_at op 2; k x y z.

(** The switch of [OpVisitorBase::visit]; opcodes without a method of their
    own reach [visitOperation] through the class hierarchy. *)
Definition visit_dispatch (op : Operation) : result Operation :=
  match op_opcode op with
  | OpAdd => with_operands2 op (visitAdd op)
  | OpSub => with_operands2 op (visitSub op)
  | OpMul => with_operands2 op (visitMul op)
  | OpUDiv => with_operands2 op (visitUDiv op)
  | OpSDiv => with_operands2 op (visitSDiv op)
  | OpURem => with_operands2 op (visitURem op)
  | OpSRem => with_operands2 op (visitSRem op)
  | OpAnd => with_operands2 op (visitAnd op)
  | OpOr => with_operands2 op (visitOr op)
  | OpXor => with_operands2 op (visitXor op)
  | OpShl => with_operands2 op (visitShl op)
  | OpLShr => with_operands2 op (visitLShr op)
  | OpAShr => with_operands2 op (visitAShr op)
  | OpFAdd => with_operands2 op (visitFAdd op)
  | OpFSub => with_operands2 op (visitFSub op)
  | OpFMul => with_operands2 op (visitFMul op)
  | OpFDiv => with_operands2 op (visitFDiv op)
  | OpFRem => with_operands2 op (visitFRem op)
  | OpFIsNaN => with_operand op (visitFIsNaN op)
  | OpNot => with_operand op (visitNot op)
  | OpTrunc => with_operand op (visitTrunc op)
  | OpZExt => with_operand op (visitZExt op)
  | OpSExt => with_operand op (visitSExt op)
  | OpBitcast => with_operand op (visitBitcast op)
  | OpSelect => with_operands3 op (visitSelectOp op)
  | OpICmp c => with_operands2 op (visitICmp c op)
  | OpFCmp c => with_operands2 op (visitFCmp c op)
  | OpAlloc => with_operands2 op (visitAllocOp op)
  | OpLoad => with_operands2 op (visitLoadOp op)
  | OpStore => with_operands3 op (visitStoreOp op)
  | _ => visitOperation op
  end.

Definition visit (op : Operation) : result Operation :=
  if IMPLICIT_CONSTANT_FOLDING then visit_dispatch op else visitOperation op.
End visit.

Fixpoint constant_fold (fuel : nat) (op : Operation) : result Operation :=
  match fuel with
  | O => Err OutOfFuel
  | S n => visit (constant_fold n) op
  end.

(** The simplifier as the constructors call it. *)
Definition simplify (op : Operation) : result Operation := constant_fold (op_size op + 3) op.
End simplifier.
