(* ===== verification/SimplifierInt.v ===== *)
(** Correctness of constant folding, first part: the visit methods of the
    binary integer operations.  Each returns, for a well-formed node, a
    well-formed node of the same type whose value is the value of the node it
    replaces. *)
From S2P Require Import Prelude LLVM IRType Value Opcode Operation Matching Create Semantics Simplifier.
Open Scope Z_scope.

Section sound.
Context `{PtrEq} `{MathExtrasAPI} `{Config}.

(** How many nested calls of the simplifier a node needs at most. *)
Definition weight (op : Operation) : nat :=
  match op_opcode op with
  | OpAnd => op_size op + 2
  | OpOr | OpShl | OpZExt => op_size op + 3
  | OpConstantInt | OpConstantFloat | OpUndef | OpFixedArray | OpSelect => 1
  | OpLoad => 3
  | _ => 2
  end.

(** What the callers of the constructors have to guarantee: a constant index
    into a fixed array is in range and a constant allocation is not empty.
    Two folds are wrong and excluded (Folding.v shows both): the remainder of two
    floating-point constants, and the floating-point comparison of one and the
    same operation that is not a constant with itself, which may be NaN. *)
Definition safe (op : Operation) : Prop :=
  match op_opcode op, op_operands op with
  | OpAlloc, [n; _] => forall a, as_ConstantInt n = Some a -> getZExtValue a <> 0
  | OpLoad, (x :: i :: _) | OpStore, (x :: i :: _) =>
      forall a, as_ConstantInt i = Some a -> op_opcode x = OpFixedArray ->
      getZExtValue a < Z.of_nat (length (op_operands x)) <= SIZE_MAX
  | OpFRem, [x; y] => const_floats x y = None
  | OpFCmp _, [x; y] => const_floats x y = None -> ptr_eq x y = false
  | _, _ => True
  end.

(** [fold] is correct on the nodes that need at most [n] calls. *)
Definition fold_spec (n : nat) (fold : Operation -> result Operation) : Prop :=
  forall op, wf op -> safe op -> (weight op <= n)%nat ->
  exists r, fold op = Ok r /\ refines op r.

(** The nodes the constructors build. *)
Definition cint (a : APInt) : Operation :=
  mkOp (mkData OpConstantInt (ity (getBitWidth a)) (PInt a)) [].
Definition bin (o : Opcode) (w : Z) (x y : Operation) : Operation :=
  mkOp (mkData o (ity w) NoPayload) [x; y].

(** ** Facts about constants and integer nodes *)
Lemma as_ConstantInt_inv x a :
  wf x -> as_ConstantInt x = Some a ->
  good_width (getBitWidth a) /\ op_type x = ity (getBitWidth a) /\ op_opcode x = OpConstantInt /\
  op_operands x = [] /\ forall e, denote e x = Some (DInt a).
Proof.
  intros Hwf Ha. inversion Hwf as [d l Hl Hn]; subst. unfold as_ConstantInt, op_opcode in Ha.
  cbn in Ha. unfold node_ok in Hn. destruct (od_opcode d) eqn:Ho; try done.
  destruct l; [|done]. destruct Hn as (b & Hp & Hw & Ht). rewrite Hp in Ha. injection Ha as ->.
  unfold op_opcode, op_type. cbn. unfold denote_node. rewrite Ho, Hp. done.
Qed.

Lemma is_constant_int_inv x k :
  is_constant_int x k = true -> exists a, as_ConstantInt x = Some a /\ getZExtValue a = k.
Proof.
  unfold is_constant_int. destruct (as_ConstantInt x) as [a|]; [|done].
  rewrite ap_eq_u64_spec, Z.eqb_eq. eauto.
Qed.

Lemma is_constant_ones_inv x :
  is_constant_ones x = true ->
  exists a, as_ConstantInt x = Some a /\ getZExtValue a = 2 ^ getBitWidth a - 1.
Proof.
  unfold is_constant_ones. destruct (as_ConstantInt x) as [a|]; [|done].
  rewrite isAllOnesValue_spec, Z.eqb_eq. eauto.
Qed.

Lemma wf_int_op o w x y d :
  int_binop o = true -> od_opcode d = o -> od_type d = ity w ->
  good_width w -> wf x -> wf y -> op_type x = ity w -> op_type y = ity w -> wf (mkOp d [x; y]).
Proof.
  intros Ho Hd Ht Hw Hx Hy Tx Ty. constructor; [by repeat constructor|].
  unfold node_ok. rewrite Hd. destruct o; try done; exists w; done.
Qed.

Lemma wf_int_inv d x y :
  int_binop (od_opcode d) = true -> wf (mkOp d [x; y]) ->
  wf x /\ wf y /\ exists w, good_width w /\ od_type d = ity w /\ op_type x = ity w /\ op_type y = ity w.
Proof.
  intros Ho Hwf. inversion Hwf as [? ? Hl Hn]; subst.
  rewrite !Forall_cons in Hl. destruct Hl as (? & ? & _). split_and!; try done.
  unfold node_ok in Hn. destruct (od_opcode d); try done.
Qed.

Lemma denote_bin_inv e d x y v :
  int_binop (od_opcode d) = true -> denote e (mkOp d [x; y]) = Some v ->
  exists a b z, denote e x = Some (DInt a) /\ denote e y = Some (DInt b) /\
    getBitWidth a = getBitWidth b /\
    sem_int (od_opcode d) (getBitWidth a) (getZExtValue a) (getZExtValue b) = Some z /\
    v = DInt (APInt_of (getBitWidth a) z).
Proof.
  intros Ho. cbn. unfold denote_node.
  destruct (denote e x) as [[a|f|]|] eqn:Ex, (denote e y) as [[b|g|]|] eqn:Ey;
    destruct (od_opcode d); try done; cbn; destruct (Z.eqb_spec (getBitWidth a) (getBitWidth b));
    try done; intros E; try (injection E as <-; by eauto 10);
    apply fmap_Some in E as (z & E & ->); eauto 10.
Qed.

Lemma denote_bin e d x y a b z :
  int_binop (od_opcode d) = true ->
  denote e x = Some (DInt a) -> denote e y = Some (DInt b) -> getBitWidth a = getBitWidth b ->
  sem_int (od_opcode d) (getBitWidth a) (getZExtValue a) (getZExtValue b) = Some z ->
  denote e (mkOp d [x; y]) = Some (DInt (APInt_of (getBitWidth a) z)).
Proof.
  intros Ho Ex Ey Ew Ez. cbn [denote fmap list_fmap]. unfold denote_node. rewrite Ex, Ey.
  destruct (od_opcode d) eqn:Eo; try done; unfold sem_binary;
    rewrite (proj2 (Z.eqb_eq _ _) Ew), Ez; done.
Qed.

(** ** The constructors under a correct [fold] *)
Section constructors.
Context (n : nat) (fold : Operation -> result Operation) (IH : fold_spec n fold).

Lemma cint_wf a : good_width (getBitWidth a) -> wf (cint a).
Proof. intros Hw. repeat constructor; cbn; eauto. Qed.

Lemma cint_const r a : refines (cint a) r -> forall e, denote e r = Some (DInt a).
Proof. intros (_ & _ & Hd) e. by apply Hd. Qed.

Lemma ConstantInt_Create_ok a :
  (1 <= n)%nat -> good_width (getBitWidth a) ->
  exists r, ConstantInt_Create fold a = Ok r /\ refines (cint a) r.
Proof using IH.
  intros Hn Hw. unfold ConstantInt_Create, ConstantIntData, type_of_apint.
  rewrite int_ty_good by done. cbn. apply IH; [by apply cint_wf|done|done].
Qed.

Lemma ConstantInt_Create_bool_ok b :
  (1 <= n)%nat ->
  exists r, ConstantInt_Create_bool fold b = Ok r /\ wf r /\ op_type r = ity 1 /\
    forall e, denote e r = Some (den_bool b).
Proof using IH.
  intros Hn. destruct (ConstantInt_Create_ok (APInt_of 1 (Z.b2z b))) as (r & E & Hr); [done|..].
  - by rewrite APInt_of_width by lia.
  - exists r. pose proof (cint_const _ _ Hr). destruct Hr as (? & Ht & _).
    split_and!; try done. rewrite Ht. cbn. by rewrite APInt_of_width by lia.
Qed.

Lemma Undef_Create_ok t :
  (1 <= n)%nat -> exists r, Undef_Create fold t = Ok r /\ wf r /\ op_type r = t.
Proof using IH.
  intros Hn. destruct (IH (mkOp (mkData OpUndef t NoPayload) [])) as (r & E & (? & ? & _));
    [by repeat constructor|done|done|eauto].
Qed.

Lemma IntOp_Create_ok o w x y :
  int_binop o = true -> good_width w -> wf x -> wf y -> op_type x = ity w -> op_type y = ity w ->
  (weight (bin o w x y) <= n)%nat ->
  exists r, IntOp_Create fold o x y = Ok r /\ refines (bin o w x y) r.
Proof using IH.
  intros Ho Hw Hx Hy Tx Ty Hn. unfold IntOp_Create, BinaryOp_Create, build, Operation_ctor.
  rewrite Tx, Ty, ty_eqb_refl.
  assert (assert_ (Z.land (opcode_val o) 3 =? 2) = Ok tt) as -> by by destruct o.
  assert (opcode_nargs (opcode_val o) = 2) as E by by destruct o.
  cbn [is_int od_opcode]. rewrite E. cbn. apply IH; [|by destruct o|done].
  by eapply wf_int_op.
Qed.

(** A call of a binary constructor whose operands have values. *)
Lemma IntOp_Create_value o w x y :
  int_binop o = true -> good_width w -> wf x -> wf y -> op_type x = ity w -> op_type y = ity w ->
  (weight (bin o w x y) <= n)%nat ->
  exists r, IntOp_Create fold o x y = Ok r /\ wf r /\ op_type r = ity w /\
    forall e a b z, denote e x = Some (DInt a) -> denote e y = Some (DInt b) ->
      sem_int o w (getZExtValue a) (getZExtValue b) = Some z ->
      denote e r = Some (DInt (APInt_of w z)).
Proof using IH.
  intros Ho Hw Hx Hy Tx Ty Hn. destruct (IntOp_Create_ok o w x y) as (r & E & Hr & Ht & Hd); try done.
  exists r. split_and!; try done. intros e a b z Ea Eb Ez. apply Hd.
  destruct (denote_int e x _ w Hx Tx Ea) as (? & [= <-] & Hwa).
  destruct (denote_int e y _ w Hy Ty Eb) as (? & [= <-] & Hwb).
  rewrite <- Hwa. eapply denote_bin; eauto; cbn; congruence.
Qed.
End constructors.

(** ** Integer operations

    [r] refines a binary integer node if it has its value for all operand
    values. *)
Lemma refine_bin d x y w r :
  int_binop (od_opcode d) = true -> wf (mkOp d [x; y]) -> od_type d = ity w ->
  wf r -> op_type r = ity w ->
  (forall e a b z, denote e x = Some (DInt a) -> denote e y = Some (DInt b) ->
     getBitWidth a = w -> getBitWidth b = w ->
     sem_int (od_opcode d) w (getZExtValue a) (getZExtValue b) = Some z ->
     denote e r = Some (DInt (APInt_of w z))) ->
  refines (mkOp d [x; y]) r.
Proof.
  intros Ho Hwf Hd Hr Ht Hv. split_and!; [done|by rewrite Ht|].
  intros e v E. apply denote_bin_inv in E as (a & b & z & Ea & Eb & Ew & Ez & ->); [|done].
  apply wf_int_inv in Hwf as (Hx & Hy & w' & ? & Hd' & Tx & Ty); [|done].
  rewrite Hd in Hd'. injection Hd' as <-.
  destruct (denote_int e x _ w Hx Tx Ea) as (? & [= <-] & Ha). rewrite Ha in *. eauto.
Qed.

(** Operand values that make the node equal to one of its operands. *)
Lemma refine_bin_l d x y w :
  int_binop (od_opcode d) = true -> wf (mkOp d [x; y]) -> od_type d = ity w ->
  (forall e a b z, denote e x = Some (DInt a) -> denote e y = Some (DInt b) ->
     getBitWidth a = w -> getBitWidth b = w ->
     sem_int (od_opcode d) w (getZExtValue a) (getZExtValue b) = Some z ->
     wrap w z = getZExtValue a) ->
  refines (mkOp d [x; y]) x.
Proof.
  intros Ho Hwf Hd Hv. pose proof Hwf as Hwf'.
  apply wf_int_inv in Hwf' as (Hx & Hy & w' & ? & Hd' & Tx & Ty); [|done].
  rewrite Hd in Hd'. injection Hd' as <-. eapply refine_bin; eauto.
  intros e a b z Ea Eb Ha Hb Ez. rewrite Ea. do 2 f_equal. symmetry. apply APInt_of_is; eauto.
Qed.

Lemma refine_bin_r d x y w :
  int_binop (od_opcode d) = true -> wf (mkOp d [x; y]) -> od_type d = ity w ->
  (forall e a b z, denote e x = Some (DInt a) -> denote e y = Some (DInt b) ->
     getBitWidth a = w -> getBitWidth b = w ->
     sem_int (od_opcode d) w (getZExtValue a) (getZExtValue b) = Some z ->
     wrap w z = getZExtValue b) ->
  refines (mkOp d [x; y]) y.
Proof.
  intros Ho Hwf Hd Hv. pose proof Hwf as Hwf'.
  apply wf_int_inv in Hwf' as (Hx & Hy & w' & ? & Hd' & Tx & Ty); [|done].
  rewrite Hd in Hd'. injection Hd' as <-. eapply refine_bin; eauto.
  intros e a b z Ea Eb Ha Hb Ez. rewrite Eb. do 2 f_equal. symmetry. apply APInt_of_is; eauto.
Qed.

(** The division operations of [Value] agree with the meaning of the node
    wherever it is defined. *)
Definition value_fold (o : Opcode) (f : Value -> Value -> result Value) : Prop :=
  forall w a b, good_width w -> getBitWidth a = w -> getBitWidth b = w ->
  exists c, f (VInt a) (VInt b) = Ok (VInt c) /\ getBitWidth c = w /\
    forall z, sem_int o w (getZExtValue a) (getZExtValue b) = Some z -> APInt_of w z = c.

Lemma value_width a w :
  good_width w -> getBitWidth a = w -> (t ← value_type (VInt a); bitwidth t) = Ok w.
Proof. intros Hw <-. cbn. unfold type_of_apint. by rewrite int_ty_good. Qed.

Lemma bvudiv_fold : value_fold OpUDiv bvudiv.
Proof.
  intros w a b Hw Ha Hb. unfold bvudiv. cbn. rewrite isNullValue_spec.
  pose proof (value_width a w Hw Ha) as Hvw. cbn in Hvw. assert (0 < w) by (destruct Hw; lia). assert (0 <= w) by lia.
  destruct (Z.eqb_spec (getZExtValue b) 0) as [|Hz].
  - destruct (type_of_apint a) as [t|]; [|done]. cbn in *. rewrite Hvw. cbn. eexists. split; [done|].
    rewrite getMaxValue_spec by lia. by rewrite APInt_of_width.
  - eexists. split; [done|]. rewrite ap_udiv_spec by congruence. rewrite Ha.
    rewrite APInt_of_width by done. split; [done|]. by intros z [= <-].
Qed.

Lemma bvurem_fold : value_fold OpURem bvurem.
Proof.
  intros w a b Hw Ha Hb. unfold bvurem. cbn. rewrite isNullValue_spec.
  assert (0 < w) by (destruct Hw; lia). assert (0 <= w) by lia.
  destruct (Z.eqb_spec (getZExtValue b) 0) as [|Hz]; [by exists a|].
  eexists. split; [done|]. rewrite ap_urem_spec by congruence. rewrite Ha.
  rewrite APInt_of_width by done. split; [done|]. by intros z [= <-].
Qed.

Lemma bvsrem_fold : value_fold OpSRem bvsrem.
Proof.
  intros w a b Hw Ha Hb. unfold bvsrem. cbn. rewrite isNullValue_spec.
  assert (0 < w) by (destruct Hw; lia). assert (0 <= w) by lia.
  destruct (Z.eqb_spec (getZExtValue b) 0) as [|Hz]; [by exists a|].
  eexists. split; [done|]. rewrite ap_srem_spec by congruence. rewrite Ha, Hb.
  rewrite APInt_of_width by done. split; [done|]. by intros z [= <-].
Qed.

Lemma bvsdiv_fold : value_fold OpSDiv bvsdiv.
Proof.
  intros w a b Hw Ha Hb. unfold bvsdiv. cbn. rewrite isNullValue_spec.
  pose proof (value_width a w Hw Ha) as Hvw. cbn in Hvw. assert (0 < w) by (destruct Hw; lia). assert (0 <= w) by lia.
  destruct (type_of_apint a) as [t|]; [|done]. cbn in *.
  destruct (Z.eqb_spec (getZExtValue b) 0) as [|Hz]; cbn.
  { rewrite Hvw. cbn. eexists. split; [done|]. rewrite getSignedMaxValue_spec by lia. by rewrite APInt_of_width. }
  rewrite isMinSignedValue_spec, isAllOnesValue_spec, Ha, Hb. case_match; cbn.
  - rewrite Hvw. cbn. eexists. split; [done|]. rewrite getSignedMaxValue_spec by lia. by rewrite APInt_of_width.
  - eexists. split; [done|]. rewrite ap_sdiv_spec by congruence. rewrite Ha, Hb.
    rewrite APInt_of_width by done. split; [done|]. by intros z [= <-].
Qed.

Section visits.
Context (n : nat) (fold : Operation -> result Operation) (IH : fold_spec n fold) (Hn : (1 <= n)%nat).

(** The outcome of a visit method on a node. *)
Definition visited (op : Operation) (m : result Operation) : Prop :=
  exists r, m = Ok r /\ refines op r.

Lemma visited_refl op : wf op -> visited op (visitOperation op).
Proof. intros. eexists. split; [done|by apply refines_refl]. Qed.

Lemma visited_ok op r : refines op r -> visited op (Ok r).
Proof. unfold visited. eauto. Qed.

Lemma visited_const d x y w a :
  int_binop (od_opcode d) = true -> wf (mkOp d [x; y]) -> od_type d = ity w -> good_width w ->
  getBitWidth a = w ->
  (forall e u v z, denote e x = Some (DInt u) -> denote e y = Some (DInt v) ->
     getBitWidth u = w -> getBitWidth v = w ->
     sem_int (od_opcode d) w (getZExtValue u) (getZExtValue v) = Some z -> APInt_of w z = a) ->
  visited (mkOp d [x; y]) (ConstantInt_Create fold a).
Proof using IH Hn.
  intros Ho Hwf Hd Hw Ha Hv. destruct (ConstantInt_Create_ok n fold IH a) as (r & E & Hr); [done|by rewrite Ha|].
  exists r. split; [done|]. pose proof (cint_const _ _ Hr) as Hc. destruct Hr as (? & Ht & _).
  eapply refine_bin; eauto; [by rewrite Ht; cbn; rewrite Ha|].
  intros. rewrite Hc. do 2 f_equal. symmetry. eauto.
Qed.

(** Folding two constants with an [APInt] member that computes the node. *)
Lemma TRY_CONST_INT_ok d x y w f k :
  int_binop (od_opcode d) = true -> wf (mkOp d [x; y]) -> od_type d = ity w -> good_width w ->
  (forall a b, getBitWidth a = w -> getBitWidth b = w ->
     exists z, f a b = APInt_of w z /\
       sem_int (od_opcode d) w (getZExtValue a) (getZExtValue b) = Some z) ->
  visited (mkOp d [x; y]) k ->
  visited (mkOp d [x; y]) (TRY_CONST_INT fold x y f k).
Proof using IH Hn.
  intros Ho Hwf Hd Hw Hf Hk. unfold TRY_CONST_INT, const_ints.
  destruct (as_ConstantInt x) as [a|] eqn:Ea; [|done].
  destruct (as_ConstantInt y) as [b|] eqn:Eb; [|done].
  pose proof Hwf as Hwf'.
  apply wf_int_inv in Hwf' as (Hx & Hy & w' & ? & Hd' & Tx & Ty); [|done].
  rewrite Hd in Hd'. injection Hd' as <-.
  apply as_ConstantInt_inv in Ea as (? & Ta & _ & _ & Da); [|done].
  apply as_ConstantInt_inv in Eb as (? & Tb & _ & _ & Db); [|done].
  rewrite Tx in Ta. rewrite Ty in Tb. injection Ta as Ta. injection Tb as Tb.
  destruct (Hf a b) as (z & -> & Hz); [done..|].
  eapply visited_const; eauto; [apply APInt_of_width; destruct Hw; lia|].
  intros e u v z' Eu Ev _ _ Ez. rewrite Da in Eu. rewrite Db in Ev.
  injection Eu as <-. injection Ev as <-. congruence.
Qed.

Lemma denote_undef e x : wf x -> is_Undef x = true -> denote e x = None.
Proof.
  intros Hx. inversion Hx as [d l Hl Hok]; subst. unfold is_Undef, op_opcode.
  rewrite bool_decide_eq_true. cbn. intros Ho. unfold node_ok in Hok. rewrite Ho in Hok.
  destruct l; [|done]. unfold denote_node. by rewrite Ho.
Qed.

Lemma visited_undef op :
  (forall e, denote e op = None) -> visited op (Undef_Create fold (op_type op)).
Proof using IH Hn.
  intros Hd. destruct (Undef_Create_ok n fold IH (op_type op)) as (r & E & Hr & Ht); [done|].
  exists r. split; [done|]. split_and!; [done..|]. intros e v Hv. by rewrite Hd in Hv.
Qed.

(** Open a visit lemma on a binary integer node of opcode [o]. *)
Ltac open_visit Hd Hwf :=
  let Hwf' := fresh in
  intros Hd Hwf; pose proof Hwf as Hwf';
  apply wf_int_inv in Hwf' as (Hx & Hy & w & Hw & Ht & Tx & Ty); [|by rewrite Hd];
  assert (0 < w) by (destruct Hw; lia); assert (0 <= w) as Hw0 by lia.

(** Use a boolean test of the source on a constant operand. *)
Ltac const_test :=
  repeat match goal with
  | H : _ || _ = true |- _ => apply orb_true_iff in H as [H|H]
  | H : _ && _ = true |- _ => apply andb_true_iff in H as [H ?]
  | H : is_constant_int _ _ = true |- _ =>
      let a := fresh "a" in let Ea := fresh "Ea" in let Va := fresh "Va" in
      apply is_constant_int_inv in H as (a & Ea & Va);
      apply as_ConstantInt_inv in Ea as (? & ? & ? & ? & Ea); [|done]
  | H : is_constant_ones _ = true |- _ =>
      let a := fresh "a" in let Ea := fresh "Ea" in let Va := fresh "Va" in
      apply is_constant_ones_inv in H as (a & Ea & Va);
      apply as_ConstantInt_inv in Ea as (? & ? & ? & ? & Ea); [|done]
  end.

(** Replace the operand values of constants by the constants. *)
Ltac const_values :=
  repeat match goal with
  | E : forall e, denote e ?x = Some (DInt ?a), E' : denote ?e ?x = Some (DInt ?u) |- _ =>
      rewrite E in E'; injection E' as <-
  end.

Lemma is_Undef_bin d x y :
  int_binop (od_opcode d) = true -> wf x -> wf y -> is_Undef x || is_Undef y = true ->
  forall e, denote e (mkOp d [x; y]) = None.
Proof.
  intros Ho Hx Hy Hu e. destruct (denote e (mkOp d [x; y])) as [v|] eqn:E; [|done].
  apply denote_bin_inv in E as (a & b & z & Ea & Eb & _); [|done].
  apply orb_true_iff in Hu as [Hu|Hu]; apply (denote_undef e) in Hu; congruence.
Qed.

Lemma value_range a w : getBitWidth a = w -> 0 <= getZExtValue a < 2 ^ w.
Proof. intros <-. apply APInt_range. Qed.

Lemma wrap_val a w : getBitWidth a = w -> wrap w (getZExtValue a) = getZExtValue a.
Proof. intros <-. apply wrap_value. Qed.

(** Return the left operand, the right operand, or fold two constants. *)
Ltac ret_l Hd :=
  apply visited_ok; eapply refine_bin_l; [by rewrite Hd|done..|];
  rewrite Hd; intros; const_values; cbn in *; simplify_eq.
Ltac ret_r Hd :=
  apply visited_ok; eapply refine_bin_r; [by rewrite Hd|done..|];
  rewrite Hd; intros; const_values; cbn in *; simplify_eq.
Ltac fold_consts Hd spec :=
  eapply TRY_CONST_INT_ok; [by rewrite Hd|done..| |];
  [rewrite Hd; intros ? ? Ha Hb; eexists; split; [|done]; rewrite spec, ?Ha, ?Hb by congruence; done|].

Lemma visitAdd_ok d x y : od_opcode d = OpAdd -> wf (mkOp d [x; y]) ->
  visited (mkOp d [x; y]) (visitAdd fold (mkOp d [x; y]) x y).
Proof using IH Hn.
  open_visit Hd Hwf. unfold visitAdd.
  case_match; [apply visited_undef; by apply is_Undef_bin; rewrite ?Hd|].
  case_match; const_test; [ret_r Hd; rewrite Va, Z.add_0_l; by apply wrap_val|].
  case_match; const_test; [ret_l Hd; rewrite Va, Z.add_0_r; by apply wrap_val|].
  fold_consts Hd ap_add_spec. by apply visited_refl.
Qed.

Lemma visitSub_ok d x y : od_opcode d = OpSub -> wf (mkOp d [x; y]) ->
  visited (mkOp d [x; y]) (visitSub fold (mkOp d [x; y]) x y).
Proof using IH Hn.
  open_visit Hd Hwf. unfold visitSub.
  case_match; [apply visited_undef; by apply is_Undef_bin; rewrite ?Hd|].
  case_match; const_test; [ret_l Hd; rewrite Va, Z.sub_0_r; by apply wrap_val|].
  destruct (ptr_eq y x) eqn:Hp.
  { apply ptr_eq_sound in Hp as ->. unfold op_type. cbn [op_data]. rewrite Ht. cbn.
    eapply visited_const; [by rewrite Hd|done|done|done|by apply APInt_of_width|].
    rewrite Hd. intros e u v z Eu Ev _ _ [= <-]. rewrite Eu in Ev. injection Ev as <-.
    by rewrite Z.sub_diag. }
  fold_consts Hd ap_sub_spec. by apply visited_refl.
Qed.

Lemma visitMul_ok d x y : od_opcode d = OpMul -> wf (mkOp d [x; y]) ->
  visited (mkOp d [x; y]) (visitMul fold (mkOp d [x; y]) x y).
Proof using IH Hn.
  open_visit Hd Hwf. unfold visitMul.
  case_match; const_test; [ret_l Hd; by rewrite Va, Z.mul_0_l|].
  case_match; const_test; [ret_r Hd; by rewrite Va, Z.mul_0_r|].
  fold_consts Hd ap_mul_spec. by apply visited_refl.
Qed.

Lemma visitXor_ok d x y : od_opcode d = OpXor -> wf (mkOp d [x; y]) ->
  visited (mkOp d [x; y]) (visitXor fold (mkOp d [x; y]) x y).
Proof using IH Hn.
  open_visit Hd Hwf. unfold visitXor.
  case_match; [apply visited_undef; by apply is_Undef_bin; rewrite ?Hd|].
  case_match; const_test; [ret_r Hd; rewrite Va, Z.lxor_0_l; by apply wrap_val|].
  case_match; const_test; [ret_l Hd; rewrite Va, Z.lxor_0_r; by apply wrap_val|].
  fold_consts Hd ap_xor_spec. by apply visited_refl.
Qed.

Lemma sgn_0 w : 0 < w -> sgn w 0 = 0.
Proof. intros. unfold sgn. by rewrite (proj2 (Z.ltb_lt _ _)) by (apply Z.pow_pos_nonneg; lia). Qed.

Lemma visitLShr_ok d x y : od_opcode d = OpLShr -> wf (mkOp d [x; y]) ->
  visited (mkOp d [x; y]) (visitLShr fold (mkOp d [x; y]) x y).
Proof using IH Hn.
  open_visit Hd Hwf. unfold visitLShr.
  case_match; const_test; [ret_l Hd; by rewrite Va, Z.shiftr_0_l| |].
  { ret_l Hd. rewrite Va, Z.shiftr_0_r. by apply wrap_val. }
  fold_consts Hd ap_lshr_spec. by apply visited_refl.
Qed.

Lemma visitAShr_ok d x y : od_opcode d = OpAShr -> wf (mkOp d [x; y]) ->
  visited (mkOp d [x; y]) (visitAShr fold (mkOp d [x; y]) x y).
Proof using IH Hn.
  open_visit Hd Hwf. unfold visitAShr.
  case_match; const_test; [ret_l Hd; rewrite Va, sgn_0, Z.shiftr_0_l by (destruct Hw; lia); done| |].
  { ret_l Hd. rewrite Va, Z.shiftr_0_r. apply wrap_sgn; [done|apply APInt_range]. }
  fold_consts Hd ap_ashr_spec. by apply visited_refl.
Qed.
(** ** Division

    The fold goes through [Value], which gives the undefined cases the results
    of SMT-LIB; any result refines them. *)
Lemma FOLD_VALUE_ok d x y w f k :
  int_binop (od_opcode d) = true -> wf (mkOp d [x; y]) -> od_type d = ity w -> good_width w ->
  (forall a b, getBitWidth a = w -> getBitWidth b = w ->
     exists c, f (VInt a) (VInt b) = Ok (VInt c) /\ getBitWidth c = w /\
       forall z, sem_int (od_opcode d) w (getZExtValue a) (getZExtValue b) = Some z ->
         APInt_of w z = c) ->
  visited (mkOp d [x; y]) k ->
  visited (mkOp d [x; y]) (FOLD_VALUE fold x y f k).
Proof using IH Hn.
  intros Ho Hwf Hd Hw Hf Hk. unfold FOLD_VALUE, const_ints.
  destruct (as_ConstantInt x) as [a|] eqn:Ea; [|done].
  destruct (as_ConstantInt y) as [b|] eqn:Eb; [|done].
  pose proof Hwf as Hwf'.
  apply wf_int_inv in Hwf' as (Hx & Hy & w' & ? & Hd' & Tx & Ty); [|done].
  rewrite Hd in Hd'. injection Hd' as <-.
  apply as_ConstantInt_inv in Ea as (? & Ta & _ & _ & Da); [|done].
  apply as_ConstantInt_inv in Eb as (? & Tb & _ & _ & Db); [|done].
  rewrite Tx in Ta. rewrite Ty in Tb. injection Ta as Ta. injection Tb as Tb.
  destruct (Hf a b) as (c & E & Hc & Hz); [done..|]. rewrite E. cbn.
  eapply visited_const; eauto.
  intros e u v z Eu Ev _ _ Ez. rewrite Da in Eu. rewrite Db in Ev.
  injection Eu as <-. injection Ev as <-. eauto.
Qed.

Lemma fold_value_ok d x y w o f :
  int_binop o = true -> value_fold o f -> od_opcode d = o -> wf (mkOp d [x; y]) ->
  od_type d = ity w -> good_width w ->
  visited (mkOp d [x; y]) (FOLD_VALUE fold x y f (visitOperation (mkOp d [x; y]))).
Proof using IH Hn.
  intros Ho Hf Hd Hwf Ht Hw. eapply FOLD_VALUE_ok; rewrite ?Hd; eauto. by apply visited_refl.
Qed.

Lemma sgn_1 w : 1 < w -> sgn w 1 = 1.
Proof. intros. unfold sgn. rewrite (proj2 (Z.ltb_lt _ _)); [done|]. apply Z.pow_gt_1; lia. Qed.

Lemma visitUDiv_ok d x y : od_opcode d = OpUDiv -> wf (mkOp d [x; y]) ->
  visited (mkOp d [x; y]) (visitUDiv fold (mkOp d [x; y]) x y).
Proof using IH Hn.
  open_visit Hd Hwf. unfold visitUDiv. case_match; const_test.
  - ret_l Hd. case_match; simplify_eq. by rewrite Va.
  - ret_l Hd. rewrite Va in *. simplify_eq/=. rewrite Z.div_1_r. by apply wrap_val.
  - by eapply fold_value_ok; try exact bvudiv_fold.
Qed.

Lemma visitURem_ok d x y : od_opcode d = OpURem -> wf (mkOp d [x; y]) ->
  visited (mkOp d [x; y]) (visitURem fold (mkOp d [x; y]) x y).
Proof using IH Hn.
  open_visit Hd Hwf. unfold visitURem.
  case_match; const_test; [ret_l Hd; case_match; simplify_eq; by rewrite Va|].
  case_match; const_test.
  { unfold op_type. cbn [op_data]. rewrite Ht. cbn.
    eapply visited_const; [by rewrite Hd|done|done|done|by apply APInt_of_width|].
    rewrite Hd. intros. const_values. cbn in *. rewrite Va in *. simplify_eq/=. by rewrite Z.mod_1_r. }
  by eapply fold_value_ok; try exact bvurem_fold.
Qed.

Lemma visitSDiv_ok d x y : od_opcode d = OpSDiv -> wf (mkOp d [x; y]) ->
  visited (mkOp d [x; y]) (visitSDiv fold (mkOp d [x; y]) x y).
Proof using IH Hn.
  open_visit Hd Hwf. unfold visitSDiv.
  case_match; const_test.
  { ret_l Hd. case_match; simplify_eq. rewrite Va, sgn_0 by (destruct Hw; lia).
    by destruct (sgn _ (getZExtValue b)). }
  unfold op_type. cbn [op_data]. rewrite Ht, bitwidth_ity. cbn. case_match; const_test.
  { ret_l Hd. case_match; simplify_eq. rewrite Va, sgn_1, Z.quot_1_r by lia.
    apply wrap_sgn; [done|apply APInt_range]. }
  by eapply fold_value_ok; try exact bvsdiv_fold.
Qed.

Lemma visitSRem_ok d x y : od_opcode d = OpSRem -> wf (mkOp d [x; y]) ->
  visited (mkOp d [x; y]) (visitSRem fold (mkOp d [x; y]) x y).
Proof using IH Hn.
  open_visit Hd Hwf. unfold visitSRem.
  case_match; const_test.
  { ret_l Hd. case_match; simplify_eq. rewrite Va, sgn_0 by (destruct Hw; lia).
    by destruct (sgn _ (getZExtValue b)). }
  unfold op_type. cbn [op_data]. rewrite Ht, bitwidth_ity. cbn. case_match; const_test.
  { eapply visited_const; [by rewrite Hd|done|done|done|by apply APInt_of_width|].
    rewrite Hd. intros. const_values. cbn in *. rewrite Va in *. simplify_eq/=.
    by rewrite sgn_1, Z.rem_1_r by lia. }
  by eapply fold_value_ok; try exact bvsrem_fold.
Qed.
(** ** Masks and shifts

    The rewrites that rebuild the node need to know that folding two constants
    leaves a leaf. *)
Definition folds_to_leaf (fold : Operation -> result Operation) : Prop :=
  (forall a r, ConstantInt_Create fold a = Ok r -> op_size r = 1%nat) /\
  (forall o x y r, o = OpAnd \/ o = OpOr \/ o = OpShl ->
    is_Some (as_ConstantInt x) -> is_Some (as_ConstantInt y) ->
    op_size x = 1%nat -> op_size y = 1%nat ->
    IntOp_Create fold o x y = Ok r -> op_size r = 1%nat).

Lemma const_leaf x : wf x -> op_opcode x = OpConstantInt ->
  op_size x = 1%nat /\ exists a, as_ConstantInt x = Some a.
Proof.
  intros Hx Ho. inversion Hx as [d l Hl Hok]; subst. unfold op_opcode in Ho. cbn in Ho.
  unfold node_ok in Hok. rewrite Ho in Hok. destruct l; [|done].
  destruct Hok as (a & Hp & _). split; [done|]. unfold as_ConstantInt, op_opcode. cbn.
  rewrite Ho, Hp. eauto.
Qed.

(** A node the matcher recognised as a binary operation on a constant, on the
    right or, if [swap], on the left. *)
Definition bin_const (swap : bool) (o : Opcode) (op value const : Operation) : Prop :=
  op_opcode op = o /\ op_opcode const = OpConstantInt /\
  exists rest, op_operands op = if swap then const :: value :: rest else value :: const :: rest.

Lemma match_bin_const o i j op :
  pat_matches (BinaryOpPat o (RefOp i) (ConstantIntPat (Some j))) op = true ->
  exists value const, bin_const false o op value const /\
    forall c, on_match (BinaryOpPat o (RefOp i) (ConstantIntPat (Some j))) op c =
              capture j const (capture i value c).
Proof.
  intros Hm. apply pat_binary_inv in Hm as (a & b & rest & Ho & Hl & _ & Hc & Hm).
  cbn in Hc. unfold is_ConstantInt_op in Hc. apply bool_decide_eq_true in Hc.
  exists a, b. split; [by repeat split; eauto|]. intros c. rewrite Hm. done.
Qed.

Lemma match_const_bin o i j op :
  pat_matches (BinaryOpPat o (ConstantIntPat (Some j)) (RefOp i)) op = true ->
  exists value const, bin_const true o op value const /\
    forall c, on_match (BinaryOpPat o (ConstantIntPat (Some j)) (RefOp i)) op c =
              capture i value (capture j const c).
Proof.
  intros Hm. apply pat_binary_inv in Hm as (a & b & rest & Ho & Hl & Hc & _ & Hm).
  cbn in Hc. unfold is_ConstantInt_op in Hc. apply bool_decide_eq_true in Hc.
  exists b, a. split; [by repeat split; eauto|]. intros c. rewrite Hm. done.
Qed.

Lemma match_const j op :
  pat_matches (ConstantIntPat (Some j)) op = true -> op_opcode op = OpConstantInt.
Proof. apply bool_decide_eq_true. Qed.

Lemma bin_const_inv swap o op value const :
  wf op -> int_binop o = true -> bin_const swap o op value const ->
  exists d w c, op = mkOp d (if swap then [const; value] else [value; const]) /\
    od_opcode d = o /\ op_type op = ity w /\ good_width w /\
    wf value /\ wf const /\ op_type value = ity w /\ op_type const = ity w /\
    as_ConstantInt const = Some c /\ op_size const = 1%nat /\ getBitWidth c = w /\
    (forall e, denote e const = Some (DInt c)) /\ op_size op = S (S (op_size value)).
Proof.
  intros Hwf Ho (Hop & Hc & rest & Hl). destruct op as [d l]. cbn in Hl. unfold op_opcode in Hop. cbn in Hop.
  assert (rest = []) as ->.
  { inversion Hwf as [? ? _ Hok]; subst. unfold node_ok in Hok. by destruct (od_opcode d), swap, rest. }
  rewrite <- Hop in Ho.
  assert (wf value /\ wf const /\ exists w, good_width w /\ od_type d = ity w /\
    op_type value = ity w /\ op_type const = ity w) as (Hv & Hw & w & Hg & Ht & Tv & Tc).
  { destruct swap; subst l; apply wf_int_inv in Hwf; naive_solver. }
  destruct (const_leaf const Hw Hc) as (Hs & c & Ec).
  destruct (as_ConstantInt_inv const c Hw Ec) as (_ & Tc' & _ & _ & Dc).
  rewrite Tc in Tc'. injection Tc' as Tc'.
  exists d, w, c. subst l. split_and!; try done.
  destruct swap; cbn; rewrite Hs; cbn; lia.
Qed.

(** Case analysis on the tests of a matching function. *)
Ltac match_cases :=
  unfold matches;
  repeat match goal with
  | |- context [pat_matches ?p ?x] =>
      let H := fresh "Hm" in destruct (pat_matches p x) eqn:H; cbn iota
  end;
  repeat match goal with
  | H : pat_matches (BinaryOpPat _ (RefOp _) _) _ = true |- _ =>
      let Hb := fresh "Hb" in let Hc := fresh "Hc" in
      apply match_bin_const in H as (? & ? & Hb & Hc); rewrite ?Hc
  | H : pat_matches (BinaryOpPat _ _ (RefOp _)) _ = true |- _ =>
      let Hb := fresh "Hb" in let Hc := fresh "Hc" in
      apply match_const_bin in H as (? & ? & Hb & Hc); rewrite ?Hc
  | H : pat_matches (ConstantIntPat _) _ = true |- _ => apply match_const in H
  end; cbn; intros [= <- <- <-]; eauto 10.

Lemma lshr_mask_inv x y mask value shift :
  lshr_mask x y = Some (mask, value, shift) ->
  op_opcode mask = OpConstantInt /\
  (x = mask /\ bin_const false OpLShr y value shift \/
   y = mask /\ bin_const false OpLShr x value shift).
Proof. unfold lshr_mask. match_cases. Qed.

Lemma and_mask_inv x y mask1 mask2 value :
  and_mask x y = Some (mask1, mask2, value) ->
  op_opcode mask1 = OpConstantInt /\ exists swap,
  (x = mask1 /\ bin_const swap OpAnd y value mask2 \/
   y = mask1 /\ bin_const swap OpAnd x value mask2).
Proof. unfold and_mask. match_cases. Qed.

Lemma shl_lshr_inv x y value rshift lshift :
  shl_lshr x y = Some (value, rshift, lshift) ->
  y = lshift /\ op_opcode lshift = OpConstantInt /\ bin_const false OpLShr x value rshift.
Proof. unfold shl_lshr. match_cases. Qed.

Lemma or_masks_inv x y value mask1 mask2 :
  or_masks x y = Some (value, mask1, mask2) ->
  bin_const false OpAnd x value mask1 /\ bin_const false OpAnd y value mask2.
Proof.
  unfold or_masks. unfold matches.
  destruct (pat_matches (BinaryOpPat OpAnd (RefOp 0) _) x) eqn:Hm1; [|done].
  destruct (pat_matches (BinaryOpPat OpAnd (RefOp 2) _) y) eqn:Hm2; [|done].
  apply match_bin_const in Hm1 as (v1 & c1 & Hb1 & Hc1), Hm2 as (v2 & c2 & Hb2 & Hc2).
  rewrite Hc1, Hc2. cbn. destruct (ptr_eq v1 v2) eqn:Hp; [|done].
  apply ptr_eq_sound in Hp as ->. intros [= <- <- <-]. done.
Qed.
(** The value of a binary node from its operands' values. *)
Lemma denote_parts e d x y w a :
  int_binop (od_opcode d) = true -> wf x -> op_type x = ity w ->
  denote e (mkOp d [x; y]) = Some (DInt a) ->
  exists u v z, denote e x = Some (DInt u) /\ denote e y = Some (DInt v) /\
    getBitWidth u = w /\ getBitWidth v = w /\
    sem_int (od_opcode d) w (getZExtValue u) (getZExtValue v) = Some z /\ a = APInt_of w z.
Proof.
  intros Ho Hx Tx E. apply denote_bin_inv in E as (u & v & z & Eu & Ev & Ew & Ez & [= ->]); [|done].
  destruct (denote_int e x _ w Hx Tx Eu) as (? & [= <-] & Hu). subst w. eauto 10.
Qed.

(** One bit at a time; out-of-range bits of a value are clear. *)
Ltac bit_cases :=
  repeat match goal with
  | |- context [?i <? ?w] => destruct (Z.ltb_spec i w)
  | |- context [?i <=? ?w] => destruct (Z.leb_spec i w)
  end; cbn; rewrite ?andb_false_r, ?andb_true_r, ?orb_false_r; try lia; try done.

Lemma land_lshr_bits w v m s :
  0 <= w -> 0 <= s -> 0 <= v < 2 ^ w -> 0 <= m < 2 ^ w ->
  wrap w (Z.shiftr (wrap w (Z.land v (wrap w (Z.shiftl m s)))) s) =
  wrap w (Z.land (wrap w (Z.shiftr v s)) m).
Proof.
  intros Hw Hs Hv Hm. zbits. replace (i + s - s) with i by lia.
  destruct (Z.ltb_spec i w); [|done]. cbn. destruct (Z.ltb_spec (i + s) w); [done|].
  rewrite (testbit_high w Hw v) by lia. done.
Qed.

Lemma land_masks_bits w v m1 m2 :
  0 <= w -> wrap w (Z.land v (wrap w (Z.land m1 m2))) = wrap w (Z.land (wrap w (Z.land v m2)) m1).
Proof.
  intros Hw. zbits. destruct (Z.ltb_spec i w); [|done]. cbn.
  destruct (Z.testbit v i), (Z.testbit m1 i), (Z.testbit m2 i); done.
Qed.

Lemma lor_masks_bits w v m1 m2 :
  0 <= w -> wrap w (Z.land v (wrap w (Z.lor m1 m2))) =
            wrap w (Z.lor (wrap w (Z.land v m1)) (wrap w (Z.land v m2))).
Proof.
  intros Hw. zbits. destruct (Z.ltb_spec i w); [|done]. cbn.
  destruct (Z.testbit v i), (Z.testbit m1 i), (Z.testbit m2 i); done.
Qed.

Lemma shl_lshr_bits w v s :
  0 <= s < w -> 0 <= v < 2 ^ w ->
  wrap w (Z.land v (wrap w (ones_up w s))) = wrap w (Z.shiftl (wrap w (Z.shiftr v s)) s).
Proof.
  intros Hs Hv. zbits. destruct (Z.ltb_spec i w); [|done]. cbn.
  destruct (Z.leb_spec s i).
  - rewrite testbit_wrap, Z.shiftr_spec by lia. replace (i - s + s) with i by lia.
    by rewrite (proj2 (Z.ltb_lt (i - s) w)), andb_true_r by lia.
  - by rewrite (Z.testbit_neg_r _ (i - s)), andb_false_r by lia.
Qed.

(** A chain of two constructor calls around a folded constant. *)
Lemma mask_value o w x y z v m :
  int_binop o = true -> good_width w -> wf x -> wf y -> wf v ->
  op_type x = ity w -> op_type y = ity w -> op_type v = ity w ->
  (weight (bin o w x y) <= n)%nat -> (op_size v + 4 <= n)%nat ->
  IntOp_Create fold o x y = Ok m -> op_size m = 1%nat ->
  (forall e, exists a b, denote e x = Some (DInt a) /\ denote e y = Some (DInt b) /\
     sem_int o w (getZExtValue a) (getZExtValue b) = Some z) ->
  exists r, CreateAnd fold v m = Ok r /\ wf r /\ op_type r = ity w /\
    forall e u, denote e v = Some (DInt u) ->
      denote e r = Some (DInt (APInt_of w (Z.land (getZExtValue u) (wrap w z)))).
Proof using IH Hn.
  intros Ho Hw Hx Hy Hv Tx Ty Tv Hn1 Hn2 Em Hm Hxy.
  destruct (IntOp_Create_value n fold IH o w x y) as (m' & Em' & Hm' & Tm & Dm); try done.
  rewrite Em in Em'. injection Em' as <-.
  destruct (IntOp_Create_value n fold IH OpAnd w v m) as (r & Er & Hr & Tr & Dr); try done.
  { unfold weight, bin. cbn. lia. }
  exists r. split_and!; try done. intros e u Eu.
  destruct (Hxy e) as (a & b & Ea & Eb & Ez). specialize (Dm e a b z Ea Eb Ez).
  erewrite (Dr e u _ _ Eu Dm) by done. rewrite APInt_of_value by (destruct Hw; lia). done.
Qed.
Context (HL : folds_to_leaf fold).

(** Two constants of one width folded by one of the mask operations. *)
Lemma fold_masks o w x y :
  o = OpAnd \/ o = OpOr \/ o = OpShl -> good_width w -> wf x -> wf y ->
  op_opcode x = OpConstantInt -> op_opcode y = OpConstantInt ->
  op_type x = ity w -> op_type y = ity w -> (6 <= n)%nat ->
  exists m a b, IntOp_Create fold o x y = Ok m /\ op_size m = 1%nat /\
    (weight (bin o w x y) <= n)%nat /\
    (forall e, denote e x = Some (DInt a)) /\ (forall e, denote e y = Some (DInt b)) /\
    getBitWidth a = w /\ getBitWidth b = w.
Proof using IH HL Hn.
  intros Ho Hw Hx Hy Cx Cy Tx Ty Hn6. destruct HL as [_ HLo].
  destruct (const_leaf x Hx Cx) as (Sx & a & Ea), (const_leaf y Hy Cy) as (Sy & b & Eb).
  destruct (as_ConstantInt_inv x a Hx Ea) as (_ & Wa & _ & _ & Da).
  destruct (as_ConstantInt_inv y b Hy Eb) as (_ & Wb & _ & _ & Db).
  rewrite Tx in Wa. rewrite Ty in Wb. injection Wa as Wa. injection Wb as Wb.
  assert (weight (bin o w x y) <= n)%nat as Hwt.
  { unfold weight, bin. cbn. rewrite Sx, Sy. destruct Ho as [->|[->| ->]]; cbn; lia. }
  assert (int_binop o = true) by by destruct Ho as [->|[->| ->]].
  destruct (IntOp_Create_ok n fold IH o w x y) as (m & Em & _); try done.
  exists m, a, b. split_and!; try done. apply (HLo o x y m); eauto using mk_is_Some.
Qed.

(** (and (lshr v s) m) and its mirror image. *)
Lemma lshr_mask_ok d x y mask value shift w t :
  od_opcode d = OpAnd -> wf (mkOp d [x; y]) -> od_type d = ity w -> good_width w ->
  wf t -> op_type t = ity w -> wf mask -> op_type mask = ity w ->
  op_opcode mask = OpConstantInt -> bin_const false OpLShr t value shift ->
  (op_size value + 5 <= n)%nat ->
  (forall e a b, denote e x = Some (DInt a) -> denote e y = Some (DInt b) ->
    exists u m, denote e t = Some (DInt u) /\ denote e mask = Some (DInt m) /\
      Z.land (getZExtValue a) (getZExtValue b) = Z.land (getZExtValue u) (getZExtValue m)) ->
  visited (mkOp d [x; y])
    (m ← CreateShl fold mask shift; a ← CreateAnd fold value m; CreateLShr fold a shift).
Proof using IH Hn HL.
  intros Hd Hwf Ht Hw Ht' Tt Hm Tm Cm Hb Hsz Hv. assert (0 < w) by (destruct Hw; lia). assert (0 <= w) as Hw0 by lia.
  pose proof (op_size_pos value).
  pose proof Hb as (_ & Cs & _).
  apply bin_const_inv in Hb as (dt & w' & c & -> & Ho & Tt' & _ & Hval & Hs & Tval & Ts & _ & Ss & _ & Ds & _);
    [|done..]. rewrite Tt in Tt'. injection Tt' as <-.
  destruct (fold_masks OpShl w mask shift) as (m & am & bs & Em & Sm & Hwt & Dm & Ds' & Wm & _); [by auto|done..|lia|].
  destruct (mask_value OpShl w mask shift (Z.shiftl (getZExtValue am) (getZExtValue bs)) value m)
    as (r & Er & Hr & Tr & Dr); try done; [lia|by eauto|].
  destruct (IntOp_Create_value n fold IH OpLShr w r shift) as (q & Eq & Hq & Tq & Dq); try done;
    [unfold weight, bin; cbn; lia|].
  unfold CreateShl, CreateLShr. rewrite Em. cbn. rewrite Er. cbn. rewrite Eq.
  apply visited_ok. eapply refine_bin; rewrite ?Hd; try done.
  intros e a b z Ea Eb _ _ [= <-]. destruct (Hv e a b Ea Eb) as (u & m' & Eu & Em' & ->).
  rewrite Dm in Em'. injection Em' as <-.
  apply (denote_parts e dt value shift w) in Eu as (u' & v' & z & Eu & Ev & Wu & _ & Ez & ->);
    [|by rewrite Ho|done..]. rewrite Ho in Ez. injection Ez as <-.
  rewrite Ds' in Ev. injection Ev as <-.
  erewrite (Dq e _ _ _ (Dr e u' Eu) (Ds' e)) by done. do 2 f_equal. apply APInt_of_eq; [done|].
  rewrite !APInt_of_value by done.
  apply land_lshr_bits; [done|apply getZExtValue_nonneg|by apply value_range..].
Qed.
(** (and (and v m2) m1), the constants on either side. *)
Lemma and_mask_ok d x y mask1 mask2 value w t swap :
  od_opcode d = OpAnd -> wf (mkOp d [x; y]) -> od_type d = ity w -> good_width w ->
  wf t -> op_type t = ity w -> wf mask1 -> op_type mask1 = ity w ->
  op_opcode mask1 = OpConstantInt -> bin_const swap OpAnd t value mask2 ->
  (op_size value + 5 <= n)%nat ->
  (forall e a b, denote e x = Some (DInt a) -> denote e y = Some (DInt b) ->
    exists u m, denote e t = Some (DInt u) /\ denote e mask1 = Some (DInt m) /\
      Z.land (getZExtValue a) (getZExtValue b) = Z.land (getZExtValue u) (getZExtValue m)) ->
  visited (mkOp d [x; y]) (m ← CreateAnd fold mask1 mask2; CreateAnd fold value m).
Proof using IH Hn HL.
  intros Hd Hwf Ht Hw Ht' Tt Hm Tm Cm Hb Hsz Hv. assert (0 < w) by (destruct Hw; lia). assert (0 <= w) as Hw0 by lia.
  pose proof (op_size_pos value). pose proof Hb as (_ & Cs & _).
  apply bin_const_inv in Hb as (dt & w' & c & -> & Ho & Tt' & _ & Hval & Hs & Tval & Ts & _ & _ & _ & _ & _);
    [|done..]. rewrite Tt in Tt'. injection Tt' as <-.
  destruct (fold_masks OpAnd w mask1 mask2) as (m & a1 & a2 & Em & Sm & Hwt & D1 & D2 & _); [by auto|done..|lia|].
  destruct (mask_value OpAnd w mask1 mask2 (Z.land (getZExtValue a1) (getZExtValue a2)) value m)
    as (r & Er & Hr & Tr & Dr); try done; [lia|by eauto|].
  change (IntOp_Create fold OpAnd mask1 mask2) with (CreateAnd fold mask1 mask2) in Em.
  rewrite Em. cbn. rewrite Er.
  apply visited_ok. eapply refine_bin; rewrite ?Hd; try done.
  intros e a b z Ea Eb _ _ [= <-]. destruct (Hv e a b Ea Eb) as (u & m' & Eu & Em' & ->).
  rewrite D1 in Em'. injection Em' as <-.
  assert (exists u', denote e value = Some (DInt u') /\
    u = APInt_of w (Z.land (getZExtValue u') (getZExtValue a2))) as (u' & Eu' & ->).
  { destruct swap;
      (apply (denote_parts e dt _ _ w) in Eu as (p & q & z & Ep & Eq & _ & _ & Ez & ->);
        [|by rewrite Ho|done..]); rewrite Ho in Ez; injection Ez as <-.
    - rewrite D2 in Ep. injection Ep as <-. rewrite Z.land_comm. eauto.
    - rewrite D2 in Eq. injection Eq as <-. eauto. }
  rewrite (Dr e u' Eu'). do 2 f_equal. apply APInt_of_eq; [done|].
  rewrite APInt_of_value by done. by apply land_masks_bits.
Qed.

Lemma land_swap e x y (a b : APInt) :
  denote e x = Some (DInt a) -> denote e y = Some (DInt b) ->
  exists u m, denote e y = Some (DInt u) /\ denote e x = Some (DInt m) /\
    Z.land (getZExtValue a) (getZExtValue b) = Z.land (getZExtValue u) (getZExtValue m).
Proof. intros. exists b, a. by rewrite Z.land_comm. Qed.

(** The size of the value behind a recognised operand. *)
Lemma bin_const_size swap o op value const :
  bin_const swap o op value const -> wf op -> int_binop o = true ->
  op_size op = S (S (op_size value)).
Proof. intros Hb Hwf Ho. apply bin_const_inv in Hb; naive_solver. Qed.

Lemma land_ones_l a w : getBitWidth a = w -> Z.land (2 ^ w - 1) (getZExtValue a) = getZExtValue a.
Proof.
  intros <-. pose proof (APInt_width_pos a). pose proof (APInt_width_nonneg a). rewrite Z.sub_1_r, <- Z.ones_equiv, Z.land_comm.
  rewrite Z.land_ones by done. apply wrap_value.
Qed.

Lemma visitAnd_ok d x y : od_opcode d = OpAnd -> wf (mkOp d [x; y]) ->
  (weight (mkOp d [x; y]) <= S n)%nat ->
  visited (mkOp d [x; y]) (visitAnd fold (mkOp d [x; y]) x y).
Proof using IH Hn HL.
  open_visit Hd Hwf. unfold weight, op_opcode. cbn [op_data]. rewrite Hd. cbn. intros Hsz.
  unfold visitAnd.
  case_match; const_test; [ret_l Hd; by rewrite Va|].
  case_match; const_test; [ret_r Hd; by rewrite Va, Z.land_0_r|].
  case_match; const_test; [ret_r Hd; rewrite Va, land_ones_l by congruence; by apply wrap_val|].
  case_match; const_test.
  { ret_l Hd. rewrite Va, Z.land_comm, land_ones_l by congruence. by apply wrap_val. }
  fold_consts Hd ap_and_spec.
  destruct (lshr_mask x y) as [[[mask value] shift]|] eqn:El.
  { apply lshr_mask_inv in El as (Cm & [[-> Hb]|[-> Hb]]);
      pose proof (op_size_pos mask); pose proof (bin_const_size _ _ _ _ _ Hb ltac:(assumption) eq_refl).
    - eapply (lshr_mask_ok d mask y mask value shift w y); eauto using land_swap; lia.
    - eapply (lshr_mask_ok d x mask mask value shift w x); eauto; lia. }
  destruct (and_mask x y) as [[[mask1 mask2] value]|] eqn:El'; [|by apply visited_refl].
  apply and_mask_inv in El' as (Cm & swap & [[-> Hb]|[-> Hb]]);
    pose proof (op_size_pos mask1); pose proof (bin_const_size _ _ _ _ _ Hb ltac:(assumption) eq_refl).
  - eapply (and_mask_ok d mask1 y mask1 mask2 value w y swap); eauto using land_swap; lia.
  - eapply (and_mask_ok d x mask1 mask1 mask2 value w x swap); eauto; lia.
Qed.
Lemma lor_ones_l a w : getBitWidth a = w -> Z.lor (2 ^ w - 1) (getZExtValue a) = 2 ^ w - 1.
Proof.
  intros Ha. assert (0 < w) by (rewrite <- Ha; apply APInt_width_pos). assert (0 <= w) by lia.
  pose proof (value_range a w Ha). rewrite Z.sub_1_r, <- Z.ones_equiv. zbits.
  destruct (Z.ltb_spec i w); [done|]. by rewrite (testbit_high w) by lia.
Qed.

Lemma visitOr_ok d x y : od_opcode d = OpOr -> wf (mkOp d [x; y]) ->
  (weight (mkOp d [x; y]) <= S n)%nat ->
  visited (mkOp d [x; y]) (visitOr fold (mkOp d [x; y]) x y).
Proof using IH Hn HL.
  open_visit Hd Hwf. unfold weight, op_opcode. cbn [op_data]. rewrite Hd. cbn. intros Hsz.
  unfold visitOr.
  case_match; const_test; [ret_r Hd; rewrite Va, Z.lor_0_l; by apply wrap_val|].
  case_match; const_test; [ret_l Hd; rewrite Va, Z.lor_0_r; by apply wrap_val|].
  case_match; const_test.
  { ret_l Hd. rewrite Va, lor_ones_l, <- Va by congruence. by apply wrap_val. }
  case_match; const_test.
  { ret_r Hd. rewrite Va, Z.lor_comm, lor_ones_l, <- Va by congruence. by apply wrap_val. }
  fold_consts Hd ap_or_spec.
  destruct (or_masks x y) as [[[value mask1] mask2]|] eqn:El; [|by apply visited_refl].
  apply or_masks_inv in El as (Hb1 & Hb2).
  pose proof Hb1 as (_ & Cm1 & _). pose proof Hb2 as (_ & Cm2 & _). pose proof (op_size_pos value).
  apply bin_const_inv in Hb1 as (d1 & w1 & c1 & -> & Ho1 & T1 & _ & Hval & Hm1 & Tv & Tm1 & _ & _ & _ & _ & S1);
    [|done..]. rewrite Tx in T1. injection T1 as <-.
  apply bin_const_inv in Hb2 as (d2 & w2 & c2 & -> & Ho2 & T2 & _ & _ & Hm2 & _ & Tm2 & _ & _ & _ & _ & S2);
    [|done..]. rewrite Ty in T2. injection T2 as <-.
  destruct (fold_masks OpOr w mask1 mask2) as (m & a1 & a2 & Em & Sm & Hwt & D1 & D2 & _); [by auto|done..|lia|].
  destruct (mask_value OpOr w mask1 mask2 (Z.lor (getZExtValue a1) (getZExtValue a2)) value m)
    as (r & Er & Hr & Tr & Dr); try done; [lia|by eauto|].
  unfold CreateOr. rewrite Em. cbn. rewrite Er.
  apply visited_ok. eapply refine_bin; rewrite ?Hd; try done.
  intros e a b z Ea Eb _ _ [= <-].
  apply (denote_parts e d1 _ _ w) in Ea as (p & q & z & Ep & Eq & _ & _ & Ez & ->); [|by rewrite Ho1|done..].
  apply (denote_parts e d2 _ _ w) in Eb as (p' & q' & z' & Ep' & Eq' & _ & _ & Ez' & ->); [|by rewrite Ho2|done..].
  rewrite Ho1 in Ez. rewrite Ho2 in Ez'. simplify_eq/=. rewrite D1 in Eq. rewrite D2 in Eq'. simplify_eq/=.
  rewrite (Dr e _ Ep). do 2 f_equal. apply APInt_of_eq; [done|]. rewrite !APInt_of_value by done.
  by apply lor_masks_bits.
Qed.

Lemma visitShl_ok d x y : od_opcode d = OpShl -> wf (mkOp d [x; y]) ->
  (weight (mkOp d [x; y]) <= S n)%nat ->
  visited (mkOp d [x; y]) (visitShl fold (mkOp d [x; y]) x y).
Proof using IH Hn HL.
  open_visit Hd Hwf. unfold weight, op_opcode. cbn [op_data]. rewrite Hd. cbn. intros Hsz.
  unfold visitShl.
  case_match; const_test; [ret_l Hd; by rewrite Va, Z.shiftl_0_l| |].
  { ret_l Hd. rewrite Va, Z.shiftl_0_r. by apply wrap_val. }
  fold_consts Hd ap_shl_spec.
  destruct (shl_lshr x y) as [[[value rshift] lshift]|] eqn:El; [|by apply visited_refl].
  apply shl_lshr_inv in El as (-> & Cl & Hb).
  apply bin_const_inv in Hb as (d1 & w1 & c1 & -> & Ho1 & T1 & _ & Hval & Hr & Tv & Tr & Er & _ & Wc & Dr & S1);
    [|done..]. rewrite Tx in T1. injection T1 as <-.
  destruct (const_leaf lshift Hy Cl) as (Sl & a & Ea). rewrite Ea, Er. cbn.
  destruct (as_ConstantInt_inv lshift a Hy Ea) as (_ & Wa & _ & _ & Da).
  rewrite Ty in Wa. injection Wa as Wa.
  unfold op_type. cbn [op_data]. rewrite Ht, bitwidth_ity. cbn.
  rewrite getLimitedValue_spec, ap_eq_spec by congruence.
  case_match eqn:Hs; [|by apply visited_refl]. apply andb_true_iff in Hs as [Hs1 Hs2].
  apply Z.eqb_eq in Hs1. apply negb_true_iff, Z.eqb_neq in Hs2.
  pose proof (getZExtValue_nonneg a). rewrite Z.min_l by lia.
  destruct (ConstantInt_Create_ok n fold IH (getBitsSetFrom w (getZExtValue a))) as (m & Em & Hm); [done|..].
  { rewrite getBitsSetFrom_spec, APInt_of_width by lia. done. }
  rewrite Em. cbn. pose proof (cint_const _ _ Hm) as Dm. destruct Hm as (Hm & Tm & _).
  rewrite getBitsSetFrom_spec in Dm, Tm by lia. cbn in Tm. rewrite APInt_of_width in Tm by done.
  assert (op_size m = 1%nat) as Sm by (destruct HL as [HLc _]; by eapply HLc).
  destruct (IntOp_Create_value n fold IH OpAnd w value m) as (r & Err & Hr' & Tr' & Dr'); try done.
  { unfold weight, bin. cbn. lia. }
  unfold CreateAnd. rewrite Err. apply visited_ok. eapply refine_bin; rewrite ?Hd; try done.
  intros e p q z Ep Eq _ _ [= <-]. rewrite Da in Eq. injection Eq as <-.
  apply (denote_parts e d1 _ _ w) in Ep as (u & v & z & Eu & Ev & Wu & _ & Ez & ->); [|by rewrite Ho1|done..].
  rewrite Ho1 in Ez. simplify_eq/=. rewrite Dr in Ev. simplify_eq/=.
  erewrite (Dr' e _ _ _ Eu (Dm e)) by done. do 2 f_equal. apply APInt_of_eq; [done|].
  rewrite !APInt_of_value, Hs1 by done. apply shl_lshr_bits; [lia|by apply value_range].
Qed.
End visits.
End sound.
