(* ===== verification/SimplifierSound.v ===== *)
(** Correctness of constant folding, second part: the visit methods of floats,
    unary operations, selection, comparisons and arrays, and the simplifier as
    a whole. *)
From S2P Require Import Prelude LLVM IRType Value Opcode Operation Matching Create Semantics.
From S2P Require Import Simplifier SimplifierInt.
Open Scope Z_scope.

Section sound.
Context `{PtrEq} `{MathExtrasAPI} `{Config}.

Lemma as_ConstantFloat_inv x f :
  wf x -> as_ConstantFloat x = Some f ->
  type_of_apfloat f = Ok (op_type x) /\ forall e, denote e x = Some (DFloat f).
Proof.
  intros Hwf Hf. inversion Hwf as [d l Hl Hn]; subst. unfold as_ConstantFloat, op_opcode in Hf.
  cbn in Hf. unfold node_ok in Hn. destruct (od_opcode d) eqn:Ho; try done.
  destruct l; [|done]. destruct Hn as (g & Hp & Ht). rewrite Hp in Hf. injection Hf as ->.
  split; [done|]. intros e. cbn. unfold denote_node. by rewrite Ho, Hp.
Qed.

(** The operands of a well-formed node are well-formed. *)
Lemma wf_operands d l : wf (mkOp d l) -> Forall wf l.
Proof. by inversion 1. Qed.
Lemma wf_unary d x : wf (mkOp d [x]) -> wf x.
Proof. intros Hw%wf_operands. by inversion Hw. Qed.

Section visits.
Context (n : nat) (fold : Operation -> result Operation) (IH : fold_spec n fold) (Hn : (1 <= n)%nat).

(** A constant that has the node's value. *)
Lemma visited_int op a :
  good_width (getBitWidth a) -> op_type op = ity (getBitWidth a) ->
  (forall e v, denote e op = Some v -> v = DInt a) ->
  visited op (ConstantInt_Create fold a).
Proof using IH Hn.
  intros Hw Ht Hv. destruct (ConstantInt_Create_ok n fold IH a) as (r & E & Hr); [done..|].
  exists r. split; [done|]. pose proof (cint_const _ _ Hr) as Hc. destruct Hr as (Hwf & Htr & _).
  split_and!; [done|by rewrite Htr|]. intros e v Ev. rewrite Hc. f_equal. symmetry. eauto.
Qed.

Lemma visited_bool op b :
  op_type op = ity 1 -> (forall e v, denote e op = Some v -> v = den_bool b) ->
  visited op (ConstantInt_Create_bool fold b).
Proof using IH Hn.
  intros Ht Hv. apply visited_int; rewrite ?APInt_of_width by lia; try done.
Qed.

(** ** Floats *)
Lemma visited_float op f :
  type_of_apfloat f = Ok (op_type op) ->
  (forall e v, denote e op = Some v -> v = DFloat f) ->
  visited op (ConstantFloat_Create fold f).
Proof using IH Hn.
  intros Ht Hv. unfold ConstantFloat_Create, ConstantFloatData. rewrite Ht. cbn.
  destruct (IH (mkOp (mkData OpConstantFloat (op_type op) (PFloat f)) [])) as (r & E & Hr & Tr & Dr).
  - repeat constructor. cbn. eauto.
  - done.
  - done.
  - exists r. split; [done|]. split_and!; [done|done|]. intros e v Ev. apply Dr. cbn.
    f_equal. symmetry. eauto.
Qed.

Lemma visitFloat_ok d x y f :
  (forall a b, sem_float (od_opcode d) a b = Some (f a b)) ->
  (forall a b, getSemantics (f a b) = getSemantics a) ->
  od_opcode d ∈ [OpFAdd; OpFSub; OpFMul; OpFDiv] -> wf (mkOp d [x; y]) ->
  visited (mkOp d [x; y]) (visitFloat fold f (mkOp d [x; y]) x y).
Proof using IH Hn.
  intros Hf Hs Ho Hwf. unfold visitFloat, TRY_CONST_FLOAT, const_floats.
  destruct (as_ConstantFloat x) as [a|] eqn:Ea; [|by apply visited_refl].
  destruct (as_ConstantFloat y) as [b|] eqn:Eb; [|by apply visited_refl].
  pose proof Hwf as Hwf'. inversion Hwf' as [? ? Hl Hok]; subst.
  rewrite !Forall_cons in Hl. destruct Hl as (Hx & Hy & _).
  apply as_ConstantFloat_inv in Ea as (Ta & Da), Eb as (Tb & Db); [|done..].
  apply visited_float.
  - rewrite (type_of_apfloat_sem _ a), Ta by done. unfold node_ok in Hok.
    unfold op_type at 2. cbn. set_unfold in Ho.
    destruct (od_opcode d); try (exfalso; naive_solver congruence);
      destruct Hok as (_ & -> & _); done.
  - intros e v. cbn. unfold denote_node. rewrite Da, Db. set_unfold in Ho.
    destruct (od_opcode d); try (exfalso; naive_solver congruence);
      specialize (Hf a b); cbn in *; injection Hf as <-; by intros [= <-].
Qed.

Lemma visitFIsNaN_ok d x : od_opcode d = OpFIsNaN -> wf (mkOp d [x]) ->
  visited (mkOp d [x]) (visitFIsNaN fold (mkOp d [x]) x).
Proof using IH Hn.
  intros Hd Hwf. unfold visitFIsNaN. destruct (as_ConstantFloat x) as [f|] eqn:Ef; [|by apply visited_refl].
  apply as_ConstantFloat_inv in Ef as (_ & Df); [|by eapply wf_unary].
  inversion Hwf as [? ? _ Hok]; subst. unfold node_ok in Hok. rewrite Hd in Hok. destruct Hok as [Ht _].
  apply visited_bool; [done|]. intros e v. cbn. unfold denote_node. rewrite Hd, Df. by intros [= <-].
Qed.
(** The folds of constants of [frem] are wrong; without constants nothing is
    folded. *)
Lemma visitFRem_ok d x y : od_opcode d = OpFRem -> wf (mkOp d [x; y]) -> safe (mkOp d [x; y]) ->
  visited (mkOp d [x; y]) (visitFRem fold (mkOp d [x; y]) x y).
Proof.
  intros Hd Hwf Hs. unfold safe, op_opcode in Hs. cbn [op_data op_operands] in Hs. rewrite Hd in Hs.
  unfold visitFRem, TRY_CONST_FLOAT. rewrite Hs. by apply visited_refl.
Qed.
Lemma constant_float_compare_spec c a b : constant_float_compare c a b = sem_fcmp c a b.
Proof. unfold constant_float_compare, sem_fcmp. by destruct c, (fl_compare a b). Qed.
Lemma visitFCmp_ok c d x y : od_opcode d = OpFCmp c -> wf (mkOp d [x; y]) -> safe (mkOp d [x; y]) ->
  visited (mkOp d [x; y]) (visitFCmp fold c (mkOp d [x; y]) x y).
Proof using IH Hn.
  intros Hd Hwf Hs. unfold safe, op_opcode in Hs. cbn [op_data op_operands] in Hs. rewrite Hd in Hs.
  inversion Hwf as [? ? Hl Hok]; subst. unfold node_ok in Hok. rewrite Hd in Hok. destruct Hok as (Ht & _).
  rewrite !Forall_cons in Hl. destruct Hl as (Wx & Wy & _). unfold visitFCmp, TRY_CONST_FLOAT.
  destruct (const_floats x y) as [[f g]|] eqn:Ec; [|rewrite (Hs eq_refl); by apply visited_refl].
  unfold const_floats in Ec. destruct (as_ConstantFloat x) as [f'|] eqn:Ef; [|done].
  destruct (as_ConstantFloat y) as [g'|] eqn:Eg; [|done]. injection Ec as -> ->.
  apply as_ConstantFloat_inv in Ef as (_ & Df); [|done]. apply as_ConstantFloat_inv in Eg as (_ & Dg); [|done].
  apply visited_bool; [done|]. intros e v. cbn. unfold denote_node. rewrite Hd, Df, Dg, constant_float_compare_spec. by intros [= <-].
Qed.
(** ** Unary operations *)
Lemma unary_const d x a :
  od_opcode d ∈ [OpNot; OpTrunc; OpZExt; OpSExt] -> wf (mkOp d [x]) -> as_ConstantInt x = Some a ->
  exists w, good_width w /\ od_type d = ity w /\
    good_width (getBitWidth a) /\
    (od_opcode d = OpNot -> getBitWidth a = w) /\
    (od_opcode d = OpTrunc -> w <= getBitWidth a) /\
    (od_opcode d = OpZExt \/ od_opcode d = OpSExt -> getBitWidth a <= w) /\
    forall e, denote e (mkOp d [x]) = sem_unary (od_opcode d) (ity w) (DInt a).
Proof.
  intros Ho Hwf Ea. pose proof (wf_unary _ _ Hwf) as Hx.
  apply as_ConstantInt_inv in Ea as (Hw & Ta & _ & _ & Da); [|done].
  inversion Hwf as [? ? _ Hok]; subst. unfold node_ok in Hok.
  assert (forall e w, od_type d = ity w ->
    denote e (mkOp d [x]) = sem_unary (od_opcode d) (ity w) (DInt a)) as Hden.
  { intros e w Ht. cbn. unfold denote_node. rewrite Da, Ht. set_unfold in Ho.
    destruct (od_opcode d); try done; exfalso; naive_solver congruence. }
  rewrite Ta in Hok. set_unfold in Ho.
  destruct (od_opcode d); try (exfalso; naive_solver congruence).
  - destruct Hok as (w & ? & ? & [= <-]). exists (getBitWidth a). naive_solver.
  - destruct Hok as (w & w' & ? & ? & ? & ? & [= <-]). exists w. naive_solver.
  - destruct Hok as (w & w' & ? & ? & ? & ? & [= <-]). exists w. naive_solver.
  - destruct Hok as (w & w' & ? & ? & ? & ? & [= <-]). exists w. naive_solver.
Qed.

(** A node that is one of the operands of its operand. *)
Lemma match_unary o x value c :
  matches x (UnaryOpPat o (RefOp 0)) no_captures = (true, c) -> c 0%nat = Some value ->
  op_opcode x = o /\ exists rest, op_operands x = value :: rest.
Proof.
  unfold matches. destruct (pat_matches _ x) eqn:Hm; [|done].
  apply pat_unary_inv in Hm as (a & rest & Ho & Hl & _ & Hc). rewrite Hc.
  intros [= <-] [= ->]. eauto.
Qed.

Lemma lnot_lnot_bits w v : 0 <= w -> wrap w (Z.lnot (wrap w (Z.lnot v))) = wrap w v.
Proof. intros Hw. zbits. destruct (Z.ltb_spec i w); [|done]. apply negb_involutive. Qed.

Lemma visitNot_ok d x : od_opcode d = OpNot -> wf (mkOp d [x]) ->
  visited (mkOp d [x]) (visitNot fold (mkOp d [x]) x).
Proof using IH Hn.
  intros Hd Hwf. unfold visitNot. destruct (as_ConstantInt x) as [a|] eqn:Ea.
  - destruct (unary_const d x a) as (w & Hw & Ht & _ & Hwa & _ & _ & Hden); [by rewrite Hd; set_solver|done..|].
    rewrite Hd in Hden. specialize (Hwa Hd). subst w. assert (0 < getBitWidth a) by (destruct Hw; lia). assert (0 <= getBitWidth a) by lia.
    rewrite ap_not_spec. apply visited_int; rewrite ?APInt_of_width by done; try done.
    intros e v. rewrite Hden. by intros [= <-].
  - destruct (matches x _ _) as [[] c] eqn:Em; [|by apply visited_refl].
    destruct (c 0%nat) as [value|] eqn:Ec; [|by apply visited_refl].
    destruct (match_unary _ _ _ _ Em Ec) as (Ho & rest & Hl). apply visited_ok.
    pose proof (wf_unary _ _ Hwf) as Hx. destruct x as [dx lx]. cbn in Hl. subst lx.
    unfold op_opcode in Ho. cbn in Ho. inversion Hx as [? ? Hf Hokx]; subst.
    inversion Hwf as [? ? _ Hok]; subst. unfold node_ok in *. rewrite Hd in Hok. rewrite Ho in Hokx.
    destruct rest; [|done]. destruct Hok as (w & Hw & Ht & Tx), Hokx as (w' & Hw' & Ht' & Tv).
    unfold op_type in Tx. cbn in Tx. rewrite Ht' in Tx. injection Tx as ->. inversion Hf as [|? ? Hv _]; subst.
    split_and!; [done|by unfold op_type at 2; cbn; rewrite Ht, Tv|].
    intros e v. cbn. unfold denote_node. rewrite Hd, Ho.
    destruct (denote e value) as [u|] eqn:Eu; [|done].
    destruct (denote_int e value _ w Hv Tv Eu) as (a & -> & Wa). cbn. intros [= <-].
    rewrite Wa. rewrite APInt_of_width by (destruct Hw; lia). do 2 f_equal. symmetry.
    apply APInt_of_is; [done|]. rewrite APInt_of_value by (destruct Hw; lia).
    rewrite lnot_lnot_bits by (destruct Hw; lia). by apply wrap_val.
Qed.

(** A change of width to the width the operand already has. *)
Lemma same_width d x :
  od_opcode d ∈ [OpTrunc; OpZExt; OpSExt] -> wf (mkOp d [x]) ->
  ty_eqb (od_type d) (op_type x) = true -> refines (mkOp d [x]) x.
Proof.
  intros Ho Hwf Ht%ty_eqb_eq. pose proof (wf_unary _ _ Hwf) as Hx. split_and!; [done|by rewrite <- Ht|].
  intros e v. cbn. unfold denote_node. set_unfold in Ho.
  assert (exists w, good_width w /\ op_type x = ity w) as (w & Hw & Tx).
  { inversion Hwf as [? ? _ Hok]; subst. unfold node_ok in Hok.
    destruct (od_opcode d); try (exfalso; naive_solver congruence); naive_solver. }
  destruct (denote e x) as [u|] eqn:Eu; 
    [|destruct (od_opcode d); done || naive_solver congruence].
  destruct (denote_int e x _ w Hx Tx Eu) as (a & -> & Wa). rewrite Ht, Tx.
  assert (0 < w) by (destruct Hw; lia). assert (0 <= w) by lia.
  destruct (od_opcode d); try (exfalso; naive_solver congruence); cbn; intros [= <-]; f_equal; symmetry;
    f_equal; apply APInt_of_is; try done; rewrite ?Wa; try by apply wrap_val.
  apply wrap_sgn; [done|by apply value_range].
Qed.

Lemma visitTrunc_ok d x : od_opcode d = OpTrunc -> wf (mkOp d [x]) ->
  visited (mkOp d [x]) (visitTrunc fold (mkOp d [x]) x).
Proof using IH Hn.
  intros Hd Hwf. unfold visitTrunc, op_type at 1 2. cbn [op_data]. destruct (as_ConstantInt x) as [a|] eqn:Ea.
  - destruct (unary_const d x a) as (w & Hw & Ht & _ & _ & Hwa & _ & Hden); [by rewrite Hd; set_solver|done..|].
    rewrite Ht, bitwidth_ity. cbn. specialize (Hwa Hd).
    rewrite ap_trunc_spec by (destruct Hw; lia).
    apply visited_int; rewrite ?APInt_of_width by (destruct Hw; lia); try done.
    intros e v. rewrite Hden, Hd. by intros [= <-].
  - case_match; [|by apply visited_refl]. apply visited_ok, same_width; [rewrite Hd; set_solver|done..].
Qed.

Lemma visitSExt_ok d x : od_opcode d = OpSExt -> wf (mkOp d [x]) ->
  visited (mkOp d [x]) (visitSExt fold (mkOp d [x]) x).
Proof using IH Hn.
  intros Hd Hwf. unfold visitSExt, op_type at 1 2. cbn [op_data]. destruct (as_ConstantInt x) as [a|] eqn:Ea.
  - destruct (unary_const d x a) as (w & Hw & Ht & [? _] & _ & _ & Hwa & Hden); [by rewrite Hd; set_solver|done..|].
    rewrite Ht, bitwidth_ity. cbn. specialize (Hwa (or_intror Hd)).
    rewrite ap_sext_spec by lia.
    apply visited_int; rewrite ?APInt_of_width by (destruct Hw; lia); try done.
    intros e v. rewrite Hden, Hd. by intros [= <-].
  - case_match; [|by apply visited_refl]. apply visited_ok, same_width; [rewrite Hd; set_solver|done..].
Qed.
Lemma zext_trunc_bits w t v :
  0 <= t <= w -> wrap w (Z.land v (wrap w (Z.ones t))) = wrap w (wrap t v).
Proof.
  intros Ht. zbits. destruct (Z.ltb_spec i w), (Z.ltb_spec i t); cbn; rewrite ?andb_true_r, ?andb_false_r;
    try done; lia.
Qed.

Lemma visitZExt_ok d x : folds_to_leaf fold -> od_opcode d = OpZExt -> wf (mkOp d [x]) ->
  (weight (mkOp d [x]) <= S n)%nat -> visited (mkOp d [x]) (visitZExt fold (mkOp d [x]) x).
Proof using IH Hn.
  intros [HL _] Hd Hwf. unfold weight, op_opcode. cbn [op_data]. rewrite Hd. cbn. intros Hsz.
  unfold visitZExt. change (op_type (mkOp d [x])) with (od_type d). destruct (as_ConstantInt x) as [a|] eqn:Ea.
  { destruct (unary_const d x a) as (w & Hw & Ht & [? _] & _ & _ & Hwa & Hden); [by rewrite Hd; set_solver|done..|].
    rewrite Ht, bitwidth_ity. cbn. specialize (Hwa (or_introl Hd)).
    rewrite ap_zext_spec by lia.
    apply visited_int; rewrite ?APInt_of_width by (destruct Hw; lia); try done.
    intros e v. rewrite Hden, Hd. by intros [= <-]. }
  case_match eqn:Hty; [apply visited_ok, same_width; [rewrite Hd; set_solver|done..]|].
  destruct (matches x _ _) as [[] c] eqn:Em; [|by apply visited_refl].
  destruct (c 0%nat) as [value|] eqn:Ec; [|by apply visited_refl].
  destruct (match_unary _ _ _ _ Em Ec) as (Ho & rest & Hl).
  pose proof (wf_unary _ _ Hwf) as Hx. destruct x as [dx lx]. cbn in Hl. subst lx.
  unfold op_opcode in Ho. cbn in Ho. inversion Hx as [? ? Hf Hokx]; subst.
  inversion Hwf as [? ? _ Hok]; subst. unfold node_ok in *. rewrite Hd in Hok. rewrite Ho in Hokx.
  destruct rest; [|done]. destruct Hok as (w & t & Hw & Hwt & Hle & Ht & Tx).
  destruct Hokx as (t' & w2 & _ & Hw2 & Hle2 & Ht' & Tv).
  rewrite Tx. unfold op_type in Tx. cbn in Tx. rewrite Ht' in Tx. injection Tx as ->.
  inversion Hf as [|? ? Hv _]; subst. rewrite Ht, Tv, !bitwidth_ity. cbn.
  destruct (Z.eqb_spec w w2) as [<-|]; [|by apply visited_refl].
  assert (0 < t /\ 0 < w) as [? ?] by (destruct Hw, Hwt; lia). assert (0 <= t /\ 0 <= w) as [? ?] by lia.
  destruct (ConstantInt_Create_ok n fold IH (getLowBitsSet w t)) as (m & Em' & Hm); [done|..].
  { rewrite getLowBitsSet_spec, APInt_of_width by lia. done. }
  rewrite Em'. cbn. pose proof (cint_const _ _ Hm) as Dm. destruct Hm as (Hm & Tm & _).
  rewrite getLowBitsSet_spec in Dm, Tm by lia. cbn in Tm. rewrite APInt_of_width in Tm by done.
  assert (op_size m = 1%nat) as Sm by by eapply HL.
  destruct (IntOp_Create_value n fold IH OpAnd w value m) as (r & Err & Hr' & Tr' & Dr'); try done.
  { unfold weight, bin. cbn. cbn in Hsz. lia. }
  unfold CreateAnd. rewrite Err. apply visited_ok.
  split_and!; [done|by unfold op_type at 2; cbn; rewrite Ht|].
  intros e v. cbn. unfold denote_node. rewrite Hd, Ho. destruct (denote e value) as [u|] eqn:Eu; [|done].
  destruct (denote_int e value _ w Hv Tv Eu) as (a & -> & Wa). cbn. rewrite Ht, Ht'. cbn. intros [= <-].
  erewrite (Dr' e _ _ _ Eu (Dm e)) by done. do 2 f_equal. apply APInt_of_eq; [done|].
  rewrite !APInt_of_value by done. by apply zext_trunc_bits.
Qed.

Lemma visitBitcast_ok d x : od_opcode d = OpBitcast -> wf (mkOp d [x]) ->
  visited (mkOp d [x]) (visitBitcast (mkOp d [x]) x).
Proof.
  intros Hd Hwf. unfold visitBitcast.
  destruct (matches x _ _) as [[] c] eqn:Em; [|by apply visited_refl].
  destruct (c 0%nat) as [value|] eqn:Ec; [|by apply visited_refl].
  destruct (match_unary _ _ _ _ Em Ec) as (Ho & rest & Hl).
  case_match eqn:Hty; [|by apply visited_refl]. apply ty_eqb_eq in Hty.
  pose proof (wf_unary _ _ Hwf) as Hx. destruct x as [dx lx]. cbn in Hl. subst lx.
  unfold op_opcode in Ho. cbn in Ho. inversion Hx as [? ? Hf Hokx]; subst.
  unfold node_ok in Hokx. rewrite Ho in Hokx. destruct rest; [|done]. inversion Hf as [|? ? Hv _]; subst.
  apply visited_ok. split_and!; [done|done|]. intros e v. cbn. unfold denote_node. rewrite Hd, Ho.
  destruct (denote e value) as [u|] eqn:Eu; [|done]. apply denote_typed in Eu; [|done].
  destruct u as [a|f|]; cbn; [| |done].
  - destruct (is_float (od_type dx)); [|done].
    destruct (format_of (od_type dx)) as [s|] eqn:Es; cbn; [|done].
    destruct (Z.eqb_spec (getBitWidth a) (semanticsSizeInBits s)); [|done]. cbn.
    rewrite of_bits_sem. case_bool_decide; [|done]. rewrite bitcast_of_bits; [done| |done].
    by eapply format_of_inv.
  - case_bool_decide; [|done]. cbn. destruct (is_float (od_type d)); [|done].
    destruct (format_of (od_type d)) as [s|] eqn:Es; cbn; [|done]. rewrite bitcast_width.
    case_match; [|done]. cbn in Eu. rewrite Hty in Eu.
    rewrite (format_of_unique f _ s Eu Es), of_bits_bitcast. done.
Qed.

(** ** Selection and comparisons *)
Lemma visitSelectOp_ok d c x y : od_opcode d = OpSelect -> wf (mkOp d [c; x; y]) ->
  visited (mkOp d [c; x; y]) (visitSelectOp (mkOp d [c; x; y]) c x y).
Proof.
  intros Hd Hwf. unfold visitSelectOp. inversion Hwf as [? ? Hf Hok]; subst.
  rewrite !Forall_cons in Hf. destruct Hf as (Hc & Hx & Hy & _).
  unfold node_ok in Hok. rewrite Hd in Hok. destruct Hok as (Tc & Tx & Ty).
  assert (forall e, denote e (mkOp d [c; x; y]) =
    match denote e c with
    | Some (DInt c) => if getZExtValue c =? 1 then denote e x else denote e y
    | _ => None
    end) as Hden.
  { intros e. cbn. unfold denote_node. rewrite Hd. by destruct (denote e c) as [[]|], (denote e x), (denote e y). }
  destruct (as_ConstantInt c) as [a|] eqn:Ea.
  - apply as_ConstantInt_inv in Ea as (_ & _ & _ & _ & Da); [|done].
    apply visited_ok. rewrite ap_eq_u64_spec. split_and!; [by case_match|by case_match|].
    intros e v. rewrite Hden, Da. by case_match.
  - destruct (ptr_eq x y) eqn:Hp; [|by apply visited_refl]. apply ptr_eq_sound in Hp as <-.
    apply visited_ok. split_and!; [done|done|]. intros e v. rewrite Hden.
    destruct (denote e c) as [[]|]; try done. by case_match.
Qed.

Lemma constant_int_compare_spec c a b w :
  getBitWidth a = w -> getBitWidth b = w ->
  constant_int_compare c a b = sem_icmp c w (getZExtValue a) (getZExtValue b).
Proof.
  intros Ha Hb. assert (getBitWidth a = getBitWidth b) by congruence.
  destruct c; cbn; rewrite ?ap_eq_spec, ?ap_ult_spec, ?ap_ule_spec, ?ap_ugt_spec, ?ap_uge_spec,
    ?ap_slt_spec, ?ap_sle_spec, ?ap_sgt_spec, ?ap_sge_spec, ?Ha, ?Hb by done; done.
Qed.

Lemma sem_icmp_refl c w v :
  sem_icmp c w v v = match c with EQ | ULE | SLE | UGE | SGE => true | _ => false end.
Proof. destruct c; cbn; rewrite ?Z.eqb_refl, ?Z.ltb_irrefl, ?Z.leb_refl; done. Qed.

Lemma visitICmp_ok d c x y : od_opcode d = OpICmp c -> wf (mkOp d [x; y]) ->
  visited (mkOp d [x; y]) (visitICmp fold c (mkOp d [x; y]) x y).
Proof using IH Hn.
  intros Hd Hwf. unfold visitICmp. inversion Hwf as [? ? Hf Hok]; subst.
  rewrite !Forall_cons in Hf. destruct Hf as (Hx & Hy & _).
  unfold node_ok in Hok. rewrite Hd in Hok. destruct Hok as (w & Hw & Ht & Tx & Ty).
  assert (forall e v, denote e (mkOp d [x; y]) = Some v -> exists a b,
    denote e x = Some (DInt a) /\ denote e y = Some (DInt b) /\ getBitWidth a = w /\ getBitWidth b = w /\
    v = den_bool (sem_icmp c w (getZExtValue a) (getZExtValue b))) as Hden.
  { intros e v. cbn. unfold denote_node. rewrite Hd.
    destruct (denote e x) as [u|] eqn:Eu; [|done]. destruct (denote e y) as [u'|] eqn:Eu'; [|done].
    destruct (denote_int e x _ w Hx Tx Eu) as (a & -> & Wa).
    destruct (denote_int e y _ w Hy Ty Eu') as (b & -> & Wb). cbn.
    rewrite Wa, Wb, Z.eqb_refl. intros [= <-]. eauto 10. }
  unfold const_ints. destruct (ptr_eq x y) eqn:Hp.
  - apply ptr_eq_sound in Hp as <-.
    destruct (as_ConstantInt x) as [a|] eqn:Ea.
    { apply as_ConstantInt_inv in Ea as (_ & Wa & _ & _ & Da); [|done]. rewrite Tx in Wa. injection Wa as Wa.
      apply visited_bool; [done|]. intros e v Ev. apply Hden in Ev as (u & u' & Eu & Eu' & ? & ? & ->).
      rewrite Da in Eu, Eu'. simplify_eq. erewrite constant_int_compare_spec by done. done. }
    destruct (is_Undef x) eqn:Hu.
    + rewrite int_ty_good by done. cbn. replace (ity 1) with (op_type (mkOp d [x; x])) by done.
      eapply visited_undef; eauto. intros e. destruct (denote e (mkOp d [x; x])) as [v|] eqn:Ev; [|done].
      apply Hden in Ev as (u & u' & Eu & _). apply (denote_undef e) in Hu; [|done]. congruence.
    + apply visited_bool; [done|]. intros e v Ev. apply Hden in Ev as (u & u' & Eu & Eu' & ? & ? & ->).
      rewrite Eu in Eu'. injection Eu' as <-. by rewrite sem_icmp_refl.
  - destruct (as_ConstantInt x) as [a|] eqn:Ea; [|by apply visited_refl].
    destruct (as_ConstantInt y) as [b|] eqn:Eb; [|by apply visited_refl].
    apply as_ConstantInt_inv in Ea as (_ & Wa & _ & _ & Da), Eb as (_ & Wb & _ & _ & Db); [|done..].
    rewrite Tx in Wa. injection Wa as Wa. rewrite Ty in Wb. injection Wb as Wb.
    rewrite (constant_int_compare_spec c a b w) by done.
    apply visited_bool; [done|]. intros e v Ev. apply Hden in Ev as (u & u' & Eu & Eu' & ? & ? & ->).
    rewrite Da in Eu. rewrite Db in Eu'. by injection Eu as <-; injection Eu' as <-.
Qed.
(** ** Arrays *)
Lemma ilog2_bound k w : 0 < k < 2 ^ 64 -> 0 < w -> k < 2 ^ w -> ilog2 k <= w.
Proof.
  intros Hk Hw Hkw. unfold ilog2. rewrite countLeadingZeros_pos by done.
  assert (Z.log2 k < w) by (apply Z.log2_lt_pow2; lia).
  assert (0 <= Z.log2 k < 64) by (split; [apply Z.log2_nonneg|apply Z.log2_lt_pow2; lia]).
  rewrite wrap_small; [case_match; lia|]. case_match; lia.
Qed.

(** [ilog2] bounds the number of elements an index width can address. *)
Lemma ilog2_capacity k w : 0 < k < 2 ^ 64 -> 0 <= w -> ilog2 k <= w -> k <= 2 ^ w.
Proof.
  intros Hk Hw. unfold ilog2. rewrite countLeadingZeros_pos by done.
  assert (0 <= Z.log2 k < 64) by (split; [apply Z.log2_nonneg|apply Z.log2_lt_pow2; lia]).
  destruct (Z.log2_spec k) as [Hl Hu]; [lia|].
  rewrite wrap_small by (case_match; lia). case_match eqn:Hp; intros Hle.
  - rewrite wrap_small in Hp by lia. apply Z.eqb_eq in Hp.
    destruct (Z.eq_dec k (2 ^ Z.log2 k)) as [E|].
    + rewrite E. apply Z.pow_le_mono_r; lia.
    + exfalso. assert (Z.log2 (k - 1) = Z.log2 k) as El by (apply Z.log2_unique; lia).
      assert (Z.testbit (Z.land k (k - 1)) (Z.log2 k) = false) as Hb by by rewrite Hp, Z.bits_0.
      rewrite Z.land_spec, Z.bit_log2 in Hb by lia. rewrite <- El, Z.bit_log2 in Hb; [done|].
      assert (k <> 1) by (intros ->; done). lia.
  - etrans; [|apply (Z.pow_le_mono_r 2 (Z.succ (Z.log2 k))); lia]. lia.
Qed.

Lemma FixedArray_Create_ok w l :
  good_width w -> Forall wf l -> Forall (fun x => op_type x = ity 8) l ->
  ilog2 (Z.of_nat (length l)) <= w ->
  exists r, FixedArray_Create fold (ity w) l = Ok r /\
    refines (mkOp (mkData OpFixedArray (aty w) NoPayload) l) r.
Proof using IH Hn.
  intros Hw Hl Ht Hlen. unfold FixedArray_Create. rewrite bitwidth_ity. cbn.
  rewrite (proj2 (Z.leb_le _ _)) by done. cbn. rewrite array_ty_good by done. cbn.
  apply IH; [|done|done]. constructor; [done|]. cbn. eauto 10.
Qed.

Lemma denote_fixed e d l : od_opcode d = OpFixedArray ->
  denote e (mkOp d l) = Some (DArr (den_byte <$> (denote e <$> l)) (desc_ (od_type d))).
Proof. intros Hd. cbn. unfold denote_node. rewrite Hd. by destruct (denote e <$> l) as [|? []]. Qed.

Lemma visitAllocOp_ok d x y : od_opcode d = OpAlloc -> wf (mkOp d [x; y]) -> safe (mkOp d [x; y]) ->
  visited (mkOp d [x; y]) (visitAllocOp fold (mkOp d [x; y]) x y).
Proof using IH Hn.
  intros Hd Hwf Hs. unfold visitAllocOp. destruct (as_ConstantInt x) as [a|] eqn:Ea; [|by apply visited_refl].
  unfold safe, op_opcode in Hs. cbn in Hs. rewrite Hd in Hs. specialize (Hs a Ea).
  inversion Hwf as [? ? Hf Hok]; subst. rewrite !Forall_cons in Hf. destruct Hf as (Hx & Hy & _).
  apply as_ConstantInt_inv in Ea as (Hw & Wa & _ & _ & Da); [|done].
  unfold node_ok in Hok. rewrite Hd in Hok. destruct Hok as (w & _ & Ht & Tx & Ty).
  rewrite Tx in Wa. injection Wa as ->. rewrite getLimitedValue_spec.
  pose proof (APInt_range a). unfold SIZE_MAX.
  case_match eqn:Hlim; [|by apply visited_refl]. apply Z.ltb_lt in Hlim. rewrite Z.min_l by lia.
  unfold FixedArray_Create_fill. rewrite Tx.
  destruct (FixedArray_Create_ok (getBitWidth a) (replicate (Z.to_nat (getZExtValue a)) y))
    as (r & -> & Hr & Tr & Dr); [done|by apply Forall_replicate|by apply Forall_replicate|..].
  { rewrite length_replicate, Z2Nat.id by lia. apply ilog2_bound; destruct Hw; lia. }
  apply visited_ok. split_and!; [done|by rewrite Tr|]. intros e v Ev. apply Dr. rewrite <- Ev.
  rewrite denote_fixed, !fmap_replicate by done. cbn [denote fmap list_fmap]. unfold denote_node at 1.
  rewrite Hd, Da. by destruct (denote e y).
Qed.

(** An access to a fixed array at a constant index in range. *)
Lemma fixed_lookup e (l : list Operation) (k : nat) x a :
  l !! k = Some x -> mjoin ((den_byte <$> (denote e <$> l)) !! k) = Some a ->
  denote e x = Some (DInt a).
Proof.
  intros Hk. rewrite !list_lookup_fmap, Hk. cbn.
  destruct (denote e x) as [[]|]; cbn; try done. by intros [= ->].
Qed.

Lemma visitStoreOp_ok d x i y : od_opcode d = OpStore -> wf (mkOp d [x; i; y]) ->
  safe (mkOp d [x; i; y]) -> visited (mkOp d [x; i; y]) (visitStoreOp fold (mkOp d [x; i; y]) x i y).
Proof using IH Hn.
  intros Hd Hwf Hs. unfold visitStoreOp. destruct (as_ConstantInt i) as [a|] eqn:Ea; [|by apply visited_refl].
  case_bool_decide as Hfix; [|by apply visited_refl].
  unfold safe, op_opcode in Hs. cbn in Hs. rewrite Hd in Hs. specialize (Hs a Ea Hfix).
  inversion Hwf as [? ? Hf Hok]; subst. rewrite !Forall_cons in Hf. destruct Hf as (Hx & Hi & Hy & _).
  apply as_ConstantInt_inv in Ea as (Hw & Wa & _ & _ & Da); [|done].
  unfold node_ok in Hok. rewrite Hd in Hok. destruct Hok as (w & _ & Ht & Tx & Ti & Ty).
  rewrite Ti in Wa. injection Wa as ->. pose proof (getZExtValue_nonneg a).
  rewrite getLimitedValue_spec, Z.min_l by lia. rewrite (proj2 (Nat.ltb_lt _ _)) by lia. cbn.
  destruct x as [dx l]. unfold op_opcode in Hfix. cbn in Hfix, Hs. cbn [op_operands].
  inversion Hx as [? ? Hl Hokx]; subst. unfold node_ok in Hokx. rewrite Hfix in Hokx.
  destruct Hokx as (w' & _ & Tdx & Hbytes & Hlog). unfold op_type in Tx. cbn in Tx. rewrite Tdx in Tx.
  injection Tx as ->. rewrite Ti.
  destruct (FixedArray_Create_ok (getBitWidth a) (<[Z.to_nat (getZExtValue a) := y]> l))
    as (r & -> & Hr & Tr & Dr); [done|by apply Forall_insert|by apply Forall_insert|by rewrite length_insert|].
  apply visited_ok. split_and!; [done|by rewrite Tr|]. intros e v Ev. apply Dr. rewrite <- Ev.
  rewrite denote_fixed by done. cbn [denote fmap list_fmap]. unfold denote_node at 1. rewrite Hd, Da.
  change (denote_node e dx (denote e <$> l)) with (denote e (mkOp dx l)). rewrite denote_fixed by done.
  cbn [od_type desc_ aty]. rewrite Tdx. cbn [desc_ aty]. rewrite Z.eqb_refl, !length_fmap.
  rewrite (proj2 (Z.ltb_lt _ _)) by lia. cbn. by rewrite !list_fmap_insert.
Qed.
(** The comparison and the selection of one step of [load_selects]. *)
Lemma CreateICmp_ri_ok c x w i :
  (2 <= n)%nat -> good_width w -> wf x -> op_type x = ity w -> 0 <= i < 2 ^ 63 -> i < 2 ^ w ->
  exists r, CreateICmp_ri fold c x i = Ok r /\ wf r /\ op_type r = ity 1 /\
    forall e a, denote e x = Some (DInt a) ->
      denote e r = Some (den_bool (sem_icmp c w (getZExtValue a) i)).
Proof using IH Hn.
  intros Hn2 Hw Hx Tx Hi Hiw. assert (0 < w) by (destruct Hw; lia). assert (0 <= w) as Hw0 by lia.
  assert (ap_sextOrTrunc (APInt_of 64 i) w = APInt_of w i) as Es.
  { rewrite ap_sextOrTrunc_spec by (rewrite ?APInt_of_width; destruct Hw; lia).
    rewrite APInt_of_width, APInt_of_value, wrap_small by lia. f_equal. unfold sgn.
    change (64 - 1) with 63. by rewrite (proj2 (Z.ltb_lt _ _)) by lia. }
  destruct (ConstantInt_Create_ok n fold IH (APInt_of w i)) as (k & Ek & Hk); [lia|by rewrite APInt_of_width|].
  pose proof (cint_const _ _ Hk) as Dk. destruct Hk as (Hk & Tk & _). cbn in Tk. rewrite APInt_of_width in Tk by done.
  unfold CreateICmp_ri. rewrite Tx, bitwidth_ity. cbn. rewrite Es, Ek. cbn. unfold CreateICmp. rewrite Tk, Tx, ty_eqb_refl.
  unfold build, Operation_ctor. cbn [is_int od_opcode].
  assert (opcode_nargs (opcode_val (OpICmp c)) = 2) as -> by by destruct c. cbn.
  destruct (IH (mkOp (mkData (OpICmp c) type_of_bool NoPayload) [x; k])) as (r & Er & Hr & Tr & Dr).
  - constructor; [by repeat constructor|]. cbn. eauto 10.
  - done.
  - done.
  - exists r. split_and!; try done. intros e a Ea. apply Dr.
    destruct (denote_int e x _ w Hx Tx Ea) as (? & [= <-] & Wa).
    cbn [denote fmap list_fmap]. unfold denote_node. cbn. rewrite Ea, Dk. cbn.
    rewrite APInt_of_width, Wa, Z.eqb_refl, APInt_of_value, wrap_small by (done || lia). done.
Qed.

Lemma SelectOp_Create_ok c x y t :
  wf c -> wf x -> wf y -> op_type c = ity 1 -> op_type x = t -> op_type y = t ->
  exists r, SelectOp_Create fold c x y = Ok r /\ wf r /\ op_type r = t /\
    forall e b, denote e c = Some (den_bool b) ->
    forall v, denote e (if b then x else y) = Some v -> denote e r = Some v.
Proof using IH Hn.
  intros Hc Hx Hy Tc Tx Ty. unfold SelectOp_Create. rewrite int_ty_good by done. cbn.
  rewrite Tc, Tx, Ty, !ty_eqb_refl. cbn.
  destruct (IH (mkOp (mkData OpSelect t NoPayload) [c; x; y])) as (r & Er & Hr & Tr & Dr).
  - constructor; [by repeat constructor|]. done.
  - done.
  - done.
  - exists r. split_and!; try done. intros e b Eb v Ev. apply Dr.
    cbn [denote fmap list_fmap]. unfold denote_node. cbn. rewrite Eb. cbn.
    rewrite APInt_of_value by lia.
    destruct b; cbn; rewrite Ev; by destruct (denote e x), (denote e y).
Qed.

(** The chain of selects reads the element at the offset. *)
Lemma load_selects_ok offset w data i output :
  (2 <= n)%nat -> good_width w -> wf offset -> op_type offset = ity w ->
  Forall wf data -> Forall (fun x => op_type x = ity 8) data ->
  wf output -> op_type output = ity 8 ->
  0 <= i -> i + Z.of_nat (length data) <= 2 ^ 63 -> i + Z.of_nat (length data) <= 2 ^ w ->
  exists r, load_selects fold offset data i output = Ok r /\ wf r /\ op_type r = ity 8 /\
    forall e a v, denote e offset = Some (DInt a) ->
    (if (i <=? getZExtValue a) && (getZExtValue a <? i + Z.of_nat (length data))
     then data !! Z.to_nat (getZExtValue a - i) ≫= denote e else denote e output) = Some v ->
    denote e r = Some v.
Proof using IH Hn.
  intros Hn2 Hw Hoff Toff. revert i output.
  induction data as [|x data IHd]; intros i output Hd Td Ho To Hi H63 Hiw.
  { exists output. split_and!; try done. intros e a v _. cbn. rewrite Z.add_0_r.
    destruct (Z.leb_spec i (getZExtValue a)), (Z.ltb_spec (getZExtValue a) i); try done; lia. }
  inversion_clear Hd. inversion_clear Td. cbn [length] in *. cbn [load_selects].
  destruct (CreateICmp_ri_ok EQ offset w i) as (c & -> & Hc & Tc & Dc); try done; [lia..|]. cbn.
  destruct (SelectOp_Create_ok c x output (ity 8)) as (o & -> & Ho' & To' & Do); try done. cbn.
  destruct (IHd (i + 1) o) as (r & -> & Hr & Tr & Dr); try done; [lia..|].
  exists r. split_and!; try done. intros e a v Ea Ev. apply (Dr e a v Ea).
  specialize (Do e _ (Dc e a Ea)). cbn in Do.
  destruct (Z.eqb_spec (getZExtValue a) i) as [E|E].
  - subst i. rewrite Z.leb_refl, (proj2 (Z.ltb_lt _ _)), Z.sub_diag in Ev by lia. cbn in Ev.
    rewrite (proj2 (Z.leb_gt (getZExtValue a + 1) _)) by lia. by apply Do.
  - replace (i + 1 <=? getZExtValue a) with (i <=? getZExtValue a)
      by (destruct (Z.leb_spec i (getZExtValue a)), (Z.leb_spec (i + 1) (getZExtValue a)); done || lia).
    replace (i + 1 + Z.of_nat (length data)) with (i + Z.of_nat (S (length data))) by lia.
    case_match eqn:Hb; [|by apply Do]. apply andb_true_iff in Hb as [Hb1%Z.leb_le _].
    replace (Z.to_nat (getZExtValue a - i)) with (S (Z.to_nat (getZExtValue a - (i + 1)))) in Ev by lia.
    done.
Qed.

Lemma visitLoadOp_ok d x i : (2 <= n)%nat -> od_opcode d = OpLoad -> wf (mkOp d [x; i]) ->
  safe (mkOp d [x; i]) -> visited (mkOp d [x; i]) (visitLoadOp fold (mkOp d [x; i]) x i).
Proof using IH Hn.
  intros Hn2 Hd Hwf Hs. unfold visitLoadOp. case_bool_decide as Hfix; [|by apply visited_refl].
  inversion Hwf as [? ? Hf Hok]; subst. rewrite !Forall_cons in Hf. destruct Hf as (Hx & Hi & _).
  unfold node_ok in Hok. rewrite Hd in Hok. destruct Hok as (w & Hw & Ht & Tx & Ti).
  destruct x as [dx l]. pose proof Hfix as Hfix'. unfold op_opcode in Hfix'. cbn in Hfix'. cbn [op_operands].
  inversion Hx as [? ? Hl Hokx]; subst. unfold node_ok in Hokx. rewrite Hfix' in Hokx.
  destruct Hokx as (w' & _ & Tdx & Hbytes & Hlog). unfold op_type in Tx. cbn in Tx. rewrite Tdx in Tx.
  injection Tx as ->.
  assert (forall e v, denote e (mkOp d [mkOp dx l; i]) = Some v -> exists a,
    denote e i = Some (DInt a) /\ getZExtValue a < Z.of_nat (length l) /\
    l !! Z.to_nat (getZExtValue a) ≫= denote e = Some v) as Hden.
  { intros e v. cbn [denote fmap list_fmap]. unfold denote_node at 1. rewrite Hd.
    change (denote_node e dx (denote e <$> l)) with (denote e (mkOp dx l)). rewrite denote_fixed by done.
    destruct (denote e i) as [u|] eqn:Eu; [|done].
    destruct (denote_int e i _ w Hi Ti Eu) as (a & -> & Wa). case_match; [|done].
    intros E. apply fmap_Some in E as (b & E & ->). exists a. split; [done|].
    destruct (l !! Z.to_nat (getZExtValue a)) as [x|] eqn:El.
    - apply lookup_lt_Some in El as Hlt. pose proof (getZExtValue_nonneg a). split; [lia|].
      cbn. by eapply fixed_lookup.
    - rewrite !list_lookup_fmap, El in E. done. }
  destruct (as_ConstantInt i) as [a|] eqn:Ea.
  - unfold safe, op_opcode in Hs. cbn in Hs. rewrite Hd in Hs. specialize (Hs a Ea Hfix). cbn in Hs.
    apply as_ConstantInt_inv in Ea as (_ & _ & _ & _ & Da); [|done]. pose proof (getZExtValue_nonneg a).
    rewrite getLimitedValue_spec, Z.min_l by lia.
    destruct (lookup_lt_is_Some_2 l (Z.to_nat (getZExtValue a))) as [r Er]; [lia|]. rewrite Er. cbn.
    apply visited_ok. rewrite Forall_lookup in Hl, Hbytes.
    split_and!; [by eapply Hl|by unfold op_type at 2; cbn; rewrite Ht; eapply Hbytes|].
    intros e v Ev. apply Hden in Ev as (a' & Ea' & _ & Ev). rewrite Da in Ea'. injection Ea' as <-.
    by rewrite Er in Ev.
  - case_match eqn:Hsz; [|by apply visited_refl]. apply Z.ltb_lt in Hsz. unfold num_operands in Hsz. cbn in Hsz.
    rewrite int_ty_good by done. cbn.
    destruct (Undef_Create_ok n fold IH (ity 8)) as (u & -> & Hu & Tu); [done|]. cbn.
    destruct (load_selects_ok i w l 0 u) as (r & -> & Hr & Tr & Dr); try done; [lia| |].
    { destruct (decide (length l = 0%nat)) as [->|]; [cbn; by apply Z.pow_nonneg|].
      rewrite Z.add_0_l. apply ilog2_capacity; destruct Hw; lia. }
    apply visited_ok. split_and!; [done|by unfold op_type at 2; cbn; rewrite Ht|].
    intros e v Ev. apply Hden in Ev as (a & Ea' & Hlt & Ev). apply (Dr e a v Ea').
    pose proof (getZExtValue_nonneg a).
    rewrite (proj2 (Z.leb_le _ _)), (proj2 (Z.ltb_lt _ _)), Z.sub_0_r by lia. done.
Qed.
End visits.

(** ** The simplifier *)
Lemma constant_fold_leaf n : IMPLICIT_CONSTANT_FOLDING = true -> folds_to_leaf (constant_fold n).
Proof.
  intros Hcfg.
  assert (forall n a r, ConstantInt_Create (constant_fold n) a = Ok r -> op_size r = 1%nat) as Hc.
  { clear n. intros n a r. unfold ConstantInt_Create, ConstantIntData, build, Operation_ctor. intros E.
    inv_ok. subst. destruct n; [done|]. cbn in E. unfold visit in E. rewrite Hcfg in E.
    cbn in E. by injection E as <-. }
  split; [apply Hc|]. intros o x y r Ho [a Ea] [b Eb] Sx Sy.
  unfold IntOp_Create, BinaryOp_Create, build, Operation_ctor. intros E. inv_ok. subst.
  destruct n as [|n]; [done|]. cbn in E. unfold visit in E. rewrite Hcfg in E.
  destruct Ho as [->|[->| ->]]; cbn in E;
    unfold visitAnd, visitOr, visitShl, TRY_CONST_INT, const_ints in E; rewrite Ea, Eb in E;
    repeat case_match; inv_ok; subst; eauto.
Qed.

Lemma visit_dispatch_ok n fold op :
  fold_spec n fold -> folds_to_leaf fold -> wf op -> safe op -> (weight op <= S n)%nat ->
  visited op (visit_dispatch fold op).
Proof.
  intros IH HL Hwf Hs Hwt. destruct op as [d l]. pose proof Hwf as Hwf'.
  inversion Hwf' as [? ? _ Hok]; subst. unfold node_ok in Hok.
  unfold visit_dispatch, op_opcode at 1. cbn [op_data].
  destruct (od_opcode d) eqn:Ho; try (by apply visited_refl); try (node_shape l Hok);
    unfold with_operand, with_operands2, with_operands3, operand_at; cbn;
    try (assert (1 <= n)%nat by (unfold weight, op_opcode in Hwt; cbn in Hwt; rewrite Ho in Hwt; cbn in Hwt; lia)).
  all: try (by apply visitFRem_ok). all: try (by apply (visitFCmp_ok n)).
  all: try (by apply (visitAdd_ok n)). all: try (by apply (visitSub_ok n)).
  all: try (by apply (visitMul_ok n)). all: try (by apply (visitUDiv_ok n)).
  all: try (by apply (visitSDiv_ok n)). all: try (by apply (visitURem_ok n)).
  all: try (by apply (visitSRem_ok n)). all: try (by apply (visitAnd_ok n)).
  all: try (by apply (visitOr_ok n)). all: try (by apply (visitXor_ok n)).
  all: try (by apply (visitShl_ok n)). all: try (by apply (visitLShr_ok n)).
  all: try (by apply (visitAShr_ok n)). all: try (by apply (visitICmp_ok n)).
  all: try (by apply (visitNot_ok n)). all: try (by apply (visitTrunc_ok n)).
  all: try (by apply (visitZExt_ok n)). all: try (by apply (visitSExt_ok n)).
  all: try (by apply (visitFIsNaN_ok n)). all: try (by apply visitBitcast_ok).
  all: try (by apply visitSelectOp_ok). all: try (by apply (visitAllocOp_ok n)).
  all: try (by apply (visitStoreOp_ok n)).
  all: try (apply (visitFloat_ok n); rewrite ?Ho; auto using fl_add_sem, fl_sub_sem, fl_mul_sem, fl_div_sem; set_solver).
  apply (visitLoadOp_ok n); try done. unfold weight, op_opcode in Hwt. cbn in Hwt. rewrite Ho in Hwt. lia.
Qed.

Lemma weight_pos op : (1 <= weight op)%nat.
Proof. unfold weight. case_match; lia. Qed.
Lemma weight_bound op : (weight op <= op_size op + 3)%nat.
Proof. unfold weight. case_match; lia. Qed.

Lemma constant_fold_spec n : fold_spec n (constant_fold n).
Proof.
  induction n as [|n IHn]; intros op Hwf Hs Hwt; [pose proof (weight_pos op); lia|].
  cbn [constant_fold]. unfold visit. destruct IMPLICIT_CONSTANT_FOLDING eqn:Hcfg.
  - apply (visit_dispatch_ok n); auto using constant_fold_leaf.
  - by apply visited_refl.
Qed.

Lemma simplify_spec n : fold_spec n simplify.
Proof.
  intros op Hwf Hs _. apply constant_fold_spec; auto using weight_bound.
Qed.

(** ** Floating-point comparison *)
Lemma simplify_visit op : exists n, (1 <= n)%nat /\ simplify op = visit (constant_fold n) op.
Proof. exists (op_size op + 2)%nat. split; [lia|]. unfold simplify. by rewrite Nat.add_succ_r. Qed.
Lemma sem_fcmp_refl c f : isNaN f = false ->
  sem_fcmp c f f = match c with FEQ | FLE | FGE => true | _ => false end.
Proof. intros Hf. unfold sem_fcmp. by rewrite fl_compare_refl; destruct c. Qed.
(** The fold of any comparison is right where the left operand is not NaN. *)
Lemma simplify_fcmp d c x y :
  od_opcode d = OpFCmp c -> wf (mkOp d [x; y]) ->
  exists r, simplify (mkOp d [x; y]) = Ok r /\ wf r /\ op_type r = od_type d /\
    forall e f v, denote e x = Some (DFloat f) -> isNaN f = false -> denote e (mkOp d [x; y]) = Some v -> denote e r = Some v.
Proof.
  intros Hd Hwf.
  assert (forall r, simplify (mkOp d [x; y]) = Ok r -> refines (mkOp d [x; y]) r -> exists r, simplify (mkOp d [x; y]) = Ok r /\ wf r /\ op_type r = od_type d /\
    forall e f v, denote e x = Some (DFloat f) -> isNaN f = false -> denote e (mkOp d [x; y]) = Some v -> denote e r = Some v) as Hany.
  { intros r Er (Wr & Tr & Dr). exists r. split_and!; [done|done|done|]. intros e f v _ _ Hv. by apply Dr. }
  destruct IMPLICIT_CONSTANT_FOLDING eqn:Hcfg.
  2: { apply (Hany (mkOp d [x; y])); [|by split_and!]. destruct (simplify_visit (mkOp d [x; y])) as (n & _ & ->). unfold visit. by rewrite Hcfg. }
  assert (safe (mkOp d [x; y]) -> exists r, simplify (mkOp d [x; y]) = Ok r /\ refines (mkOp d [x; y]) r) as Hsafe.
  { intros Hs. by apply (simplify_spec (weight (mkOp d [x; y]))). }
  unfold safe, op_opcode in Hsafe. cbn [op_data op_operands] in Hsafe. rewrite Hd in Hsafe.
  destruct (const_floats x y) eqn:Ec; [destruct Hsafe as (r & ? & ?); [done|by apply (Hany r)]|].
  destruct (ptr_eq x y) eqn:Ep; [|destruct Hsafe as (r & ? & ?); [done|by apply (Hany r)]].
  apply ptr_eq_sound in Ep as Exy. subst y. clear Hsafe Hany.
  destruct (simplify_visit (mkOp d [x; x])) as (n & Hn & ->). unfold visit. rewrite Hcfg. unfold visit_dispatch, op_opcode. cbn [op_data]. rewrite Hd.
  unfold with_operands2, operand_at. cbn. unfold visitFCmp, TRY_CONST_FLOAT. rewrite Ec, Ep.
  destruct (ConstantInt_Create_bool_ok n (constant_fold n) (constant_fold_spec n) (match c with FEQ | FLE | FGE => true | _ => false end) Hn)
    as (r & Er & Wr & Tr & Dr). inversion Hwf as [? ? _ Hok]; subst. unfold node_ok in Hok. rewrite Hd in Hok. destruct Hok as [Ht _].
  exists r. split_and!; [done|done|by rewrite Tr, Ht|]. intros e f v Ex Hf. cbn. unfold denote_node. rewrite Hd, Ex. intros [= <-].
  by rewrite Dr, sem_fcmp_refl.
Qed.
End sound.
