(* ===== verification/Folding.v ===== *)
(** The contract of constant folding, and the places where the code departs
    from it.

    The theorems of this file are about [simplify], the simplifier as every
    constructor calls it, and about the constructors of integer operations
    through which the interpreter builds expressions. *)
From S2P Require Import Prelude LLVM IRType Value Opcode Operation Matching Create Semantics.
From S2P Require Import Simplifier SimplifierInt SimplifierSound.
Open Scope Z_scope.

Section folding.
Context `{PtrEq} `{MathExtrasAPI} `{Config}.

(** C1: Constant folding is total and sound on safe nodes.  A well-formed node is
    safe ([safe]) unless it is an allocation of the constant size 0, an access
    to a fixed array at a constant index out of range, the remainder of two
    floating-point constants, or the floating-point comparison of a
    non-constant operand with the very same operand: on these four the fold
    fails or is wrong, as alloc_zero_aborts, frem_fold_is_status and
    fcmp_self_nan show.  On every other well-formed node, with as many nested
    calls as the node has sub-expressions (plus three) or more, the simplifier
    returns a node, and that node is well-formed, has the type of the node it
    replaces and has its value in every environment where it has one. *)
Theorem simplify_correct op fuel :
  wf op -> safe op -> (op_size op + 3 <= fuel)%nat ->
  exists r, constant_fold fuel op = Ok r /\ wf r /\ op_type r = op_type op /\
    forall e v, denote e op = Some v -> denote e r = Some v.
Proof.
  intros Hwf Hs Hf. apply constant_fold_spec; [done|done|].
  pose proof (weight_bound op). lia.
Qed.

(** Building an integer operation from well-formed operands of one type
    always succeeds, and the expression it returns computes the operation
    modulo the width, whatever the simplifier rewrote it to. *)
Theorem int_create_correct o x y w :
  int_binop o = true -> good_width w -> wf x -> wf y -> op_type x = ity w -> op_type y = ity w ->
  exists r, IntOp_Create simplify o x y = Ok r /\ wf r /\ op_type r = ity w /\
    forall e a b z, denote e x = Some (DInt a) -> denote e y = Some (DInt b) ->
      sem_int o w (getZExtValue a) (getZExtValue b) = Some z ->
      denote e r = Some (DInt (APInt_of w z)).
Proof.
  intros Ho Hw Hx Hy Tx Ty.
  exact (IntOp_Create_value _ simplify (simplify_spec _) o w x y Ho Hw Hx Hy Tx Ty (le_n _)).
Qed.

(** ** Floating-point comparison *)
Definition fcmp (c : FCmpOpcode) (x y : Operation) : Operation :=
  mkOp (mkData (OpFCmp c) bool_ty NoPayload) [x; y].

Lemma denote_fcmp e c x y f g :
  denote e x = Some (DFloat f) -> denote e y = Some (DFloat g) ->
  denote e (fcmp c x y) = Some (den_bool (sem_fcmp c f g)).
Proof. intros Ex Ey. cbn. unfold denote_node. cbn. by rewrite Ex, Ey. Qed.

Lemma fold_bool n b :
  (1 <= n)%nat -> exists r, ConstantInt_Create_bool (constant_fold n) b = Ok r /\
    forall e, denote e r = Some (den_bool b).
Proof.
  intros Hn. destruct (ConstantInt_Create_bool_ok n (constant_fold n) (constant_fold_spec n) b Hn)
    as (r & E & _ & _ & Hd). eauto.
Qed.

(** Folding a floating-point comparison is sound in every environment in
    which its left operand is not NaN. *)
Theorem fcmp_fold_sound c x y e f g :
  wf x -> wf y -> is_float (op_type x) = true -> op_type x = op_type y ->
  denote e x = Some (DFloat f) -> denote e y = Some (DFloat g) -> isNaN f = false ->
  exists r, simplify (fcmp c x y) = Ok r /\ denote e r = denote e (fcmp c x y).
Proof.
  intros Hx Hy Tx Txy Ex Ey Hf. destruct (simplify_fcmp (mkData (OpFCmp c) bool_ty NoPayload) c x y) as (r & Er & _ & _ & Hr); [done| |].
  { constructor; [by repeat constructor|done]. }
  exists r. split; [exact Er|]. rewrite (denote_fcmp e c x y f g) by done. apply (Hr e f); [done|done|]. by apply (denote_fcmp e c x y f g).
Qed.
(** The simplifier folds the comparison of a symbolic float with itself to
    a constant; where the float is NaN the constant differs from the value of
    the comparison for the six predicates' reflexive half: equal,
    less-or-equal and greater-or-equal become true although IEEE 754 makes them
    false. *)
Theorem fcmp_self_nan c x e f :
  IMPLICIT_CONSTANT_FOLDING = true -> ptr_eq x x = true -> as_ConstantFloat x = None ->
  c ∈ [FEQ; FLE; FGE] -> denote e x = Some (DFloat f) -> isNaN f = true ->
  denote e (fcmp c x x) = Some (den_bool false) /\
  exists r, simplify (fcmp c x x) = Ok r /\ denote e r = Some (den_bool true).
Proof.
  intros Hcfg Hp Hx Hc Ex Hf. split.
  { rewrite (denote_fcmp e c x x f f) by done. unfold sem_fcmp. rewrite fl_compare_nan by auto.
    destruct c; try done; set_solver. }
  destruct (simplify_visit (fcmp c x x)) as (n & Hn & ->). unfold visit. rewrite Hcfg.
  cbn [visit_dispatch fcmp op_opcode op_data od_opcode]. unfold with_operands2, operand_at. cbn.
  unfold visitFCmp, TRY_CONST_FLOAT, const_floats. rewrite Hx, Hp.
  destruct (fold_bool n true) as (r & Er & Dr); [done|]. exists r. split; [|done]. rewrite <- Er.
  destruct c; try done; set_solver.
Qed.

(** ** Floating-point remainder *)
Definition fconst (f : APFloat) (t : Ty) : Operation := mkOp (mkData OpConstantFloat t (PFloat f)) [].
Definition frem_node (t : Ty) (f g : APFloat) : Operation :=
  mkOp (mkData OpFRem t NoPayload) [fconst f t; fconst g t].

(** The fold of a floating-point remainder of constants is the double whose
    value is the status code of the operation, whatever the operands are: it
    is not the remainder, and it is a double also for operands of another
    format. *)
Theorem frem_fold_is_status t f g :
  IMPLICIT_CONSTANT_FOLDING = true ->
  exists u, type_of_apfloat (APFloat_of_double (fl_remainder f g).2) = Ok u /\
    simplify (frem_node t f g) = Ok (fconst (APFloat_of_double (fl_remainder f g).2) u).
Proof.
  intros Hcfg. set (k := APFloat_of_double _).
  assert (is_ok (type_of_apfloat k) = true) as Hk.
  { unfold type_of_apfloat. subst k. rewrite APFloat_of_double_sem, semanticsPrecision_spec, semanticsSizeInBits_spec.
    by vm_compute. }
  destruct (type_of_apfloat k) as [u|] eqn:Ek; [|done]. exists u. split; [done|].
  destruct (simplify_visit (frem_node t f g)) as (n & Hn & ->). unfold visit. rewrite Hcfg. cbn.
  unfold ConstantFloat_Create_double, ConstantFloat_Create, ConstantFloatData. fold k. rewrite Ek. cbn.
  destruct n; [lia|]. cbn. unfold visit. by rewrite Hcfg.
Qed.

(** ** Empty allocations *)
Definition alloc_node (w : Z) (size byte : Operation) : Operation :=
  mkOp (mkData OpAlloc (aty w) NoPayload) [size; byte].

(** Folding an allocation of constant size zero fails an assertion, because
    the logarithm of the size wraps around to 2^64 - 1. *)
Theorem alloc_zero_aborts w byte :
  IMPLICIT_CONSTANT_FOLDING = true -> good_width w ->
  ilog2 0 = 2 ^ 64 - 1 /\ simplify (alloc_node w (cint (APInt_of w 0)) byte) = Err AssertFailed.
Proof.
  intros Hcfg Hw. assert (0 < w < 2 ^ 24) as [Hw0 Hw1] by (destruct Hw; lia).
  assert (ilog2 0 = 2 ^ 64 - 1) as E by (unfold ilog2; rewrite countLeadingZeros_0; reflexivity).
  split; [done|]. destruct (simplify_visit (alloc_node w (cint (APInt_of w 0)) byte)) as (n & Hn & ->).
  unfold visit. rewrite Hcfg. cbn [visit_dispatch alloc_node op_opcode op_data od_opcode].
  unfold with_operands2, operand_at. cbn. unfold visitAllocOp. cbn.
  rewrite getLimitedValue_spec, APInt_of_value, wrap_small by (done || lia).
  change (0 `min` SIZE_MAX) with 0. change (0 <? SIZE_MAX) with true. cbn iota.
  unfold FixedArray_Create_fill, FixedArray_Create, op_type. cbn [cint op_data od_type].
  rewrite bitwidth_ity. change (Z.of_nat (length (replicate (Z.to_nat 0) byte))) with 0.
  rewrite E, APInt_of_width by done. cbn. rewrite (proj2 (Z.leb_gt _ _)) by lia. done.
Qed.
End folding.

(** ** Concrete instances *)
Module witness.
#[local] Instance on : Config := {| IMPLICIT_CONSTANT_FOLDING := true |}.

(** (and (lshr x 4) 15) on bytes, with [x] a symbol. *)
Definition x8 : Operation := mkOp (mkData OpConstantNamed (ity 8) (PSymbol (Named "x"))) [].
Definition c8 (z : Z) : Operation := cint (APInt_of 8 z).
Definition nibble : Operation := bin OpAnd 8 (bin OpLShr 8 x8 (c8 4)) (c8 15).
Definition envx (v : Den) : Env := {|
  env_symbol := fun _ => v; env_array := fun _ _ => v; env_node := fun _ => Some v |}.

Lemma x8_wf : wf x8.
Proof. constructor; [done|]. cbn. eauto. Qed.
Lemma c8_wf z : wf (c8 z).
Proof. apply cint_wf. by rewrite APInt_of_width. Qed.
Lemma nibble_wf : wf nibble.
Proof.
  repeat first [apply x8_wf | apply c8_wf | eapply (wf_int_op _ 8); try reflexivity; try done].
Qed.
(** The simplifier moves the mask under the shift. *)
Lemma nibble_folded :
  constant_fold 10 nibble = Ok (bin OpLShr 8 (bin OpAnd 8 x8 (c8 240)) (c8 4)).
Proof. vm_decide. Qed.

Lemma simplify_correct_witness :
  exists r, constant_fold 10 nibble = Ok r /\ wf r /\ op_type r = op_type nibble /\
    forall e v, denote e nibble = Some v -> denote e r = Some v.
Proof. apply (simplify_correct nibble 10); [apply nibble_wf|exact I|vm_compute; lia]. Defined.

Lemma int_create_correct_witness :
  exists r, IntOp_Create simplify OpAdd x8 (c8 3) = Ok r /\
    denote (envx (DInt (APInt_of 8 254))) r = Some (DInt (APInt_of 8 257)).
Proof.
  destruct (int_create_correct OpAdd x8 (c8 3) 8) as (r & E & _ & _ & D);
    [reflexivity|split; reflexivity|apply x8_wf|apply c8_wf|reflexivity|reflexivity|].
  exists r. split; [exact E|].
  apply (D _ (APInt_of 8 254) (APInt_of 8 3) 257); vm_decide.
Defined.

(** A symbolic double, and the bit patterns of 1.0 and of a NaN. *)
Definition f64 : Ty := Eval vm_compute in
  match float_ty 11 53 with Ok t => t | Err _ => void_ty end.
Definition xd : Operation := mkOp (mkData OpConstantNamed f64 (PSymbol (Named "d"))) [].
Definition one_d : APFloat := APFloat_of_bits IEEEdouble (APInt_of 64 0x3FF0000000000000).
Definition nan_d : APFloat := APFloat_of_bits IEEEdouble (APInt_of 64 0x7FF8000000000000).

Lemma xd_wf : wf xd.
Proof. constructor; [done|]. cbn. eauto. Qed.

Lemma fcmp_fold_sound_witness :
  exists r, simplify (fcmp FLE xd xd) = Ok r /\
    denote (envx (DFloat one_d)) r = denote (envx (DFloat one_d)) (fcmp FLE xd xd).
Proof.
  apply (fcmp_fold_sound FLE xd xd (envx (DFloat one_d)) one_d one_d);
    [apply xd_wf|apply xd_wf|vm_decide|reflexivity|vm_decide..].
Defined.

Lemma fcmp_self_nan_witness :
  denote (envx (DFloat nan_d)) (fcmp FEQ xd xd) = Some (den_bool false) /\
  exists r, simplify (fcmp FEQ xd xd) = Ok r /\
    denote (envx (DFloat nan_d)) r = Some (den_bool true).
Proof.
  apply (fcmp_self_nan FEQ xd (envx (DFloat nan_d)) nan_d);
    [reflexivity|apply bool_decide_eq_true; reflexivity|reflexivity|vm_decide
    |vm_decide|vm_decide].
Defined.

Lemma frem_fold_is_status_witness :
  exists u, type_of_apfloat (APFloat_of_double (fl_remainder one_d one_d).2) = Ok u /\
    simplify (frem_node f64 one_d one_d) = Ok (fconst (APFloat_of_double (fl_remainder one_d one_d).2) u).
Proof. apply (frem_fold_is_status f64 one_d one_d). reflexivity. Defined.

Lemma alloc_zero_aborts_witness :
  ilog2 0 = 2 ^ 64 - 1 /\
  simplify (alloc_node 32 (cint (APInt_of 32 0)) (c8 0)) = Err AssertFailed.
Proof. apply (alloc_zero_aborts 32 (c8 0)); [reflexivity|split; reflexivity]. Defined.
End witness.
