(* ===== verification/Overflow.v ===== *)
(** Overflow detection circuits: [BinaryOp::CreateUMulOverflow] and
    [BinaryOp::CreateSMulOverflow] (src/IR/Operation.cpp), as the constructors
    build them through the simplifier. *)
From S2P Require Import Prelude LLVM IRType Value Opcode Operation Matching Create Semantics.
From S2P Require Import Simplifier SimplifierInt SimplifierSound.
Open Scope Z_scope.

Section overflow.
Context `{PtrEq} `{MathExtrasAPI} `{Config}.

(** ** The constructors the circuits use *)
Lemma simplify_ok op : wf op -> safe op -> exists r, simplify op = Ok r /\ refines op r.
Proof. intros. by apply (simplify_spec (weight op)). Qed.

Lemma simplify_int o w x y :
  int_binop o = true -> good_width w -> wf x -> wf y -> op_type x = ity w -> op_type y = ity w ->
  exists r, IntOp_Create simplify o x y = Ok r /\ wf r /\ op_type r = ity w /\
    forall e a b z, denote e x = Some (DInt a) -> denote e y = Some (DInt b) ->
      sem_int o w (getZExtValue a) (getZExtValue b) = Some z ->
      denote e r = Some (DInt (APInt_of w z)).
Proof. intros. eapply (IntOp_Create_value _ simplify (simplify_spec _)); eauto. Qed.

Lemma simplify_int_ri o w x k :
  int_binop o = true -> good_width w -> wf x -> op_type x = ity w ->
  exists r, IntOp_Create_ri simplify o x k = Ok r /\ wf r /\ op_type r = ity w /\
    forall e a z, denote e x = Some (DInt a) ->
      sem_int o w (getZExtValue a) (wrap w k) = Some z -> denote e r = Some (DInt (APInt_of w z)).
Proof.
  intros Ho Hw Hx Tx. assert (0 < w) by (destruct Hw; lia). assert (0 <= w) by lia. unfold IntOp_Create_ri.
  rewrite Tx, bitwidth_ity. cbn.
  destruct (ConstantInt_Create_ok 1 simplify (simplify_spec 1) (APInt_of w k)) as (c & -> & Hc);
    [done|by rewrite APInt_of_width|]. cbn.
  pose proof (cint_const _ _ Hc) as Dc. destruct Hc as (Hc & Tc & _). cbn in Tc.
  rewrite APInt_of_width in Tc by done.
  destruct (simplify_int o w x c) as (r & -> & Hr & Tr & Dr); try done.
  exists r. split_and!; try done. intros e a z Ea Ez. apply (Dr e a (APInt_of w k)); [done..|].
  by rewrite APInt_of_value.
Qed.

(** A conversion of width. *)
Lemma simplify_convert o w w' x :
  o = OpTrunc /\ w <= w' \/ (o = OpZExt \/ o = OpSExt) /\ w' <= w ->
  good_width w -> good_width w' -> wf x -> op_type x = ity w' ->
  exists r, UnaryOp_Create simplify o x (ity w) = Ok r /\ wf r /\ op_type r = ity w /\
    forall e a, denote e x = Some (DInt a) ->
      denote e r = Some (DInt (APInt_of w
        (match o with OpSExt => sgn w' (getZExtValue a) | _ => getZExtValue a end))).
Proof.
  intros Ho Hw Hw' Hx Tx. unfold UnaryOp_Create, build, Operation_ctor.
  destruct (simplify_ok (mkOp (mkData o (ity w) NoPayload) [x])) as (r & Er & Hr & Tr & Dr).
  - constructor; [by repeat constructor|]. unfold node_ok. cbn.
    destruct Ho as [[-> ?]|[[-> | ->] ?]]; exists w, w'; done.
  - by destruct Ho as [[-> ?]|[[-> | ->] ?]].
  - exists r. split_and!; try done.
    + destruct Ho as [[-> ?]|[[-> | ->] ?]]; exact Er.
    + intros e a Ea. apply Dr. destruct (denote_int e x _ w' Hx Tx Ea) as (? & [= <-] & Wa).
      cbn. unfold denote_node. cbn. rewrite Ea.
      destruct Ho as [[-> ?]|[[-> | ->] ?]]; cbn; by rewrite ?Wa.
Qed.

(** ** One-bit expressions over two operands *)
Section circuit.
Context (a b : Operation) (w : Z).
Context (Hw : good_width w) (Ha : wf a) (Hb : wf b) (Ta : op_type a = ity w) (Tb : op_type b = ity w).

(** [r] is true exactly when [P] holds of the operands' values. *)
Definition circuit (r : Operation) (P : Z -> Z -> Prop) : Prop :=
  wf r /\ op_type r = ity 1 /\
  forall e x y, denote e a = Some (DInt x) -> denote e b = Some (DInt y) ->
  exists v, denote e r = Some (den_bool v) /\ (v = true <-> P (getZExtValue x) (getZExtValue y)).

(** A word that both operands determine. *)
Definition word (r : Operation) (w' : Z) (f : Z -> Z -> Z) : Prop :=
  wf r /\ op_type r = ity w' /\
  forall e x y, denote e a = Some (DInt x) -> denote e b = Some (DInt y) ->
  denote e r = Some (DInt (APInt_of w' (f (getZExtValue x) (getZExtValue y)))).

Lemma word_a : word a w (fun x _ => x).
Proof using Ha Ta.
  split_and!; try done. intros e x y Ex _. destruct (denote_int e a _ w Ha Ta Ex) as (? & [= <-] & Wx).
  rewrite Ex. do 2 f_equal. symmetry. apply APInt_of_is; [done|]. by apply wrap_val.
Qed.
Lemma word_b : word b w (fun _ y => y).
Proof using Hb Tb.
  split_and!; try done. intros e x y _ Ey. destruct (denote_int e b _ w Hb Tb Ey) as (? & [= <-] & Wy).
  rewrite Ey. do 2 f_equal. symmetry. apply APInt_of_is; [done|]. by apply wrap_val.
Qed.

Lemma circuit_imp r P Q :
  (forall x y, 0 <= x < 2 ^ w -> 0 <= y < 2 ^ w -> P x y <-> Q x y) -> circuit r P -> circuit r Q.
Proof using Ha Hb Ta Tb.
  intros HPQ (? & ? & Hr). split_and!; try done. intros e x y Ex Ey.
  destruct (Hr e x y Ex Ey) as (v & Ev & Hv). exists v. split; [done|]. rewrite Hv. apply HPQ.
  - destruct (denote_int e a _ w Ha Ta Ex) as (? & [= <-] & Wx). by apply value_range.
  - destruct (denote_int e b _ w Hb Tb Ey) as (? & [= <-] & Wy). by apply value_range.
Qed.

Lemma circuit_bin o f r1 r2 P Q :
  int_binop o = true ->
  (forall u v, sem_int o 1 (Z.b2z u) (Z.b2z v) = Some (Z.b2z (f u v))) ->
  circuit r1 P -> circuit r2 Q ->
  exists r, IntOp_Create simplify o r1 r2 = Ok r /\ wf r /\ op_type r = ity 1 /\
    forall e x y, denote e a = Some (DInt x) -> denote e b = Some (DInt y) ->
    exists u v, denote e r = Some (den_bool (f u v)) /\
      (u = true <-> P (getZExtValue x) (getZExtValue y)) /\
      (v = true <-> Q (getZExtValue x) (getZExtValue y)).
Proof.
  intros Ho Hf (W1 & T1 & D1) (W2 & T2 & D2).
  destruct (simplify_int o 1 r1 r2) as (r & Er & Hr & Tr & Dr); try done.
  exists r. split_and!; try done. intros e x y Ex Ey.
  destruct (D1 e x y Ex Ey) as (u & Eu & Hu), (D2 e x y Ex Ey) as (v & Ev & Hv).
  exists u, v. split_and!; try done. eapply (Dr e _ _ _ Eu Ev).
  rewrite !APInt_of_value, !wrap_small by (destruct u, v; cbn; lia). apply Hf.
Qed.

Lemma circuit_or r1 r2 P Q :
  circuit r1 P -> circuit r2 Q ->
  exists r, CreateOr simplify r1 r2 = Ok r /\ circuit r (fun x y => P x y \/ Q x y).
Proof.
  intros HP HQ. destruct (circuit_bin OpOr orb r1 r2 P Q) as (r & Er & Hr & Tr & Dr); try done.
  { by intros [] []. }
  exists r. split_and!; try done. split_and!; try done. intros e x y Ex Ey.
  destruct (Dr e x y Ex Ey) as (u & v & E & Hu & Hv). exists (u || v). split; [done|].
  by rewrite orb_true_iff, Hu, Hv.
Qed.

Lemma circuit_and r1 r2 P Q :
  circuit r1 P -> circuit r2 Q ->
  exists r, CreateAnd simplify r1 r2 = Ok r /\ circuit r (fun x y => P x y /\ Q x y).
Proof.
  intros HP HQ. destruct (circuit_bin OpAnd andb r1 r2 P Q) as (r & Er & Hr & Tr & Dr); try done.
  { by intros [] []. }
  exists r. split_and!; try done. split_and!; try done. intros e x y Ex Ey.
  destruct (Dr e x y Ex Ey) as (u & v & E & Hu & Hv). exists (u && v). split; [done|].
  by rewrite andb_true_iff, Hu, Hv.
Qed.

Lemma wrap_1_bit z : wrap 1 z = Z.b2z (Z.testbit z 0).
Proof. unfold wrap. change (2 ^ 1) with 2. by rewrite <- Z.bit0_mod. Qed.

Lemma extract_word r w' f k :
  good_width w' -> 0 <= k < w' -> word r w' f ->
  exists c, extract_bit simplify r k = Ok c /\ circuit c (fun x y => Z.testbit (f x y) k = true).
Proof.
  intros Hw' Hk (Hr & Tr & Dr). assert (0 < w') by lia. assert (0 <= w') by lia. unfold extract_bit. rewrite Tr, bitwidth_ity. cbn.
  rewrite (proj2 (Z.ltb_lt _ _)) by lia. cbn. rewrite int_ty_good by done. cbn.
  destruct (simplify_int_ri OpLShr w' r k) as (s & -> & Hs & Ts & Ds); try done. cbn.
  unfold CreateTrunc. rewrite Ts, !bitwidth_ity. cbn. rewrite (proj2 (Z.leb_le _ _)) by lia. cbn.
  destruct (simplify_convert OpTrunc 1 w' s) as (c & Ec & Hc & Tc & Dc); try done; [left; split; [done|lia]|].
  exists c. split; [done|]. split_and!; try done. intros e x y Ex Ey.
  exists (Z.testbit (f (getZExtValue x) (getZExtValue y)) k). split; [|done].
  assert (k < 2 ^ w') by (pose proof (Z.pow_gt_lin_r 2 w'); lia).
  erewrite (Dc e); [|eapply (Ds e); [by apply Dr|done]]. unfold den_bool. do 2 f_equal.
  apply APInt_of_eq; [done|]. rewrite !APInt_of_value by done.
  rewrite (wrap_small w' k) by lia. rewrite !wrap_1_bit.
  rewrite testbit_wrap, Z.shiftr_spec, testbit_wrap by lia. rewrite Z.add_0_l.
  rewrite (proj2 (Z.ltb_lt k w')), (proj2 (Z.ltb_lt 0 w')) by lia. cbn. by destruct (Z.testbit _ k).
Qed.
(** *** Words from words *)
Lemma word_bin o r1 r2 w' f g h :
  int_binop o = true -> good_width w' -> word r1 w' f -> word r2 w' g ->
  (forall x y, sem_int o w' (wrap w' (f x y)) (wrap w' (g x y)) = Some (h x y)) ->
  exists r, IntOp_Create simplify o r1 r2 = Ok r /\ word r w' h.
Proof.
  intros Ho Hw' (W1 & T1 & D1) (W2 & T2 & D2) Hh. assert (0 < w') by (destruct Hw'; lia). assert (0 < w') by lia. assert (0 <= w') by lia.
  destruct (simplify_int o w' r1 r2) as (r & Er & Hr & Tr & Dr); try done.
  exists r. split; [done|]. split_and!; try done. intros e x y Ex Ey.
  apply (Dr e _ _ _ (D1 e x y Ex Ey) (D2 e x y Ex Ey)). by rewrite !APInt_of_value.
Qed.

Lemma word_ri o r1 w' f k h :
  int_binop o = true -> good_width w' -> word r1 w' f ->
  (forall x y, sem_int o w' (wrap w' (f x y)) (wrap w' k) = Some (h x y)) ->
  exists r, IntOp_Create_ri simplify o r1 k = Ok r /\ word r w' h.
Proof.
  intros Ho Hw' (W1 & T1 & D1) Hh. assert (0 < w') by (destruct Hw'; lia). assert (0 < w') by lia. assert (0 <= w') by lia.
  destruct (simplify_int_ri o w' r1 k) as (r & Er & Hr & Tr & Dr); try done.
  exists r. split; [done|]. split_and!; try done. intros e x y Ex Ey.
  apply (Dr e _ _ (D1 e x y Ex Ey)). by rewrite !APInt_of_value.
Qed.

Lemma word_imp r w' f g :
  0 < w' -> (forall x y, 0 <= x < 2 ^ w -> 0 <= y < 2 ^ w -> wrap w' (f x y) = wrap w' (g x y)) ->
  word r w' f -> word r w' g.
Proof using Ha Hb Ta Tb.
  intros Hw' Hfg (? & ? & Hr). split_and!; try done. intros e x y Ex Ey.
  rewrite (Hr e x y Ex Ey). do 2 f_equal. apply APInt_of_eq; [done|]. apply Hfg.
  - destruct (denote_int e a _ w Ha Ta Ex) as (? & [= <-] & Wx). by apply value_range.
  - destruct (denote_int e b _ w Hb Tb Ey) as (? & [= <-] & Wy). by apply value_range.
Qed.

Lemma word_ext o r1 w' f :
  o = OpZExt \/ o = OpSExt -> good_width w' -> w <= w' -> word r1 w f ->
  exists r, UnaryOp_Create simplify o r1 (ity w') = Ok r /\
    word r w' (fun x y => match o with OpSExt => sgn w (wrap w (f x y)) | _ => wrap w (f x y) end).
Proof using Hw.
  intros Ho Hw' Hle (W1 & T1 & D1). assert (0 < w) by (destruct Hw; lia). assert (0 <= w) by lia.
  destruct (simplify_convert o w' w r1) as (r & Er & Hr & Tr & Dr); try done; [by right|].
  exists r. split; [done|]. split_and!; try done. intros e x y Ex Ey.
  rewrite (Dr e _ (D1 e x y Ex Ey)). by rewrite !APInt_of_value.
Qed.

Lemma circuit_icmp_eq r1 r2 P Q :
  circuit r1 P -> circuit r2 Q ->
  exists r, CreateICmp simplify EQ r1 r2 = Ok r /\ circuit r (fun x y => P x y <-> Q x y).
Proof.
  intros (W1 & T1 & D1) (W2 & T2 & D2). unfold CreateICmp. rewrite T1, T2, ty_eqb_refl. cbn.
  destruct (simplify_ok (mkOp (mkData (OpICmp EQ) type_of_bool NoPayload) [r1; r2])) as (r & Er & Hr & Tr & Dr).
  - constructor; [by repeat constructor|]. cbn. exists 1. done.
  - done.
  - exists r. split; [exact Er|]. split_and!; try done. intros e x y Ex Ey.
    destruct (D1 e x y Ex Ey) as (u & Eu & Hu), (D2 e x y Ex Ey) as (v & Ev & Hv).
    exists (eqb u v). split; [|rewrite <- Hu, <- Hv; destruct u, v; naive_solver].
    apply Dr. cbn. unfold denote_node. cbn. rewrite Eu, Ev. cbn.
    rewrite !APInt_of_width, !APInt_of_value by lia. cbn. by destruct u, v.
Qed.

Lemma circuit_xor r1 r2 P Q :
  circuit r1 P -> circuit r2 Q ->
  exists r, CreateXor simplify r1 r2 = Ok r /\
    circuit r (fun x y => P x y /\ ~ Q x y \/ ~ P x y /\ Q x y).
Proof.
  intros HP HQ. destruct (circuit_bin OpXor xorb r1 r2 P Q) as (r & Er & Hr & Tr & Dr); try done.
  { by intros [] []. }
  exists r. split_and!; try done. split_and!; try done. intros e x y Ex Ey.
  destruct (Dr e x y Ex Ey) as (u & v & E & Hu & Hv). exists (xorb u v). split; [done|].
  rewrite <- Hu, <- Hv. destruct u, v; naive_solver.
Qed.

(** *** The loops

    After the steps below [i], [o] is set when the first operand has a bit at
    or above [m - i + 1] and [v] when two set bits have positions that add up
    to [m] or more. *)
Definition hit (m i p q : Z) : Prop :=
  exists k, 1 <= k < i /\ Z.testbit q k = true /\ 2 ^ (m - k) <= p.

Lemma testbit_ge p k : 0 <= k -> 0 <= p -> Z.testbit p k = true -> 2 ^ k <= p.
Proof.
  intros Hk Hp Ht. destruct (Z.le_gt_cases (2 ^ k) p); [done|].
  by rewrite (testbit_high k) in Ht by lia.
Qed.

Lemma testbit_top p k : 0 <= k -> 2 ^ k <= p < 2 ^ (k + 1) -> Z.testbit p k = true.
Proof.
  intros Hk Hp. rewrite Z.pow_add_r, Z.pow_1_r in Hp by lia. apply Z.testbit_true; [done|].
  assert (p / 2 ^ k = 1) as ->; [|done]. symmetry. apply (Z.div_unique _ _ _ (p - 2 ^ k)); lia.
Qed.

Lemma top_step p k : 0 <= k -> 0 <= p -> 2 ^ (k + 1) <= p \/ Z.testbit p k = true <-> 2 ^ k <= p.
Proof.
  intros Hk Hp. assert (2 ^ k <= 2 ^ (k + 1)) by (apply Z.pow_le_mono_r; lia). split.
  - intros [?|?]; [lia|by apply testbit_ge].
  - intros ?. destruct (Z.le_gt_cases (2 ^ (k + 1)) p); [by left|right; apply testbit_top; lia].
Qed.

Lemma hit_step m i p q :
  1 <= i -> hit m i p q \/ 2 ^ (m - i) <= p /\ Z.testbit q i = true <-> hit m (i + 1) p q.
Proof.
  intros Hi. split.
  - intros [(k & ? & ?)|[? ?]]; [exists k; split; [lia|done]|exists i; split_and!; [lia..|done|done]].
  - intros (k & Hk & ? & ?). destruct (decide (k = i)) as [->|]; [by right|left; exists k; split; [lia|done]].
Qed.

Section loops.
Context (A B : Operation) (fa fb : Z -> Z -> Z) (m : Z).
Context (HA : word A w fa) (HB : word B w fb) (Hm : m <= w).
Context (Hfa : forall x y, 0 <= x < 2 ^ w -> 0 <= y < 2 ^ w -> 0 <= fa x y).

Lemma loop_step i o v :
  2 <= i < m -> circuit o (fun x y => 2 ^ (m - i + 1) <= fa x y) ->
  circuit v (fun x y => hit m i (fa x y) (fb x y)) ->
  exists ai o' bi ob v',
    extract_bit simplify A (m - i) = Ok ai /\ CreateOr simplify o ai = Ok o' /\
    extract_bit simplify B i = Ok bi /\ CreateAnd simplify o' bi = Ok ob /\
    CreateOr simplify v ob = Ok v' /\
    circuit o' (fun x y => 2 ^ (m - (i + 1) + 1) <= fa x y) /\
    circuit v' (fun x y => hit m (i + 1) (fa x y) (fb x y)).
Proof using Hw Ha Hb Ta Tb HA HB Hm Hfa.
  intros Hi Ho Hv.
  destruct (extract_word A w fa (m - i)) as (ai & Eai & Hai); [done|lia|done|].
  destruct (circuit_or o ai _ _ Ho Hai) as (o' & Eo' & Ho').
  destruct (extract_word B w fb i) as (bi & Ebi & Hbi); [done|lia|done|].
  apply (circuit_imp _ _ (fun x y => 2 ^ (m - i) <= fa x y)) in Ho'.
  2: { intros x y Hx Hy. apply top_step; [lia|by apply Hfa]. }
  destruct (circuit_and o' bi _ _ Ho' Hbi) as (ob & Eob & Hob).
  destruct (circuit_or v ob _ _ Hv Hob) as (v' & Ev' & Hv').
  exists ai, o', bi, ob, v'. split_and!; try done.
  - by replace (m - (i + 1) + 1) with (m - i) by lia.
  - eapply circuit_imp; [|exact Hv']. intros x y _ _. apply hit_step. lia.
Qed.
Lemma umul_loop_ok n i o v :
  m = w -> 2 <= i -> i + Z.of_nat n <= m -> circuit o (fun x y => 2 ^ (m - i + 1) <= fa x y) ->
  circuit v (fun x y => hit m i (fa x y) (fb x y)) ->
  exists ov, umul_loop simplify A B w i n o v = Ok ov /\
    circuit ov.2 (fun x y => hit m (i + Z.of_nat n) (fa x y) (fb x y)).
Proof using Hw Ha Hb Ta Tb HA HB Hm Hfa.
  intros Emw. revert i o v. induction n as [|n IHn]; intros i o v Hi Hin Ho Hv.
  { exists (o, v). split; [done|]. by rewrite Z.add_0_r. }
  destruct (loop_step i o v) as (ai & o' & bi & ob & v' & Eai & Eo' & Ebi & Eob & Ev' & Ho' & Hv'); [lia|done..|].
  cbn [umul_loop]. replace (w - i) with (m - i) by lia. rewrite Eai. cbn. rewrite Eo'. cbn. rewrite Ebi. cbn. rewrite Eob. cbn. rewrite Ev'. cbn.
  destruct (IHn (i + 1) o' v') as (ov & E & Hov); [lia..|done|done|].
  exists ov. split; [done|]. by replace (i + Z.of_nat (S n)) with (i + 1 + Z.of_nat n) by lia.
Qed.

Lemma smul_loop_ok n i o v :
  m = w - 1 -> 2 <= i -> i + Z.of_nat n <= m \/ n = 0%nat ->
  circuit o (fun x y => 2 ^ (m - i + 1) <= fa x y) ->
  circuit v (fun x y => hit m i (fa x y) (fb x y)) ->
  exists ov, smul_loop simplify A B w i n o v = Ok ov /\
    circuit ov.2 (fun x y => hit m (i + Z.of_nat n) (fa x y) (fb x y)).
Proof using Hw Ha Hb Ta Tb HA HB Hm Hfa.
  intros Emw. revert i o v. induction n as [|n IHn]; intros i o v Hi Hin Ho Hv.
  { exists (o, v). split; [done|]. by rewrite Z.add_0_r. }
  destruct Hin as [Hin|]; [|done].
  destruct (loop_step i o v) as (ai & o' & bi & ob & v' & Eai & Eo' & Ebi & Eob & Ev' & Ho' & Hv'); [lia|done..|].
  cbn [smul_loop]. replace (w - i - 1) with (m - i) by lia.
  rewrite Eai. cbn. rewrite Eo'. cbn. rewrite Ebi. cbn. rewrite Eob. cbn. rewrite Ev'. cbn.
  destruct (IHn (i + 1) o' v') as (ov & E & Hov); [lia|lia|done|done|].
  exists ov. split; [done|]. by replace (i + Z.of_nat (S n)) with (i + 1 + Z.of_nat n) by lia.
Qed.
End loops.
End circuit.

Lemma and_iff_dep (P Q R : Prop) : (P -> Q <-> R) -> P /\ Q <-> P /\ R.
Proof. tauto. Qed.

(** ** Unsigned multiplication *)
Lemma umul_hit w x y :
  2 <= w -> 0 <= x < 2 ^ w -> 0 <= y < 2 ^ w ->
  hit w w x y \/ Z.testbit (x * y) w = true <-> 2 ^ w <= x * y.
Proof.
  intros Hw Hx Hy. split.
  - intros [(k & Hk & Ht & Hp)|Ht]; [|apply testbit_ge; [lia|nia|done]].
    apply testbit_ge in Ht; [|lia..]. replace w with ((w - k) + k) at 1 by lia.
    rewrite Z.pow_add_r by lia. apply Z.mul_le_mono_nonneg; lia.
  - intros Hov. assert (0 < y) by nia. set (h := Z.log2 y).
    destruct (Z.log2_spec y) as [Hl Hu]; [lia|]. fold h in Hl, Hu.
    assert (0 <= h) by apply Z.log2_nonneg. assert (h < w) by (apply Z.log2_lt_pow2; [lia|apply Hy]).
    destruct (decide (h = 0)) as [Eh|]; [assert (y < 2) by (rewrite Eh in Hu; exact Hu); nia|].
    destruct (Z.le_gt_cases (2 ^ (w - h)) x).
    + left. exists h. split_and!; [lia..|apply Z.bit_log2; lia|done].
    + right. apply testbit_top; [lia|]. split; [done|].
      replace (w + 1) with ((w - h) + Z.succ h) by lia. rewrite Z.pow_add_r by lia.
      apply Z.mul_lt_mono_nonneg; lia.
Qed.

Lemma umul_circuit a b w :
  good_width w -> good_width (w + 1) -> wf a -> wf b -> op_type a = ity w -> op_type b = ity w ->
  exists r, CreateUMulOverflow simplify a b = Ok r /\
    circuit a b r (fun x y => 2 ^ w <= x * y).
Proof.
  intros Hw Hw1 Ha Hb Ta Tb. assert (0 < w) by (destruct Hw; lia).
  unfold CreateUMulOverflow. rewrite Ta, Tb, ty_eqb_refl, bitwidth_ity. cbn.
  destruct (Z.ltb_spec w 2).
  { assert (w = 1) as -> by lia.
    destruct (ConstantInt_Create_bool_ok 1 simplify (simplify_spec 1) false) as (r & E & Hr & Tr & Dr); [lia|].
    exists r. split; [done|]. split_and!; try done. intros e x y Ex Ey. exists false. split; [done|].
    destruct (denote_int e a _ 1 Ha Ta Ex) as (? & [= <-] & Wx%value_range).
    destruct (denote_int e b _ 1 Hb Tb Ey) as (? & [= <-] & Wy%value_range). split; [done|nia]. }
  pose proof (word_a a b w Ha Ta) as HA. pose proof (word_b a b w Hb Tb) as HB.
  destruct (extract_word a b a w _ (w - 1) Hw ltac:(lia) HA) as (o & Eo & Ho). rewrite Eo. cbn.
  destruct (extract_word a b b w _ 1 Hw ltac:(lia) HB) as (b1 & -> & Hb1). cbn.
  apply (circuit_imp a b w Ha Hb Ta Tb _ _ (fun x _ => 2 ^ (w - 2 + 1) <= x)) in Ho.
  2: { intros x y Hx Hy. replace (w - 2 + 1) with (w - 1) by lia. rewrite <- top_step by lia.
       replace (w - 1 + 1) with w by lia. naive_solver lia. }
  destruct (circuit_and a b o b1 _ _ Ho Hb1) as (v & -> & Hv). cbn.
  apply (circuit_imp a b w Ha Hb Ta Tb _ _ (fun x y => hit w 2 x y)) in Hv.
  2: { intros x y Hx Hy. rewrite <- (hit_step w 1) by lia. replace (w - 2 + 1) with (w - 1) by lia.
       split; [by right|]. intros [(k & ? & _)|?]; [lia|done]. }
  destruct (umul_loop_ok a b w Hw Ha Hb Ta Tb a b (fun x _ => x) (fun _ y => y) w HA HB ltac:(lia)
    ltac:(naive_solver) (Z.to_nat (w - 2)) 2 o v) as (ov & -> & Hov); [lia..|done|done|]. cbn.
  rewrite int_ty_good by done. cbn.
  destruct (word_ext a b w Hw OpZExt a (w + 1) _ (or_introl eq_refl) Hw1 ltac:(lia) HA) as (za & Eza & Hza).
  destruct (word_ext a b w Hw OpZExt b (w + 1) _ (or_introl eq_refl) Hw1 ltac:(lia) HB) as (zb & Ezb & Hzb).
  unfold CreateZExt. rewrite Ta, Tb, !bitwidth_ity. cbn. rewrite (proj2 (Z.leb_le _ _)) by lia. cbn.
  rewrite Eza, Ezb. run_ok.
  destruct (word_bin a b OpMul za zb (w + 1) _ _ _ eq_refl Hw1 Hza Hzb (fun x y => eq_refl)) as (mult & Em & Hmult).
  unfold CreateMul. rewrite Em, ok_bind.
  apply (word_imp a b w Ha Hb Ta Tb _ _ _ (fun x y => x * y)) in Hmult; [|lia|].
  2: { intros x y Hx Hy. rewrite !wrap_small with (w := w) by done. symmetry. apply Zmult_mod. }
  destruct (extract_word a b mult (w + 1) _ w Hw1 ltac:(lia) Hmult) as (mb & -> & Hmb). cbn.
  destruct (circuit_or a b ov.2 mb _ _ Hov Hmb) as (r & -> & Hr). exists r. split; [done|].
  eapply circuit_imp; [exact Ha|exact Hb|exact Ta|exact Tb| |exact Hr].
  intros x y Hx Hy. replace (2 + Z.of_nat (Z.to_nat (w - 2))) with w by lia. by apply umul_hit.
Qed.
(** ** Signed multiplication

    [mag w x] is the magnitude the circuit works with: [x] with its bits
    flipped if it is negative. *)
Definition mag (w x : Z) : Z := if x <? 2 ^ (w - 1) then x else 2 ^ w - 1 - x.

Lemma pow_half w : 0 < w -> 2 ^ w = 2 * 2 ^ (w - 1).
Proof. intros. rewrite <- Z.pow_succ_r by lia. f_equal. lia. Qed.

Lemma mag_range w x : 0 < w -> 0 <= x < 2 ^ w -> 0 <= mag w x < 2 ^ (w - 1).
Proof. intros Hw Hx. unfold mag. pose proof (pow_half w Hw). case_match; lia. Qed.

Lemma lxor_ones w x : 0 <= w -> 0 <= x < 2 ^ w -> Z.lxor (Z.ones w) x = 2 ^ w - 1 - x.
Proof.
  intros Hw Hx. rewrite Z.sub_1_r, <- Z.ones_equiv, Z.sub_nocarry_ldiff.
  - zbits. rewrite Z.ldiff_spec, Z.testbit_ones_nonneg by lia.
    destruct (Z.ltb_spec i w); [done|]. by rewrite (testbit_high w) by lia.
  - zbits. rewrite Z.ldiff_spec, Z.testbit_ones_nonneg by lia.
    destruct (Z.ltb_spec i w); cbn; [by rewrite andb_false_r|]. by rewrite (testbit_high w) by lia.
Qed.

Lemma mag_xor w x :
  0 < w -> 0 <= x < 2 ^ w -> Z.lxor (wrap w (Z.shiftr (sgn w x) (w - 1))) x = mag w x.
Proof.
  intros Hw Hx. pose proof (pow_half w Hw). pose proof (pow2_pos (w - 1)).
  unfold mag, sgn. rewrite Z.shiftr_div_pow2 by lia. case_match eqn:E.
  - rewrite Z.div_small by lia. done.
  - assert ((x - 2 ^ w) / 2 ^ (w - 1) = -1) as ->
      by (symmetry; apply (Z.div_unique _ _ _ (x - 2 ^ w + 2 ^ (w - 1))); lia).
    assert (wrap w (-1) = Z.ones w) as ->; [|apply lxor_ones; lia].
    rewrite Z.ones_equiv. unfold wrap. symmetry. apply (Z.mod_unique _ _ (-1)); lia.
Qed.

Lemma sign_bit w x : 0 < w -> 0 <= x < 2 ^ w -> Z.testbit x (w - 1) = true <-> sgn w x < 0.
Proof.
  intros Hw Hx. unfold sgn. split.
  - intros Ht%testbit_ge; [|lia..]. case_match; lia.
  - case_match; [lia|]. intros _. apply testbit_top; [lia|]. rewrite Z.sub_add. lia.
Qed.

(** Both operands non-negative ([c] = 0) or both negative ([c] = 1). *)
Lemma smul_bits w i p q c :
  2 <= w -> w - 1 <= i -> i = w - 1 \/ w = 2 -> 0 <= c <= 1 -> 0 <= p < 2 ^ (w - 1) -> 0 <= q < 2 ^ (w - 1) ->
  let P := (p + c) * (q + c) in
  (Z.testbit P w = true /\ ~ Z.testbit P (w - 1) = true \/
   ~ Z.testbit P w = true /\ Z.testbit P (w - 1) = true) \/ hit (w - 1) i p q
  <-> 2 ^ (w - 1) <= P.
Proof.
  intros Hw Hi Hi' Hc Hp Hq P. pose proof (pow_half w ltac:(lia)) as Hhalf. assert (0 <= P) by nia.
  assert (forall k, Z.testbit P k = true -> 0 <= k -> 2 ^ k <= P) as Hge by (intros; by apply testbit_ge).
  split.
  - intros [[[Ht _]|[_ Ht]]|(k & Hk & Ht & Hpk)].
    + apply Hge in Ht; lia.
    + apply Hge in Ht; lia.
    + apply testbit_ge in Ht; [|lia..].
      assert (k < w - 1) by (apply (Z.pow_lt_mono_r_iff 2); lia).
      replace (w - 1) with ((w - 1 - k) + k) by lia. rewrite Z.pow_add_r by lia.
      apply Z.mul_le_mono_nonneg; lia.
  - intros Hov. set (h := Z.log2 q).
    destruct (Z.le_gt_cases (2 ^ (w - 1 - h)) p) as [Hle|Hgt].
    + destruct (decide (1 <= h)) as [Hh|Hh].
      * assert (0 < q) by (destruct (Z.eq_dec q 0) as [->|]; [done|lia]).
        assert (h < w - 1) by (apply Z.log2_lt_pow2; lia).
        right. exists h. split_and!; [lia..|apply Z.bit_log2; lia|done].
      * assert (h = 0) as Eh by (pose proof (Z.log2_nonneg q); lia). rewrite Eh, Z.sub_0_r in Hle. lia.
    + left. assert (0 <= h) by apply Z.log2_nonneg.
      assert (h <= w - 1).
      { destruct (Z.eq_dec q 0) as [->|]; [subst h; cbn; lia|].
        assert (h < w - 1) by (apply Z.log2_lt_pow2; lia). lia. }
      assert (q + 1 <= 2 ^ (h + 1)).
      { destruct (Z.eq_dec q 0) as [->|]; [pose proof (pow2_pos (h + 1) ltac:(lia)); lia|].
        destruct (Z.log2_spec q) as [_ Hu]; [lia|]. fold h in Hu. rewrite <- Z.add_1_r in Hu. lia. }
      assert (P <= 2 ^ w).
      { replace w with ((w - 1 - h) + (h + 1)) by lia. rewrite Z.pow_add_r by lia.
        apply Z.mul_le_mono_nonneg; lia. }
      destruct (Z.eq_dec P (2 ^ w)) as [->|].
      * left. rewrite Z.pow2_bits_true, Z.pow2_bits_false by lia. done.
      * right. split; [|apply testbit_top; [lia|rewrite Z.sub_add; lia]].
        rewrite (testbit_high w) by lia. done.
Qed.
Lemma sgn_mag w x : 0 < w -> 0 <= x < 2 ^ w ->
  sgn w x = if x <? 2 ^ (w - 1) then mag w x else - (mag w x + 1).
Proof. intros Hw Hx. unfold sgn, mag. case_match; lia. Qed.

(** What the signed circuit computes: overflow, but only for operands of one
    sign. *)
Definition smul_detected (w x y : Z) : Prop :=
  (sgn w x < 0 <-> sgn w y < 0) /\ ~ (- 2 ^ (w - 1) <= sgn w x * sgn w y < 2 ^ (w - 1)).

Lemma smul_hit w i x y :
  2 <= w -> w - 1 <= i -> i = w - 1 \/ w = 2 -> 0 <= x < 2 ^ w -> 0 <= y < 2 ^ w ->
  let P := sgn w x * sgn w y in
  ((Z.testbit x (w - 1) = true <-> Z.testbit y (w - 1) = true) /\
   ((Z.testbit P w = true /\ ~ Z.testbit P (w - 1) = true \/
     ~ Z.testbit P w = true /\ Z.testbit P (w - 1) = true) \/ hit (w - 1) i (mag w x) (mag w y)))
  <-> smul_detected w x y.
Proof.
  intros Hw Hi Hi' Hx Hy P. unfold smul_detected. rewrite !sign_bit by lia. fold P.
  assert (0 < 2 ^ (w - 1)) by (apply pow2_pos; lia).
  pose proof (mag_range w x ltac:(lia) Hx). pose proof (mag_range w y ltac:(lia) Hy).
  pose proof (sgn_mag w x ltac:(lia) Hx) as Ex. pose proof (sgn_mag w y ltac:(lia) Hy) as Ey.
  apply and_iff_dep. intros Hsame.
  assert (exists c, 0 <= c <= 1 /\ P = (mag w x + c) * (mag w y + c)) as (c & Hc & EP).
  { destruct (Z.ltb_spec x (2 ^ (w - 1))), (Z.ltb_spec y (2 ^ (w - 1))).
    - exists 0. split; [lia|]. subst P. rewrite Ex, Ey. ring.
    - exfalso. lia.
    - exfalso. lia.
    - exists 1. split; [lia|]. subst P. rewrite Ex, Ey. ring. }
  rewrite EP. rewrite (smul_bits w i (mag w x) (mag w y) c) by done.
  assert (0 <= (mag w x + c) * (mag w y + c)) by nia. lia.
Qed.

(** One-bit operands: the only overflow is (-1) * (-1). *)
Lemma smul_narrow a b w :
  w < 2 -> good_width w -> wf a -> wf b -> op_type a = ity w -> op_type b = ity w ->
  exists r, CreateAnd simplify a b = Ok r /\ circuit a b r (smul_detected w).
Proof.
  intros Hw2 [Hw0 _] Ha Hb Ta Tb. assert (w = 1) as -> by lia.
  destruct (simplify_int OpAnd 1 a b) as (r & E & Hr & Tr & Dr); try done.
  exists r. split; [done|]. split_and!; try done. intros e x y Ex Ey.
  destruct (denote_int e a _ 1 Ha Ta Ex) as (? & [= <-] & Wx%value_range).
  destruct (denote_int e b _ 1 Hb Tb Ey) as (? & [= <-] & Wy%value_range).
  pose proof (Dr e x y _ Ex Ey eq_refl) as D.
  assert (getZExtValue x = 0 \/ getZExtValue x = 1) as [Vx|Vx] by lia;
  assert (getZExtValue y = 0 \/ getZExtValue y = 1) as [Vy|Vy] by lia; rewrite Vx, Vy in *;
    first [exists false; split; [exact D|]|exists true; split; [exact D|]];
    unfold smul_detected, sgn; cbn; naive_solver lia.
Qed.

(** The magnitude of a word. *)
Lemma word_mag a b w c f :
  good_width w -> wf a -> wf b -> op_type a = ity w -> op_type b = ity w ->
  word a b c w f ->
  (forall x y, 0 <= x < 2 ^ w -> 0 <= y < 2 ^ w -> 0 <= f x y < 2 ^ w) ->
  exists s cx, IntOp_Create_ri simplify OpAShr c (w - 1) = Ok s /\ CreateXor simplify s c = Ok cx /\
    word a b cx w (fun x y => mag w (f x y)).
Proof.
  intros Hw Ha Hb Ta Tb Hc Hf. assert (0 < w) by (destruct Hw; lia).
  destruct (word_ri a b OpAShr c w f (w - 1) _ eq_refl Hw Hc (fun x y => eq_refl)) as (s0 & Es & Hs).
  destruct (word_bin a b OpXor s0 c w _ _ _ eq_refl Hw Hs Hc (fun x y => eq_refl)) as (cx & Ecx & Hcx).
  exists s0, cx. split_and!; [done|done|]. eapply word_imp; [exact Ha|exact Hb|exact Ta|exact Tb|lia| |exact Hcx].
  intros x y Hx Hy. specialize (Hf x y Hx Hy). cbn.
  assert (w - 1 < 2 ^ w) by (pose proof (Z.pow_gt_lin_r 2 w); lia).
  rewrite !(wrap_small w (f x y)), (wrap_small w (w - 1)), mag_xor by lia. done.
Qed.

Lemma smul_circuit a b w :
  good_width w -> good_width (w + 1) -> wf a -> wf b -> op_type a = ity w -> op_type b = ity w ->
  exists r, CreateSMulOverflow simplify a b = Ok r /\ circuit a b r (smul_detected w).
Proof.
  intros Hw Hw1 Ha Hb Ta Tb. assert (0 < w) by (destruct Hw; lia).
  unfold CreateSMulOverflow. rewrite Ta, Tb, ty_eqb_refl. change (assert_ true) with (Ok tt). run_ok.
  pose proof (word_a a b w Ha Ta) as HA. pose proof (word_b a b w Hb Tb) as HB.
  destruct (Z.ltb_spec w 2).
  { by apply smul_narrow. }
  destruct (word_mag a b w a _ Hw Ha Hb Ta Tb HA ltac:(naive_solver)) as (sa & ax & -> & Eax & Hax). run_ok. rewrite Eax. run_ok.
  destruct (word_mag a b w b _ Hw Ha Hb Ta Tb HB ltac:(naive_solver)) as (sb & bx & -> & Ebx & Hbx). run_ok. rewrite Ebx. run_ok.
  assert (forall x y, 0 <= x < 2 ^ w -> 0 <= y < 2 ^ w -> 0 <= mag w x) as Hfa.
  { intros x y Hx _. apply mag_range; lia. }
  destruct (extract_word a b ax w _ (w - 2) Hw ltac:(lia) Hax) as (o & Eo & Ho). rewrite Eo. run_ok.
  destruct (extract_word a b bx w _ 1 Hw ltac:(lia) Hbx) as (b1 & -> & Hb1). run_ok.
  apply (circuit_imp a b w Ha Hb Ta Tb _ _ (fun x _ => 2 ^ (w - 1 - 2 + 1) <= mag w x)) in Ho.
  2: { intros x y Hx Hy. replace (w - 1 - 2 + 1) with (w - 2) by lia.
       pose proof (mag_range w x ltac:(lia) Hx). rewrite <- top_step by lia.
       replace (w - 2 + 1) with (w - 1) by lia. naive_solver lia. }
  destruct (circuit_and a b o b1 _ _ Ho Hb1) as (v & -> & Hv). run_ok.
  apply (circuit_imp a b w Ha Hb Ta Tb _ _ (fun x y => hit (w - 1) 2 (mag w x) (mag w y))) in Hv.
  2: { intros x y Hx Hy. rewrite <- (hit_step (w - 1) 1) by lia. replace (w - 1 - 2 + 1) with (w - 1 - 1) by lia.
       split; [by right|]. intros [(k & ? & _)|?]; [lia|done]. }
  destruct (smul_loop_ok a b w Hw Ha Hb Ta Tb ax bx (fun x _ => mag w x) (fun _ y => mag w y) (w - 1) Hax Hbx
    ltac:(lia) Hfa (Z.to_nat (w - 3)) 2 o v) as (ov & -> & Hov); [lia..|done|done|]. run_ok.
  destruct (extract_word a b a w _ (w - 1) Hw ltac:(lia) HA) as (ha & -> & Hha). run_ok.
  destruct (extract_word a b b w _ (w - 1) Hw ltac:(lia) HB) as (hb & -> & Hhb). run_ok.
  destruct (circuit_icmp_eq a b ha hb _ _ Hha Hhb) as (sign & -> & Hsign). run_ok.
  rewrite int_ty_good by done. run_ok.
  destruct (word_ext a b w Hw OpSExt a (w + 1) _ (or_intror eq_refl) Hw1 ltac:(lia) HA) as (xa & Exa & Hxa).
  destruct (word_ext a b w Hw OpSExt b (w + 1) _ (or_intror eq_refl) Hw1 ltac:(lia) HB) as (xb & Exb & Hxb).
  unfold CreateSExt. rewrite Ta, Tb. run_ok. rewrite (proj2 (Z.leb_le _ _)) by lia.
  change (assert_ true) with (Ok tt). run_ok. rewrite Exa, Exb. run_ok.
  destruct (word_bin a b OpMul xa xb (w + 1) _ _ _ eq_refl Hw1 Hxa Hxb (fun x y => eq_refl)) as (mult & Em & Hmult).
  unfold CreateMul. rewrite Em. run_ok.
  apply (word_imp a b w Ha Hb Ta Tb _ _ _ (fun x y => sgn w x * sgn w y)) in Hmult; [|lia|].
  2: { intros x y Hx Hy. rewrite !wrap_small with (w := w) by done. symmetry. apply Zmult_mod. }
  destruct (extract_word a b mult (w + 1) _ w Hw1 ltac:(lia) Hmult) as (mw & -> & Hmw). run_ok.
  destruct (extract_word a b mult (w + 1) _ (w - 1) Hw1 ltac:(lia) Hmult) as (mw1 & -> & Hmw1). run_ok.
  destruct (circuit_xor a b mw mw1 _ _ Hmw Hmw1) as (o1 & -> & Ho1). run_ok.
  destruct (circuit_or a b o1 ov.2 _ _ Ho1 Hov) as (ei & -> & Hei). run_ok.
  destruct (circuit_and a b sign ei _ _ Hsign Hei) as (r & -> & Hr). exists r. split; [done|].
  eapply circuit_imp; [exact Ha|exact Hb|exact Ta|exact Tb| |exact Hr].
  intros x y Hx Hy. apply smul_hit; [lia..|done|done].
Qed.
(** ** The contracts *)

(** C30: The unsigned multiplication circuit is built for every pair of operands
    of one width, of which there must be a type one bit wider, and is true
    exactly when the product does not fit. *)
Theorem umul_overflow_correct a b w :
  good_width w -> good_width (w + 1) -> wf a -> wf b -> op_type a = ity w -> op_type b = ity w ->
  exists r, CreateUMulOverflow simplify a b = Ok r /\ wf r /\ op_type r = ity 1 /\
    forall e x y, denote e a = Some (DInt x) -> denote e b = Some (DInt y) ->
      denote e r = Some (den_bool (2 ^ w <=? getZExtValue x * getZExtValue y)).
Proof.
  intros Hw Hw1 Ha Hb Ta Tb. destruct (umul_circuit a b w) as (r & E & Hr & Tr & Dr); try done.
  exists r. split_and!; try done. intros e x y Ex Ey. destruct (Dr e x y Ex Ey) as (v & -> & Hv).
  do 2 f_equal. apply eq_true_iff_eq. by rewrite Z.leb_le.
Qed.

(** The signed multiplication circuit is true exactly when the operands have
    the same sign and their product does not fit. *)
Theorem smul_overflow_same_sign a b w :
  good_width w -> good_width (w + 1) -> wf a -> wf b -> op_type a = ity w -> op_type b = ity w ->
  exists r, CreateSMulOverflow simplify a b = Ok r /\ wf r /\ op_type r = ity 1 /\
    forall e x y, denote e a = Some (DInt x) -> denote e b = Some (DInt y) ->
      let sx := sgn w (getZExtValue x) in let sy := sgn w (getZExtValue y) in
      denote e r = Some (den_bool (eqb (sx <? 0) (sy <? 0) &&
        negb ((- 2 ^ (w - 1) <=? sx * sy) && (sx * sy <? 2 ^ (w - 1))))).
Proof.
  intros Hw Hw1 Ha Hb Ta Tb. destruct (smul_circuit a b w) as (r & E & Hr & Tr & Dr); try done.
  exists r. split_and!; try done. intros e x y Ex Ey sx sy. destruct (Dr e x y Ex Ey) as (v & -> & Hv).
  do 2 f_equal. apply eq_true_iff_eq. rewrite Hv. unfold smul_detected. fold sx sy.
  destruct (Z.ltb_spec sx 0), (Z.ltb_spec sy 0), (Z.leb_spec (- 2 ^ (w - 1)) (sx * sy)),
    (Z.ltb_spec (sx * sy) (2 ^ (w - 1))); cbn; naive_solver lia.
Qed.

(** Signed overflow goes unreported when the signs differ: the circuit is
    false for every pair of operands of different signs, also where the product
    is below the smallest value of the width. *)
Theorem smul_overflow_misses a b w e x y :
  good_width w -> good_width (w + 1) -> wf a -> wf b -> op_type a = ity w -> op_type b = ity w ->
  denote e a = Some (DInt x) -> denote e b = Some (DInt y) ->
  sgn w (getZExtValue x) < 0 < sgn w (getZExtValue y) ->
  exists r, CreateSMulOverflow simplify a b = Ok r /\ denote e r = Some (den_bool false).
Proof.
  intros Hw Hw1 Ha Hb Ta Tb Ex Ey Hs. destruct (smul_circuit a b w) as (r & E & _ & _ & Dr); try done.
  exists r. split; [done|]. destruct (Dr e x y Ex Ey) as ([] & -> & Hv); [|done].
  destruct (proj1 Hv eq_refl) as [Hsame _]. lia.
Qed.
End overflow.

Module overflow_witness.
#[local] Instance on : Config := {| IMPLICIT_CONSTANT_FOLDING := true |}.
Definition sym (s : string) (w : Z) : Operation := mkOp (mkData OpConstantNamed (ity w) (PSymbol (Named s))) [].
Lemma sym_wf s w : wf (sym s w).
Proof. constructor; [done|]. cbn. eauto. Qed.
(** Every symbol but [x] has the value [v]. *)
Definition envxy (u v : Den) : Env := {|
  env_symbol := fun s => if symbol_eqb s (Named "x") then u else v;
  env_array := fun _ _ => u; env_node := fun _ => Some u |}.

Lemma umul_overflow_correct_witness :
  exists r, CreateUMulOverflow simplify (sym "x" 8) (sym "y" 8) = Ok r /\
    denote (envxy (DInt (APInt_of 8 16)) (DInt (APInt_of 8 16))) r = Some (den_bool true) /\
    denote (envxy (DInt (APInt_of 8 15)) (DInt (APInt_of 8 17))) r = Some (den_bool false).
Proof.
  destruct (umul_overflow_correct (sym "x" 8) (sym "y" 8) 8) as (r & E & _ & _ & D);
    [split; reflexivity|split; reflexivity|apply sym_wf|apply sym_wf|reflexivity|reflexivity|].
  exists r. split; [exact E|]. split.
  - rewrite (D _ (APInt_of 8 16) (APInt_of 8 16)); vm_decide.
  - rewrite (D _ (APInt_of 8 15) (APInt_of 8 17)); vm_decide.
Defined.

Lemma smul_overflow_same_sign_witness :
  exists r, CreateSMulOverflow simplify (sym "x" 8) (sym "y" 8) = Ok r /\
    denote (envxy (DInt (APInt_of 8 200)) (DInt (APInt_of 8 200))) r = Some (den_bool true) /\
    denote (envxy (DInt (APInt_of 8 255)) (DInt (APInt_of 8 129))) r = Some (den_bool false).
Proof.
  destruct (smul_overflow_same_sign (sym "x" 8) (sym "y" 8) 8) as (r & E & _ & _ & D);
    [split; reflexivity|split; reflexivity|apply sym_wf|apply sym_wf|reflexivity|reflexivity|].
  exists r. split; [exact E|]. split.
  - rewrite (D _ (APInt_of 8 200) (APInt_of 8 200)); vm_decide.
  - rewrite (D _ (APInt_of 8 255) (APInt_of 8 129)); vm_decide.
Defined.

(** -2 * 127 = -254 does not fit in 8 bits. *)
Lemma smul_overflow_misses_witness :
  exists r, CreateSMulOverflow simplify (sym "x" 8) (sym "y" 8) = Ok r /\
    denote (envxy (DInt (APInt_of 8 254)) (DInt (APInt_of 8 127))) r = Some (den_bool false).
Proof.
  apply (smul_overflow_misses (sym "x" 8) (sym "y" 8) 8 _ (APInt_of 8 254) (APInt_of 8 127));
    [split; reflexivity|split; reflexivity|apply sym_wf|apply sym_wf|reflexivity|reflexivity
    |vm_decide|vm_decide|split; vm_decide].
Defined.
End overflow_witness.
