(* ===== verification/AtEnv.v ===== *)
(** Building expressions, seen from one environment.

    The memory model and its clients build expressions through the constructors
    of src/IR/Operation.cpp.  For a fixed environment [e], [ival w op v] says
    that [op] is a well-formed [w]-bit expression whose value there is [v],
    [bval] is the same for booleans and [aval] for arrays.  The lemmas say what
    each constructor, with its folding, makes of such expressions, so that
    code that builds expressions is verified like code that computes. *)
From S2P Require Import Prelude LLVM IRType Value Opcode Operation Matching Create Semantics.
From S2P Require Import Simplifier SimplifierInt SimplifierSound Overflow.
Open Scope Z_scope.

Section atenv.
Context `{PtrEq} `{MathExtrasAPI} `{Config}.
Context (e : Env).

Definition ival (w : Z) (op : Operation) (v : Z) : Prop :=
  wf op /\ op_type op = ity w /\ good_width w /\ denote e op = Some (DInt (APInt_of w v)).
Definition bval (op : Operation) (b : bool) : Prop := ival 1 op (Z.b2z b).
Definition aval (w : Z) (op : Operation) (bs : list (option APInt)) : Prop :=
  wf op /\ op_type op = aty w /\ good_width w /\ denote e op = Some (DArr bs w).

Lemma ival_wrap w op v v' : wrap w v = wrap w v' -> ival w op v -> ival w op v'.
Proof.
  intros E (Hwf & Ht & Hw & Hd). split_and!; try done. rewrite Hd. do 2 f_equal. apply APInt_of_eq; [|done].
  destruct Hw. lia.
Qed.

(** An expression that has a value has one in range. *)
Lemma ival_of op w v :
  wf op -> op_type op = ity w -> good_width w -> denote e op = Some v ->
  exists z, ival w op z /\ 0 <= z < 2 ^ w.
Proof.
  intros Hwf Ht Hw Hd. destruct (denote_int e op v w Hwf Ht Hd) as (a & -> & Wa).
  exists (getZExtValue a). split; [|by apply value_range]. split_and!; try done. rewrite Hd. do 2 f_equal.
  symmetry. apply APInt_of_is; [done|]. by apply wrap_val.
Qed.

End atenv.

(** ** Constructors, for every environment *)
Section anyenv.
Context `{PtrEq} `{MathExtrasAPI} `{Config}.

(** A well-formed expression of [w] bits. *)
Definition iwf (w : Z) (op : Operation) : Prop := wf op /\ op_type op = ity w /\ good_width w.

Lemma ival_iwf e w op v : ival e w op v -> iwf w op.
Proof. by intros (? & ? & ? & _). Qed.

Lemma int_any o w x y :
  int_binop o = true -> iwf w x -> iwf w y ->
  exists r, IntOp_Create simplify o x y = Ok r /\ iwf w r /\
    forall e a b z, ival e w x a -> ival e w y b -> sem_int o w (wrap w a) (wrap w b) = Some z -> ival e w r z.
Proof.
  intros Ho (Wx & Tx & Hw) (Wy & Ty & _). assert (0 < w) by (destruct Hw; lia). assert (0 <= w) by lia.
  destruct (simplify_int o w x y) as (r & Er & Wr & Tr & Dr); try done. exists r. split_and!; try done.
  intros e a b z (_ & _ & _ & Dx) (_ & _ & _ & Dy) Hz. split_and!; try done.
  apply (Dr e _ _ _ Dx Dy). by rewrite !APInt_of_value.
Qed.

Lemma add_any w x y :
  iwf w x -> iwf w y ->
  exists r, CreateAdd simplify x y = Ok r /\ iwf w r /\
    forall e a b, ival e w x a -> ival e w y b -> ival e w r (a + b).
Proof.
  intros Hx Hy. destruct (int_any OpAdd w x y eq_refl Hx Hy) as (r & Er & Hr & Dr). exists r. split_and!; try done.
  intros e a b Ha Hb. eapply ival_wrap; [|exact (Dr e a b _ Ha Hb eq_refl)]. destruct Hx as (_ & _ & [? _]).
  rewrite wrap_add_l, wrap_add_r by lia. done.
Qed.

Lemma sub_any w x y :
  iwf w x -> iwf w y ->
  exists r, IntOp_Create simplify OpSub x y = Ok r /\ iwf w r /\
    forall e a b, ival e w x a -> ival e w y b -> ival e w r (a - b).
Proof.
  intros Hx Hy. destruct (int_any OpSub w x y eq_refl Hx Hy) as (r & Er & Hr & Dr). exists r. split_and!; try done.
  intros e a b Ha Hb. eapply ival_wrap; [|exact (Dr e a b _ Ha Hb eq_refl)]. unfold wrap. symmetry. apply Zminus_mod.
Qed.

Lemma const_any w k :
  good_width w -> exists r, ConstantInt_Create simplify (APInt_of w k) = Ok r /\ iwf w r /\ forall e, ival e w r k.
Proof.
  intros Hw. assert (0 < w) by (destruct Hw; lia). assert (0 <= w) by lia.
  destruct (ConstantInt_Create_ok 1 simplify (simplify_spec 1) (APInt_of w k)) as (c & E & Hc);
    [done|by rewrite APInt_of_width|].
  exists c. pose proof (cint_const _ _ Hc) as Dc. destruct Hc as (Hc & Tc & _).
  assert (op_type c = ity w) as Tw by (rewrite Tc; cbn [cint op_type op_data od_type]; by rewrite APInt_of_width).
  split_and!; done.
Qed.

Lemma icmp_any c w x y :
  iwf w x -> iwf w y ->
  exists r, CreateICmp simplify c x y = Ok r /\ iwf 1 r /\
    forall e a b, ival e w x a -> ival e w y b -> bval e r (sem_icmp c w (wrap w a) (wrap w b)).
Proof.
  intros (Wx & Tx & Hw) (Wy & Ty & _). assert (0 < w) by (destruct Hw; lia). assert (0 <= w) by lia.
  destruct (simplify_ok (mkOp (mkData (OpICmp c) (ity 1) NoPayload) [x; y])) as (r & Er & Wr & Tr & Dr).
  - constructor; [by repeat constructor|]. exists w. done.
  - done.
  - exists r. split_and!; try done.
    + unfold CreateICmp. rewrite Tx, Ty, ty_eqb_refl. unfold build, Operation_ctor. cbn [od_opcode].
      assert (opcode_nargs (opcode_val (OpICmp c)) = 2) as -> by by destruct c. exact Er.
    + intros e a b (_ & _ & _ & Dx) (_ & _ & _ & Dy). split_and!; try done. apply Dr. cbn [denote fmap list_fmap].
      rewrite Dx, Dy. unfold denote_node. cbn. rewrite !APInt_of_width, Z.eqb_refl, !APInt_of_value by done. done.
Qed.

(** Comparison with the literal 0. *)
Lemma icmp_zero_any c w x :
  iwf w x ->
  exists r, CreateICmp_ri simplify c x 0 = Ok r /\ iwf 1 r /\
    forall e a, ival e w x a -> bval e r (sem_icmp c w (wrap w a) 0).
Proof.
  intros Hx. pose proof Hx as (Wx & Tx & Hw). assert (0 < w) by (destruct Hw; lia). assert (0 <= w) as Hw0 by lia.
  destruct (const_any w 0 Hw) as (k & Ek & Hk & Dk). destruct (icmp_any c w x k Hx Hk) as (r & Er & Hr & Dr).
  exists r. split_and!; [|done..|].
  - unfold CreateICmp_ri. rewrite Tx, bitwidth_ity. run_ok.
    assert (ap_sextOrTrunc (APInt_of 64 0) w = APInt_of w 0) as ->.
    { rewrite ap_sextOrTrunc_spec by (rewrite ?APInt_of_width; destruct Hw; lia).
      by rewrite APInt_of_width, APInt_of_value by lia. }
    by rewrite Ek, ok_bind.
  - intros e a Ha. pose proof (Dr e a 0 Ha (Dk e)) as Hb. by rewrite (wrap_small w 0) in Hb by (split; [lia|by apply Z.pow_pos_nonneg]).
Qed.

Lemma bool_any o f x y :
  int_binop o = true ->
  (forall u v, sem_int o 1 (Z.b2z u) (Z.b2z v) = Some (Z.b2z (f u v))) ->
  iwf 1 x -> iwf 1 y ->
  exists r, IntOp_Create simplify o x y = Ok r /\ iwf 1 r /\
    forall e a b, bval e x a -> bval e y b -> bval e r (f a b).
Proof.
  intros Ho Hf Hx Hy. destruct (int_any o 1 x y Ho Hx Hy) as (r & Er & Hr & Dr). exists r. split_and!; try done.
  intros e a b Ha Hb. apply (Dr e _ _ _ Ha Hb). rewrite !wrap_small by (destruct a, b; cbn; lia). apply Hf.
Qed.
Lemma and_any x y :
  iwf 1 x -> iwf 1 y ->
  exists r, CreateAnd simplify x y = Ok r /\ iwf 1 r /\ forall e a b, bval e x a -> bval e y b -> bval e r (a && b).
Proof. apply (bool_any OpAnd andb); [done|by intros [] []]. Qed.
Lemma or_any x y :
  iwf 1 x -> iwf 1 y ->
  exists r, CreateOr simplify x y = Ok r /\ iwf 1 r /\ forall e a b, bval e x a -> bval e y b -> bval e r (a || b).
Proof. apply (bool_any OpOr orb); [done|by intros [] []]. Qed.
Lemma bool_const_any b :
  exists r, ConstantInt_Create_bool simplify b = Ok r /\ iwf 1 r /\ forall e, bval e r b.
Proof. apply (const_any 1). done. Qed.
End anyenv.

(** ** Constructors, at one environment *)
Section at_one.
Context `{PtrEq} `{MathExtrasAPI} `{Config}.
Context (e : Env).

(** ** Integers *)
Lemma int_at o w x y a b z :
  int_binop o = true -> ival e w x a -> ival e w y b ->
  sem_int o w (wrap w a) (wrap w b) = Some z ->
  exists r, IntOp_Create simplify o x y = Ok r /\ ival e w r z.
Proof.
  intros Ho Hx Hy Hz. destruct (int_any o w x y Ho (ival_iwf e w x a Hx) (ival_iwf e w y b Hy)) as (r & Er & _ & Dr). eauto.
Qed.

Lemma int_ri_at o w x a k z :
  int_binop o = true -> ival e w x a -> sem_int o w (wrap w a) (wrap w k) = Some z ->
  exists r, IntOp_Create_ri simplify o x k = Ok r /\ ival e w r z.
Proof.
  intros Ho (Wx & Tx & Hw & Dx) Hz. assert (0 < w) by (destruct Hw; lia). assert (0 <= w) by lia.
  destruct (simplify_int_ri o w x k) as (r & Er & Wr & Tr & Dr); try done. exists r. split; [done|].
  split_and!; try done. apply (Dr e _ _ Dx). by rewrite APInt_of_value.
Qed.

Lemma add_at w x y a b :
  ival e w x a -> ival e w y b -> exists r, CreateAdd simplify x y = Ok r /\ ival e w r (a + b).
Proof.
  intros Hx Hy. destruct (add_any w x y (ival_iwf e w x a Hx) (ival_iwf e w y b Hy)) as (r & Er & _ & Dr). eauto.
Qed.

Lemma add_ri_at w x a k :
  ival e w x a -> exists r, IntOp_Create_ri simplify OpAdd x k = Ok r /\ ival e w r (a + k).
Proof.
  intros Hx. destruct (int_ri_at OpAdd w x a k _ eq_refl Hx eq_refl) as (r & Er & Hr).
  exists r. split; [done|]. eapply ival_wrap; [|exact Hr]. destruct Hx as (_ & _ & [? _] & _).
  rewrite wrap_add_l, wrap_add_r by lia. done.
Qed.

Lemma convert_at o w w' x a :
  o = OpTrunc /\ w <= w' \/ o = OpZExt /\ w' <= w -> good_width w -> ival e w' x a ->
  exists r, UnaryOp_Create simplify o x (ity w) = Ok r /\ ival e w r (wrap w' a).
Proof.
  intros Ho Hw (Wx & Tx & Hw' & Dx). assert (0 < w') by (destruct Hw'; lia). assert (0 <= w') by lia.
  destruct (simplify_convert o w w' x) as (r & Er & Wr & Tr & Dr); try done; [tauto|].
  exists r. split; [done|]. split_and!; try done. rewrite (Dr e _ Dx). rewrite APInt_of_value by done.
  by destruct Ho as [[-> _]|[-> _]].
Qed.

Lemma trunc_at w w' x a :
  w <= w' -> good_width w -> ival e w' x a ->
  exists r, CreateTrunc simplify (ity w) x = Ok r /\ ival e w r a.
Proof.
  intros Hle Hw Hx. destruct (convert_at OpTrunc w w' x a) as (r & Er & Hr); [tauto|done|done|].
  exists r. pose proof Hx as (_ & Tx & [? _] & _). split.
  - unfold CreateTrunc. rewrite Tx. run_ok. rewrite (proj2 (Z.leb_le w w')) by done. exact Er.
  - eapply ival_wrap; [|exact Hr]. destruct Hw. apply Z.mod_mod_divide.
    exists (2 ^ (w' - w)). rewrite <- Z.pow_add_r by lia. f_equal. lia.
Qed.

Lemma zext_at w w' x a :
  w' <= w -> good_width w -> ival e w' x a ->
  exists r, CreateZExt simplify (ity w) x = Ok r /\ ival e w r (wrap w' a).
Proof.
  intros Hle Hw Hx. destruct (convert_at OpZExt w w' x a) as (r & Er & Hr); [tauto|done|done|].
  exists r. pose proof Hx as (_ & Tx & _ & _). split; [|done].
  unfold CreateZExt. rewrite Tx. run_ok. rewrite (proj2 (Z.leb_le w' w)) by done. exact Er.
Qed.

(** ** Booleans *)
Lemma and_at x y a b :
  bval e x a -> bval e y b -> exists r, CreateAnd simplify x y = Ok r /\ bval e r (a && b).
Proof.
  intros Hx Hy. destruct (and_any x y (ival_iwf e 1 x _ Hx) (ival_iwf e 1 y _ Hy)) as (r & Er & _ & Dr). eauto.
Qed.
Lemma or_at x y a b :
  bval e x a -> bval e y b -> exists r, CreateOr simplify x y = Ok r /\ bval e r (a || b).
Proof.
  intros Hx Hy. destruct (or_any x y (ival_iwf e 1 x _ Hx) (ival_iwf e 1 y _ Hy)) as (r & Er & _ & Dr). eauto.
Qed.

Lemma icmp_at c w x y a b :
  ival e w x a -> ival e w y b ->
  exists r, CreateICmp simplify c x y = Ok r /\ bval e r (sem_icmp c w (wrap w a) (wrap w b)).
Proof.
  intros Hx Hy. destruct (icmp_any c w x y (ival_iwf e w x a Hx) (ival_iwf e w y b Hy)) as (r & Er & _ & Dr). eauto.
Qed.

(** ** Arrays *)
Lemma fixed_length x bs w l :
  denote e x = Some (DArr bs w) -> op_opcode x = OpFixedArray -> op_operands x = l -> length bs = length l.
Proof.
  destruct x as [d ops]. unfold op_opcode. cbn. intros Hd Ho <-. unfold denote_node in Hd. rewrite Ho in Hd.
  injection Hd as <- _. by rewrite !length_fmap.
Qed.

Lemma ival_const w x v a : ival e w x v -> as_ConstantInt x = Some a -> getZExtValue a = wrap w v.
Proof.
  intros (Wx & Tx & Hw & Dx) Ha. destruct (as_ConstantInt_inv x a) as (_ & _ & _ & _ & Hd); [done|done|].
  rewrite Hd in Dx. injection Dx as ->. destruct Hw. by rewrite APInt_of_value by lia.
Qed.

(** A constant index into a fixed array is in range if the access has a value. *)
Lemma index_safe w x i bs v a :
  aval e w x bs -> ival e w i v -> wrap w v < Z.of_nat (length bs) <= SIZE_MAX ->
  as_ConstantInt i = Some a -> op_opcode x = OpFixedArray ->
  getZExtValue a < Z.of_nat (length (op_operands x)) <= SIZE_MAX.
Proof.
  intros (Wx & Tx & Hw & Dx) Hi Hr Ha Ho. rewrite (ival_const w i v a) by done.
  by rewrite <- (fixed_length x bs w (op_operands x)).
Qed.

Lemma load_at w x i bs v b :
  aval e w x bs -> ival e w i v -> Z.of_nat (length bs) <= SIZE_MAX ->
  bs !! Z.to_nat (wrap w v) = Some (Some (APInt_of 8 b)) ->
  exists r, LoadOp_Create simplify x i = Ok r /\ ival e 8 r b.
Proof.
  intros Hx Hi Hmax Hb. pose proof Hx as (Wx & Tx & Hw & Dx). pose proof Hi as (Wi & Ti & _ & Di).
  assert (0 < w) by (destruct Hw; lia). assert (0 <= w) as Hw0 by lia. pose proof (wrap_range w Hw0 v) as Hr.
  pose proof (lookup_lt_Some _ _ _ Hb) as Hlt.
  destruct (simplify_ok (mkOp (mkData OpLoad (ity 8) NoPayload) [x; i])) as (r & Er & Wr & Tr & Dr).
  - constructor; [by repeat constructor|]. exists w. done.
  - intros a Ha Ho. apply (index_safe w x i bs v a); try done. lia.
  - exists r. split.
    + unfold LoadOp_Create. rewrite Ti. run_ok. rewrite int_ty_good by done. exact Er.
    + split_and!; try done. apply Dr. cbn [denote fmap list_fmap]. rewrite Dx, Di. unfold denote_node. cbn [od_opcode].
      rewrite APInt_of_width, Z.eqb_refl, APInt_of_value by done. by rewrite Hb.
Qed.

Lemma store_at w x i y bs v b :
  aval e w x bs -> ival e w i v -> ival e 8 y b -> wrap w v < Z.of_nat (length bs) <= SIZE_MAX ->
  exists r, StoreOp_Create simplify x i y = Ok r /\
    aval e w r (<[Z.to_nat (wrap w v) := Some (APInt_of 8 b)]> bs).
Proof.
  intros Hx Hi Hy Hlt. pose proof Hx as (Wx & Tx & Hw & Dx). pose proof Hi as (Wi & Ti & _ & Di).
  pose proof Hy as (Wy & Ty & _ & Dy). assert (0 < w) by (destruct Hw; lia). assert (0 <= w) as Hw0 by lia.
  destruct (simplify_ok (mkOp (mkData OpStore (aty w) NoPayload) [x; i; y])) as (r & Er & Wr & Tr & Dr).
  - constructor; [by repeat constructor|]. exists w. done.
  - intros a Ha Ho. by apply (index_safe w x i bs v a).
  - exists r. split.
    + unfold StoreOp_Create. rewrite Ti, Ty, Tx. run_ok. rewrite int_ty_good by done. run_ok.
      rewrite ty_eqb_refl. exact Er.
    + split_and!; try done. apply Dr. cbn [denote fmap list_fmap]. rewrite Dx, Di, Dy. unfold denote_node. cbn [od_opcode].
      rewrite APInt_of_width, Z.eqb_refl, APInt_of_value by done. by rewrite (proj2 (Z.ltb_lt _ _)) by lia.
Qed.
End at_one.
