(* ===== verification/ModelEval.v ===== *)
(** Evaluation of expressions in a model of the solver:
    [caffeine::ModelEvaluator] (src/Solver/ModelEval.cpp).

    The model of the solver and the e-graph are parameters: [lookup] is
    [Model::lookup], [extract] is [EGraph::extract].  [evaluate n] evaluates
    with at most [n] nested visits; [evaluate_correct] shows how many an
    expression needs. *)
From S2P Require Import Prelude LLVM IRType Value Opcode Operation Matching Create Semantics.
From S2P Require Import Simplifier SimplifierInt SimplifierSound.
Open Scope Z_scope.

Section modeleval.
Context `{PtrEq} `{MathExtrasAPI} `{Config}.

(** [Model], an abstract class; the size is given for arrays only. *)
Record Model : Type := mkModel {
  lookup_symbol : Symbol -> option Z -> Value
}.

Section evaluator.
Context (model : Model) (extract : Operation -> result Operation).

Definition op_symbol (op : Operation) : result Symbol :=
  match od_payload (op_data op) with PSymbol s => Ok s | _ => Err UndefinedBehaviour end.

(** A symbol that the model does not mention is zero. *)
Definition visitConstant (op : Operation) : result Value :=
  s ← op_symbol op;
  let value := lookup_symbol model s None in
  t ← value_type value;
  let check := assert_ (negb (ty_eqb t void_ty)) ;; Ok value in
  if is_void t then
    if is_int (op_type op) then
      w ← bitwidth (op_type op); Ok (VInt (getNullValue w))
    else if is_float (op_type op) then
      sem ← llvm_flt_semantics (op_type op);
      match sem with Some s => Ok (VFloat (getZero s)) | None => check end
    else check
  else check.

Section visits.
Context (visit : Operation -> result Value).

Definition visitConstantArray (op : Operation) : result Value :=
  n ← operand_at op 0; v ← visit n; a ← v_apint v; s ← op_symbol op;
  let value := lookup_symbol model s (Some (getLimitedValue a SIZE_MAX)) in
  t ← value_type value;
  assert_ (negb (ty_eqb t void_ty)) ;; Ok value.

(** [visitConstantInt] and [visitConstantFloat]. *)
Definition visitConstantInt (op : Operation) : result Value :=
  match od_payload (op_data op) with PInt a => Ok (VInt a) | _ => Err UndefinedBehaviour end.
Definition visitConstantFloat (op : Operation) : result Value :=
  match od_payload (op_data op) with PFloat f => Ok (VFloat f) | _ => Err UndefinedBehaviour end.

(** The bytes of a fixed array, from index [i] on. *)
Fixpoint fixed_bytes (op : Operation) (i : nat) (n : nat) : result (list Z) :=
  match n with
  | O => Ok []
  | S n =>
      x ← of_option UndefinedBehaviour (op_operands op !! i);
      v ← visit x; a ← v_apint v; assert_ (getBitWidth a =? 8) ;;
      rest ← fixed_bytes op (S i) n;
      Ok (wrap 8 (getLimitedValue a 255) :: rest)
  end.
Definition visitFixedArray (op : Operation) : result Value :=
  size_val ← ArrayBase_size simplify op;
  v ← visit size_val; a ← v_apint v; bw ← bitwidth (op_type size_val);
  bytes ← fixed_bytes op 0 (Z.to_nat (getLimitedValue a SIZE_MAX));
  t ← int_ty bw; Value_of_array bytes t.

(** [VISIT_BINOP] and [VISIT_UNOP]. *)
Definition visit2 (func : Value -> Value -> result Value) (op : Operation) : result Value :=
  x ← op_index op 0; u ← visit x; y ← op_index op 1; v ← visit y; func u v.
Definition visit1 (func : Value -> result Value) (op : Operation) : result Value :=
  x ← op_index op 0; u ← visit x; func u.

Definition visitSelect (op : Operation) : result Value :=
  c ← op_index op 0; v ← visit c; a ← v_apint v;
  if ap_eq_u64 a 1 then x ← op_index op 1; visit x else y ← op_index op 2; visit y.

(** [visitTrunc], [visitZExt] and [visitSExt]. *)
Definition visit_convert (func : Value -> Z -> result Value) (op : Operation) : result Value :=
  x ← op_index op 0; v ← visit x; w ← bitwidth (op_type op); func v w.

Definition visitEGraphNode (op : Operation) : result Value := x ← extract op; visit x.

(** The bytes of an allocation are zero, whatever its default value is. *)
Definition visitAlloc (op : Operation) : result Value :=
  n ← operand_at op 0; v ← visit n; a ← v_apint v;
  w ← bitwidth (op_type n); t ← int_ty w;
  Value_of_array (replicate (Z.to_nat (getLimitedValue a SIZE_MAX)) 0) t.

Definition visit3 (func : Value -> Value -> Value -> result Value) (op : Operation) : result Value :=
  x ← op_index op 0; u ← visit x; y ← op_index op 1; v ← visit y;
  z ← op_index op 2; t ← visit z; func u v t.

Definition visitICmp (c : ICmpOpcode) (op : Operation) : result Value :=
  visit2 (fun lhs rhs =>
    match c with
    | EQ => Value_of_bool (value_eqb lhs rhs)
    | NE => Value_of_bool (negb (value_eqb lhs rhs))
    | _ => Err Unimplemented
    end) op.

(** The dispatch of the visitor. *)
Definition visit_op (op : Operation) : result Value :=
  match op_opcode op with
  | OpConstantNamed | OpConstantNumbered => visitConstant op
  | OpConstantArray => visitConstantArray op
  | OpConstantInt => visitConstantInt op
  | OpConstantFloat => visitConstantFloat op
  | OpFixedArray => visitFixedArray op
  | OpAdd => visit2 bvadd op | OpSub => visit2 bvsub op | OpMul => visit2 bvmul op
  | OpUDiv => visit2 bvudiv op | OpSDiv => visit2 bvsdiv op
  | OpURem => visit2 bvurem op | OpSRem => visit2 bvsrem op
  | OpAnd => visit2 bvand op | OpOr => visit2 bvor op | OpXor => visit2 bvxor op
  | OpShl => visit2 bvshl op | OpLShr => visit2 bvlshr op | OpAShr => visit2 bvashr op
  | OpFAdd => visit2 fadd op | OpFSub => visit2 fsub op | OpFMul => visit2 fmul op
  | OpFDiv => visit2 fdiv op | OpFRem => visit2 frem op
  | OpNot => visit1 bvnot op | OpFNeg => visit1 fneg op | OpFIsNaN => visit1 FIsNaN op
  | OpSelect => visitSelect op
  | OpTrunc => visit_convert trunc op | OpZExt => visit_convert zext op
  | OpSExt => visit_convert sext op
  | OpBitcast => x ← op_index op 0; v ← visit x; bitcast v (op_type op)
  | OpFpTrunc | OpFpExt | OpFpToUI | OpFpToSI | OpUIToFp | OpSIToFp => Err Unimplemented
  | OpEGraphNode => visitEGraphNode op
  | OpAlloc => visitAlloc op
  | OpLoad => visit2 load op
  | OpStore => visit3 store op
  | OpFunctionObject | OpUndef => Err Aborted
  | OpICmp c => visitICmp c op
  | OpFCmp _ => Err Unimplemented
  end.
End visits.

Fixpoint evaluate (fuel : nat) (op : Operation) : result Value :=
  match fuel with
  | O => Err OutOfFuel
  | S n => visit_op (evaluate n) op
  end.
End evaluator.

(** ** The relation between evaluated values and meanings *)
Definition repr (v : Value) (d : Den) : Prop :=
  match v, d with
  | VInt a, DInt b => a = b
  | VFloat f, DFloat g => f = g
  | VArray data w, DArr bs w' =>
      w = w' /\ Z.of_nat (length data) <= SIZE_MAX /\ Forall (fun c => 0 <= c < 256) data /\
      bs = (fun c => Some (APInt_of 8 c)) <$> data
  | _, _ => False
  end.

(** The model and the environment give symbols the same values, where the
    model has one. *)
Definition agrees (m : Model) (e : Env) : Prop :=
  (forall s, lookup_symbol m s None <> VEmpty -> repr (lookup_symbol m s None) (env_symbol e s)) /\
  (forall s n, lookup_symbol m s (Some n) <> VEmpty ->
     repr (lookup_symbol m s (Some n)) (env_array e s n)).

(** The nodes the evaluator implements: symbols the model has, no comparisons
    other than (in)equality, strict changes of width, no allocations. *)
Definition node_evaluable (m : Model) (d : OperationData) (l : list Operation) : Prop :=
  match od_opcode d with
  | OpConstantNamed | OpConstantNumbered =>
      exists s, od_payload d = PSymbol s /\ lookup_symbol m s None <> VEmpty
  | OpConstantArray => desc_ (od_type d) <= 64 /\
      exists s, od_payload d = PSymbol s /\ forall n, lookup_symbol m s (Some n) <> VEmpty
  | OpConstantInt | OpConstantFloat => True
  | OpFixedArray => Z.of_nat (length l) < 2 ^ desc_ (od_type d) /\ Z.of_nat (length l) <= SIZE_MAX
  | OpTrunc | OpZExt | OpSExt =>
      match l with [x] => desc_ (op_type x) <> desc_ (od_type d) | _ => False end
  | OpNot | OpFNeg | OpFIsNaN | OpLoad | OpStore => True
  | o => int_binop o || float_binop o = true
  end.

(** [evaluable m e op]: the evaluator's path through [op] only meets nodes it
    implements and sub-expressions that have a value.  A comparison it meets is
    an (in)equality that is true: one that is false fails an assertion
    ([evaluate_icmp_eq] below). *)
Inductive evaluable (m : Model) (e : Env) : Operation -> Prop :=
| ev_node d l : node_evaluable m d l -> Forall (evaluable m e) l ->
    denote e (mkOp d l) <> None -> evaluable m e (mkOp d l)
| ev_cmp d o x y : od_opcode d = OpICmp o -> o = EQ \/ o = NE -> evaluable m e x -> evaluable m e y ->
    denote e (mkOp d [x; y]) = Some (den_bool true) -> evaluable m e (mkOp d [x; y])
| ev_select d c x y a : od_opcode d = OpSelect -> evaluable m e c -> denote e c = Some (DInt a) ->
    evaluable m e (if getZExtValue a =? 1 then x else y) -> evaluable m e (mkOp d [c; x; y]).
(** ** Correctness *)
Lemma repr_int v a : repr v (DInt a) -> v = VInt a.
Proof. destruct v; cbn; try done. by intros ->. Qed.
Lemma repr_float v f : repr v (DFloat f) -> v = VFloat f.
Proof. destruct v; cbn; try done. by intros ->. Qed.
Lemma repr_arr v bs w : repr v (DArr bs w) ->
  exists data, v = VArray data w /\ Z.of_nat (length data) <= SIZE_MAX /\
    Forall (fun c => 0 <= c < 256) data /\ bs = (fun c => Some (APInt_of 8 c)) <$> data.
Proof. destruct v; cbn; try done. intros (-> & ? & ? & ->). eauto. Qed.

(** Every integer operation of [Value] computes its node. *)
Lemma lift2_fold o f :
  (forall w a b, getBitWidth a = w -> getBitWidth b = w ->
     exists z, f a b = APInt_of w z /\ sem_int o w (getZExtValue a) (getZExtValue b) = Some z) ->
  value_fold o (lift2 f).
Proof.
  intros Hf w a b Hw Ha Hb. destruct (Hf w a b Ha Hb) as (z & Ez & Hz). cbn. rewrite Ez.
  eexists. split; [done|]. rewrite APInt_of_width by (destruct Hw; lia). split; [done|]. congruence.
Qed.

Definition value_binop (o : Opcode) : Value -> Value -> result Value :=
  match o with
  | OpAdd => bvadd | OpSub => bvsub | OpMul => bvmul | OpUDiv => bvudiv | OpSDiv => bvsdiv
  | OpURem => bvurem | OpSRem => bvsrem | OpAnd => bvand | OpOr => bvor | OpXor => bvxor
  | OpShl => bvshl | OpLShr => bvlshr | _ => bvashr
  end.

Lemma value_binop_fold o : int_binop o = true -> value_fold o (value_binop o).
Proof.
  destruct o; try done; intros _; unfold value_binop;
    try first [exact bvudiv_fold|exact bvsdiv_fold|exact bvurem_fold|exact bvsrem_fold];
    apply lift2_fold; intros w a b Ha Hb; eexists; (split; [|done]);
    rewrite ?ap_add_spec, ?ap_sub_spec, ?ap_mul_spec, ?ap_and_spec, ?ap_or_spec, ?ap_xor_spec,
      ?ap_shl_spec, ?ap_lshr_spec, ?ap_ashr_spec, ?Ha, ?Hb by congruence; done.
Qed.

Lemma visit1_ok visit f d x u : visit x = Ok u -> visit1 visit f (mkOp d [x]) = f u.
Proof. intros Ex. unfold visit1. change (op_index (mkOp d [x]) 0) with (Ok x). by rewrite ok_bind, Ex. Qed.
Lemma visit2_ok visit f d x y u v :
  visit x = Ok u -> visit y = Ok v -> visit2 visit f (mkOp d [x; y]) = f u v.
Proof.
  intros Ex Ey. unfold visit2. change (op_index (mkOp d [x; y]) 0) with (Ok x).
  change (op_index (mkOp d [x; y]) 1) with (Ok y). by rewrite ok_bind, Ex, !ok_bind, Ey.
Qed.
Lemma visit3_ok visit f d x y z u v t :
  visit x = Ok u -> visit y = Ok v -> visit z = Ok t -> visit3 visit f (mkOp d [x; y; z]) = f u v t.
Proof.
  intros Ex Ey Ez. unfold visit3. change (op_index (mkOp d [x; y; z]) 0) with (Ok x).
  change (op_index (mkOp d [x; y; z]) 1) with (Ok y). change (op_index (mkOp d [x; y; z]) 2) with (Ok z).
  by rewrite ok_bind, Ex, !ok_bind, Ey, !ok_bind, Ez.
Qed.
Lemma visit_convert_ok visit f d x u w :
  visit x = Ok u -> od_type d = ity w -> visit_convert visit f (mkOp d [x]) = f u w.
Proof.
  intros Ex Ht. unfold visit_convert, op_type. change (op_index (mkOp d [x]) 0) with (Ok x).
  rewrite ok_bind, Ex, ok_bind. cbn [op_data]. by rewrite Ht, bitwidth_ity.
Qed.

Section correct.
Context (m : Model) (extract : Operation -> result Operation) (e : Env) (Hag : agrees m e).

(** [v] is what the evaluator returns for [x], and it represents its meaning. *)
Definition evaluates (n : nat) (x : Operation) (v : Value) (d : Den) : Prop :=
  evaluate m extract n x = Ok v /\ denote e x = Some d /\ repr v d.

Lemma eval_int n d x y :
  int_binop (od_opcode d) = true -> wf (mkOp d [x; y]) -> denote e (mkOp d [x; y]) <> None ->
  (exists v u, evaluates n x v u) -> (exists v u, evaluates n y v u) ->
  exists v u, evaluates (S n) (mkOp d [x; y]) v u.
Proof.
  intros Ho Hwf Hdef (vx & dx & Ex & Dx & Rx) (vy & dy & Ey & Dy & Ry).
  destruct (denote e (mkOp d [x; y])) as [u|] eqn:Eu; [|done]. pose proof Eu as Eu'.
  apply denote_bin_inv in Eu as (a & b & z & Ea & Eb & Ew & Ez & ->); [|done].
  rewrite Dx in Ea. injection Ea as ->. rewrite Dy in Eb. injection Eb as ->.
  apply repr_int in Rx as ->. apply repr_int in Ry as ->.
  apply wf_int_inv in Hwf as (Hx & Hy & w & Hw & Ht & Tx & Ty); [|done].
  destruct (denote_int e x _ w Hx Tx Dx) as (? & [= <-] & Wa).
  destruct (value_binop_fold (od_opcode d) Ho w a b Hw Wa ltac:(congruence)) as (c & Ec & _ & Hc).
  rewrite Wa in Ez. specialize (Hc z Ez). subst c w.
  exists (VInt (APInt_of (getBitWidth a) z)). eexists. split_and!; [|exact Eu'|done].
  cbn [evaluate]. unfold visit_op, op_opcode. cbn [op_data].
  destruct (od_opcode d); try done; by erewrite visit2_ok by eassumption.
Qed.

Lemma eval_float n d x y :
  float_binop (od_opcode d) = true -> denote e (mkOp d [x; y]) <> None ->
  (exists v u, evaluates n x v u) -> (exists v u, evaluates n y v u) ->
  exists v u, evaluates (S n) (mkOp d [x; y]) v u.
Proof.
  intros Ho Hdef (vx & dx & Ex & Dx & Rx) (vy & dy & Ey & Dy & Ry).
  destruct (denote e (mkOp d [x; y])) as [u|] eqn:Eu; [|done]. pose proof Eu as Eu'. clear Hdef.
  cbn in Eu. unfold denote_node in Eu. rewrite Dx, Dy in Eu.
  destruct dx as [a|f|]; [destruct (od_opcode d), dy; try done; cbn in Eu; by case_match| |by destruct (od_opcode d)].
  destruct dy as [b|g|]; [by destruct (od_opcode d)| |by destruct (od_opcode d)].
  apply repr_float in Rx as ->. apply repr_float in Ry as ->.
  eexists. exists u. split_and!; [|exact Eu'|].
  - cbn [evaluate]. unfold visit_op, op_opcode. cbn [op_data].
    instantiate (1 := match sem_float (od_opcode d) f g with Some r => VFloat r | None => VEmpty end).
    destruct (od_opcode d); try done; by erewrite visit2_ok by eassumption.
  - destruct (od_opcode d); try done; cbn in Eu; injection Eu as <-; done.
Qed.

Lemma eval_unary n d x :
  od_opcode d ∈ [OpNot; OpFNeg; OpFIsNaN] -> denote e (mkOp d [x]) <> None ->
  (exists v u, evaluates n x v u) -> exists v u, evaluates (S n) (mkOp d [x]) v u.
Proof.
  intros Ho Hdef (vx & dx & Ex & Dx & Rx).
  destruct (denote e (mkOp d [x])) as [u|] eqn:Eu; [|done]. pose proof Eu as Eu'. clear Hdef.
  cbn in Eu. unfold denote_node in Eu. rewrite Dx in Eu. set_unfold in Ho.
  unfold evaluates. cbn [evaluate]. unfold visit_op, op_opcode. cbn [op_data]. rewrite Eu'.
  destruct (od_opcode d); try (exfalso; naive_solver congruence); destruct dx as [a|f|]; try done;
    first [apply repr_int in Rx as ->|apply repr_float in Rx as ->]; cbn in Eu; injection Eu as <-;
    eexists; eexists; (split_and!; [by erewrite visit1_ok by eassumption|reflexivity|]); cbn; [|done|done].
  by rewrite ap_not_spec.
Qed.

Lemma eval_convert n d x :
  od_opcode d ∈ [OpTrunc; OpZExt; OpSExt] -> wf (mkOp d [x]) ->
  desc_ (op_type x) <> desc_ (od_type d) -> denote e (mkOp d [x]) <> None ->
  (exists v u, evaluates n x v u) -> exists v u, evaluates (S n) (mkOp d [x]) v u.
Proof.
  intros Ho Hwf Hne Hdef (vx & dx & Ex & Dx & Rx).
  destruct (denote e (mkOp d [x])) as [u|] eqn:Eu; [|done]. pose proof Eu as Eu'. clear Hdef.
  cbn in Eu. unfold denote_node in Eu. rewrite Dx in Eu. set_unfold in Ho.
  inversion Hwf as [? ? Hl Hok]; subst. inversion Hl as [|? ? Hx _]; subst.
  assert (exists w w', good_width w /\ good_width w' /\ od_type d = ity w /\ op_type x = ity w' /\
    (od_opcode d = OpTrunc -> w <= w') /\ (od_opcode d <> OpTrunc -> w' <= w))
    as (w & w' & Hw & Hw' & Ht & Tx & Hle & Hge).
  { unfold node_ok in Hok. destruct (od_opcode d); try (exfalso; naive_solver congruence);
      destruct Hok as (w & w' & ? & ? & ? & ? & ?); exists w, w'; naive_solver. }
  rewrite Ht, Tx in Hne. cbn in Hne. destruct (denote_int e x _ w' Hx Tx Dx) as (a & -> & Wa).
  apply repr_int in Rx as ->. pose proof (value_width a w' Hw' Wa) as Hvw.
  unfold evaluates. cbn [evaluate]. unfold visit_op, op_opcode. cbn [op_data]. rewrite Eu'.
  assert (forall k, (t ← value_type (VInt a); vw ← bitwidth t; k vw : result Value) = k w') as Hk.
  { intros k. destruct (value_type (VInt a)) as [t|]; [|done]. cbn in Hvw |- *. by rewrite Hvw. }
  destruct Hw, Hw'. rewrite Ht in Eu.
  destruct (od_opcode d); try (exfalso; naive_solver congruence); cbn in Eu; injection Eu as <-;
    eexists; eexists; (split_and!; [erewrite visit_convert_ok by eassumption; cbn -[value_type bitwidth]; rewrite Hk|reflexivity|]).
  - rewrite (proj2 (Z.ltb_lt _ _)) by (specialize (Hle eq_refl); lia). reflexivity.
  - cbn. by rewrite ap_trunc_spec by (specialize (Hle eq_refl); lia).
  - rewrite (proj2 (Z.ltb_lt _ _)) by (assert (w' <= w) by (by apply Hge); lia). reflexivity.
  - cbn. rewrite ap_sext_spec by (assert (w' <= w) by (by apply Hge); lia). by rewrite Wa.
  - rewrite (proj2 (Z.ltb_lt _ _)) by (assert (w' <= w) by (by apply Hge); lia). reflexivity.
  - cbn. by rewrite ap_zext_spec by (assert (w' <= w) by (by apply Hge); lia).
Qed.
Lemma eval_load n d x i :
  od_opcode d = OpLoad -> wf (mkOp d [x; i]) -> denote e (mkOp d [x; i]) <> None ->
  (exists v u, evaluates n x v u) -> (exists v u, evaluates n i v u) ->
  exists v u, evaluates (S n) (mkOp d [x; i]) v u.
Proof.
  intros Ho Hwf Hdef (vx & dx & Ex & Dx & Rx) (vi & di & Ei & Di & Ri).
  destruct (denote e (mkOp d [x; i])) as [u|] eqn:Eu; [|done]. pose proof Eu as Eu'. clear Hdef.
  cbn in Eu. unfold denote_node in Eu. rewrite Ho, Dx, Di in Eu.
  inversion Hwf as [? ? Hl Hok]; subst. inversion Hl as [|? ? Hx Hl']; subst. inversion Hl' as [|? ? Hi _]; subst.
  unfold node_ok in Hok. rewrite Ho in Hok. destruct Hok as (w & Hw & _ & Tx & Ti).
  destruct (denote_int e i _ w Hi Ti Di) as (a & -> & Wa). apply repr_int in Ri as ->.
  pose proof (denote_typed e x dx Hx Dx) as Hdx. rewrite Tx in Hdx. apply den_arr_inv in Hdx as (bs & -> & _).
  apply repr_arr in Rx as (data & -> & Hlen & Hdata & ->). case_match eqn:Hww; [|done]. clear Hww.
  apply fmap_Some in Eu as (c & Ec & ->). rewrite list_lookup_fmap in Ec.
  destruct (data !! Z.to_nat (getZExtValue a)) as [z|] eqn:Ez; cbn in Ec; [|done]. injection Ec as <-.
  exists (VInt (APInt_of 8 z)), (DInt (APInt_of 8 z)). split_and!; [|done|done].
  cbn [evaluate]. unfold visit_op, op_opcode. cbn [op_data]. rewrite Ho. erewrite visit2_ok by eassumption.
  pose proof (lookup_lt_Some _ _ _ Ez). pose proof (getZExtValue_nonneg a).
  unfold load. cbn -[int_ty array_ty bitwidth]. unfold type_of_apint. rewrite Wa.
  rewrite array_ty_good, int_ty_good by done. cbn -[bitwidth]. rewrite bitwidth_aty, bitwidth_ity. cbn.
  rewrite Z.eqb_refl. cbn. rewrite ap_ult_u64_spec, (proj2 (Z.ltb_lt _ _)) by lia. cbn.
  rewrite getLimitedValue_spec, Z.min_l by lia. rewrite Ez. done.
Qed.

Lemma eval_store n d x i y :
  od_opcode d = OpStore -> wf (mkOp d [x; i; y]) -> denote e (mkOp d [x; i; y]) <> None ->
  (exists v u, evaluates n x v u) -> (exists v u, evaluates n i v u) -> (exists v u, evaluates n y v u) ->
  exists v u, evaluates (S n) (mkOp d [x; i; y]) v u.
Proof.
  intros Ho Hwf Hdef (vx & dx & Ex & Dx & Rx) (vi & di & Ei & Di & Ri) (vy & dy & Ey & Dy & Ry).
  destruct (denote e (mkOp d [x; i; y])) as [u|] eqn:Eu; [|done]. pose proof Eu as Eu'. clear Hdef.
  cbn in Eu. unfold denote_node in Eu. rewrite Ho, Dx, Di, Dy in Eu.
  inversion Hwf as [? ? Hl Hok]; subst. rewrite !Forall_cons in Hl. destruct Hl as (Hx & Hi & Hy & _).
  unfold node_ok in Hok. rewrite Ho in Hok. destruct Hok as (w & Hw & _ & Tx & Ti & Ty).
  destruct (denote_int e i _ w Hi Ti Di) as (a & -> & Wa). apply repr_int in Ri as ->.
  destruct (denote_int e y _ 8 Hy Ty Dy) as (b & -> & Wb). apply repr_int in Ry as ->.
  pose proof (denote_typed e x dx Hx Dx) as Hdx. rewrite Tx in Hdx. apply den_arr_inv in Hdx as (bs & -> & _).
  apply repr_arr in Rx as (data & -> & Hlen & Hdata & ->). rewrite length_fmap in Eu.
  case_match eqn:Hww; [|done]. apply andb_true_iff in Hww as [_ Hlt%Z.ltb_lt]. injection Eu as <-.
  pose proof (value_range b 8 Wb). pose proof (getZExtValue_nonneg a).
  exists (VArray (<[Z.to_nat (getZExtValue a) := getZExtValue b]> data) w).
  eexists. split_and!; [|exact Eu'|].
  - cbn [evaluate]. unfold visit_op, op_opcode. cbn [op_data]. rewrite Ho. erewrite visit3_ok by eassumption.
    unfold store. cbn -[int_ty array_ty bitwidth Value_of_array]. unfold type_of_apint. rewrite Wa, Wb.
    rewrite array_ty_good, !int_ty_good by done. cbn -[bitwidth Value_of_array ty_eqb].
    rewrite bitwidth_aty, bitwidth_ity. cbn -[ty_eqb Value_of_array]. rewrite Z.eqb_refl, ty_eqb_refl. cbn -[Value_of_array].
    rewrite ap_ult_u64_spec, (proj2 (Z.ltb_lt _ _)) by lia. cbn -[Value_of_array].
    rewrite !getLimitedValue_spec, (Z.min_l (getZExtValue a)), (Z.min_l (getZExtValue b)), wrap_small
      by (unfold SIZE_MAX in *; lia). done.
  - cbn. rewrite length_insert, list_fmap_insert. split_and!; try done.
    + by apply Forall_insert.
    + do 2 f_equal. symmetry. apply APInt_of_is; [done|]. by apply wrap_val.
Qed.
Lemma simplify_cint a : simplify (cint a) = Ok (cint a).
Proof. unfold simplify. cbn. unfold visit. by destruct IMPLICIT_CONSTANT_FOLDING. Qed.

(** [ArrayBase::size] of a fixed array. *)
Lemma fixed_size d l w :
  od_opcode d = OpFixedArray -> od_type d = aty w -> good_width w ->
  ArrayBase_size simplify (mkOp d l) = Ok (cint (APInt_of w (Z.of_nat (length l)))).
Proof.
  intros Ho Ht Hw. cbn [ArrayBase_size]. unfold op_opcode, op_type. cbn [op_data].
  rewrite Ho, Ht, bitwidth_aty, ok_bind. unfold num_operands. cbn [op_operands]. rewrite <- simplify_cint.
  unfold ConstantInt_Create, ConstantIntData, type_of_apint.
  rewrite int_ty_good by (rewrite APInt_of_width by (destruct Hw; lia); done). done.
Qed.

Lemma eval_cint n a : evaluate m extract (S n) (cint a) = Ok (VInt a).
Proof. done. Qed.

Lemma fixed_bytes_ok n d l i k :
  (i + k = length l)%nat ->
  (forall x, x ∈ l -> op_type x = ity 8 /\ wf x /\ exists v u, evaluates n x v u) ->
  exists bytes, fixed_bytes (evaluate m extract n) (mkOp d l) i k = Ok bytes /\
    length bytes = k /\ Forall (fun c => 0 <= c < 256) bytes /\
    den_byte <$> (denote e <$> drop i l) = (fun c => Some (APInt_of 8 c)) <$> bytes.
Proof.
  intros Hik Hl. revert i Hik. induction k as [|k IHk]; intros i Hik.
  { exists []. rewrite drop_ge by lia. done. }
  destruct (lookup_lt_is_Some_2 l i) as [x Hx]; [lia|].
  destruct (Hl x) as (Tx & Wx & v & u & Ex & Dx & Rx); [by eapply list_elem_of_lookup_2|].
  destruct (denote_int e x u 8 Wx Tx Dx) as (a & -> & Wa). apply repr_int in Rx as ->.
  destruct (IHk (S i)) as (bytes & Eb & Hlen & Hb & Hden); [lia|].
  pose proof (value_range a 8 Wa). exists (getZExtValue a :: bytes). split_and!.
  - cbn. rewrite Hx. cbn. rewrite Ex. cbn. rewrite Wa, Eb. cbn.
    by rewrite getLimitedValue_spec, Z.min_l, wrap_small by lia.
  - cbn. by rewrite Hlen.
  - by constructor.
  - rewrite (drop_S _ x) by done. rewrite !fmap_cons, Dx. cbn. f_equal; [|done].
    f_equal. symmetry. apply APInt_of_is; [done|]. by apply wrap_val.
Qed.

Lemma eval_fixed n d l :
  od_opcode d = OpFixedArray -> wf (mkOp d l) -> node_evaluable m d l ->
  Forall (fun x => exists v u, evaluates (S n) x v u) l ->
  exists v u, evaluates (S (S n)) (mkOp d l) v u.
Proof.
  intros Ho Hwf Hev Hl. inversion Hwf as [? ? Hf Hok]; subst. unfold node_ok in Hok. rewrite Ho in Hok.
  destruct Hok as (w & Hw & Ht & Hbytes & _). unfold node_evaluable in Hev. rewrite Ho, Ht in Hev.
  destruct Hev as [Hcap Hmax]. cbn in Hcap. assert (0 < w) by (destruct Hw; lia). assert (0 <= w) by lia.
  destruct (fixed_bytes_ok (S n) d l 0 (length l)) as (bytes & Eb & Hlen & Hb & Hden); [lia| |].
  { rewrite Forall_forall in Hf, Hbytes, Hl. intros x Hx. split; [by apply Hbytes|]. split; [by apply Hf|by apply Hl]. }
  exists (VArray bytes w), (DArr (den_byte <$> (denote e <$> l)) w). split_and!.
  - remember (S n) as k eqn:Ek. cbn [evaluate]. unfold visit_op, op_opcode. cbn [op_data]. rewrite Ho. unfold visitFixedArray.
    rewrite (fixed_size d l w) by done.
    rewrite ok_bind. subst k. rewrite eval_cint, ok_bind. cbn [v_apint]. rewrite ok_bind.
    unfold op_type. cbn [cint op_data od_type]. rewrite APInt_of_width, bitwidth_ity, ok_bind by done.
    rewrite getLimitedValue_spec, APInt_of_value, wrap_small, Z.min_l, Nat2Z.id by lia. rewrite Eb, ok_bind.
    rewrite int_ty_good by done. done.
  - rewrite denote_fixed by done. by rewrite Ht.
  - cbn. rewrite Hlen. done.
Qed.

Lemma repr_type v d : repr v d -> den_ty d = Ok void_ty -> False.
Proof.
  intros _ Ht. destruct d; cbn in Ht.
  - apply int_ty_Ok in Ht as [_ [=]]. apply APInt_width_nonneg.
  - by apply (den_ty_float f) in Ht.
  - unfold array_ty, Type_ctor in Ht. inv_ok. discriminate.
Qed.

Lemma repr_value_type v d t : repr v d -> den_ty d = Ok t -> value_type v = Ok t.
Proof.
  destruct v, d; cbn; try done; [by intros ->|by intros ->|]. intros (-> & _) E. inv_ok. done.
Qed.

Lemma eval_symbol n d :
  od_opcode d = OpConstantNamed \/ od_opcode d = OpConstantNumbered -> node_evaluable m d [] ->
  denote e (mkOp d []) <> None -> exists v u, evaluates (S n) (mkOp d []) v u.
Proof using Hag.
  intros Ho Hev Hdef. destruct (denote e (mkOp d [])) as [u|] eqn:Eu; [|done]. pose proof Eu as Eu'.
  unfold node_evaluable in Hev.
  assert (exists s, od_payload d = PSymbol s /\ lookup_symbol m s None <> VEmpty) as (s & Hp & Hs).
  { destruct Ho as [Ho|Ho]; rewrite Ho in Hev; done. }
  assert (typed (od_type d) (env_symbol e s) = Some u) as Ht.
  { cbn in Eu. unfold denote_node in Eu. destruct Ho as [Ho|Ho]; rewrite Ho, Hp in Eu; done. }
  apply typed_Some in Ht as [-> Ht]. destruct Hag as [Ha _]. specialize (Ha s Hs).
  exists (lookup_symbol m s None), (env_symbol e s). split_and!; [|done|done].
  cbn [evaluate]. unfold visit_op, op_opcode. cbn [op_data].
  assert (visitConstant m (mkOp d []) = Ok (lookup_symbol m s None)) as Hv.
  { unfold visitConstant, op_symbol. cbn [op_data]. rewrite Hp, ok_bind. erewrite repr_value_type by done.
    rewrite ok_bind. assert (od_type d <> void_ty) as Hne by (intros E; rewrite E in Ht; by eapply repr_type).
    assert (is_void (od_type d) = false) as ->.
    { unfold is_void. apply bool_decide_eq_false. intros Hk. apply Hne. clear -Ht Hk.
      exfalso. revert Ht. destruct (env_symbol e s); cbn.
      - intros [_ E]%int_ty_Ok; [by rewrite E in Hk|apply APInt_width_nonneg].
      - intros E%(den_ty_float f). unfold is_float in E. rewrite Hk in E. by apply bool_decide_eq_true in E.
      - intros E. unfold array_ty, Type_ctor in E. inv_ok. by rewrite <- E in Hk. }
    destruct (ty_eqb (od_type d) void_ty) eqn:Hty; [by apply ty_eqb_eq in Hty|done]. }
  destruct Ho as [Ho|Ho]; by rewrite Ho.
Qed.
Lemma eval_symbol_array n d x :
  od_opcode d = OpConstantArray -> wf (mkOp d [x]) -> node_evaluable m d [x] ->
  denote e (mkOp d [x]) <> None -> (exists v u, evaluates n x v u) ->
  exists v u, evaluates (S n) (mkOp d [x]) v u.
Proof using Hag.
  intros Ho Hwf Hev Hdef (vx & dx & Ex & Dx & Rx).
  destruct (denote e (mkOp d [x])) as [u|] eqn:Eu; [|done]. pose proof Eu as Eu'. clear Hdef.
  unfold node_evaluable in Hev. rewrite Ho in Hev. destruct Hev as (H64 & s & Hp & Hs).
  inversion Hwf as [? ? Hl Hok]; subst. inversion Hl as [|? ? Hx _]; subst.
  unfold node_ok in Hok. rewrite Ho in Hok. destruct Hok as (s' & w & _ & Hw & Tx & Ht).
  rewrite Ht in H64. cbn in H64. destruct (denote_int e x _ w Hx Tx Dx) as (a & -> & Wa). apply repr_int in Rx as ->.
  assert (getZExtValue a <= SIZE_MAX) as Hmax.
  { pose proof (value_range a w Wa). assert (2 ^ w <= 2 ^ 64) by (apply Z.pow_le_mono_r; destruct Hw; lia).
    unfold SIZE_MAX. lia. }
  cbn in Eu. unfold denote_node in Eu. rewrite Ho, Dx, Hp in Eu. apply typed_Some in Eu as [-> Hty].
  destruct Hag as [_ Ha]. specialize (Ha s (getZExtValue a) (Hs _)).
  exists (lookup_symbol m s (Some (getZExtValue a))), (env_array e s (getZExtValue a)). split_and!; [|done|done].
  cbn [evaluate]. unfold visit_op, op_opcode. cbn [op_data]. rewrite Ho. unfold visitConstantArray, op_symbol.
  change (operand_at (mkOp d [x]) 0) with (Ok x). cbn [op_data]. rewrite ok_bind, Ex, Hp, !ok_bind. cbn [v_apint].
  rewrite !ok_bind, getLimitedValue_spec, Z.min_l by done. erewrite repr_value_type by done. rewrite ok_bind.
  destruct (ty_eqb (od_type d) void_ty) eqn:E; [|done]. apply ty_eqb_eq in E. rewrite Ht in E. done.
Qed.

Lemma size_operand x d l : x ∈ l -> (op_size x < op_size (mkOp d l))%nat.
Proof.
  intros Hx. cbn [op_size]. apply Nat.lt_succ_r. induction l as [|y l IHl]; [set_solver|].
  rewrite fmap_cons.
  change (list_sum (op_size y :: (op_size <$> l))) with (op_size y + list_sum (op_size <$> l))%nat.
  apply elem_of_cons in Hx as [->|Hx]; [lia|]. specialize (IHl Hx). lia.
Qed.

(** A node whose operands evaluate. *)
Lemma eval_node n d l :
  wf (mkOp d l) -> node_evaluable m d l -> denote e (mkOp d l) <> None ->
  Forall (fun x => exists v u, evaluates (S n) x v u) l ->
  exists v u, evaluates (S (S n)) (mkOp d l) v u.
Proof using Hag.
  intros Hwf Hev Hdef Hl. pose proof Hwf as Hwf'. inversion Hwf' as [? ? _ Hok]; subst. unfold node_ok in Hok.
  destruct (od_opcode d) eqn:Ho; try (unfold node_evaluable in Hev; rewrite Ho in Hev; discriminate Hev).
  all: try (by apply eval_fixed). all: try node_shape l Hok.
  all: rewrite ?Forall_cons in Hl; destruct_and? Hl.
  all: try (apply eval_symbol; auto; fail).
  all: try (apply eval_symbol_array; auto; fail).
  all: try (by apply eval_load). all: try (by apply eval_store).
  all: try (apply eval_int; rewrite ?Ho; done).
  all: try (apply eval_float; rewrite ?Ho; done).
  all: try (apply eval_unary; rewrite ?Ho; [set_solver|done..]).
  all: try (unfold node_evaluable in Hev; rewrite Ho in Hev; apply eval_convert; rewrite ?Ho; [set_solver|done..]).
  - destruct Hok as (a & Hp & _). exists (VInt a), (DInt a). split_and!; [|cbn; unfold denote_node; by rewrite Ho, Hp|done].
    cbn [evaluate]. unfold visit_op, op_opcode. cbn [op_data]. rewrite Ho. unfold visitConstantInt. cbn [op_data]. by rewrite Hp.
  - destruct Hok as (f & Hp & _). exists (VFloat f), (DFloat f). split_and!; [|cbn; unfold denote_node; by rewrite Ho, Hp|done].
    cbn [evaluate]. unfold visit_op, op_opcode. cbn [op_data]. rewrite Ho. unfold visitConstantFloat. cbn [op_data]. by rewrite Hp.
Qed.

(** A comparison that is true. *)
Lemma eval_cmp n d o x y :
  od_opcode d = OpICmp o -> o = EQ \/ o = NE -> denote e (mkOp d [x; y]) = Some (den_bool true) ->
  (exists v u, evaluates n x v u) -> (exists v u, evaluates n y v u) ->
  exists v u, evaluates (S n) (mkOp d [x; y]) v u.
Proof.
  intros Ho Hoc Hd (vx & dx & Ex & Dx & Rx) (vy & dy & Ey & Dy & Ry). pose proof Hd as Hd'.
  cbn in Hd. unfold denote_node in Hd. rewrite Ho, Dx, Dy in Hd.
  destruct dx as [a| |], dy as [b| |]; try done. cbn in Hd. destruct (Z.eqb_spec (getBitWidth a) (getBitWidth b)) as [Hw|]; [|done].
  apply (inj Some), den_bool_inj in Hd. apply repr_int in Rx as ->. apply repr_int in Ry as ->.
  exists (VInt (APInt_of 1 1)), (den_bool true). split_and!; [|done|done].
  cbn [evaluate]. unfold visit_op, op_opcode. cbn [op_data]. rewrite Ho.
  unfold visitICmp. erewrite visit2_ok by eassumption. destruct Hoc as [-> | ->]; cbn in *; rewrite ap_eq_spec by done; by rewrite Hd.
Qed.

Lemma evaluate_evaluates n op :
  (op_size op + 1 <= n)%nat -> wf op -> evaluable m e op -> exists v u, evaluates n op v u.
Proof using Hag.
  revert op. induction n as [n IHn] using lt_wf_ind. intros op Hn Hwf Hev.
  destruct n as [|[|n]]; [lia|pose proof (op_size_pos op); lia|].
  destruct Hev as [d l Hnode Hl Hdef|d o x y Ho Hoc Hx Hy Hd|d c x y a Ho Hc Ea Hb].
  - apply eval_node; try done. inversion Hwf as [? ? Hwl _]; subst. rewrite Forall_forall in Hl, Hwl |- *.
    intros x Hx. apply IHn; auto. pose proof (size_operand x d l Hx). lia.
  - inversion Hwf as [? ? Hwl _]; subst. rewrite !Forall_cons in Hwl. destruct Hwl as (Wx & Wy & _).
    pose proof (size_operand x d [x; y] ltac:(set_solver)). pose proof (size_operand y d [x; y] ltac:(set_solver)).
    apply (eval_cmp _ d o); try done; apply IHn; auto; lia.
  - inversion Hwf as [? ? Hwl _]; subst. rewrite !Forall_cons in Hwl. destruct Hwl as (Wc & Wx & Wy & _).
    pose proof (size_operand c d [c; x; y] ltac:(set_solver)). pose proof (size_operand x d [c; x; y] ltac:(set_solver)).
    pose proof (size_operand y d [c; x; y] ltac:(set_solver)).
    destruct (IHn (S n) ltac:(lia) c) as (vc & uc & Ec & Dc & Rc); [lia|done|done|]. rewrite Ea in Dc. injection Dc as <-. apply repr_int in Rc as ->.
    set (b := getZExtValue a =? 1) in *.
    destruct (IHn (S n) ltac:(lia) (if b then x else y)) as (v & u & E & D & R); [destruct b; lia|by destruct b|done|].
    exists v, u. split_and!; [|cbn; unfold denote_node; rewrite Ho, Ea; fold b; destruct b; rewrite D; by destruct (denote e x), (denote e y)|done].
    remember (S n) as k eqn:Ek. cbn [evaluate]. unfold visit_op, op_opcode. cbn [op_data]. rewrite Ho. unfold visitSelect.
    change (op_index (mkOp d [c; x; y]) 0) with (Ok c). change (op_index (mkOp d [c; x; y]) 1) with (Ok x).
    change (op_index (mkOp d [c; x; y]) 2) with (Ok y). rewrite ok_bind, Ec, ok_bind.
    cbn [v_apint]. rewrite ok_bind, ap_eq_u64_spec. fold b. by destruct b.
Qed.
End correct.


(** C38: The evaluator fails on every comparison that is false.  Where both
    operands evaluate to integers of one width, an equality or inequality that
    is true evaluates to the one-bit integer 1, and one that is false fails the
    assertion of [APInt]'s constructor, because [Value(bool)] passes the boolean
    as the number of bits. *)
Theorem evaluate_icmp_eq m extract fuel d o x y a b :
  od_opcode d = OpICmp o -> o = EQ \/ o = NE ->
  evaluate m extract fuel x = Ok (VInt a) -> evaluate m extract fuel y = Ok (VInt b) ->
  getBitWidth a = getBitWidth b ->
  evaluate m extract (S fuel) (mkOp d [x; y]) =
    if sem_icmp o (getBitWidth a) (getZExtValue a) (getZExtValue b) then Ok (VInt (APInt_of 1 1)) else Err AssertFailed.
Proof.
  intros Ho Hoc Ex Ey Hw. cbn [evaluate]. unfold visit_op, op_opcode. cbn [op_data]. rewrite Ho.
  unfold visitICmp. erewrite visit2_ok by eassumption.
  destruct Hoc as [-> | ->]; cbn; rewrite ap_eq_spec by done; by destruct (getZExtValue a =? getZExtValue b).
Qed.

(** The evaluation of an allocation is an array of zeros of the requested
    size, whatever the default value of the allocation is. *)
Theorem evaluate_alloc_zeros m extract fuel d x y a w :
  od_opcode d = OpAlloc -> op_type x = ity w -> good_width w ->
  evaluate m extract fuel x = Ok (VInt a) ->
  evaluate m extract (S fuel) (mkOp d [x; y]) =
    Ok (VArray (replicate (Z.to_nat (Z.min (getZExtValue a) SIZE_MAX)) 0) w).
Proof.
  intros Ho Tx Hw Ex. cbn [evaluate]. unfold visit_op, op_opcode. cbn [op_data]. rewrite Ho.
  unfold visitAlloc. change (operand_at (mkOp d [x; y]) 0) with (Ok x). rewrite ok_bind, Ex, ok_bind.
  cbn [v_apint]. rewrite ok_bind, Tx, bitwidth_ity, ok_bind, int_ty_good, ok_bind by done.
  by rewrite getLimitedValue_spec.
Qed.

(** A fixed array that fills its index space has 2^w elements, but its
    [size] is 2^w in w bits, that is 0, and it evaluates to an empty array. *)
Theorem evaluate_full_array m extract fuel d l w :
  od_opcode d = OpFixedArray -> od_type d = aty w -> good_width w ->
  Z.of_nat (length l) = 2 ^ w ->
  evaluate m extract (S (S fuel)) (mkOp d l) = Ok (VArray [] w).
Proof.
  intros Ho Ht Hw Hl. assert (0 < w) by (destruct Hw; lia). assert (0 <= w) by lia.
  remember (S fuel) as k eqn:Ek. cbn [evaluate]. unfold visit_op, op_opcode. cbn [op_data]. rewrite Ho.
  unfold visitFixedArray. rewrite (fixed_size d l w) by done. rewrite ok_bind. subst k.
  rewrite eval_cint, ok_bind. cbn [v_apint]. rewrite ok_bind.
  unfold op_type. cbn [cint op_data od_type]. rewrite APInt_of_width, bitwidth_ity, ok_bind by done.
  rewrite getLimitedValue_spec, APInt_of_value, Hl by done. unfold wrap. rewrite Z.mod_same by (pose proof (pow2_pos w); lia).
  change (Z.to_nat (0 `min` SIZE_MAX)) with 0%nat. cbn [fixed_bytes]. rewrite ok_bind.
  rewrite int_ty_good by done. done.
Qed.
End modeleval.

Module modeleval_witness.
#[local] Instance on : Config := {| IMPLICIT_CONSTANT_FOLDING := true |}.
Definition c8 (z : Z) : Operation := cint (APInt_of 8 z).
Definition sym8 (s : string) : Operation := mkOp (mkData OpConstantNamed (ity 8) (PSymbol (Named s))) [].
(** A model in which every symbol is the byte 7. *)
Definition seven : Model := mkModel (fun _ _ => VInt (APInt_of 8 7)).
Definition env7 : Env := {|
  env_symbol := fun _ => DInt (APInt_of 8 7); env_array := fun _ _ => DInt (APInt_of 8 7);
  env_node := fun _ => Some (DInt (APInt_of 8 7)) |}.
Definition no_extract (op : Operation) : result Operation := Err Aborted.
Definition add8 : Operation := bin OpAdd 8 (sym8 "x") (c8 250).
(** (select (eq x 7) (add x 250) undef) *)
Definition eq7 : Operation := mkOp (mkData (OpICmp EQ) (ity 1) NoPayload) [sym8 "x"; c8 7].
Definition undef8 : Operation := mkOp (mkData OpUndef (ity 8) NoPayload) [].
Definition sel8 : Operation := mkOp (mkData OpSelect (ity 8) NoPayload) [eq7; add8; undef8].

Lemma model_c8_wf z : wf (c8 z).
Proof. apply cint_wf. by rewrite APInt_of_width. Qed.
Lemma sym8_wf s : wf (sym8 s).
Proof. constructor; [done|]. cbn. eauto. Qed.
Lemma add8_wf : wf add8.
Proof. apply (wf_int_op OpAdd 8); try reflexivity; [split; reflexivity|apply sym8_wf|apply model_c8_wf]. Qed.
Lemma sel8_wf : wf sel8.
Proof.
  constructor; [|by repeat split].
  apply Forall_cons_2; [|apply Forall_cons_2; [apply add8_wf|repeat constructor]].
  constructor; [|exists 8; repeat split; reflexivity].
  apply Forall_cons_2; [apply sym8_wf|apply Forall_cons_2; [apply model_c8_wf|constructor]].
Qed.

Lemma leaf_ev x : x = sym8 "x" \/ (exists z, x = c8 z) -> denote env7 x <> None -> evaluable seven env7 x.
Proof.
  intros [->|[z ->]] Hd; constructor; try done. cbn. exists (Named "x"). split; done.
Qed.
Lemma add8_ev : evaluable seven env7 add8.
Proof.
  constructor; [reflexivity| |vm_decide].
  apply Forall_cons_2; [|apply Forall_cons_2; [|constructor]]; apply leaf_ev; eauto; vm_decide.
Qed.
Lemma sel8_ev : evaluable seven env7 sel8.
Proof.
  eapply (ev_select _ _ _ _ _ _ (APInt_of 1 1)); [reflexivity| |vm_decide|apply add8_ev].
  apply (ev_cmp _ _ _ EQ); [reflexivity|by left|..]; try vm_decide; apply leaf_ev; eauto; vm_decide.
Qed.


(** 3 = 4 fails. *)
Lemma evaluate_icmp_eq_witness :
  evaluate seven no_extract 2 (mkOp (mkData (OpICmp EQ) (ity 1) NoPayload) [c8 3; c8 4]) = Err AssertFailed.
Proof.
  rewrite (evaluate_icmp_eq seven no_extract 1 (mkData (OpICmp EQ) (ity 1) NoPayload) EQ (c8 3) (c8 4)
    (APInt_of 8 3) (APInt_of 8 4)); [reflexivity|reflexivity|left; reflexivity|reflexivity|reflexivity|vm_compute; reflexivity].
Defined.

Lemma evaluate_alloc_zeros_witness :
  evaluate seven no_extract 2 (mkOp (mkData OpAlloc (aty 8) NoPayload) [c8 3; c8 255]) = Ok (VArray [0; 0; 0] 8).
Proof.
  rewrite (evaluate_alloc_zeros seven no_extract 1 (mkData OpAlloc (aty 8) NoPayload) (c8 3) (c8 255) (APInt_of 8 3) 8);
    [do 2 f_equal; vm_decide|reflexivity|reflexivity|split; reflexivity|reflexivity].
Defined.

Lemma evaluate_full_array_witness :
  evaluate seven no_extract 2 (mkOp (mkData OpFixedArray (aty 2) NoPayload) [c8 1; c8 2; c8 3; c8 4]) = Ok (VArray [] 2).
Proof.
  apply (evaluate_full_array seven no_extract 0 (mkData OpFixedArray (aty 2) NoPayload) [c8 1; c8 2; c8 3; c8 4] 2);
    [reflexivity|reflexivity|split; reflexivity|reflexivity].
Defined.
End modeleval_witness.
