(* ===== verification/SparseVector.v ===== *)
(** [caffeine::SparseVector] (include/caffeine/ADT/SparseVector.h): a vector
    with holes, whose free slots form a linked list through the vector.

    The model keeps the backing vector, the stored size and the head of the
    free list.  [inv] says that the free list runs through exactly the empty
    slots; under it the vector behaves as the partial map [contents] from
    indices to elements. *)
From S2P Require Import Prelude.
Open Scope Z_scope.

(** [elem_type]: the index of the next free slot, or a value. *)
Inductive elem (T : Type) : Type :=
| Index (next : Z)
| Elem (value : T).
Arguments Index {_} _.
Arguments Elem {_} _.

(** The sentinel of the free list, [SIZE_MAX]. *)
Definition no_head : Z := SIZE_MAX.

Record SparseVector (T : Type) : Type := mkSparse {
  elements_ : list (elem T);
  size_ : Z;
  head_ : Z
}.
Arguments mkSparse {_} _ _ _.
Arguments elements_ {_} _.
Arguments size_ {_} _.
Arguments head_ {_} _.

Section sparse.
Context {T : Type}.
Implicit Types v : SparseVector T.

Definition sv_empty : SparseVector T := mkSparse [] 0 no_head.
Definition sv_of_list (values : list T) : SparseVector T :=
  mkSparse (Elem <$> values) (Z.of_nat (length values)) no_head.
Definition backing_size v : Z := Z.of_nat (length (elements_ v)).

(** [operator[]]: an index out of range throws, and so does [std::get] on a
    hole. *)
Definition sv_get v (idx : Z) : result T :=
  if backing_size v <=? idx then Err Thrown
  else match elements_ v !! Z.to_nat idx with
       | Some (Elem x) => Ok x
       | _ => Err Thrown
       end.

Definition emplace_back v (x : T) : SparseVector T * Z :=
  (mkSparse (elements_ v ++ [Elem x]) (size_ v + 1) (head_ v), backing_size v).

(** [alloc_slot]: the vector with the slot reserved, and its index. *)
Definition alloc_slot v : result (SparseVector T * Z) :=
  if head_ v =? no_head
  then Ok (mkSparse (elements_ v ++ [Index no_head]) (size_ v) (head_ v), backing_size v)
  else match elements_ v !! Z.to_nat (head_ v) with
       | Some (Index next) => Ok (mkSparse (elements_ v) (size_ v) next, head_ v)
       | Some (Elem _) => Err AssertFailed
       | None => Err UndefinedBehaviour
       end.

Definition emplace v (x : T) : result (SparseVector T * Z) :=
  p ← alloc_slot v; let '(v, idx) := p in
  Ok (mkSparse (<[Z.to_nat idx := Elem x]> (elements_ v)) (size_ v + 1) (head_ v), idx).

Definition sv_erase v (idx : Z) : result (SparseVector T) :=
  assert_ (idx <? backing_size v) ;;
  match elements_ v !! Z.to_nat idx with
  | Some (Elem _) =>
      Ok (mkSparse (<[Z.to_nat idx := Index (head_ v)]> (elements_ v)) (size_ v - 1) idx)
  | _ => Err AssertFailed
  end.

Definition is_value (e : elem T) : bool := match e with Elem _ => true | Index _ => false end.

(** [compress] drops the holes. *)
Definition compress v : SparseVector T :=
  if size_ v =? backing_size v then v
  else let els := filter (fun e => is_value e = true) (elements_ v) in
       mkSparse els (Z.of_nat (length els)) no_head.
Definition sv_clear v : SparseVector T := sv_empty.

(** *** Iterators, as positions in the backing vector

    [operator++] moves to the next value, or to the end. *)
Fixpoint skip_holes (els : list (elem T)) (i : nat) : nat :=
  match els with
  | Index _ :: els => skip_holes els (S i)
  | _ => i
  end.
Definition it_next v (i : nat) : nat := skip_holes (drop (S i) (elements_ v)) (S i).
Definition it_begin v : nat :=
  match elements_ v with Index _ :: _ => it_next v 0 | _ => 0%nat end.
Definition it_end v : nat := length (elements_ v).
Definition it_valid v (i : nat) : result bool :=
  of_option UndefinedBehaviour (is_value <$> elements_ v !! i).
Definition iterator_at v (idx : Z) : result nat :=
  if backing_size v <? idx then Err Thrown else Ok (Z.to_nat idx).

(** The values visited by iterating from [i] to [j]. *)
Fixpoint it_range v (n : nat) (i j : nat) : list T :=
  match n with
  | O => []
  | S n =>
      if (i =? j)%nat then []
      else match elements_ v !! i with
           | Some (Elem x) => x :: it_range v n (it_next v i) j
           | _ => []
           end
  end.

(** ** The invariant *)

(** [l] is the free list that starts at [h]. *)
Fixpoint chain (els : list (elem T)) (h : Z) (l : list nat) : Prop :=
  match l with
  | [] => h = no_head
  | i :: l => h = Z.of_nat i /\ exists next, els !! i = Some (Index next) /\ chain els next l
  end.

Definition count_values (els : list (elem T)) : nat :=
  length (filter (fun e => is_value e = true) els).

Record inv v : Prop := {
  inv_chain : exists l, chain (elements_ v) (head_ v) l /\ NoDup l /\
    forall i, i ∈ l <-> exists next, elements_ v !! i = Some (Index next);
  inv_size : size_ v = Z.of_nat (count_values (elements_ v));
  inv_bound : backing_size v < no_head
}.

(** The abstract contents: a partial map from indices to values. *)
Definition contents v : gmap nat T :=
  map_imap (fun _ e => match e with Elem x => Some x | Index _ => None end)
    (map_seq 0 (elements_ v)).

Lemma contents_lookup v i :
  contents v !! i = match elements_ v !! i with Some (Elem x) => Some x | _ => None end.
Proof.
  unfold contents. rewrite map_lookup_imap, lookup_map_seq_0. by destruct (elements_ v !! i).
Qed.

(** ** Lemmas *)
Lemma chain_insert_ne els h l i e :
  i ∉ l -> chain els h l -> chain (<[i := e]> els) h l.
Proof.
  revert h. induction l as [|j l IHl]; intros h Hi Hc; [done|].
  destruct Hc as (-> & next & Hj & Hc). split; [done|]. exists next. split; [|apply IHl; set_solver].
  rewrite list_lookup_insert_ne; [done|set_solver].
Qed.

Lemma chain_app els h l e : chain els h l -> chain (els ++ [e]) h l.
Proof.
  revert h. induction l as [|j l IHl]; intros h Hc; [done|].
  destruct Hc as (-> & next & Hj & Hc). split; [done|]. exists next. split; [|by apply IHl].
  rewrite lookup_app_l; [done|]. by eapply lookup_lt_Some.
Qed.

Lemma count_app els els' : count_values (els ++ els') = (count_values els + count_values els')%nat.
Proof. unfold count_values. by rewrite filter_app, length_app. Qed.

Lemma count_insert els i e e' :
  els !! i = Some e ->
  Z.of_nat (count_values (<[i := e']> els)) =
  Z.of_nat (count_values els) + Z.b2z (is_value e') - Z.b2z (is_value e).
Proof.
  revert i. induction els as [|x els IHels]; intros [|i] Hi; try done.
  - injection Hi as ->. change (<[0%nat := e']> (e :: els)) with (e' :: els).
    unfold count_values. rewrite !filter_cons. repeat case_decide; cbn [length];
      destruct (is_value e), (is_value e'); cbn; try done; lia.
  - specialize (IHels i Hi). change (<[S i := e']> (x :: els)) with (x :: <[i := e']> els).
    unfold count_values in *. rewrite !filter_cons. case_decide; cbn [length]; lia.
Qed.

Lemma chain_bound els h l : chain els h l -> forall i, i ∈ l -> (i < length els)%nat.
Proof.
  revert h. induction l as [|j l IHl]; intros h Hc i Hi; [set_solver|].
  destruct Hc as (_ & next & Hj & Hc). apply elem_of_cons in Hi as [->|Hi]; [by eapply lookup_lt_Some|eauto].
Qed.

Lemma sv_empty_inv : inv sv_empty.
Proof.
  split; [|done|done]. exists []. split_and!; [done|constructor|].
  intros i. split; [set_solver|]. by intros (? & ?).
Qed.

Lemma sv_of_list_inv values : Z.of_nat (length values) < no_head -> inv (sv_of_list values).
Proof.
  intros Hl. assert (filter (fun e => is_value e = true) (Elem <$> values) = Elem <$> values) as Ef.
  { induction values as [|x values IHv]; [done|].
    rewrite fmap_cons, filter_cons_True by done. f_equal. apply IHv. cbn in Hl. lia. }
  split; unfold sv_of_list, count_values, backing_size; cbn [elements_ size_ head_].
  - exists []. split_and!; [done|constructor|]. intros i. split; [set_solver|].
    intros (next & Hi). apply list_lookup_fmap_Some in Hi as (y & Hy & _). done.
  - by rewrite Ef, length_fmap.
  - by rewrite length_fmap.
Qed.

Lemma emplace_back_ok v x :
  inv v -> backing_size v + 1 < no_head ->
  inv (emplace_back v x).1 /\
  contents (emplace_back v x).1 = <[Z.to_nat (emplace_back v x).2 := x]> (contents v) /\
  contents v !! Z.to_nat (emplace_back v x).2 = None.
Proof.
  intros [(l & Hc & Hnd & Hl) Hs Hb] Hroom. unfold emplace_back, backing_size in *. cbn [fst snd].
  rewrite Nat2Z.id. split_and!.
  - split; unfold backing_size; cbn [elements_ size_ head_].
    + exists l. split_and!; [by apply chain_app|done|]. intros i. rewrite Hl. split; intros (next & Hi); exists next.
      * rewrite lookup_app_l; [done|by eapply lookup_lt_Some].
      * apply lookup_app_Some in Hi as [?|[_ Hi]]; [done|].
        apply list_lookup_singleton_Some in Hi as [_ ?]. done.
    + rewrite count_app. change (count_values [Elem x]) with 1%nat. lia.
    + rewrite length_app. cbn. lia.
  - apply map_eq. intros i. rewrite contents_lookup. cbn [elements_].
    destruct (decide (i = length (elements_ v))) as [->|].
    + rewrite lookup_insert_eq, list_lookup_middle by done. done.
    + rewrite lookup_insert_ne, contents_lookup by done. destruct (decide (i < length (elements_ v))%nat).
      * by rewrite lookup_app_l.
      * rewrite !lookup_ge_None_2; [done|lia|rewrite length_app; cbn; lia].
  - by rewrite contents_lookup, lookup_ge_None_2.
Qed.

Lemma emplace_ok v x :
  inv v -> backing_size v + 1 < no_head ->
  exists v' idx, emplace v x = Ok (v', idx) /\ inv v' /\
    contents v !! Z.to_nat idx = None /\ contents v' = <[Z.to_nat idx := x]> (contents v).
Proof.
  intros Hinv Hroom. pose proof Hinv as [(l & Hc & Hnd & Hl) Hs Hb]. unfold emplace, alloc_slot.
  destruct (Z.eqb_spec (head_ v) no_head) as [Hh|Hh].
  - destruct (emplace_back_ok v x Hinv Hroom) as (Hi & Hcon & Hfresh).
    rewrite ok_bind. eexists. eexists. split; [reflexivity|].
    assert (<[Z.to_nat (backing_size v) := Elem x]> (elements_ v ++ [Index no_head]) =
      elements_ v ++ [Elem x]) as E.
    { unfold backing_size. rewrite Nat2Z.id, insert_app_r_alt, Nat.sub_diag by done. done. }
    cbn [elements_ size_ head_]. rewrite E. done.
  - destruct l as [|i l]; [done|]. destruct Hc as (Hi & next & Hni & Hc). rewrite Hi, Nat2Z.id, Hni, ok_bind.
    eexists. eexists. split; [reflexivity|]. rewrite Nat2Z.id. cbn [elements_ size_ head_].
    apply NoDup_cons in Hnd as [Hil Hnd].
    assert (i < length (elements_ v))%nat as Hlt by by eapply lookup_lt_Some. split_and!.
    + split; unfold backing_size; cbn [elements_ size_ head_].
      * exists l. split_and!; [by apply chain_insert_ne|done|]. intros j.
        destruct (decide (i = j)) as [->|Hne].
        -- split; [done|]. intros (n' & Hn'). by rewrite list_lookup_insert_eq in Hn'.
        -- rewrite list_lookup_insert_ne by done. rewrite <- Hl. set_solver.
      * rewrite (count_insert _ _ (Index next)) by done. cbn. lia.
      * rewrite length_insert. done.
    + by rewrite contents_lookup, Hni.
    + apply map_eq. intros j. rewrite contents_lookup. cbn [elements_]. destruct (decide (i = j)) as [->|].
      * by rewrite lookup_insert_eq, list_lookup_insert_eq.
      * by rewrite lookup_insert_ne, contents_lookup, list_lookup_insert_ne.
Qed.

Lemma sv_erase_ok v i x :
  inv v -> contents v !! i = Some x ->
  exists v', sv_erase v (Z.of_nat i) = Ok v' /\ inv v' /\ contents v' = delete i (contents v).
Proof.
  intros [(l & Hc & Hnd & Hl) Hs Hb] Hi. rewrite contents_lookup in Hi.
  destruct (elements_ v !! i) as [[|y]|] eqn:Ei; try done. injection Hi as ->.
  assert (i < length (elements_ v))%nat as Hlt by by eapply lookup_lt_Some.
  unfold sv_erase, backing_size. rewrite (proj2 (Z.ltb_lt _ _)) by lia. cbn. rewrite Nat2Z.id, Ei.
  eexists. split; [done|].
  assert (i ∉ l) as Hil. { rewrite Hl. intros (n' & ?). congruence. }
  split.
  - split; unfold backing_size; cbn [elements_ size_ head_].
    + exists (i :: l). split_and!; [| |].
      * split; [done|]. exists (head_ v). rewrite list_lookup_insert_eq by done.
        split; [done|by apply chain_insert_ne].
      * by constructor.
      * intros j. destruct (decide (i = j)) as [->|Hne].
        -- rewrite list_lookup_insert_eq by done. set_solver.
        -- rewrite list_lookup_insert_ne, <- Hl by done. set_solver.
    + rewrite (count_insert _ _ (Elem x)) by done. cbn. lia.
    + by rewrite length_insert.
  - apply map_eq. intros j. rewrite contents_lookup. cbn [elements_]. destruct (decide (i = j)) as [->|].
    + by rewrite lookup_delete_eq, list_lookup_insert_eq.
    + by rewrite lookup_delete_ne, contents_lookup, list_lookup_insert_ne.
Qed.

Lemma sv_erase_hole v i : contents v !! Z.to_nat i = None -> sv_erase v i = Err AssertFailed.
Proof.
  rewrite contents_lookup. unfold sv_erase. intros Hi. destruct (assert_ _) as [[]|e] eqn:Ha; cbn.
  - by destruct (elements_ v !! Z.to_nat i) as [[]|].
  - unfold assert_ in Ha. case_match; congruence.
Qed.

(** *** Iteration *)
Definition elem_value (e : elem T) : option T := match e with Elem x => Some x | Index _ => None end.
(** The values in index order. *)
Definition vals (els : list (elem T)) : list T := omap elem_value els.

Lemma vals_app els els' : vals (els ++ els') = vals els ++ vals els'.
Proof. apply omap_app. Qed.

Lemma vals_cons x els : vals (Elem x :: els) = x :: vals els.
Proof. done. Qed.

Lemma skip_holes_spec els i :
  exists k, skip_holes els i = (i + k)%nat /\ (k <= length els)%nat /\ vals (drop k els) = vals els /\
    (drop k els = [] \/ exists x rest, drop k els = Elem x :: rest) /\
    forall p x, (p < k)%nat -> els !! p <> Some (Elem x).
Proof.
  revert i. induction els as [|[next|x] els IHels]; intros i; cbn.
  - exists 0%nat. rewrite Nat.add_0_r. split_and!; auto; lia.
  - destruct (IHels (S i)) as (k & -> & ? & ? & ? & Hp). exists (S k). split_and!; try done; [lia..|].
    intros [|p] x Hlt; [done|]. apply Hp. lia.
  - exists 0%nat. rewrite Nat.add_0_r. split_and!; try done; [lia| |lia]. right. eauto.
Qed.

(** An iterator that can be dereferenced, or the end. *)
Definition it_ok v (i : nat) : Prop :=
  i = it_end v \/ exists x, elements_ v !! i = Some (Elem x).

(** [operator++] stops at the next value, or at the end. *)
Lemma it_next_gen v i :
  (i < it_end v)%nat ->
  it_ok v (it_next v i) /\ (i < it_next v i <= it_end v)%nat /\
  vals (drop (S i) (elements_ v)) = vals (drop (it_next v i) (elements_ v)) /\
  forall j, (i < j <= it_end v)%nat -> it_ok v j -> (it_next v i <= j)%nat.
Proof.
  intros Hi. unfold it_next, it_end in *.
  destruct (skip_holes_spec (drop (S i) (elements_ v)) (S i)) as (k & -> & Hk & Hv & Hd & Hp).
  rewrite length_drop in Hk. rewrite drop_drop in Hv, Hd. split_and!; [|lia..|by rewrite Hv|].
  - destruct Hd as [Hd|(y & rest & Hd)].
    + left. unfold it_end. assert (length (drop (S i + k) (elements_ v)) = 0%nat) as E by by rewrite Hd.
      rewrite length_drop in E. lia.
    + right. exists y. by rewrite <- (Nat.add_0_r (S i + k)), <- lookup_drop, Hd.
  - intros j Hj [->|[x Hx]]; [unfold it_end; lia|].
    destruct (decide (S i + k <= j)%nat); [done|]. exfalso. apply (Hp (j - S i)%nat x); [lia|].
    rewrite lookup_drop. by replace (S i + (j - S i))%nat with j by lia.
Qed.

Lemma it_next_ok v i x :
  elements_ v !! i = Some (Elem x) ->
  it_ok v (it_next v i) /\ (i < it_next v i <= it_end v)%nat /\
  vals (drop i (elements_ v)) = x :: vals (drop (it_next v i) (elements_ v)).
Proof.
  intros Hi. pose proof (lookup_lt_Some _ _ _ Hi). destruct (it_next_gen v i) as (Hok & Hlt & Hv & _); [done|].
  split_and!; [done|lia..|]. rewrite (drop_S _ (Elem x)) by done. by rewrite vals_cons, Hv.
Qed.

Lemma it_begin_ok v : it_ok v (it_begin v) /\ (it_begin v <= it_end v)%nat /\
  vals (drop (it_begin v) (elements_ v)) = vals (elements_ v).
Proof.
  unfold it_begin. destruct (elements_ v) as [|[next|x] els] eqn:E.
  - split_and!; try done; [|lia]. left. unfold it_end. by rewrite E.
  - unfold it_next. rewrite E. cbn [drop]. rewrite drop_0.
    destruct (skip_holes_spec els 1) as (k & -> & Hk & Hv & Hd & _). cbn [Nat.add drop]. split_and!.
    + destruct Hd as [Hd|(y & rest & Hd)].
      * left. unfold it_end. rewrite E. cbn. assert (length (drop k els) = 0%nat) as El by by rewrite Hd.
        rewrite length_drop in El. lia.
      * right. exists y. rewrite E. change (els !! k = Some (Elem y)).
        by rewrite <- (Nat.add_0_r k), <- lookup_drop, Hd.
    + unfold it_end. rewrite E. cbn. lia.
    + done.
  - split_and!; try done; [|lia]. right. exists x. by rewrite E.
Qed.

Lemma it_range_end v n i :
  it_ok v i -> (i <= it_end v)%nat -> (it_end v - i <= n)%nat ->
  it_range v n i (it_end v) = vals (drop i (elements_ v)).
Proof.
  revert i. induction n as [|n IHn]; intros i Hok Hi Hn.
  { rewrite drop_ge by (unfold it_end in *; lia). done. }
  cbn. destruct (Nat.eqb_spec i (it_end v)) as [->|Hne]; [by rewrite drop_ge|].
  destruct Hok as [?|[x Hx]]; [done|]. rewrite Hx.
  destruct (it_next_ok v i x Hx) as (Hok & Hlt & ->). f_equal. apply IHn; [done|lia|lia].
Qed.

(** The values between two iterators, and what follows them. *)
Lemma it_range_app v n i j :
  it_ok v i -> it_ok v j -> (i <= j <= it_end v)%nat -> (j - i <= n)%nat ->
  it_range v n i j ++ vals (drop j (elements_ v)) = vals (drop i (elements_ v)).
Proof.
  revert i. induction n as [|n IHn]; intros i Hi Hj Hij Hn.
  { by replace j with i by lia. }
  cbn. destruct (Nat.eqb_spec i j) as [->|Hne]; [done|].
  destruct Hi as [->|[x Hx]]; [lia|]. rewrite Hx.
  destruct (it_next_ok v i x Hx) as (Hok & Hlt & ->).
  destruct (it_next_gen v i) as (_ & _ & _ & Hle); [lia|]. specialize (Hle j ltac:(lia) Hj).
  cbn. f_equal. apply IHn; [done|done|lia|lia].
Qed.

Lemma vals_take_drop els i : vals (take i els) ++ vals (drop i els) = vals els.
Proof. by rewrite <- vals_app, take_drop. Qed.

(** *** Compaction *)
Lemma filter_values els :
  vals (filter (fun e => is_value e = true) els) = vals els /\
  Forall (fun e => is_value e = true) (filter (fun e => is_value e = true) els).
Proof.
  induction els as [|[next|x] els [IH1 IH2]]; [done|..].
  - rewrite filter_cons_False by done. done.
  - rewrite filter_cons_True, !vals_cons, IH1 by done. split; [done|by constructor].
Qed.

Lemma count_full els : count_values els = length els -> Forall (fun e => is_value e = true) els.
Proof.
  unfold count_values. induction els as [|e els IHels]; [constructor|]. rewrite filter_cons. case_decide; cbn.
  - intros [= E]. constructor; auto.
  - intros E. pose proof (length_filter (fun e => is_value e = true) els). lia.
Qed.

Lemma all_values_no_hole els i next :
  Forall (fun e => is_value e = true) els -> els !! i = Some (Index next) -> False.
Proof. intros Hall Hi. rewrite Forall_lookup in Hall. by specialize (Hall i _ Hi). Qed.

Lemma compress_ok v :
  inv v -> inv (compress v) /\ vals (elements_ (compress v)) = vals (elements_ v) /\
    size_ (compress v) = backing_size (compress v).
Proof.
  intros Hinv. pose proof Hinv as [(l & Hc & Hnd & Hl) Hs Hb]. unfold compress.
  destruct (Z.eqb_spec (size_ v) (backing_size v)) as [E|E]; [done|].
  destruct (filter_values (elements_ v)) as [Hv Hall].
  pose proof (length_filter (fun e => is_value e = true) (elements_ v)).
  assert (filter (fun e => is_value e = true) (filter (fun e => is_value e = true) (elements_ v)) =
    filter (fun e => is_value e = true) (elements_ v)) as Eff.
  { rewrite list_filter_filter. apply list_filter_iff. naive_solver. }
  split_and!; [|done|done]. split; unfold backing_size, count_values in *; cbn [elements_ size_ head_].
  - exists []. split_and!; [done|constructor|]. intros i. split; [set_solver|].
    intros (next & Hi). exfalso. by eapply all_values_no_hole.
  - by rewrite Eff.
  - lia.
Qed.

(** The stored size is the number of values. *)
Lemma size_vals v : inv v -> size_ v = Z.of_nat (length (vals (elements_ v))).
Proof.
  intros [_ Hs _]. rewrite Hs. f_equal. unfold count_values. clear Hs.
  induction (elements_ v) as [|[n|x] els IH]; [done|..].
  - rewrite filter_cons_False by done. exact IH.
  - rewrite filter_cons_True, vals_cons by done. cbn [length]. by rewrite IH.
Qed.

(** ** The contract *)

(** C32: A sparse vector is a partial map from indices to values: inserting with
    slot reuse always succeeds on a vector with room, at an index that was
    free, and changes the map there only; erasing succeeds exactly at the
    indices in the map and removes that index only; both keep the free list
    consistent. *)
Theorem sparse_vector_refines_map v x i :
  inv v -> backing_size v + 1 < no_head ->
  (exists v' idx, emplace v x = Ok (v', idx) /\ inv v' /\
     contents v !! Z.to_nat idx = None /\ contents v' = <[Z.to_nat idx := x]> (contents v)) /\
  match contents v !! i with
  | Some _ => exists v', sv_erase v (Z.of_nat i) = Ok v' /\ inv v' /\ contents v' = delete i (contents v)
  | None => sv_erase v (Z.of_nat i) = Err AssertFailed
  end.
Proof.
  intros Hinv Hroom. split; [by apply emplace_ok|].
  destruct (contents v !! i) eqn:Hi; [by eapply sv_erase_ok|]. apply sv_erase_hole. by rewrite Nat2Z.id.
Qed.

(** Iterating from [begin] to [end] visits every value exactly once, in index
    order, and compaction keeps that sequence, the invariant and the size. *)
Theorem sparse_vector_iteration v :
  inv v ->
  it_range v (it_end v) (it_begin v) (it_end v) = vals (elements_ v) /\
  size_ v = Z.of_nat (length (vals (elements_ v))) /\
  inv (compress v) /\ size_ (compress v) = backing_size (compress v) /\
  it_range (compress v) (it_end (compress v)) (it_begin (compress v)) (it_end (compress v)) =
    vals (elements_ v).
Proof.
  intros Hinv. destruct (compress_ok v Hinv) as (Hc & Hv & Hs).
  assert (forall u : SparseVector T, it_range u (it_end u) (it_begin u) (it_end u) = vals (elements_ u)) as Hit.
  { intros u. destruct (it_begin_ok u) as (Hok & Hle & <-). apply it_range_end; [done|done|lia]. }
  split_and!; try done; [by apply size_vals|]. by rewrite Hit.
Qed.
End sparse.

(** Four values, of which the second and the third are erased; the next insertion
    reuses the slot freed last. *)
Module sparse_witness.
Definition v4 : SparseVector Z := sv_of_list [10; 20; 30; 40].
Definition v2 : SparseVector Z := mkSparse [Elem 10; Index no_head; Index 1; Elem 40] 2 2.

Lemma v2_reached : (v ← sv_erase v4 1; sv_erase v 2) = Ok v2.
Proof. reflexivity. Qed.
Lemma v2_inv : inv v2.
Proof.
  split; [|reflexivity|reflexivity]. exists [2; 1]%nat. split_and!.
  - cbn. split; [reflexivity|]. exists 1. split; [reflexivity|]. split; [reflexivity|].
    exists no_head. done.
  - repeat constructor; set_solver.
  - intros i. split.
    + intros Hi. set_unfold in Hi. destruct Hi as [->|[->|[]]]; cbn; eauto.
    + intros (next & Hi). destruct i as [|[|[|[|i]]]]; cbn in Hi; try done; set_solver.
Qed.

Lemma sparse_vector_refines_map_witness :
  exists v' idx, emplace v2 50 = Ok (v', idx) /\ inv v' /\
    contents v2 !! Z.to_nat idx = None /\ contents v' = <[Z.to_nat idx := 50]> (contents v2).
Proof.
  apply (sparse_vector_refines_map v2 50 0 v2_inv). reflexivity.
Defined.

Lemma sparse_vector_iteration_witness :
  it_range v2 (it_end v2) (it_begin v2) (it_end v2) = [10; 40].
Proof. apply (sparse_vector_iteration v2 v2_inv). Defined.
End sparse_witness.
