(* ===== verification/SharedArray.v ===== *)
(** [caffeine::SharedArray] (include/caffeine/ADT/SharedArray.h,
    src/ADT/SharedArray.cpp): the bytes of array values, copied lazily.

    Copies share a [Variant] behind a shared pointer and record their own
    changes, and copying changes the representation of the array that is
    copied from.  The model keeps the shared variants in a store, where a
    pointer is an index, and the array objects of a program in a list, so that
    sharing between them is explicit.  [shared_array_refines] shows that the
    objects behave like independent byte vectors all the same. *)
From S2P Require Import Prelude.
Open Scope Z_scope.

(** [std::variant<std::vector<char>, Modified>]. *)
Inductive Variant : Type :=
| Flat (data : list Z)
| Modified (variant : nat) (changes : gmap Z Z).
Abbreviation store_t := (list Variant).
Record SharedArray : Type := mkShared { sa_data : Variant; modcnt_ : Z; sa_size : Z }.

Definition min_copy_size : Z := 64.
(** [modcnt_ > size() * flatten_threshold], where the threshold is 0.8; below
    2^50 the product of doubles is exact enough for this comparison. *)
Definition above_threshold (modcnt size : Z) : bool := 4 * size <? 5 * modcnt.

(** [Modified::operator[]]; the loop follows at most all shared variants. *)
Fixpoint modified_get (fuel : nat) (h : store_t) (p : nat) (changes : gmap Z Z) (idx : Z) : result Z :=
  match fuel with
  | O => Err OutOfFuel
  | S fuel =>
      match changes !! idx with
      | Some c => Ok c
      | None =>
          match h !! p with
          | Some (Flat data) => of_option Thrown (data !! Z.to_nat idx)
          | Some (Modified p changes) => modified_get fuel h p changes idx
          | None => Err UndefinedBehaviour
          end
      end
  end.
Definition variant_get (h : store_t) (v : Variant) (idx : Z) : result Z :=
  match v with
  | Flat data => of_option UndefinedBehaviour (data !! Z.to_nat idx)
  | Modified p changes => modified_get (S (length h)) h p changes idx
  end.

(** ** Operations *)

(** [SharedArray()], the constructors from a vector and from a buffer, and the
    one from a range, which does not set the size. *)
Definition sa_empty : SharedArray := mkShared (Flat []) 0 0.
Definition sa_of_vector (data : list Z) : SharedArray := mkShared (Flat data) 0 (Z.of_nat (length data)).
Definition sa_of_range (data : list Z) : SharedArray := mkShared (Flat data) 0 0.

Definition is_flat (a : SharedArray) : bool := match sa_data a with Flat _ => true | _ => false end.
Definition sa_load (h : store_t) (a : SharedArray) (idx : Z) : result Z :=
  assert_ (idx <? sa_size a) ;; variant_get h (sa_data a) idx.
Definition flatten (h : store_t) (a : SharedArray) : result SharedArray :=
  if is_flat a then Ok a
  else newdata ← mapM (sa_load h a) (seqZ 0 (sa_size a)); Ok (mkShared (Flat newdata) (modcnt_ a) (sa_size a)).
Definition sa_store (h : store_t) (a : SharedArray) (idx value : Z) : result SharedArray :=
  assert_ (idx <? sa_size a) ;;
  match sa_data a with
  | Flat data =>
      _ ← of_option Thrown (data !! Z.to_nat idx);
      Ok (mkShared (Flat (<[Z.to_nat idx := value]> data)) (modcnt_ a) (sa_size a))
  | Modified p changes =>
      match changes !! idx with
      | Some _ => Ok (mkShared (Modified p (<[idx := value]> changes)) (modcnt_ a) (sa_size a))
      | None =>
          old ← variant_get h (sa_data a) idx;
          if old =? value then Ok a
          else
            let a := mkShared (Modified p (<[idx := value]> changes)) (modcnt_ a + 1) (sa_size a) in
            if above_threshold (modcnt_ a) (sa_size a) then flatten h a else Ok a
      end
  end.
(** The copying assignment: the store, what becomes of the source and the copy. *)
Definition sa_copy (h : store_t) (src : SharedArray) : store_t * SharedArray * SharedArray :=
  let small := match sa_data src with
               | Flat data => Z.of_nat (length data) <=? min_copy_size
               | Modified _ changes => Z.of_nat (size changes) <=? min_copy_size
               end in
  if small then (h, src, src)
  else let shared := mkShared (Modified (length h) ∅) (modcnt_ src) (sa_size src) in (h ++ [sa_data src], shared, shared).
(** [operator==]. *)
Fixpoint eq_loop (h : store_t) (a b : SharedArray) (idxs : list Z) : result bool :=
  match idxs with
  | [] => Ok true
  | i :: idxs => x ← sa_load h a i; y ← sa_load h b i; if negb (x =? y) then Ok false else eq_loop h a b idxs
  end.
Definition sa_eqb (h : store_t) (a b : SharedArray) : result bool :=
  if negb (sa_size a =? sa_size b) then Ok false else eq_loop h a b (seqZ 0 (sa_size a)).

(** ** Programs that use arrays *)
Record World : Type := mkWorld { w_store : store_t; w_arrays : list SharedArray }.
Definition w_get (w : World) (i : nat) : result SharedArray := of_option UndefinedBehaviour (w_arrays w !! i).
Inductive ArrayOp : Type :=
| ONew (data : list Z) | OCopyCtor (src : nat) | OCopy (dst src : nat) | OMove (dst src : nat)
| OStore (i : nat) (idx value : Z) | OLoad (i : nat) (idx : Z) | OFlatten (i : nat) | OEqual (i j : nat).
(** One operation, with what it returns. *)
Definition run_op (o : ArrayOp) (w : World) : result (World * option Z) :=
  let h := w_store w in let arrays := w_arrays w in
  match o with
  | ONew data => Ok (mkWorld h (arrays ++ [sa_of_vector data]), None)
  | OCopyCtor src =>
      a ← w_get w src; let '(h, s, d) := sa_copy h a in Ok (mkWorld h (<[src := s]> arrays ++ [d]), None)
  | OCopy dst src =>
      a ← w_get w src; _ ← w_get w dst;
      let '(h, s, d) := sa_copy h a in Ok (mkWorld h (<[dst := d]> (<[src := s]> arrays)), None)
  | OMove dst src =>
      a ← w_get w src; _ ← w_get w dst; Ok (mkWorld h (<[src := sa_empty]> (<[dst := a]> arrays)), None)
  | OStore i idx value => a ← w_get w i; a ← sa_store h a idx value; Ok (mkWorld h (<[i := a]> arrays), None)
  | OLoad i idx => a ← w_get w i; c ← sa_load h a idx; Ok (w, Some c)
  | OFlatten i => a ← w_get w i; a ← flatten h a; Ok (mkWorld h (<[i := a]> arrays), None)
  | OEqual i j => a ← w_get w i; b ← w_get w j; r ← sa_eqb h a b; Ok (w, Some (Z.b2z r))
  end.
Fixpoint run_ops (os : list ArrayOp) (w : World) : result (World * list (option Z)) :=
  match os with
  | [] => Ok (w, [])
  | o :: os => '(w, r) ← run_op o w; '(w, rs) ← run_ops os w; Ok (w, r :: rs)
  end.

(** *** The specification: independent vectors *)
Definition spec_op (o : ArrayOp) (vs : list (list Z)) : result (list (list Z) * option Z) :=
  let get i := of_option UndefinedBehaviour (vs !! i) in
  match o with
  | ONew data => Ok (vs ++ [data], None)
  | OCopyCtor src => v ← get src; Ok (vs ++ [v], None)
  | OCopy dst src => v ← get src; _ ← get dst; Ok (<[dst := v]> vs, None)
  | OMove dst src => v ← get src; _ ← get dst; Ok (<[src := []]> (<[dst := v]> vs), None)
  | OStore i idx value =>
      v ← get i; assert_ (idx <? Z.of_nat (length v)) ;; Ok (<[i := <[Z.to_nat idx := value]> v]> vs, None)
  | OLoad i idx =>
      v ← get i; assert_ (idx <? Z.of_nat (length v)) ;; c ← of_option UndefinedBehaviour (v !! Z.to_nat idx); Ok (vs, Some c)
  | OFlatten i => _ ← get i; Ok (vs, None)
  | OEqual i j => u ← get i; v ← get j; Ok (vs, Some (Z.b2z (bool_decide (u = v))))
  end.
Fixpoint spec_ops (os : list ArrayOp) (vs : list (list Z)) : result (list (list Z) * list (option Z)) :=
  match os with
  | [] => Ok (vs, [])
  | o :: os => '(vs, r) ← spec_op o vs; '(vs, rs) ← spec_ops os vs; Ok (vs, r :: rs)
  end.

(** ** What a variant holds *)
Definition patch (changes : gmap Z Z) (bs : list Z) : list Z := imap (fun i b => default b (changes !! Z.of_nat i)) bs.
(** The pointers of a chain decrease, from below [k]. *)
Inductive holds (h : store_t) : nat -> Variant -> list Z -> Prop :=
| holds_flat k data : holds h k (Flat data) data
| holds_modified k p changes v bs :
    (p < k)%nat -> h !! p = Some v -> holds h p v bs ->
    (forall i c, changes !! i = Some c -> 0 <= i < Z.of_nat (length bs)) ->
    holds h k (Modified p changes) (patch changes bs).
Record arr_holds (h : store_t) (a : SharedArray) (bs : list Z) : Prop := {
  ah_data : holds h (length h) (sa_data a) bs;
  ah_size : sa_size a = Z.of_nat (length bs)
}.

Lemma patch_length changes bs : length (patch changes bs) = length bs.
Proof. apply length_imap. Qed.
Lemma patch_lookup changes bs i b : bs !! i = Some b -> patch changes bs !! i = Some (default b (changes !! Z.of_nat i)).
Proof. intros Hi. unfold patch. by rewrite list_lookup_imap, Hi. Qed.
Lemma patch_empty bs : patch ∅ bs = bs.
Proof.
  apply list_eq. intros i. unfold patch. rewrite list_lookup_imap, lookup_empty. by destruct (bs !! i).
Qed.
Lemma patch_insert changes bs i c :
  0 <= i < Z.of_nat (length bs) -> patch (<[i := c]> changes) bs = <[Z.to_nat i := c]> (patch changes bs).
Proof.
  intros Hi. apply list_eq. intros j. destruct (decide (j = Z.to_nat i)) as [->|Hj].
  - rewrite list_lookup_insert_eq by (rewrite patch_length; lia).
    destruct (lookup_lt_is_Some_2 bs (Z.to_nat i)) as [b Hb]; [lia|]. rewrite (patch_lookup _ _ _ _ Hb), Z2Nat.id by lia.
    by rewrite lookup_insert_eq.
  - rewrite list_lookup_insert_ne by done. unfold patch. rewrite !list_lookup_imap. destruct (bs !! j); [|done]. cbn.
    rewrite lookup_insert_ne by lia. done.
Qed.
Lemma holds_weaken h k k' v bs : (k <= k')%nat -> holds h k v bs -> holds h k' v bs.
Proof. intros Hk Hv. destruct Hv; econstructor; try done. lia. Qed.
(** The store only grows. *)
Lemma holds_grow h h' k v bs : holds h k v bs -> holds (h ++ h') k v bs.
Proof.
  induction 1 as [|k p changes v bs Hp Hv Hb IH Hc]; [constructor|]. econstructor; try done. by apply lookup_app_l_Some.
Qed.
Lemma arr_holds_grow h h' a bs : arr_holds h a bs -> arr_holds (h ++ h') a bs.
Proof.
  intros [Hd Hs]. split; [|done]. eapply holds_weaken; [|by apply holds_grow]. rewrite length_app. lia.
Qed.

Lemma modified_get_ok h k v bs idx c :
  holds h k v bs -> bs !! Z.to_nat idx = Some c -> 0 <= idx ->
  forall p changes fuel, v = Modified p changes -> (p < fuel)%nat -> modified_get fuel h p changes idx = Ok c.
Proof.
  intros Hv. revert c. induction Hv as [|k p changes v bs Hp Hh Hb IH Hc]; intros c Hl Hi p' ch' fuel [= <- <-] Hf.
  destruct fuel as [|fuel]; [lia|]. cbn [modified_get].
  destruct (lookup_lt_is_Some_2 bs (Z.to_nat idx)) as [b Hbs].
  { apply lookup_lt_Some in Hl. by rewrite patch_length in Hl. }
  rewrite (patch_lookup _ _ _ _ Hbs), Z2Nat.id in Hl by done. destruct (changes !! idx) as [c'|] eqn:Ec; cbn in Hl; simplify_eq; [done|].
  rewrite Hh. destruct v as [data|p2 ch2].
  - inversion Hb; subst. by rewrite Hbs.
  - eapply (IH c Hbs Hi); [done|]. inversion Hb; subst. lia.
Qed.
Lemma variant_get_ok h v bs idx c :
  holds h (length h) v bs -> bs !! Z.to_nat idx = Some c -> 0 <= idx -> variant_get h v idx = Ok c.
Proof.
  intros Hv Hl Hi. destruct v as [data|p changes]; cbn [variant_get].
  - inversion Hv; subst. by rewrite Hl.
  - eapply modified_get_ok; try done. inversion Hv; subst. lia.
Qed.

Lemma sa_load_ok h a bs idx : arr_holds h a bs -> 0 <= idx ->
  sa_load h a idx = (assert_ (idx <? Z.of_nat (length bs)) ;; of_option UndefinedBehaviour (bs !! Z.to_nat idx)).
Proof.
  intros [Hd Hs] Hi. unfold sa_load. rewrite Hs. destruct (Z.ltb_spec idx (Z.of_nat (length bs))); [|done]. cbn [assert_]. rewrite !ok_bind.
  destruct (lookup_lt_is_Some_2 bs (Z.to_nat idx)) as [c Hc]; [lia|]. rewrite Hc. by eapply variant_get_ok.
Qed.
Lemma load_all h a bs : arr_holds h a bs -> mapM (sa_load h a) (seqZ 0 (Z.of_nat (length bs))) = Ok bs.
Proof.
  intros Ha. assert (forall l k, bs = take k bs ++ l -> length (take k bs) = k -> mapM (sa_load h a) (seqZ (Z.of_nat k) (Z.of_nat (length l))) = Ok l) as Hgen.
  { induction l as [|c l IHl]; intros k Hl Hk; [done|]. rewrite seqZ_cons by (cbn; lia). cbn [mapM].
    assert (bs !! k = Some c) as Hc by (rewrite Hl, lookup_app_r, Hk, Nat.sub_diag by lia; done).
    rewrite (sa_load_ok h a bs) by (done || lia). pose proof (lookup_lt_Some _ _ _ Hc).
    rewrite (proj2 (Z.ltb_lt (Z.of_nat k) _)) by lia. cbn [assert_]. rewrite ok_bind, Nat2Z.id, Hc. cbn [of_option]. rewrite ok_bind.
    replace (Z.succ (Z.of_nat k)) with (Z.of_nat (S k)) by lia. replace (Z.pred (Z.of_nat (length (c :: l)))) with (Z.of_nat (length l)) by (cbn; lia).
    rewrite IHl; [done| |rewrite length_take; lia]. rewrite (take_S_r _ _ c) by done. by rewrite <- app_assoc. }
  apply (Hgen bs 0%nat); done.
Qed.
Lemma flatten_ok h a bs : arr_holds h a bs -> exists a', flatten h a = Ok a' /\ arr_holds h a' bs.
Proof.
  intros Ha. unfold flatten. destruct (is_flat a); [by exists a|]. rewrite (ah_size _ _ _ Ha), (load_all h a bs Ha), ok_bind.
  eexists. split; [done|]. split; [constructor|done].
Qed.
Lemma sa_store_ok h a bs idx value : arr_holds h a bs -> 0 <= idx < Z.of_nat (length bs) ->
  exists a', sa_store h a idx value = Ok a' /\ arr_holds h a' (<[Z.to_nat idx := value]> bs).
Proof.
  intros Ha Hi. pose proof Ha as [Hd Hs]. unfold sa_store. rewrite Hs, (proj2 (Z.ltb_lt idx _)) by lia. cbn [assert_]. rewrite ok_bind.
  destruct (lookup_lt_is_Some_2 bs (Z.to_nat idx)) as [c Hc]; [lia|].
  destruct (sa_data a) as [data|p changes] eqn:Ed.
  - inversion Hd; subst. rewrite Hc. eexists. split; [done|]. split; [constructor|]. cbn. by rewrite length_insert.
  - assert (holds h (length h) (Modified p (<[idx := value]> changes)) (<[Z.to_nat idx := value]> bs)) as Hnew.
    { inversion Hd as [|? ? ? v bs0 Hp Hh Hb Hch]; subst. rewrite <- patch_insert by (rewrite patch_length in Hi; lia).
      econstructor; try done. intros i c'. destruct (decide (i = idx)) as [->|]; [intros _; rewrite patch_length in Hi; lia|].
      rewrite lookup_insert_ne by done. apply Hch. }
    assert (forall m, arr_holds h (mkShared (Modified p (<[idx := value]> changes)) m (sa_size a)) (<[Z.to_nat idx := value]> bs)) as Harr.
    { intros m. split; [done|]. cbn. by rewrite length_insert. }
    rewrite <- Hs. destruct (changes !! idx) as [c'|]; [by eexists|]. rewrite (variant_get_ok h _ bs idx c) by (done || lia). rewrite ok_bind.
    destruct (Z.eqb_spec c value) as [->|_]; [exists a; by rewrite list_insert_id|].
    case_match; [|by eexists]. apply flatten_ok, Harr.
Qed.
Lemma sa_copy_ok h a bs h' s d : arr_holds h a bs -> sa_copy h a = (h', s, d) ->
  (exists new, h' = h ++ new) /\ arr_holds h' s bs /\ arr_holds h' d bs.
Proof.
  intros Ha. unfold sa_copy. case_match; intros [= <- <- <-]; [split_and!; try done; exists []; by rewrite app_nil_r|].
  assert (arr_holds (h ++ [sa_data a]) (mkShared (Modified (length h) ∅) (modcnt_ a) (sa_size a)) bs) as Hn.
  { destruct Ha as [Hd Hs]. split; [|done]. cbn [sa_data]. rewrite <- (patch_empty bs). apply (holds_modified _ _ _ _ (sa_data a)).
    - rewrite length_app. cbn. lia.
    - rewrite lookup_app_r by lia. by rewrite Nat.sub_diag.
    - by apply holds_grow.
    - intros i c. by rewrite lookup_empty. }
  split_and!; try done. by exists [sa_data a].
Qed.
Lemma eq_loop_ok h a b idxs : forall u v,
  mapM (sa_load h a) idxs = Ok u -> mapM (sa_load h b) idxs = Ok v -> eq_loop h a b idxs = Ok (bool_decide (u = v)).
Proof.
  induction idxs as [|i idxs IH]; intros u v; cbn [mapM eq_loop].
  - intros [= <-] [= <-]. by rewrite bool_decide_eq_true_2.
  - intros Eu Ev. inv_ok. injection Eu as <-. injection Ev as <-. rewrite H, H1, !ok_bind.
    rewrite (IH _ _ H2 H0). destruct (Z.eqb_spec a2 a0) as [->|]; cbn [negb]; f_equal; apply bool_decide_ext || symmetry; [naive_solver|].
    apply bool_decide_eq_false_2. congruence.
Qed.
Lemma sa_eqb_ok h a b u v : arr_holds h a u -> arr_holds h b v -> sa_eqb h a b = Ok (bool_decide (u = v)).
Proof.
  intros Ha Hb. unfold sa_eqb. rewrite (ah_size _ _ _ Ha), (ah_size _ _ _ Hb).
  destruct (Z.eqb_spec (Z.of_nat (length u)) (Z.of_nat (length v))) as [Hl|Hl]; cbn [negb]; [|by rewrite bool_decide_eq_false_2 by (intros ->; lia)].
  apply eq_loop_ok; [by apply load_all|]. rewrite Hl. by apply load_all.
Qed.

(** ** Refinement *)
Definition world_holds (w : World) (vs : list (list Z)) : Prop := Forall2 (arr_holds (w_store w)) (w_arrays w) vs.
(** Indices are values of [size_t]. *)
Definition op_in_range (o : ArrayOp) : Prop := match o with OStore _ idx _ | OLoad _ idx => 0 <= idx | _ => True end.

Lemma w_get_ok w vs i : world_holds w vs ->
  match vs !! i with
  | Some v => exists a, w_get w i = Ok a /\ w_arrays w !! i = Some a /\ arr_holds (w_store w) a v
  | None => w_get w i = Err UndefinedBehaviour
  end.
Proof.
  intros Hw. unfold w_get. destruct (vs !! i) as [v|] eqn:Ei.
  - destruct (Forall2_lookup_r _ _ _ _ _ Hw Ei) as (a & Ha & Hav). exists a. by rewrite Ha.
  - assert (w_arrays w !! i = None) as ->; [|done]. apply lookup_ge_None. apply lookup_ge_None in Ei. by rewrite (Forall2_length _ _ _ Hw).
Qed.
Lemma world_grow h h' arrays vs : Forall2 (arr_holds h) arrays vs -> Forall2 (arr_holds (h ++ h')) arrays vs.
Proof. intros Hw. eapply Forall2_impl; [exact Hw|]. intros a v. apply arr_holds_grow. Qed.

(** Read the array [i] on both sides, or fail on both. *)
Ltac fetch Hw i v a Ha :=
  let Hs := fresh "Hs" in let E := fresh "E" v in
  pose proof (w_get_ok _ _ i Hw) as Hs;
  match type of Hw with world_holds _ ?vs => destruct (vs !! i) as [v|] eqn:E end;
  cbn [of_option]; [|by rewrite Hs]; destruct Hs as (a & -> & _ & Ha); rewrite !ok_bind.

Lemma run_op_ok o w vs : world_holds w vs -> op_in_range o ->
  match spec_op o vs with
  | Ok (vs', r) => exists w', run_op o w = Ok (w', r) /\ world_holds w' vs'
  | Err e => run_op o w = Err e
  end.
Proof.
  intros Hw Ho. destruct o as [data|src|dst src|dst src|i idx value|i idx|i|i j]; cbn [spec_op run_op].
  - eexists. split; [done|]. apply Forall2_app; [done|]. constructor; [|done]. split; [constructor|done].
  - fetch Hw src v a Ha. destruct (sa_copy (w_store w) a) as [[h s] d] eqn:Ec.
    destruct (sa_copy_ok _ _ _ _ _ _ Ha Ec) as ([new ->] & Hs & Hd). eexists. split; [done|]. apply Forall2_app; [|by constructor].
    rewrite <- (list_insert_id vs src v Ev). by apply Forall2_insert; [apply world_grow|].
  - fetch Hw src v a Ha. fetch Hw dst u b Hb. destruct (sa_copy (w_store w) a) as [[h s] d] eqn:Ec.
    destruct (sa_copy_ok _ _ _ _ _ _ Ha Ec) as ([new ->] & Hs & Hd). eexists. split; [done|]. apply Forall2_insert; [|done].
    rewrite <- (list_insert_id vs src v Ev). by apply Forall2_insert; [apply world_grow|].
  - fetch Hw src v a Ha. fetch Hw dst u b Hb. eexists. split; [done|].
    apply Forall2_insert; [by apply Forall2_insert|]. split; [constructor|done].
  - fetch Hw i v a Ha. destruct (Z.ltb_spec idx (Z.of_nat (length v))) as [Hi|Hi]; cbn [assert_].
    + rewrite !ok_bind. destruct (sa_store_ok _ _ _ idx value Ha) as (a' & -> & Ha'); [cbn in Ho; lia|]. rewrite ok_bind.
      eexists. split; [done|]. by apply Forall2_insert.
    + unfold sa_store. rewrite (ah_size _ _ _ Ha). by rewrite (proj2 (Z.ltb_ge idx _)) by lia.
  - fetch Hw i v a Ha. rewrite (sa_load_ok _ _ _ _ Ha) by done.
    destruct (Z.ltb_spec idx (Z.of_nat (length v))) as [Hi|Hi]; cbn [assert_]; [|done]. rewrite !ok_bind.
    cbn in Ho. destruct (lookup_lt_is_Some_2 v (Z.to_nat idx)) as [c ->]; [lia|]. by exists w.
  - fetch Hw i v a Ha. destruct (flatten_ok _ _ _ Ha) as (a' & -> & Ha'). rewrite ok_bind.
    eexists. split; [done|]. rewrite <- (list_insert_id vs i v Ev). by apply Forall2_insert.
  - fetch Hw i u a Ha. fetch Hw j v b Hb. rewrite (sa_eqb_ok _ _ _ _ _ Ha Hb), ok_bind. by exists w.
Qed.

(** C31: However arrays are created, copied, moved, written, read, compared and
    flattened, they behave as independent vectors of bytes: every operation
    returns what it returns on vectors, fails where an index is out of bounds
    and otherwise not, and a write to one array is never seen through another,
    whatever the two share. *)
Theorem shared_array_refines os w vs :
  world_holds w vs -> Forall op_in_range os ->
  match spec_ops os vs with
  | Ok (vs', rs) => exists w', run_ops os w = Ok (w', rs) /\ world_holds w' vs'
  | Err e => run_ops os w = Err e
  end.
Proof.
  intros Hw Ho. revert w vs Hw. induction Ho as [|o os Ho Hos IH]; intros w vs Hw; cbn [spec_ops run_ops]; [by exists w|].
  pose proof (run_op_ok o w vs Hw Ho) as Hstep. destruct (spec_op o vs) as [[vs1 r]|e]; [|by rewrite Hstep].
  destruct Hstep as (w1 & -> & Hw1). rewrite !ok_bind. specialize (IH w1 vs1 Hw1).
  destruct (spec_ops os vs1) as [[vs2 rs]|e]; [|by rewrite IH]. destruct IH as (w2 & -> & Hw2). rewrite !ok_bind. by exists w2.
Qed.

(** The constructor from a range leaves the size zero: the array has no
    elements. *)
Lemma range_constructor_empty h data idx : 0 <= idx -> sa_load h (sa_of_range data) idx = Err AssertFailed.
Proof. intros Hi. unfold sa_load. cbn. by rewrite (proj2 (Z.ltb_ge idx 0)) by lia. Qed.

Module shared_witness.
(** A hundred zeros, copied, each copy written and read. *)
Definition program : list ArrayOp :=
  [ONew (replicate 100 0); OCopyCtor 0; OStore 0 3 7; OStore 1 3 8; OCopy 1 0; OStore 1 3 9; OLoad 0 3; OLoad 1 3; OEqual 0 1].
Definition start : World := mkWorld [] [].
Lemma program_runs : exists w, run_ops program start = Ok (w, [None; None; None; None; None; None; Some 7; Some 9; Some 0]).
Proof.
  destruct (run_ops program start) as [[w rs]|e] eqn:E; vm_compute in E; [|done]. injection E as <- <-. by eexists.
Qed.
Lemma shared_array_refines_witness :
  match spec_ops program [] with
  | Ok (vs', rs) => exists w', run_ops program start = Ok (w', rs) /\ world_holds w' vs'
  | Err e => run_ops program start = Err e
  end.
Proof. apply (shared_array_refines program start []); [constructor|]. repeat constructor; discriminate. Defined.
End shared_witness.
