(* ===== verification/SetTrie.v ===== *)
(** [caffeine::SetTrie] (include/caffeine/ADT/SetTrie.h): a container of sets
    that answers whether it holds a subset of a query.

    A set is the sequence of its elements in a fixed order.  The nodes live in
    a [SparseVector] and refer to each other by index; [SIZE_MAX] marks the end
    of a set.  [walk] follows a sequence from a node, and the sets in the trie
    are the sequences that lead from the root to the end. *)
From Stdlib Require Import Sorted.
From S2P Require Import Prelude SparseVector.
Open Scope Z_scope.

Section trie.
Context {T : Type} `{Countable T}.

(** [Node::next]. *)
Abbreviation Node := (gmap T Z).
Definition endpoint : Z := SIZE_MAX.
Abbreviation SetTrie := (SparseVector Node).

(** [nodes[index]] as a reference that is changed. *)
Definition node_update (nodes : SetTrie) (index : Z) (f : Node -> Node) : result SetTrie :=
  n ← sv_get nodes index; Ok (mkSparse (<[Z.to_nat index := Elem (f n)]> (elements_ nodes)) (size_ nodes) (head_ nodes)).
(** [hopscotch_map::emplace] keeps an entry that is there. *)
Definition node_emplace (x : T) (j : Z) (n : Node) : Node := match n !! x with Some _ => n | None => <[x := j]> n end.

Definition trie_empty (nodes : SetTrie) : result bool :=
  if size_ nodes =? 0 then Ok true else root ← sv_get nodes 0; Ok (bool_decide (root = ∅)).
(** The loop over the query reads the same node for every element. *)
Fixpoint follow_subset (nodes : SetTrie) (index : Z) (query : list T) : result bool :=
  if index =? endpoint then Ok true
  else
    node ← sv_get nodes index;
    match query with
    | [] => Ok false
    | x :: rest =>
        match node !! x with
        | None => follow_subset nodes index rest
        | Some j => b ← follow_subset nodes j rest; if b : bool then Ok true else follow_subset nodes index rest
        end
    end.
Definition contains_subset (nodes : SetTrie) (query : list T) : result bool :=
  e ← trie_empty nodes; if e : bool then Ok false else follow_subset nodes 0 query.

Fixpoint insert_new (nodes : SetTrie) (set : list T) : result (SetTrie * Z) :=
  match set with
  | [] => Ok (nodes, endpoint)
  | x :: rest =>
      '(nodes, index) ← emplace nodes ∅;
      '(nodes, inserted) ← insert_new nodes rest;
      nodes ← node_update nodes index (node_emplace x inserted); Ok (nodes, index)
  end.
(** [remove_node] visits the nodes below a node and changes nothing. *)
Fixpoint remove_node (fuel : nat) (nodes : SetTrie) (index : Z) : result unit :=
  match fuel with
  | O => Err OutOfFuel
  | S fuel =>
      if index =? endpoint then Ok tt
      else node ← sv_get nodes index;
           _ ← mapM (fun p : T * Z => if p.2 =? endpoint then Ok tt else remove_node fuel nodes p.2) (map_to_list node); Ok tt
  end.
Fixpoint insert_at (nodes : SetTrie) (index : Z) (set : list T) : result SetTrie :=
  match set with
  | [] => Err AssertFailed
  | x :: rest =>
      node ← sv_get nodes index;
      match node !! x with
      | None => '(nodes, inserted) ← insert_new nodes rest; node_update nodes index (node_emplace x inserted)
      | Some j =>
          match rest with
          | [] => _ ← remove_node (S (length (elements_ nodes))) nodes j; node_update nodes index (<[x := endpoint]>)
          | _ => assert_ (negb (j =? endpoint)) ;; insert_at nodes j rest
          end
      end
  end.
Definition trie_insert (nodes : SetTrie) (set : list T) : result SetTrie :=
  b ← contains_subset nodes set;
  if b : bool then Ok nodes
  else
    let nodes := if size_ nodes =? 0 then (emplace_back (sv_clear nodes) ∅).1 else nodes in
    insert_at nodes 0 set.

(** ** The nodes as a list *)
Lemma get_node (ns : list Node) i : 0 <= i -> sv_get (sv_of_list ns) i = of_option Thrown (ns !! Z.to_nat i).
Proof.
  intros Hi. unfold sv_get, backing_size, sv_of_list. cbn [elements_]. rewrite length_fmap, list_lookup_fmap.
  destruct (Z.leb_spec (Z.of_nat (length ns)) i) as [Hl|Hl]; [by rewrite lookup_ge_None_2 by lia|].
  by destruct (ns !! Z.to_nat i).
Qed.
Lemma emplace_node (ns : list Node) n : emplace (sv_of_list ns) n = Ok (sv_of_list (ns ++ [n]), Z.of_nat (length ns)).
Proof.
  unfold emplace, alloc_slot, sv_of_list, backing_size. cbn [head_ elements_ size_]. rewrite Z.eqb_refl, ok_bind, length_fmap. cbn [elements_ size_ head_].
  f_equal. f_equal. rewrite Nat2Z.id, insert_app_r_alt, length_fmap, Nat.sub_diag by (rewrite length_fmap; lia).
  rewrite fmap_app, length_app, Nat2Z.inj_add. done.
Qed.
Lemma update_node (ns : list Node) i n f : 0 <= i -> ns !! Z.to_nat i = Some n ->
  node_update (sv_of_list ns) i f = Ok (sv_of_list (<[Z.to_nat i := f n]> ns)).
Proof.
  intros Hi Hn. unfold node_update. rewrite get_node, Hn by done. cbn [of_option]. rewrite ok_bind. unfold sv_of_list. cbn [elements_ size_ head_].
  by rewrite list_fmap_insert, length_insert.
Qed.

(** ** Walks *)
Fixpoint walk (ns : list Node) (i : Z) (s : list T) : option Z :=
  match s with
  | [] => Some i
  | x :: s => if i =? endpoint then None else n ← ns !! Z.to_nat i; j ← n !! x; walk ns j s
  end.
Definition in_trie (ns : list Node) (s : list T) : Prop := walk ns 0 s = Some endpoint.

Record trie_inv (ns : list Node) : Prop := {
  ti_room : Z.of_nat (length ns) < endpoint;
  ti_child : forall i n x j, ns !! i = Some n -> n !! x = Some j -> j = endpoint \/ Z.of_nat i < j < Z.of_nat (length ns);
  ti_tree : forall p q k, walk ns 0 p = Some k -> walk ns 0 q = Some k -> k <> endpoint -> p = q
}.
(** An index of a node, or the end. *)
Definition valid (ns : list Node) (i : Z) : Prop := i = endpoint \/ 0 <= i < Z.of_nat (length ns).

Lemma walk_app ns i p q : walk ns i (p ++ q) = walk ns i p ≫= fun k => walk ns k q.
Proof.
  revert i. induction p as [|x p IHp]; intros i; [done|]. cbn [app walk]. case_match; [done|].
  destruct (ns !! Z.to_nat i) as [n|]; [|done]. cbn. destruct (n !! x); [|done]. apply IHp.
Qed.
Lemma valid_node ns i : valid ns i -> i <> endpoint -> exists n, ns !! Z.to_nat i = Some n.
Proof. intros [?|Hi] ?; [done|]. apply lookup_lt_is_Some_2. lia. Qed.
Lemma valid_child ns i n x j : trie_inv ns -> ns !! i = Some n -> n !! x = Some j -> valid ns j.
Proof. intros Ht Hn Hx. destruct (ti_child _ Ht _ _ _ _ Hn Hx); [by left|right; lia]. Qed.
Lemma walk_valid ns i s k : trie_inv ns -> valid ns i -> walk ns i s = Some k -> valid ns k.
Proof.
  intros Ht. revert i. induction s as [|x s IHs]; intros i Hi; cbn [walk]; [by intros [= <-]|]. case_match; [done|].
  destruct (ns !! Z.to_nat i) as [n|] eqn:En; [|done]. cbn. destruct (n !! x) as [j|] eqn:Ej; [|done]. cbn. intros Hw.
  eapply IHs, Hw. by eapply valid_child.
Qed.

(** The queries find the sets that are subsequences. *)
Lemma follow_ok ns q : trie_inv ns -> forall i, valid ns i -> exists b, follow_subset (sv_of_list ns) i q = Ok b /\
  (b = true <-> exists s, walk ns i s = Some endpoint /\ s `sublist_of` q).
Proof.
  intros Ht. induction q as [|x q IHq]; intros i Hi; cbn [follow_subset];
    (destruct (Z.eqb_spec i endpoint) as [->|Hne]; [exists true; split; [done|]; split; [intros _; exists []; split; [done|apply sublist_nil_l]|done]|]);
    destruct (valid_node ns i Hi Hne) as [n Hn]; (assert (0 <= i) by (destruct Hi; [done|lia]));
    rewrite get_node, Hn by done; cbn [of_option]; rewrite ok_bind.
  - exists false. split; [done|]. split; [done|]. intros (s & Hs & ->%sublist_nil_r). cbn in Hs. congruence.
  - assert (forall s, walk ns i s = Some endpoint -> s `sublist_of` (x :: q) ->
      (walk ns i s = Some endpoint /\ s `sublist_of` q) \/ exists j s', n !! x = Some j /\ walk ns j s' = Some endpoint /\ s' `sublist_of` q) as Hsplit.
    { intros s Hs Hq. destruct s as [|y s]; [by cbn in Hs; congruence|]. apply sublist_cons_r in Hq as [Hq|(s' & [= -> ->] & Hq)]; [by left|].
      right. cbn [walk] in Hs. rewrite (proj2 (Z.eqb_neq i endpoint)), Hn in Hs by done. cbn in Hs. destruct (n !! x) as [j|]; [|done]. eauto. }
    destruct (IHq i Hi) as (b & -> & Hb). destruct (n !! x) as [j|] eqn:Ej.
    + destruct (IHq j (valid_child _ _ _ _ _ Ht Hn Ej)) as (b' & -> & Hb'). rewrite ok_bind. destruct b'.
      * exists true. split; [done|]. split; [intros _|done]. destruct (proj1 Hb' eq_refl) as (s & Hs & Hq). exists (x :: s).
        split; [|by apply sublist_skip]. cbn [walk]. rewrite (proj2 (Z.eqb_neq i endpoint)), Hn by done. cbn. by rewrite Ej.
      * exists b. split; [done|]. rewrite Hb. split; [intros (s & ? & ?); exists s; split; [done|by apply sublist_cons]|].
        intros (s & Hs & Hq). destruct (Hsplit s Hs Hq) as [[? ?]|(j' & s' & [= <-] & Hw & Hq')]; [by exists s|].
        assert (false = true) by (apply Hb'; eauto). done.
    + exists b. split; [done|]. rewrite Hb. split; [intros (s & ? & ?); exists s; split; [done|by apply sublist_cons]|].
      intros (s & Hs & Hq). destruct (Hsplit s Hs Hq) as [[? ?]|(j' & s' & ? & _)]; [by exists s|done].
Qed.

(** ** Insertion *)

(** The nodes [insert_new] makes from index [k] on, and where they start. *)
Definition head (k : nat) (set : list T) : Z := match set with [] => endpoint | _ => Z.of_nat k end.
Fixpoint chain (k : nat) (set : list T) : list Node :=
  match set with [] => [] | x :: rest => {[x := head (S k) rest]} :: chain (S k) rest end.
Lemma chain_len k set : length (chain k set) = length set.
Proof. revert k. induction set as [|x set IH]; intros k; cbn; auto. Qed.
Lemma insert_new_ok set ns : insert_new (sv_of_list ns) set = Ok (sv_of_list (ns ++ chain (length ns) set), head (length ns) set).
Proof.
  revert ns. induction set as [|x set IH]; intros ns; cbn [insert_new chain]; [by rewrite app_nil_r|].
  rewrite emplace_node, ok_bind, IH, ok_bind, length_app, Nat.add_1_r, <- app_assoc.
  rewrite (update_node _ _ ∅) by (lia || (rewrite Nat2Z.id, lookup_app_r, Nat.sub_diag by lia; done)). rewrite ok_bind.
  do 3 f_equal. rewrite Nat2Z.id, insert_app_r_alt, Nat.sub_diag by lia. unfold node_emplace. by rewrite lookup_empty, insert_empty.
Qed.

Lemma walk_chain ns k set s i :
  (forall m n, chain k set !! m = Some n -> ns !! (k + m)%nat = Some n) -> Z.of_nat k + Z.of_nat (length set) < endpoint ->
  walk ns (head k set) s = Some i ->
  (i = endpoint /\ s = set) \/ (i = Z.of_nat k + Z.of_nat (length s) /\ exists y r, set = s ++ y :: r).
Proof.
  revert k s. induction set as [|x set IH]; intros k s Hc Hr Hw.
  - destruct s; cbn in Hw; [by left; simplify_eq|done].
  - destruct s as [|y s]; cbn [walk head] in Hw; [right; simplify_eq; cbn; split; [lia|eauto]|].
    cbn [length] in Hr. rewrite (proj2 (Z.eqb_neq (Z.of_nat k) endpoint)), Nat2Z.id in Hw by lia.
    pose proof (Hc 0%nat _ eq_refl) as Hk. rewrite Nat.add_0_r in Hk. rewrite Hk in Hw. cbn in Hw.
    destruct ({[x := head (S k) set]} !! y) as [j|] eqn:Ej; [|done]. apply lookup_singleton_Some in Ej as [<- <-]. cbn in Hw.
    destruct (IH (S k) s) as [[-> ->]|(-> & z & r & ->)]; [|lia|done|by left|right; split; [cbn; lia|by exists z, r]].
    intros m n Hm. specialize (Hc (S m) n Hm). by rewrite Nat.add_succ_r in Hc.
Qed.

(** A chain for [rest] is hung below the node [k] at [x]. *)
Definition graft (ns : list Node) (k : Z) (n : Node) (x : T) (rest : list T) : list Node :=
  <[Z.to_nat k := <[x := head (length ns) rest]> n]> ns ++ chain (length ns) rest.

Section graft.
Context (ns : list Node) (Ht : trie_inv ns) (p : list T) (k : Z) (n : Node) (x : T) (rest : list T).
Context (Hk : walk ns 0 p = Some k) (Hne : k <> endpoint) (Hv : valid ns k) (Hn : ns !! Z.to_nat k = Some n).
Context (Hroom : Z.of_nat (length ns) + Z.of_nat (length rest) < endpoint).
Let ns' := graft ns k n x rest.

Lemma graft_length : length ns' = (length ns + length rest)%nat.
Proof. unfold ns', graft. by rewrite length_app, length_insert, chain_len. Qed.
Lemma graft_at : ns' !! Z.to_nat k = Some (<[x := head (length ns) rest]> n).
Proof. unfold ns', graft. apply lookup_app_l_Some, list_lookup_insert_eq. by eapply lookup_lt_Some. Qed.
Lemma graft_other i : (i < length ns)%nat -> i <> Z.to_nat k -> ns' !! i = ns !! i.
Proof. intros Hi Hik. unfold ns', graft. rewrite lookup_app_l by (by rewrite length_insert). by rewrite list_lookup_insert_ne. Qed.
Lemma graft_chain m c : chain (length ns) rest !! m = Some c -> ns' !! (length ns + m)%nat = Some c.
Proof.
  intros Hm. unfold ns', graft. rewrite lookup_app_r by (rewrite length_insert; lia). rewrite length_insert.
  by replace (length ns + m - length ns)%nat with m by lia.
Qed.

(** The walks that do not take the new edge are the old ones. *)
Lemma walk_same s : valid ns 0 -> ~ (p ++ [x]) `prefix_of` s -> walk ns' 0 s = walk ns 0 s.
Proof.
  intros H0. induction s as [|y s IHs] using rev_ind; intros Hp; [done|]. rewrite !walk_app, IHs.
  2: { intros Hs. apply Hp. by apply prefix_app_r. }
  destruct (walk ns 0 s) as [i|] eqn:Ei; [|done]. cbn. case_match eqn:Ee; [done|]. apply Z.eqb_neq in Ee.
  destruct (decide (i = k)) as [->|Hik].
  - assert (s = p) as -> by (by eapply (ti_tree _ Ht)). rewrite graft_at, Hn. cbn.
    rewrite lookup_insert_ne; [done|]. intros <-. by apply Hp.
  - destruct (walk_valid _ _ _ _ Ht H0 Ei) as [?|Hi]; [done|]. rewrite graft_other; [done|lia|]. intros E. apply Hik.
    assert (0 <= k) by (destruct Hv; [done|lia]). lia.
Qed.
Lemma walk_new r : valid ns 0 -> walk ns' 0 (p ++ x :: r) = walk ns' (head (length ns) rest) r.
Proof.
  intros H0. rewrite walk_app, walk_same, Hk; [|done|].
  2: { intros Hp%prefix_length. rewrite length_app in Hp. cbn in Hp. lia. }
  cbn. rewrite (proj2 (Z.eqb_neq k endpoint)), graft_at by done. cbn. by rewrite lookup_insert_eq.
Qed.
Lemma prefix_split s : (p ++ [x]) `prefix_of` s -> exists r, s = p ++ x :: r.
Proof. intros [r ->]. exists r. by rewrite <- app_assoc. Qed.

Lemma graft_sets s : valid ns 0 -> in_trie ns' s <-> s = p ++ x :: rest \/ in_trie ns s /\ ~ (p ++ [x]) `prefix_of` s.
Proof.
  intros H0. unfold in_trie. destruct (decide ((p ++ [x]) `prefix_of` s)) as [Hp|Hp].
  - apply prefix_split in Hp as [r ->]. rewrite walk_new by done. split.
    + intros Hw. destruct (walk_chain ns' _ _ _ _ graft_chain Hroom Hw) as [[_ ->]|[Hi (y & r' & ->)]]; [by left|].
      rewrite length_app in Hroom. cbn in Hroom. lia.
    + intros [E|[_ Hp]]; [|by destruct Hp; exists r; rewrite <- app_assoc]. apply app_inv_head in E. injection E as ->.
      clear -Hroom Ht Hne Hv Hn. assert (forall set j, (forall m c, chain j set !! m = Some c -> ns' !! (j + m)%nat = Some c) ->
        Z.of_nat j + Z.of_nat (length set) < endpoint -> walk ns' (head j set) set = Some endpoint) as Hgen.
      { induction set as [|y set IH]; intros j Hc Hr; [done|]. cbn [walk head]. cbn [length] in Hr.
        rewrite (proj2 (Z.eqb_neq (Z.of_nat j) endpoint)), Nat2Z.id by lia. pose proof (Hc 0%nat _ eq_refl) as Hj.
        rewrite Nat.add_0_r in Hj. rewrite Hj. cbn. rewrite lookup_singleton_eq. cbn. apply IH; [|lia].
        intros m c Hm. specialize (Hc (S m) c Hm). by rewrite Nat.add_succ_r in Hc. }
      apply Hgen; [apply graft_chain|done].
  - rewrite walk_same by done. split; [by right|]. intros [->|[? _]]; [|done]. destruct Hp. exists rest. by rewrite <- app_assoc.
Qed.

Lemma head_bound j set : Z.of_nat j + Z.of_nat (length set) < endpoint -> head j set = endpoint \/ head j set = Z.of_nat j /\ set <> [].
Proof. destruct set; cbn; auto. Qed.
Lemma chain_lookup j set m c y i : chain j set !! m = Some c -> c !! y = Some i ->
  i = endpoint \/ i = Z.of_nat (j + S m) /\ (S m < length set)%nat.
Proof.
  revert j m. induction set as [|z set IH]; intros j m Hm Hy; [done|]. destruct m as [|m]; cbn in Hm; simplify_eq.
  - apply lookup_singleton_Some in Hy as [_ <-]. destruct set; cbn; [by left|right; split; lia].
  - destruct (IH (S j) m Hm Hy) as [->|[-> Hl]]; [by left|right; cbn; split; lia].
Qed.
Lemma graft_inv : valid ns 0 -> trie_inv ns'.
Proof.
  intros H0. split.
  - rewrite graft_length. lia.
  - intros i c y j Hi Hj. rewrite graft_length. destruct (decide (i < length ns)%nat) as [Hl|Hl].
    + destruct (decide (i = Z.to_nat k)) as [->|Hik].
      * rewrite graft_at in Hi. injection Hi as <-. destruct (decide (y = x)) as [->|Hyx].
        -- rewrite lookup_insert_eq in Hj. injection Hj as <-. destruct rest; cbn; [by left|right; lia].
        -- rewrite lookup_insert_ne in Hj by done. destruct (ti_child _ Ht _ _ _ _ Hn Hj); [by left|right; lia].
      * rewrite graft_other in Hi by done. destruct (ti_child _ Ht _ _ _ _ Hi Hj); [by left|right; lia].
    + unfold ns', graft in Hi. rewrite lookup_app_r, length_insert in Hi by (rewrite length_insert; lia).
      destruct (chain_lookup _ _ _ _ _ _ Hi Hj) as [->|[-> Hlen]]; [by left|right; lia].
  - assert (forall s j, walk ns' 0 s = Some j -> j <> endpoint -> (p ++ [x]) `prefix_of` s ->
      exists r, s = p ++ x :: r /\ j = Z.of_nat (length ns) + Z.of_nat (length r) /\ exists y r', rest = r ++ y :: r') as Hin.
    { intros s j Hw Hj Hp. apply prefix_split in Hp as [r ->]. rewrite walk_new in Hw by done.
      destruct (walk_chain ns' _ _ _ _ graft_chain Hroom Hw) as [[? _]|[-> Hr]]; [done|]. eauto. }
    assert (forall s j, walk ns' 0 s = Some j -> j <> endpoint -> ~ (p ++ [x]) `prefix_of` s -> walk ns 0 s = Some j /\ j < Z.of_nat (length ns)) as Hout.
    { intros s j Hw Hj Hp. rewrite walk_same in Hw by done. split; [done|]. destruct (walk_valid _ _ _ _ Ht H0 Hw); [done|lia]. }
    intros s1 s2 j H1 H2 Hj.
    destruct (decide ((p ++ [x]) `prefix_of` s1)) as [P1|P1], (decide ((p ++ [x]) `prefix_of` s2)) as [P2|P2].
    + destruct (Hin s1 j H1 Hj P1) as (r1 & -> & E1 & y1 & t1 & R1), (Hin s2 j H2 Hj P2) as (r2 & -> & E2 & y2 & t2 & R2).
      rewrite R1 in R2. apply app_inj_1 in R2 as [-> _]; [done|lia].
    + destruct (Hin s1 j H1 Hj P1) as (r1 & _ & E1 & _), (Hout s2 j H2 Hj P2) as [_ ?]. lia.
    + destruct (Hin s2 j H2 Hj P2) as (r2 & _ & E2 & _), (Hout s1 j H1 Hj P1) as [_ ?]. lia.
    + destruct (Hout s1 j H1 Hj P1) as [W1 _], (Hout s2 j H2 Hj P2) as [W2 _]. by eapply (ti_tree _ Ht).
Qed.
End graft.

Lemma remove_node_ok ns fuel : trie_inv ns -> forall j, valid ns j -> (j = endpoint \/ Z.of_nat (length ns) - j < Z.of_nat fuel) ->
  (0 < fuel)%nat -> remove_node fuel (sv_of_list ns) j = Ok tt.
Proof.
  intros Ht. induction fuel as [|fuel IH]; intros j Hj Hf Hpos; [lia|]. cbn [remove_node].
  destruct (Z.eqb_spec j endpoint) as [|Hne]; [done|]. destruct Hf as [?|Hf]; [done|]. destruct (valid_node ns j Hj Hne) as [n Hn].
  assert (0 <= j < Z.of_nat (length ns)) by (by destruct Hj). rewrite get_node, Hn by lia. cbn [of_option]. rewrite ok_bind.
  assert (forall l : list (T * Z), (forall q, q ∈ l -> n !! q.1 = Some q.2) ->
    exists us, mapM (fun q : T * Z => if q.2 =? endpoint then Ok tt else remove_node fuel (sv_of_list ns) q.2) l = Ok us) as Hall.
  { induction l as [|[y i] l IHl]; intros Hl; [by eexists|]. cbn [mapM snd].
    assert ((if i =? endpoint then Ok tt else remove_node fuel (sv_of_list ns) i) = Ok tt) as ->.
    { pose proof (Hl (y, i) ltac:(by left)) as Hi. cbn in Hi. destruct (Z.eqb_spec i endpoint); [done|].
      destruct (ti_child _ Ht _ _ _ _ Hn Hi) as [?|Hb]; [done|]. apply IH; [right; lia|right; lia|lia]. }
    rewrite ok_bind. destruct IHl as [us ->]; [intros q Hq; apply Hl; by right|]. by eexists. }
  destruct (Hall (map_to_list n)) as [us ->]; [|done]. intros [y i] Hq. by apply elem_of_map_to_list.
Qed.

Lemma prefix_sublist (s q : list T) : s `prefix_of` q -> s `sublist_of` q.
Proof. intros [r ->]. by apply sublist_inserts_r. Qed.

(** Where a set that the trie does not cover is added. *)
Lemma insert_at_ok ns set : trie_inv ns -> forall i, set <> [] -> valid ns i -> i <> endpoint ->
  (forall s, s `prefix_of` set -> walk ns i s <> Some endpoint) ->
  exists p x rest k n, set = p ++ x :: rest /\ walk ns i p = Some k /\ k <> endpoint /\ valid ns k /\ ns !! Z.to_nat k = Some n /\
    (n !! x = None \/ rest = []) /\ insert_at (sv_of_list ns) i set = Ok (sv_of_list (graft ns k n x rest)).
Proof.
  intros Ht. induction set as [|x set IH]; intros i Hnil Hi Hne Hcov; [done|]. cbn [insert_at].
  destruct (valid_node ns i Hi Hne) as [n Hn]. assert (0 <= i < Z.of_nat (length ns)) by (by destruct Hi).
  rewrite get_node, Hn by lia. cbn [of_option]. rewrite ok_bind. destruct (n !! x) as [j|] eqn:Ej.
  - assert (walk ns i [x] = Some j) as Hw.
    { cbn. rewrite (proj2 (Z.eqb_neq i endpoint)), Hn by done. cbn. by rewrite Ej. }
    assert (j <> endpoint) as Hj by (intros ->; by apply (Hcov [x]); [exists set|]).
    pose proof (valid_child _ _ _ _ _ Ht Hn Ej) as Hvj. destruct set as [|y set].
    + exists [], x, [], i, n. split_and!; auto. replace (length (elements_ (sv_of_list ns))) with (length ns) by (symmetry; apply length_fmap).
      rewrite (remove_node_ok ns _ Ht j Hvj); [|right; destruct Hvj; lia|lia]. rewrite ok_bind, (update_node ns i n) by (done || lia).
      unfold graft. cbn [chain head]. by rewrite app_nil_r.
    + rewrite (proj2 (Z.eqb_neq j endpoint)) by done. cbn [negb assert_]. rewrite ok_bind.
      destruct (IH j ltac:(done) Hvj Hj) as (p & z & rest & k & m & -> & Hp & Hk & Hvk & Hm & Hc & ->).
      { intros s Hs Hws. apply (Hcov (x :: s)); [by apply prefix_cons|]. change (x :: s) with ([x] ++ s). by rewrite walk_app, Hw. }
      exists (x :: p), z, rest, k, m. split_and!; try done. change (x :: p) with ([x] ++ p). by rewrite walk_app, Hw.
  - exists [], x, set, i, n. split_and!; auto. rewrite insert_new_ok, ok_bind.
    rewrite (update_node _ i n) by (lia || by apply lookup_app_l_Some). unfold graft, node_emplace. rewrite Ej.
    by rewrite insert_app_l by lia.
Qed.

Lemma contains_ok ns q : trie_inv ns ->
  exists b, contains_subset (sv_of_list ns) q = Ok b /\ (b = true <-> exists s, in_trie ns s /\ s `sublist_of` q).
Proof.
  intros Ht. unfold contains_subset, trie_empty. destruct ns as [|root ns].
  - cbn. exists false. split; [done|]. split; [done|]. intros ([|x s] & Hs & _); cbn in Hs; done.
  - assert ((size_ (sv_of_list (root :: ns)) =? 0) = false) as -> by (apply Z.eqb_neq; cbn; lia). rewrite get_node by lia. change ((root :: ns) !! Z.to_nat 0) with (Some root). cbn [of_option]. rewrite !ok_bind.
    case_bool_decide as Hr; [|apply follow_ok; [done|right; cbn; lia]].
    exists false. split; [done|]. split; [done|]. intros ([|x s] & Hs & _); unfold in_trie in Hs; subst root; cbn in Hs; by rewrite ?lookup_empty in Hs.
Qed.
Lemma trie_inv_new : trie_inv [∅].
Proof.
  split; [done| |].
  - intros [|i] n x j Hi Hj; cbn in Hi; [|by destruct i]. injection Hi as <-. by rewrite lookup_empty in Hj.
  - intros [|x p] [|y q] k Hp Hq Hk; cbn in Hp, Hq; rewrite ?lookup_empty in *; done.
Qed.
Lemma trie_inv_nil : trie_inv [].
Proof. split; [done|set_solver|]. intros [|x p] [|y q] k Hp Hq Hk; cbn in Hp, Hq; done. Qed.

Lemma insert_ok ns set : trie_inv ns -> set <> [] -> Z.of_nat (length ns) + Z.of_nat (length set) < endpoint ->
  exists ns', trie_insert (sv_of_list ns) set = Ok (sv_of_list ns') /\ trie_inv ns' /\
    (length ns' <= length ns + length set)%nat /\
    forall q, (exists s, in_trie ns' s /\ s `sublist_of` q) <-> (exists s, in_trie ns s /\ s `sublist_of` q) \/ set `sublist_of` q.
Proof.
  intros Ht Hnil Hroom. unfold trie_insert. destruct (contains_ok ns set Ht) as (b & -> & Hb). rewrite ok_bind. destruct b.
  { exists ns. split_and!; try done; [lia|]. intros q. split; [by left|]. intros [?|Hq]; [done|].
    destruct (proj1 Hb eq_refl) as (s & Hs & Hss). exists s. split; [done|]. by etrans. }
  set (ns1 := if decide (ns = []) then [∅] else ns).
  assert ((if size_ (sv_of_list ns) =? 0 then (emplace_back (sv_clear (sv_of_list ns)) ∅).1 else sv_of_list ns) = sv_of_list ns1) as ->.
  { unfold ns1. destruct ns; cbn; [done|]. by rewrite decide_False. }
  assert (trie_inv ns1) as Ht1 by (unfold ns1; case_decide; [apply trie_inv_new|done]).
  assert (valid ns1 0) as H0 by (right; unfold ns1; case_decide; [cbn; lia|destruct ns; [done|cbn; lia]]).
  assert (length ns1 <= S (length ns))%nat as Hl by (unfold ns1; case_decide; [subst; cbn; lia|lia]).
  assert (forall s, in_trie ns1 s <-> in_trie ns s) as Hsame.
  { unfold ns1. case_decide; [subst|done]. intros [|x s]; [done|]. unfold in_trie. cbn. by rewrite ?lookup_empty. }
  destruct (insert_at_ok ns1 set Ht1 0 Hnil H0 ltac:(done)) as (p & x & rest & k & n & -> & Hp & Hk & Hvk & Hn & Hc & ->).
  { intros s Hs Hw. assert (false = true); [|done]. apply Hb. exists s. split; [by apply Hsame|by apply prefix_sublist]. }
  rewrite length_app in Hroom. cbn [length] in Hroom.
  assert (Z.of_nat (length ns1) + Z.of_nat (length rest) < endpoint) as Hr1 by lia.
  exists (graft ns1 k n x rest). split_and!; [done|by eapply graft_inv| |].
  - unfold graft. rewrite length_app, length_insert, chain_len, length_app. cbn. lia.
  - intros q. split.
    + intros (s & Hs & Hq). apply (graft_sets ns1 Ht1 p k n x rest) in Hs as [->|[Hs _]]; try done; [by right|]. left. exists s. by rewrite <- Hsame.
    + intros [(s & Hs & Hq)|Hq].
      * destruct (decide ((p ++ [x]) `prefix_of` s)) as [Hpre|Hpre].
        -- assert (rest = []) as ->.
           { destruct Hc as [Hc|?]; [|done]. apply prefix_split in Hpre as [r ->]. apply Hsame in Hs. unfold in_trie in Hs.
             rewrite walk_app, Hp in Hs. cbn in Hs. rewrite (proj2 (Z.eqb_neq k endpoint)), Hn in Hs by done. cbn in Hs. by rewrite Hc in Hs. }
           exists (p ++ [x]). split; [by eapply graft_sets; auto|]. etrans; [by apply prefix_sublist|done].
        -- exists s. split; [|done]. eapply graft_sets; try done. right. by rewrite Hsame.
      * exists (p ++ x :: rest). split; [by eapply graft_sets; auto|done].
Qed.

(** ** The container *)
Fixpoint insert_sets (nodes : SetTrie) (sets : list (list T)) : result SetTrie :=
  match sets with [] => Ok nodes | s :: sets => nodes ← trie_insert nodes s; insert_sets nodes sets end.
Definition elements_of (sets : list (list T)) : Z := Z.of_nat (list_sum (length <$> sets)).

Lemma elements_cons s sets : elements_of (s :: sets) = Z.of_nat (length s) + elements_of sets.
Proof. unfold elements_of. by rewrite fmap_cons, <- Nat2Z.inj_add. Qed.
Lemma elements_nonneg sets : 0 <= elements_of sets.
Proof. unfold elements_of. lia. Qed.

Lemma insert_sets_ok sets : Forall (fun s => s <> []) sets -> forall ns, trie_inv ns -> Z.of_nat (length ns) + elements_of sets < endpoint ->
  exists ns', insert_sets (sv_of_list ns) sets = Ok (sv_of_list ns') /\ trie_inv ns' /\
    forall q, (exists s, in_trie ns' s /\ s `sublist_of` q) <->
              (exists s, in_trie ns s /\ s `sublist_of` q) \/ exists s, s ∈ sets /\ s `sublist_of` q.
Proof.
  induction 1 as [|s sets Hs Hall IH]; intros ns Ht Hr; cbn [insert_sets].
  - exists ns. split_and!; try done. intros q. split; [by left|]. intros [?|(s & Hin & _)]; [done|set_solver].
  - rewrite elements_cons in Hr. pose proof (elements_nonneg sets). destruct (insert_ok ns s Ht Hs ltac:(lia)) as (ns1 & -> & Ht1 & Hl1 & Hq1). rewrite ok_bind.
    destruct (IH ns1 Ht1 ltac:(lia)) as (ns2 & E2 & Ht2 & Hq2). exists ns2. split_and!; try done. intros q. rewrite Hq2, Hq1. split.
    + intros [[?|?]|(s' & ? & ?)]; [by left|right; exists s; split; [by left|done]|right; exists s'; split; [by right|done]].
    + intros [?|(s' & [->|?]%elem_of_cons & ?)]; eauto.
Qed.

Context (R : T -> T -> Prop) `{!Irreflexive R, !Transitive R}.
(** For sorted sequences, subsequences are subsets. *)
Lemma sorted_sublist l q : StronglySorted R l -> StronglySorted R q -> l `sublist_of` q <-> l ⊆ q.
Proof.
  intros Hl Hq. split; [intros Hs; clear Hl Hq; induction Hs; set_solver|].
  revert l Hl. induction Hq as [|y q Hq IH Hy]; intros l Hl Hs.
  - destruct l as [|x l]; [done|]. specialize (Hs x ltac:(by left)). set_solver.
  - destruct l as [|x l]; [apply sublist_nil_l|]. inversion Hl as [|? ? Hl' Hx]; subst. rewrite Forall_forall in Hx, Hy.
    destruct (decide (x = y)) as [->|Hxy].
    + apply sublist_skip, IH; [done|]. intros z Hz. specialize (Hs z ltac:(by right)). apply elem_of_cons in Hs as [->|?]; [|done].
      by destruct (irreflexivity R y (Hx y Hz)).
    + apply sublist_cons, IH; [done|]. assert (x ∈ q) as Hxq by (specialize (Hs x ltac:(by left)); set_solver).
      intros z Hz. specialize (Hs z Hz). apply elem_of_cons in Hs as [->|?]; [|done]. apply elem_of_cons in Hz as [->|Hz]; [done|].
      destruct (irreflexivity R y). etrans; [by apply Hy|by apply Hx].
Qed.

(** C33: A trie that sets were inserted into, each not empty and sorted in one order,
    answers a query that is sorted the same way with yes exactly if one of the
    sets is a subset of the query; no assertion fails on the way. *)
Theorem set_trie_correct sets :
  Forall (fun s => s <> [] /\ StronglySorted R s) sets -> elements_of sets < endpoint ->
  exists nodes, insert_sets sv_empty sets = Ok nodes /\
    forall q, StronglySorted R q -> exists b, contains_subset nodes q = Ok b /\ (b = true <-> exists s, s ∈ sets /\ s ⊆ q).
Proof.
  intros Hs Hr. destruct (insert_sets_ok sets) with (ns := @nil Node) as (ns & E & Ht & Hns);
    [by eapply Forall_impl; [exact Hs|]; intros ? []|apply trie_inv_nil|done|].
  exists (sv_of_list ns). split; [done|]. intros q Hq. destruct (contains_ok ns q Ht) as (b & Eb & Hb). exists b. split; [done|].
  rewrite Hb, Hns. rewrite Forall_forall in Hs. split.
  - intros [([|x s] & Hin & _)|(s & Hin & Hsub)]; [done|done|]. exists s. split; [done|]. destruct (Hs s Hin). by apply sorted_sublist.
  - intros (s & Hin & Hsub). right. exists s. split; [done|]. destruct (Hs s Hin). by apply sorted_sublist.
Qed.

(** The empty set cannot be inserted. *)
Lemma insert_empty_fails ns : trie_inv ns -> trie_insert (sv_of_list ns) [] = Err AssertFailed.
Proof.
  intros Ht. unfold trie_insert. destruct (contains_ok ns [] Ht) as (b & -> & Hb). rewrite ok_bind. destruct b; [|done].
  destruct (proj1 Hb eq_refl) as (s & Hs & ->%sublist_nil_r). unfold in_trie in Hs. cbn in Hs. done.
Qed.
End trie.

Module trie_witness.
Definition sets : list (list Z) := [[1; 3]; [2; 4; 5]; [2; 4]].
Lemma sets_sorted : Forall (fun s => s <> [] /\ StronglySorted Z.lt s) sets.
Proof. repeat constructor; lia || done. Qed.
Lemma answers :
  (nodes ← insert_sets sv_empty sets; mapM (contains_subset nodes) [[1; 2; 3]; [1; 2; 5]; [2; 3; 4]]) = Ok [true; false; true].
Proof. vm_compute. reflexivity. Qed.
#[local] Instance lt_irreflexive : Irreflexive Z.lt.
Proof. intros x Hx. lia. Qed.
Lemma set_trie_correct_witness :
  exists nodes, insert_sets sv_empty sets = Ok nodes /\
    forall q, StronglySorted Z.lt q -> exists b, contains_subset nodes q = Ok b /\ (b = true <-> exists s, s ∈ sets /\ s ⊆ q).
Proof. apply (set_trie_correct Z.lt sets sets_sorted). reflexivity. Defined.
End trie_witness.
