(* ===== verification/Assertions.v ===== *)
(** Path conditions: [caffeine::Assertion] (src/IR/Assertion.cpp) and
    [caffeine::AssertionList] (src/Model/AssertionList.cpp).

    The list keeps its assertions in a sparse vector together with a set of the
    same objects for deduplication and a mark that separates the assertions
    already proven satisfiable.  The set of objects is a list with one entry
    per object; membership is pointer comparison. *)
From S2P Require Import Prelude LLVM IRType Value Opcode Operation Matching Create Semantics.
From S2P Require Import Simplifier SimplifierInt SimplifierSound SparseVector.
Open Scope Z_scope.

Section assertions.
Context `{PtrEq} `{MathExtrasAPI} `{Config}.

(** *** Assertion *)

(** [Assertion(value)]: an expression of type i1. *)
Definition Assertion_ctor (value : Operation) : result Operation :=
  i1 ← int_ty 1; assert_ (ty_eqb (op_type value) i1) ;; Ok value.
Definition is_constant_value (a : Operation) (value : bool) : bool :=
  match as_ConstantInt a with Some i => ap_eq_u64 i (Z.b2z value) | None => false end.
Definition Assertion_constant (value : bool) : result Operation :=
  c ← ConstantInt_Create simplify (APInt_of 1 (Z.b2z value)); Assertion_ctor c.
(** The default constructor and [operator!]. *)
Definition Assertion_default : result Operation := Assertion_constant true.
Definition Assertion_not (a : Operation) : result Operation :=
  n ← CreateNot simplify a; Assertion_ctor n.

(** *** AssertionList *)
Record AssertionList : Type := mkAssertions {
  list_ : SparseVector Operation;
  lookup_ : list Operation;
  mark_ : Z
}.

Definition al_empty : AssertionList := mkAssertions sv_empty [] 0.
Definition al_size (l : AssertionList) : Z := Z.of_nat (length (lookup_ l)).
Definition al_clear (l : AssertionList) : AssertionList := al_empty.
Definition mark_sat (l : AssertionList) : AssertionList :=
  let v := compress (list_ l) in mkAssertions v (lookup_ l) (size_ v).

(** [lookup_.count]. *)
Definition al_contains (l : AssertionList) (a : Operation) : bool := existsb (ptr_eq a) (lookup_ l).

(** A & B  and  !(A | B). *)
Definition match_and (op : Operation) : option (Operation * Operation) :=
  let '(m, c) := matches op (BinaryOpPat OpAnd (RefOp 0) (RefOp 1)) no_captures in
  match m, c 0%nat, c 1%nat with true, Some l, Some r => Some (l, r) | _, _, _ => None end.
Definition match_not_or (op : Operation) : option (Operation * Operation) :=
  let '(m, c) := matches op (UnaryOpPat OpNot (BinaryOpPat OpOr (RefOp 0) (RefOp 1))) no_captures in
  match m, c 0%nat, c 1%nat with true, Some l, Some r => Some (l, r) | _, _, _ => None end.

(** The loop of [insert] over the stack [decomposed], whose top is the head of
    the list; [a] is the assertion being inserted. *)
Fixpoint insert_loop (fuel : nat) (a : Operation) (decomposed : list Operation) (l : AssertionList) :
    result AssertionList :=
  match fuel with
  | O => Err OutOfFuel
  | S n =>
      match decomposed with
      | [] => Ok l
      | op :: rest =>
          match match_and op with
          | Some (lhs, rhs) => insert_loop n a (rhs :: lhs :: rest) l
          | None =>
              match match_not_or op with
              | Some (lhs, rhs) =>
                  nl ← CreateNot simplify lhs; nr ← CreateNot simplify rhs;
                  insert_loop n a (nr :: nl :: rest) l
              | None =>
                  if is_constant_value a true then insert_loop n a rest l
                  else
                    x ← Assertion_ctor op;
                    if al_contains l x then insert_loop n a rest l
                    else insert_loop n a rest
                           (mkAssertions (emplace_back (list_ l) x).1 (lookup_ l ++ [x]) (mark_ l))
              end
          end
      end
  end.

(** A bound on the pops: every node once, disjunctions twice. *)
Fixpoint dsize (op : Operation) : nat :=
  let 'mkOp d l := op in
  ((if decide (od_opcode d = OpOr) then 2 else 1) + list_sum (dsize <$> l))%nat.

Definition al_insert (l : AssertionList) (a : Operation) : result AssertionList :=
  insert_loop (S (dsize a)) a [a] l.
Fixpoint al_insert_all (l : AssertionList) (assertions : list Operation) : result AssertionList :=
  match assertions with
  | [] => Ok l
  | a :: rest => l ← al_insert l a; al_insert_all l rest
  end.

(** [lookup_.erase] of one object. *)
Fixpoint remove_one (a : Operation) (l : list Operation) : list Operation :=
  match l with
  | [] => []
  | x :: l => if decide (x = a) then l else x :: remove_one a l
  end.
Definition al_erase (l : AssertionList) (i : nat) : result AssertionList :=
  a ← sv_get (list_ l) (Z.of_nat i);
  v ← sv_erase (list_ l) (Z.of_nat i);
  Ok (mkAssertions v (remove_one a (lookup_ l)) (mark_ l)).

Definition checkpoint (l : AssertionList) : Z := Z.of_nat (it_end (list_ l)).

(** [iterator_at(idx)], moved to the next value if it is at a hole. *)
Definition iterator_from (v : SparseVector Operation) (idx : Z) : result nat :=
  it ← iterator_at v idx;
  if (it =? it_end v)%nat then Ok it
  else valid ← it_valid v it; Ok (if valid : bool then it else it_next v it).

Fixpoint restore_loop (fuel : nat) (l : AssertionList) (it : nat) : result AssertionList :=
  match fuel with
  | O => Err OutOfFuel
  | S n =>
      if (it =? it_end (list_ l))%nat then Ok l
      else l ← al_erase l it; restore_loop n l (it_next (list_ l) it)
  end.
Definition restore (l : AssertionList) (checkpoint : Z) : result AssertionList :=
  it ← iterator_from (list_ l) checkpoint;
  restore_loop (S (it_end (list_ l))) l it.

Definition unproven (l : AssertionList) : result (list Operation) :=
  it ← iterator_from (list_ l) (mark_ l);
  Ok (it_range (list_ l) (it_end (list_ l)) it (it_end (list_ l))).
Definition proven (l : AssertionList) : result (list Operation) :=
  it ← iterator_from (list_ l) (mark_ l);
  Ok (it_range (list_ l) (it_end (list_ l)) (it_begin (list_ l)) it).

(** ** Invariant and meaning *)
Definition al_values (l : AssertionList) : list Operation := vals (elements_ (list_ l)).

Record al_inv (l : AssertionList) : Prop := {
  al_sparse : inv (list_ l);
  al_lookup : lookup_ l ≡ₚ al_values l;
  al_mark : 0 <= mark_ l <= backing_size (list_ l);
  al_wf : Forall (fun a => wf a /\ op_type a = ity 1) (al_values l)
}.

(** An assertion holds, or has a value at all, in an environment. *)
Definition Holds (e : Env) (a : Operation) : Prop := denote e a = Some (den_bool true).
Definition Defined (e : Env) (a : Operation) : Prop := denote e a <> None.

(** ** Booleans *)
Lemma bool_value e a v :
  wf a -> op_type a = ity 1 -> denote e a = Some v -> exists b, v = den_bool b.
Proof.
  intros Hwf Ht E. destruct (denote_int e a v 1 Hwf Ht E) as (x & -> & Wx).
  pose proof (value_range x 1 Wx) as Hr. change (2 ^ 1) with 2 in Hr. exists (getZExtValue x =? 1). unfold den_bool. f_equal.
  symmetry. apply APInt_of_is; [done|]. destruct (Z.eqb_spec (getZExtValue x) 1) as [->|]; [done|].
  by assert (getZExtValue x = 0) as -> by lia.
Qed.

(** The operands of a conjunction or disjunction of i1 expressions. *)
Lemma bool_bin_inv o d l :
  int_binop o = true -> od_opcode d = o -> od_type d = ity 1 -> wf (mkOp d l) ->
  exists x y, l = [x; y] /\ wf x /\ wf y /\ op_type x = ity 1 /\ op_type y = ity 1.
Proof.
  intros Ho Hd Ht Hwf. pose proof Hwf as Hwf'. inversion Hwf' as [? ? Hl Hok]; subst. unfold node_ok in Hok.
  assert (exists x y, l = [x; y]) as (x & y & ->).
  { destruct (od_opcode d); try done; destruct l as [|x [|y []]]; try done; eauto. }
  apply wf_int_inv in Hwf as (Hx & Hy & w & _ & Hd & Tx & Ty); [|done].
  rewrite Ht in Hd. injection Hd as <-. exists x, y. done.
Qed.

Lemma denote_bool_bin e d x y f :
  (forall u v, sem_int (od_opcode d) 1 (Z.b2z u) (Z.b2z v) = Some (Z.b2z (f u v))) ->
  int_binop (od_opcode d) = true -> wf x -> wf y -> op_type x = ity 1 -> op_type y = ity 1 ->
  Defined e (mkOp d [x; y]) ->
  exists u v, denote e x = Some (den_bool u) /\ denote e y = Some (den_bool v) /\
    denote e (mkOp d [x; y]) = Some (den_bool (f u v)).
Proof.
  intros Hf Ho Hx Hy Tx Ty Hdef. unfold Defined in Hdef.
  destruct (denote e (mkOp d [x; y])) as [r|] eqn:E; [|done]. pose proof E as E'.
  apply denote_bin_inv in E as (a & b & z & Ea & Eb & Ew & Ez & ->); [|done].
  destruct (bool_value e x _ Hx Tx Ea) as (u & Eu). destruct (bool_value e y _ Hy Ty Eb) as (v & Ev).
  exists u, v. rewrite <- Eu, <- Ev. split_and!; [done..|]. f_equal. injection Eu as ->. injection Ev as ->.
  rewrite !APInt_of_value, !wrap_small in Ez by (destruct u, v; cbn; lia).
  rewrite APInt_of_width in Ez |- * by lia. rewrite Hf in Ez. by injection Ez as <-.
Qed.

Definition not_node (x : Operation) : Operation := mkOp (mkData OpNot (op_type x) NoPayload) [x].

Lemma denote_not e d x u :
  od_opcode d = OpNot -> denote e x = Some (den_bool u) -> denote e (mkOp d [x]) = Some (den_bool (negb u)).
Proof.
  intros Ho E. cbn [denote fmap list_fmap]. unfold denote_node at 1. rewrite Ho, E. cbn.
  rewrite APInt_of_value, APInt_of_width by lia. unfold den_bool. do 2 f_equal.
  apply APInt_of_eq; [lia|]. by destruct u.
Qed.

Lemma simplify_not x :
  wf x -> op_type x = ity 1 ->
  exists r, CreateNot simplify x = Ok r /\ wf r /\ op_type r = ity 1 /\
    forall e u, denote e x = Some (den_bool u) -> denote e r = Some (den_bool (negb u)).
Proof.
  intros Hx Tx. destruct (simplify_spec (weight (not_node x)) (not_node x)) as (r & Er & Hr & Tr & Dr).
  - constructor; [by repeat constructor|]. cbn. exists 1. rewrite Tx. done.
  - done.
  - done.
  - exists r. split_and!; try done.
    + unfold CreateNot. rewrite Tx, assert_int, ok_bind. unfold UnaryOp_Create. rewrite <- Tx. exact Er.
    + by rewrite Tr.
    + intros e u Eu. apply Dr. by apply denote_not.
Qed.

(** ** The matchers *)
Lemma match_and_inv op l r :
  match_and op = Some (l, r) -> op_opcode op = OpAnd /\ exists rest, op_operands op = l :: r :: rest.
Proof.
  unfold match_and, matches. destruct (pat_matches _ op) eqn:Hm; [|done].
  apply pat_binary_inv in Hm as (x & y & rest & Ho & Hl & _ & _ & Hc). rewrite Hc. cbn.
  intros [= -> ->]. eauto.
Qed.

Lemma match_not_or_inv op l r :
  match_not_or op = Some (l, r) -> op_opcode op = OpNot /\
  exists o rest rest', op_operands op = o :: rest /\ op_opcode o = OpOr /\ op_operands o = l :: r :: rest'.
Proof.
  unfold match_not_or, matches. destruct (pat_matches _ op) eqn:Hm; [|done].
  apply pat_unary_inv in Hm as (o & rest & Ho & Hl & Hm & Hc). rewrite Hc.
  apply pat_binary_inv in Hm as (x & y & rest' & Ho' & Hl' & _ & _ & Hc'). rewrite Hc'. cbn.
  intros [= -> ->]. eauto 10.
Qed.

(** ** Termination of the decomposition *)
Lemma dsize_pos op : (1 <= dsize op)%nat.
Proof. destruct op. cbn. case_decide; lia. Qed.

Lemma dsize_not x r : CreateNot simplify x = Ok r -> (dsize r <= S (dsize x))%nat.
Proof.
  unfold CreateNot, UnaryOp_Create, build, Operation_ctor. intros E. inv_ok. subst.
  unfold simplify in E. rewrite Nat.add_succ_r in E. cbn [constant_fold] in E. unfold visit in E.
  assert (dsize (mkOp (mkData OpNot (op_type x) NoPayload) [x]) = S (dsize x)) as Hs.
  { cbn. case_decide; [done|]. lia. }
  destruct IMPLICIT_CONSTANT_FOLDING eqn:Hcfg; [|by injection E as <-; rewrite Hs].
  cbn [visit_dispatch op_opcode op_data od_opcode] in E. unfold with_operand, operand_at in E. cbn in E.
  unfold visitNot in E. destruct (as_ConstantInt x) as [ai|].
  - unfold ConstantInt_Create, ConstantIntData, build, Operation_ctor in E. inv_ok. subst.
    unfold visit in E. rewrite Hcfg in E. cbn in E. injection E as <-. cbn. case_decide; [done|].
    pose proof (dsize_pos x). lia.
  - destruct (matches x _ _) as [[] c] eqn:Em; [|by injection E as <-; rewrite Hs].
    destruct (c 0%nat) as [value|] eqn:Ec; [|by injection E as <-; rewrite Hs].
    injection E as <-. destruct (match_unary _ _ _ _ Em Ec) as (_ & rest & Hl).
    destruct x as [d l]. cbn in Hl. subst l. cbn. lia.
Qed.

(** ** Insertion *)
Definition stack_size (l : list Operation) : nat := list_sum (dsize <$> l).
Definition boolean (a : Operation) : Prop := wf a /\ op_type a = ity 1.

(** What inserting the expressions of a stack does. *)
Definition inserted (l l' : AssertionList) (stack : list Operation) : Prop :=
  al_inv l' /\ mark_ l' = mark_ l /\
  (exists new, elements_ (list_ l') = elements_ (list_ l) ++ (Elem <$> new) /\
     (length new <= stack_size stack)%nat) /\
  forall e, Forall (Defined e) stack ->
    (Forall (Holds e) (al_values l') <-> Forall (Holds e) (al_values l) /\ Forall (Holds e) stack).

Lemma Holds_Defined e a : Holds e a -> Defined e a.
Proof. unfold Holds, Defined. by intros ->. Qed.

Lemma stack_cons op rest : stack_size (op :: rest) = (dsize op + stack_size rest)%nat.
Proof. done. Qed.

Lemma dsize_unfold d l : dsize (mkOp d l) = ((if decide (od_opcode d = OpOr) then 2 else 1) + stack_size l)%nat.
Proof. done. Qed.

(** A & B stands for A and B. *)
Lemma decompose_and op l r :
  match_and op = Some (l, r) -> boolean op ->
  boolean l /\ boolean r /\ (dsize l + dsize r < dsize op)%nat /\
  forall e, Defined e op -> Defined e l /\ Defined e r /\ (Holds e op <-> Holds e l /\ Holds e r).
Proof.
  intros Hm [Hwf Ht]. apply match_and_inv in Hm as (Ho & rest & Hl). destruct op as [d ops].
  unfold op_opcode, op_type in *. cbn in Ho, Ht, Hl. subst ops.
  destruct (bool_bin_inv OpAnd d _ eq_refl Ho Ht Hwf) as (x & y & [= -> -> ->] & Hx & Hy & Tx & Ty).
  split_and!; [done|done| |].
  { rewrite dsize_unfold, !stack_cons. case_decide; lia. }
  intros e Hdef. destruct (denote_bool_bin e d x y andb) as (u & v & Eu & Ev & E); try done; rewrite ?Ho; [by intros [] []|done|].
  unfold Holds, Defined in *. rewrite Eu, Ev, E. split_and!; [done|done|].
  split; [intros [= E']|intros [[= E1] [= E2]]].
  - apply (f_equal DInt) in E'. apply (den_bool_inj (u && v) true) in E' as [-> ->]%andb_true_iff. done.
  - apply (f_equal DInt) in E1, E2. apply (den_bool_inj u true) in E1 as ->. apply (den_bool_inj v true) in E2 as ->. done.
Qed.

(** !(A | B) stands for !A and !B. *)
Lemma decompose_not_or op l r :
  match_not_or op = Some (l, r) -> boolean op ->
  exists nl nr, CreateNot simplify l = Ok nl /\ CreateNot simplify r = Ok nr /\
  boolean nl /\ boolean nr /\ (dsize nl + dsize nr < dsize op)%nat /\
  forall e, Defined e op -> Defined e nl /\ Defined e nr /\ (Holds e op <-> Holds e nl /\ Holds e nr).
Proof.
  intros Hm [Hwf Ht]. apply match_not_or_inv in Hm as (Ho & o & rest & rest' & Hl & Hoo & Hol).
  destruct op as [d ops], o as [d' ops']. unfold op_opcode, op_type in *. cbn in Ho, Ht, Hl, Hoo, Hol. subst ops ops'.
  inversion Hwf as [? ? Hf Hok]; subst. unfold node_ok in Hok. rewrite Ho in Hok. destruct rest; [|done].
  destruct Hok as (w & _ & Hd & To). rewrite Ht in Hd. injection Hd as <-. inversion Hf as [|? ? Hwo _]; subst.
  unfold op_type in To. cbn in To.
  destruct (bool_bin_inv OpOr d' _ eq_refl Hoo To Hwo) as (x & y & [= -> -> ->] & Hx & Hy & Tx & Ty).
  destruct (simplify_not x Hx Tx) as (nl & El & Wl & Tl & Dl).
  destruct (simplify_not y Hy Ty) as (nr & Er & Wr & Tr & Dr).
  exists nl, nr. split_and!; [done|done|done|done| |].
  { apply dsize_not in El, Er. rewrite !dsize_unfold, !stack_cons, dsize_unfold, !stack_cons.
    rewrite (decide_True (P := od_opcode d' = OpOr)) by done. case_decide; [congruence|]. cbn. lia. }
  intros e Hdef. unfold Holds, Defined in *.
  assert (Defined e (mkOp d' [x; y])) as Hdo.
  { intros E. apply Hdef. cbn [denote fmap list_fmap]. unfold denote_node at 1. rewrite Ho.
    change (denote_node e d' [denote e x; denote e y]) with (denote e (mkOp d' [x; y])). by rewrite E. }
  destruct (denote_bool_bin e d' x y orb) as (u & v & Eu & Ev & E); try done; rewrite ?Hoo; [by intros [] []|done|].
  assert (denote e (mkOp d [mkOp d' [x; y]]) = Some (den_bool (negb (u || v)))) as En.
  { by apply denote_not. }
  rewrite (Dl e u Eu), (Dr e v Ev), En. split_and!; [done|done|].
  destruct u, v; cbn; split; intros; destruct_and?; try done;
    repeat match goal with H : Some (den_bool ?p) = Some (den_bool ?q) |- _ =>
      injection H as H; apply (f_equal DInt) in H; apply (den_bool_inj p q) in H end; done.
Qed.

(** Appending one assertion keeps the invariant. *)
Lemma append_inv l x :
  al_inv l -> boolean x -> backing_size (list_ l) + 1 < no_head ->
  al_inv (mkAssertions (emplace_back (list_ l) x).1 (lookup_ l ++ [x]) (mark_ l)).
Proof.
  intros [Hi Hl Hm Hw] Hx Hroom. destruct (emplace_back_ok (list_ l) x Hi Hroom) as (Hi' & _ & _).
  unfold al_values in *. split; unfold al_values; cbn [list_ lookup_ mark_].
  - done.
  - cbn [emplace_back fst elements_]. rewrite vals_app. by rewrite Hl.
  - unfold backing_size in *. cbn [emplace_back fst elements_]. rewrite length_app. cbn. lia.
  - cbn [emplace_back fst elements_]. rewrite vals_app. apply Forall_app. split; [done|]. by constructor.
Qed.

Lemma al_contains_in l x : al_inv l -> al_contains l x = true -> x ∈ al_values l.
Proof.
  intros Hi Hc. apply existsb_exists in Hc as (y & Hy & Hp). apply ptr_eq_sound in Hp as ->.
  apply list_elem_of_In in Hy. by rewrite (al_lookup l Hi) in Hy.
Qed.

(** Replace the top of the stack by two expressions that stand for it. *)
Lemma inserted_split l l' op x y rest :
  (dsize x + dsize y < dsize op)%nat ->
  (forall e, Defined e op -> Defined e x /\ Defined e y /\ (Holds e op <-> Holds e x /\ Holds e y)) ->
  inserted l l' (y :: x :: rest) -> inserted l l' (op :: rest).
Proof.
  intros Hs Hop (Hi & Hm & (new & Hn & Hlen) & Hh). split_and!; try done.
  - exists new. split; [done|]. rewrite !stack_cons in *. lia.
  - intros e Hd. rewrite Forall_cons in Hd. destruct Hd as [Hd Hrest].
    destruct (Hop e Hd) as (Hdx & Hdy & Hxy). rewrite (Hh e) by (constructor; [done|by constructor]).
    rewrite !Forall_cons, Hxy. tauto.
Qed.

(** The top of the stack needs no entry: it holds everywhere or is present. *)
Lemma inserted_skip l l' op rest :
  (forall e, Forall (Holds e) (al_values l) -> Defined e op -> Holds e op) ->
  inserted l l' rest -> inserted l l' (op :: rest).
Proof.
  intros Hop (Hi & Hm & (new & Hn & Hlen) & Hh). split_and!; try done.
  - exists new. split; [done|]. rewrite stack_cons. lia.
  - intros e Hd. rewrite Forall_cons in Hd. destruct Hd as [Hd Hrest].
    rewrite (Hh e), Forall_cons by done. naive_solver.
Qed.

Lemma inserted_push l l' op rest :
  inserted (mkAssertions (emplace_back (list_ l) op).1 (lookup_ l ++ [op]) (mark_ l)) l' rest ->
  inserted l l' (op :: rest).
Proof.
  intros (Hi & Hm & (new & Hn & Hlen) & Hh). split_and!; try done.
  - exists (op :: new). split; [|pose proof (dsize_pos op); rewrite stack_cons; cbn; lia].
    rewrite Hn. cbn [list_ emplace_back fst elements_]. by rewrite <- app_assoc.
  - intros e Hd. rewrite Forall_cons in Hd. destruct Hd as [Hd Hrest].
    rewrite (Hh e) by done. unfold al_values at 1. cbn [list_ emplace_back fst elements_].
    rewrite vals_app, Forall_app, Forall_cons. cbn. rewrite Forall_singleton. unfold al_values. tauto.
Qed.

Lemma insert_loop_ok fuel a stack l :
  al_inv l -> Forall boolean stack -> (stack_size stack < fuel)%nat ->
  backing_size (list_ l) + Z.of_nat (stack_size stack) < no_head ->
  (is_constant_value a true = true -> Forall (fun op => forall e, Holds e op) stack) ->
  exists l', insert_loop fuel a stack l = Ok l' /\ inserted l l' stack.
Proof.
  revert stack l. induction fuel as [|fuel IHf]; intros stack l Hi Hb Hf Hroom Hc; [lia|].
  destruct stack as [|op rest]; cbn [insert_loop].
  { exists l. split; [done|]. split_and!; try done; [exists []; by rewrite app_nil_r|]. intros e _. rewrite Forall_nil. tauto. }
  rewrite Forall_cons in Hb. destruct Hb as [Hop Hrest]. rewrite stack_cons in Hf, Hroom.
  assert (forall e, is_constant_value a true = true -> Holds e op) as Hcop.
  { intros e Ha. specialize (Hc Ha). by inversion Hc. }
  assert (is_constant_value a true = true -> Forall (fun op => forall e, Holds e op) rest) as Hcrest.
  { intros Ha. specialize (Hc Ha). by inversion Hc. }
  assert (forall x y, (dsize x + dsize y < dsize op)%nat -> boolean x -> boolean y ->
    (forall e, Defined e op -> Defined e x /\ Defined e y /\ (Holds e op <-> Holds e x /\ Holds e y)) ->
    exists l', insert_loop fuel a (y :: x :: rest) l = Ok l' /\ inserted l l' (op :: rest)) as Hsplit.
  { intros x y Hs Hx Hy Hxy. destruct (IHf (y :: x :: rest) l) as (l' & E & Hl'); try done.
    - constructor; [done|by constructor].
    - rewrite !stack_cons. lia.
    - rewrite !stack_cons. lia.
    - intros Ha. constructor; [|constructor; [|by apply Hcrest]]; intros e;
        destruct (Hxy e (Holds_Defined e op (Hcop e Ha))) as (_ & _ & Hiff); by apply Hiff, Hcop.
    - exists l'. split; [done|]. by apply (inserted_split l l' op x y rest). }
  destruct (match_and op) as [[x y]|] eqn:Hand.
  { destruct (decompose_and op x y Hand Hop) as (Hx & Hy & Hs & Hxy). by apply Hsplit. }
  destruct (match_not_or op) as [[x y]|] eqn:Hnor.
  { destruct (decompose_not_or op x y Hnor Hop) as (nl & nr & -> & -> & Hx & Hy & Hs & Hxy).
    rewrite !ok_bind. by apply Hsplit. }
  assert (exists l', insert_loop fuel a rest l = Ok l' /\ inserted l l' rest) as (l1 & E1 & Hl1).
  { apply IHf; try done; [pose proof (dsize_pos op); lia|lia]. }
  destruct (is_constant_value a true) eqn:Ha.
  { exists l1. split; [done|]. apply inserted_skip; [|done]. intros e _ _. by apply Hcop. }
  destruct Hop as [Hwf Ht]. unfold Assertion_ctor. rewrite int_ty_good, ok_bind, Ht, ty_eqb_refl by done. cbn [assert_]. rewrite !ok_bind.
  destruct (al_contains l op) eqn:Hin.
  { exists l1. split; [done|]. apply inserted_skip; [|done]. intros e Hall _.
    apply al_contains_in in Hin; [|done]. rewrite Forall_forall in Hall. by apply Hall. }
  destruct (IHf rest (mkAssertions (emplace_back (list_ l) op).1 (lookup_ l ++ [op]) (mark_ l))) as (l' & E & Hl'); try done.
  - apply append_inv; [done|done|]. pose proof (dsize_pos op). lia.
  - pose proof (dsize_pos op). lia.
  - unfold backing_size in *. cbn [list_ emplace_back fst elements_]. rewrite length_app. cbn.
    pose proof (dsize_pos op). lia.
  - exists l'. split; [done|]. by apply inserted_push.
Qed.

Lemma constant_true_holds e a : wf a -> op_type a = ity 1 -> is_constant_value a true = true -> Holds e a.
Proof.
  intros Hwf Ht Hc. unfold is_constant_value in Hc. destruct (as_ConstantInt a) as [i|] eqn:Ea; [|done].
  apply as_ConstantInt_inv in Ea as (_ & Ti & _ & _ & Di); [|done]. rewrite ap_eq_u64_spec in Hc. apply Z.eqb_eq in Hc.
  unfold Holds. rewrite Di. unfold den_bool. do 2 f_equal. symmetry. rewrite Ht in Ti. injection Ti as Ti.
  apply APInt_of_is; [done|]. by rewrite Hc.
Qed.

Lemma al_insert_ok l a :
  al_inv l -> boolean a -> backing_size (list_ l) + Z.of_nat (dsize a) < no_head ->
  exists l', al_insert l a = Ok l' /\ inserted l l' [a].
Proof.
  intros Hi Ha Hroom. assert (stack_size [a] = dsize a) as Hs by (rewrite stack_cons; cbn; lia).
  apply insert_loop_ok; rewrite ?Hs; try done; [by constructor|lia|].
  intros Hc. constructor; [|constructor]. intros e. destruct Ha. by apply constant_true_holds.
Qed.

(** ** The proven and the unproven part *)
Lemma iterator_from_ok (v : SparseVector Operation) idx :
  0 <= idx <= backing_size v ->
  exists it, iterator_from v idx = Ok it /\ it_ok v it /\ (Z.to_nat idx <= it <= it_end v)%nat /\
    vals (drop it (elements_ v)) = vals (drop (Z.to_nat idx) (elements_ v)).
Proof.
  intros Hidx. unfold iterator_from, iterator_at, backing_size in *. rewrite (proj2 (Z.ltb_ge _ _)) by lia. rewrite ok_bind.
  set (i := Z.to_nat idx). destruct (Nat.eqb_spec i (it_end v)) as [E|Hne].
  { exists i. split_and!; try done; [by left|lia]. }
  assert (i < length (elements_ v))%nat as Hlt by (unfold it_end in Hne; lia).
  destruct (lookup_lt_is_Some_2 _ _ Hlt) as [e He]. unfold it_valid. rewrite He. cbn [fmap option_fmap option_map of_option]. rewrite ok_bind.
  destruct e as [next|x]; cbn [is_value].
  - destruct (it_next_gen v i) as (Hok & Hb & Hv & _); [done|]. exists (it_next v i). split_and!; try done; [lia..|].
    rewrite <- Hv. symmetry. rewrite (drop_S _ (Index next)) by done. done.
  - exists i. split_and!; try done; [right; eauto|lia..|unfold it_end; lia].
Qed.

Lemma proven_unproven l :
  al_inv l -> exists ps us, proven l = Ok ps /\ unproven l = Ok us /\ al_values l = ps ++ us /\
    us = vals (drop (Z.to_nat (mark_ l)) (elements_ (list_ l))).
Proof.
  intros [_ _ Hm _]. destruct (iterator_from_ok (list_ l) (mark_ l) Hm) as (it & E & Hok & Hb & Hv).
  unfold proven, unproven. rewrite E. cbn. eexists. eexists. split_and!; [done|done| |].
  - destruct (it_begin_ok (list_ l)) as (Hbok & Hble & Hbv). unfold al_values. rewrite <- Hbv.
    rewrite (it_range_end _ _ it) by (done || lia).
    assert (it_begin (list_ l) <= it)%nat as Hle.
    { destruct Hok as [->|[x Hx]]; [done|]. unfold it_begin.
      destruct (elements_ (list_ l)) as [|[next|y] els] eqn:El; [lia| |lia].
      destruct it as [|it]; [done|]. destruct (it_next_gen (list_ l) 0) as (_ & _ & _ & Hmin); [unfold it_end; rewrite El; cbn; lia|].
      apply Hmin; [lia|]. right. exists x. by rewrite El. }
    symmetry. apply it_range_app; [done|done|lia|lia].
  - rewrite it_range_end; [done|done|lia|lia].
Qed.

Lemma mark_sat_ok l :
  al_inv l -> al_inv (mark_sat l) /\ al_values (mark_sat l) = al_values l /\ unproven (mark_sat l) = Ok [] /\
    proven (mark_sat l) = Ok (al_values l).
Proof.
  intros [Hi Hl Hm Hw]. destruct (compress_ok (list_ l) Hi) as (Hc & Hv & Hs).
  assert (al_inv (mark_sat l)) as Hinv.
  { unfold mark_sat. split; unfold al_values in *; cbn [list_ lookup_ mark_]; rewrite ?Hv; try done.
    rewrite Hs. unfold backing_size. lia. }
  destruct (proven_unproven (mark_sat l) Hinv) as (ps & us & Ep & Eu & Hval & Hus).
  assert (us = []) as ->.
  { rewrite Hus. unfold mark_sat. cbn [list_ mark_]. rewrite Hs. unfold backing_size. by rewrite Nat2Z.id, drop_all. }
  rewrite app_nil_r in Hval. change (al_values (mark_sat l) = ps) in Hval.
  assert (al_values (mark_sat l) = al_values l) as Hsame by exact Hv.
  rewrite Ep, Eu, <- Hval, Hsame. done.
Qed.

(** ** Erasure and restoration *)
Lemma remove_one_perm a l : a ∈ l -> a :: remove_one a l ≡ₚ l.
Proof.
  induction l as [|x l IHl]; intros Ha; [set_solver|]. cbn. case_decide as Hx; [by subst|].
  apply elem_of_cons in Ha as [->|Ha]; [done|]. rewrite Permutation_swap. by rewrite IHl.
Qed.

Lemma vals_erase (els : list (elem Operation)) i x h :
  els !! i = Some (Elem x) -> vals els ≡ₚ x :: vals (<[i := Index h]> els).
Proof.
  intros Hi. rewrite <- (take_drop_middle els i (Elem x) Hi) at 1.
  rewrite insert_take_drop by (by eapply lookup_lt_Some). rewrite !vals_app, vals_cons.
  change (vals (Index h :: drop (S i) els)) with (vals (drop (S i) els)). by rewrite Permutation_middle.
Qed.

Lemma al_erase_ok l i x :
  al_inv l -> elements_ (list_ l) !! i = Some (Elem x) ->
  exists h l', al_erase l i = Ok l' /\ al_inv l' /\ mark_ l' = mark_ l /\
    elements_ (list_ l') = <[i := Index h]> (elements_ (list_ l)).
Proof.
  intros [Hi Hl Hm Hw] Hx. pose proof (lookup_lt_Some _ _ _ Hx) as Hlt.
  assert (contents (list_ l) !! i = Some x) as Hcon by by rewrite contents_lookup, Hx.
  destruct (sv_erase_ok (list_ l) i x Hi Hcon) as (v' & Ev & Hv' & _).
  unfold al_erase, sv_get, backing_size. rewrite (proj2 (Z.leb_gt _ _)) by lia. rewrite Nat2Z.id, Hx, ok_bind, Ev, ok_bind.
  unfold sv_erase, backing_size in Ev. rewrite (proj2 (Z.ltb_lt _ _)) in Ev by lia. cbn in Ev. rewrite Nat2Z.id, Hx in Ev.
  injection Ev as <-. exists (head_ (list_ l)). eexists. split; [done|].
  pose proof (vals_erase _ _ _ (head_ (list_ l)) Hx) as Hperm. unfold al_values in *. split; [|done].
  split; unfold al_values, backing_size; cbn [list_ lookup_ mark_ elements_].
  - done.
  - apply (Permutation_cons_inv (a := x)). rewrite remove_one_perm; [by rewrite Hl|].
    rewrite Hl, Hperm. set_solver.
  - rewrite length_insert. done.
  - rewrite Hperm in Hw. by inversion Hw.
Qed.

Lemma restore_loop_ok fuel l it :
  al_inv l -> it_ok (list_ l) it -> (it <= it_end (list_ l))%nat -> (it_end (list_ l) - it < fuel)%nat ->
  exists l', restore_loop fuel l it = Ok l' /\ al_inv l' /\ mark_ l' = mark_ l /\
    it_end (list_ l') = it_end (list_ l) /\
    al_values l' = vals (take it (elements_ (list_ l))).
Proof.
  revert l it. induction fuel as [|fuel IHf]; intros l it Hi Hok Hle Hf; [lia|]. cbn [restore_loop].
  destruct (Nat.eqb_spec it (it_end (list_ l))) as [->|Hne].
  { exists l. split_and!; try done. unfold it_end. by rewrite firstn_all. }
  destruct Hok as [?|[x Hx]]; [done|].
  destruct (al_erase_ok l it x Hi Hx) as (h & l1 & -> & Hi1 & Hm1 & Hels). rewrite ok_bind.
  assert (it_end (list_ l1) = it_end (list_ l)) as He1 by (unfold it_end; by rewrite Hels, length_insert).
  destruct (it_next_gen (list_ l1) it) as (Hok1 & Hb1 & Hv1 & _); [lia|].
  destruct (IHf l1 (it_next (list_ l1) it)) as (l' & E & Hi' & Hm' & He' & Hval); [done|done|lia|lia|].
  exists l'. split_and!; [done|done|congruence|congruence|]. rewrite Hval.
  apply (app_inv_tail (vals (drop (it_next (list_ l1) it) (elements_ (list_ l1))))). rewrite vals_take_drop, <- Hv1.
  rewrite <- (vals_take_drop _ (S it)). f_equal.
  rewrite (take_S_r _ _ (Index h)) by (rewrite Hels, list_lookup_insert_eq; [done|by eapply lookup_lt_Some]).
  rewrite vals_app, app_nil_r, Hels, take_insert_ge by done. done.
Qed.

Lemma restore_ok l c :
  al_inv l -> 0 <= c <= checkpoint l ->
  exists l', restore l c = Ok l' /\ al_inv l' /\ mark_ l' = mark_ l /\
    al_values l' = vals (take (Z.to_nat c) (elements_ (list_ l))).
Proof.
  intros Hi Hc. unfold restore, checkpoint, it_end in *.
  destruct (iterator_from_ok (list_ l) c) as (it & -> & Hok & Hb & Hv); [done|]. rewrite ok_bind.
  destruct (restore_loop_ok (S (length (elements_ (list_ l)))) l it) as (l' & E & Hi' & Hm' & _ & Hval);
    [done|done|lia|unfold it_end; lia|].
  exists l'. split_and!; try done. rewrite Hval.
  apply (app_inv_tail (vals (drop it (elements_ (list_ l))))). rewrite vals_take_drop, Hv. by rewrite vals_take_drop.
Qed.

Lemma al_insert_all_ok l assertions :
  al_inv l -> Forall boolean assertions ->
  backing_size (list_ l) + Z.of_nat (stack_size assertions) < no_head ->
  exists l', al_insert_all l assertions = Ok l' /\ inserted l l' assertions.
Proof.
  revert l. induction assertions as [|a rest IHr]; intros l Hi Hb Hroom; cbn [al_insert_all].
  { exists l. split; [done|]. split_and!; try done; [exists []; by rewrite app_nil_r|]. intros e _. rewrite Forall_nil. tauto. }
  rewrite Forall_cons in Hb. destruct Hb as [Ha Hb]. rewrite stack_cons in Hroom.
  destruct (al_insert_ok l a Hi Ha) as (l1 & -> & Hi1 & Hm1 & (n1 & Hn1 & Hlen1) & Hh1); [lia|]. rewrite ok_bind.
  assert (stack_size [a] = dsize a) as Hs by (rewrite stack_cons; cbn; lia). rewrite Hs in Hlen1.
  destruct (IHr l1 Hi1 Hb) as (l' & E & Hi' & Hm' & (n2 & Hn2 & Hlen2) & Hh').
  { unfold backing_size in *. rewrite Hn1, length_app, length_fmap. lia. }
  exists l'. split; [done|]. split_and!; [done|congruence| |].
  - exists (n1 ++ n2). split; [by rewrite Hn2, Hn1, fmap_app, app_assoc|]. rewrite length_app, stack_cons. lia.
  - intros e Hd. rewrite Forall_cons in Hd. destruct Hd as [Hda Hdr].
    rewrite (Hh' e Hdr), (Hh1 e) by (by constructor). rewrite Forall_singleton, Forall_cons. tauto.
Qed.

(** ** The contracts *)

(** C26: Inserting an assertion into a path condition always succeeds when there
    is room, keeps the invariant (the sparse vector, the lookup set and the
    mark agree, every entry is a well-formed boolean) and, although the
    assertion is taken apart and duplicates are dropped, the new list holds in
    an environment that gives the assertion a value exactly when the old list
    and the assertion hold. *)
Theorem insert_preserves_meaning l a :
  al_inv l -> boolean a -> backing_size (list_ l) + Z.of_nat (dsize a) < no_head ->
  exists l', al_insert l a = Ok l' /\ al_inv l' /\ mark_ l' = mark_ l /\
    forall e, Defined e a ->
      (Forall (Holds e) (al_values l') <-> Forall (Holds e) (al_values l) /\ Holds e a).
Proof.
  intros Hi Ha Hroom. destruct (al_insert_ok l a Hi Ha Hroom) as (l' & E & Hi' & Hm & _ & Hh).
  exists l'. split_and!; try done. intros e Hd. rewrite (Hh e), Forall_singleton; [done|by constructor].
Qed.

(** A checkpoint undoes insertions: inserting any assertions and restoring
    the checkpoint taken before gives back the same sequence of assertions. *)
Theorem checkpoint_restore_roundtrip l assertions :
  al_inv l -> Forall boolean assertions ->
  backing_size (list_ l) + Z.of_nat (stack_size assertions) < no_head ->
  exists l' l'', al_insert_all l assertions = Ok l' /\ restore l' (checkpoint l) = Ok l'' /\
    al_inv l'' /\ al_values l'' = al_values l /\ mark_ l'' = mark_ l.
Proof.
  intros Hi Hb Hroom.
  destruct (al_insert_all_ok l assertions Hi Hb Hroom) as (l' & E & Hi' & Hm & (new & Hn & _) & _).
  destruct (restore_ok l' (checkpoint l) Hi') as (l'' & E' & Hi'' & Hm' & Hval).
  { unfold checkpoint, it_end. rewrite Hn, length_app. lia. }
  exists l', l''. split_and!; [done|done|done| |congruence].
  rewrite Hval, Hn. unfold checkpoint, it_end. by rewrite Nat2Z.id, take_app_length.
Qed.

(** The mark separates what was proven: marking a list satisfiable moves all
    of its assertions to the proven part, and assertions inserted later only
    extend the unproven part. *)
Theorem mark_sat_separates l a :
  al_inv l -> boolean a -> backing_size (list_ (mark_sat l)) + Z.of_nat (dsize a) < no_head ->
  proven (mark_sat l) = Ok (al_values l) /\ unproven (mark_sat l) = Ok [] /\
  exists l' new, al_insert (mark_sat l) a = Ok l' /\
    proven l' = Ok (al_values l) /\ unproven l' = Ok new /\ al_values l' = al_values l ++ new.
Proof.
  intros Hi Ha Hroom. destruct (mark_sat_ok l Hi) as (His & Hvs & Hus & Hps). split_and!; [done..|].
  destruct (al_insert_ok (mark_sat l) a His Ha Hroom) as (l' & E & Hi' & Hm & (new & Hn & _) & _).
  destruct (proven_unproven l' Hi') as (ps & us & Ep & Eu & Hval & Hus').
  assert (mark_ l' = backing_size (list_ (mark_sat l))) as Hmark.
  { rewrite Hm. unfold mark_sat. cbn. by apply compress_ok, Hi. }
  assert (al_values l' = al_values l ++ vals (Elem <$> new)) as Hval'.
  { rewrite <- Hvs. unfold al_values at 1. by rewrite Hn, vals_app. }
  assert (us = vals (Elem <$> new)) as ->.
  { rewrite Hus', Hmark, Hn. unfold backing_size. by rewrite Nat2Z.id, drop_app_length. }
  exists l', (vals (Elem <$> new)). split_and!; try done. rewrite Ep. f_equal.
  rewrite Hval' in Hval. by apply app_inv_tail in Hval.
Qed.
End assertions.

Module assertions_witness.
#[local] Instance on : Config := {| IMPLICIT_CONSTANT_FOLDING := true |}.
Definition sym1 (s : string) : Operation := mkOp (mkData OpConstantNamed (ity 1) (PSymbol (Named s))) [].
Lemma sym1_boolean s : boolean (sym1 s).
Proof. split; [|done]. constructor; [done|]. cbn. eauto. Qed.
(** x & !(y | z) *)
Definition cond : Operation :=
  bin OpAnd 1 (sym1 "x") (mkOp (mkData OpNot (ity 1) NoPayload) [bin OpOr 1 (sym1 "y") (sym1 "z")]).
Lemma cond_boolean : boolean cond.
Proof.
  split; [|done]. apply (wf_int_op OpAnd 1); try reflexivity; [split; reflexivity|apply sym1_boolean|].
  constructor; [|exists 1; repeat split; reflexivity]. apply Forall_cons_2; [|constructor].
  apply (wf_int_op OpOr 1); try reflexivity; [split; reflexivity|apply sym1_boolean|apply sym1_boolean].
Qed.
Lemma al_empty_inv : al_inv al_empty.
Proof. split; [apply sv_empty_inv|done|done|constructor]. Qed.

(** The conjunction is stored as three assertions. *)
Lemma cond_inserted :
  al_size <$> al_insert al_empty cond = Ok 3.
Proof. vm_decide. Qed.

Lemma insert_preserves_meaning_witness :
  exists l', al_insert al_empty cond = Ok l' /\ al_inv l' /\ mark_ l' = 0 /\
    forall e, Defined e cond -> (Forall (Holds e) (al_values l') <-> Forall (Holds e) [] /\ Holds e cond).
Proof.
  apply (insert_preserves_meaning al_empty cond); [apply al_empty_inv|apply cond_boolean|reflexivity].
Defined.

Lemma checkpoint_restore_roundtrip_witness :
  exists l' l'', al_insert_all al_empty [cond; sym1 "w"] = Ok l' /\ restore l' 0 = Ok l'' /\
    al_inv l'' /\ al_values l'' = [] /\ mark_ l'' = 0.
Proof.
  apply (checkpoint_restore_roundtrip al_empty [cond; sym1 "w"]); [apply al_empty_inv| |reflexivity].
  apply Forall_cons_2; [apply cond_boolean|apply Forall_cons_2; [apply sym1_boolean|constructor]].
Defined.

Lemma mark_sat_separates_witness :
  proven (mark_sat al_empty) = Ok [] /\ unproven (mark_sat al_empty) = Ok [] /\
  exists l' new, al_insert (mark_sat al_empty) cond = Ok l' /\
    proven l' = Ok [] /\ unproven l' = Ok new /\ al_values l' = [] ++ new.
Proof.
  apply (mark_sat_separates al_empty cond); [apply al_empty_inv|apply cond_boolean|reflexivity].
Defined.
End assertions_witness.
