(* ===== verification/Allocation.v ===== *)
(** Memory allocations: [caffeine::Allocation] (src/Memory/Allocation.cpp).

    An allocation is an address, a size and an array of bytes, all of them
    expressions.  [read] assembles the bytes of a scalar, least significant
    first, and [write] takes one apart; both only build expressions.  The
    theorems look at these expressions in an environment: there, [read] is
    decoding and [write] is encoding of little-endian bytes. *)
From S2P Require Import Prelude LLVM IRType Value Opcode Operation Matching Create Semantics.
From S2P Require Import Simplifier SimplifierInt SimplifierSound Overflow AtEnv SparseVector Assertions.
Open Scope Z_scope.

Inductive AllocationKind : Set := Alloca | Malloc | Global.
#[export] Instance AllocationKind_eq_dec : EqDecision AllocationKind.
Proof. solve_decision. Defined.

(** [AllocationPermissions], a bit mask. *)
Definition PermNone : Z := 0.
Definition PermRead : Z := 1.
Definition PermWrite : Z := 2.
Definition PermExecute : Z := 4.
Definition PermReadWrite : Z := Z.lor PermRead PermWrite.
(** [!(perms & p)] is [negb (has_perm perms p)]. *)
Definition has_perm (perms p : Z) : bool := negb (Z.land perms p =? PermNone).

(** ** Little-endian bytes *)
Fixpoint le_value (bytes : list Z) : Z :=
  match bytes with [] => 0 | b :: bytes => b + 256 * le_value bytes end.
Fixpoint le_bytes (n : nat) (v : Z) : list Z :=
  match n with O => [] | S n => v mod 256 :: le_bytes n (v / 256) end.
Definition is_byte (b : Z) : Prop := 0 <= b < 256.

Lemma le_bytes_length n v : length (le_bytes n v) = n.
Proof. revert v. induction n as [|n IHn]; intros v; cbn; auto. Qed.

Lemma le_bytes_range n v : Forall is_byte (le_bytes n v).
Proof.
  revert v. induction n as [|n IHn]; intros v; cbn; constructor; [|done]. unfold is_byte.
  by apply Z.mod_pos_bound.
Qed.

Lemma pow256 n : 256 ^ Z.of_nat (S n) = 256 * 256 ^ Z.of_nat n.
Proof. rewrite Nat2Z.inj_succ, Z.pow_succ_r; lia. Qed.

Lemma pow256_bits n : 256 ^ n = 2 ^ (8 * n).
Proof.
  destruct (decide (0 <= n)); [|rewrite !Z.pow_neg_r by lia; done].
  change 256 with (2 ^ 8). by rewrite <- Z.pow_mul_r.
Qed.

Lemma le_value_range bytes :
  Forall is_byte bytes -> 0 <= le_value bytes < 256 ^ Z.of_nat (length bytes).
Proof.
  induction 1 as [|b bytes Hb _ IHb]; cbn [le_value length]; [done|]. rewrite pow256. unfold is_byte in Hb. lia.
Qed.

(** Decoding the encoding of a value gives its low bits. *)
Lemma le_roundtrip n v : le_value (le_bytes n v) = v mod 256 ^ Z.of_nat n.
Proof.
  revert v. induction n as [|n IHn]; intros v; cbn [le_value le_bytes].
  - by rewrite Z.mod_1_r.
  - rewrite IHn, pow256. symmetry. rewrite Z.rem_mul_r; lia.
Qed.

Lemma le_bytes_lookup n v j :
  (j < n)%nat -> le_bytes n v !! j = Some ((v / 256 ^ Z.of_nat j) mod 256).
Proof.
  revert v j. induction n as [|n IHn]; intros v [|j] Hj; [lia..| |]; cbn [le_bytes].
  - cbn. by rewrite Z.div_1_r.
  - cbn [lookup list_lookup]. rewrite IHn by lia. rewrite pow256, <- Z.div_div by lia. done.
Qed.

Lemma lor_disjoint a b k : 0 <= k -> 0 <= a < 2 ^ k -> Z.lor a (Z.shiftl b k) = a + b * 2 ^ k.
Proof.
  intros Hk Ha. rewrite <- Z.shiftl_mul_pow2, <- Z.add_lor_land by done.
  assert (Z.land a (Z.shiftl b k) = 0) as ->; [|lia].
  apply Z.bits_inj'. intros i Hi. rewrite Z.land_spec, Z.bits_0, Z.shiftl_spec by done.
  destruct (Z.ltb_spec i k).
  - rewrite (Z.testbit_neg_r b) by lia. apply andb_false_r.
  - rewrite (testbit_high k Hk) by lia. done.
Qed.

Section allocation.
Context `{PtrEq} `{MathExtrasAPI} `{Config} `{DataLayout}.

Record Allocation : Type := mkAllocation {
  address_ : Operation;
  size_op : Operation;
  data_ : Operation;
  alloc_kind : AllocationKind;
  perms_ : Z
}.

Definition Allocation_ctor (address size data : Operation) (kind : AllocationKind) (permissions : Z) :
    result Allocation :=
  assert_ (is_int (op_type address)) ;; assert_ (is_int (op_type size)) ;;
  wa ← bitwidth (op_type address); ws ← bitwidth (op_type size); assert_ (wa =? ws) ;;
  Ok (mkAllocation address size data kind permissions).

(** [permissions(p)], and [overwrite], which throws without write permission. *)
Definition set_permissions (a : Allocation) (p : Z) : Allocation :=
  mkAllocation (address_ a) (size_op a) (data_ a) (alloc_kind a) p.
Definition overwrite (a : Allocation) (newdata : Operation) : result Allocation :=
  if negb (has_perm (perms_ a) PermWrite) then Err Thrown
  else Ok (mkAllocation (address_ a) (size_op a) newdata (alloc_kind a) (perms_ a)).

(** *** Bounds *)
Definition check_inbounds (a : Allocation) (offset width : Operation) : result Operation :=
  lower ← CreateICmp simplify ULT offset (size_op a);
  sum ← CreateAdd simplify offset width;
  upper ← CreateICmp simplify ULE sum (size_op a);
  r ← CreateAnd simplify upper lower; Assertion_ctor r.
Definition check_inbounds_width (a : Allocation) (offset : Operation) (width : Z) : result Operation :=
  w ← bitwidth (op_type offset); c ← ConstantInt_Create simplify (APInt_of w width);
  check_inbounds a offset c.

(** *** Reading *)
Fixpoint read_bytes (data offset : Operation) (i : Z) (n : nat) : result (list Operation) :=
  match n with
  | O => Ok []
  | S n =>
      idx ← IntOp_Create_ri simplify OpAdd offset i; b ← LoadOp_Create simplify data idx;
      rest ← read_bytes data offset (i + 1) n; Ok (b :: rest)
  end.

(** The loop that joins the bytes from [i] on. *)
Fixpoint join_bytes (ty : Ty) (bytes : list Operation) (i : Z) (bitresult : Operation) : result Operation :=
  match bytes with
  | [] => Ok bitresult
  | b :: bytes =>
      z ← CreateZExt simplify ty b; extended ← IntOp_Create_ri simplify OpShl z (i * 8);
      r ← CreateOr simplify bitresult extended; join_bytes ty bytes (i + 1) r
  end.

Definition read (a : Allocation) (offset : Operation) (t : Ty) : result Operation :=
  assert_ (negb (is_void t)) ;; assert_ (negb (is_array t)) ;;
  if negb (has_perm (perms_ a) PermRead) then Err Thrown
  else
    width ← byte_size t;
    bytes ← read_bytes (data_ a) offset 0 (Z.to_nat width);
    byte ← (if is_int t then w ← bitwidth t; Ok (w =? 8) else Ok false);
    if (byte : bool) then
      assert_ (Z.of_nat (length bytes) =? 1) ;; of_option UndefinedBehaviour (bytes !! 0%nat)
    else
      let bw := wrap 32 (width * 8) in
      ty ← int_ty bw; b0 ← of_option UndefinedBehaviour (bytes !! 0%nat);
      r ← CreateZExt simplify ty b0; bitresult ← join_bytes ty (drop 1 bytes) 1 r;
      if is_int t then
        w ← bitwidth t;
        if w =? bw then Ok bitresult
        else assert_ (w <? bw) ;; CreateTrunc simplify t bitresult
      else CreateBitcast simplify t bitresult.

(** *** Writing *)
Fixpoint write_bytes (a : Allocation) (offset value : Operation) (i : Z) (n : nat) : result Allocation :=
  match n with
  | O => Ok a
  | S n =>
      i8 ← int_ty 8; s ← IntOp_Create_ri simplify OpLShr value (i * 8); byte ← CreateTrunc simplify i8 s;
      index ← IntOp_Create_ri simplify OpAdd offset i;
      d ← StoreOp_Create simplify (data_ a) index byte; a ← overwrite a d;
      write_bytes a offset value (i + 1) n
  end.

Definition write (a : Allocation) (offset value : Operation) : result Allocation :=
  assert_ (is_int (op_type offset)) ;;
  if negb (has_perm (perms_ a) PermWrite) then Err Thrown
  else
    let t := op_type value in
    byte_width ← byte_size t;
    let bw := wrap 32 (byte_width * 8) in
    if is_int t then
      w ← bitwidth t;
      if w =? 8 then d ← StoreOp_Create simplify (data_ a) offset value; overwrite a d
      else
        value ← (if w =? bw then Ok value else ty ← int_ty bw; CreateZExt simplify ty value);
        write_bytes a offset value 0 (Z.to_nat byte_width)
    else
      ty ← int_ty bw; value ← CreateBitcast simplify ty value;
      write_bytes a offset value 0 (Z.to_nat byte_width).

(** ** Reading and writing at an environment *)
Section at_env.
Context (e : Env).

(** The array has the bytes [vs] from index [o] on. *)
Definition has_bytes (bs : list (option APInt)) (o : Z) (vs : list Z) : Prop :=
  forall j b, vs !! j = Some b -> bs !! Z.to_nat (o + Z.of_nat j) = Some (Some (APInt_of 8 b)).

Lemma has_bytes_cons bs o b vs :
  has_bytes bs o (b :: vs) -> bs !! Z.to_nat o = Some (Some (APInt_of 8 b)) /\ has_bytes bs (o + 1) vs.
Proof.
  intros Hv. split.
  - specialize (Hv 0%nat b eq_refl). by rewrite Z.add_0_r in Hv.
  - intros j c Hj. specialize (Hv (S j) c Hj). rewrite Nat2Z.inj_succ in Hv.
    by replace (o + 1 + Z.of_nat j) with (o + Z.succ (Z.of_nat j)) by lia.
Qed.

(** The array and the range of an access. *)
Record access (w : Z) (data offset : Operation) (bs : list (option APInt)) (o n : Z) : Prop := {
  access_data : aval e w data bs;
  access_offset : ival e w offset o;
  access_low : 0 <= o;
  access_high : o + n <= Z.of_nat (length bs);
  access_size : Z.of_nat (length bs) <= SIZE_MAX;
  access_wrap : Z.of_nat (length bs) <= 2 ^ w
}.

Lemma read_bytes_at w data offset bs o n i vs :
  access w data offset bs o n -> 0 <= i -> i + Z.of_nat (length vs) <= n -> has_bytes bs (o + i) vs ->
  exists ops, read_bytes data offset i (length vs) = Ok ops /\ Forall2 (ival e 8) ops vs.
Proof.
  intros Ha. revert i. induction vs as [|b vs IHv]; intros i Hi Hn Hb; cbn [read_bytes length].
  { by exists []. }
  apply has_bytes_cons in Hb as [Hb Hvs]. destruct Ha as [Hd Ho Hlo Hhi Hs Hwr]. cbn [length] in Hn.
  destruct (add_ri_at e w offset o i Ho) as (idx & -> & Hidx). rewrite ok_bind.
  destruct (load_at e w data idx bs (o + i) b Hd Hidx Hs) as (r & -> & Hr).
  { by rewrite wrap_small by lia. }
  rewrite ok_bind. destruct (IHv (i + 1)) as (ops & -> & Hops); [lia|lia|by rewrite Z.add_assoc|].
  exists (r :: ops). split; [done|by constructor].
Qed.

Lemma join_bytes_at N ops vs i acc A :
  good_width (8 * N) -> Forall2 (ival e 8) ops vs -> Forall is_byte vs ->
  0 <= i -> i + Z.of_nat (length vs) <= N -> ival e (8 * N) acc A -> 0 <= A < 256 ^ i ->
  exists r, join_bytes (ity (8 * N)) ops i acc = Ok r /\
    ival e (8 * N) r (A + 256 ^ i * le_value vs).
Proof.
  intros Hg Hops. revert i acc A. induction Hops as [|op b ops vs Hop _ IHo]; intros i acc A Hv Hi HN Hacc HA;
    cbn [join_bytes le_value].
  { exists acc. rewrite Z.mul_0_r, Z.add_0_r. done. }
  apply Forall_cons in Hv as [Hb Hv]. cbn [length] in HN. pose proof Hg as [Hg0 _]. unfold is_byte in Hb.
  assert (256 ^ (i + 1) = 256 * 256 ^ i) as Hp by (rewrite Z.pow_add_r; lia).
  assert (256 ^ (i + 1) <= 2 ^ (8 * N)) as HpN by (rewrite <- pow256_bits; apply Z.pow_le_mono_r; lia).
  destruct (zext_at e (8 * N) 8 op b) as (z & -> & Hz); [lia|done|done|]. rewrite ok_bind.
  destruct (int_ri_at e OpShl (8 * N) z (wrap 8 b) (i * 8) (Z.shiftl b (8 * i)) eq_refl Hz) as (x & -> & Hx).
  { cbn. rewrite (wrap_small 8) by (change (2 ^ 8) with 256; lia).
    assert (8 * N < 2 ^ (8 * N)) by (apply Z.pow_gt_lin_r; lia).
    assert (256 <= 256 ^ (i + 1)) by (rewrite Hp; pose proof (Z.pow_pos_nonneg 256 i); lia).
    rewrite (wrap_small (8 * N) b), (wrap_small (8 * N) (i * 8)) by lia. by rewrite (Z.mul_comm i). }
  rewrite ok_bind.
  assert (Z.shiftl b (8 * i) = b * 256 ^ i) as Es by (rewrite Z.shiftl_mul_pow2, pow256_bits; lia).
  destruct (int_at e OpOr (8 * N) acc x A _ (A + b * 256 ^ i) eq_refl Hacc Hx) as (r & Er & Hr).
  { cbn. rewrite !wrap_small by nia. f_equal. rewrite lor_disjoint; [by rewrite pow256_bits|lia|].
    by rewrite <- pow256_bits. }
  unfold CreateOr. rewrite Er, ok_bind.
  destruct (IHo (i + 1) r (A + b * 256 ^ i)) as (q & -> & Hq); [done|lia|lia|done|nia|].
  exists q. split; [done|]. rewrite Hp in Hq.
  by replace (A + 256 ^ i * (b + 256 * le_value vs)) with (A + b * 256 ^ i + 256 * 256 ^ i * le_value vs) by lia.
Qed.

Lemma byte_size_int k : good_width k -> byte_size (ity k) = Ok (divceil k 8) /\ 8 * divceil k 8 - 8 < k <= 8 * divceil k 8.
Proof. intros [? ?]. split; [done|]. apply divceil_spec. lia. Qed.

Lemma read_at w a offset bs o k vs :
  good_width k -> k + 8 <= 2 ^ 24 -> has_perm (perms_ a) PermRead = true ->
  access w (data_ a) offset bs o (divceil k 8) -> Z.of_nat (length vs) = divceil k 8 ->
  Forall is_byte vs -> has_bytes bs o vs ->
  exists r, read a offset (ity k) = Ok r /\ ival e k r (le_value vs).
Proof.
  intros Hk Hk8 Hp Ha Hlen Hvs Hb. destruct (byte_size_int k Hk) as (Hbs & Hn). pose proof Hk as [Hk0 _].
  unfold read. change (negb (is_void (ity k))) with true. change (negb (is_array (ity k))) with true.
  change (is_int (ity k)) with true. cbn [assert_]. run_ok. rewrite Hp. cbn [negb].
  change (byte_size (ity k)) with (Ok (divceil k 8)). rewrite ok_bind.
  destruct (read_bytes_at w (data_ a) offset bs o (divceil k 8) 0 vs Ha) as (ops & E & Hops); [done|lia|by rewrite Z.add_0_r|].
  rewrite <- Hlen, Nat2Z.id, E. run_ok. pose proof (Forall2_length _ _ _ Hops) as Hl.
  destruct vs as [|b vs]; [cbn in Hlen; lia|]. inversion Hops as [|op ? ops' ? Hop Hops']; subst ops.
  destruct (Z.eqb_spec k 8) as [->|Hne].
  - change (divceil 8 8) with 1 in Hlen. destruct vs; [|cbn in Hlen; lia]. inversion Hops'; subst.
    exists op. split; [done|]. cbn [le_value]. by rewrite Z.mul_0_r, Z.add_0_r.
  - cbn [lookup list_lookup of_option drop]. rewrite wrap_small by (cbn; cbn in Hlen; lia).
    rewrite Hlen, (Z.mul_comm (divceil k 8)). assert (good_width (8 * divceil k 8)) as Hg by (split; lia).
    rewrite int_ty_good by done. run_ok. apply Forall_cons in Hvs as [Hb0 Hvs].
    destruct (zext_at e (8 * divceil k 8) 8 op b) as (z & -> & Hz); [lia|done|done|]. rewrite ok_bind, drop_0.
    unfold is_byte in Hb0. rewrite wrap_small in Hz by (change (2 ^ 8) with 256; lia).
    destruct (join_bytes_at (divceil k 8) ops' vs 1 z b) as (r & -> & Hr); try done; [cbn in Hlen; lia|].
    run_ok. change (256 ^ 1) with 256 in Hr. cbn [le_value].
    destruct (Z.eqb_spec k (8 * divceil k 8)) as [Ek|Ek].
    + exists r. split; [done|]. by rewrite <- Ek in Hr.
    + rewrite (proj2 (Z.ltb_lt k (8 * divceil k 8))) by lia. cbn [assert_]. rewrite ok_bind.
      apply (trunc_at e k (8 * divceil k 8) r); [lia|done|done].
Qed.

(** Write bytes at consecutive indices. *)
Fixpoint put (bs : list (option APInt)) (o : Z) (vs : list Z) : list (option APInt) :=
  match vs with
  | [] => bs
  | b :: vs => put (<[Z.to_nat o := Some (APInt_of 8 b)]> bs) (o + 1) vs
  end.

Lemma put_length bs o vs : length (put bs o vs) = length bs.
Proof. revert bs o. induction vs as [|b vs IHv]; intros bs o; cbn [put]; [done|]. by rewrite IHv, length_insert. Qed.

Lemma put_other bs o vs j :
  0 <= o -> (Z.of_nat j < o \/ o + Z.of_nat (length vs) <= Z.of_nat j) -> put bs o vs !! j = bs !! j.
Proof.
  revert bs o. induction vs as [|b vs IHv]; intros bs o Ho Hj; cbn [put]; [done|]. cbn [length] in Hj.
  rewrite IHv by lia. apply list_lookup_insert_ne. lia.
Qed.

Lemma put_has_bytes bs o vs :
  0 <= o -> o + Z.of_nat (length vs) <= Z.of_nat (length bs) -> has_bytes (put bs o vs) o vs.
Proof.
  revert bs o. induction vs as [|b vs IHv]; intros bs o Ho Hl; [done|]. cbn [length] in Hl. cbn [put].
  intros [|j] c Hj.
  - cbn in Hj. injection Hj as <-. rewrite Z.add_0_r, put_other by lia.
    apply list_lookup_insert_eq. lia.
  - cbn in Hj. replace (o + Z.of_nat (S j)) with (o + 1 + Z.of_nat j) by lia.
    apply IHv; [lia|rewrite length_insert; lia|done].
Qed.

Lemma access_data_change w data data' offset bs bs' o n :
  access w data offset bs o n -> aval e w data' bs' -> length bs' = length bs -> access w data' offset bs' o n.
Proof. intros [] Ha Hl. by split; rewrite ?Hl. Qed.

(** Only the data of the allocation changes. *)
Definition with_data (a a' : Allocation) : Prop :=
  a' = mkAllocation (address_ a) (size_op a) (data_ a') (alloc_kind a) (perms_ a).

Lemma write_bytes_at w a offset bs o n value N V i m :
  has_perm (perms_ a) PermWrite = true -> access w (data_ a) offset bs o n ->
  ival e (8 * N) value V -> 0 <= V < 2 ^ (8 * N) -> 0 <= i -> i + Z.of_nat m <= n -> i + Z.of_nat m <= N ->
  exists a', write_bytes a offset value i m = Ok a' /\ with_data a a' /\
    aval e w (data_ a') (put bs (o + i) (le_bytes m (V / 256 ^ i))).
Proof.
  revert a bs i. induction m as [|m IHm]; intros a bs i Hp Ha Hv HV Hi Hin HiN; cbn [write_bytes le_bytes put].
  { exists a. split_and!; [done|by destruct a|]. apply Ha. }
  pose proof Ha as [Hd Ho Hlo Hhi Hs Hwr]. pose proof Hv as (_ & _ & [Hg0 _] & _).
  assert (8 * N < 2 ^ (8 * N)) by (apply Z.pow_gt_lin_r; lia).
  rewrite int_ty_good, ok_bind by done.
  destruct (int_ri_at e OpLShr (8 * N) value V (i * 8) (V / 256 ^ i) eq_refl Hv) as (s & -> & Hsv).
  { cbn. rewrite !wrap_small by lia. rewrite Z.shiftr_div_pow2, pow256_bits by lia. by rewrite (Z.mul_comm i). }
  rewrite ok_bind. destruct (trunc_at e 8 (8 * N) s (V / 256 ^ i)) as (byte & -> & Hbyte); [lia|done|done|].
  rewrite ok_bind. destruct (add_ri_at e w offset o i Ho) as (idx & -> & Hidx). rewrite ok_bind.
  assert (wrap w (o + i) = o + i) as Hwi by (apply wrap_small; lia).
  destruct (store_at e w (data_ a) idx byte bs (o + i) ((V / 256 ^ i) mod 256)) as (d & -> & Hd'); [done|done| |rewrite Hwi; lia|].
  { eapply ival_wrap; [|exact Hbyte]. symmetry. apply (wrap_wrap 8). lia. }
  rewrite ok_bind, Hwi in *. unfold overwrite. rewrite Hp. cbn [negb]. rewrite ok_bind.
  set (a1 := mkAllocation _ _ d _ _).
  destruct (IHm a1 (<[Z.to_nat (o + i) := Some (APInt_of 8 ((V / 256 ^ i) mod 256))]> bs) (i + 1)) as (a' & E & Hw & Hav);
    [done| |done|done|lia|lia|lia|].
  { eapply access_data_change; [exact Ha|exact Hd'|apply length_insert]. }
  exists a'. split_and!; [done|done|]. rewrite Z.add_assoc in Hav.
  rewrite Z.pow_add_r, <- Z.div_div in Hav by lia. exact Hav.
Qed.

Lemma write_at w a offset bs o k value V :
  good_width k -> k + 8 <= 2 ^ 24 -> has_perm (perms_ a) PermWrite = true ->
  access w (data_ a) offset bs o (divceil k 8) -> ival e k value V -> 0 <= V < 2 ^ k ->
  exists a', write a offset value = Ok a' /\ with_data a a' /\
    aval e w (data_ a') (put bs o (le_bytes (Z.to_nat (divceil k 8)) V)).
Proof.
  intros Hk Hk8 Hp Ha Hv HV. destruct (byte_size_int k Hk) as (Hbs & Hn). pose proof Hk as [Hk0 _].
  pose proof Ha as [Hd Ho Hlo Hhi Hs Hwr]. pose proof Ho as (_ & To & _ & _). pose proof Hv as (_ & Tv & _ & _).
  unfold write. rewrite To. run_ok. rewrite Hp. cbn [negb]. rewrite Tv.
  change (byte_size (ity k)) with (Ok (divceil k 8)). change (is_int (ity k)) with true. cbv iota.
  run_ok. destruct (Z.eqb_spec k 8) as [->|Hne].
  - change (divceil 8 8) with 1 in *. destruct (store_at e w (data_ a) offset value bs o V) as (d & -> & Hd'); try done.
    { rewrite wrap_small by lia. lia. }
    rewrite ok_bind. unfold overwrite. rewrite Hp. cbn [negb]. eexists. split_and!; [done|done|].
    rewrite wrap_small in Hd' by lia. cbn [data_]. change (Z.to_nat 1) with 1%nat. cbn [le_bytes put].
    rewrite Z.mod_small by lia. exact Hd'.
  - rewrite wrap_small by lia. rewrite (Z.mul_comm (divceil k 8)).
    assert (good_width (8 * divceil k 8)) as Hg by (split; lia).
    assert (exists v', (if k =? 8 * divceil k 8 then Ok value
        else ty ← int_ty (8 * divceil k 8); CreateZExt simplify ty value) = Ok v' /\ ival e (8 * divceil k 8) v' V)
      as (v' & -> & Hv').
    { destruct (Z.eqb_spec k (8 * divceil k 8)) as [Ek|Ek]; [exists value; by rewrite <- Ek|].
      rewrite int_ty_good, ok_bind by done. destruct (zext_at e (8 * divceil k 8) k value V) as (z & Ez & Hz); [lia|done|done|].
      exists z. rewrite wrap_small in Hz by done. done. }
    rewrite ok_bind.
    assert (2 ^ k <= 2 ^ (8 * divceil k 8)) by (apply Z.pow_le_mono_r; lia).
    destruct (write_bytes_at w a offset bs o (divceil k 8) v' (divceil k 8) V 0 (Z.to_nat (divceil k 8)))
      as (a' & E & Hw & Hav); try done; [lia|lia|lia|].
    exists a'. split_and!; [done|done|]. by rewrite Z.add_0_r, Z.div_1_r in Hav.
Qed.

Lemma bval_ctor r b : bval e r b -> Assertion_ctor r = Ok r /\ (Holds e r <-> b = true).
Proof.
  intros (Wr & Tr & _ & Dr). split.
  - unfold Assertion_ctor. rewrite int_ty_good, ok_bind, Tr, ty_eqb_refl by done. done.
  - unfold Holds. rewrite Dr. change (DInt (APInt_of 1 (Z.b2z b))) with (den_bool b). split.
    + intros E. apply (inj Some) in E. by apply den_bool_inj in E.
    + by intros ->.
Qed.

Lemma check_inbounds_at w a offset width o n s :
  ival e w offset o -> ival e w width n -> ival e w (size_op a) s ->
  exists r, check_inbounds a offset width = Ok r /\ boolean r /\
    (Holds e r <-> wrap w o < wrap w s /\ wrap w (o + n) <= wrap w s).
Proof.
  intros Ho Hn Hs. unfold check_inbounds.
  destruct (icmp_at e ULT w offset (size_op a) o s Ho Hs) as (lo & -> & Hlo). rewrite ok_bind.
  destruct (add_at e w offset width o n Ho Hn) as (sum & -> & Hsum). rewrite ok_bind.
  destruct (icmp_at e ULE w sum (size_op a) (o + n) s Hsum Hs) as (hi & -> & Hhi). rewrite ok_bind.
  destruct (and_at e hi lo _ _ Hhi Hlo) as (r & -> & Hr). rewrite ok_bind.
  destruct (bval_ctor r _ Hr) as [-> Hh]. exists r. split_and!; [done|by destruct Hr as (? & ? & _)|].
  rewrite Hh. cbn [sem_icmp]. rewrite andb_true_iff, Z.ltb_lt, Z.leb_le. tauto.
Qed.
End at_env.

(** ** The contracts *)

(** Reading an integer from an allocation decodes it: if, in an environment,
    the bytes of the range read are defined and in the array, [read] returns an
    expression of the type read, whose value there is the little-endian value
    of the bytes, for every width up to the largest byte multiple, multiples of
    eight or not. *)
Theorem read_decodes e w a offset bs o k vs :
  good_width k -> k + 8 <= 2 ^ 24 -> has_perm (perms_ a) PermRead = true ->
  access e w (data_ a) offset bs o (divceil k 8) -> Z.of_nat (length vs) = divceil k 8 ->
  Forall is_byte vs -> has_bytes bs o vs ->
  exists r, read a offset (ity k) = Ok r /\ wf r /\ op_type r = ity k /\
    denote e r = Some (DInt (APInt_of k (le_value vs))).
Proof.
  intros. destruct (read_at e w a offset bs o k vs) as (r & E & Wr & Tr & _ & Dr); try done. by exists r.
Qed.

(** Writing an integer to an allocation encodes it: the bytes of the range
    become the little-endian bytes of the value (zero-extended to whole bytes),
    every other byte and every other part of the allocation stays as it was. *)
Theorem write_encodes e w a offset bs o k value V :
  good_width k -> k + 8 <= 2 ^ 24 -> has_perm (perms_ a) PermWrite = true ->
  access e w (data_ a) offset bs o (divceil k 8) -> ival e k value V -> 0 <= V < 2 ^ k ->
  exists a' bs', write a offset value = Ok a' /\ with_data a a' /\ aval e w (data_ a') bs' /\
    length bs' = length bs /\ has_bytes bs' o (le_bytes (Z.to_nat (divceil k 8)) V) /\
    forall j, Z.of_nat j < o \/ o + divceil k 8 <= Z.of_nat j -> bs' !! j = bs !! j.
Proof.
  intros Hk Hk8 Hp Ha Hv HV. destruct (write_at e w a offset bs o k value V) as (a' & E & Hw & Hav); try done.
  destruct (byte_size_int k Hk) as (_ & Hn). destruct Ha as [_ _ Hlo Hhi _ _]. pose proof Hk as [? _].
  eexists a', _. split_and!; [done|done|exact Hav|apply put_length| |].
  - apply put_has_bytes; [done|]. rewrite le_bytes_length. lia.
  - intros j Hj. apply put_other; [done|]. rewrite le_bytes_length. lia.
Qed.

(** What is written is read back: writing a value and reading the same type at
    the same offset gives an expression with the value written, in every
    environment in which the access is within the array. *)
Theorem write_read_roundtrip e w a offset bs o k value V :
  good_width k -> k + 8 <= 2 ^ 24 ->
  has_perm (perms_ a) PermRead = true -> has_perm (perms_ a) PermWrite = true ->
  access e w (data_ a) offset bs o (divceil k 8) -> ival e k value V -> 0 <= V < 2 ^ k ->
  exists a' r, write a offset value = Ok a' /\ read a' offset (op_type value) = Ok r /\
    op_type r = op_type value /\ denote e r = denote e value.
Proof.
  intros Hk Hk8 Hpr Hpw Ha Hv HV. destruct (write_at e w a offset bs o k value V) as (a' & E & Hw & Hav); try done.
  destruct (byte_size_int k Hk) as (_ & Hn). pose proof Hk as [Hk0 _].
  destruct (read_at e w a' offset (put bs o (le_bytes (Z.to_nat (divceil k 8)) V)) o k
    (le_bytes (Z.to_nat (divceil k 8)) V)) as (r & Er & Wr & Tr & _ & Dr); try done.
  - rewrite Hw. exact Hpr.
  - eapply access_data_change; [exact Ha|exact Hav|apply put_length].
  - rewrite le_bytes_length. lia.
  - apply le_bytes_range.
  - destruct Ha as [_ _ Hlo Hhi _ _]. apply put_has_bytes; [done|]. rewrite le_bytes_length. lia.
  - destruct Hv as (_ & Tv & _ & Dv). exists a', r. rewrite Tv. split_and!; try done. rewrite Dr, Dv, le_roundtrip.
    rewrite Z.mod_small; [done|]. rewrite Z2Nat.id, pow256_bits by lia.
    assert (2 ^ k <= 2 ^ (8 * divceil k 8)) by (apply Z.pow_le_mono_r; lia). lia.
Qed.

(** The bounds check of an access is exact when the end of the access does not
    wrap around the address space: it holds in an environment exactly if the
    access starts inside the allocation and ends at most at its end (the comment
    in the code has it end before).  In general it tests the wrapped end. *)
Theorem check_inbounds_exact e w a offset width o n s :
  ival e w offset o -> ival e w width n -> ival e w (size_op a) s ->
  0 <= o < 2 ^ w -> 0 <= n < 2 ^ w -> 0 <= s < 2 ^ w ->
  exists r, check_inbounds a offset width = Ok r /\ boolean r /\
    (Holds e r <-> o < s /\ wrap w (o + n) <= s) /\
    (o + n < 2 ^ w -> (Holds e r <-> o < s /\ o + n <= s)).
Proof.
  intros Ho Hn Hs Ro Rn Rs. destruct (check_inbounds_at e w a offset width o n s Ho Hn Hs) as (r & E & Hb & Hh).
  exists r. rewrite (wrap_small w o), (wrap_small w s) in Hh by done. split_and!; try done.
  intros Hw. by rewrite Hh, wrap_small by lia.
Qed.
End allocation.

(** A four-byte array, read and written at a symbolic offset. *)
Module allocation_witness.
#[local] Instance on : Config := {| IMPLICIT_CONSTANT_FOLDING := true |}.
#[local] Instance layout : DataLayout := {| getPointerSize := 8 |}.
Definition byte (b : Z) : Operation := cint (APInt_of 8 b).
Definition four : Operation := mkOp (mkData OpFixedArray (aty 8) NoPayload) [byte 1; byte 2; byte 3; byte 4].
Definition sym (w : Z) (s : string) : Operation := mkOp (mkData OpConstantNamed (ity w) (PSymbol (Named s))) [].
Definition env : Env := {|
  env_symbol s := if decide (s = Named "i") then DInt (APInt_of 8 1) else DInt (APInt_of 13 4660);
  env_array _ _ := DInt (APInt_of 8 0); env_node _ := Some (DInt (APInt_of 8 0))
|}.
Definition alloc4 : Allocation := mkAllocation (byte 16) (byte 4) four Malloc PermReadWrite.
Definition bytes4 : list (option APInt) := (fun b => Some (APInt_of 8 b)) <$> [1; 2; 3; 4].

Lemma byte_wf b : wf (byte b) /\ op_type (byte b) = ity 8.
Proof.
  assert (getBitWidth (APInt_of 8 b) = 8) as Hw by (by rewrite APInt_of_width).
  split; [apply cint_wf; by rewrite Hw|]. change (ity (getBitWidth (APInt_of 8 b)) = ity 8). by rewrite Hw.
Qed.
Lemma sym_at w s v : good_width w -> denote env (sym w s) = Some (DInt (APInt_of w v)) -> ival env w (sym w s) v.
Proof. intros Hw Hd. split_and!; try done. constructor; [done|]. cbn. eauto. Qed.

Lemma four_access : access env 8 four (sym 8 "i") bytes4 1 2.
Proof.
  split; try done.
  - split_and!; [|done|done|vm_decide]. constructor.
    + repeat (constructor; [apply byte_wf|]). constructor.
    + exists 8. split_and!; [done|done| |].
      * repeat (constructor; [apply byte_wf|]). constructor.
      * assert (ilog2 (Z.of_nat 4) <= 8) as Hl by vm_decide. exact Hl.
  - apply sym_at; [done|vm_decide].
Qed.
Lemma value_at : ival env 13 (sym 13 "v") 4660.
Proof. apply sym_at; [done|vm_decide]. Qed.

Lemma read_decodes_witness :
  exists r, read alloc4 (sym 8 "i") (ity 13) = Ok r /\ wf r /\ op_type r = ity 13 /\
    denote env r = Some (DInt (APInt_of 13 (le_value [2; 3]))).
Proof.
  apply (read_decodes env 8 alloc4 (sym 8 "i") bytes4 1 13 [2; 3]); try done.
  - apply four_access.
  - repeat constructor; done.
  - intros [|[|j]] b Hj; cbn in Hj; simplify_eq; reflexivity.
Defined.

Lemma write_encodes_witness :
  exists a' bs', write alloc4 (sym 8 "i") (sym 13 "v") = Ok a' /\ with_data alloc4 a' /\
    aval env 8 (data_ a') bs' /\ length bs' = length bytes4 /\ has_bytes bs' 1 (le_bytes 2 4660) /\
    forall j, Z.of_nat j < 1 \/ 1 + 2 <= Z.of_nat j -> bs' !! j = bytes4 !! j.
Proof.
  apply (write_encodes env 8 alloc4 (sym 8 "i") bytes4 1 13 (sym 13 "v") 4660); try done.
  - apply four_access.
  - apply value_at.
Defined.

Lemma write_read_roundtrip_witness :
  exists a' r, write alloc4 (sym 8 "i") (sym 13 "v") = Ok a' /\ read a' (sym 8 "i") (ity 13) = Ok r /\
    op_type r = ity 13 /\ denote env r = denote env (sym 13 "v").
Proof.
  apply (write_read_roundtrip env 8 alloc4 (sym 8 "i") bytes4 1 13 (sym 13 "v") 4660); try done.
  - apply four_access.
  - apply value_at.
Defined.

(** Two bytes at offset 1 of an allocation of four. *)
Lemma check_inbounds_exact_witness :
  exists r, check_inbounds alloc4 (sym 8 "i") (byte 2) = Ok r /\ boolean r /\
    (Holds env r <-> 1 < 4 /\ wrap 8 (1 + 2) <= 4) /\
    (1 + 2 < 2 ^ 8 -> (Holds env r <-> 1 < 4 /\ 1 + 2 <= 4)).
Proof.
  apply (check_inbounds_exact env 8 alloc4 (sym 8 "i") (byte 2) 1 2 4); try done.
  - apply four_access.
  - destruct (byte_wf 2). by split_and!.
  - destruct (byte_wf 4). by split_and!.
Defined.
End allocation_witness.
