(* ===== verification/Slicer.v ===== *)
(** Constraint slicing: [caffeine::ConstraintSlicer]
    (src/Query/ConstraintSlicer.cpp).

    The slicer keeps the unproven assertions and those proven assertions that
    share a symbol with one of them or with the extra assertion.  The cache of
    contained symbols only saves work and is not part of the model; the order
    in which [std::unordered_set] yields its elements is the parameter
    [iterate]. *)
From S2P Require Import Prelude LLVM IRType Value Opcode Operation Matching Create Semantics.
From S2P Require Import Simplifier SimplifierInt SimplifierSound SparseVector Assertions.
Open Scope Z_scope.

#[export] Instance Symbol_countable : Countable Symbol :=
  inj_countable' (fun s => match s with Named n => inl n | Numbered z => inr z end)
    (fun s => match s with inl n => Named n | inr z => Numbered z end)
    (fun s => match s with Named _ => eq_refl | Numbered _ => eq_refl end).

(** The iteration order of a hash set. *)
Class HashOrder := {
  iterate : list Symbol -> list Symbol;
  iterate_perm : forall l, iterate l ≡ₚ l
}.

#[export, refine] Instance insertion_order : HashOrder := {| iterate l := l |}.
Proof. done. Defined.

Section slicer.
Context `{PtrEq} `{MathExtrasAPI} `{Config} `{HashOrder}.

(** [std::unordered_set::insert]. *)
Definition set_insert (s : Symbol) (out : list Symbol) : list Symbol :=
  if decide (s ∈ out) then out else out ++ [s].

Fixpoint calc_contained_constants (expr : Operation) (out : list Symbol) : list Symbol :=
  let 'mkOp d l := expr in
  match od_payload d with
  | PSymbol s =>
      if Constant_classof (od_opcode d) then set_insert s out
      else foldl (fun out x => calc_contained_constants x out)
             (if bool_decide (od_opcode d = OpConstantArray) then set_insert s out else out) l
  | _ => foldl (fun out x => calc_contained_constants x out) out l
  end.
Definition contained_constants (expr : Operation) : list Symbol :=
  iterate (calc_contained_constants expr []).

(** [known[symbol].push_back(assertion)] for every symbol of the assertion. *)
Definition add_known (known : gmap Symbol (list Operation)) (a : Operation) : gmap Symbol (list Operation) :=
  foldl (fun k s => <[s := default [] (k !! s) ++ [a]]> k) known (contained_constants a).
Definition known_map (proven : list Operation) : gmap Symbol (list Operation) :=
  foldl add_known ∅ proven.

(** Insert the known assertions of the given symbols. *)
Fixpoint insert_known (known : gmap Symbol (list Operation)) (symbols : list Symbol) (l : AssertionList) :
    result AssertionList :=
  match symbols with
  | [] => Ok l
  | s :: symbols =>
      l ← match known !! s with Some a => al_insert_all l a | None => Ok l end;
      insert_known known symbols l
  end.
Fixpoint slice_unproven (known : gmap Symbol (list Operation)) (us : list Operation) (l : AssertionList) :
    result AssertionList :=
  match us with
  | [] => Ok l
  | a :: us =>
      l ← al_insert l a; l ← insert_known known (contained_constants a) l;
      slice_unproven known us l
  end.

Definition slice (assertions : AssertionList) (extra : Operation) : result AssertionList :=
  ps ← proven assertions; us ← unproven assertions;
  let known := known_map ps in
  l ← slice_unproven known us al_empty;
  l ← insert_known known (contained_constants extra) l;
  al_insert_all l us.

(** ** Symbols *)

(** A symbol occurs in an expression. *)
Inductive occurs (s : Symbol) : Operation -> Prop :=
| occurs_here d l : od_payload d = PSymbol s ->
    Constant_classof (od_opcode d) || bool_decide (od_opcode d = OpConstantArray) = true ->
    occurs s (mkOp d l)
| occurs_below d l x : x ∈ l -> occurs s x -> occurs s (mkOp d l).

Lemma set_insert_spec s t out : s ∈ set_insert t out <-> s = t \/ s ∈ out.
Proof. unfold set_insert. case_decide; set_solver. Qed.

Lemma calc_foldl_spec s (l : list Operation) out :
  Forall (fun x => forall out, s ∈ calc_contained_constants x out <-> occurs s x \/ s ∈ out) l ->
  s ∈ foldl (fun out x => calc_contained_constants x out) out l <->
    (exists x, x ∈ l /\ occurs s x) \/ s ∈ out.
Proof.
  intros Hl. revert out. induction Hl as [|x l Hx _ IHl]; intros out; cbn [foldl]; [set_solver|].
  rewrite IHl, Hx. set_solver.
Qed.

Lemma calc_spec s op :
  wf op -> forall out, s ∈ calc_contained_constants op out <-> occurs s op \/ s ∈ out.
Proof.
  induction op as [d l IH] using operation_ind'. intros Hwf out. inversion Hwf as [? ? Hl Hok]; subst.
  assert (Forall (fun x => forall out, s ∈ calc_contained_constants x out <-> occurs s x \/ s ∈ out) l) as Hops.
  { rewrite Forall_forall in *. auto. }
  assert (forall out, (exists x, x ∈ l /\ occurs s x) \/ s ∈ out <->
    s ∈ foldl (fun out x => calc_contained_constants x out) out l) as Hf by (intros; by rewrite calc_foldl_spec).
  cbn [calc_contained_constants]. destruct (od_payload d) as [|t|a|f|p|i] eqn:Hp.
  all: try (rewrite <- Hf; split; [intros [(x & ? & ?)|?]; [left; by econstructor|by right]
    |intros [Ho|?]; [inversion Ho; subst; [congruence|left; eauto]|by right]]).
  destruct (Constant_classof (od_opcode d)) eqn:Hc.
  - rewrite set_insert_spec. split.
    + intros [->|?]; [left; apply occurs_here; [done|by rewrite Hc]|by right].
    + intros [Ho|?]; [|by right]. left. inversion Ho as [? ? Hp'|? ? x Hx]; subst; [congruence|].
      unfold node_ok in Hok. destruct (od_opcode d); try done; destruct l; set_solver.
  - rewrite <- Hf. case_bool_decide as Ha.
    + rewrite set_insert_spec. split.
      * intros [(x & ? & ?)|[->|?]]; [left; by econstructor| |by right].
        left. apply occurs_here; [done|]. rewrite Hc. by apply bool_decide_eq_true.
      * intros [Ho|?]; [|by right; right]. inversion Ho as [? ? Hp'|? ? x Hx]; subst; [right; left; congruence|left; eauto].
    + split; [intros [(x & ? & ?)|?]; [left; by econstructor|by right]|].
      intros [Ho|?]; [|by right]. inversion Ho as [? ? Hp' Hcl|? ? x Hx]; subst; [|left; eauto].
      rewrite Hc in Hcl. by apply bool_decide_eq_true in Hcl.
Qed.

Lemma contained_spec s op : wf op -> s ∈ contained_constants op <-> occurs s op.
Proof.
  intros Hwf. unfold contained_constants. rewrite (iterate_perm _), calc_spec by done. set_solver.
Qed.

(** ** What is inserted *)
Definition known_of (known : gmap Symbol (list Operation)) (symbols : list Symbol) : list Operation :=
  s ← symbols; default [] (known !! s).

(** Every assertion the slicer hands to the new list, in order. *)
Definition slice_inserts (ps us : list Operation) (extra : Operation) : list Operation :=
  (a ← us; a :: known_of (known_map ps) (contained_constants a)) ++
  known_of (known_map ps) (contained_constants extra) ++ us.

Lemma al_insert_all_app l xs ys :
  al_insert_all l (xs ++ ys) = (l ← al_insert_all l xs; al_insert_all l ys).
Proof.
  revert l. induction xs as [|x xs IHx]; intros l; cbn [al_insert_all app]; [done|].
  destruct (al_insert l x) as [l1|err]; [|done]. rewrite !ok_bind. apply IHx.
Qed.

Lemma insert_known_all known symbols l :
  insert_known known symbols l = al_insert_all l (known_of known symbols).
Proof.
  revert l. induction symbols as [|s symbols IHs]; intros l; [done|]. cbn [insert_known].
  change (known_of known (s :: symbols)) with (default [] (known !! s) ++ known_of known symbols).
  rewrite al_insert_all_app. destruct (known !! s) as [a|]; [|exact (IHs l)].
  cbn [default from_option id]. destruct (al_insert_all l a) as [l1|err]; [|done]. rewrite !ok_bind. apply IHs.
Qed.

Lemma slice_unproven_all known us l :
  slice_unproven known us l = al_insert_all l (a ← us; a :: known_of known (contained_constants a)).
Proof.
  revert l. induction us as [|a us IHu]; intros l; [done|]. cbn [slice_unproven].
  change (a ← a :: us; a :: known_of known (contained_constants a)) with
    (a :: known_of known (contained_constants a) ++ (a ← us; a :: known_of known (contained_constants a))).
  cbn [al_insert_all]. destruct (al_insert l a) as [l1|err]; [|done]. rewrite !ok_bind, insert_known_all, al_insert_all_app.
  destruct (al_insert_all l1 _) as [l2|err]; [|done]. rewrite !ok_bind. apply IHu.
Qed.

Lemma slice_all l extra ps us :
  proven l = Ok ps -> unproven l = Ok us ->
  slice l extra = al_insert_all al_empty (slice_inserts ps us extra).
Proof.
  intros Ep Eu. unfold slice, slice_inserts. rewrite Ep, ok_bind, Eu, ok_bind, slice_unproven_all, !al_insert_all_app.
  destruct (al_insert_all al_empty _) as [l1|err]; [|done]. rewrite !ok_bind, insert_known_all, al_insert_all_app. done.
Qed.

(** The map from symbols to the proven assertions that contain them. *)
Lemma add_known_spec known a x s :
  x ∈ default [] (add_known known a !! s) <-> x ∈ default [] (known !! s) \/ (x = a /\ s ∈ contained_constants a).
Proof.
  unfold add_known. generalize (contained_constants a) as symbols. intros symbols. revert known.
  induction symbols as [|t symbols IHs]; intros known; cbn [foldl]; [set_solver|].
  rewrite IHs. destruct (decide (t = s)) as [->|Hne].
  - rewrite lookup_insert. rewrite decide_True by done. cbn. rewrite elem_of_app, list_elem_of_singleton, elem_of_cons. tauto.
  - rewrite lookup_insert_ne by done. rewrite elem_of_cons. naive_solver.
Qed.

Lemma known_map_spec ps x s :
  x ∈ default [] (known_map ps !! s) <-> x ∈ ps /\ s ∈ contained_constants x.
Proof.
  unfold known_map. assert (forall known,
    x ∈ default [] (foldl add_known known ps !! s) <->
    x ∈ default [] (known !! s) \/ (x ∈ ps /\ s ∈ contained_constants x)) as Hg.
  { induction ps as [|p ps IHp]; intros known; cbn [foldl]; [set_solver|].
    rewrite IHp, add_known_spec, elem_of_cons. naive_solver. }
  rewrite Hg, lookup_empty. cbn. set_solver.
Qed.

(** Two expressions have a symbol in common. *)
Definition shares (a b : Operation) : Prop := exists s, occurs s a /\ occurs s b.

Lemma known_of_spec ps a x :
  Forall wf ps -> wf a ->
  x ∈ known_of (known_map ps) (contained_constants a) <-> x ∈ ps /\ shares a x.
Proof.
  intros Hps Ha. unfold known_of. rewrite list_elem_of_bind. unfold shares. rewrite Forall_forall in Hps. split.
  - intros (s & Hx & Hs). apply known_map_spec in Hx as [Hx Hsx].
    apply contained_spec in Hs; [|done]. apply contained_spec in Hsx; [|by apply Hps]. eauto.
  - intros (Hx & s & Hsa & Hsx). exists s. rewrite known_map_spec, !contained_spec by auto. done.
Qed.

(** A proven assertion the slice keeps. *)
Definition kept (us : list Operation) (extra p : Operation) : Prop :=
  shares extra p \/ exists u, u ∈ us /\ shares u p.

Lemma slice_inserts_spec ps us extra x :
  Forall wf ps -> Forall wf us -> wf extra ->
  x ∈ slice_inserts ps us extra <-> x ∈ us \/ (x ∈ ps /\ kept us extra x).
Proof.
  intros Hps Hus He. unfold slice_inserts, kept.
  rewrite !elem_of_app, known_of_spec, list_elem_of_bind by done. rewrite Forall_forall in Hus. split.
  - intros [(u & Hx & Hu)|[?|?]]; [|tauto|tauto].
    apply elem_of_cons in Hx as [->|Hx]; [tauto|]. apply known_of_spec in Hx; [|done|auto]. naive_solver.
  - intros [?|(Hx & [?|(u & Hu & Hs)])]; [tauto|tauto|]. left. exists u. split; [|done].
    apply elem_of_cons. right. apply known_of_spec; auto.
Qed.

(** The proven assertions the slice keeps, as a list. *)
Definition kept_list (ps us : list Operation) (extra : Operation) : list Operation :=
  known_of (known_map ps) (contained_constants extra) ++
  (u ← us; known_of (known_map ps) (contained_constants u)).

Lemma kept_list_spec ps us extra x :
  Forall wf ps -> Forall wf us -> wf extra -> x ∈ kept_list ps us extra <-> x ∈ ps /\ kept us extra x.
Proof.
  intros Hps Hus He. unfold kept_list, kept. rewrite elem_of_app, known_of_spec, list_elem_of_bind by done.
  rewrite Forall_forall in Hus. split.
  - intros [?|(u & Hx & Hu)]; [tauto|]. apply known_of_spec in Hx; [|done|auto]. naive_solver.
  - intros (Hx & [?|(u & Hu & Hs)]); [tauto|]. right. exists u. rewrite known_of_spec; auto.
Qed.

(** ** The meaning of a slice *)
Definition slice_room (l : AssertionList) (extra : Operation) : Prop :=
  forall ps us, proven l = Ok ps -> unproven l = Ok us ->
    Z.of_nat (stack_size (slice_inserts ps us extra)) < no_head.

Lemma al_parts l :
  al_inv l -> exists ps us, proven l = Ok ps /\ unproven l = Ok us /\ al_values l = ps ++ us /\
    Forall boolean ps /\ Forall boolean us.
Proof.
  intros Hi. destruct (proven_unproven l Hi) as (ps & us & Ep & Eu & Hv & _). exists ps, us.
  pose proof (al_wf l Hi) as Hw. rewrite Hv, Forall_app in Hw. by destruct Hw.
Qed.

Lemma slice_ok l extra :
  al_inv l -> boolean extra -> slice_room l extra ->
  exists ps us l', proven l = Ok ps /\ unproven l = Ok us /\ al_values l = ps ++ us /\
    slice l extra = Ok l' /\ al_inv l' /\ mark_ l' = 0 /\
    forall e, Forall (Defined e) (al_values l) ->
      (Forall (Holds e) (al_values l') <->
       Forall (Holds e) us /\ Forall (fun p => kept us extra p -> Holds e p) ps).
Proof.
  intros Hi [We Te] Hroom. destruct (al_parts l Hi) as (ps & us & Ep & Eu & Hv & Hps & Hus).
  specialize (Hroom ps us Ep Eu).
  assert (Forall wf ps /\ Forall wf us) as [Wps Wus].
  { split; [eapply Forall_impl; [exact Hps|]|eapply Forall_impl; [exact Hus|]]; by intros ? []. }
  assert (forall x, x ∈ slice_inserts ps us extra -> x ∈ al_values l) as Hin.
  { intros x Hx. apply slice_inserts_spec in Hx; [|done..]. rewrite Hv, elem_of_app. tauto. }
  assert (al_inv al_empty) as Hie by (split; [apply sv_empty_inv|done|done|constructor]).
  destruct (al_insert_all_ok al_empty (slice_inserts ps us extra)) as (l' & E & Hi' & Hm & _ & Hh).
  - done.
  - pose proof (al_wf l Hi) as Hw. rewrite Forall_forall in Hw |- *. intros x Hx. by apply Hw, Hin.
  - exact Hroom.
  - exists ps, us, l'. split_and!; try done; [by rewrite (slice_all l extra ps us)|].
    intros e Hd. rewrite (Hh e).
    + split.
      * intros [_ Hx]. rewrite Forall_forall in Hx. split; apply Forall_forall; intros x Hx'.
        -- apply Hx, slice_inserts_spec; auto.
        -- intros Hk. apply Hx, slice_inserts_spec; auto.
      * intros [Hu Hp]. split; [constructor|]. rewrite Forall_forall in Hu, Hp |- *. intros x Hx.
        apply slice_inserts_spec in Hx as [?|[? ?]]; auto.
    + rewrite Forall_forall in Hd |- *. auto.
Qed.

(** ** Frame: the value of an expression depends on its symbols *)
Fixpoint egraph_free (op : Operation) : bool :=
  let 'mkOp d l := op in negb (bool_decide (od_opcode d = OpEGraphNode)) && forallb egraph_free l.

Definition agree (e e' : Env) (s : Symbol) : Prop :=
  env_symbol e s = env_symbol e' s /\ forall n, env_array e s n = env_array e' s n.

Lemma denote_frame e e' op :
  egraph_free op = true -> (forall s, occurs s op -> agree e e' s) -> denote e op = denote e' op.
Proof.
  induction op as [d l IH] using operation_ind'. intros Hg Ho. cbn [egraph_free] in Hg.
  apply andb_true_iff in Hg as [Hd Hl]. rewrite forallb_forall in Hl. cbn [denote].
  assert (denote e <$> l = denote e' <$> l) as ->.
  { apply list_fmap_ext. intros i x Hx. apply list_elem_of_lookup_2 in Hx. rewrite Forall_forall in IH.
    apply IH; [done|by apply Hl, list_elem_of_In|]. intros s Hs. apply Ho. by econstructor. }
  assert (forall s, od_payload d = PSymbol s ->
    Constant_classof (od_opcode d) || bool_decide (od_opcode d = OpConstantArray) = true -> agree e e' s) as Hs.
  { intros s Hp Hc. apply Ho. by apply occurs_here. }
  unfold denote_node. destruct (od_opcode d) eqn:Hop; try reflexivity.
  - destruct (denote e' <$> l) as [|v [|]]; try reflexivity.
    destruct (od_payload d); try reflexivity. by rewrite (proj1 (Hs s eq_refl eq_refl)).
  - destruct (denote e' <$> l) as [|v [|]]; try reflexivity.
    destruct (od_payload d); try reflexivity. by rewrite (proj1 (Hs s eq_refl eq_refl)).
  - destruct (denote e' <$> l) as [|[[]|] [|]]; try reflexivity.
    destruct (od_payload d); try reflexivity. by rewrite (proj2 (Hs s eq_refl eq_refl)).
  - discriminate.
Qed.

(** The environment that takes the given symbols from [e] and the others from
    [e']. *)
Definition merge_env (symbols : list Symbol) (e e' : Env) : Env := {|
  env_symbol s := if decide (s ∈ symbols) then env_symbol e s else env_symbol e' s;
  env_array s n := if decide (s ∈ symbols) then env_array e s n else env_array e' s n;
  env_node := env_node e
|}.

Lemma merge_env_in symbols e e' s : s ∈ symbols -> agree (merge_env symbols e e') e s.
Proof. intros Hs. split; [|intros n]; cbn; by rewrite decide_True. Qed.
Lemma merge_env_out symbols e e' s : s ∉ symbols -> agree (merge_env symbols e e') e' s.
Proof. intros Hs. split; [|intros n]; cbn; by rewrite decide_False. Qed.

Lemma merge_left symbols e e' op :
  egraph_free op = true -> (forall s, occurs s op -> s ∈ symbols) ->
  denote (merge_env symbols e e') op = denote e op.
Proof. intros Hg Ho. apply denote_frame; [done|]. intros s Hs. by apply merge_env_in, Ho. Qed.
Lemma merge_right symbols e e' op :
  egraph_free op = true -> (forall s, occurs s op -> s ∉ symbols) ->
  denote (merge_env symbols e e') op = denote e' op.
Proof. intros Hg Ho. apply denote_frame; [done|]. intros s Hs. by apply merge_env_out, Ho. Qed.

(** Independent sets of assertions are satisfied together. *)
Lemma independent_sat xs ys e e' :
  Forall wf xs -> Forall (fun a => egraph_free a = true) (xs ++ ys) ->
  (forall x y, x ∈ xs -> y ∈ ys -> ~ shares x y) ->
  Forall (Holds e) xs -> Forall (Holds e') ys -> exists e'', Forall (Holds e'') (xs ++ ys).
Proof.
  intros Wx Hg Hind Hx Hy. exists (merge_env (x ← xs; contained_constants x) e e').
  rewrite Forall_app in Hg. destruct Hg as [Gx Gy]. rewrite Forall_app. rewrite !Forall_forall in *.
  split; intros a Ha; unfold Holds.
  - rewrite merge_left; [by apply Hx|by apply Gx|]. intros s Hs. apply list_elem_of_bind. exists a.
    rewrite contained_spec by auto. done.
  - rewrite merge_right; [by apply Hy|by apply Gy|]. intros s Hs Hin.
    apply list_elem_of_bind in Hin as (x & Hsx & Hinx). rewrite contained_spec in Hsx by auto.
    apply (Hind x a); [done..|]. by exists s.
Qed.

(** ** The contracts *)


(** Slicing loses no solutions when the slice is closed: if no proven
    assertion that is dropped shares a symbol with one that is kept, with an
    unproven assertion or with the extra one, the dropped assertions have a
    solution of their own, and the slice and the extra assertion have one, then
    the whole list and the extra assertion have a common solution. *)
Theorem closed_slice_sound l extra ps us e e' :
  al_inv l -> boolean extra -> slice_room l extra ->
  proven l = Ok ps -> unproven l = Ok us ->
  Forall (fun a => egraph_free a = true) (extra :: al_values l) ->
  (forall p q, p ∈ ps -> q ∈ ps -> kept us extra p -> shares p q -> kept us extra q) ->
  Forall (Holds e') ps ->
  Forall (Defined e) (al_values l) ->
  exists l', slice l extra = Ok l' /\
    (Forall (Holds e) (extra :: al_values l') -> exists e'', Forall (Holds e'') (extra :: al_values l)).
Proof.
  intros Hi He Hroom Ep Eu Hg Hcl Hps Hd.
  destruct (slice_ok l extra Hi He Hroom) as (ps' & us' & l' & Ep' & Eu' & Hv & E & _ & _ & Hh).
  rewrite Ep in Ep'. injection Ep' as <-. rewrite Eu in Eu'. injection Eu' as <-.
  exists l'. split; [done|]. intros Hl'. rewrite Forall_cons in Hl'. destruct Hl' as [Hext Hl'].
  apply Hh in Hl' as [Hu Hk]; [|done]. pose proof (al_wf l Hi) as Hw. rewrite Hv in Hg, Hw.
  assert (Forall wf ps /\ Forall wf us) as [Wps Wus].
  { apply Forall_app. eapply Forall_impl; [exact Hw|]. by intros ? []. }
  set (keep := kept_list ps us extra).
  destruct (independent_sat (extra :: us ++ filter (.∈ keep) ps) (filter (fun p => p ∉ keep) ps) e e') as (e'' & Hall).
  - constructor; [apply He|]. apply Forall_app. split; [done|]. by apply Forall_filter.
  - rewrite Forall_cons, Forall_app in Hg. destruct Hg as (Ge & Gp & Gu).
    rewrite Forall_app, Forall_cons, Forall_app. split_and!; try done; by apply Forall_filter.
  - intros x y Hx Hy Hs. apply list_elem_of_filter in Hy as [Hny Hy]. apply Hny.
    apply kept_list_spec; [done..|apply He|]. split; [done|].
    rewrite elem_of_cons, elem_of_app, list_elem_of_filter in Hx.
    destruct Hx as [->|[Hx|[Hx Hp]]]; [by left|right; eauto|].
    apply kept_list_spec in Hx as [_ Hx]; [|done..|apply He]. by apply (Hcl x y).
  - rewrite Forall_cons, Forall_app. split_and!; [done..|]. rewrite Forall_forall in Hk |- *. intros p Hp.
    apply list_elem_of_filter in Hp as [Hkp Hp]. apply Hk; [done|].
    apply kept_list_spec in Hkp as [_ ?]; [done..|apply He].
  - by apply Forall_filter.
  - exists e''. rewrite Hv. rewrite !Forall_forall in *. intros a Ha. apply Hall.
    rewrite elem_of_cons, elem_of_app in Ha. rewrite elem_of_app, elem_of_cons, elem_of_app, !list_elem_of_filter.
    destruct (decide (a ∈ keep)); tauto.
Qed.
End slicer.

Module slicer_witness.
#[local] Instance on : Config := {| IMPLICIT_CONSTANT_FOLDING := true |}.
Definition x1 : Operation := mkOp (mkData OpConstantNamed (ity 1) (PSymbol (Named "x"))) [].
Definition y1 : Operation := mkOp (mkData OpConstantNamed (ity 1) (PSymbol (Named "y"))) [].
Definition x_eq_y : Operation := mkOp (mkData (OpICmp EQ) (ity 1) NoPayload) [x1; y1].
Definition not_x : Operation := mkOp (mkData OpNot (ity 1) NoPayload) [x1].

Lemma x1_boolean : boolean x1.
Proof. split; [|done]. constructor; [done|]. cbn. eauto. Qed.
Lemma y1_boolean : boolean y1.
Proof. split; [|done]. constructor; [done|]. cbn. eauto. Qed.
Lemma x_eq_y_boolean : boolean x_eq_y.
Proof.
  split; [|done]. constructor; [|exists 1; done].
  constructor; [apply x1_boolean|constructor; [apply y1_boolean|done]].
Qed.
Lemma not_x_boolean : boolean not_x.
Proof. split; [|done]. constructor; [|exists 1; done]. constructor; [apply x1_boolean|done]. Qed.

(** A list whose first [mark] assertions are proven. *)
Definition list_of (l : list Operation) (mark : Z) : AssertionList := mkAssertions (sv_of_list l) l mark.

Lemma vals_elems (l : list Operation) : vals (Elem <$> l) = l.
Proof. induction l as [|x l IHl]; [done|]. cbn. by f_equal. Qed.

Lemma list_of_inv l mark :
  Forall boolean l -> 0 <= mark <= Z.of_nat (length l) -> Z.of_nat (length l) < no_head -> al_inv (list_of l mark).
Proof.
  intros Hl Hm Hn. split; unfold list_of, al_values, backing_size, sv_of_list; cbn [list_ lookup_ mark_ elements_];
    rewrite ?vals_elems, ?length_fmap; try done. by apply sv_of_list_inv.
Qed.

(** Every symbol has the value [b]. *)
Definition const_env (b : bool) : Env := {|
  env_symbol _ := den_bool b; env_array _ _ := den_bool b; env_node _ := Some (den_bool b)
|}.

(** x == y and y are proven. *)
Definition xy_y : AssertionList := list_of [x_eq_y; y1] 2.

(** x == y and z are proven; !x is asked. *)
Definition z1 : Operation := mkOp (mkData OpConstantNamed (ity 1) (PSymbol (Named "z"))) [].
Definition xy_z : AssertionList := list_of [x_eq_y; z1] 2.
Lemma xy_z_inv : al_inv xy_z.
Proof.
  apply list_of_inv; [|done|done]. constructor; [apply x_eq_y_boolean|constructor; [|done]].
  split; [|done]. constructor; [done|]. cbn. eauto.
Qed.
Lemma xy_z_parts : proven xy_z = Ok [x_eq_y; z1] /\ unproven xy_z = Ok [].
Proof. split; vm_decide. Qed.
Lemma xy_z_room : slice_room xy_z not_x.
Proof.
  intros ps us Ep Eu. rewrite (proj1 xy_z_parts) in Ep. rewrite (proj2 xy_z_parts) in Eu.
  injection Ep as <-. injection Eu as <-. vm_decide.
Qed.

(** The slice for !x is [x == y]. *)
Lemma xy_z_sliced : al_values <$> slice xy_z not_x = Ok [x_eq_y].
Proof. vm_decide. Qed.


Lemma shares_false a b :
  wf a -> wf b ->
  Forall (fun s => s ∉ calc_contained_constants b []) (calc_contained_constants a []) -> ~ shares a b.
Proof.
  intros Ha Hb Hn (s & Hsa & Hsb). rewrite Forall_forall in Hn. apply (Hn s).
  - apply calc_spec; auto.
  - apply calc_spec; auto.
Qed.

Lemma closed_slice_sound_witness :
  exists l', slice xy_z not_x = Ok l' /\
    (Forall (Holds (const_env false)) (not_x :: al_values l') ->
     exists e'', Forall (Holds e'') (not_x :: al_values xy_z)).
Proof.
  apply (closed_slice_sound xy_z not_x [x_eq_y; z1] [] (const_env false) (const_env true)).
  - apply xy_z_inv.
  - apply not_x_boolean.
  - apply xy_z_room.
  - apply xy_z_parts.
  - apply xy_z_parts.
  - vm_decide.
  - assert (kept [] not_x x_eq_y) as Hk.
    { left. exists (Named "x"). split; [apply (occurs_below _ _ _ x1)|apply (occurs_below _ _ _ x1)];
        [by left|by apply occurs_here|by left|by apply occurs_here]. }
    intros p q Hp Hq Hkp Hs. pose proof (al_wf xy_z xy_z_inv) as Hw.
    change (al_values xy_z) with [x_eq_y; z1] in Hw.
    apply Forall_cons in Hw as [[W1 _] [[W2 _] _]%Forall_cons].
    apply elem_of_cons in Hp as [->|Hp%list_elem_of_singleton].
    + apply elem_of_cons in Hq as [->|Hq%list_elem_of_singleton]; [done|]. subst q.
      by apply shares_false in Hs; [|done|done|vm_decide].
    + subst p. destruct Hkp as [Hkp|(u & Hu & _)]; [|by apply elem_of_nil in Hu].
      by apply shares_false in Hkp; [|apply not_x_boolean|done|vm_decide].
  - unfold Holds. vm_decide.
  - unfold Defined. vm_decide.
Defined.

(** The slice is not transitive: with x == y and y proven, asking for !x
    keeps only x == y.  The slice and !x have a solution although the whole
    list and !x have none, and the proven part alone is satisfiable. *)
Theorem slice_not_transitive :
  exists l', al_inv xy_y /\ unproven xy_y = Ok [] /\
    Forall (Holds (const_env true)) (al_values xy_y) /\
    slice xy_y not_x = Ok l' /\ al_values l' = [x_eq_y] /\
    Forall (Holds (const_env false)) (not_x :: al_values l') /\
    forall e, ~ Forall (Holds e) (not_x :: al_values xy_y).
Proof.
  destruct (slice xy_y not_x) as [l'|err] eqn:E.
  2: { assert (is_ok (slice xy_y not_x) = true) as Hok by vm_decide. by rewrite E in Hok. }
  assert (al_values <$> slice xy_y not_x = Ok [x_eq_y]) as Ev by vm_decide.
  rewrite E in Ev. injection Ev as Ev. exists l'. rewrite Ev.
  split_and!; try done.
  - apply list_of_inv; [|done|done]. constructor; [apply x_eq_y_boolean|constructor; [apply y1_boolean|done]].
  - unfold Holds. vm_decide.
  - unfold Holds. vm_decide.
  - intros e He. change (al_values xy_y) with [x_eq_y; y1] in He.
    apply Forall_cons in He as [Hn [Hxy [Hy _]%Forall_cons]%Forall_cons]. unfold Holds in *.
    assert (exists v, denote e x1 = Some v) as (v & Ex).
    { destruct (denote e x1) eqn:Ex; [eauto|]. cbn [denote not_x fmap list_fmap] in Hn. by rewrite Ex in Hn. }
    destruct (bool_value e x1 v (proj1 x1_boolean) eq_refl Ex) as ([] & ->).
    + pose proof (denote_not e (op_data not_x) x1 true eq_refl Ex) as Hn'.
      change (mkOp (op_data not_x) [x1]) with not_x in Hn'. rewrite Hn' in Hn.
      apply (inj Some) in Hn. by apply den_bool_inj in Hn.
    + cbn [denote x_eq_y fmap list_fmap] in Hxy. rewrite Ex, Hy in Hxy.
      assert (denote_node e (mkData (OpICmp EQ) (ity 1) NoPayload) [Some (den_bool false); Some (den_bool true)]
        = Some (den_bool false)) as Hf by vm_decide.
      rewrite Hf in Hxy. apply (inj Some) in Hxy. by apply den_bool_inj in Hxy.
Qed.
End slicer_witness.
