(* ===== verification/Solvers.v ===== *)
(** The solver stack: [caffeine::Solver] and the adapters built on it
    (src/Solver/Solver.cpp, EarlyExitSolver.cpp, CanonicalizingSolver.cpp,
    InterruptSolver.cpp, LoggingSolver.cpp, SlicingSolver.cpp) and
    [transforms::canonicalize] (src/IR/Transforms/canonicalize.cpp).

    A solver takes the path condition by reference and may rewrite it, so
    [solver_check] and [solver_resolve] return the new list with the answer.
    The class [SolverSpec] is the contract that the comments of
    include/caffeine/Solver/Solver.h state; every adapter is shown to keep it,
    for any inner solver that has it.  The bottom of the stack, a
    solver such as that of Z3Solver.v, is a parameter. *)
From S2P Require Import Prelude LLVM IRType Value Opcode Operation Matching Create Semantics.
From S2P Require Import Simplifier SimplifierInt SimplifierSound ModelEval SparseVector Assertions Slicer.
Open Scope Z_scope.

(** [SolverResult::Kind]. *)
Inductive Kind : Set := UNSAT | SAT | Unknown.
#[export] Instance Kind_eq_dec : EqDecision Kind.
Proof. solve_decision. Defined.

Section solvers.
Context `{PtrEq} `{MathExtrasAPI} `{Config} `{HashOrder}.

(** *** Results *)
Record SolverResult : Type := mkResult { kind_ : Kind; model_ : option Model }.

(** The constructor: only a SAT result has a model. *)
Definition SolverResult_ctor (kind : Kind) (model : option Model) : result SolverResult :=
  assert_ (bool_decide (kind = SAT) || negb (bool_decide (is_Some model))) ;; Ok (mkResult kind model).
Definition result_is (r : SolverResult) (kind : Kind) : bool := bool_decide (kind_ r = kind).
Definition result_isnt (r : SolverResult) (kind : Kind) : bool := negb (result_is r kind).

(** *** Solvers *)
Record Solver : Type := mkSolver {
  solver_check : AssertionList -> Operation -> result (SolverResult * AssertionList);
  solver_resolve : AssertionList -> Operation -> result (SolverResult * AssertionList)
}.

(** [Solver::check] as inherited: resolve and drop the model. *)
Definition default_check (resolve : AssertionList -> Operation -> result (SolverResult * AssertionList))
    (l : AssertionList) (extra : Operation) : result (SolverResult * AssertionList) :=
  '(r, l) ← resolve l extra; r' ← SolverResult_ctor (kind_ r) None; Ok (r', l).
(** The overloads without an extra assertion. *)
Definition check1 (s : Solver) (l : AssertionList) : result (SolverResult * AssertionList) :=
  t ← Assertion_default; solver_check s l t.
Definition resolve1 (s : Solver) (l : AssertionList) : result (SolverResult * AssertionList) :=
  t ← Assertion_default; solver_resolve s l t.

(** *** EarlyExitSolver *)
Definition EarlyExit_check (inner : Solver) (l : AssertionList) (extra : Operation) :=
  if is_constant_value extra false then r ← SolverResult_ctor UNSAT None; Ok (r, l)
  else
    us ← unproven l;
    if bool_decide (us = []) && is_constant_value extra true then r ← SolverResult_ctor SAT None; Ok (r, l)
    else solver_check inner l extra.
Definition EarlyExit_resolve (inner : Solver) (l : AssertionList) (extra : Operation) :=
  if is_constant_value extra false then r ← SolverResult_ctor UNSAT None; Ok (r, l)
  else solver_resolve inner l extra.
Definition EarlyExitSolver (inner : Solver) : Solver :=
  mkSolver (EarlyExit_check inner) (EarlyExit_resolve inner).

(** *** InterruptSolver: [stop] is the value of the shared flag at the call. *)
Definition InterruptSolver (stop : bool) (inner : Solver) : Solver :=
  let ask (f : AssertionList -> Operation -> result (SolverResult * AssertionList)) l extra :=
    if stop then r ← SolverResult_ctor Unknown None; Ok (r, l) else f l extra in
  mkSolver (ask (solver_check inner)) (ask (solver_resolve inner)).

(** *** LoggingSolver: what it prints is not part of the model; [should_filter]
    decides whether it prints. *)
Definition should_filter (l : AssertionList) (extra : Operation) : bool :=
  is_constant_value extra false || ((al_size l =? 0) && is_constant_value extra true).
Definition LoggingSolver (inner : Solver) : Solver :=
  mkSolver (fun l extra => '(r, l) ← solver_check inner l extra; Ok (r, l))
           (fun l extra => '(r, l) ← solver_resolve inner l extra; Ok (r, l)).

(** *** TransformSolver *)
Definition Transform : Type := AssertionList -> Operation -> result (Kind * AssertionList).
Definition transformed (transform : Transform)
    (ask : AssertionList -> Operation -> result (SolverResult * AssertionList))
    (l : AssertionList) (extra : Operation) : result (SolverResult * AssertionList) :=
  '(k, l) ← transform l extra;
  match k with
  | SAT => Err Aborted
  | UNSAT => r ← SolverResult_ctor UNSAT None; Ok (r, l)
  | Unknown => ask l extra
  end.
Definition TransformSolver (transform : Transform) (base : Solver) : Solver :=
  mkSolver (transformed transform (solver_check base)) (transformed transform (solver_resolve base)).

(** *** CanonicalizingSolver *)
Definition all_assertions (l : AssertionList) : list Operation :=
  it_range (list_ l) (it_end (list_ l)) (it_begin (list_ l)) (it_end (list_ l)).
Definition canonicalize (l : AssertionList) : result AssertionList :=
  if existsb (fun a => is_constant_value a false) (all_assertions l) then
    c ← ConstantInt_Create_bool simplify false; a ← Assertion_ctor c; al_insert (al_clear l) a
  else Ok l.
Definition Canonicalizing_transform : Transform := fun l _ => l ← canonicalize l; Ok (Unknown, l).
Definition CanonicalizingSolver : Solver -> Solver := TransformSolver Canonicalizing_transform.

(** *** SlicingSolver: the slice is a new list, the caller's is not changed. *)
Definition Slicing_check (inner : Solver) (l : AssertionList) (extra : Operation) :=
  list ← slice l extra; '(r, _) ← solver_check inner list extra; Ok (r, l).
Definition SlicingSolver (inner : Solver) : Solver := mkSolver (Slicing_check inner) (solver_resolve inner).

(** *** SolverBuilder *)
Record SolverBuilder : Type := mkBuilder { base : Solver; stack : list (Solver -> Solver) }.
Definition SolverBuilder_ctor (base : Solver) : SolverBuilder := mkBuilder base [].
Definition with_ (b : SolverBuilder) (func : Solver -> Solver) : SolverBuilder :=
  mkBuilder (base b) (stack b ++ [func]).
(** The loop from [rbegin] to [rend]. *)
Definition build_solver (b : SolverBuilder) : Solver :=
  foldl (fun solver func => func solver) (base b) (rev (stack b)).

(** ** The contract *)

(** Two path conditions with the same solutions. *)
Definition same_solutions (l l' : AssertionList) : Prop :=
  forall e, Forall (Holds e) (al_values l) <-> Forall (Holds e) (al_values l').
(** What [mark_sat] records: the proven assertions have a solution. *)
Definition marked_sat (l : AssertionList) : Prop :=
  exists ps e, proven l = Ok ps /\ Forall (Holds e) ps.
Record query_ok (l : AssertionList) (extra : Operation) : Prop := {
  query_inv : al_inv l;
  query_extra : boolean extra;
  query_marked : marked_sat l
}.

(** The answer is right and the rewritten list has the solutions of the old. *)
Record answers (l : AssertionList) (extra : Operation) (r : SolverResult) (l' : AssertionList) : Prop := {
  answer_inv : al_inv l';
  answer_marked : marked_sat l';
  answer_same : same_solutions l l';
  answer_unsat : kind_ r = UNSAT -> forall e, ~ Forall (Holds e) (extra :: al_values l);
  answer_sat : kind_ r = SAT -> exists e, Forall (Holds e) (extra :: al_values l)
}.
(** A SAT answer of [resolve] has a model. *)
Definition has_model (l : AssertionList) (extra : Operation) (r : SolverResult) : Prop :=
  kind_ r = SAT -> exists m e, model_ r = Some m /\ agrees m e /\ Forall (Holds e) (extra :: al_values l).

Class SolverSpec (s : Solver) : Prop := {
  check_ok : forall l extra, query_ok l extra ->
    exists r l', solver_check s l extra = Ok (r, l') /\ answers l extra r l';
  resolve_ok : forall l extra, query_ok l extra ->
    exists r l', solver_resolve s l extra = Ok (r, l') /\ answers l extra r l' /\ has_model l extra r
}.

(** What [transform] promises to [TransformSolver]: it never answers SAT, only
    answers UNSAT if there is no solution, and keeps the solutions without
    looking at [extra]. *)
Class TransformSpec (transform : Transform) : Prop :=
  transform_ok : forall l extra, query_ok l extra ->
    exists k l', transform l extra = Ok (k, l') /\ al_inv l' /\ marked_sat l' /\ same_solutions l l' /\
      k <> SAT /\ (k = UNSAT -> forall e, ~ Forall (Holds e) (extra :: al_values l)).

(** An adapter keeps the contract. *)
Definition adapter_ok (f : Solver -> Solver) : Prop := forall s, SolverSpec s -> SolverSpec (f s).

#[export] Instance same_solutions_equivalence : Equivalence same_solutions.
Proof.
  split.
  - intros l e. done.
  - intros l l' Hl e. by rewrite (Hl e).
  - intros l1 l2 l3 H12 H23 e. by rewrite (H12 e).
Qed.

(** ** Answers *)
Lemma constant_false_fails e a :
  wf a -> op_type a = ity 1 -> is_constant_value a false = true -> ~ Holds e a.
Proof.
  intros Hwf Ht Hc Hh. unfold is_constant_value in Hc. destruct (as_ConstantInt a) as [i|] eqn:Ea; [|done].
  apply as_ConstantInt_inv in Ea as (_ & _ & _ & _ & Di); [|done]. rewrite ap_eq_u64_spec in Hc.
  apply Z.eqb_eq in Hc. unfold Holds in Hh. rewrite Di in Hh. apply (inj Some) in Hh. injection Hh as ->.
  by rewrite APInt_of_value in Hc by lia.
Qed.

Lemma answers_unknown l extra : query_ok l extra -> answers l extra (mkResult Unknown None) l.
Proof. intros [Hi He Hm]. by split. Qed.

Lemma answers_unsat l extra :
  query_ok l extra -> (forall e, ~ Forall (Holds e) (extra :: al_values l)) ->
  answers l extra (mkResult UNSAT None) l.
Proof. intros [Hi He Hm] Hu. by split. Qed.

(** The answer for a list with the same solutions is an answer for the list. *)
Lemma answers_same l1 l extra r l' :
  same_solutions l1 l -> answers l extra r l' -> answers l1 extra r l'.
Proof.
  intros Hs [Hi Hm Hs' Hu Hsat]. split; try done; [by etrans|..].
  - intros Hk e. rewrite Forall_cons, (Hs e), <- Forall_cons. auto.
  - intros Hk. destruct (Hsat Hk) as (e & He). exists e. rewrite Forall_cons in He |- *. by rewrite (Hs e).
Qed.

Lemma has_model_same l1 l extra r : same_solutions l1 l -> has_model l extra r -> has_model l1 extra r.
Proof.
  intros Hs Hm Hk. destruct (Hm Hk) as (m & e & Em & Ha & He). exists m, e. split_and!; try done.
  rewrite Forall_cons in He |- *. by rewrite (Hs e).
Qed.

(** A constant-false assertion has no solution. *)
Lemma extra_false_unsat l extra :
  query_ok l extra -> is_constant_value extra false = true ->
  forall e, ~ Forall (Holds e) (extra :: al_values l).
Proof.
  intros [_ [Hw Ht] _] Hc e He. rewrite Forall_cons in He. destruct He as [He _].
  by apply (constant_false_fails e extra).
Qed.

(** ** The adapters *)
Lemma EarlyExit_spec : adapter_ok EarlyExitSolver.
Proof.
  intros s Hs. split; intros l extra Hq; cbn [solver_check solver_resolve EarlyExitSolver].
  - unfold EarlyExit_check. destruct (is_constant_value extra false) eqn:Hf.
    { eexists _, _. split; [done|]. apply answers_unsat; [done|]. by apply extra_false_unsat. }
    pose proof Hq as [Hi [Hw Ht] (ps & e & Ep & He)].
    destruct (proven_unproven l Hi) as (ps' & us & Ep' & -> & Hv & _). rewrite ok_bind.
    rewrite Ep in Ep'. injection Ep' as <-. case_bool_decide as Hus; [|by apply check_ok].
    destruct (is_constant_value extra true) eqn:Htr; [|by apply check_ok].
    eexists _, _. split; [done|]. subst us. rewrite app_nil_r in Hv. split; try done; [by exists ps, e|].
    intros _. exists e. rewrite Hv. constructor; [|done]. by apply constant_true_holds.
  - unfold EarlyExit_resolve. destruct (is_constant_value extra false) eqn:Hf; [|by apply resolve_ok].
    eexists _, _. split; [done|]. split; [|done]. apply answers_unsat; [done|]. by apply extra_false_unsat.
Qed.

Lemma Interrupt_spec stop : adapter_ok (InterruptSolver stop).
Proof.
  intros s Hs. split; intros l extra Hq; cbn [solver_check solver_resolve InterruptSolver];
    (destruct stop; [|first [by apply check_ok|by apply resolve_ok]]);
    (eexists _, _; split; [done|]); [|split; [|done]]; by apply answers_unknown.
Qed.

Lemma Logging_spec : adapter_ok LoggingSolver.
Proof.
  intros s Hs. split; intros l extra Hq; cbn [solver_check solver_resolve LoggingSolver].
  - destruct (check_ok l extra Hq) as (r & l' & -> & Ha). by exists r, l'.
  - destruct (resolve_ok l extra Hq) as (r & l' & -> & Ha). by exists r, l'.
Qed.

Lemma Transform_spec transform : TransformSpec transform -> adapter_ok (TransformSolver transform).
Proof.
  intros Ht s Hs. split; intros l extra Hq; cbn [solver_check solver_resolve TransformSolver];
    unfold transformed; destruct (transform_ok l extra Hq) as (k & l' & -> & Hi & Hm & Hl & Hk & Hu);
    rewrite ok_bind; assert (query_ok l' extra) as Hq' by (by destruct Hq).
  - destruct k; [|done|].
    + eexists _, _. split; [done|]. by split.
    + destruct (check_ok l' extra Hq') as (r & l2 & E & Ha). exists r, l2. split; [done|]. by apply (answers_same l l').
  - destruct k; [|done|].
    + eexists _, _. split; [done|]. split; [by split|done].
    + destruct (resolve_ok l' extra Hq') as (r & l2 & E & Ha & Hmod). exists r, l2. split; [done|].
      split; [by apply (answers_same l l')|by apply (has_model_same l l')].
Qed.

Lemma all_assertions_vals l : all_assertions l = al_values l.
Proof.
  unfold all_assertions, al_values. destruct (it_begin_ok (list_ l)) as (Hok & Hle & <-).
  apply it_range_end; [done|done|lia].
Qed.

(** A constant is its own fold. *)
Lemma ConstantInt_Create_cint a :
  good_width (getBitWidth a) -> ConstantInt_Create simplify a = Ok (cint a).
Proof.
  intros Hw. unfold ConstantInt_Create, ConstantIntData, type_of_apint. rewrite int_ty_good, !ok_bind by done.
  unfold build. change (Operation_ctor (mkData OpConstantInt (ity (getBitWidth a)) (PInt a)) []) with (Ok (cint a)).
  rewrite ok_bind. unfold simplify. rewrite Nat.add_succ_r.
  cbn [constant_fold]. unfold visit. destruct IMPLICIT_CONSTANT_FOLDING; done.
Qed.

Lemma false_boolean : boolean (cint (APInt_of 1 0)) /\ forall e, denote e (cint (APInt_of 1 0)) = Some (den_bool false).
Proof.
  assert (getBitWidth (APInt_of 1 0) = 1) as Hw by (by rewrite APInt_of_width).
  split; [|done]. split; [apply cint_wf; by rewrite Hw|]. change (ity (getBitWidth (APInt_of 1 0)) = ity 1).
  by rewrite Hw.
Qed.

(** Nothing is proven in a list whose mark is zero. *)
Lemma marked_zero l (e : Env) : al_inv l -> mark_ l = 0 -> marked_sat l.
Proof.
  intros Hi Hm. destruct (proven_unproven l Hi) as (ps & us & Ep & _ & Hv & Hus). rewrite Hm in Hus.
  change (us = al_values l) in Hus. rewrite Hus in Hv. apply (app_inv_tail _ []) in Hv. subst ps.
  exists [], e. split; [done|constructor].
Qed.

(** A list that contains false has no solution; its canonical form is [false]. *)
#[export] Instance Canonicalizing_spec : TransformSpec Canonicalizing_transform.
Proof.
  intros l extra [Hi He Hm]. unfold Canonicalizing_transform, canonicalize. rewrite all_assertions_vals.
  destruct (existsb _ _) eqn:Hex; [|by exists Unknown, l].
  apply existsb_exists in Hex as (a & Ha & Hc). apply list_elem_of_In in Ha.
  pose proof (al_wf l Hi) as Hw. rewrite Forall_forall in Hw. destruct (Hw a Ha) as [Wa Ta].
  unfold ConstantInt_Create_bool. rewrite ConstantInt_Create_cint by (by rewrite APInt_of_width by lia).
  cbn [Z.b2z]. destruct false_boolean as [Hb Hd]. rewrite ok_bind. unfold Assertion_ctor.
  rewrite int_ty_good, ok_bind, (proj2 Hb), ty_eqb_refl by done. cbn [assert_]. rewrite !ok_bind.
  destruct (al_insert_ok (al_clear l) (cint (APInt_of 1 0))) as (l' & -> & Hi' & Hm' & _ & Hh).
  - split; [apply sv_empty_inv|done|done|constructor].
  - done.
  - vm_compute. done.
  - rewrite ok_bind. exists Unknown, l'. split_and!; try done.
    + destruct Hm as (? & e & _). by apply (marked_zero l' e).
    + intros e. rewrite (Hh e), Forall_singleton by (constructor; [unfold Defined; by rewrite Hd|done]).
      unfold Holds. rewrite Hd. split.
      * intros Hl. rewrite Forall_forall in Hl. by destruct (constant_false_fails e a Wa Ta Hc (Hl a Ha)).
      * intros [_ E]. apply (inj Some) in E. by apply den_bool_inj in E.
Qed.

(** ** The stack *)
Inductive Layer : Set := LEarlyExit | LCanonicalizing | LInterrupt (stop : bool) | LLogging.
Definition layer (a : Layer) : Solver -> Solver :=
  match a with
  | LEarlyExit => EarlyExitSolver
  | LCanonicalizing => CanonicalizingSolver
  | LInterrupt stop => InterruptSolver stop
  | LLogging => LoggingSolver
  end.

Lemma layer_spec a : adapter_ok (layer a).
Proof.
  destruct a; [apply EarlyExit_spec|apply Transform_spec, Canonicalizing_spec|apply Interrupt_spec|apply Logging_spec].
Qed.

Lemma build_ok s (fs : list (Solver -> Solver)) :
  SolverSpec s -> Forall adapter_ok fs -> SolverSpec (foldl (fun solver func => func solver) s fs).
Proof. intros Hs Hf. revert s Hs. induction Hf as [|f fs Hf _ IHf]; intros s Hs; cbn [foldl]; auto. Qed.

(** C25: Every stack of adapters that the builder assembles from the early-exit,
    canonicalizing, interrupt and logging solvers on top of a solver that meets
    the contract of [Solver] meets it too: each call returns, a SAT or UNSAT
    answer is right for the list it was asked about and the extra assertion,
    [resolve] has a model whenever it answers SAT, and the list it leaves
    behind has the same solutions, whatever the extra assertion was. *)
Theorem solver_stack_correct s (layers : list Layer) :
  SolverSpec s -> SolverSpec (build_solver (foldl with_ (SolverBuilder_ctor s) (layer <$> layers))).
Proof.
  intros Hs. assert (forall b fs, foldl with_ b fs = mkBuilder (base b) (stack b ++ fs)) as Hw.
  { intros b fs. revert b. induction fs as [|f fs IHf]; intros b; cbn [foldl].
    - rewrite app_nil_r. by destruct b.
    - rewrite IHf. cbn. by rewrite <- app_assoc. }
  rewrite Hw. unfold build_solver. cbn [base stack SolverBuilder_ctor app]. apply build_ok; [done|].
  rewrite Forall_forall. intros f Hf. rewrite list_elem_of_In, <- in_rev, <- list_elem_of_In in Hf. apply list_elem_of_fmap in Hf as (a & -> & _).
  apply layer_spec.
Qed.

(** The early exits need no solver: a constant-false assertion is answered
    UNSAT, and a constant-true one SAT when everything is already proven, for
    any inner solver whatsoever, and these answers are right. *)
Theorem early_exit_answers s l extra :
  query_ok l extra ->
  (is_constant_value extra false = true ->
   solver_check (EarlyExitSolver s) l extra = Ok (mkResult UNSAT None, l) /\
   solver_resolve (EarlyExitSolver s) l extra = Ok (mkResult UNSAT None, l) /\
   forall e, ~ Forall (Holds e) (extra :: al_values l)) /\
  (is_constant_value extra true = true -> unproven l = Ok [] ->
   solver_check (EarlyExitSolver s) l extra = Ok (mkResult SAT None, l) /\
   exists e, Forall (Holds e) (extra :: al_values l)).
Proof.
  intros Hq. split.
  - intros Hf. cbn [solver_check solver_resolve EarlyExitSolver]. unfold EarlyExit_check, EarlyExit_resolve.
    rewrite Hf. split_and!; [done|done|]. by apply extra_false_unsat.
  - intros Ht Eu. destruct Hq as [Hi [Hw Hty] (ps & e & Ep & He)].
    assert (is_constant_value extra false = false) as Hf.
    { destruct (is_constant_value extra false) eqn:Hf; [|done].
      by destruct (constant_false_fails e extra Hw Hty Hf (constant_true_holds e extra Hw Hty Ht)). }
    cbn [solver_check EarlyExitSolver]. unfold EarlyExit_check. rewrite Hf, Eu, ok_bind, Ht. split; [done|].
    destruct (proven_unproven l Hi) as (ps' & us & Ep' & Eu' & Hv & _). rewrite Ep in Ep'. injection Ep' as <-.
    rewrite Eu in Eu'. injection Eu' as <-. rewrite app_nil_r in Hv. exists e. rewrite Hv.
    constructor; [by apply constant_true_holds|done].
Qed.

(** The solver added last is the innermost: [with] inserts its adapter
    directly above the base solver, below every adapter added before. *)
Theorem builder_with_innermost b f :
  build_solver (with_ b f) = build_solver (mkBuilder (f (base b)) (stack b)).
Proof. unfold build_solver, with_. cbn [base stack]. by rewrite rev_app_distr. Qed.
End solvers.

Module solvers_witness.
Import slicer_witness.
#[local] Instance on : Config := {| IMPLICIT_CONSTANT_FOLDING := true |}.

(** A solver that tries one environment. *)
Definition probe (e : Env) : Solver := mkSolver
  (fun l extra => Ok (mkResult (if decide (Forall (fun a => denote e a = Some (den_bool true)) (extra :: al_values l))
                                then SAT else Unknown) None, l))
  (fun l _ => Ok (mkResult Unknown None, l)).
Lemma probe_spec e : SolverSpec (probe e).
Proof.
  split; intros l extra [Hi He Hm]; cbn [probe solver_check solver_resolve]; eexists _, _; split; try done.
  case_decide as Hd; split; try done. intros _. by exists e.
Qed.

Lemma solver_stack_correct_witness :
  SolverSpec (build_solver (foldl with_ (SolverBuilder_ctor (probe (const_env false)))
    (layer <$> [LEarlyExit; LCanonicalizing; LLogging]))).
Proof. apply (solver_stack_correct (probe (const_env false)) [LEarlyExit; LCanonicalizing; LLogging]), probe_spec. Defined.

Definition true1 : Operation := cint (APInt_of 1 1).
Lemma xy_z_marked : marked_sat xy_z.
Proof. exists [x_eq_y; z1], (const_env true). split; [apply xy_z_parts|]. unfold Holds. vm_decide. Qed.
Lemma xy_z_query : query_ok xy_z true1.
Proof.
  split; [apply xy_z_inv| |apply xy_z_marked]. split; [|vm_decide]. apply cint_wf. vm_decide.
Qed.
Lemma early_exit_answers_witness :
  solver_check (EarlyExitSolver (probe (const_env false))) xy_z true1 = Ok (mkResult SAT None, xy_z) /\
  exists e, Forall (Holds e) (true1 :: al_values xy_z).
Proof.
  apply (early_exit_answers (probe (const_env false)) xy_z true1 xy_z_query); [vm_decide|apply xy_z_parts].
Defined.
End solvers_witness.
