(* ===== verification/SlotMap.v ===== *)
(** [caffeine::slot_map] (include/caffeine/ADT/SlotMap.h): a container that
    hands out a key for every value it takes.

    A key is an index and a generation.  Removing a value advances the
    generation of its slot, so that the key is not valid for a value stored
    there later.  [assert] is a check; [std::deque::at] and a missing key
    throw. *)
From S2P Require Import Prelude.
Open Scope Z_scope.

(** An entry holds a value or the index of the next free entry. *)
Inductive slot (T : Type) : Type := Occupied (x : T) | Free (next : Z).
Arguments Occupied {_} _.
Arguments Free {_} _.

Record entry (T : Type) : Type := mkEntry { entry_slot : slot T; entry_gen : Z }.
Arguments mkEntry {_} _ _.
Arguments entry_slot {_} _.
Arguments entry_gen {_} _.

Record slot_map (T : Type) : Type := mkSlotMap { entries_ : list (entry T); head : Z }.
Arguments mkSlotMap {_} _ _.
Arguments entries_ {_} _.
Arguments head {_} _.

Definition key_type : Type := Z * Z.
Definition no_head : Z := SIZE_MAX.

Section slotmap.
Context {T : Type}.
Implicit Types m : slot_map T.

Definition sm_empty : slot_map T := mkSlotMap [] no_head.
Definition sm_clear m : slot_map T := sm_empty.
Definition sm_size m : Z := Z.of_nat (length (entries_ m)).

Definition has_value (e : entry T) : bool :=
  match entry_slot e with Occupied _ => true | Free _ => false end.

(** The value of a key that is live. *)
Definition live_value (e : entry T) (gen : Z) : option T :=
  match entry_slot e with
  | Occupied x => if entry_gen e =? gen then Some x else None
  | Free _ => None
  end.

Definition sm_at m (key : key_type) : result T :=
  e ← of_option Thrown (entries_ m !! Z.to_nat key.1);
  of_option Thrown (live_value e key.2).

(** [entry_inner::emplace] and [entry_inner::remove]; the generation has 63
    bits. *)
Definition entry_emplace (e : entry T) (x : T) : entry T := mkEntry (Occupied x) (entry_gen e).
Definition entry_remove (e : entry T) (next : Z) : entry T := mkEntry (Free next) (wrap 63 (entry_gen e + 1)).

Definition next_slot m : result (Z * slot_map T) :=
  if head m =? no_head
  then Ok (sm_size m, mkSlotMap (entries_ m ++ [mkEntry (Free no_head) 0]) (head m))
  else e ← of_option UndefinedBehaviour (entries_ m !! Z.to_nat (head m));
       match entry_slot e with
       | Occupied _ => Err AssertFailed
       | Free next => Ok (head m, mkSlotMap (entries_ m) next)
       end.

Definition sm_insert m (x : T) : result (key_type * slot_map T) :=
  '(index, m) ← next_slot m;
  e ← of_option UndefinedBehaviour (entries_ m !! Z.to_nat index);
  Ok ((index, entry_gen e), mkSlotMap (<[Z.to_nat index := entry_emplace e x]> (entries_ m)) (head m)).

(** The bound is tested with [>], so an index equal to the number of entries is
    read past the end. *)
Definition sm_remove m (key : key_type) : result (option T * slot_map T) :=
  if sm_size m <? key.1 then Ok (None, m)
  else
    e ← of_option UndefinedBehaviour (entries_ m !! Z.to_nat key.1);
    match live_value e key.2 with
    | None => Ok (None, m)
    | Some x => Ok (Some x, mkSlotMap (<[Z.to_nat key.1 := entry_remove e (head m)]> (entries_ m)) key.1)
    end.

(** [find(key) != end()]. *)
Definition sm_contains m (key : key_type) : result bool :=
  if sm_size m <? key.1 then Ok false
  else e ← of_option UndefinedBehaviour (entries_ m !! Z.to_nat key.1);
       Ok (bool_decide (is_Some (live_value e key.2))).

(** *** Iteration *)
Fixpoint live_entries (es : list (entry T)) (i : Z) : list (key_type * T) :=
  match es with
  | [] => []
  | e :: es =>
      match entry_slot e with
      | Occupied x => ((i, entry_gen e), x) :: live_entries es (i + 1)
      | Free _ => live_entries es (i + 1)
      end
  end.
Definition sm_items m : list (key_type * T) := live_entries (entries_ m) 0.
Definition sm_values m : list T := (sm_items m).*2.

(** ** Invariant *)
Fixpoint free_list (es : list (entry T)) (h : Z) (l : list nat) : Prop :=
  match l with
  | [] => h = no_head
  | i :: l => h = Z.of_nat i /\ exists e next, es !! i = Some e /\ entry_slot e = Free next /\ free_list es next l
  end.

Record sm_inv m : Prop := {
  sm_free : exists l, free_list (entries_ m) (head m) l /\ NoDup l;
  sm_bound : sm_size m < no_head;
  sm_gens : Forall (fun e => 0 <= entry_gen e < 2 ^ 63) (entries_ m)
}.

(** The contents: the values by live key. *)
Definition sm_lookup m (key : key_type) : option T :=
  if 0 <=? key.1 then e ← entries_ m !! Z.to_nat key.1; live_value e key.2 else None.
Definition sm_gen m (i : Z) : Z := default 0 (entry_gen <$> entries_ m !! Z.to_nat i).

Lemma free_list_app es e h l : free_list es h l -> free_list (es ++ [e]) h l.
Proof.
  revert h. induction l as [|i l IHl]; intros h; [done|]. intros (Hh & x & next & Hi & Hs & Hl).
  split; [done|]. exists x, next. split_and!; [by apply lookup_app_l_Some|done|auto].
Qed.

Lemma free_list_insert es i e h l : i ∉ l -> free_list es h l -> free_list (<[i := e]> es) h l.
Proof.
  revert h. induction l as [|j l IHl]; intros h Hi; [done|]. intros (Hh & x & next & Hj & Hs & Hl).
  apply not_elem_of_cons in Hi as [Hne Hi]. split; [done|]. exists x, next.
  split_and!; [by rewrite list_lookup_insert_ne|done|auto].
Qed.

Lemma free_list_free es h l i : free_list es h l -> i ∈ l -> exists e next, es !! i = Some e /\ entry_slot e = Free next.
Proof.
  revert h. induction l as [|j l IHl]; intros h; [by intros _ ?%elem_of_nil|].
  intros (Hh & x & next & Hj & Hs & Hl) [->|Hi]%elem_of_cons; eauto.
Qed.

Lemma live_value_Some e g x : live_value e g = Some x <-> entry_slot e = Occupied x /\ entry_gen e = g.
Proof.
  unfold live_value. destruct (entry_slot e); [|by split; [|intros []]].
  destruct (Z.eqb_spec (entry_gen e) g); naive_solver.
Qed.

(** What changing the entry of one index does. *)
Lemma sm_lookup_insert m i e h k :
  0 <= k.1 -> (i < length (entries_ m))%nat ->
  sm_lookup (mkSlotMap (<[i := e]> (entries_ m)) h) k =
    if decide (k.1 = Z.of_nat i) then live_value e k.2 else sm_lookup m k.
Proof.
  intros Hk Hi. unfold sm_lookup. rewrite (proj2 (Z.leb_le 0 k.1)) by done. cbn [entries_].
  case_decide as E.
  - rewrite E, Nat2Z.id, list_lookup_insert_eq by done. done.
  - rewrite list_lookup_insert_ne by lia. done.
Qed.

Lemma gens_insert es i e :
  Forall (fun e : entry T => 0 <= entry_gen e < 2 ^ 63) es -> 0 <= entry_gen e < 2 ^ 63 ->
  Forall (fun e => 0 <= entry_gen e < 2 ^ 63) (<[i := e]> es).
Proof. intros Hes He. by apply Forall_insert. Qed.

(** The slot the next value goes to is free. *)
Lemma next_slot_ok m :
  sm_inv m -> sm_size m + 1 < no_head ->
  exists i m1 e l, next_slot m = Ok (Z.of_nat i, m1) /\ entries_ m1 !! i = Some e /\
    has_value e = false /\ entry_gen e = sm_gen m (Z.of_nat i) /\
    free_list (entries_ m1) (head m1) l /\ NoDup l /\ (i ∉ l) /\ sm_size m1 <= sm_size m + 1 /\
    Forall (fun e => 0 <= entry_gen e < 2 ^ 63) (entries_ m1) /\
    (forall k, 0 <= k.1 -> sm_lookup m1 k = sm_lookup m k) /\ (forall j, 0 <= j -> sm_gen m1 j = sm_gen m j).
Proof.
  intros [(l & Hl & Hnd) Hb Hg] Hroom. unfold next_slot, sm_size in *. destruct (Z.eqb_spec (head m) no_head) as [Hh|Hh].
  - assert (l = []) as ->.
    { destruct l as [|i l]; [done|]. destruct Hl as (Ei & e & next & Hi & _). apply lookup_lt_Some in Hi. lia. }
    eexists (length (entries_ m)), _, _, []. split_and!; [done|cbn; by rewrite lookup_app_r, Nat.sub_diag by done|done| | | | | | | |].
    + cbn. unfold sm_gen. rewrite Nat2Z.id, lookup_ge_None_2 by done. done.
    + done.
    + constructor.
    + apply not_elem_of_nil.
    + cbn. rewrite length_app. cbn. lia.
    + cbn. apply Forall_app. split; [done|]. constructor; [|done]. cbn. lia.
    + intros k Hk. unfold sm_lookup. rewrite (proj2 (Z.leb_le 0 k.1)) by done. cbn [entries_].
      destruct (decide (Z.to_nat k.1 < length (entries_ m))%nat); [by rewrite lookup_app_l|].
      rewrite (lookup_ge_None_2 (entries_ m)), lookup_app_r by lia.
      destruct (Z.to_nat k.1 - length (entries_ m))%nat as [|[|]]; done.
    + intros j Hj. unfold sm_gen. cbn [entries_].
      destruct (decide (Z.to_nat j < length (entries_ m))%nat); [by rewrite lookup_app_l|].
      rewrite (lookup_ge_None_2 (entries_ m)), lookup_app_r by lia.
      destruct (Z.to_nat j - length (entries_ m))%nat as [|[|]]; done.
  - destruct l as [|i l]; [done|]. destruct Hl as (Ei & e & next & Hi & Hs & Hl). rewrite Ei, Nat2Z.id, Hi.
    cbn [of_option]. rewrite ok_bind, Hs. apply NoDup_cons in Hnd as [Hil Hnd].
    exists i, (mkSlotMap (entries_ m) next), e, l. unfold has_value. rewrite Hs.
    split_and!; try done; [|cbn; lia]. unfold sm_gen. by rewrite Nat2Z.id, Hi.
Qed.

Lemma sm_insert_ok m x :
  sm_inv m -> sm_size m + 1 < no_head ->
  exists k m', sm_insert m x = Ok (k, m') /\ sm_inv m' /\ 0 <= k.1 /\ sm_lookup m k = None /\
    (forall k', 0 <= k'.1 -> sm_lookup m' k' = if decide (k' = k) then Some x else sm_lookup m k') /\
    sm_size m' <= sm_size m + 1 /\ forall j, 0 <= j -> sm_gen m' j = sm_gen m j.
Proof.
  intros Hi Hroom. destruct (next_slot_ok m Hi Hroom) as (i & m1 & e & l & E & He & Hv & Hge & Hl & Hnd & Hil & Hsz & Hg & Hlk & Hgn).
  unfold sm_insert. rewrite E, ok_bind, Nat2Z.id, He. cbn [of_option]. rewrite ok_bind.
  eexists _, _. pose proof (lookup_lt_Some _ _ _ He) as Hlt.
  assert (forall g, live_value e g = None) as Hnone.
  { intros g. unfold live_value, has_value in *. by destruct (entry_slot e). }
  assert (forall k : key_type, k.1 = Z.of_nat i -> sm_lookup m1 k = None) as Hdead.
  { intros k Hk. unfold sm_lookup. rewrite Hk, Nat2Z.id, He, (proj2 (Z.leb_le _ _)) by lia. apply Hnone. }
  split_and!; [done| |cbn; lia| | | |].
  - split.
    + exists l. split; [|done]. by apply free_list_insert.
    + unfold sm_size in *. cbn. rewrite length_insert. lia.
    + cbn. apply gens_insert; [done|]. cbn. rewrite Forall_forall in Hg. apply Hg. by eapply list_elem_of_lookup_2.
  - rewrite <- Hlk by (cbn; lia). by apply Hdead.
  - intros k' Hk'. rewrite sm_lookup_insert by done. case_decide as E1.
    + destruct (decide (k' = (Z.of_nat i, entry_gen e))) as [->|Hne]; [by apply live_value_Some|].
      rewrite <- Hlk, Hdead by done.
      unfold live_value, entry_emplace. cbn. destruct (Z.eqb_spec (entry_gen e) k'.2); [|done].
      destruct k'. cbn in *. congruence.
    + rewrite decide_False by (intros ->; done). by apply Hlk.
  - unfold sm_size in *. cbn. rewrite length_insert. lia.
  - intros j Hj. rewrite <- Hgn by done. unfold sm_gen. cbn [entries_].
    destruct (decide (Z.to_nat j = i)) as [<-|Hne]; [by rewrite list_lookup_insert_eq, He|by rewrite list_lookup_insert_ne].
Qed.

Lemma sm_remove_ok m k x :
  sm_inv m -> 0 <= k.1 -> sm_lookup m k = Some x ->
  exists m', sm_remove m k = Ok (Some x, m') /\ sm_inv m' /\
    (forall k', 0 <= k'.1 -> sm_lookup m' k' = if decide (k' = k) then None else sm_lookup m k') /\
    sm_size m' = sm_size m /\
    forall j, 0 <= j -> sm_gen m' j = if decide (j = k.1) then wrap 63 (k.2 + 1) else sm_gen m j.
Proof.
  intros [(l & Hl & Hnd) Hb Hg] Hk Hx. unfold sm_remove. unfold sm_lookup in Hx. rewrite (proj2 (Z.leb_le 0 k.1)) in Hx by done.
  destruct (entries_ m !! Z.to_nat k.1) as [e|] eqn:He; [|done]. cbn in Hx.
  pose proof (lookup_lt_Some _ _ _ He) as Hlt. pose proof Hx as Hx'. apply live_value_Some in Hx' as [Hs Hgen].
  unfold sm_size in *. rewrite (proj2 (Z.ltb_ge _ _)) by lia. cbn [of_option]. rewrite ok_bind, Hx. eexists. split_and!; [done| | |cbn; by rewrite length_insert|].
  - split.
    + exists (Z.to_nat k.1 :: l). assert (Z.to_nat k.1 ∉ l) as Hn.
      { intros Hin. destruct (free_list_free _ _ _ _ Hl Hin) as (e' & next & He' & Hs'). rewrite He in He'.
        injection He' as <-. congruence. }
      split; [|by constructor]. cbn. split; [lia|]. eexists _, _. rewrite list_lookup_insert_eq by done.
      split_and!; [done|done|]. by apply free_list_insert.
    + unfold sm_size. cbn. by rewrite length_insert.
    + cbn. apply gens_insert; [done|]. cbn. by apply wrap_range.
  - intros k' Hk'. rewrite sm_lookup_insert by done. case_decide as E1.
    + cbn. destruct (decide (k' = k)) as [->|Hne]; [done|].
      unfold sm_lookup. rewrite (proj2 (Z.leb_le 0 k'.1)), E1, Nat2Z.id, He by done. cbn.
      unfold live_value. rewrite Hs. destruct (Z.eqb_spec (entry_gen e) k'.2); [|done].
      destruct k, k'. cbn in *. rewrite Z2Nat.id in E1 by lia. congruence.
    + rewrite decide_False by (intros ->; lia). done.
  - intros j Hj. unfold sm_gen. cbn [entries_]. case_decide as E.
    + subst j. rewrite list_lookup_insert_eq by done. cbn. by rewrite Hgen.
    + rewrite list_lookup_insert_ne by lia. done.
Qed.

Lemma sm_empty_inv : sm_inv sm_empty.
Proof. split; [exists []; split; [done|constructor]|done|constructor]. Qed.

Lemma sm_remove_dead m k :
  0 <= k.1 -> k.1 <> sm_size m -> sm_lookup m k = None -> sm_remove m k = Ok (None, m).
Proof.
  intros Hk Hne Hx. unfold sm_remove. destruct (Z.ltb_spec (sm_size m) k.1); [done|].
  unfold sm_lookup, sm_size in *. rewrite (proj2 (Z.leb_le 0 k.1)) in Hx by done.
  destruct (lookup_lt_is_Some_2 (entries_ m) (Z.to_nat k.1)) as (e & He); [lia|].
  rewrite He in Hx |- *. cbn in Hx. cbn [of_option]. by rewrite ok_bind, Hx.
Qed.

Lemma live_entries_spec es i k x :
  (k, x) ∈ live_entries es i <->
  exists j e, es !! j = Some e /\ k.1 = i + Z.of_nat j /\ live_value e k.2 = Some x.
Proof.
  revert i. induction es as [|e es IHe]; intros i; cbn [live_entries].
  { split; [by intros ?%elem_of_nil|by intros (? & ? & ? & _)]. }
  assert ((exists j e', (e :: es) !! j = Some e' /\ k.1 = i + Z.of_nat j /\ live_value e' k.2 = Some x) <->
    (k.1 = i /\ live_value e k.2 = Some x) \/ (k, x) ∈ live_entries es (i + 1)) as ->.
  { rewrite IHe. split.
    - intros ([|j] & e' & Hj & Hk & Hv); cbn in Hj; [left; simplify_eq; split; [lia|done]|].
      right. exists j, e'. split_and!; [done|lia|done].
    - intros [[Hk Hv]|(j & e' & Hj & Hk & Hv)]; [exists 0%nat, e; split_and!; [done|lia|done]|].
      exists (S j), e'. split_and!; [done|lia|done]. }
  destruct (entry_slot e) as [y|next] eqn:Hs.
  - rewrite elem_of_cons, live_value_Some, Hs. destruct k as [ki kg]. cbn. split; [intros [[= -> -> ->]|?]|intros [(-> & [= ->] & ->)|?]]; auto.
  - rewrite live_value_Some, Hs. naive_solver.
Qed.

Lemma sm_items_spec m k x : (k, x) ∈ sm_items m <-> 0 <= k.1 /\ sm_lookup m k = Some x.
Proof.
  unfold sm_items. rewrite live_entries_spec. unfold sm_lookup. split.
  - intros (j & e & Hj & Hk & Hv). rewrite (proj2 (Z.leb_le 0 k.1)) by lia. split; [lia|].
    rewrite Hk, Z.add_0_l, Nat2Z.id, Hj. done.
  - intros [Hk Hx]. rewrite (proj2 (Z.leb_le 0 k.1)) in Hx by done.
    destruct (entries_ m !! Z.to_nat k.1) as [e|] eqn:He; [|done]. exists (Z.to_nat k.1), e. split_and!; [done|lia|done].
Qed.

(** Any sequence of insertions and removals. *)
Inductive sm_steps : nat -> slot_map T -> slot_map T -> Prop :=
| steps_none m : sm_steps 0 m m
| steps_insert n m m1 m2 k x :
    sm_size m + 1 < no_head -> sm_insert m x = Ok (k, m1) -> sm_steps n m1 m2 -> sm_steps (S n) m m2
| steps_remove n m m1 m2 k x :
    0 <= k.1 -> sm_lookup m k = Some x -> sm_remove m k = Ok (Some x, m1) -> sm_steps n m1 m2 -> sm_steps (S n) m m2.

(** A key whose slot has moved on to a later generation is dead. *)
Lemma old_key_dead m k : 0 <= k.1 -> sm_gen m k.1 <> k.2 -> sm_lookup m k = None.
Proof.
  intros Hk Hg. unfold sm_lookup. rewrite (proj2 (Z.leb_le 0 k.1)) by done. unfold sm_gen in Hg.
  destruct (entries_ m !! Z.to_nat k.1) as [e|]; [|done]. cbn in *. unfold live_value.
  destruct (entry_slot e); [|done]. by destruct (Z.eqb_spec (entry_gen e) k.2).
Qed.

Lemma steps_gen n m m' i g :
  sm_steps n m m' -> sm_inv m -> 0 <= i -> 0 <= g < sm_gen m i -> sm_gen m i + Z.of_nat n < 2 ^ 63 ->
  0 <= g < sm_gen m' i.
Proof.
  induction 1 as [m|n m m1 m2 k x Hroom E Hs IHs|n m m1 m2 k x Hk Hx E Hs IHs]; intros Hi Hi0 Hg Hn; [done|..].
  - destruct (sm_insert_ok m x Hi Hroom) as (k' & m' & E' & Hi' & _ & _ & _ & _ & Hgen). rewrite E in E'.
    injection E' as <- <-. rewrite <- (Hgen i) in Hg, Hn by done. apply IHs; [done|done|done|lia].
  - destruct (sm_remove_ok m k x Hi Hk Hx) as (m' & E' & Hi' & _ & _ & Hgen). rewrite E in E'. injection E' as <-.
    apply IHs; [done|done|..]; rewrite (Hgen i) by done; case_decide as Ek; try lia.
    all: assert (sm_gen m i = k.2) as Hgk.
    1, 3: subst i; destruct (decide (sm_gen m k.1 = k.2)); [done|by rewrite old_key_dead in Hx by done].
    all: rewrite <- Hgk, wrap_small by lia; lia.
Qed.

(** ** The contracts *)

(** C34: A slot map implements a finite map from keys to values: insertion succeeds
    and binds a key that was not bound, leaving every other binding alone;
    removal of a bound key returns its value and unbinds exactly that key;
    [at] returns the bound value and throws for every other key in range. *)
Theorem slot_map_refines_map m x :
  sm_inv m -> sm_size m + 1 < no_head ->
  (exists k m', sm_insert m x = Ok (k, m') /\ sm_inv m' /\ sm_lookup m k = None /\ sm_at m' k = Ok x /\
     forall k', 0 <= k'.1 -> sm_lookup m' k' = if decide (k' = k) then Some x else sm_lookup m k') /\
  (forall k y, 0 <= k.1 -> sm_lookup m k = Some y ->
     sm_at m k = Ok y /\ sm_contains m k = Ok true /\
     exists m', sm_remove m k = Ok (Some y, m') /\ sm_inv m' /\ sm_at m' k = Err Thrown /\
       forall k', 0 <= k'.1 -> sm_lookup m' k' = if decide (k' = k) then None else sm_lookup m k') /\
  (forall k, 0 <= k.1 -> sm_lookup m k = None -> sm_at m k = Err Thrown /\
     (k.1 <> sm_size m -> sm_remove m k = Ok (None, m) /\ sm_contains m k = Ok false)).
Proof.
  intros Hi Hroom.
  assert (forall m k, 0 <= k.1 -> sm_at m k = of_option Thrown (sm_lookup m k)) as Hat.
  { intros m' k Hk. unfold sm_at, sm_lookup. rewrite (proj2 (Z.leb_le 0 k.1)) by done.
    by destruct (entries_ m' !! Z.to_nat k.1). }
  assert (forall k, 0 <= k.1 -> k.1 <> sm_size m -> sm_contains m k = Ok (bool_decide (is_Some (sm_lookup m k)))) as Hc.
  { intros k Hk Hne. unfold sm_contains, sm_lookup, sm_size in *. rewrite (proj2 (Z.leb_le 0 k.1)) by done.
    destruct (Z.ltb_spec (Z.of_nat (length (entries_ m))) k.1).
    - rewrite lookup_ge_None_2 by lia. done.
    - destruct (lookup_lt_is_Some_2 (entries_ m) (Z.to_nat k.1)) as (e & He); [lia|]. by rewrite He. }
  split_and!.
  - destruct (sm_insert_ok m x Hi Hroom) as (k & m' & E & Hi' & Hk & Hd & Hl & _ & _). exists k, m'. split_and!; try done.
    by rewrite Hat, Hl, decide_True by done.
  - intros k y Hk Hy. destruct (sm_remove_ok m k y Hi Hk Hy) as (m' & E & Hi' & Hl & _ & _).
    split_and!; [by rewrite Hat, Hy| |exists m'; split_and!; try done; by rewrite Hat, Hl, decide_True].
    rewrite Hc; [by rewrite Hy|done|]. intros Hs. unfold sm_lookup in Hy. rewrite (proj2 (Z.leb_le 0 k.1)), Hs in Hy by done.
    unfold sm_size in Hy. by rewrite Nat2Z.id, lookup_ge_None_2 in Hy.
  - intros k Hk Hn. split; [by rewrite Hat, Hn|]. intros Hne. split; [by apply sm_remove_dead|by rewrite Hc, Hn].
Qed.

(** A key that was removed never comes back to life: after any sequence of
    further insertions and removals (fewer than the 63-bit generation counter
    can count) the key is not bound. *)
Theorem removed_key_stays_dead m k x m1 n m2 :
  sm_inv m -> 0 <= k.1 -> sm_lookup m k = Some x -> sm_remove m k = Ok (Some x, m1) ->
  k.2 + 1 + Z.of_nat n < 2 ^ 63 -> sm_steps n m1 m2 -> sm_lookup m2 k = None.
Proof.
  intros Hi Hk Hx E Hn Hs. destruct (sm_remove_ok m k x Hi Hk Hx) as (m' & E' & Hi' & _ & _ & Hgen).
  rewrite E in E'. injection E' as <-. specialize (Hgen k.1 Hk). rewrite decide_True in Hgen by done.
  assert (0 <= k.2) as Hk2.
  { destruct Hi as [_ _ Hg]. unfold sm_lookup in Hx. rewrite (proj2 (Z.leb_le 0 k.1)) in Hx by done.
    destruct (entries_ m !! Z.to_nat k.1) as [e|] eqn:He; [|done]. cbn in Hx. apply live_value_Some in Hx as [_ <-].
    rewrite Forall_forall in Hg. apply (Hg e). by eapply list_elem_of_lookup_2. }
  rewrite wrap_small in Hgen by lia.
  assert (0 <= k.2 < sm_gen m2 k.1) as Hlt by (apply (steps_gen n m1); [done|done|done|lia|lia]).
  apply old_key_dead; [done|lia].
Qed.

(** Iteration visits exactly the live entries, each with its key. *)
Theorem slot_map_iteration m k x :
  (k, x) ∈ sm_items m <-> 0 <= k.1 /\ sm_lookup m k = Some x.
Proof. apply sm_items_spec. Qed.

(** [find] and [remove] do not reject an index equal to the number of entries:
    they read one entry past the end. *)
Theorem find_past_end m g :
  sm_contains m (sm_size m, g) = Err UndefinedBehaviour /\ sm_remove m (sm_size m, g) = Err UndefinedBehaviour.
Proof.
  unfold sm_contains, sm_remove. cbn [fst snd]. rewrite Z.ltb_irrefl. unfold sm_size.
  rewrite Nat2Z.id, lookup_ge_None_2 by done. done.
Qed.
End slotmap.

(** A map with two values, of which the first was removed once before. *)
Module slotmap_witness.
Definition m2 : slot_map Z := mkSlotMap [mkEntry (Occupied 7) 1; mkEntry (Occupied 8) 0] no_head.
Lemma m2_reached :
  ('(k0, m) ← sm_insert sm_empty 6; '(_, m) ← sm_insert m 8; '(_, m) ← sm_remove m k0; '(_, m) ← sm_insert m 7; Ok m)
    = Ok m2.
Proof. reflexivity. Qed.
Lemma m2_inv : sm_inv m2.
Proof. split; [exists []; split; [done|constructor]|done|]. repeat constructor; done. Qed.

Lemma slot_map_refines_map_witness :
  exists k m', sm_insert m2 9 = Ok (k, m') /\ sm_inv m' /\ sm_lookup m2 k = None /\ sm_at m' k = Ok 9 /\
    forall k', 0 <= k'.1 -> sm_lookup m' k' = if decide (k' = k) then Some 9 else sm_lookup m2 k'.
Proof. apply (slot_map_refines_map m2 9); [apply m2_inv|reflexivity]. Defined.

(** Remove (0, 1), store another value in its slot. *)
Lemma removed_key_stays_dead_witness :
  sm_lookup (mkSlotMap [mkEntry (Occupied 5) 2; mkEntry (Occupied 8) 0] no_head) (0, 1) = None.
Proof.
  apply (removed_key_stays_dead m2 (0, 1) 7
    (mkSlotMap [mkEntry (Free no_head) 2; mkEntry (Occupied 8) 0] 0) 1); try reflexivity.
  - apply m2_inv.
  - eapply (steps_insert 0 _ _ _ (0, 2) 5); [reflexivity|reflexivity|apply steps_none].
Defined.
End slotmap_witness.
