(* ===== verification/BumpAllocator.v ===== *)
(** The concrete allocator: [caffeine::BumpAllocator]
    (src/Memory/BumpAllocator.cpp).

    It hands out increasing addresses of an arena.  The set of live addresses
    is a list without duplicates. *)
From S2P Require Import Prelude LLVM.
Open Scope Z_scope.

Section bump.
Context `{APIntAPI}.

Record BumpAllocator : Type := mkBump {
  allocations : list APInt;
  current : APInt;
  bump_base : APInt;
  bump_size : APInt
}.

Definition BumpAllocator_ctor (base size : APInt) : BumpAllocator := mkBump [] base base size.

(** [align.clearAllBits(); align.setBit(3)] for small alignments. *)
Definition bump_align (align : APInt) : APInt :=
  if getLimitedValue align (2 ^ 64 - 1) <? 8 then APInt_of (getBitWidth align) (Z.setbit 0 3) else align.

Definition bump_allocate (b : BumpAllocator) (size_ align_ : APInt) :
    result (option APInt * BumpAllocator) :=
  assert_ (isNullValue align_ || isPowerOf2 align_) ;;
  let align := bump_align align_ in
  let size := ap_add size_ (APInt_of (getBitWidth size_) 8) in
  let mask := ap_sub align (APInt_of (getBitWidth align) 1) in
  let cur := ap_and (ap_add (current b) mask) (ap_not mask) in
  if ap_ult (ap_sub (bump_size b) (ap_sub cur (bump_base b))) size
  then Ok (None, mkBump (allocations b) cur (bump_base b) (bump_size b))
  else Ok (Some cur, mkBump (if decide (cur ∈ allocations b) then allocations b else cur :: allocations b)
                            (ap_add cur size) (bump_base b) (bump_size b)).

Definition bump_deallocate (b : BumpAllocator) (addr : APInt) : result BumpAllocator :=
  assert_ (bool_decide (addr ∈ allocations b)) ;;
  Ok (mkBump (filter (fun a => a <> addr) (allocations b)) (current b) (bump_base b) (bump_size b)).

(** ** The upper half of the address space

    The heaps use the arena that starts at the smallest signed value and has
    the same size. *)
Definition half (w : Z) : Z := 2 ^ (w - 1).

(** [off] is the part of the arena in use. *)
Record bump_inv (w : Z) (b : BumpAllocator) (off : Z) : Prop := {
  bump_w : 4 < w;
  bump_base_eq : bump_base b = APInt_of w (half w);
  bump_size_eq : bump_size b = APInt_of w (half w);
  bump_cur : current b = APInt_of w (half w + off);
  bump_off : 0 <= off <= half w
}.

(** [off] rounded up to a multiple of [a]. *)
Definition round_up (off a : Z) : Z := a * ((off + a - 1) / a).

Lemma round_up_spec off a : 0 < a -> off <= round_up off a < off + a /\ (a | round_up off a).
Proof.
  intros Ha. unfold round_up. split; [|by exists ((off + a - 1) / a); lia].
  pose proof (Z.div_mod (off + a - 1) a). pose proof (Z.mod_pos_bound (off + a - 1) a). lia.
Qed.

Lemma align_up w k c :
  0 <= k < w ->
  wrap w (Z.land (wrap w (c + (2 ^ k - 1))) (wrap w (Z.lnot (2 ^ k - 1)))) = wrap w (round_up c (2 ^ k)).
Proof.
  intros Hk. unfold round_up. replace (c + 2 ^ k - 1) with (c + (2 ^ k - 1)) by lia.
  set (x := c + (2 ^ k - 1)).
  assert (2 ^ k * (x / 2 ^ k) = Z.land x (Z.lnot (2 ^ k - 1))) as ->.
  { replace (2 ^ k - 1) with (Z.ones k) by (rewrite Z.ones_equiv; lia).
    rewrite <- Z.ldiff_land, Z.ldiff_ones_r, Z.shiftl_mul_pow2, Z.shiftr_div_pow2 by lia. lia. }
  apply (bits_eq w ltac:(lia)); [apply wrap_range; lia..|]. intros i Hi.
  rewrite !testbit_wrap, !Z.land_spec, !testbit_wrap by lia. rewrite (proj2 (Z.ltb_lt i w)) by lia. done.
Qed.

(** The alignment in use: at least eight, a power of two. *)
Definition aligned_to (a : Z) : Z := Z.max 8 a.

Lemma bump_align_ok w align :
  4 < w -> getBitWidth align = w -> isNullValue align || isPowerOf2 align = true ->
  exists k, 3 <= k < w /\ aligned_to (getZExtValue align) = 2 ^ k /\ bump_align align = APInt_of w (2 ^ k).
Proof.
  intros Hw Hwa Hp. pose proof (APInt_range align) as Hr. rewrite Hwa in Hr. unfold bump_align, aligned_to.
  rewrite getLimitedValue_spec, Hwa. destruct (Z.ltb_spec (Z.min (getZExtValue align) (2 ^ 64 - 1)) 8).
  - exists 3. change (Z.setbit 0 3) with 8. split; [lia|]. change (2 ^ 3) with 8. split; [lia|done].
  - assert (getZExtValue align <> 0) by lia. rewrite isNullValue_spec, (proj2 (Z.eqb_neq _ _)) in Hp by done.
    cbn [orb] in Hp. rewrite isPowerOf2_spec in Hp. apply Z.eqb_eq in Hp. set (k := Z.log2 (getZExtValue align)) in *.
    exists k. assert (8 <= 2 ^ k) as H8 by lia. split_and!.
    + change 8 with (2 ^ 3) in H8. apply Z.pow_le_mono_r_iff in H8; [done|lia|]. apply Z.log2_nonneg.
    + apply (Z.pow_lt_mono_r_iff 2); [lia|lia|]. rewrite <- Hp. lia.
    + lia.
    + symmetry. apply APInt_of_is; [done|]. rewrite <- Hp. apply wrap_small. lia.
Qed.

Lemma half_pos w : 4 < w -> 0 < half w /\ 2 ^ w = 2 * half w.
Proof.
  intros Hw. unfold half. split; [apply Z.pow_pos_nonneg; lia|]. rewrite <- Z.pow_succ_r by lia. f_equal. lia.
Qed.

(** Rounding up stays in the arena: its end is a multiple of every alignment. *)
Lemma round_up_half w k off :
  3 <= k < w -> 0 <= off <= half w -> round_up (half w + off) (2 ^ k) = half w + round_up off (2 ^ k) /\
    round_up off (2 ^ k) <= half w.
Proof.
  intros Hk Hoff. assert (half w = 2 ^ k * 2 ^ (w - 1 - k)) as Hh.
  { unfold half. rewrite <- Z.pow_add_r by lia. f_equal. lia. }
  assert (0 < 2 ^ k) as Hp by (apply Z.pow_pos_nonneg; lia). unfold round_up. split.
  - rewrite Hh. replace (2 ^ k * 2 ^ (w - 1 - k) + off + 2 ^ k - 1) with (off + 2 ^ k - 1 + 2 ^ (w - 1 - k) * 2 ^ k) by lia.
    rewrite Z.div_add by lia. lia.
  - assert ((off + 2 ^ k - 1) / 2 ^ k < 2 ^ (w - 1 - k) + 1).
    { apply Z.div_lt_upper_bound; lia. }
    nia.
Qed.

Lemma bump_allocate_ok w b off size align :
  bump_inv w b off -> getBitWidth size = w -> getBitWidth align = w ->
  isNullValue align || isPowerOf2 align = true ->
  let need := wrap w (getZExtValue size + 8) in
  let pos := round_up off (aligned_to (getZExtValue align)) in
  exists b' off', bump_inv w b' off' /\
    if pos + need <=? half w
    then bump_allocate b size align = Ok (Some (APInt_of w (half w + pos)), b') /\
         off' = pos + need
    else bump_allocate b size align = Ok (None, b') /\ off' = pos.
Proof.
  intros [Hw Hb Hs Hc Hoff] Hws Hwa Hp need pos.
  destruct (bump_align_ok w align Hw Hwa Hp) as (k & Hk & Hka & Ha). destruct (half_pos w Hw) as [Hh Hh2].
  assert (0 <= need < 2 ^ w) as Hsr by (apply wrap_range; lia).
  assert (0 < 2 ^ k < 2 ^ w) as Hkw.
  { split; [apply Z.pow_pos_nonneg; lia|apply Z.pow_lt_mono_r; lia]. }
  destruct (round_up_half w k off Hk Hoff) as [Hru Hle]. destruct (round_up_spec off (2 ^ k)) as [Hge _]; [lia|].
  unfold bump_allocate. rewrite Hp. cbn [assert_]. rewrite ok_bind. rewrite Ha.
  rewrite !APInt_of_width by lia. subst pos. rewrite Hka. set (p := round_up off (2 ^ k)) in *.
  assert (ap_sub (APInt_of w (2 ^ k)) (APInt_of w 1) = APInt_of w (2 ^ k - 1)) as ->.
  { rewrite ap_sub_spec by (rewrite !APInt_of_width by lia; done). rewrite APInt_of_width, !APInt_of_value, !wrap_small by lia. done. }
  assert (ap_and (ap_add (current b) (APInt_of w (2 ^ k - 1))) (ap_not (APInt_of w (2 ^ k - 1))) = APInt_of w (half w + p)) as ->.
  { rewrite Hc, ap_not_spec, ap_add_spec by (rewrite !APInt_of_width by lia; done). rewrite !APInt_of_width by lia.
    rewrite ap_and_spec by (rewrite !APInt_of_width by lia; done). rewrite !APInt_of_width, !APInt_of_value by lia.
    rewrite (wrap_small w (2 ^ k - 1)) by lia. rewrite wrap_add_l by lia. apply APInt_of_eq; [lia|].
    rewrite align_up by lia. by rewrite Hru. }
  assert (ap_sub (bump_size b) (ap_sub (APInt_of w (half w + p)) (bump_base b)) = APInt_of w (half w - p)) as ->.
  { rewrite Hs, Hb. rewrite (ap_sub_spec (APInt_of w (half w + p))) by (rewrite !APInt_of_width by lia; done).
    rewrite !APInt_of_width, !APInt_of_value by lia. rewrite ap_sub_spec by (rewrite !APInt_of_width by lia; done).
    rewrite APInt_of_width, !APInt_of_value by lia. apply APInt_of_eq; [lia|]. rewrite (wrap_small w (half w)) by lia.
    assert (wrap w (wrap w (half w + p) - half w) = p) as ->; [|done].
    unfold wrap. rewrite Zminus_mod_idemp_l, Z.mod_small by lia. lia. }
  assert (ap_add size (APInt_of (getBitWidth size) 8) = APInt_of w need) as ->.
  { assert (8 <= 2 ^ k) by (change 8 with (2 ^ 3); apply Z.pow_le_mono_r; lia).
    rewrite Hws, ap_add_spec by (by rewrite APInt_of_width by lia). rewrite APInt_of_value, Hws, (wrap_small w 8) by lia.
    symmetry. apply APInt_of_wrap. lia. }
  rewrite ap_ult_spec by (rewrite !APInt_of_width by lia; done). rewrite !APInt_of_value, !(wrap_small w (half w - p)), !(wrap_small w need) by lia.
  destruct (Z.leb_spec (p + need) (half w)).
  - rewrite (proj2 (Z.ltb_ge _ _)) by lia. eexists _, _. split; [|split; [done|done]].
    split; try done; cbn [current]; [|lia]. rewrite ap_add_spec by (by rewrite !APInt_of_width by lia).
    rewrite APInt_of_width, !APInt_of_value by lia. apply APInt_of_eq; [lia|]. rewrite wrap_add_l, wrap_add_r by lia.
    f_equal. lia.
  - rewrite (proj2 (Z.ltb_lt _ _)) by lia. eexists _, _. split; [|split; [done|done]].
    split; try done; cbn [current]; lia.
Qed.

(** ** The contracts *)

(** The bump allocator returns addresses that are in the arena, aligned as
    asked (to eight at least), after everything handed out before, and followed
    by eight unused bytes; it answers "none" exactly when the arena has no room,
    so an arena in the upper half of the address space never yields an address
    outside it. *)
Theorem bump_allocate_correct w b off size align :
  bump_inv w b off -> getBitWidth size = w -> getBitWidth align = w ->
  isNullValue align || isPowerOf2 align = true -> getZExtValue size + 8 < 2 ^ w ->
  (exists addr b' off', bump_allocate b size align = Ok (Some addr, b') /\ bump_inv w b' off' /\
     getZExtValue addr = half w + (off' - 8 - getZExtValue size) /\
     off <= off' - 8 - getZExtValue size /\
     (aligned_to (getZExtValue align) | getZExtValue addr)) \/
  (exists b' off', bump_allocate b size align = Ok (None, b') /\ bump_inv w b' off' /\ off <= off' /\
     half w < round_up off (aligned_to (getZExtValue align)) + getZExtValue size + 8).
Proof.
  intros Hi Hws Hwa Hp Hfit. pose proof Hi as [Hw _ _ _ Hoff].
  destruct (bump_align_ok w align Hw Hwa Hp) as (k & Hk & Hka & _). destruct (half_pos w Hw) as [Hh Hh2].
  destruct (bump_allocate_ok w b off size align Hi Hws Hwa Hp) as (b' & off' & Hi' & E). cbv zeta in E. rewrite Hka in *.
  destruct (round_up_spec off (2 ^ k)) as [Hr Hd]; [apply Z.pow_pos_nonneg; lia|].
  pose proof (APInt_range size) as Hsr. rewrite wrap_small, Z.add_assoc in E by lia.
  destruct (Z.leb_spec (round_up off (2 ^ k) + getZExtValue size + 8) (half w)).
  - left. destruct E as [E ->]. eexists _, b', _. split; [exact E|]. split; [exact Hi'|].
    rewrite APInt_of_value, wrap_small by lia. split_and!; [lia|lia|]. apply Z.divide_add_r; [|done].
    exists (2 ^ (w - 1 - k)). unfold half. rewrite <- Z.pow_add_r by lia. f_equal. lia.
  - right. destruct E as [E ->]. exists b', (round_up off (2 ^ k)). split_and!; [done|done|lia|lia].
Qed.

End bump.

Module bump_witness.
Definition fresh16 : BumpAllocator := BumpAllocator_ctor (getSignedMinValue 16) (getSignedMinValue 16).
Lemma fresh16_inv : bump_inv 16 fresh16 0.
Proof. split; reflexivity || (split; done). Qed.
Lemma bump_allocate_correct_witness :
  (exists addr b' off', bump_allocate fresh16 (APInt_of 16 10) (APInt_of 16 32) = Ok (Some addr, b') /\
     bump_inv 16 b' off' /\ getZExtValue addr = half 16 + (off' - 8 - getZExtValue (APInt_of 16 10)) /\
     0 <= off' - 8 - getZExtValue (APInt_of 16 10) /\
     (aligned_to (getZExtValue (APInt_of 16 32)) | getZExtValue addr)) \/
  (exists b' off', bump_allocate fresh16 (APInt_of 16 10) (APInt_of 16 32) = Ok (None, b') /\ bump_inv 16 b' off' /\ 0 <= off' /\
     half 16 < round_up 0 (aligned_to (getZExtValue (APInt_of 16 32))) + getZExtValue (APInt_of 16 10) + 8).
Proof.
  apply (bump_allocate_correct 16 fresh16 0 (APInt_of 16 10) (APInt_of 16 32)); [apply fresh16_inv|reflexivity..].
Defined.

(** In an arena that ends below the top of the address space the room test
    underflows once rounding up passes the end: from the arena [16, 32) with
    everything up to 30 in use, four bytes aligned to 64 are granted at 64. *)
Theorem bump_allocate_underflow :
  fst <$> bump_allocate (mkBump [] (APInt_of 8 30) (APInt_of 8 16) (APInt_of 8 16)) (APInt_of 8 4) (APInt_of 8 64)
    = Ok (Some (APInt_of 8 64)).
Proof. vm_decide. Qed.
End bump_witness.
