(* ===== verification/MemHeap.v ===== *)
(** The symbolic heap: [caffeine::Pointer], [caffeine::MemHeap] and
    [caffeine::MemHeapMgr] (src/Memory/Pointer.cpp, src/Memory/MemHeap.cpp).

    A heap keeps its allocations in a slot map.  Allocating adds assertions to
    the path condition that place the new allocation apart from the others;
    the heap never decides where an allocation is.  What the heap needs of the
    execution context is the class [PathOps]: adding an assertion, asking the
    solver, fresh constants and the extraction of an expression from the
    e-graph.  The heap is used with one context type only, [Context], whose
    operations as [PathOps] are [context_ops] of InterpreterContext.v; the
    theorems are proved against the laws of [PathContext], and [context_laws] of
    Paths.v shows that [Context] keeps these laws for expressions over the
    classes of its e-graph. *)
From S2P Require Import Prelude LLVM IRType Value Opcode Operation Matching Create Semantics.
From S2P Require Import Simplifier SimplifierInt SimplifierSound Overflow AtEnv.
From S2P Require Import SparseVector Assertions Slicer Solvers Allocation SlotMap BumpAllocator.
Open Scope Z_scope.

(** ** What a heap needs of its context *)
Section path_ops.
Context `{PtrEq} `{MathExtrasAPI}.
Class PathOps (C : Type) := {
  ctx_add : C -> Operation -> result C;
  ctx_check : C -> Operation -> result (Solvers.Kind * C);
  next_constant : C -> result (Symbol * C);
  ctx_extract : C -> Operation -> result (Operation * C)
}.
End path_ops.
(** The laws of a context.  [next_constant] fails when the numbers of its
    symbols are used up ([ctx_room]). *)
Class PathContext `{PtrEq} `{MathExtrasAPI} (C : Type) := {
  path_ops :: PathOps C;
  (** An environment satisfies the path condition. *)
  ctx_sat : Env -> C -> Prop;
  (** There is a number left for a fresh symbol. *)
  ctx_room : C -> Prop;

  ctx_add_ok : forall c a, boolean a ->
    exists c', ctx_add c a = Ok c' /\ forall e,
      (ctx_sat e c' -> ctx_sat e c) /\ (Defined e a -> (ctx_sat e c' <-> ctx_sat e c /\ Holds e a));
  ctx_check_ok : forall c a, boolean a ->
    exists k c', ctx_check c a = Ok (k, c') /\ (forall e, ctx_sat e c' <-> ctx_sat e c) /\
      (k = UNSAT -> forall e, ctx_sat e c -> ~ Holds e a);
  next_constant_ok : forall c, ctx_room c -> exists r, next_constant c = Ok r;
  next_constant_sat : forall c s c', next_constant c = Ok (s, c') -> forall e, ctx_sat e c' <-> ctx_sat e c;
  ctx_extract_ok : forall c a, wf a ->
    exists r c', ctx_extract c a = Ok (r, c') /\ wf r /\ op_type r = op_type a /\
      (ctx_room c -> ctx_room c') /\ forall e, ctx_sat e c' <-> ctx_sat e c
}.

Definition AllocId : Type := key_type.

Section memheap.
Context `{PtrEq} `{MathExtrasAPI} `{Config}.

(** *** Pointers *)
Record Pointer : Type := mkPointer { alloc_ : AllocId; ptr_offset : Operation; heap_ : Z }.
Definition Pointer_ctor (alloc : AllocId) (offset : Operation) (heap : Z) : result Pointer :=
  assert_ (is_int (op_type offset)) ;; Ok (mkPointer alloc offset heap).
Definition Pointer_abs (value : Operation) (heap : Z) : result Pointer :=
  Pointer_ctor (SIZE_MAX, SIZE_MAX) value heap.
Definition is_resolved (p : Pointer) : bool := negb ((alloc_ p).2 =? SIZE_MAX).
Definition pointer_eqb (p q : Pointer) : bool :=
  ptr_eq (ptr_offset p) (ptr_offset q) && bool_decide (alloc_ p = alloc_ q).

(** *** Heaps *)
Inductive AllocatorState : Type := Symbolic | Init (b : BumpAllocator) | Uninit.
Record MemHeap : Type := mkHeap {
  allocs_ : slot_map Allocation;
  index_ : Z;
  allocator_ : AllocatorState
}.
Definition MemHeap_ctor (index : Z) (concrete : bool) : MemHeap :=
  mkHeap sm_empty index (if concrete then Uninit else Symbolic).
Definition heap_at (h : MemHeap) (alloc : AllocId) : result Allocation := sm_at (allocs_ h) alloc.
Definition check_live (h : MemHeap) (alloc : AllocId) : result bool := sm_contains (allocs_ h) alloc.

(** [Pointer::value(const MemHeap&)] and [Pointer::check_null]. *)
Definition ptr_value (p : Pointer) (h : MemHeap) : result Operation :=
  if negb (is_resolved p) then Ok (ptr_offset p)
  else
    (if index_ h =? heap_ p then Ok tt else Err Thrown) ;;
    a ← heap_at h (alloc_ p); CreateAdd simplify (address_ a) (ptr_offset p).
Definition check_null (p : Pointer) (h : MemHeap) : result Operation :=
  v ← ptr_value p h; r ← CreateICmp_ri simplify EQ v 0; Assertion_ctor r.

Section ctx.
Context {C : Type} `{!PathOps C}.

(** [alloc_addr]: a concrete address while the sizes are concrete and the
    arena has room, a fresh constant otherwise. *)
Definition symbolic_addr (h : MemHeap) (size : Operation) (c : C) : result (Operation * MemHeap * C) :=
  '(s, c) ← next_constant c; a ← Constant_Create simplify (op_type size) s;
  Ok (a, mkHeap (allocs_ h) (index_ h) Symbolic, c).
Definition alloc_addr (h : MemHeap) (size_ align_ : Operation) (c : C) : result (Operation * MemHeap * C) :=
  match allocator_ h with
  | Symbolic => symbolic_addr h size_ c
  | state =>
      '(size, c) ← ctx_extract c size_; '(align, c) ← ctx_extract c align_;
      match as_ConstantInt size, as_ConstantInt align with
      | Some s, Some al =>
          b ← match state with
              | Init b => Ok b
              | _ => w ← bitwidth (op_type size); Ok (BumpAllocator_ctor (getSignedMinValue w) (getSignedMinValue w))
              end;
          '(addr, b) ← bump_allocate b s al;
          match addr with
          | Some addr =>
              a ← ConstantInt_Create simplify addr; Ok (a, mkHeap (allocs_ h) (index_ h) (Init b), c)
          | None => symbolic_addr h size_ c
          end
      | _, _ => symbolic_addr h size_ c
      end
  end.

(** [ctx.add] of an expression. *)
Definition add_expr (c : C) (op : Operation) : result C := a ← Assertion_ctor op; ctx_add c a.

(** The new allocation is apart from one of the others. *)
Definition add_disjoint (newalloc alloc : Allocation) (c : C) : result C :=
  new_end ← CreateAdd simplify (address_ newalloc) (size_op newalloc);
  old_end ← CreateAdd simplify (address_ alloc) (size_op alloc);
  cmp1 ← CreateICmp simplify ULE old_end (address_ newalloc);
  cmp2 ← CreateICmp simplify ULE new_end (address_ alloc);
  r ← CreateOr simplify cmp1 cmp2; add_expr c r.
Fixpoint add_disjoint_all (newalloc : Allocation) (allocs : list Allocation) (c : C) : result C :=
  match allocs with
  | [] => Ok c
  | a :: allocs => c ← add_disjoint newalloc a c; add_disjoint_all newalloc allocs c
  end.

(** Alignment, no wrap-around, not null. *)
Definition add_placement (addr size alignment : Operation) (c : C) : result C :=
  rem ← IntOp_Create simplify OpURem addr alignment; is_aligned ← CreateICmp_ri simplify EQ rem 0;
  align_is_zero ← CreateICmp_ri simplify EQ alignment 0;
  ok ← CreateOr simplify is_aligned align_is_zero; c ← add_expr c ok;
  last ← CreateAdd simplify addr size; nowrap ← CreateICmp simplify ULE addr last; c ← add_expr c nowrap;
  nonnull ← CreateICmp_ri simplify NE addr 0; add_expr c nonnull.

Definition allocate (h : MemHeap) (size alignment data : Operation) (kind : AllocationKind) (permissions : Z) (c : C) :
    result (AllocId * MemHeap * C) :=
  assert_ (ty_eqb (op_type size) (op_type alignment)) ;; assert_ (is_int (op_type size)) ;;
  (if is_array (op_type data)
   then wd ← bitwidth (op_type data); ws ← bitwidth (op_type size); assert_ (wd =? ws) else Ok tt) ;;
  '(addr, h, c) ← alloc_addr h size alignment c;
  newalloc ← Allocation_ctor addr size data kind permissions;
  c ← add_placement (address_ newalloc) size alignment c;
  c ← add_disjoint_all newalloc (sm_values (allocs_ h)) c;
  '(id, m) ← sm_insert (allocs_ h) newalloc;
  Ok (id, mkHeap m (index_ h) (allocator_ h), c).

(** [resolve]: the allocations an unresolved pointer may point into. *)
Fixpoint resolve_items (items : list (AllocId * Allocation)) (value : Operation) (heap : Z) (c : C) :
    result (list Pointer * C) :=
  match items with
  | [] => Ok ([], c)
  | (id, a) :: items =>
      last ← CreateAdd simplify (address_ a) (size_op a);
      cmp1 ← CreateICmp simplify ULE (address_ a) value; cmp2 ← CreateICmp simplify ULT value last;
      assertion ← CreateAnd simplify cmp1 cmp2; assertion ← Assertion_ctor assertion;
      '(k, c) ← ctx_check c assertion;
      here ← (if decide (k = UNSAT) then Ok []
              else off ← IntOp_Create simplify OpSub value (address_ a); p ← Pointer_ctor id off heap; Ok [p]);
      '(rest, c) ← resolve_items items value heap c;
      Ok (here ++ rest, c)
  end.
Definition heap_resolve (h : MemHeap) (p : Pointer) (c : C) : result (list Pointer * C) :=
  if is_resolved p then
    (if heap_ p =? index_ h then Ok tt else Err Thrown) ;;
    live ← check_live h (alloc_ p);
    if (live : bool) then
      a ← heap_at h (alloc_ p); inb ← check_inbounds_width a (ptr_offset p) 0;
      '(k, c) ← ctx_check c inb;
      if decide (k = UNSAT) then Ok ([], c) else Ok ([p], c)
    else Ok ([], c)
  else value ← ptr_value p h; resolve_items (sm_items (allocs_ h)) value (heap_ p) c.
End ctx.

Definition heap_deallocate (h : MemHeap) (alloc : AllocId) : result MemHeap :=
  '(value, m) ← sm_remove (allocs_ h) alloc;
  match value with
  | None => Err AssertFailed
  | Some v =>
      match allocator_ h with
      | Init b =>
          addr ← of_option AssertFailed (as_ConstantInt (address_ v)); b ← bump_deallocate b addr;
          Ok (mkHeap m (index_ h) (Init b))
      | _ => Ok (mkHeap m (index_ h) Symbolic)
      end
  end.

(** *** Validity of pointers *)
Fixpoint valid_in_any (allocs : list Allocation) (value width : Operation) (r : Operation) : result Operation :=
  match allocs with
  | [] => Ok r
  | a :: allocs =>
      room ← IntOp_Create simplify OpSub (size_op a) width; last ← CreateAdd simplify (address_ a) room;
      cmp1 ← CreateICmp simplify ULE (address_ a) value; cmp2 ← CreateICmp simplify ULE value last;
      both ← CreateAnd simplify cmp1 cmp2; r ← CreateOr simplify r both;
      valid_in_any allocs value width r
  end.
Definition check_valid (h : MemHeap) (p : Pointer) (width : Operation) : result Operation :=
  if is_resolved p then
    live ← check_live h (alloc_ p);
    if (live : bool) then
      a ← heap_at h (alloc_ p); room ← IntOp_Create simplify OpSub (size_op a) width;
      r ← CreateICmp simplify ULE (ptr_offset p) room; Assertion_ctor r
    else f ← ConstantInt_Create_bool simplify false; Assertion_ctor f
  else
    f ← ConstantInt_Create_bool simplify false; value ← ptr_value p h;
    any ← valid_in_any (sm_values (allocs_ h)) value width f;
    nn ← CreateICmp_ri simplify NE value 0; r ← CreateAnd simplify nn any; Assertion_ctor r.

Fixpoint starts_any (allocs : list Allocation) (value : Operation) (r : Operation) : result Operation :=
  match allocs with
  | [] => Ok r
  | a :: allocs =>
      eq ← CreateICmp simplify EQ value (address_ a); r ← CreateOr simplify r eq; starts_any allocs value r
  end.
Definition check_starts_allocation (h : MemHeap) (p : Pointer) : result Operation :=
  if is_resolved p then
    live ← check_live h (alloc_ p);
    if (live : bool) then r ← CreateICmp_ri simplify EQ (ptr_offset p) 0; Assertion_ctor r
    else f ← ConstantInt_Create_bool simplify false; Assertion_ctor f
  else
    f ← ConstantInt_Create_bool simplify false; value ← ptr_value p h;
    any ← starts_any (sm_values (allocs_ h)) value f;
    nn ← CreateICmp_ri simplify NE value 0; r ← CreateAnd simplify nn any; Assertion_ctor r.

(** ** Where allocations are *)
Definition alloc_ok (w : Z) (a : Allocation) : Prop := iwf w (address_ a) /\ iwf w (size_op a).

(** In the environment [e] the allocation [a] is [A, A + S). *)
Definition placed (e : Env) (w : Z) (a : Allocation) (A S : Z) : Prop :=
  ival e w (address_ a) A /\ ival e w (size_op a) S /\ 0 <= A < 2 ^ w /\ 0 <= S < 2 ^ w.
Definition apart (A S B T : Z) : Prop := A + S <= B \/ B + T <= A.

Record heap_inv (w : Z) (h : MemHeap) : Prop := {
  heap_w : good_width w /\ 4 < w;
  heap_slots : sm_inv (allocs_ h);
  heap_allocs : Forall (alloc_ok w) (sm_values (allocs_ h));
  heap_bump : match allocator_ h with Init b => exists off, bump_inv w b off | _ => True end
}.

(** The allocations are inside the address space, not null and pairwise apart. *)
Definition heap_apart (e : Env) (w : Z) (h : MemHeap) : Prop :=
  (forall a A S, a ∈ sm_values (allocs_ h) -> placed e w a A S -> 0 < A /\ A + S < 2 ^ w) /\
  (forall k a A S l b B T, (k, a) ∈ sm_items (allocs_ h) -> (l, b) ∈ sm_items (allocs_ h) -> k <> l ->
     placed e w a A S -> placed e w b B T -> apart A S B T).

Lemma ival_unique e w x a b : ival e w x a -> ival e w x b -> 0 <= a < 2 ^ w -> 0 <= b < 2 ^ w -> a = b.
Proof.
  intros (_ & _ & [? _] & Da) (_ & _ & _ & Db) Ha Hb. rewrite Da in Db. injection Db as E.
  apply (f_equal getZExtValue) in E. rewrite !APInt_of_value, !wrap_small in E by lia. done.
Qed.

Lemma placed_unique e w a A S B T : placed e w a A S -> placed e w a B T -> A = B /\ S = T.
Proof. intros (? & ? & ? & ?) (? & ? & ? & ?). split; by eapply ival_unique. Qed.

Lemma assertion_ok r : iwf 1 r -> Assertion_ctor r = Ok r.
Proof.
  intros (_ & Tr & _). unfold Assertion_ctor. by rewrite int_ty_good, ok_bind, Tr, ty_eqb_refl by done.
Qed.

Section ctx_proofs.
Context {C : Type} `{!PathContext C}.

Lemma add_expr_ok c r :
  iwf 1 r -> exists c', add_expr c r = Ok c' /\
    forall e, (ctx_sat e c' -> ctx_sat e c) /\ forall b, bval e r b -> (ctx_sat e c' <-> ctx_sat e c /\ b = true).
Proof.
  intros Hr. pose proof Hr as (Wr & Tr & _). unfold add_expr. rewrite (assertion_ok r Hr), ok_bind. destruct (ctx_add_ok c r) as (c' & -> & Hc); [done|]. exists c'. split; [done|].
  intros e. destruct (Hc e) as [Hm Hd]. split; [done|]. intros b Hb. destruct (bval_ctor e r b Hb) as [_ Hh].
  rewrite Hd, Hh; [done|]. destruct Hb as (_ & _ & _ & Hb). unfold Defined. by rewrite Hb.
Qed.

Lemma add_disjoint_ok w newalloc a c :
  alloc_ok w newalloc -> alloc_ok w a ->
  exists c', add_disjoint newalloc a c = Ok c' /\
    forall e, (ctx_sat e c' -> ctx_sat e c) /\
      forall A S B T, placed e w newalloc A S -> placed e w a B T ->
      (ctx_sat e c' <-> ctx_sat e c /\ (wrap w (B + T) <= A \/ wrap w (A + S) <= B)).
Proof.
  intros [Ha Hs] [Hb Ht]. unfold add_disjoint.
  destruct (add_any w _ _ Ha Hs) as (ne & -> & Wne & Dne). rewrite ok_bind.
  destruct (add_any w _ _ Hb Ht) as (oe & -> & Woe & Doe). rewrite ok_bind.
  destruct (icmp_any ULE w oe _ Woe Ha) as (c1 & -> & W1 & D1). rewrite ok_bind.
  destruct (icmp_any ULE w ne _ Wne Hb) as (c2 & -> & W2 & D2). rewrite ok_bind.
  destruct (or_any c1 c2 W1 W2) as (r & -> & Wr & Dr). rewrite ok_bind.
  destruct (add_expr_ok c r Wr) as (c' & -> & Hc). exists c'. split; [done|].
  intros e. destruct (Hc e) as [Hm Hd]. split; [done|]. intros A S B T (PA & PS & RA & RS) (PB & PT & RB & RT).
  rewrite (Hd _ (Dr e _ _ (D1 e _ _ (Doe e _ _ PB PT) PA) (D2 e _ _ (Dne e _ _ PA PS) PB))).
  cbn [sem_icmp]. rewrite (wrap_small w A), (wrap_small w B) by lia. by rewrite orb_true_iff, !Z.leb_le.
Qed.

Lemma add_disjoint_all_ok w newalloc allocs c :
  alloc_ok w newalloc -> Forall (alloc_ok w) allocs ->
  exists c', add_disjoint_all newalloc allocs c = Ok c' /\
    forall e, (ctx_sat e c' -> ctx_sat e c) /\
      (forall A S, placed e w newalloc A S -> ctx_sat e c' ->
         forall a B T, a ∈ allocs -> placed e w a B T -> wrap w (B + T) <= A \/ wrap w (A + S) <= B) /\
      (forall A S, placed e w newalloc A S -> ctx_sat e c ->
         (forall a, a ∈ allocs -> exists B T, placed e w a B T /\ (wrap w (B + T) <= A \/ wrap w (A + S) <= B)) ->
         ctx_sat e c').
Proof.
  intros Hn Hal. revert c. induction Hal as [|a allocs Ha _ IHa]; intros c; cbn [add_disjoint_all].
  { exists c. split; [done|]. intros e. split_and!; [done|by intros ? ? ? ? ? ? ? ?%elem_of_nil|done]. }
  destruct (add_disjoint_ok w newalloc a c Hn Ha) as (c1 & -> & K1). rewrite ok_bind.
  destruct (IHa c1) as (c' & -> & Hc). exists c'. split; [done|]. intros e.
  destruct (K1 e) as [Hm1 Hd1], (Hc e) as (Hm & Hfwd & Hbwd). split_and!.
  - auto.
  - intros A S Hp Hsat b B T [->|Hb]%elem_of_cons Hpb; [|by apply (Hfwd A S Hp Hsat b)]. by apply (Hd1 A S B T Hp Hpb); auto.
  - intros A S Hp Hsat Hall. apply (Hbwd A S Hp); [|intros b Hb; apply Hall; by right].
    destruct (Hall a (list_elem_of_here a allocs)) as (B & T & Hpa & Hap). by apply (Hd1 A S B T Hp Hpa).
Qed.

Lemma add_placement_ok w addr size alignment c :
  iwf w addr -> iwf w size -> iwf w alignment ->
  exists c', add_placement addr size alignment c = Ok c' /\ forall e,
    (ctx_sat e c' -> ctx_sat e c) /\
    forall A S L, ival e w addr A -> ival e w size S -> ival e w alignment L ->
      0 <= A < 2 ^ w -> 0 <= S < 2 ^ w -> 0 < L < 2 ^ w ->
      (ctx_sat e c' <-> ctx_sat e c /\ A mod L = 0 /\ A + S < 2 ^ w /\ 0 < A).
Proof.
  intros Ha Hs Hl. unfold add_placement.
  destruct (int_any OpURem w addr alignment eq_refl Ha Hl) as (rem & -> & Wrem & Drem). rewrite ok_bind.
  destruct (icmp_zero_any EQ w rem Wrem) as (al & -> & Wal & Dal). rewrite ok_bind.
  destruct (icmp_zero_any EQ w alignment Hl) as (az & -> & Waz & Daz). rewrite ok_bind.
  destruct (or_any al az Wal Waz) as (ok & -> & Wok & Dok). rewrite ok_bind.
  destruct (add_expr_ok c ok Wok) as (c1 & -> & K1). rewrite ok_bind.
  destruct (add_any w addr size Ha Hs) as (last & -> & Wlast & Dlast). rewrite ok_bind.
  destruct (icmp_any ULE w addr last Ha Wlast) as (nw & -> & Wnw & Dnw). rewrite ok_bind.
  destruct (add_expr_ok c1 nw Wnw) as (c2 & -> & K2). rewrite ok_bind.
  destruct (icmp_zero_any NE w addr Ha) as (nn & -> & Wnn & Dnn). rewrite ok_bind.
  destruct (add_expr_ok c2 nn Wnn) as (c3 & -> & K3). exists c3. split; [done|]. intros e.
  destruct (K1 e) as [M1 D1], (K2 e) as [M2 D2], (K3 e) as [M3 D3]. split; [auto|].
  intros A S L PA PS PL RA RS RL.
  assert (ival e w rem (A mod L)) as Prem.
  { apply (Drem e A L _ PA PL). cbn. rewrite !wrap_small by lia. by rewrite (proj2 (Z.eqb_neq L 0)) by lia. }
  assert (0 <= A mod L < L) as HAL by (apply Z.mod_pos_bound; lia).
  rewrite (D3 _ (Dnn e A PA)), (D2 _ (Dnw e _ _ PA (Dlast e _ _ PA PS))),
    (D1 _ (Dok e _ _ (Dal e _ Prem) (Daz e _ PL))).
  cbn [sem_icmp]. rewrite (wrap_small w A), (wrap_small w L), (wrap_small w (A mod L)) by lia.
  rewrite orb_true_iff, negb_true_iff, !Z.eqb_eq, Z.eqb_neq, Z.leb_le.
  assert (A <= wrap w (A + S) <-> A + S < 2 ^ w) as Hwrap.
  { unfold wrap. destruct (Z.lt_ge_cases (A + S) (2 ^ w)).
    - rewrite Z.mod_small by lia. lia.
    - rewrite <- (Z.mod_unique (A + S) (2 ^ w) 1 (A + S - 2 ^ w)) by lia. lia. }
  rewrite Hwrap. intuition lia.
Qed.

(** The alignments the concrete allocator takes. *)
Definition alignment_ok (alignment : Operation) : Prop :=
  forall c r c' a, ctx_extract c alignment = Ok (r, c') -> as_ConstantInt r = Some a ->
    isNullValue a || isPowerOf2 a = true.

(** What holds of the result, which exists while there is room for a fresh
    constant. *)
Definition with_room {A} (c : C) (r : result A) (P : A -> Prop) : Prop :=
  (forall x, r = Ok x -> P x) /\ (ctx_room c -> exists x, r = Ok x).
Definition addr_post (w : Z) (h : MemHeap) (c : C) (r : Operation * MemHeap * C) : Prop :=
  iwf w r.1.1 /\ heap_inv w r.1.2 /\ allocs_ r.1.2 = allocs_ h /\ index_ r.1.2 = index_ h /\ forall e, ctx_sat e r.2 <-> ctx_sat e c.
Lemma with_room_here {A} (c : C) (x : A) (P : A -> Prop) : P x -> with_room c (Ok x) P.
Proof. intros Hx. split; [by intros ? [= <-]|by exists x]. Qed.
(** After steps that keep the path condition and the room. *)
Lemma with_room_after w h c1 c r :
  (ctx_room c -> ctx_room c1) -> (forall e, ctx_sat e c1 <-> ctx_sat e c) -> with_room c1 r (addr_post w h c1) -> with_room c r (addr_post w h c).
Proof.
  intros Hr Hc [Hp Hx]. split; [|auto]. intros x (Ha & Hi & Es & Ei & He)%Hp. split_and!; [apply Ha..|apply Hi|done|done|].
  intros e. by rewrite (He e), (Hc e).
Qed.
Lemma symbolic_addr_ok w h size c :
  heap_inv w h -> iwf w size -> with_room c (symbolic_addr h size c) (addr_post w h c).
Proof.
  intros [Hw Hs Ha _] (Ws & Ts & Hg). set (d s := ConstantData (ity w) s).
  assert (forall s, wf (mkOp (d s) []) /\ safe (mkOp (d s) []) /\ od_type (d s) = ity w) as Hd.
  { intros s. unfold d, ConstantData. change (is_array (ity w)) with false. cbv iota. split_and!; [|by destruct s|done].
    constructor; [done|]. destruct s; exists s || (eexists; reflexivity). }
  assert (forall s, exists r, Constant_Create simplify (ity w) s = Ok r /\ iwf w r) as Hc.
  { intros s. destruct (Hd s) as (Wd & Sd & Td). destruct (simplify_ok (mkOp (d s) []) Wd Sd) as (r & Er & Wr & Tr & _). exists r. split; [|done].
    unfold Constant_Create, build, Operation_ctor. fold (d s).
    assert (opcode_nargs (opcode_val (od_opcode (d s))) = 0) as -> by (unfold d, ConstantData; by destruct s). exact Er. }
  unfold symbolic_addr. split.
  - intros x E. apply bind_Ok in E as ([s c'] & Es & E). rewrite Ts in E. destruct (Hc s) as (r & Er & Hr). rewrite Er, ok_bind in E.
    injection E as <-. split_and!; [apply Hr..| |done|done|by apply (next_constant_sat c s)]. by split.
  - intros Hroom. destruct (next_constant_ok c Hroom) as [[s c'] ->]. rewrite ok_bind. cbv beta iota. rewrite Ts.
    destruct (Hc s) as (r & -> & _). rewrite ok_bind. eauto.
Qed.

(** The concrete arena, with the sizes the context extracted. *)
Definition arena_addr (h : MemHeap) (size : Operation) (sz al : APInt) (w : Z) (c : C) : result (Operation * MemHeap * C) :=
  b ← match allocator_ h with
      | Init b => Ok b
      | _ => Ok (BumpAllocator_ctor (getSignedMinValue w) (getSignedMinValue w))
      end;
  '(addr, b) ← bump_allocate b sz al;
  match addr with
  | Some addr => a ← ConstantInt_Create simplify addr; Ok (a, mkHeap (allocs_ h) (index_ h) (Init b), c)
  | None => symbolic_addr h size c
  end.
Lemma arena_addr_ok w h size sz al c :
  heap_inv w h -> iwf w size -> getBitWidth sz = w -> getBitWidth al = w -> isNullValue al || isPowerOf2 al = true ->
  with_room c (arena_addr h size sz al w c) (addr_post w h c).
Proof.
  intros Hi Hs Wsz Wal Hal. pose proof Hi as [[Hgw Hw4] Hsl Hall Hb]. unfold arena_addr.
  assert (exists b off, match allocator_ h with
      | Init b => Ok b
      | _ => Ok (BumpAllocator_ctor (getSignedMinValue w) (getSignedMinValue w))
      end = Ok b /\ bump_inv w b off) as (b & off & -> & Hbi).
  { assert (bump_inv w (BumpAllocator_ctor (getSignedMinValue w) (getSignedMinValue w)) 0) as Hnew.
    { split; unfold BumpAllocator_ctor; cbn; rewrite ?getSignedMinValue_spec by lia; try done.
      - by rewrite Z.add_0_r.
      - destruct (half_pos w Hw4). lia. }
    destruct (allocator_ h) as [|b|]; [by eexists _, 0| |by eexists _, 0]. destruct Hb as (off & Hb). eauto. }
  rewrite ok_bind. destruct (bump_allocate_ok w b off sz al Hbi Wsz Wal Hal) as (b' & off' & Hbi' & E). cbv zeta in E.
  destruct (_ <=? half w) in E; destruct E as [-> _]; rewrite ok_bind; [|by apply symbolic_addr_ok].
  destruct (const_any w (half w + round_up off (aligned_to (getZExtValue al))) Hgw) as (r & -> & Wr & _). rewrite ok_bind.
  apply with_room_here. split_and!; [apply Wr..| |done|done|done]. split; cbn; eauto.
Qed.

Lemma alloc_addr_ok w h size alignment c :
  heap_inv w h -> iwf w size -> iwf w alignment -> alignment_ok alignment ->
  with_room c (alloc_addr h size alignment c) (addr_post w h c).
Proof.
  intros Hi Hs Ha Hal. pose proof Hs as (Ws & Ts & Hg). pose proof Ha as (Wa & Ta & _).
  destruct (ctx_extract_ok c size Ws) as (size' & c1 & E1 & Ws' & Ts' & R1 & Hc1).
  destruct (ctx_extract_ok c1 alignment Wa) as (align' & c2 & E2 & Wa' & Ta' & R2 & Hc2).
  assert (forall state, allocator_ h = state -> state <> Symbolic -> alloc_addr h size alignment c =
    match as_ConstantInt size', as_ConstantInt align' with
    | Some s, Some al => arena_addr h size s al w c2
    | _, _ => symbolic_addr h size c2
    end) as Hcon.
  { intros state Est Hne. unfold alloc_addr, arena_addr. rewrite Est. destruct state; [done|..];
      rewrite E1, ok_bind; cbv beta iota; rewrite E2, ok_bind; cbv beta iota; rewrite ?Ts', ?Ts, ?bitwidth_ity, ?ok_bind; done. }
  assert (with_room c match as_ConstantInt size', as_ConstantInt align' with
    | Some s, Some al => arena_addr h size s al w c2
    | _, _ => symbolic_addr h size c2
    end (addr_post w h c)) as Harena.
  { apply (with_room_after w h c2 c); [auto|intros e; by rewrite (Hc2 e), (Hc1 e)|].
    destruct (as_ConstantInt size') as [sz|] eqn:Esz; [|by apply symbolic_addr_ok].
    destruct (as_ConstantInt align') as [al|] eqn:Eal; [|by apply symbolic_addr_ok].
    apply arena_addr_ok; [done|done|..|by apply (Hal _ _ _ _ E2 Eal)].
    - apply as_ConstantInt_inv in Esz as (_ & E & _); [|done]. rewrite Ts', Ts in E. by injection E as <-.
    - apply as_ConstantInt_inv in Eal as (_ & E & _); [|done]. rewrite Ta', Ta in E. by injection E as <-. }
  destruct (allocator_ h) as [|b|] eqn:Est.
  - unfold alloc_addr. rewrite Est. by apply symbolic_addr_ok.
  - by rewrite (Hcon (Init b)).
  - by rewrite (Hcon Uninit).
Qed.

(** Live keys are found, and their generation is not the marker of unresolved pointers. *)
Lemma live_at (m : slot_map Allocation) k a : 0 <= k.1 -> sm_lookup m k = Some a -> sm_at m k = Ok a.
Proof.
  intros Hk Ha. unfold sm_lookup in Ha. rewrite (proj2 (Z.leb_le 0 k.1)) in Ha by done. unfold sm_at.
  destruct (entries_ m !! Z.to_nat k.1) as [en|]; [|done]. cbn in Ha |- *. by rewrite Ha.
Qed.

(** The values of the heap after an insertion. *)
Lemma inserted_items m m' k (a : Allocation) :
  0 <= k.1 ->
  (forall k', 0 <= k'.1 -> sm_lookup m' k' = if decide (k' = k) then Some a else sm_lookup m k') ->
  forall l b, (l, b) ∈ sm_items m' <-> (l = k /\ b = a) \/ (l <> k /\ (l, b) ∈ sm_items m).
Proof.
  intros Hk Hl l b. rewrite !sm_items_spec. split.
  - intros [Hl0 Hb]. rewrite Hl in Hb by done. case_decide as E; [injection Hb as <-|]; auto.
  - intros [[-> ->]|(Hne & Hl0 & Hb)]; (split; [done|]); rewrite Hl by done; case_decide; done.
Qed.

Lemma sm_values_items {T} (m : slot_map T) x : x ∈ sm_values m <-> exists k, (k, x) ∈ sm_items m.
Proof.
  unfold sm_values. rewrite list_elem_of_fmap. split.
  - intros ([k y] & -> & Hk). eauto.
  - intros (k & Hk). by exists (k, x).
Qed.

(** The state after an allocation. *)
Definition allocated w h size alignment data (c : C) (r : AllocId * MemHeap * C) : Prop :=
  let '(id, h', c') := r in
  heap_inv w h' /\ exists a, heap_at h' id = Ok a /\ size_op a = size /\ data_ a = data /\
    sm_lookup (allocs_ h) id = None /\
    (forall l b, (l, b) ∈ sm_items (allocs_ h') <-> (l = id /\ b = a) \/ (l <> id /\ (l, b) ∈ sm_items (allocs_ h))) /\
    forall e, (ctx_sat e c' -> ctx_sat e c) /\
      forall A S L, placed e w a A S -> ival e w alignment L -> 0 < L < 2 ^ w ->
      (ctx_sat e c' -> A mod L = 0 /\ A + S < 2 ^ w /\ 0 < A /\
        forall b B T, b ∈ sm_values (allocs_ h) -> placed e w b B T -> B + T < 2 ^ w -> apart A S B T) /\
      (ctx_sat e c -> A mod L = 0 -> A + S < 2 ^ w -> 0 < A ->
        (forall b, b ∈ sm_values (allocs_ h) -> exists B T, placed e w b B T /\ B + T < 2 ^ w /\ apart A S B T) ->
        ctx_sat e c').
(** All that comes after the address succeeds. *)
Lemma allocate_at w h size alignment data kind perms c addr h1 c1 :
  heap_inv w h -> iwf w size -> iwf w alignment -> sm_size (allocs_ h) + 1 < no_head -> addr_post w h c (addr, h1, c1) ->
  exists r, (a ← Allocation_ctor addr size data kind perms; c ← add_placement (address_ a) size alignment c1;
    c ← add_disjoint_all a (sm_values (allocs_ h1)) c; '(id, m) ← sm_insert (allocs_ h1) a;
    Ok (id, mkHeap m (index_ h1) (allocator_ h1), c)) = Ok r /\ allocated w h size alignment data c r.
Proof.
  intros Hi Hs Ha Hroom (Haddr & Hi1 & Hallocs & Hix & Hc1). cbn [fst snd] in *. pose proof Hs as (_ & Ts & _). pose proof Haddr as (_ & Taddr & _).
  unfold Allocation_ctor. rewrite Taddr, Ts. change (is_int (ity w)) with true. cbn [assert_]. rewrite !ok_bind, bitwidth_ity, !ok_bind, Z.eqb_refl.
  cbn [assert_]. rewrite !ok_bind. set (a := mkAllocation addr size data kind perms). change (address_ a) with addr.
  destruct (add_placement_ok w addr size alignment c1 Haddr Hs Ha) as (c2 & -> & Hc2). rewrite ok_bind, Hallocs.
  pose proof Hi as [Hw Hsl Hall _].
  destruct (add_disjoint_all_ok w a (sm_values (allocs_ h)) c2) as (c3 & -> & Hc3); [done|done|]. rewrite ok_bind.
  destruct (sm_insert_ok (allocs_ h) a Hsl Hroom) as (id & m & -> & Hm & Hid & Hnone & Hlk & _ & _). rewrite ok_bind. cbv beta iota.
  pose proof (inserted_items _ _ _ _ Hid Hlk) as Hitems.
  eexists. split; [done|]. split; [|exists a; split_and!; try done].
  - destruct Hi1 as [_ _ _ Hb1]. split; try done. cbn [allocs_]. apply Forall_forall. intros b Hb.
    apply sm_values_items in Hb as (l & Hb). apply Hitems in Hb as [[_ ->]|[_ Hb']]; [done|].
    rewrite Forall_forall in Hall. apply Hall, sm_values_items. eauto.
  - apply (live_at _ _ _ Hid). rewrite Hlk by done. by rewrite decide_True.
  - intros e. destruct (Hc2 e) as [M2 D2], (Hc3 e) as (M3 & Hfwd & Hbwd). rewrite (Hc1 e) in M2.
    split; [auto|]. intros A S L Hp Hl HL. pose proof Hp as (PA & PS & RA & RS). cbn [a address_ size_op] in PA, PS.
    specialize (D2 A S L PA PS Hl RA RS HL). rewrite (Hc1 e) in D2. split.
    + intros Hsat. apply M3 in Hsat as Hsat2. apply D2 in Hsat2 as (_ & Hm0 & Hf & HA). split_and!; try done.
      intros b B T Hb Hpb HB. destruct (Hfwd A S Hp Hsat b B T Hb Hpb) as [Hx|Hx];
        rewrite wrap_small in Hx by (destruct Hpb as (_ & _ & ? & ?); lia); [by right|by left].
    + intros Hsat Hm0 Hf HA Hb0. apply (Hbwd A S Hp); [by apply D2|]. intros b Hb.
      destruct (Hb0 b Hb) as (B & T & Hpb & HB & Hap). exists B, T. split; [done|].
      rewrite !wrap_small by (destruct Hpb as (_ & _ & ? & ?); lia). unfold apart in Hap. tauto.
Qed.
Lemma allocate_ok w h size alignment data kind perms c :
  heap_inv w h -> iwf w size -> iwf w alignment -> alignment_ok alignment ->
  sm_size (allocs_ h) + 1 < no_head -> (is_array (op_type data) = true -> op_type data = aty w) ->
  with_room c (allocate h size alignment data kind perms c) (allocated w h size alignment data c).
Proof.
  intros Hi Hs Ha Hal Hroom Hd. unfold allocate. pose proof Hs as (_ & Ts & _). pose proof Ha as (_ & Ta & _).
  rewrite Ts, Ta, ty_eqb_refl. change (is_int (ity w)) with true. cbn [assert_]. rewrite !ok_bind.
  assert ((if is_array (op_type data)
    then wd ← bitwidth (op_type data); ws ← bitwidth (ity w); assert_ (wd =? ws) else Ok tt) = Ok tt) as ->.
  { destruct (is_array (op_type data)) eqn:Ea; [|done]. rewrite Hd by done.
    rewrite bitwidth_aty, bitwidth_ity, !ok_bind, Z.eqb_refl. done. }
  rewrite ok_bind. destruct (alloc_addr_ok w h size alignment c Hi Hs Ha Hal) as [Hpost Hex].
  destruct (alloc_addr h size alignment c) as [[[addr h1] c1]|] eqn:E.
  2: { split; [done|]. intros Hr. by destruct (Hex Hr) as [x ?]. }
  rewrite ok_bind. cbv beta iota. destruct (allocate_at w h size alignment data kind perms c addr h1 c1 Hi Hs Ha Hroom (Hpost _ eq_refl)) as (r & Er & Hr).
  rewrite Er. by apply with_room_here.
Qed.

(** The path condition keeps the allocations apart. *)
Definition heap_sound (w : Z) (h : MemHeap) (c : C) : Prop := forall e, ctx_sat e c -> heap_apart e w h.

Lemma allocate_sound w h size alignment data kind perms c L id h' c' :
  heap_inv w h -> heap_sound w h c -> iwf w size -> iwf w alignment -> alignment_ok alignment ->
  (forall e, ival e w alignment L) -> 0 < L < 2 ^ w ->
  sm_size (allocs_ h) + 1 < no_head -> (is_array (op_type data) = true -> op_type data = aty w) ->
  allocate h size alignment data kind perms c = Ok (id, h', c') -> heap_inv w h' /\ heap_sound w h' c'.
Proof.
  intros Hi Hsound Hs Ha Hal HL RL Hroom Hd E.
  destruct (allocate_ok w h size alignment data kind perms c Hi Hs Ha Hal Hroom Hd) as [Hpost _].
  destruct (Hpost _ E) as (Hi' & a & Hat & Es & Ed & Hnone & Hitems & Hsat). split; [done|].
  intros e Hc. destruct (Hsat e) as [Hmono Hnew]. destruct (Hsound e (Hmono Hc)) as [Hin Hap].
  assert (forall A S, placed e w a A S -> 0 < A /\ A + S < 2 ^ w /\
    forall b B T, b ∈ sm_values (allocs_ h) -> placed e w b B T -> apart A S B T) as Hna.
  { intros A S Hp. destruct (Hnew A S L Hp (HL e) RL) as [Hfwd _]. destruct (Hfwd Hc) as (_ & Hf & HA & Hapart).
    split_and!; try done. intros b B T Hb Hpb. apply (Hapart b B T Hb Hpb). by apply (Hin b B T). }
  split.
  - intros b B T Hb Hpb. apply sm_values_items in Hb as (l & Hb). apply Hitems in Hb as [[_ ->]|[_ Hb']].
    + by destruct (Hna B T Hpb) as (? & ? & _).
    + apply (Hin b); [|done]. apply sm_values_items. eauto.
  - intros k x X SX l y Y SY Hx Hy Hkl Px Py.
    apply Hitems in Hx as [[-> ->]|[Hk Hx']]; apply Hitems in Hy as [[-> ->]|[Hl Hy']]; [done|..].
    + apply (Hna X SX Px) with y; [apply sm_values_items; eauto|done].
    + assert (apart Y SY X SX) as [?|?]; [|by right|by left].
      apply (Hna Y SY Py) with x; [apply sm_values_items; eauto|done].
    + by apply (Hap k x X SX l y Y SY).
Qed.

(** *** Deallocation *)
Lemma deallocate_inv w h id h' :
  heap_inv w h -> 0 <= id.1 -> heap_deallocate h id = Ok h' ->
  heap_inv w h' /\ is_Some (sm_lookup (allocs_ h) id) /\
  (forall l b, (l, b) ∈ sm_items (allocs_ h') <-> l <> id /\ (l, b) ∈ sm_items (allocs_ h)).
Proof.
  intros [Hw Hs Hall Hb] Hid E. unfold heap_deallocate in E.
  destruct (sm_lookup (allocs_ h) id) as [a|] eqn:Ha.
  2: { exfalso. destruct (decide (id.1 = sm_size (allocs_ h))) as [Hz|Hz].
       - unfold sm_remove in E. rewrite Hz, Z.ltb_irrefl in E. unfold sm_size in E.
         by rewrite Nat2Z.id, lookup_ge_None_2 in E.
       - by rewrite sm_remove_dead in E. }
  destruct (sm_remove_ok (allocs_ h) id a Hs Hid Ha) as (m & Em & Hm & Hlk & _ & _). rewrite Em, ok_bind in E. cbv beta iota in E.
  assert (forall l b, (l, b) ∈ sm_items m <-> l <> id /\ (l, b) ∈ sm_items (allocs_ h)) as Hitems.
  { intros l b. rewrite !sm_items_spec. split.
    - intros [Hl Hb']. rewrite Hlk in Hb' by done. case_decide; [done|]. done.
    - intros (Hne & Hl & Hb'). split; [done|]. rewrite Hlk by done. by rewrite decide_False. }
  assert (Forall (alloc_ok w) (sm_values m)) as Hall'.
  { apply Forall_forall. intros b Hin. apply sm_values_items in Hin as (l & Hin). apply Hitems in Hin as [_ Hin].
    rewrite Forall_forall in Hall. apply Hall, sm_values_items. eauto. }
  destruct (allocator_ h) as [|b|] eqn:Eal.
  - injection E as <-. split_and!; [by split|done|done].
  - inv_ok. subst. split_and!; [|done|done]. split; try done. cbn [allocator_].
    unfold bump_deallocate in *. inv_ok. subst. cbn. destruct Hb as (off & []). exists off. by split.
  - injection E as <-. split_and!; [by split|done|done].
Qed.

Lemma deallocate_sound w h id h' c :
  heap_inv w h -> heap_sound w h c -> 0 <= id.1 -> heap_deallocate h id = Ok h' -> heap_sound w h' c.
Proof.
  intros Hi Hsound Hid E e Hc. destruct (deallocate_inv w h id h' Hi Hid E) as (_ & _ & Hitems).
  destruct (Hsound e Hc) as [Hin Hap]. split.
  - intros a A S Ha. apply Hin. apply sm_values_items in Ha as (l & Ha). apply Hitems in Ha as [_ Ha].
    apply sm_values_items. eauto.
  - intros k a A S l b B T Ha Hb. apply Hitems in Ha as [_ Ha]. apply Hitems in Hb as [_ Hb]. by apply Hap.
Qed.

(** ** Histories of a heap *)

(** A heap and a path condition that a sequence of operations leads to;
    [reach_assume] is any step that only strengthens the path condition. *)
Inductive heap_reach (w : Z) : MemHeap -> C -> Prop :=
| reach_init index concrete c : heap_reach w (MemHeap_ctor index concrete) c
| reach_allocate h c size alignment L data kind perms id h' c' :
    heap_reach w h c -> iwf w size -> iwf w alignment -> alignment_ok alignment ->
    (forall e, ival e w alignment L) -> 0 < L < 2 ^ w -> sm_size (allocs_ h) + 1 < no_head ->
    (is_array (op_type data) = true -> op_type data = aty w) ->
    allocate h size alignment data kind perms c = Ok (id, h', c') -> heap_reach w h' c'
| reach_deallocate h c id h' :
    heap_reach w h c -> 0 <= id.1 -> heap_deallocate h id = Ok h' -> heap_reach w h' c
| reach_assume h c c' :
    heap_reach w h c -> (forall e, ctx_sat e c' -> ctx_sat e c) -> heap_reach w h c'.

Lemma heap_init_inv w index concrete : good_width w -> 4 < w -> heap_inv w (MemHeap_ctor index concrete).
Proof.
  intros Hw H4. split; [done|apply sm_empty_inv|constructor|]. by destruct concrete.
Qed.

(** *** Resolving pointers *)

(** [q] is [V] in the allocation [k]. *)
Definition resolved_to (e : Env) (w : Z) (q : Pointer) (k : AllocId) (heap O : Z) : Prop :=
  alloc_ q = k /\ heap_ q = heap /\ ival e w (ptr_offset q) O.

Lemma resolve_items_ok w items value heap c :
  iwf w value -> Forall (fun i => alloc_ok w i.2) items ->
  exists ps c', resolve_items items value heap c = Ok (ps, c') /\ (forall e, ctx_sat e c' <-> ctx_sat e c) /\
    forall e V k a A S, ctx_sat e c -> ival e w value V -> 0 <= V < 2 ^ w -> (k, a) ∈ items ->
      placed e w a A S -> A + S < 2 ^ w -> A <= V < A + S ->
      exists q, q ∈ ps /\ resolved_to e w q k heap (V - A).
Proof.
  intros Hv Hall. revert c. induction Hall as [|[k a] items [Ha Hs] _ IHi]; intros c; cbn [resolve_items].
  { exists [], c. split_and!; [done|done|]. by intros ? ? ? ? ? ? ? ? ? ?%elem_of_nil. }
  cbn [snd] in Ha, Hs. destruct (add_any w _ _ Ha Hs) as (last & -> & Wl & Dl). rewrite ok_bind.
  destruct (icmp_any ULE w _ _ Ha Hv) as (c1 & -> & W1 & D1). rewrite ok_bind.
  destruct (icmp_any ULT w _ _ Hv Wl) as (c2 & -> & W2 & D2). rewrite ok_bind.
  destruct (and_any c1 c2 W1 W2) as (r & -> & Wr & Dr). rewrite ok_bind. pose proof Wr as (Wr1 & Tr & _).
  rewrite (assertion_ok r Wr), ok_bind. destruct (ctx_check_ok c r) as (kind & c' & -> & Hc' & Hu); [done|]. rewrite ok_bind. cbv beta iota.
  destruct (sub_any w value (address_ a) Hv Ha) as (off & Eoff & Woff & Doff). pose proof Woff as (_ & Toff & _).
  destruct (IHi c') as (ps & c'' & Er & Hc'' & Hps).
  assert (exists here, (if decide (kind = UNSAT) then Ok []
    else off ← IntOp_Create simplify OpSub value (address_ a); p ← Pointer_ctor k off heap; Ok [p]) = Ok here /\
    (kind <> UNSAT -> here = [mkPointer k off heap])) as (here & -> & Hhere).
  { case_decide; [by exists []|]. exists [mkPointer k off heap]. rewrite Eoff, ok_bind. unfold Pointer_ctor. rewrite Toff.
    run_ok. done. }
  rewrite ok_bind, Er, ok_bind. cbv beta iota. exists (here ++ ps), c''. split; [done|].
  split; [intros e; by rewrite (Hc'' e), (Hc' e)|].
  intros e V k' a' A S Hsat Pv RV Hin Hp Hf HV. apply elem_of_cons in Hin as [[= -> ->]|Hin].
  - destruct Hp as (PA & PS & RA & RS). exists (mkPointer k off heap). split.
    + apply elem_of_app. left. rewrite Hhere; [by left|]. intros Hk. apply (Hu Hk e Hsat).
      apply (bval_ctor e r _ (Dr e _ _ (D1 e _ _ PA Pv) (D2 e _ _ Pv (Dl e _ _ PA PS)))).
      cbn [sem_icmp]. rewrite !wrap_small by lia. rewrite andb_true_iff, Z.leb_le, Z.ltb_lt. lia.
    + split_and!; try done. by apply Doff.
  - destruct (Hps e V k' a' A S) as (q & Hq & Hr); try done; [by rewrite (Hc' e)|].
    exists q. split; [|done]. apply elem_of_app. by right.
Qed.
End ctx_proofs.

(** *** Validity of pointers *)
Lemma valid_in_any_ok w allocs value width r0 :
  iwf w value -> iwf w width -> iwf 1 r0 -> Forall (alloc_ok w) allocs ->
  exists r, valid_in_any allocs value width r0 = Ok r /\ iwf 1 r /\
    forall e V W b0, ival e w value V -> ival e w width W -> bval e r0 b0 -> 0 <= V < 2 ^ w ->
      (forall a, a ∈ allocs -> exists A S, placed e w a A S) ->
      exists b, bval e r b /\ (b = true <-> b0 = true \/
        exists a A S, a ∈ allocs /\ placed e w a A S /\ A <= V <= wrap w (A + (S - W))).
Proof.
  intros Hv Hw Hr0 Hall. revert r0 Hr0. induction Hall as [|a allocs [Ha Hs] _ IHa]; intros r0 Hr0; cbn [valid_in_any].
  { exists r0. split_and!; [done|apply Hr0..|]. intros e V W b0 _ _ Hb _ _. exists b0. split; [done|].
    split; [auto|]. intros [?|(a & A & S & Hin & _)]; [done|by apply elem_of_nil in Hin]. }
  destruct (sub_any w _ _ Hs Hw) as (room & -> & Wroom & Droom). rewrite ok_bind.
  destruct (add_any w _ _ Ha Wroom) as (last & -> & Wl & Dl). rewrite ok_bind.
  destruct (icmp_any ULE w _ _ Ha Hv) as (c1 & -> & W1 & D1). rewrite ok_bind.
  destruct (icmp_any ULE w _ _ Hv Wl) as (c2 & -> & W2 & D2). rewrite ok_bind.
  destruct (and_any c1 c2 W1 W2) as (both & -> & Wb & Db). rewrite ok_bind.
  destruct (or_any r0 both Hr0 Wb) as (r1 & -> & Wr1 & Dr1). rewrite ok_bind.
  destruct (IHa r1 Wr1) as (r & -> & Wr & Dr). exists r. split_and!; [done|apply Wr..|].
  intros e V W b0 Pv Pw Pb RV Hpl. destruct (Hpl a (list_elem_of_here a allocs)) as (A & S & Hp). pose proof Hp as (PA & PS & RA & RS).
  destruct (Dr e V W _ Pv Pw (Dr1 e _ _ Pb (Db e _ _ (D1 e _ _ PA Pv) (D2 e _ _ Pv (Dl e _ _ PA (Droom e _ _ PS Pw)))))) as (b & Hb & Hiff);
    [done|intros x Hx; apply Hpl; by right|].
  exists b. split; [done|]. rewrite Hiff, orb_true_iff, andb_true_iff. cbn [sem_icmp]. rewrite !Z.leb_le, (wrap_small w A), (wrap_small w V) by lia.
  split.
  - intros [[?|?]|(x & X & SX & Hx & Px & HX)]; [by left|right|right].
    + exists a, A, S. split_and!; [by left|done|lia|lia].
    + exists x, X, SX. split_and!; [by right|done|lia|lia].
  - intros [?|(x & X & SX & [->|Hx]%elem_of_cons & Px & HX)]; [by left; left| |].
    + destruct (placed_unique e w a A S X SX Hp Px) as [<- <-]. left. right. lia.
    + right. by exists x, X, SX.
Qed.

Lemma starts_any_ok w allocs value r0 :
  iwf w value -> iwf 1 r0 -> Forall (alloc_ok w) allocs ->
  exists r, starts_any allocs value r0 = Ok r /\ iwf 1 r /\
    forall e V b0, ival e w value V -> bval e r0 b0 -> 0 <= V < 2 ^ w ->
      (forall a, a ∈ allocs -> exists A S, placed e w a A S) ->
      exists b, bval e r b /\ (b = true <-> b0 = true \/ exists a S, a ∈ allocs /\ placed e w a V S).
Proof.
  intros Hv Hr0 Hall. revert r0 Hr0. induction Hall as [|a allocs [Ha Hs] _ IHa]; intros r0 Hr0; cbn [starts_any].
  { exists r0. split_and!; [done|apply Hr0..|]. intros e V b0 _ Hb _ _. exists b0. split; [done|].
    split; [auto|]. intros [?|(a & S & Hin & _)]; [done|by apply elem_of_nil in Hin]. }
  destruct (icmp_any EQ w _ _ Hv Ha) as (c1 & -> & W1 & D1). rewrite ok_bind.
  destruct (or_any r0 c1 Hr0 W1) as (r1 & -> & Wr1 & Dr1). rewrite ok_bind.
  destruct (IHa r1 Wr1) as (r & -> & Wr & Dr). exists r. split_and!; [done|apply Wr..|].
  intros e V b0 Pv Pb RV Hpl. destruct (Hpl a (list_elem_of_here a allocs)) as (A & S & Hp). pose proof Hp as (PA & PS & RA & RS).
  destruct (Dr e V _ Pv (Dr1 e _ _ Pb (D1 e _ _ Pv PA))) as (b & Hb & Hiff); [done|intros x Hx; apply Hpl; by right|].
  exists b. split; [done|]. rewrite Hiff, orb_true_iff. cbn [sem_icmp]. rewrite Z.eqb_eq, !wrap_small by lia. split.
  - intros [[?| ->]|(x & SX & Hx & Px)]; [by left|right|right].
    + exists a, S. split; [by left|done].
    + exists x, SX. split; [by right|done].
  - intros [?|(x & SX & [->|Hx]%elem_of_cons & Px)]; [by left; left| |right; eauto].
    destruct (placed_unique e w a A S V SX Hp Px) as [<- _]. left. by right.
Qed.

Lemma live_key w h k a :
  heap_inv w h -> 0 <= k.1 -> sm_lookup (allocs_ h) k = Some a ->
  heap_at h k = Ok a /\ check_live h k = Ok true /\ (k.2 =? SIZE_MAX) = false /\ alloc_ok w a.
Proof.
  intros [_ [_ _ Hg] Hall _] Hk Ha. split_and!.
  - by apply live_at.
  - unfold check_live, sm_contains. unfold sm_lookup in Ha. rewrite (proj2 (Z.leb_le 0 k.1)) in Ha by done.
    destruct (entries_ (allocs_ h) !! Z.to_nat k.1) as [en|] eqn:E; [|done]. cbn in Ha.
    apply lookup_lt_Some in E. rewrite (proj2 (Z.ltb_ge _ _)) by (unfold sm_size; lia). cbn. rewrite Ha. done.
  - apply Z.eqb_neq. unfold sm_lookup in Ha. rewrite (proj2 (Z.leb_le 0 k.1)) in Ha by done.
    destruct (entries_ (allocs_ h) !! Z.to_nat k.1) as [en|] eqn:E; [|done]. cbn in Ha.
    rewrite Forall_forall in Hg. apply list_elem_of_lookup_2, Hg in E. apply live_value_Some in Ha as [_ <-].
    unfold SIZE_MAX. lia.
  - rewrite Forall_forall in Hall. apply Hall, sm_values_items. exists k. by apply sm_items_spec.
Qed.

Lemma items_ok w h : heap_inv w h -> Forall (fun i => alloc_ok w i.2) (sm_items (allocs_ h)).
Proof.
  intros [_ _ Hall _]. apply Forall_forall. intros [k a] Hin. rewrite Forall_forall in Hall. apply Hall, sm_values_items. eauto.
Qed.

(** ** The contracts *)
Section contracts.
Context {C : Type} `{!PathContext C}.

Lemma reach_sound w (h : MemHeap) (c : C) :
  good_width w -> 4 < w -> heap_reach w h c -> heap_inv w h /\ heap_sound w h c.
Proof.
  intros Hw H4. induction 1 as [index concrete c|h c size al L data kind perms id h' c' _ [IHi IHs] ? ? ? ? ? ? ? E'|h c id h' _ [IHi IHs] Hid E|h c c' _ [IHi IHs] Hm].
  - split; [by apply heap_init_inv|]. intros e _. split; [intros a A S Hx|intros k a A S l b B T Hx]; by apply elem_of_nil in Hx.
  - by apply (allocate_sound w h size al data kind perms c L id).
  - split; [by apply (deallocate_inv w h id)|]. by apply (deallocate_sound w h id h' c).
  - split; [done|]. intros e He. by apply IHs, Hm.
Qed.

(** C7: Along every history of allocations, deallocations and added assertions,
    in every model of the path condition the live allocations lie inside the
    address space, none contains the null address, and no two of them overlap.
    The alignments have one positive value in every environment. *)
Theorem reachable_heap_apart w (h : MemHeap) (c : C) :
  good_width w -> 4 < w -> heap_reach w h c -> heap_inv w h /\ forall e, ctx_sat e c -> heap_apart e w h.
Proof. apply reach_sound. Qed.


(** C9: [MemHeap::resolve] of an absolute pointer loses no target: whenever, in
    a model of the path condition, the pointer's value lies in a live
    allocation, the result has a pointer to that allocation, and its value is
    the value of the pointer it came from. *)
Theorem resolve_complete w h p (c : C) :
  heap_inv w h -> is_resolved p = false -> heap_ p = index_ h -> iwf w (ptr_offset p) ->
  exists ps c', heap_resolve h p c = Ok (ps, c') /\ (forall e, ctx_sat e c' <-> ctx_sat e c) /\
    forall e V k a A S, ctx_sat e c -> ival e w (ptr_offset p) V -> 0 <= V < 2 ^ w ->
      (k, a) ∈ sm_items (allocs_ h) -> placed e w a A S -> A + S < 2 ^ w -> A <= V < A + S ->
      exists q v, q ∈ ps /\ alloc_ q = k /\ ival e w (ptr_offset q) (V - A) /\
        ptr_value q h = Ok v /\ ival e w v V.
Proof.
  intros Hi Hr Hh Hv. unfold heap_resolve, ptr_value. rewrite Hr. cbn [negb]. rewrite ok_bind.
  destruct (resolve_items_ok w (sm_items (allocs_ h)) (ptr_offset p) (heap_ p) c Hv (items_ok w h Hi)) as (ps & c' & -> & Hc & Hps).
  exists ps, c'. split_and!; try done. intros e V k a A S Hsat Pv RV Hin Hp Hf HV.
  destruct (Hps e V k a A S Hsat Pv RV Hin Hp Hf HV) as (q & Hq & Ek & Eh & Po).
  apply sm_items_spec in Hin as [Hk Hlk]. destruct (live_key w h k a Hi Hk Hlk) as (Hat & _ & Hgen & Ha & _).
  destruct Hp as (PA & _). destruct (add_any w _ _ Ha (ival_iwf e w _ _ Po)) as (v & Ev & Wv & Dv).
  exists q, v. split_and!; try done.
  - unfold is_resolved. rewrite Ek, Hgen. cbn [negb]. rewrite Eh, Hh, Z.eqb_refl, ok_bind, Hat, ok_bind. exact Ev.
  - replace V with (A + (V - A)) by lia. by apply Dv.
Qed.
End contracts.

(** For a resolved pointer into a live allocation at least as large as the
    access, the assertion of [MemHeap::check_valid] is true in exactly the
    models where the whole access lies inside the allocation. *)
Theorem check_valid_resolved w h p k a width :
  heap_inv w h -> alloc_ p = k -> 0 <= k.1 -> sm_lookup (allocs_ h) k = Some a ->
  iwf w (ptr_offset p) -> iwf w width ->
  exists r, check_valid h p width = Ok r /\ forall e O W A S,
    ival e w (ptr_offset p) O -> ival e w width W -> placed e w a A S -> 0 <= O < 2 ^ w -> 0 <= W <= S ->
    (Holds e r <-> O + W <= S).
Proof.
  intros Hi <- Hk Hlk Ho Hw. destruct (live_key w h _ a Hi Hk Hlk) as (Hat & Hlive & Hgen & Ha & Hs).
  unfold check_valid, is_resolved. rewrite Hgen. cbn [negb]. rewrite Hlive, ok_bind, Hat, ok_bind.
  destruct (sub_any w _ _ Hs Hw) as (room & -> & Wroom & Droom). rewrite ok_bind.
  destruct (icmp_any ULE w _ _ Ho Wroom) as (r & -> & Wr & Dr). rewrite ok_bind.
  rewrite (assertion_ok r Wr). exists r. split; [done|].
  intros e O W A S PO PW (PA & PS & RA & RS) RO RW. destruct (bval_ctor e r _ (Dr e _ _ PO (Droom e _ _ PS PW))) as [_ ->].
  cbn [sem_icmp]. rewrite !wrap_small, Z.leb_le by lia. lia.
Qed.

(** When the access is wider than the allocation, [size - width] wraps
    around and [MemHeap::check_valid] accepts the access at offset 0, although
    it runs past the end of the allocation. *)
Theorem check_valid_short_allocation w h p k a width e W A S :
  heap_inv w h -> alloc_ p = k -> 0 <= k.1 -> sm_lookup (allocs_ h) k = Some a ->
  ival e w (ptr_offset p) 0 -> ival e w width W -> placed e w a A S -> S < W < 2 ^ w ->
  exists r, check_valid h p width = Ok r /\ Holds e r /\ S < 0 + W.
Proof.
  intros Hi <- Hk Hlk Po PW (PA & PS & RA & RS) RW. destruct (live_key w h _ a Hi Hk Hlk) as (Hat & Hlive & Hgen & Ha & Hs).
  unfold check_valid, is_resolved. rewrite Hgen. cbn [negb]. rewrite Hlive, ok_bind, Hat, ok_bind.
  destruct (sub_any w _ _ Hs (ival_iwf _ _ _ _ PW)) as (room & -> & Wroom & Droom). rewrite ok_bind.
  destruct (icmp_any ULE w _ _ (ival_iwf _ _ _ _ Po) Wroom) as (r & -> & Wr & Dr). rewrite ok_bind, (assertion_ok r Wr).
  exists r. split_and!; [done| |lia]. destruct (bval_ctor e r _ (Dr e _ _ Po (Droom e _ _ PS PW))) as [_ ->].
  cbn [sem_icmp]. rewrite (wrap_small w 0) by lia. apply Z.leb_le. apply wrap_range. destruct Ha as (_ & _ & [? _]). lia.
Qed.

(** For an absolute pointer, the assertion of [MemHeap::check_valid] is
    true in exactly the models where the pointer is not null and the whole
    access lies inside one live allocation, given that no live allocation is
    smaller than the access. *)
Theorem check_valid_unresolved w h p width :
  heap_inv w h -> is_resolved p = false -> iwf w (ptr_offset p) -> iwf w width ->
  exists r, check_valid h p width = Ok r /\ forall e V W,
    ival e w (ptr_offset p) V -> ival e w width W -> 0 <= V < 2 ^ w -> 0 <= W ->
    (forall a, a ∈ sm_values (allocs_ h) -> exists A S, placed e w a A S /\ W <= S /\ A + S < 2 ^ w) ->
    (Holds e r <-> V <> 0 /\ exists a A S, a ∈ sm_values (allocs_ h) /\ placed e w a A S /\ A <= V /\ V + W <= A + S).
Proof.
  intros Hi Hr Hv Hw. unfold check_valid, ptr_value. rewrite Hr. cbn [negb].
  destruct (bool_const_any false) as (f & -> & Wf & Df). rewrite !ok_bind.
  destruct (valid_in_any_ok w (sm_values (allocs_ h)) _ width f Hv Hw Wf (heap_allocs _ _ Hi)) as (any & -> & Wa & Da). rewrite ok_bind.
  destruct (icmp_zero_any NE w _ Hv) as (nn & -> & Wn & Dn). rewrite ok_bind.
  destruct (and_any nn any Wn Wa) as (r & -> & Wr & Dr). rewrite ok_bind, (assertion_ok r Wr). exists r. split; [done|].
  intros e V W Pv Pw RV RW Hall.
  destruct (Da e V W false Pv Pw (Df e) RV) as (b & Hb & Hiff).
  { intros a Ha. destruct (Hall a Ha) as (A & S & Hp & _). eauto. }
  destruct (bval_ctor e r _ (Dr e _ _ (Dn e _ Pv) Hb)) as [_ ->]. rewrite andb_true_iff, Hiff. cbn [sem_icmp].
  rewrite wrap_small, negb_true_iff, Z.eqb_neq by lia.
  assert (forall a A S, a ∈ sm_values (allocs_ h) -> placed e w a A S -> wrap w (A + (S - W)) = A + S - W) as Hwrap.
  { intros a A S Ha Hp. destruct (Hall a Ha) as (A' & S' & Hp' & ? & ?). destruct (placed_unique _ _ _ _ _ _ _ Hp Hp') as [-> ->].
    destruct Hp' as (_ & _ & ? & ?). rewrite wrap_small by lia. lia. }
  split; (intros [Hn Hx]; split; [done|]).
  - destruct Hx as [?|(a & A & S & Ha & Hp & Hx)]; [done|]. rewrite (Hwrap a) in Hx by done. exists a, A, S. split_and!; try done; lia.
  - destruct Hx as (a & A & S & Ha & Hp & Hx). right. exists a, A, S. rewrite (Hwrap a) by done. split_and!; try done; lia.
Qed.

(** The assertion of [MemHeap::check_starts_allocation] on an absolute
    pointer is true in exactly the models where the pointer is not null and is
    the address of a live allocation. *)
Theorem check_starts_unresolved w h p :
  heap_inv w h -> is_resolved p = false -> iwf w (ptr_offset p) ->
  exists r, check_starts_allocation h p = Ok r /\ forall e V,
    ival e w (ptr_offset p) V -> 0 <= V < 2 ^ w ->
    (forall a, a ∈ sm_values (allocs_ h) -> exists A S, placed e w a A S) ->
    (Holds e r <-> V <> 0 /\ exists a S, a ∈ sm_values (allocs_ h) /\ placed e w a V S).
Proof.
  intros Hi Hr Hv. unfold check_starts_allocation, ptr_value. rewrite Hr. cbn [negb].
  destruct (bool_const_any false) as (f & -> & Wf & Df). rewrite !ok_bind.
  destruct (starts_any_ok w (sm_values (allocs_ h)) _ f Hv Wf (heap_allocs _ _ Hi)) as (any & -> & Wa & Da). rewrite ok_bind.
  destruct (icmp_zero_any NE w _ Hv) as (nn & -> & Wn & Dn). rewrite ok_bind.
  destruct (and_any nn any Wn Wa) as (r & -> & Wr & Dr). rewrite ok_bind, (assertion_ok r Wr). exists r. split; [done|].
  intros e V Pv RV Hall. destruct (Da e V false Pv (Df e) RV Hall) as (b & Hb & Hiff).
  destruct (bval_ctor e r _ (Dr e _ _ (Dn e _ Pv) Hb)) as [_ ->]. rewrite andb_true_iff, Hiff. cbn [sem_icmp].
  rewrite wrap_small, negb_true_iff, Z.eqb_neq by lia. naive_solver.
Qed.
End memheap.

Module memheap_witness.
Import slicer_witness.
#[local] Instance on : Config := {| IMPLICIT_CONSTANT_FOLDING := true |}.

(** A context that records the path condition, numbers its symbols as
    [Context::next_constant] does and has a solver that answers nothing. *)
Definition Recorder : Type := list Operation * Z.
#[local] Instance recorder_ops : PathOps Recorder := {|
  ctx_add c a := Ok (a :: c.1, c.2);
  ctx_check c a := Ok (Unknown, c);
  next_constant c := assert_ (c.2 <? 2 ^ 29) ;; Ok (Numbered c.2, (c.1, c.2 + 1));
  ctx_extract c a := Ok (a, c)
|}.
#[local, refine] Instance recorder : PathContext Recorder := {|
  path_ops := recorder_ops;
  ctx_sat e c := Forall (Holds e) c.1;
  ctx_room c := c.2 < 2 ^ 29
|}.
Proof.
  - intros c a _. eexists. split; [done|]. intros e. cbn [fst]. rewrite Forall_cons. tauto.
  - intros c a _. by eexists _, _.
  - intros c Hc. cbn. rewrite (proj2 (Z.ltb_lt _ _)) by done. by eexists.
  - intros c s c'. cbn. by destruct (c.2 <? _); intros [= <- <-].
  - intros c a Ha. by eexists _, _.
Defined.

Definition k16 (z : Z) : Operation := cint (APInt_of 16 z).
Lemma k16_wf z : iwf 16 (k16 z).
Proof. split_and!; [apply cint_wf; by rewrite APInt_of_width|done|done]. Qed.
Lemma k16_val e z : ival e 16 (k16 z) z.
Proof. destruct (k16_wf z) as (? & ? & ?). by split_and!. Qed.
Lemma k16_align z : isNullValue (APInt_of 16 z) || isPowerOf2 (APInt_of 16 z) = true -> alignment_ok (k16 z).
Proof. intros Hz c r c' a [= <- <-] [= <-]. exact Hz. Qed.

Definition h0 : MemHeap := MemHeap_ctor 0 true.
Definition c0 : Recorder := ([], 0).
Definition alloc16 (h : MemHeap) (c : Recorder) (size : Z) : result (AllocId * MemHeap * Recorder) :=
  allocate h (k16 size) (k16 8) (k16 0) Alloca 3 c.
Definition run (r : result (AllocId * MemHeap * Recorder)) : AllocId * MemHeap * Recorder :=
  match r with Ok r => r | Err _ => ((0, 0), h0, c0) end.

(** Two allocations from the concrete arena. *)
Definition one : AllocId * MemHeap * Recorder := run (alloc16 h0 c0 10).
Definition two : AllocId * MemHeap * Recorder := run (alloc16 one.1.2 one.2 24).
Lemma one_ok : alloc16 h0 c0 10 = Ok one.
Proof. vm_cast_no_check (@eq_refl _ (alloc16 h0 c0 10)). Qed.
Lemma two_ok : alloc16 one.1.2 one.2 24 = Ok two.
Proof. vm_cast_no_check (@eq_refl _ (alloc16 one.1.2 one.2 24)). Qed.
Definition heap2 : MemHeap := two.1.2.
Definition path2 : Recorder := two.2.

Lemma alloc16_reach h c n id h' c' :
  heap_reach 16 h c -> sm_size (allocs_ h) + 1 < no_head -> alloc16 h c n = Ok (id, h', c') -> heap_reach 16 h' c'.
Proof.
  intros Hr Hs E. apply (reach_allocate 16 h c (k16 n) (k16 8) 8 (k16 0) Alloca 3 id h' c'); try done;
    [apply k16_wf..|by apply k16_align|intros e; apply k16_val].
Qed.
Lemma heap2_reach : heap_reach 16 heap2 path2.
Proof.
  unfold heap2, path2. pose proof one_ok as E1. pose proof two_ok as E2.
  apply (alloc16_reach one.1.2 one.2 24 two.1.1); [|vm_decide|by rewrite E2; destruct two as [[]]].
  apply (alloc16_reach h0 c0 10 one.1.1); [apply reach_init|done|by rewrite E1; destruct one as [[]]].
Qed.

Lemma reachable_heap_apart_witness : heap_inv 16 heap2 /\ forall e, ctx_sat e path2 -> heap_apart e 16 heap2.
Proof. apply (reachable_heap_apart 16 heap2 path2); [done|done|apply heap2_reach]. Defined.
Lemma heap2_inv : heap_inv 16 heap2.
Proof. apply (reach_sound 16 heap2 path2); [done|done|apply heap2_reach]. Qed.

(** The path condition can be satisfied: both allocations have an address. *)
Example path2_sat : ctx_sat (const_env false) path2.
Proof. unfold ctx_sat, recorder, Holds. vm_decide. Qed.


Lemma k16_placed e A S d kind perms :
  0 <= A < 2 ^ 16 -> 0 <= S < 2 ^ 16 -> placed e 16 (mkAllocation (k16 A) (k16 S) d kind perms) A S.
Proof. intros ? ?. split; [apply k16_val|split; [apply k16_val|done]]. Qed.
Definition key0 : AllocId := (0, 0).
Definition alloc0 : Allocation := mkAllocation (k16 (half 16)) (k16 10) (k16 0) Alloca 3.
Lemma alloc0_live : sm_lookup (allocs_ heap2) key0 = Some alloc0.
Proof. vm_cast_no_check (@eq_refl _ (Some alloc0)). Qed.
Lemma alloc0_placed e : placed e 16 alloc0 (half 16) 10.
Proof. apply k16_placed; done. Qed.
Lemma alloc0_item : (key0, alloc0) ∈ sm_items (allocs_ heap2).
Proof. apply sm_items_spec. split; [done|apply alloc0_live]. Qed.

Lemma third_byte : 0 <= half 16 + 3 < 2 ^ 16 /\ half 16 + 10 < 2 ^ 16 /\ half 16 <= half 16 + 3 < half 16 + 10.
Proof. done. Qed.
(** The absolute pointer to the third byte of the first allocation, resolved. *)
Lemma resolve_complete_witness :
  exists ps c', heap_resolve heap2 (mkPointer (SIZE_MAX, SIZE_MAX) (k16 (half 16 + 3)) 0) path2 = Ok (ps, c') /\
    exists q v, q ∈ ps /\ alloc_ q = key0 /\ ival (const_env false) 16 (ptr_offset q) (half 16 + 3 - half 16) /\
      ptr_value q heap2 = Ok v /\ ival (const_env false) 16 v (half 16 + 3).
Proof.
  destruct (resolve_complete 16 heap2 (mkPointer (SIZE_MAX, SIZE_MAX) (k16 (half 16 + 3)) 0) path2)
    as (ps & c' & E & _ & Hall); [apply heap2_inv|done|vm_decide|apply k16_wf|].
  exists ps, c'. split; [exact E|]. clear E. destruct third_byte as (R1 & R2 & R3).
  exact (Hall (const_env false) (half 16 + 3) key0 alloc0 (half 16) 10 path2_sat (k16_val _ _) R1 alloc0_item (alloc0_placed _) R2 R3).
Defined.

Definition at_offset (o : Z) : Pointer := mkPointer key0 (k16 o) 0.
Lemma check_valid_resolved_witness :
  exists r, check_valid heap2 (at_offset 6) (k16 4) = Ok r /\ Holds (const_env false) r.
Proof.
  destruct (check_valid_resolved 16 heap2 (at_offset 6) key0 alloc0 (k16 4)) as (r & E & Hr);
    [apply heap2_inv|done|done|apply alloc0_live|apply k16_wf..|].
  exists r. split; [exact E|]. clear E.
  apply (Hr (const_env false) 6 4 (half 16) 10 (k16_val _ _) (k16_val _ _) (alloc0_placed _)); clear; lia.
Defined.

Lemma check_valid_short_allocation_witness :
  exists r, check_valid heap2 (at_offset 0) (k16 16) = Ok r /\ Holds (const_env false) r /\ 10 < 0 + 16.
Proof.
  apply (check_valid_short_allocation 16 heap2 (at_offset 0) key0 alloc0 (k16 16) (const_env false) 16 (half 16) 10);
    [apply heap2_inv|done|done|apply alloc0_live|apply k16_val..|apply alloc0_placed|done].
Defined.

Definition absolute (v : Z) : Pointer := mkPointer (SIZE_MAX, SIZE_MAX) (k16 v) 0.
Lemma heap2_placed e a : a ∈ sm_values (allocs_ heap2) -> exists A S, placed e 16 a A S /\ 4 <= S /\ A + S < 2 ^ 16.
Proof.
  assert (sm_values (allocs_ heap2) = [alloc0; mkAllocation (k16 (half 16 + 24)) (k16 24) (k16 0) Alloca 3]) as ->.
  { vm_cast_no_check (@eq_refl _ (sm_values (allocs_ heap2))). }
  intros [->|[->|[]%elem_of_nil]%elem_of_cons]%elem_of_cons; eexists _, _; (split; [by apply k16_placed|done]).
Qed.
Lemma check_valid_unresolved_witness :
  exists r, check_valid heap2 (absolute (half 16 + 6)) (k16 4) = Ok r /\ Holds (const_env false) r.
Proof.
  destruct (check_valid_unresolved 16 heap2 (absolute (half 16 + 6)) (k16 4)) as (r & E & Hr);
    [apply heap2_inv|done|apply k16_wf..|].
  exists r. split; [exact E|]. clear E. apply (Hr (const_env false) (half 16 + 6) 4 (k16_val _ _) (k16_val _ _)); clear Hr; [done|done|apply heap2_placed|].
  split; [done|]. exists alloc0, (half 16), 10. split; [apply sm_values_items; exists key0; apply alloc0_item|].
  split; [apply alloc0_placed|done].
Defined.

Lemma check_starts_unresolved_witness :
  exists r, check_starts_allocation heap2 (absolute (half 16)) = Ok r /\ Holds (const_env false) r.
Proof.
  destruct (check_starts_unresolved 16 heap2 (absolute (half 16))) as (r & E & Hr); [apply heap2_inv|done|apply k16_wf|].
  exists r. split; [exact E|]. clear E. apply (Hr (const_env false) (half 16) (k16_val _ _)); clear Hr; [done| |].
  - intros a Ha. destruct (heap2_placed (const_env false) a Ha) as (A & S & Hp & _). eauto.
  - split; [done|]. exists alloc0, 10. split; [apply sm_values_items; exists key0; apply alloc0_item|apply alloc0_placed].
Defined.
End memheap_witness.
