(* ===== verification/UnionFind.v ===== *)
(** Disjoint sets: [caffeine::UnionFind] (include/caffeine/ADT/UnionFind.h).

    The parents are a vector; a root is its own parent.  [find] walks to the
    root, [update] does so while halving the path, [do_union] hangs one root
    below the other.  [std::vector::at] throws outside the vector. *)
From S2P Require Import Prelude.
Open Scope Z_scope.

Definition uf_size (u : list Z) : Z := Z.of_nat (length u).
Definition make_set (u : list Z) : Z * list Z := (uf_size u, u ++ [uf_size u]).
Definition uf_parent (u : list Z) (query : Z) : result Z := of_option Thrown (u !! Z.to_nat query).

(** The loops of [find] and [update]; a path visits no element twice, so as
    many rounds as there are elements are enough. *)
Fixpoint find_loop (fuel : nat) (u : list Z) (current : Z) : result Z :=
  match fuel with
  | O => Err OutOfFuel
  | S n => p ← uf_parent u current; if current =? p then Ok current else find_loop n u p
  end.
Definition uf_find (u : list Z) (current : Z) : result Z := find_loop (S (length u)) u current.

Fixpoint update_loop (fuel : nat) (u : list Z) (current : Z) : result (Z * list Z) :=
  match fuel with
  | O => Err OutOfFuel
  | S n =>
      p ← uf_parent u current;
      if current =? p then Ok (current, u)
      else gp ← uf_parent u p; update_loop n (<[Z.to_nat current := gp]> u) gp
  end.
Definition update (u : list Z) (current : Z) : result (Z * list Z) := update_loop (S (length u)) u current.

Definition do_union (u : list Z) (root1 root2 : Z) : result (Z * list Z) :=
  _ ← uf_parent u root2; Ok (root1, <[Z.to_nat root2 := root1]> u).

(** ** Paths to the root *)

(** [r] is reached from [i] in [n] steps. *)
Inductive chain (u : list Z) : nat -> Z -> Z -> Prop :=
| chain_root i : 0 <= i -> u !! Z.to_nat i = Some i -> chain u 0 i i
| chain_step n i j r : 0 <= i -> u !! Z.to_nat i = Some j -> j <> i -> chain u n j r -> chain u (S n) i r.

Definition uf_inv (u : list Z) : Prop := forall i, 0 <= i < uf_size u -> exists n r, chain u n i r.

(** The representative of an element. *)
Definition rep (u : list Z) (i : Z) : Z := match uf_find u i with Ok r => r | Err _ => i end.

Lemma chain_range u n i r : chain u n i r -> 0 <= i < uf_size u.
Proof. intros Hc. assert (exists j, u !! Z.to_nat i = Some j) as [j Hj%lookup_lt_Some] by (destruct Hc; eauto). unfold uf_size. destruct Hc; lia. Qed.

Lemma chain_det u n i r n' r' : chain u n i r -> chain u n' i r' -> n = n' /\ r = r'.
Proof.
  intros Hc. revert n' r'. induction Hc as [i Hi0 Hi|n i j r Hi0 Hi Hne _ IH]; intros n' r' Hc'.
  - inversion Hc'; subst; [done|congruence].
  - inversion Hc' as [|m ? j' ? ? Hj' ? Hm]; subst; [congruence|]. rewrite Hi in Hj'. injection Hj' as <-.
    destruct (IH _ _ Hm) as [-> ->]. done.
Qed.

Lemma chain_root_of u n i r : chain u n i r -> 0 <= r /\ u !! Z.to_nat r = Some r.
Proof. by induction 1. Qed.

(** A path has fewer steps than there are elements: its elements have
    different distances from the root. *)
Lemma chain_length u n i r : chain u n i r -> (n < length u)%nat.
Proof.
  intros Hc.
  assert (exists l, length l = S n /\ NoDup l /\ forall x, x ∈ l -> exists m, (m <= n)%nat /\ chain u m x r) as (l & Hl & Hnd & Hin).
  { induction Hc as [i Hi0 Hi|n i j r Hi0 Hi Hne Hc IH].
    - exists [i]. split_and!; [done|apply NoDup_singleton|]. intros x ->%list_elem_of_singleton. exists 0%nat. split; [done|by constructor].
    - destruct IH as (l & Hl & Hnd & Hin). exists (i :: l). split_and!; [cbn; lia| |].
      + constructor; [|done]. intros (m & Hm & Hcm)%Hin. destruct (chain_det u m i r (S n) r Hcm); [by econstructor|lia].
      + intros x [->|Hx]%elem_of_cons; [exists (S n); split; [done|by econstructor]|].
        destruct (Hin x Hx) as (m & Hm & Hcm). exists m. split; [lia|done]. }
  assert (l ⊆+ (Z.of_nat <$> seq 0 (length u))) as Hsub.
  { apply NoDup_submseteq; [done|]. intros x (m & _ & Hm%chain_range)%Hin. apply list_elem_of_fmap.
    exists (Z.to_nat x). unfold uf_size in Hm. split; [lia|]. apply elem_of_seq. lia. }
  apply submseteq_length in Hsub. rewrite length_fmap, length_seq in Hsub. lia.
Qed.

Lemma find_loop_ok u n i r fuel : chain u n i r -> (n < fuel)%nat -> find_loop fuel u i = Ok r.
Proof.
  intros Hc. revert fuel. induction Hc as [i _ Hi|n i j r _ Hi Hne _ IH]; intros [|fuel] Hf; try lia;
    cbn [find_loop]; unfold uf_parent; rewrite Hi; cbn [of_option]; rewrite ok_bind.
  - by rewrite Z.eqb_refl.
  - rewrite (proj2 (Z.eqb_neq i j)) by done. apply IH. lia.
Qed.

Lemma find_chain u n i r : chain u n i r -> uf_find u i = Ok r.
Proof. intros Hc. apply (find_loop_ok u n); [done|]. apply chain_length in Hc. lia. Qed.
Lemma rep_chain u n i r : chain u n i r -> rep u i = r.
Proof. intros Hc. unfold rep. by rewrite (find_chain u n i r Hc). Qed.

Lemma rep_spec u i : uf_inv u -> 0 <= i < uf_size u -> exists n, chain u n i (rep u i).
Proof. intros Hu Hi. destruct (Hu i Hi) as (n & r & Hc). exists n. by rewrite (rep_chain u n i r Hc). Qed.
Lemma find_rep u i : uf_inv u -> 0 <= i < uf_size u -> uf_find u i = Ok (rep u i).
Proof. intros Hu Hi. destruct (rep_spec u i Hu Hi) as [n Hc]. by apply (find_chain u n). Qed.
Lemma rep_range u i : uf_inv u -> 0 <= i < uf_size u -> 0 <= rep u i < uf_size u.
Proof.
  intros Hu Hi. destruct (rep_spec u i Hu Hi) as [n Hc]. apply chain_root_of in Hc as [Hr Hl].
  apply (chain_range u 0 _ (rep u i)). by constructor.
Qed.
Lemma rep_rep u i : uf_inv u -> 0 <= i < uf_size u -> rep u (rep u i) = rep u i.
Proof.
  intros Hu Hi. destruct (rep_spec u i Hu Hi) as [n Hc]. apply chain_root_of in Hc as [Hr Hl].
  apply (rep_chain u 0). by constructor.
Qed.
Lemma root_rep u i : 0 <= i -> u !! Z.to_nat i = Some i -> rep u i = i.
Proof. intros. apply (rep_chain u 0). by constructor. Qed.
Lemma rep_root u i : uf_inv u -> 0 <= i < uf_size u -> rep u i = i -> u !! Z.to_nat i = Some i.
Proof. intros Hu Hi E. destruct (rep_spec u i Hu Hi) as [n Hc]. apply chain_root_of in Hc as [_ Hc]. by rewrite E in Hc. Qed.

(** *** Halving a path *)
Lemma insert_at (u : list Z) i x k :
  0 <= i < uf_size u -> 0 <= k -> <[Z.to_nat i := x]> u !! Z.to_nat k = if decide (k = i) then Some x else u !! Z.to_nat k.
Proof.
  intros Hi Hk. unfold uf_size in Hi. case_decide as E.
  - subst. rewrite list_lookup_insert_eq; [done|lia].
  - rewrite list_lookup_insert_ne; [done|]. intros ?. apply E. lia.
Qed.

Lemma halve_chain u i j g n r :
  chain u (S n) i r -> u !! Z.to_nat i = Some j -> u !! Z.to_nat j = Some g ->
  forall m k s, chain u m k s -> exists m', (m' <= m)%nat /\ chain (<[Z.to_nat i := g]> u) m' k s.
Proof.
  intros Hi Hj Hg. pose proof (chain_range _ _ _ _ Hi) as Hir.
  assert (chain u n j r /\ j <> i) as [Hcj Hji].
  { inversion Hi as [|? ? j' ? ? Hj' ? Hc]; subst. rewrite Hj in Hj'. by injection Hj' as <-. }
  pose proof (chain_range _ _ _ _ Hcj) as Hjr.
  assert (g <> i) as Hgi.
  { intros ->. inversion Hcj as [|m ? g' ? ? Hg' ? Hc]; subst; [congruence|].
    rewrite Hg in Hg'. injection Hg' as <-. destruct (chain_det _ _ _ _ _ _ Hi Hc). lia. }
  induction 1 as [k Hk0 Hk|m k l s Hk0 Hk Hkl Hc IH].
  - exists 0%nat. split; [done|]. constructor; [done|]. rewrite insert_at by done. case_decide; [congruence|done].
  - destruct IH as (m' & Hm' & Hc'). destruct (decide (k = i)) as [->|Hki].
    2: { exists (S m'). split; [lia|]. apply (chain_step _ m' k l); [done|by rewrite insert_at, decide_False by done|done|done]. }
    rewrite Hj in Hk. injection Hk as <-. inversion Hc' as [? ? Hl|m'' ? g' ? ? Hl ? Hc'']; subst.
    + rewrite insert_at, decide_False in Hl by done. rewrite Hg in Hl. injection Hl as ->. exists 1%nat. split; [lia|].
      apply (chain_step _ 0 i s); [done|by rewrite insert_at, decide_True by done|done|done].
    + rewrite insert_at, decide_False in Hl by done. rewrite Hg in Hl. injection Hl as <-. exists (S m''). split; [lia|].
      apply (chain_step _ m'' i g); [done|by rewrite insert_at, decide_True by done|done|done].
Qed.

Lemma update_loop_ok fuel u n i r :
  uf_inv u -> chain u n i r -> (n < fuel)%nat ->
  exists u', update_loop fuel u i = Ok (r, u') /\ uf_inv u' /\ length u' = length u /\
    forall k, 0 <= k < uf_size u -> rep u' k = rep u k.
Proof.
  revert u n i. induction fuel as [|fuel IH]; intros u n i Hu Hc Hf; [lia|]. cbn [update_loop].
  inversion Hc as [? ? Hi|m ? j ? ? Hi Hne Hcj]; subst; unfold uf_parent; rewrite Hi; cbn [of_option]; rewrite ok_bind.
  { rewrite Z.eqb_refl. exists u. done. }
  rewrite (proj2 (Z.eqb_neq i j)) by done.
  assert (exists g, u !! Z.to_nat j = Some g) as [g Hg] by (inversion Hcj; eauto).
  rewrite Hg. cbn [of_option]. rewrite ok_bind.
  pose proof (halve_chain u i j g m r Hc Hi Hg) as Hh. set (u1 := <[Z.to_nat i := g]> u) in *.
  assert (length u1 = length u) as Hlen by apply length_insert.
  assert (uf_inv u1) as Hu1.
  { intros k Hk. unfold uf_size in Hk. rewrite Hlen in Hk. destruct (Hu k Hk) as (a & s & Hs).
    destruct (Hh a k s Hs) as (a' & _ & Ha'). eauto. }
  assert (exists m', (m' < fuel)%nat /\ chain u1 m' g r) as (m' & Hm' & Hcg).
  { inversion Hcj as [? ? Hj|b ? g' ? ? Hj ? Hcg]; subst; rewrite Hg in Hj; injection Hj as ->.
    - destruct (Hh 0%nat r r Hcj) as (m' & ? & ?). exists m'. split; [lia|done].
    - destruct (Hh b g' r Hcg) as (m' & ? & ?). exists m'. split; [lia|done]. }
  destruct (IH u1 m' g Hu1 Hcg Hm') as (u' & -> & Hu' & Hlen' & Hrep). exists u'. split_and!; [done|done|congruence|].
  intros k Hk. rewrite Hrep by (unfold uf_size in *; lia). destruct (Hu k Hk) as (a & s & Hs).
  destruct (Hh a k s Hs) as (a' & _ & Ha'). by rewrite (rep_chain _ _ _ _ Hs), (rep_chain _ _ _ _ Ha').
Qed.

Lemma update_ok u i :
  uf_inv u -> 0 <= i < uf_size u ->
  exists u', update u i = Ok (rep u i, u') /\ uf_inv u' /\ length u' = length u /\
    forall k, 0 <= k < uf_size u -> rep u' k = rep u k.
Proof.
  intros Hu Hi. destruct (rep_spec u i Hu Hi) as [n Hc]. apply (update_loop_ok _ u n); try done.
  apply chain_length in Hc. lia.
Qed.

(** *** Joining two sets *)
Lemma do_union_ok u r1 r2 :
  uf_inv u -> 0 <= r1 < uf_size u -> 0 <= r2 < uf_size u -> rep u r1 = r1 -> rep u r2 = r2 -> r1 <> r2 ->
  exists u', do_union u r1 r2 = Ok (r1, u') /\ uf_inv u' /\ length u' = length u /\
    forall k, 0 <= k < uf_size u -> rep u' k = if decide (rep u k = r2) then r1 else rep u k.
Proof.
  intros Hu R1 R2 E1 E2 Hne. apply rep_root in E1 as L1; [|done..]. apply rep_root in E2 as L2; [|done..].
  unfold do_union, uf_parent. rewrite L2. cbn [of_option]. rewrite ok_bind. eexists. split; [done|].
  set (u' := <[Z.to_nat r2 := r1]> u).
  assert (forall n k s, chain u n k s -> exists n', chain u' n' k (if decide (s = r2) then r1 else s)) as Hch.
  { induction 1 as [k Hk0 Hk|n k l s Hk0 Hk Hkl Hc [n' IH]].
    - case_decide as Hd; [subst k|exists 0%nat; constructor; [done|unfold u'; by rewrite insert_at, decide_False by done]].
      exists 1%nat. apply (chain_step _ 0 r2 r1); [done|unfold u'; by rewrite insert_at, decide_True by done|done|].
      constructor; [lia|]. unfold u'. by rewrite insert_at, decide_False by (done || lia).
    - exists (S n'). apply (chain_step _ n' k l); [done| |done|done]. unfold u'. rewrite insert_at by done.
      destruct (decide (k = r2)) as [->|]; [congruence|done]. }
  assert (length u' = length u) as Hlen by apply length_insert. split_and!; [|done|].
  - intros k Hk. unfold uf_size in Hk. rewrite Hlen in Hk. destruct (Hu k Hk) as (n & s & Hs). destruct (Hch n k s Hs). eauto.
  - intros k Hk. destruct (rep_spec u k Hu Hk) as [n Hs]. destruct (Hch n k _ Hs) as [n' Hs']. by apply (rep_chain u' n').
Qed.

Lemma make_set_ok u :
  uf_inv u -> exists u', make_set u = (uf_size u, u') /\ uf_inv u' /\ uf_size u' = uf_size u + 1 /\
    rep u' (uf_size u) = uf_size u /\ forall k, 0 <= k < uf_size u -> rep u' k = rep u k.
Proof.
  intros Hu. unfold make_set. eexists. split; [done|]. set (u' := u ++ [uf_size u]).
  assert (forall n k s, chain u n k s -> chain u' n k s) as Hch.
  { induction 1; [constructor; [done|]|eapply chain_step; eauto]; by apply lookup_app_l_Some. }
  assert (u' !! Z.to_nat (uf_size u) = Some (uf_size u)) as Hnew.
  { unfold u', uf_size. rewrite Nat2Z.id. by apply list_lookup_middle. }
  assert (0 <= uf_size u) by (unfold uf_size; lia).
  assert (uf_size u' = uf_size u + 1) as Hs by (unfold u', uf_size; rewrite length_app; cbn; lia).
  split_and!; [|done|by apply root_rep|].
  - intros k Hk. destruct (decide (k = uf_size u)) as [->|Hne]; [exists 0%nat, (uf_size u); by constructor|].
    destruct (Hu k) as (n & s & Hc); [lia|eauto].
  - intros k Hk. destruct (rep_spec u k Hu Hk) as [n Hc]. by apply (rep_chain u' n), Hch.
Qed.

(** ** The contract *)

(** C35: The union-find structure implements a partition of the elements:
    [find] and [update] return the same representative and path halving
    changes no representative; [do_union] of two roots moves exactly the
    second root's set into the first's; a new set is a singleton and leaves
    the others alone.  No operation runs out of its loop bound. *)
Theorem union_find_correct u :
  uf_inv u ->
  (forall i, 0 <= i < uf_size u -> exists u', uf_find u i = Ok (rep u i) /\ update u i = Ok (rep u i, u') /\
     uf_inv u' /\ uf_size u' = uf_size u /\ forall k, 0 <= k < uf_size u -> rep u' k = rep u k) /\
  (forall r1 r2, 0 <= r1 < uf_size u -> 0 <= r2 < uf_size u -> rep u r1 = r1 -> rep u r2 = r2 -> r1 <> r2 ->
     exists u', do_union u r1 r2 = Ok (r1, u') /\ uf_inv u' /\
     forall j k, 0 <= j < uf_size u -> 0 <= k < uf_size u ->
       (rep u' j = rep u' k <-> rep u j = rep u k \/ (rep u j = r1 /\ rep u k = r2) \/ (rep u j = r2 /\ rep u k = r1))) /\
  (exists u', make_set u = (uf_size u, u') /\ uf_inv u' /\
     forall j k, 0 <= j < uf_size u' -> 0 <= k < uf_size u' ->
       (rep u' j = rep u' k <-> j = k \/ (j < uf_size u /\ k < uf_size u /\ rep u j = rep u k))).
Proof.
  intros Hu. split_and!.
  - intros i Hi. destruct (update_ok u i Hu Hi) as (u' & E & Hu' & Hl & Hr). exists u'.
    split_and!; [by apply find_rep|done|done|unfold uf_size; lia|done].
  - intros r1 r2 R1 R2 E1 E2 Hne. destruct (do_union_ok u r1 r2) as (u' & E & Hu' & _ & Hr); try done.
    exists u'. split_and!; [done|done|]. intros j k Hj Hk. rewrite !Hr by done.
    repeat case_decide; naive_solver congruence.
  - destruct (make_set_ok u Hu) as (u' & E & Hu' & Hs & Hn & Hr). exists u'. split_and!; [done|done|].
    assert (forall i, 0 <= i < uf_size u' -> i = uf_size u \/ (0 <= i < uf_size u /\ 0 <= rep u i < uf_size u)) as Hcase.
    { intros i Hi. destruct (decide (i = uf_size u)); [by left|right]. split; [lia|apply rep_range; [done|lia]]. }
    intros j k Hj Hk. destruct (Hcase j Hj) as [->|[Hj' Rj]], (Hcase k Hk) as [->|[Hk' Rk]];
      rewrite ?Hn, ?Hr by done; split; intros HH; naive_solver lia.
Qed.

Module unionfind_witness.
Lemma three : uf_inv [0; 0; 1].
Proof.
  intros i Hi. unfold uf_size in Hi. cbn in Hi. exists (Z.to_nat i), 0.
  assert (chain [0; 0; 1] 0 0 0) as C0 by by constructor.
  assert (chain [0; 0; 1] 1 1 0) as C1 by by eapply chain_step.
  assert (i = 0 \/ i = 1 \/ i = 2) as [->|[->| ->]] by lia; [done|done|by eapply chain_step].
Qed.
Lemma union_find_correct_witness :
  exists u', uf_find [0; 0; 1] 2 = Ok 0 /\ update [0; 0; 1] 2 = Ok (0, u') /\ uf_size u' = 3.
Proof.
  destruct (union_find_correct [0; 0; 1] three) as [Hf _]. destruct (Hf 2) as (u' & E1 & E2 & _ & Hs & _); [done|].
  exists u'. split_and!; done.
Defined.
End unionfind_witness.
