(* ===== verification/EGraph.v ===== *)
(** The e-graph: [caffeine::ENode], [caffeine::EClass] and [caffeine::EGraph]
    (include/caffeine/IR/EGraph.h, src/IR/EGraph.cpp).

    An e-graph keeps equivalence classes of expression nodes whose operands are
    class ids.  [add] hash-conses, [merge] joins two classes, [rebuild]
    restores congruence by repairing the classes on the worklist.  The
    [tsl::hopscotch_map]s are association lists; the order in which one is
    iterated is the parameter [map_order].  The data of a node is shared
    between nodes, and comparing two data pointers is the parameter
    [data_ptr_eq]; nodes without data are never built by the code and are not
    part of the model. *)
From S2P Require Import Prelude LLVM IRType Value Opcode Operation Matching Create.
From S2P Require Import Simplifier UnionFind.
Open Scope Z_scope.

(** ** Hash maps *)
Class MapOrder := {
  map_order : forall {A}, list A -> list A;
  map_order_perm : forall A (l : list A), map_order l ≡ₚ l
}.
#[export, refine] Instance insertion_map_order : MapOrder := {| map_order A l := l |}.
Proof. done. Defined.

Section hashmap.
Context {K V : Type} (eqb : K -> K -> bool).

Definition hm_find (m : list (K * V)) (k : K) : option V :=
  snd <$> head (filter (fun p => eqb p.1 k = true) m).
(** [emplace] keeps an entry that is there, [insert_or_assign] replaces it. *)
Definition hm_emplace (m : list (K * V)) (k : K) (v : V) : list (K * V) :=
  match hm_find m k with Some _ => m | None => m ++ [(k, v)] end.
Definition hm_assign (m : list (K * V)) (k : K) (v : V) : list (K * V) :=
  match hm_find m k with
  | Some _ => (fun p => if eqb p.1 k then (p.1, v) else p) <$> m
  | None => m ++ [(k, v)]
  end.
Definition hm_erase (m : list (K * V)) (k : K) : list (K * V) := filter (fun p => eqb p.1 k = false) m.
End hashmap.

Class DataPtrEq `{APFloatAPI} := {
  data_ptr_eq : OperationData -> OperationData -> bool;
  data_ptr_eq_sound : forall a b, data_ptr_eq a b = true -> a = b
}.
#[export, refine] Instance shared_data `{APFloatAPI} : DataPtrEq := {| data_ptr_eq a b := bool_decide (a = b) |}.
Proof. intros a b. apply bool_decide_eq_true. Defined.

Section egraph.
Context `{PtrEq} `{!DataPtrEq} `{MapOrder}.

(** ** Nodes and classes *)
Record ENode : Type := mkNode { en_data : OperationData; en_operands : list Z }.
#[export] Instance ENode_eq_dec : EqDecision ENode.
Proof. solve_decision. Defined.

Definition enode_eqb (a b : ENode) : bool :=
  if negb (bool_decide (en_operands a = en_operands b)) then false
  else if data_ptr_eq (en_data a) (en_data b) then true
  else data_eqb (en_data a) (en_data b).
Definition enode_is_constant (n : ENode) : bool :=
  match od_opcode (en_data n) with OpConstantInt | OpConstantFloat => true | _ => false end.

(** [EClassCache]: the extracted expression and the (cost, index) of the
    cheapest node. *)
Record EClassCache : Type := mkCache { cache_expr : option Operation; cache_cost : option (Z * Z) }.
Definition no_cache : EClassCache := mkCache None None.

Record EClass : Type := mkClass {
  nodes : list ENode;
  parents : list (ENode * Z);
  cache : EClassCache;
  constant_index : option nat
}.
Definition EClass_ctor (ns : list ENode) : EClass :=
  mkClass ns [] no_cache (fst <$> list_find (fun n => enode_is_constant n = true) ns).
Definition eclass_is_constant (c : EClass) : bool := bool_decide (is_Some (constant_index c)).
(** [nodes.front()] of an empty class is undefined. *)
Definition eclass_type (c : EClass) : result Ty :=
  n ← of_option UndefinedBehaviour (head (nodes c)); Ok (od_type (en_data n)).

Definition eclass_merge (this eclass : EClass) : result EClass :=
  t1 ← eclass_type this; t2 ← eclass_type eclass; assert_ (ty_eqb t1 t2) ;;
  let start := length (nodes this) in
  let nodes' := nodes this ++ nodes eclass in
  let parents' := foldl (fun m p => hm_emplace enode_eqb m p.1 p.2) (parents this) (map_order (parents eclass)) in
  Ok match constant_index eclass with
     | Some i =>
         match constant_index this with
         | None => mkClass nodes' parents' (cache eclass) (Some (start + i)%nat)
         | Some j => mkClass nodes' parents' (cache this) (Some j)
         end
     | None =>
         mkClass nodes' parents'
           match cache_cost (cache this), cache_cost (cache eclass) with
           | Some c1, Some _ =>
               (* both costs are read from [this] *)
               let '(cost1, index1) := c1 in let '(cost2, index2) := c1 in
               if cost1 <? cost2 then mkCache (cache_expr (cache this)) (Some (cost1, index1))
               else mkCache (cache_expr (cache eclass)) (Some (cost2, index2))
           | _, _ => no_cache
           end (constant_index this)
     end.

(** ** The graph *)
Record EGraph : Type := mkGraph {
  union_find : list Z;
  hashcons : list (ENode * Z);
  classes : gmap Z EClass;
  updated : gset Z;
  worklist : list Z
}.
Definition eg_empty : EGraph := mkGraph [] [] ∅ ∅ [].
Definition set_union_find (g : EGraph) (u : list Z) : EGraph := mkGraph u (hashcons g) (classes g) (updated g) (worklist g).
Definition set_hashcons (g : EGraph) (m : list (ENode * Z)) : EGraph := mkGraph (union_find g) m (classes g) (updated g) (worklist g).
Definition set_classes (g : EGraph) (cs : gmap Z EClass) : EGraph := mkGraph (union_find g) (hashcons g) cs (updated g) (worklist g).
Definition set_worklist (g : EGraph) (w : list Z) : EGraph := mkGraph (union_find g) (hashcons g) (classes g) (updated g) w.
(** [worklist.push_back(id); updated.insert(id)]. *)
Definition touch (g : EGraph) (id : Z) : EGraph :=
  mkGraph (union_find g) (hashcons g) (classes g) ({[id]} ∪ updated g) (worklist g ++ [id]).
Definition mark_updated (g : EGraph) (id : Z) : EGraph :=
  mkGraph (union_find g) (hashcons g) (classes g) ({[id]} ∪ updated g) (worklist g).

(** [find]: the const one walks, the other one halves paths. *)
Definition eg_find_const (g : EGraph) (id : Z) : result Z := uf_find (union_find g) id.
Definition eg_find (g : EGraph) (id : Z) : result (Z * EGraph) :=
  '(r, u) ← update (union_find g) id; Ok (r, set_union_find g u).
Definition eg_at (g : EGraph) (id : Z) : result EClass := of_option Thrown (classes g !! id).
Definition eg_get_const (g : EGraph) (id : Z) : result (option EClass) :=
  r ← eg_find_const g id; Ok (classes g !! r).
Definition eg_get (g : EGraph) (id : Z) : result (option (Z * EClass) * EGraph) :=
  '(r, g) ← eg_find g id; Ok ((fun c => (r, c)) <$> classes g !! r, g).

Definition eg_merge (g : EGraph) (id1 id2 : Z) : result (Z * EGraph) :=
  '(id1, g) ← eg_find g id1; '(id2, g) ← eg_find g id2;
  if id1 =? id2 then Ok (id1, g)
  else
    '(new_id, u) ← do_union (union_find g) id1 id2; let g := set_union_find g u in
    c1 ← eg_at g new_id; c2 ← eg_at g id2; c ← eclass_merge c1 c2;
    Ok (new_id, touch (set_classes g (delete id2 (<[new_id := c]> (classes g)))) new_id).

Fixpoint find_all (g : EGraph) (ids : list Z) : result (list Z * EGraph) :=
  match ids with
  | [] => Ok ([], g)
  | i :: ids => '(r, g) ← eg_find g i; '(rs, g) ← find_all g ids; Ok (r :: rs, g)
  end.
Definition canonicalize_node (g : EGraph) (node : ENode) : result (ENode * EGraph) :=
  '(operands, g) ← find_all g (en_operands node); Ok (mkNode (en_data node) operands, g).

Definition create_eclass (g : EGraph) (node : ENode) : Z * EGraph :=
  let '(id, u) := make_set (union_find g) in
  (id, mkGraph u (hm_emplace enode_eqb (hashcons g) node id)
         (match classes g !! id with Some _ => classes g | None => <[id := EClass_ctor [node]]> (classes g) end)
         (updated g) (worklist g ++ [id])).

(** [classes.at(child).parents.emplace(canonical, eclass_id)]. *)
Fixpoint add_parent (g : EGraph) (children : list Z) (canonical : ENode) (eclass_id : Z) : result EGraph :=
  match children with
  | [] => Ok g
  | child :: children =>
      c ← eg_at g child;
      add_parent (set_classes g (<[child := mkClass (nodes c) (hm_emplace enode_eqb (parents c) canonical eclass_id)
                                              (cache c) (constant_index c)]> (classes g))) children canonical eclass_id
  end.
Definition eg_add (g : EGraph) (node : ENode) : result (Z * EGraph) :=
  '(canonical, g) ← canonicalize_node g node;
  match hm_find enode_eqb (hashcons g) canonical with
  | Some id => Ok (id, g)
  | None =>
      let '(eclass_id, g) := create_eclass g canonical in
      g ← add_parent g (en_operands canonical) canonical eclass_id;
      Ok (eclass_id, mark_updated (set_hashcons g (hm_emplace enode_eqb (hashcons g) canonical eclass_id)) eclass_id)
  end.

(** [add(const Operation&)]: operands first; a node of the graph is its id. *)
Definition egraph_id (d : OperationData) : option Z :=
  match od_opcode d, od_payload d with OpEGraphNode, PEGraph id => Some id | _, _ => None end.
Definition add_list (add : Operation -> EGraph -> result (Z * EGraph)) : list Operation -> EGraph -> result (list Z * EGraph) :=
  fix go l g :=
    match l with
    | [] => Ok ([], g)
    | x :: l => '(i, g) ← add x g; '(ids, g) ← go l g; Ok (i :: ids, g)
    end.
Fixpoint eg_add_op (op : Operation) (g : EGraph) : result (Z * EGraph) :=
  let 'mkOp d l := op in
  match egraph_id d with
  | Some id => Ok (id, g)
  | None => '(operands, g) ← add_list eg_add_op l g; eg_add g (mkNode d operands)
  end.

Definition add_merge (g : EGraph) (eclass_id : Z) (node : ENode) : result (Z * EGraph) :=
  match hm_find enode_eqb (hashcons g) node with
  | Some other => eg_merge g eclass_id other
  | None =>
      let g := set_hashcons g (hm_emplace enode_eqb (hashcons g) node eclass_id) in
      c ← eg_at g eclass_id; c ← eclass_merge c (EClass_ctor [node]);
      Ok (eclass_id, touch (set_classes g (<[eclass_id := c]> (classes g))) eclass_id)
  end.
Definition eg_classof (g : EGraph) (node : ENode) : result (option Z) :=
  match hm_find enode_eqb (hashcons g) node with
  | None => Ok None
  | Some id => r ← eg_find_const g id; Ok (Some r)
  end.

(** ** Rebuilding *)

(** [get(operand)->parents.erase(node)] for the operands of a node. *)
Fixpoint unparent_operands (g : EGraph) (operands : list Z) (node : ENode) : result EGraph :=
  match operands with
  | [] => Ok g
  | i :: operands =>
      '(c, g) ← eg_get g i; '(r, c) ← of_option UndefinedBehaviour c;
      unparent_operands (set_classes g (<[r := mkClass (nodes c) (hm_erase enode_eqb (parents c) node)
                                               (cache c) (constant_index c)]> (classes g))) operands node
  end.
Fixpoint unparent_nodes (g : EGraph) (ns : list ENode) : result EGraph :=
  match ns with
  | [] => Ok g
  | n :: ns => g ← unparent_operands g (en_operands n) n; unparent_nodes g ns
  end.
Definition unparent (g : EGraph) (eclass_id : Z) : result EGraph :=
  c ← eg_at g eclass_id;
  i ← of_option AssertFailed (constant_index c);
  if (length (nodes c) =? 1)%nat then Ok g
  else
    g ← unparent_nodes g (nodes c); c ← eg_at g eclass_id;
    n ← of_option UndefinedBehaviour (nodes c !! i);
    Ok (set_classes g (<[eclass_id := mkClass [n] (parents c) (cache c) (Some 0%nat)]> (classes g))).

(** The first loop of [repair]: the parents get their canonical entry in the
    hash-cons table. *)
Fixpoint repair_hashcons (g : EGraph) (ps : list (ENode * Z)) : result EGraph :=
  match ps with
  | [] => Ok g
  | (p_node, p_eclass) :: ps =>
      '(canonical, g) ← canonicalize_node g p_node;
      let g := set_hashcons g (hm_erase enode_eqb (hashcons g) p_node) in
      '(r, g) ← eg_find g p_eclass;
      repair_hashcons (set_hashcons g (hm_assign enode_eqb (hashcons g) canonical r)) ps
  end.
(** The second loop: parents that have become equal are merged.  The loop
    iterates over the parents of [eclass_id] through a reference, so a merge
    that removes that class or adds a parent to it is undefined behaviour. *)
Fixpoint repair_parents (g : EGraph) (eclass_id : Z) (orig : list (ENode * Z)) (ps : list (ENode * Z))
    (new_parents : list (ENode * Z)) : result (list (ENode * Z) * EGraph) :=
  match ps with
  | [] => Ok (new_parents, g)
  | (p_node, p_eclass) :: ps =>
      '(canonical, g) ← canonicalize_node g p_node;
      '(new_parents, g) ←
        match hm_find enode_eqb new_parents canonical with
        | Some other =>
            '(id, g) ← eg_merge g p_eclass other;
            c ← of_option UndefinedBehaviour (classes g !! eclass_id);
            (if bool_decide (parents c = orig) then Ok tt else Err UndefinedBehaviour) ;;
            Ok (hm_assign enode_eqb new_parents canonical id, g)
        | None => '(r, g) ← eg_find g p_eclass; Ok (hm_emplace enode_eqb new_parents canonical r, g)
        end;
      repair_parents g eclass_id orig ps new_parents
  end.
Fixpoint canonicalize_all (g : EGraph) (ns : list ENode) : result (list ENode * EGraph) :=
  match ns with
  | [] => Ok ([], g)
  | n :: ns => '(n, g) ← canonicalize_node g n; '(ns, g) ← canonicalize_all g ns; Ok (n :: ns, g)
  end.
Definition repair (g : EGraph) (eclass_id : Z) : result EGraph :=
  c ← eg_at g eclass_id;
  g ← (if eclass_is_constant c then unparent g eclass_id else Ok g);
  c ← eg_at g eclass_id;
  let ps := map_order (parents c) in
  g ← repair_hashcons g ps;
  '(new_parents, g) ← repair_parents g eclass_id (parents c) ps [];
  c ← eg_at g eclass_id;
  '(ns, g) ← canonicalize_all g (nodes c);
  Ok (set_classes g (<[eclass_id := mkClass ns new_parents (cache c) (constant_index c)]> (classes g))).

(** One pass over the worklist; the back of [cache_stack] is the head of the
    list. *)
Fixpoint rebuild_todo (g : EGraph) (todo : list Z) (cache_stack : list Z) : result (list Z * EGraph) :=
  match todo with
  | [] => Ok (cache_stack, g)
  | i :: todo =>
      '(r, g) ← eg_find g i; g ← repair g r; c ← eg_at g r;
      rebuild_todo g todo (reverse (map_order (parents c)).*2 ++ cache_stack)
  end.
Fixpoint rebuild_loop (fuel : nat) (g : EGraph) (cache_stack : list Z) : result (list Z * EGraph) :=
  match worklist g with
  | [] => Ok (cache_stack, g)
  | todo =>
      match fuel with
      | O => Err OutOfFuel
      | S n => '(cache_stack, g) ← rebuild_todo (set_worklist g []) todo cache_stack; rebuild_loop n g cache_stack
      end
  end.
(** The caches of everything above a changed class are cleared. *)
Fixpoint clear_caches (fuel : nat) (g : EGraph) (visited : gset Z) (cache_stack : list Z) : result EGraph :=
  match cache_stack with
  | [] => Ok g
  | id :: cache_stack =>
      match fuel with
      | O => Err OutOfFuel
      | S n =>
          if decide (id ∈ visited) then clear_caches n g visited cache_stack
          else
            let visited := {[id]} ∪ visited in
            '(c, g) ← eg_get g id; '(r, c) ← of_option UndefinedBehaviour c;
            let g := mark_updated (set_classes g (<[r := mkClass (nodes c) (parents c) no_cache (constant_index c)]> (classes g))) id in
            clear_caches n g visited
              (reverse (filter (fun p => p ∉ visited) (map_order (parents c)).*2) ++ cache_stack)
      end
  end.
Definition total_parents (g : EGraph) : nat := map_fold (fun _ c n => (length (parents c) + n)%nat) 0%nat (classes g).
(** A round that merges nothing ends the first loop, and every merge removes a
    class; the second loop pushes the parents of every id at most once. *)
Definition rebuild (g : EGraph) : result EGraph :=
  '(cache_stack, g) ← rebuild_loop (S (size (classes g))) g [];
  clear_caches (length cache_stack + length (union_find g) * total_parents g) g ∅ cache_stack.
End egraph.
