(* ===== verification/EGraphSound.v ===== *)
(** The e-graph is sound: its invariant, and that [merge] and [add] keep it
    ([rebuild] is in EGraphRebuild.v).

    Class ids are given a type by [T] and a value by the environment: the
    operand [i] of a node is read as the [EGraphNode] expression with id [i],
    so [node_op T n] is the expression a node stands for.  [eg_inv T g] is the
    structural invariant, [eg_sat T e g] says that in the environment [e] every
    node of a class has the value of the class. *)
From S2P Require Import Prelude LLVM IRType Value Opcode Operation Matching Create Semantics.
From S2P Require Import Simplifier SimplifierInt UnionFind EGraph.
Open Scope Z_scope.

(** ** Hash maps *)
Section hashmap.
Context {K V : Type} (eqb : K -> K -> bool).
Implicit Types m : list (K * V).

Lemma hm_find_in m k v : hm_find eqb m k = Some v -> exists k', eqb k' k = true /\ (k', v) ∈ m.
Proof.
  unfold hm_find. destruct (filter _ m) as [|[k' v'] l] eqn:E; [done|]. intros [= <-]. exists k'.
  assert ((k', v') ∈ filter (fun p => eqb p.1 k = true) m) as Hin by (rewrite E; by left).
  by apply list_elem_of_filter in Hin.
Qed.
Lemma hm_emplace_in m k v p : p ∈ hm_emplace eqb m k v -> p ∈ m \/ p = (k, v).
Proof. unfold hm_emplace. destruct (hm_find eqb m k); [by left|]. rewrite elem_of_app, list_elem_of_singleton. tauto. Qed.
Lemma hm_assign_in m k v p :
  p ∈ hm_assign eqb m k v -> p ∈ m \/ p = (k, v) \/ (eqb p.1 k = true /\ p.2 = v /\ exists v', (p.1, v') ∈ m).
Proof.
  unfold hm_assign. destruct (hm_find eqb m k); [|rewrite elem_of_app, list_elem_of_singleton; tauto].
  intros ([q v'] & -> & Hq)%list_elem_of_fmap. cbn. destruct (eqb q k) eqn:E; [|by left]. right. right. eauto.
Qed.
Lemma hm_erase_in m k p : p ∈ hm_erase eqb m k -> p ∈ m.
Proof. unfold hm_erase. by intros [_ ?]%list_elem_of_filter. Qed.
Lemma hm_find_app m m' k v : hm_find eqb m k = Some v -> hm_find eqb (m ++ m') k = Some v.
Proof. unfold hm_find. rewrite filter_app. by destruct (filter _ m). Qed.
Lemma hm_find_emplace m k k' v v' : hm_find eqb m k = Some v -> hm_find eqb (hm_emplace eqb m k' v') k = Some v.
Proof. intros Hk. unfold hm_emplace. destruct (hm_find eqb m k'); [done|by apply hm_find_app]. Qed.
Lemma hm_emplace_find m k v : eqb k k = true -> hm_find eqb m k = None -> hm_find eqb (hm_emplace eqb m k v) k = Some v.
Proof.
  intros Hk Hn. unfold hm_emplace. rewrite Hn. unfold hm_find in *. rewrite filter_app.
  destruct (filter (fun p => eqb p.1 k = true) m); [|done]. cbn. by rewrite decide_True.
Qed.
Lemma hm_emplace_all_in m ps p : p ∈ foldl (fun m p => hm_emplace eqb m p.1 p.2) m ps -> p ∈ m \/ p ∈ ps.
Proof.
  revert m. induction ps as [|q ps IH]; intros m; cbn [foldl]; [by left|].
  intros [Hp|Hp]%IH; [|right; by right]. apply hm_emplace_in in Hp as [?| ->]; [by left|].
  right. destruct q. by left.
Qed.
End hashmap.

Section sound.
Context `{PtrEq} `{!DataPtrEq} `{MapOrder} `{MathExtrasAPI}.
Implicit Types T : Z -> Ty.

(** ** Node data

    Data whose comparison is exact: the payload is the one of the opcode, and
    a float is neither a NaN nor a zero, which [operator==] confuses. *)
Definition clean (d : OperationData) : Prop :=
  match od_opcode d, od_payload d with
  | (OpConstantNamed | OpConstantNumbered | OpConstantArray), PSymbol _ => True
  | OpConstantInt, PInt a => od_type d = ity (getBitWidth a)
  | OpConstantFloat, PFloat f =>
      fl_compare f f = cmpEqual /\ forall f', fl_compare f f' = cmpEqual -> f' = f
  | OpFunctionObject, PFunction _ => True
  | (OpConstantNamed | OpConstantNumbered | OpConstantArray | OpConstantInt | OpConstantFloat
    | OpFunctionObject | OpEGraphNode), _ => False
  | _, NoPayload => True
  | _, _ => False
  end.

Lemma clean_eqb d d' : clean d -> clean d' -> (data_eqb d d' = true <-> d = d').
Proof.
  intros Hd Hd'. unfold data_eqb. rewrite !andb_true_iff, ty_eqb_eq, bool_decide_eq_true.
  destruct d as [o t p], d' as [o' t' p']. cbn [od_type od_opcode od_payload] in *. split.
  - intros [[-> ->] Hp]. f_equal. unfold clean in Hd, Hd'. cbn [od_opcode od_payload od_type] in Hd, Hd'.
    destruct o', p, p'; try done.
    + f_equal. by apply bool_decide_eq_true in Hp.
    + f_equal. by apply bool_decide_eq_true in Hp.
    + subst. injection Hd' as Hw. rewrite ap_eq_spec in Hp by done. apply Z.eqb_eq in Hp. f_equal. by apply APInt_ext.
    + f_equal. apply bool_decide_eq_true in Hp. symmetry. by apply Hd.
    + f_equal. by apply bool_decide_eq_true in Hp.
    + f_equal. by apply Z.eqb_eq in Hp.
  - intros [= <- <- <-]. split; [done|]. unfold clean in Hd. cbn [od_opcode od_payload od_type] in Hd.
    destruct p; try done; try (by apply bool_decide_eq_true); try apply Z.eqb_refl.
    + rewrite ap_eq_spec by done. apply Z.eqb_refl.
    + apply bool_decide_eq_true. destruct o; try done. apply Hd.
Qed.

Lemma clean_node a b : clean (en_data a) -> clean (en_data b) -> (enode_eqb a b = true <-> a = b).
Proof.
  intros Ha Hb. unfold enode_eqb. destruct a as [d os], b as [d' os']. cbn [en_data en_operands] in *.
  case_bool_decide as E; cbn [negb]; [subst os'|split; [done|by intros [= _ ?]]].
  destruct (data_ptr_eq d d') eqn:Ep.
  - apply data_ptr_eq_sound in Ep as ->. done.
  - rewrite clean_eqb by done. split; [by intros ->|by intros [= ->]].
Qed.

(** ** The expression of a node *)
Definition leaf T (i : Z) : Operation := mkOp (EGraphNodeData (T i) i) [].
Definition node_op T (n : ENode) : Operation := mkOp (en_data n) (leaf T <$> en_operands n).

Lemma node_ok_ext d l l' : op_type <$> l = op_type <$> l' -> node_ok d l -> node_ok d l'.
Proof.
  intros E. assert (length l = length l') as Hlen by (by rewrite <- (length_fmap op_type l), E, length_fmap).
  unfold node_ok.
  destruct (od_opcode d); try solve [
    destruct l as [|x [|y [|z [|? ?]]]], l' as [|x' [|y' [|z' [|? ?]]]]; try discriminate Hlen; try tauto;
    cbn in E; injection E; intros; simplify_eq; repeat match goal with K : op_type _ = op_type _ |- _ => rewrite K in * end; done].
  (* a fixed array of any length *)
  intros (w & Hw & Ht & Hl & Hn). exists w. rewrite <- Hlen. split_and!; try done. clear Hn Hlen.
  revert l' E. induction Hl as [|x l Hx _ IH]; intros [|x' l'] E; try discriminate; [constructor|].
  injection E as Ex El. constructor; [congruence|by apply IH].
Qed.

(** The operands of an e-node are classes of the graph. *)
Definition in_graph (g : EGraph) (i : Z) : Prop := 0 <= i < uf_size (union_find g).
#[local] Abbreviation grep g i := (rep (union_find g) i).

(** A node and the class it is recorded for. *)
Record entry_ok T (g : EGraph) (n : ENode) (p : Z) : Prop := {
  entry_clean : clean (en_data n);
  entry_wf : wf (node_op T n);
  entry_operands : Forall (in_graph g) (en_operands n);
  entry_class : in_graph g p;
  entry_type : od_type (en_data n) = T p
}.

Record class_ok T (g : EGraph) (i : Z) (c : EClass) : Prop := {
  class_nodes : forall n, n ∈ nodes c -> entry_ok T g n i;
  class_nonempty : nodes c <> [];
  class_constant : forall k, constant_index c = Some k -> (k < length (nodes c))%nat;
  class_parents : forall n p, (n, p) ∈ parents c -> entry_ok T g n p
}.

Record eg_inv T (g : EGraph) : Prop := {
  inv_uf : uf_inv (union_find g);
  inv_type : forall i, in_graph g i -> T (grep g i) = T i;
  inv_dom : forall i, is_Some (classes g !! i) <-> in_graph g i /\ grep g i = i;
  inv_class : forall i c, classes g !! i = Some c -> class_ok T g i c;
  inv_hashcons : forall n p, (n, p) ∈ hashcons g -> entry_ok T g n p;
  inv_worklist : Forall (in_graph g) (worklist g);
  inv_updated : forall i, i ∈ updated g -> in_graph g i
}.

(** ** Meaning *)

(** Environments that agree on the symbols. *)
Definition same_symbols (e e' : Env) : Prop :=
  env_symbol e = env_symbol e' /\ env_array e = env_array e'.

(** An expression that can stand for the class [i] in [e]; it does not depend
    on the values of class ids. *)
Definition stands_for T (e : Env) (i : Z) (r : Operation) : Prop :=
  wf r /\ op_type r = T i /\
  forall e' v, same_symbols e e' -> env_node e i = Some v -> denote e' r = Some v.

Record class_sat T (e : Env) (i : Z) (c : EClass) : Prop := {
  sat_nodes : forall n, n ∈ nodes c -> denote e (node_op T n) = env_node e i;
  sat_parents : forall n p, (n, p) ∈ parents c -> denote e (node_op T n) = env_node e p;
  sat_cache : forall r, cache_expr (cache c) = Some r -> stands_for T e i r
}.

Record eg_sat T (e : Env) (g : EGraph) : Prop := {
  sat_typed : forall i v, in_graph g i -> env_node e i = Some v -> den_ty v = Ok (T i);
  sat_rep : forall i, in_graph g i -> env_node e (grep g i) = env_node e i;
  sat_class : forall i c, classes g !! i = Some c -> class_sat T e i c;
  sat_hashcons : forall n p, (n, p) ∈ hashcons g -> denote e (node_op T n) = env_node e p
}.

Lemma leaf_value T e g i : eg_sat T e g -> in_graph g i -> denote e (leaf T i) = env_node e i.
Proof.
  intros Hs Hi. cbn. unfold denote_node. cbn. destruct (env_node e i) as [v|] eqn:E; [|done]. cbn.
  unfold typed. by rewrite bool_decide_eq_true_2 by by apply (sat_typed T e g Hs).
Qed.
Lemma leaf_wf T i : wf (leaf T i).
Proof. constructor; [constructor|]. by exists i. Qed.

(** The value of a node only depends on the values of its operands. *)
Lemma node_value T e g n :
  eg_sat T e g -> Forall (in_graph g) (en_operands n) ->
  denote e (node_op T n) = denote_node e (en_data n) (env_node e <$> en_operands n).
Proof.
  intros Hs Hn. cbn [node_op denote]. f_equal. rewrite <- list_fmap_compose. apply list_fmap_ext.
  intros k i Hi%list_elem_of_lookup_2. rewrite Forall_forall in Hn. by apply (leaf_value T e g i Hs), Hn.
Qed.

(** ** Changing only the union-find structure *)
Record uf_equiv (g g' : EGraph) : Prop := {
  eqv_uf : uf_inv (union_find g');
  eqv_size : uf_size (union_find g') = uf_size (union_find g);
  eqv_rep : forall i, in_graph g i -> grep g' i = grep g i;
  eqv_hashcons : hashcons g' = hashcons g;
  eqv_classes : classes g' = classes g;
  eqv_updated : updated g' = updated g;
  eqv_worklist : worklist g' = worklist g
}.

Lemma uf_equiv_refl g : uf_inv (union_find g) -> uf_equiv g g.
Proof. by split. Qed.
Lemma uf_equiv_in g g' i : uf_equiv g g' -> in_graph g' i <-> in_graph g i.
Proof. intros [_ E _ _ _ _ _]. unfold in_graph. by rewrite E. Qed.
Lemma uf_equiv_trans g1 g2 g3 : uf_equiv g1 g2 -> uf_equiv g2 g3 -> uf_equiv g1 g3.
Proof.
  intros K1 K2. pose proof (uf_equiv_in g1 g2) as Hin. destruct K1 as [? E1 R1 ? ? ? ?], K2 as [? E2 R2 ? ? ? ?].
  split; try done; try congruence. intros i Hi. rewrite R2, R1; [done|done|]. unfold in_graph. by rewrite E1.
Qed.

Lemma entry_ok_mono T g g' n p :
  uf_size (union_find g) <= uf_size (union_find g') -> entry_ok T g n p -> entry_ok T g' n p.
Proof.
  intros Hle [? ? Ho Hp ?]. split; try done; [|unfold in_graph in *; lia].
  eapply Forall_impl; [exact Ho|]. intros i Hi. unfold in_graph in *. lia.
Qed.
Lemma class_ok_mono T g g' i c :
  uf_size (union_find g) <= uf_size (union_find g') -> class_ok T g i c -> class_ok T g' i c.
Proof. intros Hle [Hn ? ? Hp]. split; try done; intros; eapply entry_ok_mono; eauto. Qed.

Lemma uf_equiv_inv T g g' : uf_equiv g g' -> eg_inv T g -> eg_inv T g'.
Proof.
  intros Hq [? Ht Hd Hc Hh Hw Hup]. pose proof Hq as [? Es Hr Eh Ec Eup Ew]. pose proof (uf_equiv_in g g') as Hin.
  split; [done|..].
  - intros i Hi%Hin; [|done]. rewrite Hr by done. auto.
  - intros i. rewrite Ec, Hd, (Hin i Hq). split; intros [Hi E]; (split; [done|]); by rewrite Hr in * by done.
  - intros i c Hi. rewrite Ec in Hi. eapply class_ok_mono; [|by apply Hc]. lia.
  - intros n p Hp. rewrite Eh in Hp. eapply entry_ok_mono; [|by apply Hh]. lia.
  - rewrite Ew. eapply Forall_impl; [exact Hw|]. intros i Hi. by apply Hin.
  - rewrite Eup. intros i Hi%Hup. by apply Hin.
Qed.
Lemma uf_equiv_sat T e g g' : uf_equiv g g' -> eg_sat T e g -> eg_sat T e g'.
Proof.
  intros Hq [Ht Hr Hc Hh]. pose proof Hq as [_ _ Er Eh Ec _ _]. pose proof (uf_equiv_in g g') as Hin. split.
  - intros i v Hi%Hin; [by apply Ht|done].
  - intros i Hi%Hin; [|done]. rewrite Er by done. auto.
  - rewrite Ec. done.
  - rewrite Eh. done.
Qed.

Lemma eg_find_ok g i :
  uf_inv (union_find g) -> in_graph g i -> exists g', eg_find g i = Ok (grep g i, g') /\ uf_equiv g g'.
Proof.
  intros Hu Hi. destruct (update_ok (union_find g) i Hu Hi) as (u & E & Hu' & Hl & Hr). unfold eg_find. rewrite E, ok_bind.
  eexists. split; [done|]. split; try done. unfold uf_size. cbn. lia.
Qed.

Lemma find_all_ok g ids :
  uf_inv (union_find g) -> Forall (in_graph g) ids ->
  exists g', find_all g ids = Ok ((fun i => grep g i) <$> ids, g') /\ uf_equiv g g'.
Proof.
  intros Hu Hi. revert g Hu Hi. induction ids as [|i ids IH]; intros g Hu Hi; cbn [find_all].
  { exists g. split; [done|by apply uf_equiv_refl]. }
  apply Forall_cons in Hi as [Hi Hids]. destruct (eg_find_ok g i Hu Hi) as (g1 & -> & Q1). rewrite ok_bind. cbv beta iota.
  destruct (IH g1) as (g2 & E & Q2); [by apply (eqv_uf g g1)|eapply Forall_impl; [exact Hids|]; intros j; apply (uf_equiv_in g g1 j Q1)|].
  rewrite E, ok_bind. cbv beta iota. exists g2. split; [|by apply (uf_equiv_trans g g1)].
  f_equal. f_equal. cbn [fmap list_fmap]. f_equal. apply list_fmap_ext. intros k j Hj%list_elem_of_lookup_2.
  rewrite Forall_forall in Hids. by apply (eqv_rep g g1 Q1), Hids.
Qed.

(** *** Canonical nodes *)
Definition canon (g : EGraph) (n : ENode) : ENode := mkNode (en_data n) ((fun i => grep g i) <$> en_operands n).

Lemma canonicalize_ok g n :
  uf_inv (union_find g) -> Forall (in_graph g) (en_operands n) ->
  exists g', canonicalize_node g n = Ok (canon g n, g') /\ uf_equiv g g'.
Proof.
  intros Hu Hn. unfold canonicalize_node. destruct (find_all_ok g _ Hu Hn) as (g' & -> & Q). rewrite ok_bind. by exists g'.
Qed.

Lemma canon_wf T g n :
  eg_inv T g -> wf (node_op T n) -> Forall (in_graph g) (en_operands n) ->
  wf (node_op T (canon g n)) /\ Forall (in_graph g) (en_operands (canon g n)).
Proof.
  intros Hi Hw Ho. rewrite Forall_forall in Ho. split.
  - inversion Hw as [? ? _ Hok]; subst. constructor.
    + apply Forall_forall. intros x (i & -> & _)%list_elem_of_fmap. apply leaf_wf.
    + eapply node_ok_ext; [|exact Hok]. cbn [canon en_operands]. rewrite <- !list_fmap_compose.
      apply list_fmap_ext. intros k i Hk%list_elem_of_lookup_2. cbn. symmetry. by apply (inv_type T g Hi), Ho.
  - cbn [canon en_operands]. apply Forall_forall. intros x (i & -> & Hx)%list_elem_of_fmap.
    apply rep_range; [apply (inv_uf T g Hi)|by apply Ho].
Qed.
Lemma canon_entry T g n p : eg_inv T g -> entry_ok T g n p -> entry_ok T g (canon g n) p.
Proof. intros Hi [Hc Hw Ho Hp Ht]. destruct (canon_wf T g n Hi Hw Ho). by split. Qed.
Lemma canon_value T e g n :
  eg_inv T g -> eg_sat T e g -> wf (node_op T n) -> Forall (in_graph g) (en_operands n) ->
  denote e (node_op T (canon g n)) = denote e (node_op T n).
Proof.
  intros Hi Hs Hw Ho. destruct (canon_wf T g n Hi Hw Ho) as [_ Ho'].
  rewrite (node_value T e g _ Hs Ho'), (node_value T e g _ Hs Ho). cbn [canon en_data en_operands]. f_equal.
  rewrite <- list_fmap_compose. apply list_fmap_ext. intros k i Hk%list_elem_of_lookup_2.
  rewrite Forall_forall in Ho. by apply (sat_rep T e g Hs), Ho.
Qed.

(** ** Merging *)
Lemma entry_move T g n i j : in_graph g i -> T i = T j -> entry_ok T g n j -> entry_ok T g n i.
Proof. intros Hi E [? ? ? _ Ht]. split; try done. by rewrite Ht. Qed.
Lemma stands_for_move T e i j r : T i = T j -> env_node e i = env_node e j -> stands_for T e j r -> stands_for T e i r.
Proof. intros ET Ee (? & Ht & Hd). split_and!; [done|by rewrite Ht|]. rewrite Ee. done. Qed.

Lemma eclass_type_ok T g i c : class_ok T g i c -> eclass_type c = Ok (T i).
Proof.
  intros [Hn Hne _ _]. unfold eclass_type. destruct (nodes c) as [|n l] eqn:E; [done|]. cbn.
  by rewrite (entry_type T g n i) by (apply Hn; by left).
Qed.

Lemma merge_caches T e i j c1 c2 c r :
  T i = T j -> env_node e i = env_node e j -> class_sat T e i c1 -> class_sat T e j c2 ->
  eclass_merge c1 c2 = Ok c -> cache_expr (cache c) = Some r -> stands_for T e i r.
Proof.
  intros ET Ee S1 S2 E. unfold eclass_merge in E. inv_ok. subst.
  pose proof (fun r K => stands_for_move T e i j r ET Ee (sat_cache T e j c2 S2 r K)) as K2.
  destruct (constant_index c2); [destruct (constant_index c1); cbn; [apply (sat_cache T e i c1 S1)|apply K2]|]. cbn.
  destruct (cache_cost (cache c1)) as [[cost index]|]; [|done]. destruct (cache_cost (cache c2)) as [_|]; [|done].
  destruct (cost <? cost); [apply (sat_cache T e i c1 S1)|apply K2].
Qed.

Lemma eclass_merge_ok T g i j c1 c2 :
  class_ok T g i c1 -> class_ok T g j c2 -> T i = T j -> in_graph g i ->
  exists c, eclass_merge c1 c2 = Ok c /\ class_ok T g i c /\
    forall e, class_sat T e i c1 -> class_sat T e j c2 -> env_node e i = env_node e j -> class_sat T e i c.
Proof.
  intros K1 K2 ET Hi.
  assert (exists c, eclass_merge c1 c2 = Ok c /\ nodes c = nodes c1 ++ nodes c2 /\
    parents c = foldl (fun m p => hm_emplace enode_eqb m p.1 p.2) (parents c1) (map_order (parents c2)) /\
    forall k, constant_index c = Some k -> (k < length (nodes c1 ++ nodes c2))%nat) as (c & E & En & Ep & Hk).
  { unfold eclass_merge. rewrite (eclass_type_ok T g i c1 K1), (eclass_type_ok T g j c2 K2), ET, !ok_bind, ty_eqb_refl.
    cbn [assert_]. rewrite ok_bind. eexists. split; [done|]. destruct K1 as [_ _ C1 _], K2 as [_ _ C2 _].
    rewrite length_app. destruct (constant_index c2) as [k2|] eqn:E2; [destruct (constant_index c1) as [k1|] eqn:E1|];
      (split; [done|split; [done|]]); cbn; intros k Hk.
    - injection Hk as <-. specialize (C1 _ eq_refl). lia.
    - injection Hk as <-. specialize (C2 _ eq_refl). lia.
    - specialize (C1 _ Hk). lia. }
  assert (forall n p, (n, p) ∈ parents c -> (n, p) ∈ parents c1 \/ (n, p) ∈ parents c2) as Hps.
  { intros n p Hp. rewrite Ep in Hp. apply hm_emplace_all_in in Hp as [?|Hp]; [by left|right]. by rewrite map_order_perm in Hp. }
  exists c. split_and!; [done| |].
  - destruct K1 as [N1 Ne1 _ P1], K2 as [N2 _ _ P2]. split.
    + intros n Hn. rewrite En in Hn. apply elem_of_app in Hn as [Hn|Hn]; [by apply N1|]. by apply (entry_move T g n i j Hi ET), N2.
    + rewrite En. by destruct (nodes c1).
    + rewrite En. done.
    + intros n p [?|?]%Hps; auto.
  - intros e S1 S2 Ee. split.
    + intros n Hn. rewrite En in Hn. apply elem_of_app in Hn as [Hn|Hn]; [by apply (sat_nodes T e i c1)|]. rewrite Ee. by apply (sat_nodes T e j c2).
    + intros n p [?|?]%Hps; [by apply (sat_parents T e i c1)|by apply (sat_parents T e j c2)].
    + intros r. by apply (merge_caches T e i j c1 c2 c r).
Qed.

Lemma eg_merge_ok T g id1 id2 :
  eg_inv T g -> in_graph g id1 -> in_graph g id2 -> T id1 = T id2 ->
  exists g', eg_merge g id1 id2 = Ok (grep g id1, g') /\ eg_inv T g' /\
    uf_size (union_find g') = uf_size (union_find g) /\
    (size (classes g') + length (worklist g') = size (classes g) + length (worklist g))%nat /\
    (forall i, in_graph g i -> grep g' i = if decide (grep g i = grep g id2) then grep g id1 else grep g i) /\
    forall e, eg_sat T e g -> env_node e id1 = env_node e id2 -> eg_sat T e g'.
Proof.
  intros Hi R1 R2 ET. unfold eg_merge.
  destruct (eg_find_ok g id1 (inv_uf T g Hi) R1) as (g1 & -> & Q1). rewrite ok_bind. cbv beta iota.
  pose proof (uf_equiv_inv T g g1 Q1 Hi) as I1. apply (uf_equiv_in g g1 id2 Q1) in R2 as R2'.
  destruct (eg_find_ok g1 id2 (inv_uf T g1 I1) R2') as (g2 & -> & Q2). rewrite ok_bind. cbv beta iota.
  pose proof (uf_equiv_trans g g1 g2 Q1 Q2) as Q. rewrite (eqv_rep g g1 Q1) by done. clear g1 Q1 Q2 I1 R2'.
  pose proof (uf_equiv_inv T g g2 Q Hi) as I2. pose proof (eqv_size g g2 Q) as Es.
  destruct (Z.eqb_spec (grep g id1) (grep g id2)) as [Heq|Hne].
  { exists g2. split_and!; try done; [by rewrite (eqv_classes g g2 Q), (eqv_worklist g g2 Q)| |].
    { intros i Ri. rewrite (eqv_rep g g2 Q) by done. case_decide; congruence. }
    intros e Hs _. by apply (uf_equiv_sat T e g g2 Q). }
  set (r1 := grep g id1) in *. set (r2 := grep g id2) in *.
  assert (in_graph g r1 /\ in_graph g r2) as [G1 G2] by (split; apply rep_range; try done; apply (inv_uf T g Hi)).
  assert (grep g r1 = r1 /\ grep g r2 = r2) as [F1 F2] by (split; apply rep_rep; try done; apply (inv_uf T g Hi)).
  destruct (do_union_ok (union_find g2) r1 r2) as (u & -> & Hu & Hlu & Hru);
    [apply (inv_uf T g2 I2)|by apply (uf_equiv_in g g2)..|by rewrite (eqv_rep g g2 Q)|by rewrite (eqv_rep g g2 Q)|done|].
  rewrite ok_bind. cbv beta iota zeta. unfold eg_at. cbn [set_union_find classes]. rewrite (eqv_classes g g2 Q).
  destruct (proj2 (inv_dom T g Hi r1) (conj G1 F1)) as [c1 E1]. destruct (proj2 (inv_dom T g Hi r2) (conj G2 F2)) as [c2 E2].
  rewrite E1, E2. cbn [of_option]. rewrite !ok_bind.
  assert (T r1 = T r2) as ETr by (unfold r1, r2; rewrite !(inv_type T g Hi) by done; done).
  destruct (eclass_merge_ok T g r1 r2 c1 c2 (inv_class T g Hi _ _ E1) (inv_class T g Hi _ _ E2) ETr G1) as (c & -> & Kc & Sc).
  rewrite ok_bind. eexists. split; [done|].
  assert (uf_size u = uf_size (union_find g)) as Esu by (unfold uf_size in *; lia).
  assert (forall i, in_graph g i -> rep u i = if decide (grep g i = r2) then r1 else grep g i) as Hrep.
  { intros i Hin. rewrite Hru by (unfold in_graph in *; lia). by rewrite (eqv_rep g g2 Q). }
  assert (forall i c', delete r2 (<[r1 := c]> (classes g)) !! i = Some c' ->
    (i = r1 /\ c' = c) \/ (i <> r1 /\ i <> r2 /\ classes g !! i = Some c')) as Hcl.
  { intros i c'. rewrite lookup_delete_Some, lookup_insert_Some. naive_solver. }
  split_and!.
  - split; cbn.
    + done.
    + intros i Hin. unfold in_graph in Hin. cbn in Hin. rewrite Esu in Hin. rewrite Hrep by done.
      case_decide as Hd; [|by apply (inv_type T g Hi)]. rewrite ETr, <- Hd. by apply (inv_type T g Hi).
    + intros i. unfold in_graph. cbn. rewrite Esu. change (0 <= i < uf_size (union_find g)) with (in_graph g i).
      rewrite lookup_delete_is_Some, lookup_insert_is_Some, (inv_dom T g Hi i). split.
      * intros [Hi2 [<-|[Hi1 [Hin Hr]]]]; (split; [done|]); rewrite Hrep by done; [by rewrite F1, decide_False by congruence|].
        by rewrite Hr, decide_False by done.
      * intros [Hin Hr]. rewrite Hrep in Hr by done. case_decide as Hd; [subst i; split; [congruence|by left]|].
        split; [by intros <-|]. destruct (decide (r1 = i)); [by left|by right].
    + intros i c' [[-> ->]|(_ & _ & Hc')]%Hcl; (eapply (class_ok_mono T g); [cbn; lia|]); [done|by apply (inv_class T g Hi)].
    + rewrite (eqv_hashcons g g2 Q). intros n p Hp. eapply (entry_ok_mono T g); [cbn; lia|]. by apply (inv_hashcons T g Hi).
    + rewrite (eqv_worklist g g2 Q). unfold in_graph. cbn. rewrite Esu. apply Forall_app. split; [apply (inv_worklist T g Hi)|by apply Forall_singleton].
    + rewrite (eqv_updated g g2 Q). unfold in_graph. cbn. rewrite Esu. intros i [->%elem_of_singleton|Hup]%elem_of_union; [done|by apply (inv_updated T g Hi)].
  - done.
  - cbn. rewrite map_size_delete_Some by (rewrite lookup_insert_ne by done; eauto). rewrite map_size_insert_Some by eauto.
    rewrite (eqv_worklist g g2 Q), length_app. cbn. assert (size (classes g) <> 0%nat); [|lia].
    intros Hz%map_size_empty_inv. by rewrite Hz in E1.
  - done.
  - intros e Hs Ee. assert (env_node e r1 = env_node e r2) as Eer by (unfold r1, r2; rewrite !(sat_rep T e g Hs) by done; done).
    split; cbn.
    + intros i v Hin. apply (sat_typed T e g Hs). unfold in_graph in *. cbn in Hin. lia.
    + intros i Hin. unfold in_graph in Hin. cbn in Hin. rewrite Esu in Hin. rewrite Hrep by done.
      case_decide as Hd; [|by apply (sat_rep T e g Hs)]. rewrite Eer, <- Hd. by apply (sat_rep T e g Hs).
    + intros i c' [[-> ->]|(_ & _ & Hc')]%Hcl; [|by apply (sat_class T e g Hs)].
      apply Sc; [by apply (sat_class T e g Hs)..|done].
    + rewrite (eqv_hashcons g g2 Q). apply (sat_hashcons T e g Hs).
Qed.

Lemma eclass_merge_nodes c1 c2 c : eclass_merge c1 c2 = Ok c -> nodes c = nodes c1 ++ nodes c2.
Proof.
  unfold eclass_merge. intros E. apply bind_Ok in E as (t1 & _ & E). apply bind_Ok in E as (t2 & _ & E). apply bind_Ok in E as ([] & _ & [= <-]).
  by destruct (constant_index c2), (constant_index c1).
Qed.
(** No node is lost, and the merged class waits to be repaired. *)
Lemma eg_merge_keeps T g id1 id2 r g' :
  eg_inv T g -> in_graph g id1 -> in_graph g id2 -> eg_merge g id1 id2 = Ok (r, g') ->
  (forall i c n, classes g !! i = Some c -> n ∈ nodes c ->
     exists c', classes g' !! (if decide (i = grep g id2) then grep g id1 else i) = Some c' /\ n ∈ nodes c') /\
  (grep g id1 <> grep g id2 -> grep g id1 ∈ worklist g').
Proof.
  intros Hi R1 R2 E. unfold eg_merge in E. destruct (eg_find_ok g id1 (inv_uf T g Hi) R1) as (g1 & E1 & Q1). rewrite E1, ok_bind in E. cbv beta iota in E.
  destruct (eg_find_ok g1 id2 (eqv_uf g g1 Q1)) as (g2 & E2 & Q2); [by apply (uf_equiv_in g g1)|]. rewrite E2, ok_bind in E. cbv beta iota in E.
  pose proof (uf_equiv_trans g g1 g2 Q1 Q2) as Q. rewrite (eqv_rep g g1 Q1) in E by done.
  destruct (Z.eqb_spec (grep g id1) (grep g id2)) as [Heq|Hne].
  { injection E as _ <-. split; [|done]. intros i c n Hc Hn. exists c. rewrite (eqv_classes g g2 Q). case_decide; [|done]. split; [congruence|done]. }
  apply bind_Ok in E as ([k u] & Eu & E). unfold do_union in Eu. apply bind_Ok in Eu as (? & _ & [= <- _]). cbv zeta in E.
  apply bind_Ok in E as (c1 & E3%of_option_Ok & E). apply bind_Ok in E as (c2 & E4%of_option_Ok & E). apply bind_Ok in E as (c & E5 & [= _ <-]).
  cbn in E3, E4. rewrite (eqv_classes g g2 Q) in E3, E4. apply eclass_merge_nodes in E5. cbn. split; [|intros _; set_solver].
  intros i c' n Hc Hn. rewrite (eqv_classes g g2 Q). case_decide as Hd.
  - subst i. rewrite Hc in E4. injection E4 as ->. exists c. rewrite lookup_delete_ne, lookup_insert_eq, E5 by done. set_solver.
  - rewrite lookup_delete_ne by done. destruct (decide (i = grep g id1)) as [->|Hd1].
    + rewrite Hc in E3. injection E3 as ->. exists c. rewrite lookup_insert_eq, E5. set_solver.
    + exists c'. by rewrite lookup_insert_ne by done.
Qed.

(** ** Small changes *)
Lemma set_class_inv T g i c c' :
  eg_inv T g -> classes g !! i = Some c -> class_ok T g i c' -> eg_inv T (set_classes g (<[i := c']> (classes g))).
Proof.
  intros [Hu Ht Hd Hc Hh Hw Hup] Hi Hc'. split; try done.
  - intros j. cbn. rewrite lookup_insert_is_Some, <- (Hd j). split; [intros [<-|[_ ?]]; eauto|].
    intros Hj. destruct (decide (i = j)); auto.
  - intros j x. cbn. rewrite lookup_insert_Some. intros [[<- <-]|[_ Hx]]; (apply (class_ok_mono T g); [done|auto]).
  - intros n p Hp. apply (entry_ok_mono T g); [done|by apply Hh].
Qed.
Lemma set_class_sat T e g i c' :
  eg_sat T e g -> class_sat T e i c' -> eg_sat T e (set_classes g (<[i := c']> (classes g))).
Proof.
  intros [Ht Hr Hc Hh] Hc'. split; try done. intros j x. cbn. rewrite lookup_insert_Some.
  intros [[<- <-]|[_ Hx]]; [done|by apply Hc].
Qed.
Lemma set_hashcons_inv T g m :
  eg_inv T g -> (forall n p, (n, p) ∈ m -> entry_ok T g n p) -> eg_inv T (set_hashcons g m).
Proof.
  intros [Hu Ht Hd Hc Hh Hw Hup] Hm. split; try done.
  - intros i c Hi. apply (class_ok_mono T g); [done|by apply Hc].
  - intros n p Hp. apply (entry_ok_mono T g); [done|by apply Hm].
Qed.
Lemma set_hashcons_sat T e g m :
  eg_sat T e g -> (forall n p, (n, p) ∈ m -> denote e (node_op T n) = env_node e p) -> eg_sat T e (set_hashcons g m).
Proof. intros [Ht Hr Hc Hh] Hm. by split. Qed.
Lemma mark_updated_inv T g i : in_graph g i -> eg_inv T g -> eg_inv T (mark_updated g i).
Proof.
  intros Hi [Hu Ht Hd Hc Hh Hw Hup]. split; try done.
  - intros j c Hj. apply (class_ok_mono T g); [done|by apply Hc].
  - intros n p Hp. apply (entry_ok_mono T g); [done|by apply Hh].
  - intros j. cbn. intros [->%elem_of_singleton|Hj]%elem_of_union; [done|by apply Hup].
Qed.
Lemma mark_updated_sat T e g i : eg_sat T e g -> eg_sat T e (mark_updated g i).
Proof. by intros []. Qed.

(** ** Growing graphs *)
Record extends T (g : EGraph) T' (g' : EGraph) : Prop := {
  ext_size : uf_size (union_find g) <= uf_size (union_find g');
  ext_type : forall i, in_graph g i -> T' i = T i
}.
Record env_extends (g : EGraph) (e e' : Env) : Prop := {
  ext_symbols : same_symbols e e';
  ext_node : forall i, in_graph g i -> env_node e' i = env_node e i
}.
Lemma extends_refl T g : extends T g T g.
Proof. by split. Qed.
Lemma extends_trans T1 g1 T2 g2 T3 g3 : extends T1 g1 T2 g2 -> extends T2 g2 T3 g3 -> extends T1 g1 T3 g3.
Proof. intros [? E1] [? E2]. split; [lia|]. intros i Hi. rewrite E2, E1; [done|done|]. unfold in_graph in *. lia. Qed.
Lemma env_extends_refl g e : env_extends g e e.
Proof. by repeat split. Qed.
Lemma env_extends_trans g1 g2 e1 e2 e3 :
  uf_size (union_find g1) <= uf_size (union_find g2) ->
  env_extends g1 e1 e2 -> env_extends g2 e2 e3 -> env_extends g1 e1 e3.
Proof.
  intros Hle [[S1 A1] N1] [[S2 A2] N2]. split; [split; congruence|]. intros i Hi. rewrite N2, N1; [done|done|].
  unfold in_graph in *. lia.
Qed.

(** Additions keep representatives and hash-consed nodes. *)
Record grows (g g' : EGraph) : Prop := {
  grow_rep : forall i, in_graph g i -> grep g' i = grep g i;
  grow_hash : forall n id, hm_find enode_eqb (hashcons g) n = Some id -> hm_find enode_eqb (hashcons g') n = Some id
}.
Lemma grows_trans g1 g2 g3 :
  uf_size (union_find g1) <= uf_size (union_find g2) -> grows g1 g2 -> grows g2 g3 -> grows g1 g3.
Proof.
  intros Hle [R1 N1] [R2 N2]. split; [|auto]. intros i Hi. rewrite R2, R1; [done|done|]. unfold in_graph in *. lia.
Qed.
Lemma uf_equiv_grows g g' : uf_equiv g g' -> grows g g'.
Proof. intros Q. split; [apply (eqv_rep g g' Q)|by rewrite (eqv_hashcons g g' Q)]. Qed.

Lemma extends_op T g T' g' n p : extends T g T' g' -> entry_ok T g n p -> node_op T' n = node_op T n.
Proof.
  intros [_ E] [_ _ Ho _ _]. unfold node_op. f_equal. apply list_fmap_ext. intros k i Hi%list_elem_of_lookup_2.
  rewrite Forall_forall in Ho. unfold leaf. by rewrite E by auto.
Qed.
Lemma extends_entry T g T' g' n p : extends T g T' g' -> entry_ok T g n p -> entry_ok T' g' n p.
Proof.
  intros Hx Hn. pose proof Hx as [Hs E]. pose proof (entry_ok_mono T g g' n p Hs Hn) as [? Hw ? ? Ht].
  split; try done; [|rewrite E; [done|]; by apply (entry_class T g n p)].
  by rewrite (extends_op T g T' g' n p).
Qed.
Lemma extends_class T g T' g' i c : extends T g T' g' -> class_ok T g i c -> class_ok T' g' i c.
Proof. intros Hx [Hn ? ? Hp]. split; try done; intros; eapply extends_entry; eauto. Qed.

Lemma denote_node_env d e e' vs : clean d -> same_symbols e e' -> denote_node e d vs = denote_node e' d vs.
Proof.
  destruct e, e'. intros Hd [Hs Ha]. cbn in Hs, Ha. subst. unfold clean in Hd. unfold denote_node. cbn.
  destruct (od_opcode d); try reflexivity. by destruct (od_payload d).
Qed.
Lemma env_extends_value T g T' g' e e' n p :
  extends T g T' g' -> env_extends g e e' -> entry_ok T g n p -> denote e' (node_op T' n) = denote e (node_op T n).
Proof.
  intros Hx [Hs Hn] Hok. rewrite (extends_op T g T' g' n p Hx Hok). pose proof Hok as [Hc _ Ho _ _]. cbn [node_op denote].
  rewrite (denote_node_env _ e e') by done. f_equal. rewrite <- !list_fmap_compose. apply list_fmap_ext.
  intros k i Hi%list_elem_of_lookup_2. rewrite Forall_forall in Ho. cbn. unfold denote_node. cbn. by rewrite Hn by auto.
Qed.
Lemma env_extends_stands T g T' g' e e' i r :
  extends T g T' g' -> env_extends g e e' -> in_graph g i -> stands_for T e i r -> stands_for T' e' i r.
Proof.
  intros Hx [[S A] Hn] Hi (Hw & Ht & Hd). split_and!; [done|by rewrite (ext_type _ _ _ _ Hx)|].
  intros e2 v [S2 A2] Hv. apply Hd; [split; congruence|]. by rewrite <- Hn.
Qed.
Lemma env_extends_class T g T' g' e e' i c :
  extends T g T' g' -> env_extends g e e' -> in_graph g i -> class_ok T g i c -> class_sat T e i c -> class_sat T' e' i c.
Proof.
  intros Hx He Hi Hok [Sn Sp Sc]. split.
  - intros n Hn. rewrite (env_extends_value T g T' g' e e' n i Hx He), (ext_node g e e' He) by (done || by apply Hok). by apply Sn.
  - intros n q Hq. pose proof (class_parents T g i c Hok n q Hq) as Hnq.
    rewrite (env_extends_value T g T' g' e e' n q Hx He Hnq), (ext_node g e e' He) by apply Hnq. by apply Sp.
  - intros r Hr. by apply (env_extends_stands T g T' g' e e'), Sc.
Qed.

(** *** A new class *)
Definition put_type T (k : Z) (t : Ty) : Z -> Ty := fun i => if i =? k then t else T i.
Definition put_env (e : Env) (k : Z) (v : option Den) : Env := {|
  env_symbol := env_symbol e; env_array := env_array e; env_node i := if i =? k then v else env_node e i |}.

Lemma create_eclass_ok T g n :
  eg_inv T g -> clean (en_data n) -> wf (node_op T n) -> Forall (in_graph g) (en_operands n) ->
  let k := uf_size (union_find g) in let T' := put_type T k (od_type (en_data n)) in
  exists g', create_eclass g n = (k, g') /\ eg_inv T' g' /\ extends T g T' g' /\ entry_ok T' g' n k /\ in_graph g' k /\
    hashcons g' = hm_emplace enode_eqb (hashcons g) n k /\ classes g' = <[k := EClass_ctor [n]]> (classes g) /\
    (forall i, in_graph g i -> grep g' i = grep g i) /\
    forall e, eg_sat T e g -> let e' := put_env e k (denote e (node_op T n)) in
      env_extends g e e' /\ eg_sat T' e' g' /\ env_node e' k = denote e' (node_op T' n).
Proof.
  intros Hi Hc Hw Ho k T'. pose proof Hi as [Hu Ht Hd Hcl Hh Hwl Hup].
  destruct (make_set_ok (union_find g) Hu) as (u & Eu & Hu' & Hsz & Hk & Hr). unfold create_eclass. rewrite Eu. fold k in Hsz, Hk |- *.
  assert (classes g !! k = None) as Hnone.
  { apply eq_None_not_Some. intros [Hx _]%Hd. unfold in_graph, k in Hx. lia. }
  rewrite Hnone. eexists. split; [done|]. set (g' := mkGraph _ _ _ _ _).
  assert (0 <= k) by (unfold k, uf_size; lia).
  assert (forall i, in_graph g' i <-> in_graph g i \/ i = k) as Hin by (intros i; unfold in_graph, g', k in *; cbn; lia).
  assert (forall i, in_graph g i -> i <> k) as Hlt by (intros i; unfold in_graph, k; lia).
  assert (extends T g T' g') as Hx.
  { split; [cbn; lia|]. intros i Hg. unfold T', put_type. by rewrite (proj2 (Z.eqb_neq i k)) by auto. }
  assert (T' k = od_type (en_data n)) as Hty by (unfold T', put_type; by rewrite Z.eqb_refl).
  assert (entry_ok T' g' n k) as Hn.
  { split; try done; [|eapply Forall_impl; [exact Ho|]; intros i Hg; apply Hin; by left|apply Hin; by right].
    replace (node_op T' n) with (node_op T n); [done|]. unfold node_op. f_equal. apply list_fmap_ext.
    intros j i Hj%list_elem_of_lookup_2. rewrite Forall_forall in Ho. unfold leaf. by rewrite (ext_type _ _ _ _ Hx) by auto. }
  assert (class_ok T' g' k (EClass_ctor [n])) as Hnew.
  { split; cbn; [by intros x ->%list_elem_of_singleton|done| |by intros ? ? ?%elem_of_nil].
    intros j. case_decide; cbn; intros [= <-]; lia. }
  split_and!; try done; [|by apply Hin; right|].
  - split.
    + done.
    + intros i [Hg| ->]%Hin; cbn; [|by rewrite Hk]. rewrite Hr by done. rewrite !(ext_type _ _ _ _ Hx); [by apply Ht|done|].
      by apply rep_range.
    + intros i. cbn. rewrite lookup_insert_is_Some, (Hin i), (Hd i). split.
      * intros [<-|[Hne [Hg Er]]]; [by split; [right|]|split; [by left|by rewrite Hr]].
      * intros [[Hg| ->] Er]; [|by left]. rewrite Hr in Er by done. right. split; [|done]. intros <-. by apply (Hlt k).
    + intros i c. cbn. rewrite lookup_insert_Some. intros [[<- <-]|[_ Hc']]; [done|]. by eapply extends_class; [|apply Hcl].
    + intros m p. cbn. intros [Hp|[= -> ->]]%hm_emplace_in; [|done]. by eapply extends_entry; [|apply Hh].
    + cbn. apply Forall_app. split; [|apply Forall_singleton, Hin; by right]. eapply Forall_impl; [exact Hwl|].
      intros i Hg. apply Hin. by left.
    + cbn. intros i Hg%Hup. apply Hin. by left.
  - intros e Hs. set (e' := put_env e k (denote e (node_op T n))). assert (env_extends g e e') as He.
    { split; [done|]. intros i Hg. cbn. by rewrite (proj2 (Z.eqb_neq i k)) by auto. }
    assert (env_node e' k = denote e (node_op T n)) as Hval by (cbn; by rewrite Z.eqb_refl).
    assert (denote e' (node_op T' n) = denote e (node_op T n)) as Hden.
    { cbn [node_op denote]. rewrite (denote_node_env _ e e') by (done || apply He). f_equal. rewrite <- !list_fmap_compose.
      apply list_fmap_ext. intros j i Hj%list_elem_of_lookup_2. rewrite Forall_forall in Ho. cbn. unfold denote_node. cbn.
      rewrite (ext_type _ _ _ _ Hx) by auto. by rewrite (proj2 (Z.eqb_neq i k)) by auto. }
    split_and!; [done| |by rewrite Hval].
    split.
    + intros i v [Hg| ->]%Hin.
      * rewrite (ext_node g e e' He), (ext_type _ _ _ _ Hx) by done. by apply (sat_typed T e g Hs).
      * rewrite Hval, Hty. intros Hv. apply (denote_typed e _ _ Hw Hv).
    + intros i [Hg| ->]%Hin; cbn [g' union_find]; [|by rewrite Hk]. rewrite Hr by done.
      rewrite !(ext_node g e e' He); [by apply (sat_rep T e g Hs)|done|by apply rep_range].
    + intros i c. cbn [g' classes]. rewrite lookup_insert_Some. intros [[<- <-]|[_ Hc']].
      * split; cbn; [|by intros ? ? ?%elem_of_nil|done]. intros x ->%list_elem_of_singleton. rewrite Z.eqb_refl. done.
      * eapply env_extends_class; [done|done| |by apply Hcl|by apply (sat_class T e g Hs)]. apply Hd. eauto.
    + intros m p. cbn [g' hashcons]. intros [Hp|[= -> ->]]%hm_emplace_in; [|by rewrite Hval].
      pose proof (Hh m p Hp) as Hmp. rewrite (env_extends_value T g T' g' e e' m p Hx He Hmp), (ext_node g e e' He) by apply Hmp.
      by apply (sat_hashcons T e g Hs).
Qed.

(** *** Adding nodes *)
Lemma add_parent_ok T g children n p :
  eg_inv T g -> entry_ok T g n p -> Forall (fun i => in_graph g i /\ grep g i = i) children ->
  exists g', add_parent g children n p = Ok g' /\ eg_inv T g' /\
    union_find g' = union_find g /\ hashcons g' = hashcons g /\
    forall e, eg_sat T e g -> denote e (node_op T n) = env_node e p -> eg_sat T e g'.
Proof.
  intros Hi Hn Hch. revert g Hi Hn Hch. induction children as [|i children IH]; intros g Hi Hn Hch; cbn [add_parent].
  { exists g. split_and!; done. }
  apply Forall_cons in Hch as [Hc Hch]. destruct (proj2 (inv_dom T g Hi i) Hc) as [c Ec].
  unfold eg_at. rewrite Ec. cbn [of_option]. rewrite ok_bind. set (c' := mkClass _ _ _ _).
  pose proof (inv_class T g Hi i c Ec) as [K1 K2 K3 K4].
  assert (class_ok T g i c') as Hc'.
  { split; try done. intros m q. cbn. intros [Hq|[= -> ->]]%hm_emplace_in; [by apply K4|done]. }
  destruct (IH (set_classes g (<[i := c']> (classes g)))) as (g' & -> & I' & Eu & Eh & Hs).
  - by apply (set_class_inv T g i c c').
  - by apply (entry_ok_mono T g).
  - done.
  - exists g'. split_and!; try done. intros e He Hv. apply Hs; [|done]. apply set_class_sat; [done|].
    destruct (sat_class T e g He i c Ec) as [S1 S2 S3]. split; try done.
    intros m q. cbn. intros [Hq|[= -> ->]]%hm_emplace_in; [by apply S2|done].
Qed.

Lemma hm_find_clean T g m n id :
  (forall k p, (k, p) ∈ m -> entry_ok T g k p) -> clean (en_data n) -> hm_find enode_eqb m n = Some id -> (n, id) ∈ m.
Proof.
  intros Hm Hn (k & Hk & Hin)%hm_find_in. apply clean_node in Hk as ->; [done|apply (Hm k id Hin)|done].
Qed.

Lemma eg_add_ok T g n :
  eg_inv T g -> clean (en_data n) -> wf (node_op T n) -> Forall (in_graph g) (en_operands n) ->
  exists id g' T', eg_add g n = Ok (id, g') /\ eg_inv T' g' /\ extends T g T' g' /\ grows g g' /\ in_graph g' id /\
    T' id = od_type (en_data n) /\ hm_find enode_eqb (hashcons g') (canon g n) = Some id /\
    forall e, eg_sat T e g -> exists e', env_extends g e e' /\ eg_sat T' e' g' /\ env_node e' id = denote e (node_op T n).
Proof.
  intros Hi Hc Hw Ho. unfold eg_add. destruct (canonicalize_ok g n (inv_uf T g Hi) Ho) as (g1 & -> & Q1).
  rewrite ok_bind. cbv beta iota. pose proof (uf_equiv_inv T g g1 Q1 Hi) as I1. destruct (canon_wf T g n Hi Hw Ho) as [Hw' Ho'].
  assert (Forall (in_graph g1) (en_operands (canon g n))) as Ho1.
  { eapply Forall_impl; [exact Ho'|]. intros i. by apply (uf_equiv_in g g1 i Q1). }
  assert (forall e, eg_sat T e g -> eg_sat T e g1 /\ denote e (node_op T (canon g n)) = denote e (node_op T n)) as Hs1.
  { intros e Hs. split; [by apply (uf_equiv_sat T e g g1)|by apply (canon_value T e g)]. }
  destruct (hm_find enode_eqb (hashcons g1) (canon g n)) as [id|] eqn:Ef.
  - pose proof Ef as Ef'. apply (hm_find_clean T g1) in Ef; [|apply (inv_hashcons T g1 I1)|done].
    pose proof (inv_hashcons T g1 I1 _ _ Ef) as Hid. exists id, g1, T. split_and!; try done.
    + split; [rewrite (eqv_size g g1 Q1); lia|done].
    + by apply uf_equiv_grows.
    + apply Hid.
    + symmetry. apply (entry_type T g1 _ _ Hid).
    + intros e Hs. destruct (Hs1 e Hs) as [Hs' Hv]. exists e. split_and!; [apply env_extends_refl|done|].
      rewrite <- Hv. symmetry. by apply (sat_hashcons T e g1 Hs').
  - destruct (create_eclass_ok T g1 (canon g n) I1 Hc Hw' Ho1) as (g2 & -> & I2 & X2 & N2 & In2 & Eh2 & _ & Er2 & S2).
    set (k := uf_size (union_find g1)) in *. set (T' := put_type T k _) in *.
    destruct (add_parent_ok T' g2 (en_operands (canon g n)) (canon g n) k I2 N2) as (g3 & -> & I3 & Eu3 & Eh3 & S3).
    { rewrite Forall_forall in Ho1 |- *. intros i Hin. split; [unfold in_graph in *; pose proof (ext_size _ _ _ _ X2); specialize (Ho1 i Hin); lia|].
      rewrite Er2 by auto. cbn [canon en_operands] in Hin. apply list_elem_of_fmap in Hin as (j & -> & Hj). rewrite Forall_forall in Ho.
      rewrite (eqv_rep g g1 Q1) by (apply rep_range; [apply (inv_uf T g Hi)|exact (Ho j Hj)]). apply rep_rep; [apply (inv_uf T g Hi)|exact (Ho j Hj)]. }
    rewrite ok_bind.
    assert (forall m p, (m, p) ∈ hm_emplace enode_eqb (hashcons g3) (canon g n) k -> (m, p) ∈ hashcons g3 \/ (m = canon g n /\ p = k)) as Hin3.
    { intros m p [?|[= -> ->]]%hm_emplace_in; auto. }
    assert (entry_ok T' g3 (canon g n) k) as N3 by (apply (entry_ok_mono T' g2); [rewrite Eu3; done|done]).
    eexists k, _, T'. split; [done|]. split_and!.
    + apply mark_updated_inv; [apply N3|]. apply set_hashcons_inv; [done|]. intros m p [Hp|[-> ->]]%Hin3; [by apply (inv_hashcons T' g3 I3)|done].
    + destruct X2 as [Hsz Hty]. split; cbn; rewrite ?Eu3; [pose proof (eqv_size g g1 Q1); lia|].
      intros i Hg. apply Hty. by apply (uf_equiv_in g g1 i Q1).
    + split; cbn.
      * intros i Hg. rewrite Eu3, Er2 by by apply (uf_equiv_in g g1 i Q1). by apply (eqv_rep g g1 Q1).
      * intros m id Hm. rewrite Eh3, Eh2. do 2 apply hm_find_emplace. by rewrite (eqv_hashcons g g1 Q1).
    + unfold in_graph in *. cbn. by rewrite Eu3.
    + symmetry. apply (entry_type _ _ _ _ N3).
    + cbn. apply hm_find_emplace. rewrite Eh3, Eh2. apply hm_emplace_find; [by apply clean_node|done].
    + intros e Hs. destruct (Hs1 e Hs) as [Hs' Hv]. destruct (S2 e Hs') as (He & Hs2 & Hk). set (e' := put_env e k _) in *.
      exists e'. split_and!.
      * destruct He as [Hsym Hnode]. split; [done|]. intros i Hg. apply Hnode. by apply (uf_equiv_in g g1 i Q1).
      * apply mark_updated_sat, set_hashcons_sat; [by apply S3|]. pose proof (S3 e' Hs2 (eq_sym Hk)) as Hs3.
        intros m p [Hp|[-> ->]]%Hin3; [by apply (sat_hashcons T' e' g3 Hs3)|done].
      * rewrite <- Hv. cbn. by rewrite Z.eqb_refl.
Qed.

(** The expressions that can be added: their [EGraphNode]s are classes of the
    graph with the right type, their data is clean. *)
Inductive op_fits T (g : EGraph) : Operation -> Prop :=
| fits_class d id : egraph_id d = Some id -> in_graph g id -> od_type d = T id -> op_fits T g (mkOp d [])
| fits_node d l : egraph_id d = None -> clean d -> Forall (op_fits T g) l -> op_fits T g (mkOp d l).
Lemma op_fits_mono T g T' g' op : extends T g T' g' -> op_fits T g op -> op_fits T' g' op.
Proof.
  intros Hx. induction op as [d l IH] using operation_ind'. intros Hf. inversion Hf as [? id Hd Hin Ht|? ? Hd Hc Hl]; subst.
  - pose proof Hx as [Hs E]. apply (fits_class _ _ _ id); [done|unfold in_graph in *; lia|by rewrite E].
  - apply fits_node; [done|done|]. rewrite Forall_forall in IH, Hl |- *. auto.
Qed.

Lemma op_fits_value T g e e' op : op_fits T g op -> env_extends g e e' -> denote e' op = denote e op.
Proof.
  intros Hf He. induction op as [d l IH] using operation_ind'. inversion Hf as [? id Hd Hin Ht|? ? Hd Hc Hl]; subst; cbn [denote].
  - unfold egraph_id in Hd. destruct d as [o t p]. cbn in *. destruct o, p; try discriminate. injection Hd as ->.
    unfold denote_node. cbn. by rewrite (ext_node g e e' He).
  - rewrite (denote_node_env d e e' (denote e <$> l)) by (done || apply He). f_equal. apply list_fmap_ext.
    intros k x Hx%list_elem_of_lookup_2. rewrite Forall_forall in IH, Hl. auto.
Qed.

(** The expression is in the graph, as class [id]. *)
Inductive present (g : EGraph) : Operation -> Z -> Prop :=
| present_class d l id : egraph_id d = Some id -> present g (mkOp d l) id
| present_node d l ids id :
    egraph_id d = None -> Forall2 (present g) l ids -> Forall (in_graph g) ids ->
    hm_find enode_eqb (hashcons g) (canon g (mkNode d ids)) = Some id -> present g (mkOp d l) id.

Lemma grows_canon g g' d ids : grows g g' -> Forall (in_graph g) ids -> canon g' (mkNode d ids) = canon g (mkNode d ids).
Proof.
  intros [R _] Hids. unfold canon. cbn. f_equal. apply list_fmap_ext. intros k i Hi%list_elem_of_lookup_2.
  rewrite Forall_forall in Hids. auto.
Qed.
Lemma present_mono g g' op id :
  uf_size (union_find g) <= uf_size (union_find g') -> grows g g' -> present g op id -> present g' op id.
Proof.
  intros Hle Hg. revert id. induction op as [d l IH] using operation_ind'. intros id Hp.
  inversion Hp as [? ? ? Hd|? ? ids ? Hd Hl Hids Hf]; subst; [by constructor|]. apply (present_node g' d l ids id); [done| | |].
  - clear -IH Hl. induction Hl as [|x i l ids Hx _ IHl]; [constructor|]. apply Forall_cons in IH as [Hx' IH]. constructor; auto.
  - eapply Forall_impl; [exact Hids|]. intros i Hi. unfold in_graph in *. lia.
  - rewrite (grows_canon g g') by done. by apply Hg.
Qed.

(** What adding an expression, or a list of them, leads to. *)
Definition added T (g : EGraph) T' (g' : EGraph) (vals : Env -> Env -> Prop) : Prop :=
  eg_inv T' g' /\ extends T g T' g' /\ grows g g' /\
  forall e, eg_sat T e g -> exists e', env_extends g e e' /\ eg_sat T' e' g' /\ vals e e'.

Lemma grows_refl g : grows g g.
Proof. by split. Qed.

Lemma eg_add_op_ok op : wf op -> forall T g, eg_inv T g -> op_fits T g op ->
  exists id g' T', eg_add_op op g = Ok (id, g') /\ in_graph g' id /\ T' id = op_type op /\ present g' op id /\
    added T g T' g' (fun e e' => env_node e' id = denote e op).
Proof.
  induction op as [d l IH] using operation_ind'. intros Hw T g Hi Hf. cbn [eg_add_op].
  inversion Hw as [? ? Hwl Hok]; subst. inversion Hf as [? id Hd Hin Ht|? ? Hd Hc Hl]; subst; rewrite Hd.
  { exists id, g, T. split_and!; try done; [by constructor|]. split_and!; [done|apply extends_refl|apply grows_refl|]. intros e Hs. exists e.
    split_and!; [apply env_extends_refl|done|]. rewrite <- (leaf_value T e g id Hs Hin). cbn. unfold denote_node.
    unfold egraph_id in Hd. destruct d as [o t p]. cbn in *. destruct o, p; try discriminate. injection Hd as ->. by rewrite Ht. }
  assert (exists ids g1 T1, add_list eg_add_op l g = Ok (ids, g1) /\ Forall (in_graph g1) ids /\
    T1 <$> ids = op_type <$> l /\ Forall2 (present g1) l ids /\ added T g T1 g1 (fun e e' => env_node e' <$> ids = denote e <$> l))
    as (ids & g1 & T1 & -> & Hids & Hty & P1 & I1 & X1 & G1 & S1).
  { clear Hf Hok Hw Hd Hc. revert T g Hi Hl. induction IH as [|x l Hx _ IHl]; intros T g Hi Hl; cbn [add_list].
    { exists [], g, T. split_and!; try done. split_and!; [done|apply extends_refl|apply grows_refl|]. intros e Hs. exists e. by split_and!; [apply env_extends_refl|..]. }
    apply Forall_cons in Hwl as [Wx Wl]. apply Forall_cons in Hl as [Fx Fl].
    destruct (Hx Wx T g Hi Fx) as (i & g1 & T1 & -> & In1 & Ty1 & P1 & I1 & X1 & G1 & S1). rewrite ok_bind. cbv beta iota.
    destruct (IHl Wl T1 g1 I1) as (ids & g2 & T2 & E2 & In2 & Ty2 & P2 & I2 & X2 & G2 & S2).
    { rewrite Forall_forall in Fl |- *. intros y Hy. by apply (op_fits_mono T g), Fl. }
    fold (add_list eg_add_op) in E2. rewrite E2, ok_bind. cbv beta iota. exists (i :: ids), g2, T2. pose proof (ext_size _ _ _ _ X2) as Hsz.
    split_and!; [done|..].
    - constructor; [|done]. unfold in_graph in *. lia.
    - cbn. f_equal; [by rewrite (ext_type _ _ _ _ X2)|done].
    - constructor; [by apply (present_mono g1 g2)|done].
    - split_and!; [done|by apply (extends_trans T g T1 g1)|apply (grows_trans g g1); [apply X1|done|done]|].
      intros e Hs. destruct (S1 e Hs) as (e1 & X1e & Hs1 & V1).
      destruct (S2 e1 Hs1) as (e2 & X2e & Hs2 & V2). exists e2. split_and!; [|done|].
      + apply (env_extends_trans g g1 e e1 e2); [apply X1|done|done].
      + cbn. f_equal; [by rewrite (ext_node g1 e1 e2 X2e)|]. rewrite V2. apply list_fmap_ext.
        intros k y Hy%list_elem_of_lookup_2. rewrite Forall_forall in Fl. apply (op_fits_value T g); auto. }
  rewrite ok_bind. cbv beta iota.
  destruct (eg_add_ok T1 g1 (mkNode d ids) I1 Hc) as (id & g2 & T2 & -> & I2 & X2 & G2 & In2 & Ty2 & F2 & S2); [|done|].
  { constructor; [apply Forall_forall; intros x (i & -> & _)%list_elem_of_fmap; apply leaf_wf|].
    eapply node_ok_ext; [|exact Hok]. rewrite <- Hty. cbn [en_operands]. by rewrite <- list_fmap_compose. }
  pose proof (ext_size _ _ _ _ X2) as Hsz. exists id, g2, T2. split_and!; [done|done|done| |].
  { apply (present_node g2 d l ids id); [done| | |by rewrite (grows_canon g1 g2)].
    - eapply Forall2_impl; [exact P1|]. intros x i. by apply present_mono.
    - eapply Forall_impl; [exact Hids|]. intros i Hin. unfold in_graph in *. lia. }
  split_and!; [done|by apply (extends_trans T g T1 g1)|apply (grows_trans g g1); [apply X1|done|done]|].
  intros e Hs. destruct (S1 e Hs) as (e1 & X1e & Hs1 & V1). destruct (S2 e1 Hs1) as (e2 & X2e & Hs2 & V2).
  exists e2. split_and!; [apply (env_extends_trans g g1 e e1 e2); [apply X1|done|done]|done|]. rewrite V2.
  rewrite (node_value T1 e1 g1 (mkNode d ids) Hs1 Hids). cbn [en_data en_operands denote]. rewrite V1.
  symmetry. apply denote_node_env; [done|apply X1e].
Qed.

(** An expression that is present is found again. *)
Lemma present_add op : forall T g id, eg_inv T g -> present g op id -> exists g', eg_add_op op g = Ok (id, g') /\ uf_equiv g g'.
Proof.
  induction op as [d l IH] using operation_ind'. intros T g id Hi Hp. cbn [eg_add_op].
  inversion Hp as [? ? ? Hd|? ? ids ? Hd Hl Hids Hf]; subst; rewrite Hd; [exists g; split; [done|apply uf_equiv_refl, (inv_uf T g Hi)]|].
  assert (exists g1, add_list eg_add_op l g = Ok (ids, g1) /\ uf_equiv g g1) as (g1 & -> & Q1).
  { clear Hp Hf Hids. revert g Hi ids Hl. induction IH as [|x l Hx _ IHl]; intros g Hi ids Hl; inversion Hl as [|? i ? ids' Px Pl]; subst; cbn [add_list].
    { exists g. split; [done|apply uf_equiv_refl, (inv_uf T g Hi)]. }
    destruct (Hx T g i Hi Px) as (g1 & -> & Q1). rewrite ok_bind. cbv beta iota.
    destruct (IHl g1 (uf_equiv_inv T g g1 Q1 Hi) ids') as (g2 & E2 & Q2).
    { eapply Forall2_impl; [exact Pl|]. intros y j. apply present_mono; [rewrite (eqv_size g g1 Q1); lia|by apply uf_equiv_grows]. }
    fold (add_list eg_add_op) in E2. rewrite E2, ok_bind. exists g2. split; [done|by apply (uf_equiv_trans g g1)]. }
  rewrite ok_bind. cbv beta iota. unfold eg_add. pose proof (uf_equiv_inv T g g1 Q1 Hi) as I1.
  destruct (canonicalize_ok g1 (mkNode d ids) (inv_uf T g1 I1)) as (g2 & -> & Q2).
  { eapply Forall_impl; [exact Hids|]. intros i. by apply (uf_equiv_in g g1 i Q1). }
  rewrite ok_bind. cbv beta iota. pose proof (uf_equiv_trans g g1 g2 Q1 Q2) as Q.
  rewrite (eqv_hashcons g g2 Q), (grows_canon g g1) by (done || by apply uf_equiv_grows). rewrite Hf. by exists g2.
Qed.
End sound.
