(* ===== verification/EGraphRebuild.v ===== *)
(** [EGraph::rebuild]: it terminates, keeps the invariant and stays sound.

    The statements are about a set [E] of environments in which the graph is
    sound at the beginning; every step keeps it sound in all of them.  The loop
    of [repair] iterates over the parents of a class while it merges classes,
    and a merge that touches that very class makes its behaviour undefined, so
    the specifications have the form [ok_or_ub]. *)
From S2P Require Import Prelude LLVM IRType Value Opcode Operation Matching Create Semantics.
From S2P Require Import Simplifier SimplifierInt UnionFind EGraph EGraphSound.
Open Scope Z_scope.

(** The computation ends with a value in [P], or in undefined behaviour. *)
Definition ok_or_ub {A} (r : result A) (P : A -> Prop) : Prop :=
  match r with Ok a => P a | Err e => e = UndefinedBehaviour end.
Lemma ub_bind {A B} (m : result A) (f : A -> result B) P Q :
  ok_or_ub m P -> (forall a, P a -> ok_or_ub (f a) Q) -> ok_or_ub (m ≫= f) Q.
Proof. destruct m; cbn; auto. Qed.
Lemma ub_mono {A} (r : result A) (P Q : A -> Prop) : ok_or_ub r P -> (forall a, P a -> Q a) -> ok_or_ub r Q.
Proof. destruct r; cbn; auto. Qed.

Section rebuild.
Context `{PtrEq} `{!DataPtrEq} `{MapOrder} `{MathExtrasAPI}.
Context (E : Env -> Prop) (T : Z -> Ty).
#[local] Abbreviation grep g i := (rep (union_find g) i).

Definition good (g : EGraph) : Prop := eg_inv T g /\ forall e, E e -> eg_sat T e g.
Definition good_entry (g : EGraph) (n : ENode) (p : Z) : Prop :=
  entry_ok T g n p /\ forall e, E e -> denote e (node_op T n) = env_node e p.

(** Every merge removes a class and puts one on the worklist. *)
Definition measure (g : EGraph) : nat := (size (classes g) + length (worklist g))%nat.
Record step (g g' : EGraph) : Prop := {
  step_good : good g';
  step_size : uf_size (union_find g') = uf_size (union_find g);
  step_measure : measure g' = measure g
}.

Lemma step_refl g : good g -> step g g.
Proof. by split. Qed.
Lemma step_trans g1 g2 g3 : step g1 g2 -> step g2 g3 -> step g1 g3.
Proof. intros [] []. split; [done|congruence|congruence]. Qed.
Lemma step_in g g' i : step g g' -> in_graph g i -> in_graph g' i.
Proof. intros [_ E1 _]. unfold in_graph. by rewrite E1. Qed.
Lemma step_entry g g' n p : step g g' -> good_entry g n p -> good_entry g' n p.
Proof. intros [_ E1 _] [K1 K2]. split; [|done]. apply (entry_ok_mono T g); [lia|done]. Qed.
Lemma step_entries g g' (ps : list (ENode * Z)) :
  step g g' -> (forall n p, (n, p) ∈ ps -> good_entry g n p) -> forall n p, (n, p) ∈ ps -> good_entry g' n p.
Proof. intros Hs Hps n p Hp. by apply (step_entry g), Hps. Qed.

Lemma equiv_step g g' : good g -> uf_equiv g g' -> step g g'.
Proof.
  intros [Hi Hs] Q. split; [split; [by apply (uf_equiv_inv T g)|intros e He; by apply (uf_equiv_sat T e g g' Q), Hs]|apply Q|].
  unfold measure. by rewrite (eqv_classes g g' Q), (eqv_worklist g g' Q).
Qed.

Lemma good_hash g n p : good g -> (n, p) ∈ hashcons g -> good_entry g n p.
Proof. intros [Hi Hs] Hp. split; [by apply (inv_hashcons T g Hi)|]. intros e He. by apply (sat_hashcons T e g (Hs e He)). Qed.
Lemma good_parent g i c n p : good g -> classes g !! i = Some c -> (n, p) ∈ parents c -> good_entry g n p.
Proof.
  intros [Hi Hs] Hc Hp. split; [by apply (inv_class T g Hi i c Hc)|]. intros e He.
  by apply (sat_parents T e i c (sat_class T e g (Hs e He) i c Hc)).
Qed.
Lemma good_node g i c n : good g -> classes g !! i = Some c -> n ∈ nodes c -> good_entry g n i.
Proof.
  intros [Hi Hs] Hc Hn. split; [by apply (inv_class T g Hi i c Hc)|]. intros e He.
  by apply (sat_nodes T e i c (sat_class T e g (Hs e He) i c Hc)).
Qed.

(** *** Steps *)
Lemma canonicalize_step g n p :
  good g -> good_entry g n p ->
  exists g', canonicalize_node g n = Ok (canon g n, g') /\ uf_equiv g g' /\ step g g' /\ good_entry g' (canon g n) p.
Proof.
  intros Hg [Hok Hv]. pose proof Hg as [Hi Hs].
  destruct (canonicalize_ok g n (inv_uf T g Hi) (entry_operands _ _ _ _ Hok)) as (g' & -> & Q). exists g'.
  pose proof (equiv_step g g' Hg Q) as St. split_and!; try done. apply (step_entry g g' _ _ St). split; [by apply canon_entry|].
  intros e He. rewrite (canon_value T e g n Hi (Hs e He)); [by apply Hv|apply Hok..].
Qed.
Lemma find_step g i :
  good g -> in_graph g i -> exists g', eg_find g i = Ok (grep g i, g') /\ uf_equiv g g' /\ step g g'.
Proof.
  intros Hg Hin. destruct (eg_find_ok g i (inv_uf T g (proj1 Hg)) Hin) as (g' & -> & Q). exists g'.
  split_and!; [done|done|by apply equiv_step].
Qed.
Lemma find_in g i : good g -> in_graph g i -> in_graph g (grep g i).
Proof. intros [Hi _] Hin. apply rep_range; [apply (inv_uf T g Hi)|done]. Qed.

(** An entry may be recorded for the representative instead. *)
Lemma entry_rep g n p : good g -> good_entry g n p -> good_entry g n (grep g p).
Proof.
  intros Hg [Hok Hv]. pose proof Hg as [Hi Hs]. pose proof (entry_class _ _ _ _ Hok) as Hp. split.
  - apply (entry_move T g n _ p); [by apply find_in|by apply (inv_type T g Hi)|done].
  - intros e He. rewrite (sat_rep T e g (Hs e He)) by done. auto.
Qed.

Lemma merge_step g i j :
  good g -> in_graph g i -> in_graph g j -> T i = T j -> (forall e, E e -> env_node e i = env_node e j) ->
  exists g', eg_merge g i j = Ok (grep g i, g') /\ step g g'.
Proof.
  intros [Hi Hs] Ri Rj ET Ev. destruct (eg_merge_ok T g i j Hi Ri Rj ET) as (g' & -> & I' & Sz & Ms & _ & S').
  exists g'. split; [done|]. split; [|done|done]. split; [done|]. intros e He. by apply S'; [apply Hs|apply Ev].
Qed.

Lemma set_class_step g i c c' :
  good g -> classes g !! i = Some c -> class_ok T g i c' -> (forall e, E e -> class_sat T e i c') ->
  step g (set_classes g (<[i := c']> (classes g))).
Proof.
  intros [Hi Hs] Hc Hok Hsat. split; [|done|].
  - split; [by apply (set_class_inv T g i c)|]. intros e He. apply set_class_sat; auto.
  - unfold measure. cbn. by rewrite map_size_insert_Some by eauto.
Qed.
Lemma set_hashcons_step g m :
  good g -> (forall n p, (n, p) ∈ m -> good_entry g n p) -> step g (set_hashcons g m).
Proof.
  intros [Hi Hs] Hm. split; [|done|done]. split.
  - apply set_hashcons_inv; [done|]. intros n p Hp. by apply Hm.
  - intros e He. apply set_hashcons_sat; [auto|]. intros n p Hp. by apply Hm.
Qed.

(** ** Dropping the other nodes of a constant class *)

(** The nodes of the classes are left alone. *)
Definition keeps_nodes (g g' : EGraph) : Prop :=
  forall i c, classes g !! i = Some c -> exists c', classes g' !! i = Some c' /\ nodes c' = nodes c /\ constant_index c' = constant_index c.

Lemma keeps_trans g1 g2 g3 : keeps_nodes g1 g2 -> keeps_nodes g2 g3 -> keeps_nodes g1 g3.
Proof.
  intros K1 K2 i c Hc. destruct (K1 i c Hc) as (c' & Hc' & ? & ?). destruct (K2 i c' Hc') as (c'' & ? & ? & ?).
  exists c''. split_and!; congruence.
Qed.

Lemma unparent_operands_ok g ops n :
  good g -> Forall (in_graph g) ops ->
  exists g', unparent_operands g ops n = Ok g' /\ step g g' /\ keeps_nodes g g'.
Proof.
  revert g. induction ops as [|i ops IH]; intros g Hg Hops; cbn [unparent_operands].
  { exists g. split_and!; [done|by apply step_refl|]. intros j c Hc. by exists c. }
  apply Forall_cons in Hops as [Hin Hops]. unfold eg_get.
  destruct (find_step g i Hg Hin) as (g1 & -> & Q1 & S1). rewrite !ok_bind. cbv beta iota.
  pose proof (step_good _ _ S1) as Hg1. rewrite (eqv_classes g g1 Q1).
  destruct (proj2 (inv_dom T g (proj1 Hg) (grep g i))) as [c Ec].
  { split; [by apply find_in|]. apply rep_rep; [apply (inv_uf T g (proj1 Hg))|done]. }
  rewrite Ec. cbn [fmap option_fmap option_map of_option]. rewrite ok_bind. cbv beta iota.
  assert (classes g1 !! grep g i = Some c) as Ec1 by (by rewrite (eqv_classes g g1 Q1)).
  set (c' := mkClass _ _ _ _). rewrite <- (eqv_classes g g1 Q1).
  assert (step g1 (set_classes g1 (<[grep g i := c']> (classes g1)))) as S2.
  { destruct Hg1 as [I1 Sat1]. apply (set_class_step g1 _ c); [done|done| |].
    - destruct (inv_class T g1 I1 _ _ Ec1) as [? ? ? Hp]. split; try done. intros m q Hq. by apply Hp, (hm_erase_in enode_eqb _ n).
    - intros e He. destruct (sat_class T e g1 (Sat1 e He) _ _ Ec1) as [? Hp ?]. split; try done.
      intros m q Hq. by apply Hp, (hm_erase_in enode_eqb _ n). }
  destruct (IH _ (step_good _ _ S2)) as (g' & -> & S3 & K3).
  { eapply Forall_impl; [exact Hops|]. intros j Hj. by apply (step_in g1 _ j S2), (step_in g g1 j S1). }
  exists g'. split_and!; [done|by apply (step_trans g g1), (step_trans g1 _ g' S2)|].
  intros j x Hx. rewrite <- (eqv_classes g g1 Q1) in Hx. destruct (decide (j = grep g i)) as [->|Hne].
  - rewrite Ec1 in Hx. injection Hx as <-. destruct (K3 (grep g i) c') as (x' & ? & ? & ?); [cbn; apply lookup_insert_eq|]. by exists x'.
  - apply K3. cbn. by rewrite lookup_insert_ne.
Qed.

Lemma unparent_nodes_ok g ns :
  good g -> Forall (fun n => Forall (in_graph g) (en_operands n)) ns ->
  exists g', unparent_nodes g ns = Ok g' /\ step g g' /\ keeps_nodes g g'.
Proof.
  revert g. induction ns as [|n ns IH]; intros g Hg Hns; cbn [unparent_nodes].
  { exists g. split_and!; [done|by apply step_refl|]. intros j c Hc. by exists c. }
  apply Forall_cons in Hns as [Hn Hns]. destruct (unparent_operands_ok g _ n Hg Hn) as (g1 & -> & S1 & K1). rewrite ok_bind.
  destruct (IH g1 (step_good _ _ S1)) as (g' & -> & S2 & K2).
  { eapply Forall_impl; [exact Hns|]. intros m Hm. cbn. eapply Forall_impl; [exact Hm|]. intros i. by apply step_in. }
  exists g'. split_and!; [done|by apply (step_trans g g1)|by apply (keeps_trans g g1)].
Qed.

Lemma unparent_ok g i c :
  good g -> classes g !! i = Some c -> is_Some (constant_index c) ->
  exists g', unparent g i = Ok g' /\ step g g' /\ is_Some (classes g' !! i).
Proof.
  intros Hg Hc [k Hk]. pose proof (inv_class T g (proj1 Hg) i c Hc) as [Hns _ Hci _]. unfold unparent, eg_at.
  rewrite Hc. cbn [of_option]. rewrite ok_bind, Hk. cbn [of_option]. rewrite ok_bind.
  destruct (length (nodes c) =? 1)%nat; [exists g; split_and!; [done|by apply step_refl|by rewrite Hc]|].
  destruct (unparent_nodes_ok g (nodes c) Hg) as (g1 & -> & S1 & K1).
  { apply Forall_forall. intros n Hn. apply (Hns n Hn). }
  rewrite ok_bind. destruct (K1 i c Hc) as (c1 & Hc1 & En & Ek). rewrite Hc1. cbn [of_option]. rewrite ok_bind.
  destruct (nodes c1 !! k) as [n|] eqn:Hn.
  2: { exfalso. apply lookup_ge_None in Hn. rewrite En in Hn. specialize (Hci k Hk). lia. }
  cbn [of_option]. rewrite ok_bind. eexists. split; [done|]. apply list_elem_of_lookup_2 in Hn.
  pose proof (step_good _ _ S1) as [I1 Sat1]. destruct (inv_class T g1 I1 i c1 Hc1) as [N1 ? ? P1]. split.
  - apply (step_trans g g1); [done|]. apply (set_class_step g1 i c1); [done|done| |].
    + split; cbn; [by intros x ->%list_elem_of_singleton; apply N1|done| |done]. intros j [= <-]. lia.
    + intros e He. destruct (sat_class T e g1 (Sat1 e He) i c1 Hc1) as [SN SP SC].
      split; cbn; [by intros x ->%list_elem_of_singleton; apply SN|done|done].
  - cbn. by rewrite lookup_insert_eq.
Qed.

(** ** Repairing a class *)
Lemma assign_entries g m k v :
  (forall n p, (n, p) ∈ m -> good_entry g n p) -> good_entry g k v ->
  forall n p, (n, p) ∈ hm_assign enode_eqb m k v -> good_entry g n p.
Proof.
  intros Hm Hk n p Hp. apply hm_assign_in in Hp as [Hp|[[= -> ->]|(Hn & Hv & v' & Hin)]]; [by apply Hm|done|].
  cbn in Hn, Hv, Hin. subst v. apply clean_node in Hn as ->; [done|apply (Hm n v' Hin)|apply Hk].
Qed.

Lemma repair_hashcons_ok g ps :
  good g -> (forall n p, (n, p) ∈ ps -> good_entry g n p) ->
  exists g', repair_hashcons g ps = Ok g' /\ step g g' /\ classes g' = classes g.
Proof.
  revert g. induction ps as [|[n p] ps IH]; intros g Hg Hps; cbn [repair_hashcons].
  { exists g. split_and!; [done|by apply step_refl|done]. }
  destruct (canonicalize_step g n p Hg) as (g1 & -> & Q1 & S1 & Hn1); [apply Hps; by left|]. rewrite ok_bind. cbv beta iota zeta.
  assert (step g1 (set_hashcons g1 (hm_erase enode_eqb (hashcons g1) n))) as S2.
  { apply set_hashcons_step; [apply S1|]. intros m q Hq. apply good_hash; [apply S1|]. by apply (hm_erase_in enode_eqb _ n). }
  set (g2 := set_hashcons g1 _) in *. pose proof (step_entry _ _ _ _ S2 Hn1) as Hn2.
  destruct (find_step g2 p (step_good _ _ S2)) as (g3 & -> & Q3 & S3); [apply Hn2|]. rewrite ok_bind. cbv beta iota.
  pose proof (step_entry _ _ _ _ S3 (entry_rep g2 _ p (step_good _ _ S2) Hn2)) as Hn3.
  assert (step g3 (set_hashcons g3 (hm_assign enode_eqb (hashcons g3) (canon g n) (grep g2 p)))) as S4.
  { apply set_hashcons_step; [apply S3|]. apply assign_entries; [|done]. intros m q. apply good_hash, S3. }
  pose proof (step_trans _ _ _ S1 (step_trans _ _ _ S2 (step_trans _ _ _ S3 S4))) as St.
  destruct (IH _ (step_good _ _ S4)) as (g' & -> & S5 & Ec).
  { intros m q Hq. apply (step_entry g _ m q St), Hps. by right. }
  exists g'. split_and!; [done|by apply (step_trans _ _ _ St)|]. rewrite Ec. cbn.
  rewrite (eqv_classes g2 g3 Q3). cbn. apply (eqv_classes g g1 Q1).
Qed.

Lemma repair_parents_ok g i orig ps new :
  good g -> (forall n p, (n, p) ∈ ps -> good_entry g n p) -> (forall n p, (n, p) ∈ new -> good_entry g n p) ->
  is_Some (classes g !! i) ->
  ok_or_ub (repair_parents g i orig ps new) (fun r => step g r.2 /\ is_Some (classes r.2 !! i) /\
    forall n p, (n, p) ∈ r.1 -> good_entry r.2 n p).
Proof.
  revert g new. induction ps as [|[n p] ps IH]; intros g new Hg Hps Hnew Hci; cbn [repair_parents].
  { cbn. split_and!; [by apply step_refl|done|done]. }
  destruct (canonicalize_step g n p Hg) as (g1 & -> & Q1 & S1 & Hn1); [apply Hps; by left|]. rewrite ok_bind. cbv beta iota.
  pose proof (step_entries g g1 new S1 Hnew) as Hnew1. pose proof (step_good _ _ S1) as Hg1.
  eapply (ub_bind _ _ (fun r => step g1 r.2 /\ is_Some (classes r.2 !! i) /\ forall m q, (m, q) ∈ r.1 -> good_entry r.2 m q)).
  - destruct (hm_find enode_eqb new (canon g n)) as [other|] eqn:Ef.
    + apply (hm_find_clean T g1) in Ef; [|intros k q Hq; by apply Hnew1|apply Hn1].
      pose proof (Hnew1 _ _ Ef) as [Ho Hov]. pose proof Hn1 as [Hok Hv].
      destruct (merge_step g1 p other Hg1) as (g2 & -> & S2); [apply Hok|apply Ho| |intros e He; by rewrite <- Hv, <- Hov|].
      { by rewrite <- (entry_type _ _ _ _ Hok), <- (entry_type _ _ _ _ Ho). }
      rewrite ok_bind. cbv beta iota. destruct (classes g2 !! i) as [c|] eqn:Hc; [|done]. cbn [of_option]. rewrite ok_bind.
      case_bool_decide; [|done]. rewrite ok_bind. cbn. split_and!; [done|by rewrite Hc|].
      apply assign_entries; [by apply (step_entries g1)|]. apply (step_entry g1 g2 _ _ S2), entry_rep; done.
    + destruct (find_step g1 p Hg1) as (g2 & -> & Q2 & S2); [apply Hn1|]. rewrite ok_bind. cbv beta iota. cbn.
      split_and!; [done|by rewrite (eqv_classes g1 g2 Q2), (eqv_classes g g1 Q1)|].
      intros m q [Hq|[= -> ->]]%hm_emplace_in; [by apply (step_entry g1 g2 _ _ S2), Hnew1|].
      by apply (step_entry g1 g2 _ _ S2), entry_rep.
  - intros [new2 g2] (S2 & Hc2 & Hn2). cbn [fst snd] in *. pose proof (step_trans _ _ _ S1 S2) as St.
    eapply ub_mono; [apply (IH g2 new2 (step_good _ _ S2)); [|done|done]|].
    + intros m q Hq. apply (step_entry g g2 _ _ St), Hps. by right.
    + intros [new3 g3] (S3 & Hc3 & Hn3). cbn in *. split_and!; [by apply (step_trans g g2)|done|done].
Qed.

Lemma canonicalize_all_ok g ns i :
  good g -> (forall n, n ∈ ns -> good_entry g n i) ->
  exists ns' g', canonicalize_all g ns = Ok (ns', g') /\ uf_equiv g g' /\ step g g' /\ length ns' = length ns /\
    forall n, n ∈ ns' -> good_entry g' n i.
Proof.
  revert g. induction ns as [|n ns IH]; intros g Hg Hns; cbn [canonicalize_all].
  { exists [], g. split_and!; [done|apply uf_equiv_refl, (inv_uf T g (proj1 Hg))|by apply step_refl|done|by intros ? ?%elem_of_nil]. }
  destruct (canonicalize_step g n i Hg) as (g1 & -> & Q1 & S1 & Hn1); [apply Hns; by left|]. rewrite ok_bind. cbv beta iota.
  destruct (IH g1 (step_good _ _ S1)) as (ns' & g2 & -> & Q2 & S2 & Hl & Hns2).
  { intros m Hm. apply (step_entry g g1 _ _ S1), Hns. by right. }
  rewrite ok_bind. exists (canon g n :: ns'), g2. split_and!; [done|by apply (uf_equiv_trans g g1)|by apply (step_trans g g1)|cbn; lia|].
  intros m [->|Hm]%elem_of_cons; [by apply (step_entry g1 g2)|auto].
Qed.

Lemma repair_ok g i :
  good g -> is_Some (classes g !! i) ->
  ok_or_ub (repair g i) (fun g' => step g g' /\ is_Some (classes g' !! i)).
Proof.
  intros Hg [c Hc]. unfold repair, eg_at. rewrite Hc. cbn [of_option]. rewrite ok_bind.
  assert (exists g1, (if eclass_is_constant c then unparent g i else Ok g) = Ok g1 /\ step g g1 /\ is_Some (classes g1 !! i))
    as (g1 & -> & S1 & [c1 Hc1]).
  { unfold eclass_is_constant. case_bool_decide as Hk; [by apply (unparent_ok g i c)|].
    exists g. split_and!; [done|by apply step_refl|by rewrite Hc]. }
  rewrite ok_bind, Hc1. cbn [of_option]. rewrite ok_bind. cbv zeta. pose proof (step_good _ _ S1) as Hg1.
  assert (forall n p, (n, p) ∈ map_order (parents c1) -> good_entry g1 n p) as Hps.
  { intros n p Hp. rewrite map_order_perm in Hp. by apply (good_parent g1 i c1). }
  destruct (repair_hashcons_ok g1 _ Hg1 Hps) as (g2 & -> & S2 & Ec2). rewrite ok_bind.
  eapply ub_bind; [apply (repair_parents_ok g2 i _ _ [] (step_good _ _ S2))|].
  { by apply (step_entries g1). }
  { by intros ? ? ?%elem_of_nil. }
  { rewrite Ec2. eauto. }
  intros [new g3] (S3 & [c3 Hc3] & Hnew). cbn [fst snd] in *. rewrite Hc3. cbn [of_option]. rewrite ok_bind.
  destruct (canonicalize_all_ok g3 (nodes c3) i (step_good _ _ S3)) as (ns & g4 & -> & Q4 & S4 & Hl & Hns).
  { intros n Hn. apply (good_node g3 i c3); [apply S3|done|done]. }
  rewrite ok_bind. cbv beta iota. cbn [ok_or_ub]. split; [|cbn; by rewrite lookup_insert_eq].
  apply (step_trans _ _ _ S1), (step_trans _ _ _ S2), (step_trans _ _ _ S3), (step_trans _ _ _ S4).
  pose proof (step_good _ _ S4) as [I4 Sat4].
  assert (classes g4 !! i = Some c3) as Hc4 by (by rewrite (eqv_classes g3 g4 Q4)).
  pose proof (step_entries g3 g4 new S4 Hnew) as Hnew4. destruct (inv_class T g4 I4 i c3 Hc4) as [_ Hne Hk _].
  apply (set_class_step g4 i c3); [done|done| |].
  - split; cbn; [intros n Hn; by apply Hns| | |intros n p Hp; by apply Hnew4].
    + destruct ns; [|done]. destruct (nodes c3); done.
    + intros k Hck. rewrite Hl. by apply Hk.
  - intros e He. split; cbn; [intros n Hn; by apply Hns|intros n p Hp; by apply Hnew4|].
    apply (sat_class T e g4 (Sat4 e He) i c3 Hc4).
Qed.

(** ** The two loops *)
Lemma parents_in g i c : good g -> classes g !! i = Some c -> Forall (in_graph g) (map_order (parents c)).*2.
Proof.
  intros Hg Hc. apply Forall_forall. intros x ([n p] & -> & Hp)%list_elem_of_fmap. rewrite map_order_perm in Hp.
  by destruct (good_parent g i c n p Hg Hc Hp) as [[] _].
Qed.

Lemma rebuild_todo_ok g todo stack :
  good g -> Forall (in_graph g) todo -> Forall (in_graph g) stack ->
  ok_or_ub (rebuild_todo g todo stack) (fun r => step g r.2 /\ Forall (in_graph r.2) r.1).
Proof.
  revert g stack. induction todo as [|i todo IH]; intros g stack Hg Ht Hst; cbn [rebuild_todo].
  { cbn. split; [by apply step_refl|done]. }
  apply Forall_cons in Ht as [Hin Ht]. destruct (find_step g i Hg Hin) as (g1 & -> & Q1 & S1). rewrite ok_bind. cbv beta iota.
  eapply ub_bind; [apply (repair_ok g1 (grep g i) (step_good _ _ S1))|].
  { rewrite (eqv_classes g g1 Q1). apply (inv_dom T g (proj1 Hg)). split; [by apply find_in|].
    apply rep_rep; [apply (inv_uf T g (proj1 Hg))|done]. }
  intros g2 [S2 [c Hc]]. unfold eg_at. rewrite Hc. cbn [of_option]. rewrite ok_bind. pose proof (step_trans _ _ _ S1 S2) as St.
  assert (forall l, Forall (in_graph g) l -> Forall (in_graph g2) l) as Hmono.
  { intros l Hl. eapply Forall_impl; [exact Hl|]. intros j. by apply step_in. }
  eapply ub_mono; [apply (IH g2 _ (step_good _ _ S2)); [by apply Hmono|]|].
  - apply Forall_app. split; [|by apply Hmono]. rewrite reverse_Permutation. apply (parents_in g2 (grep g i) c); [apply S2|done].
  - intros [stack' g3] [S3 Hst3]. split; [by apply (step_trans g g2)|done].
Qed.

Lemma rebuild_loop_ok fuel g stack :
  good g -> Forall (in_graph g) stack -> (size (classes g) < fuel)%nat ->
  ok_or_ub (rebuild_loop fuel g stack) (fun r => good r.2 /\ uf_size (union_find r.2) = uf_size (union_find g) /\
    worklist r.2 = [] /\ Forall (in_graph r.2) r.1).
Proof.
  revert g stack. induction fuel as [|fuel IH]; intros g stack Hg Hst Hf; [lia|]. cbn [rebuild_loop].
  destruct (worklist g) as [|i todo] eqn:Ew; [by cbn|]. pose proof Hg as [Hi Hs].
  assert (good (set_worklist g [])) as Hg0.
  { split; [|intros e He; by destruct (Hs e He); split]. destruct Hi as [? ? ? Hc Hh Hw ?]. split; try done.
    - intros j c Hj. apply (class_ok_mono T g); [done|by apply Hc].
    - intros n p Hp. apply (entry_ok_mono T g); [done|by apply Hh]. }
  eapply ub_bind; [apply (rebuild_todo_ok _ (i :: todo) stack Hg0); [rewrite <- Ew; apply (inv_worklist T g Hi)|done]|].
  intros [stack1 g1] [S1 Hst1]. cbn [fst snd] in *. pose proof (step_measure _ _ S1) as Hm. pose proof (step_size _ _ S1) as Hsz.
  unfold measure in Hm. cbn in Hm, Hsz. destruct (worklist g1) as [|j todo1] eqn:Ew1.
  - destruct fuel; cbn [rebuild_loop]; rewrite Ew1; cbn; split_and!; try done; apply S1.
  - eapply ub_mono; [apply (IH g1 stack1 (step_good _ _ S1) Hst1)|].
    + cbn in Hm. lia.
    + intros [stack2 g2] (? & Hs2 & ? & ?). cbn in *. split_and!; try done. congruence.
Qed.

Lemma total_parents_bound g i c : classes g !! i = Some c -> (length (parents c) <= total_parents g)%nat.
Proof.
  intros Hc. unfold total_parents. rewrite <- (insert_delete_id (classes g) i c Hc) at 1.
  rewrite map_fold_insert_L; [lia| |by apply lookup_delete_eq]. intros. lia.
Qed.
Lemma total_parents_set g i c c' :
  classes g !! i = Some c -> length (parents c') = length (parents c) ->
  total_parents (set_classes g (<[i := c']> (classes g))) = total_parents g.
Proof.
  intros Hc Hl. unfold total_parents. cbn. rewrite <- (insert_delete_id (classes g) i c Hc) at 2.
  rewrite <- (insert_delete_eq (classes g) i c').
  rewrite !map_fold_insert_L; [by rewrite Hl|intros; lia|by apply lookup_delete_eq|intros; lia|by apply lookup_delete_eq].
Qed.

Lemma visited_bound g (visited : gset Z) :
  (forall i, i ∈ visited -> in_graph g i) -> (size visited <= length (union_find g))%nat.
Proof.
  intros Hv. transitivity (size (list_to_set (C := gset Z) (Z.of_nat <$> seq 0 (length (union_find g))))).
  - apply subseteq_size. intros i Hi. apply elem_of_list_to_set, list_elem_of_fmap. specialize (Hv i Hi).
    unfold in_graph, uf_size in Hv. exists (Z.to_nat i). split; [lia|]. apply elem_of_seq. lia.
  - rewrite size_list_to_set; [by rewrite length_fmap, length_seq|]. apply NoDup_fmap_2; [apply _|apply NoDup_seq].
Qed.

Lemma clear_caches_ok fuel g visited stack :
  good g -> Forall (in_graph g) stack -> (forall i, i ∈ visited -> in_graph g i) ->
  (length stack + (length (union_find g) - size visited) * total_parents g <= fuel)%nat ->
  exists g', clear_caches fuel g visited stack = Ok g' /\ good g' /\ worklist g' = worklist g /\
    uf_size (union_find g') = uf_size (union_find g).
Proof.
  revert g visited stack. induction fuel as [|fuel IH]; intros g visited stack Hg Hst Hv Hf.
  { destruct stack as [|i stack]; [by exists g|]. exfalso. apply Nat.le_0_r, Nat.eq_add_0 in Hf as [Hf _]. discriminate Hf. }
  destruct stack as [|i stack]; cbn [clear_caches]; [by exists g|]. apply Forall_cons in Hst as [Hin Hst].
  case_decide as Hd; [apply IH; try done; cbn in Hf; lia|]. unfold eg_get.
  destruct (find_step g i Hg Hin) as (g1 & -> & Q1 & S1). rewrite !ok_bind. cbv beta iota.
  assert (exists c, classes g1 !! grep g i = Some c) as [c Hc].
  { rewrite (eqv_classes g g1 Q1). apply (inv_dom T g (proj1 Hg)). split; [by apply find_in|].
    apply rep_rep; [apply (inv_uf T g (proj1 Hg))|done]. }
  rewrite Hc. cbn [fmap option_fmap option_map of_option]. rewrite ok_bind. cbv beta iota zeta.
  set (c' := mkClass _ _ no_cache _). set (g2 := set_classes g1 (<[grep g i := c']> (classes g1))).
  pose proof (step_good _ _ S1) as Hg1.
  assert (step g1 g2) as S2.
  { apply (set_class_step g1 _ c); [done|done| |].
    - destruct (inv_class T g1 (proj1 Hg1) _ _ Hc). by split.
    - intros e He. destruct (sat_class T e g1 (proj2 Hg1 e He) _ _ Hc). by split. }
  assert (good (mark_updated g2 i)) as Hg3.
  { destruct (step_good _ _ S2) as [I2 Sat2]. split; [apply mark_updated_inv; [by apply (step_in g g1 i S1)|done]|]. intros e He. by apply mark_updated_sat, Sat2. }
  assert (forall j, in_graph g j -> in_graph (mark_updated g2 i) j) as Hmono.
  { intros j Hj. by apply (step_in g g1 j S1). }
  assert (length (union_find g1) = length (union_find g)) as Hlen.
  { pose proof (eqv_size g g1 Q1) as Es. unfold uf_size in Es. lia. }
  destruct (IH (mark_updated g2 i) ({[i]} ∪ visited) (reverse (filter (fun p => p ∉ {[i]} ∪ visited) (map_order (parents c)).*2) ++ stack) Hg3)
    as (g' & E' & Hg' & Ew & Eu).
  - apply Forall_app. split; [|eapply Forall_impl; [exact Hst|]; intros j; apply Hmono]. rewrite reverse_Permutation.
    apply Forall_filter. apply (parents_in g1 (grep g i) c Hg1 Hc).
  - intros j [->%elem_of_singleton|Hj]%elem_of_union; [by apply Hmono|]. apply Hmono. auto.
  - assert (size ({[i]} ∪ visited) = S (size visited)) as Esz.
    { rewrite size_union by set_solver. by rewrite size_singleton. }
    assert (size ({[i]} ∪ visited) <= length (union_find g))%nat as Hb.
    { apply visited_bound. intros j [->%elem_of_singleton|Hj]%elem_of_union; auto. }
    rewrite length_app, length_reverse. cbn [union_find mark_updated set_classes g2].
    change (total_parents (mark_updated g2 i)) with (total_parents g2). unfold g2. rewrite (total_parents_set g1 _ c c' Hc eq_refl).
    assert (total_parents g1 = total_parents g) as -> by (unfold total_parents; by rewrite (eqv_classes g g1 Q1)).
    assert (length (filter (fun p => p ∉ {[i]} ∪ visited) (map_order (parents c)).*2) <= total_parents g)%nat as Hp.
    { rewrite (eqv_classes g g1 Q1) in Hc. pose proof (total_parents_bound g _ c Hc).
      pose proof (length_filter (fun p => p ∉ {[i]} ∪ visited) (map_order (parents c)).*2) as Hfl.
      rewrite length_fmap in Hfl. pose proof (Permutation_length (map_order_perm _ (parents c))). lia. }
    rewrite Hlen, Esz. cbn [length] in Hf. rewrite Esz in Hb.
    replace (length (union_find g) - size visited)%nat with (S (length (union_find g) - S (size visited)))%nat in Hf by lia.
    rewrite Nat.mul_succ_l in Hf. revert Hf Hp. generalize ((length (union_find g) - S (size visited)) * total_parents g)%nat. lia.
  - exists g'. split_and!; [exact E'|done| |].
    + rewrite Ew. cbn. apply (eqv_worklist g g1 Q1).
    + rewrite Eu. cbn. apply (eqv_size g g1 Q1).
Qed.

Lemma rebuild_ok g :
  good g -> ok_or_ub (rebuild g) (fun g' => good g' /\ worklist g' = [] /\ uf_size (union_find g') = uf_size (union_find g)).
Proof.
  intros Hg. unfold rebuild. eapply ub_bind; [apply (rebuild_loop_ok _ g []); [done|constructor|lia]|].
  intros [stack g1] (Hg1 & Hsz & Hw & Hst). cbn [fst snd] in *.
  destruct (clear_caches_ok (length stack + length (union_find g1) * total_parents g1) g1 ∅ stack) as (g' & -> & ? & Hw' & ?);
    [done|done|set_solver|rewrite size_empty; lia|]. cbn. split_and!; congruence.
Qed.
End rebuild.

(** ** The contracts *)
Section contracts.
Context `{PtrEq} `{!DataPtrEq} `{MapOrder} `{MathExtrasAPI}.
#[local] Abbreviation grep g i := (rep (union_find g) i).

(** C14: Adding an expression to an e-graph succeeds, keeps the invariant and
    returns a class of the expression's type; in every environment in which
    the graph is sound the new classes can be given values, without changing
    the old ones, such that the graph is sound again and the class returned
    has the value of the expression.  The expression must fit the graph
    ([op_fits]): the classes it refers to are classes of the graph, and no
    floating-point constant in it is a zero or a NaN ([clean]), because
    [operator==] on node data compares floats by value and takes 0.0 for -0.0
    and a NaN for different from itself. *)
Theorem egraph_add_correct T g op :
  eg_inv T g -> wf op -> op_fits T g op ->
  exists id g' T', eg_add_op op g = Ok (id, g') /\ eg_inv T' g' /\ (forall i, in_graph g i -> T' i = T i) /\
    in_graph g' id /\ T' id = op_type op /\
    forall e, eg_sat T e g -> exists e', same_symbols e e' /\ (forall i, in_graph g i -> env_node e' i = env_node e i) /\
      eg_sat T' e' g' /\ env_node e' id = denote e op.
Proof.
  intros Hi Hw Hf. destruct (eg_add_op_ok op Hw T g Hi Hf) as (id & g' & T' & E & Hin & Ht & _ & I' & X & _ & S).
  exists id, g', T'. split_and!; try done; [apply X|]. intros e He. destruct (S e He) as (e' & [Hsym Hn] & Hs & Hv).
  exists e'. split_and!; done.
Qed.

(** Hash-consing: adding an expression a second time finds the class of the
    first time and changes nothing but path lengths in the union-find
    structure. *)
Theorem egraph_add_idempotent T g op :
  eg_inv T g -> wf op -> op_fits T g op ->
  exists id g' g'', eg_add_op op g = Ok (id, g') /\ eg_add_op op g' = Ok (id, g'') /\
    hashcons g'' = hashcons g' /\ classes g'' = classes g' /\ worklist g'' = worklist g' /\
    forall i, in_graph g' i -> grep g'' i = grep g' i.
Proof.
  intros Hi Hw Hf. destruct (eg_add_op_ok op Hw T g Hi Hf) as (id & g' & T' & E & _ & _ & P & I' & _).
  destruct (present_add op T' g' id I' P) as (g'' & E' & Q). exists id, g', g''.
  split_and!; [done|done|apply Q|apply Q|apply Q|apply (eqv_rep _ _ Q)].
Qed.

(** C15: Merging two classes of one type succeeds and keeps the invariant.  The
    representative of the first class becomes the representative of everything
    that was in the second, and of nothing else; every node of both classes is
    a node of the merged class and the other classes keep their nodes; classes
    that were apart are queued for repair; and the graph stays sound in every
    environment in which the two classes have the same value. *)
Theorem egraph_merge_correct T g id1 id2 :
  eg_inv T g -> in_graph g id1 -> in_graph g id2 -> T id1 = T id2 ->
  exists g', eg_merge g id1 id2 = Ok (grep g id1, g') /\ eg_inv T g' /\
    (forall i, in_graph g i -> grep g' i = if decide (grep g i = grep g id2) then grep g id1 else grep g i) /\
    (forall i c n, classes g !! i = Some c -> n ∈ nodes c ->
       exists c', classes g' !! (if decide (i = grep g id2) then grep g id1 else i) = Some c' /\ n ∈ nodes c') /\
    (grep g id1 <> grep g id2 -> grep g id1 ∈ worklist g') /\
    forall e, eg_sat T e g -> env_node e id1 = env_node e id2 -> eg_sat T e g'.
Proof.
  intros Hi R1 R2 ET. destruct (eg_merge_ok T g id1 id2 Hi R1 R2 ET) as (g' & E & I' & _ & _ & Hr & S). exists g'.
  destruct (eg_merge_keeps T g id1 id2 (grep g id1) g' Hi R1 R2 E) as [Hn Hw]. by split_and!.
Qed.

(** C12: [rebuild] terminates on every e-graph and fails no assertion: it ends
    with an empty worklist, or in the undefined behaviour of a merge that
    removes the class being repaired or changes its parents.  When it ends,
    the invariant holds and the graph is sound in every environment in which
    it was sound before, so the merges it makes are between classes with equal
    values. *)
Theorem egraph_rebuild_correct T g :
  eg_inv T g ->
  rebuild g = Err UndefinedBehaviour \/
  exists g', rebuild g = Ok g' /\ eg_inv T g' /\ worklist g' = [] /\ forall e, eg_sat T e g -> eg_sat T e g'.
Proof.
  intros Hi. pose proof (rebuild_ok (fun e => eg_sat T e g) T g) as K. unfold ok_or_ub in K.
  destruct (rebuild g) as [g'|err]; [right|left].
  - destruct K as ([I' S'] & Hw & _); [done|]. by exists g'.
  - by rewrite K.
Qed.
End contracts.

Module egraph_witness.
Definition sym8 (s : string) : Operation := mkOp (mkData OpConstantNamed (ity 8) (PSymbol (Named s))) [].
Definition not8 (x : Operation) : Operation := mkOp (mkData OpNot (ity 8) NoPayload) [x].
Definition T0 (_ : Z) : Ty := ity 8.

Lemma empty_inv T : eg_inv T eg_empty.
Proof.
  assert (forall i, ~ in_graph eg_empty i) as Hno by (intros i; unfold in_graph, uf_size; cbn; lia).
  split; cbn.
  - intros i Hi. by destruct (Hno i).
  - intros i Hi. by destruct (Hno i).
  - intros i. rewrite lookup_empty. split; [by intros []|]. intros [Hi _]. by destruct (Hno i).
  - by intros i c ?%lookup_empty_Some.
  - intros n p Hp. by apply elem_of_nil in Hp.
  - constructor.
  - set_solver.
Qed.
Lemma sym_node_wf s : wf (sym8 s).
Proof. constructor; [constructor|]. by exists (Named s). Qed.
Lemma not8_wf s : wf (not8 (sym8 s)).
Proof. constructor; [by constructor; [apply sym_node_wf|constructor]|]. exists 8. done. Qed.
Lemma not8_fits T g s : op_fits T g (not8 (sym8 s)).
Proof. apply fits_node; [done|done|]. constructor; [|constructor]. by apply fits_node. Qed.

Lemma egraph_add_correct_witness :
  exists id g' T', eg_add_op (not8 (sym8 "x")) eg_empty = Ok (id, g') /\ eg_inv T' g' /\ T' id = ity 8.
Proof.
  destruct (egraph_add_correct T0 eg_empty (not8 (sym8 "x"))) as (id & g' & T' & E & I' & _ & _ & Ht & _);
    [apply empty_inv|apply not8_wf|apply not8_fits|]. by exists id, g', T'.
Defined.
Lemma egraph_add_idempotent_witness :
  exists id g' g'', eg_add_op (not8 (sym8 "x")) eg_empty = Ok (id, g') /\ eg_add_op (not8 (sym8 "x")) g' = Ok (id, g'') /\
    classes g'' = classes g'.
Proof.
  destruct (egraph_add_idempotent T0 eg_empty (not8 (sym8 "x"))) as (id & g' & g'' & E & E' & _ & Ec & _);
    [apply empty_inv|apply not8_wf|apply not8_fits|]. by exists id, g', g''.
Defined.

(** x, !x, y and !y, then x = y. *)
Definition or_empty (r : result (Z * EGraph)) : Z * EGraph := match r with Ok p => p | Err _ => (0, eg_empty) end.
Definition with_expr (op : Operation) (g : EGraph) : EGraph := (or_empty (eg_add_op op g)).2.
Definition gx : EGraph := with_expr (sym8 "x") eg_empty.
Definition gnx : EGraph := with_expr (not8 (sym8 "x")) gx.
Definition gy : EGraph := with_expr (sym8 "y") gnx.
Definition gxy : EGraph := with_expr (not8 (sym8 "y")) gy.
Definition merged : EGraph := (or_empty (eg_merge gxy 0 2)).2.

Lemma add_step op T g :
  wf op -> op_fits T g op -> eg_inv T g ->
  exists T', eg_inv T' (with_expr op g) /\ (forall i, in_graph g i -> T' i = T i) /\
    T' (or_empty (eg_add_op op g)).1 = op_type op.
Proof.
  intros Hw Hf Hi. destruct (eg_add_op_ok op Hw T g Hi Hf) as (id & g' & T' & E & _ & Ht & _ & I' & X & _).
  exists T'. unfold with_expr. rewrite E. split_and!; [done|apply X|done].
Qed.
Lemma sym8_fits T g s : op_fits T g (sym8 s).
Proof. by apply fits_node. Qed.

Lemma gxy_inv : exists T, eg_inv T gxy /\ T 0 = T 2.
Proof.
  destruct (add_step _ _ _ (sym_node_wf "x") (sym8_fits T0 _ _) (empty_inv T0)) as (Ta & Ia & _ & Ta0).
  destruct (add_step _ _ _ (not8_wf "x") (not8_fits Ta _ _) Ia) as (Tb & Ib & Xb & _).
  destruct (add_step _ _ _ (sym_node_wf "y") (sym8_fits Tb _ _) Ib) as (Tc & Ic & Xc & Tc2).
  destruct (add_step _ _ _ (not8_wf "y") (not8_fits Tc _ _) Ic) as (Td & Id & Xd & _).
  exists Td. split; [exact Id|].
  assert (in_graph gx 0 /\ in_graph gnx 0 /\ in_graph gy 0 /\ in_graph gy 2) as (R1 & R2 & R3 & R4) by (unfold in_graph; vm_decide).
  assert ((or_empty (eg_add_op (sym8 "x") eg_empty)).1 = 0 /\ (or_empty (eg_add_op (sym8 "y") gnx)).1 = 2) as [E0 E2] by vm_decide.
  rewrite E0 in Ta0. change (with_expr (not8 (sym8 "x")) (with_expr (sym8 "x") eg_empty)) with gnx in Tc2. rewrite E2 in Tc2.
  rewrite (Xd 0 R3), (Xc 0 R2), (Xb 0 R1), (Xd 2 R4), Ta0, Tc2. exact eq_refl.
Qed.

Lemma egraph_merge_correct_witness :
  exists T g', eg_merge gxy 0 2 = Ok (0, g') /\ eg_inv T g' /\ rep (union_find g') 2 = 0 /\ 0 ∈ worklist g'.
Proof.
  destruct gxy_inv as (T & I & ET).
  assert (in_graph gxy 0 /\ in_graph gxy 2 /\ rep (union_find gxy) 0 = 0 /\ rep (union_find gxy) 2 = 2) as (R0 & R2 & E0 & E2)
    by (unfold in_graph; vm_decide).
  destruct (egraph_merge_correct T gxy 0 2 I R0 R2 ET) as (g' & E & I' & Hr & _ & Hw & _). rewrite E0, E2 in *.
  exists T, g'. split; [exact E|]. split; [exact I'|]. split; [|apply Hw; discriminate].
  rewrite (Hr 2 R2), E2, decide_True by reflexivity. reflexivity.
Defined.

Lemma merged_inv : exists T, eg_inv T merged.
Proof.
  destruct gxy_inv as (T & I & ET).
  assert (in_graph gxy 0 /\ in_graph gxy 2) as (R0 & R2) by (unfold in_graph; vm_decide).
  destruct (eg_merge_ok T gxy 0 2 I R0 R2 ET) as (g' & E & I' & _). exists T. unfold merged. rewrite E. exact I'.
Qed.

Definition reps (r : result EGraph) : option (Z * Z) :=
  match r with Ok g => Some (rep (union_find g) 1, rep (union_find g) 3) | Err _ => None end.
Lemma rebuilt_reps : reps (rebuild merged) = Some (3, 3).
Proof. vm_cast_no_check (@eq_refl (option (Z * Z)) (Some (3, 3))). Qed.

(** Congruence: with x = y the classes of !x and !y become one. *)
Lemma egraph_rebuild_correct_witness :
  exists T g', rebuild merged = Ok g' /\ eg_inv T g' /\ worklist g' = [] /\
    rep (union_find g') 3 = rep (union_find g') 1 /\ rep (union_find merged) 3 <> rep (union_find merged) 1.
Proof.
  destruct merged_inv as (T & I).
  pose proof rebuilt_reps as K.
  destruct (egraph_rebuild_correct T merged I) as [E|(g' & E & I' & Hw & _)]; rewrite E in K; [discriminate K|].
  injection K as K1 K3. exists T, g'. split; [exact E|]. split; [exact I'|]. split; [exact Hw|]. split; [congruence|]. vm_decide.
Defined.
End egraph_witness.
