(* ===== verification/Extract.v ===== *)
(** Extraction from an e-graph: [caffeine::EGraphExtractor]
    (include/caffeine/IR/EGraph.h, src/IR/EGraph.cpp).

    An extractor computes the cheapest node of every class it meets and builds
    the expression of a class from the expressions of that node's operands.
    Costs and expressions are cached in the extractor and, unless the graph is
    const, in the classes. *)
From S2P Require Import Prelude LLVM IRType Value Opcode Operation Matching Create Semantics.
From S2P Require Import Simplifier SimplifierInt SimplifierSound Overflow AtEnv UnionFind EGraph EGraphSound EGraphRebuild.
Open Scope Z_scope.

Definition UINT32_MAX : Z := 2 ^ 32 - 1.
Definition UINT64_MAX : Z := 2 ^ 64 - 1.

Section extract.
Context `{PtrEq} `{!DataPtrEq} `{MapOrder} `{MathExtrasAPI} `{Config}.

Record EGraphExtractor : Type := mkExtractor {
  x_graph : EGraph;
  is_const : bool;
  x_costs : gmap Z (Z * Z);
  x_expressions : gmap Z Operation;
  x_visited : gset Z
}.
Definition Extractor_ctor (g : EGraph) (const : bool) : EGraphExtractor := mkExtractor g const ∅ ∅ ∅.
Definition set_graph (x : EGraphExtractor) (g : EGraph) : EGraphExtractor :=
  mkExtractor g (is_const x) (x_costs x) (x_expressions x) (x_visited x).
Definition visit_class (x : EGraphExtractor) (id : Z) : EGraphExtractor :=
  mkExtractor (x_graph x) (is_const x) (x_costs x) (x_expressions x) ({[id]} ∪ x_visited x).

(** [eval_cost(Operation::Opcode)]: symbolic constants are expensive. *)
Definition opcode_cost (o : Opcode) : Z :=
  match o with OpConstantNamed | OpConstantNumbered | OpConstantArray => 65536 | _ => 1 end.

(** [update_cached]: the extractor's own cache keeps an entry it has. *)
Definition update_cached_cost (x : EGraphExtractor) (eclass_id : Z) (cost : Z * Z) : result EGraphExtractor :=
  let x := mkExtractor (x_graph x) (is_const x)
             (match x_costs x !! eclass_id with Some _ => x_costs x | None => <[eclass_id := cost]> (x_costs x) end)
             (x_expressions x) (x_visited x) in
  if is_const x then Ok x
  else
    '(c, g) ← eg_get (x_graph x) eclass_id;
    Ok match c with
       | None => set_graph x g
       | Some (r, c) =>
           set_graph x (set_classes g (<[r := mkClass (nodes c) (parents c) (mkCache (cache_expr (cache c)) (Some cost))
                                                (constant_index c)]> (classes g)))
       end.
Definition update_cached_expr (x : EGraphExtractor) (eclass_id : Z) (expr : Operation) : result EGraphExtractor :=
  let x := mkExtractor (x_graph x) (is_const x) (x_costs x)
             (match x_expressions x !! eclass_id with Some _ => x_expressions x | None => <[eclass_id := expr]> (x_expressions x) end)
             (x_visited x) in
  if is_const x then Ok x
  else
    '(c, g) ← eg_get (x_graph x) eclass_id;
    Ok match c with
       | None => set_graph x g
       | Some (r, c) =>
           set_graph x (set_classes g (<[r := mkClass (nodes c) (parents c) (mkCache (Some expr) (cache_cost (cache c)))
                                                (constant_index c)]> (classes g)))
       end.

(** [*graph->get(id)]. *)
Definition the_class (x : EGraphExtractor) (id : Z) : result EClass :=
  c ← eg_get_const (x_graph x) id; of_option UndefinedBehaviour c.

(** [eval_cost(const ENode&)] on 64-bit costs, and the loop over the nodes of a
    class. *)
Section costs.
Context (eval : EGraphExtractor -> Z -> result ((Z * Z) * EGraphExtractor)).
Fixpoint operands_cost (x : EGraphExtractor) (ops : list Z) (cost : Z) : result (Z * EGraphExtractor) :=
  match ops with
  | [] => Ok (cost, x)
  | i :: ops => '(k, x) ← eval x i; operands_cost x ops (wrap 64 (cost + k.1))
  end.
Fixpoint cheapest (x : EGraphExtractor) (ns : list ENode) (i : Z) (best : Z * Z) : result ((Z * Z) * EGraphExtractor) :=
  match ns with
  | [] => Ok (best, x)
  | n :: ns =>
      '(node_cost, x) ← operands_cost x (en_operands n) (opcode_cost (od_opcode (en_data n)));
      cheapest x ns (i + 1) (if node_cost <? best.1 then (node_cost, i) else best)
  end.
End costs.

Fixpoint eval_cost (fuel : nat) (x : EGraphExtractor) (eclass_id : Z) : result ((Z * Z) * EGraphExtractor) :=
  match fuel with
  | O => Err OutOfFuel
  | S n =>
      c ← the_class x eclass_id;
      match cache_cost (cache c) with
      | Some k => Ok (k, x)
      | None =>
          id ← eg_find_const (x_graph x) eclass_id;
          match x_costs x !! id with
          | Some k => Ok (k, x)
          | None =>
              if decide (id ∈ x_visited x) then Ok ((UINT32_MAX, SIZE_MAX), x)
              else
                '(best, x) ← cheapest (eval_cost n) (visit_class x id) (nodes c) 0 (UINT64_MAX, SIZE_MAX);
                assert_ (negb (best.2 =? SIZE_MAX)) ;;
                x ← update_cached_cost x id best; Ok (best, x)
          end
      end
  end.

Section operands.
Context (extract : EGraphExtractor -> Z -> result (Operation * EGraphExtractor)).
Fixpoint extract_operands (x : EGraphExtractor) (ops : list Z) : result (list Operation * EGraphExtractor) :=
  match ops with
  | [] => Ok ([], x)
  | i :: ops => '(o, x) ← extract x i; '(os, x) ← extract_operands x ops; Ok (o :: os, x)
  end.
End operands.

(** Every nested call is for a class not on the path, so one more call than
    there are classes is enough where classes do not depend on themselves. *)
Definition class_fuel (x : EGraphExtractor) : nat := S (size (classes (x_graph x))).
Fixpoint extract_class (fuel : nat) (x : EGraphExtractor) (id : Z) : result (Operation * EGraphExtractor) :=
  match fuel with
  | O => Err OutOfFuel
  | S n =>
      id ← eg_find_const (x_graph x) id; c ← the_class x id;
      match cache_expr (cache c) with
      | Some o => Ok (o, x)
      | None =>
          match x_expressions x !! id with
          | Some o => Ok (o, x)
          | None =>
              '(k, x) ← eval_cost (class_fuel x) x id;
              node ← of_option Thrown (nodes c !! Z.to_nat k.2);
              '(operands, x) ← extract_operands (extract_class n) x (en_operands node);
              expr ← CreateRaw simplify (en_data node) operands;
              x ← update_cached_expr x id expr; Ok (expr, x)
          end
      end
  end.
Definition extract (x : EGraphExtractor) (id : Z) : result (Operation * EGraphExtractor) :=
  extract_class (class_fuel x) x id.

(** [extract(const Operation&)]. *)
Definition extract_list (f : Operation -> EGraphExtractor -> result (Operation * EGraphExtractor)) :
    list Operation -> EGraphExtractor -> result (list Operation * EGraphExtractor) :=
  fix go l x :=
    match l with
    | [] => Ok ([], x)
    | o :: l => '(r, x) ← f o x; '(rs, x) ← go l x; Ok (r :: rs, x)
    end.
Fixpoint extract_op (expr : Operation) (x : EGraphExtractor) : result (Operation * EGraphExtractor) :=
  let 'mkOp d l := expr in
  match egraph_id d with
  | Some id => extract x id
  | None => '(operands, x) ← extract_list extract_op l x; r ← with_new_operands simplify expr operands; Ok (r, x)
  end.
(** [EGraph::extract], on a graph that is not const. *)
Definition egraph_extract (g : EGraph) (id : Z) : result (Operation * EGraph) :=
  '(r, x) ← extract (Extractor_ctor g false) id; Ok (r, x_graph x).
End extract.

(** ** Soundness

    In an environment where the graph is sound, an expression that is extracted
    for a class stands for it.  Where the classes have a cost bound, the
    extraction also succeeds; the two claims share their proof: with [strict]
    a computation must not fail, without it only its value is specified. *)
Section extract_sound.
Context `{PtrEq} `{!DataPtrEq} `{MapOrder} `{MathExtrasAPI} `{Config}.
#[local] Abbreviation grep g i := (rep (union_find g) i).

(** What folding needs of a node in [e]: bytes stored into arrays are defined,
    indices are in range, allocations are not empty; a floating-point
    comparison does not compare NaN, which it may be folded for, and there is no
    floating-point remainder, whose fold is wrong. *)
Definition values_safe (o : Opcode) (vs : list (option Den)) : Prop :=
  match o, vs with
  | OpAlloc, [Some (DInt s); Some _] => getZExtValue s <> 0
  | OpLoad, [Some (DArr bs _); Some (DInt i)] | OpStore, [Some (DArr bs _); Some (DInt i); Some _] =>
      getZExtValue i < Z.of_nat (length bs) <= SIZE_MAX
  | OpFixedArray, vs => Forall is_Some vs
  | OpFCmp _, [Some (DFloat f); _] => isNaN f = false
  | (OpAlloc | OpLoad | OpStore | OpFRem | OpFCmp _), _ => False
  | _, _ => True
  end.
Definition node_safe (e : Env) (n : ENode) : Prop :=
  values_safe (od_opcode (en_data n)) (env_node e <$> en_operands n).

(** A bound on the cost of every class: the node with the tree of its operands
    fits in 64 bits. *)
Definition sum_bound (B : Z -> Z) (g : EGraph) (ops : list Z) : Z := foldr (fun i s => B (grep g i) + s) 0 ops.
Definition class_bound (B : Z -> Z) (g : EGraph) (i : Z) (c : EClass) : Prop :=
  0 <= B i < UINT64_MAX /\ Z.of_nat (length (nodes c)) <= SIZE_MAX /\
  forall n, n ∈ nodes c -> opcode_cost (od_opcode (en_data n)) + sum_bound B g (en_operands n) <= B i.
Definition cost_ok (B : Z -> Z) (i : Z) (c : EClass) (k : Z * Z) : Prop :=
  0 <= k.1 <= B i /\ 0 <= k.2 < Z.of_nat (length (nodes c)).

Context (T : Z -> Ty) (e : Env) (strict : bool) (B : Z -> Z).

Definition wp {A} (r : result A) (P : A -> Prop) : Prop :=
  match r with Ok a => P a | Err _ => strict = false end.
Lemma wp_bind {A C} (m : result A) (f : A -> result C) P Q : wp m P -> (forall a, P a -> wp (f a) Q) -> wp (m ≫= f) Q.
Proof. destruct m; cbn; auto. Qed.
Lemma wp_mono {A} (r : result A) (P Q : A -> Prop) : wp r P -> (forall a, P a -> Q a) -> wp r Q.
Proof. destruct r; cbn; auto. Qed.
Lemma wp_ok {A} (a : A) (P : A -> Prop) : P a -> wp (Ok a) P.
Proof. done. Qed.

Record x_ok (x : EGraphExtractor) : Prop := {
  xi_inv : eg_inv T (x_graph x);
  xi_sat : eg_sat T e (x_graph x);
  xi_safe : forall i c n, classes (x_graph x) !! i = Some c -> n ∈ nodes c -> node_safe e n;
  xi_exprs : forall i o, x_expressions x !! i = Some o -> stands_for T e i o;
  xi_bound : strict = true -> forall i c, classes (x_graph x) !! i = Some c -> class_bound B (x_graph x) i c;
  xi_cached : strict = true -> forall i c k, classes (x_graph x) !! i = Some c -> cache_cost (cache c) = Some k -> cost_ok B i c k;
  xi_costs : strict = true -> forall i c k, classes (x_graph x) !! i = Some c -> x_costs x !! i = Some k -> cost_ok B i c k
}.

(** Only caches differ. *)
Record x_same (x x' : EGraphExtractor) : Prop := {
  same_size : uf_size (union_find (x_graph x')) = uf_size (union_find (x_graph x));
  same_rep : forall i, in_graph (x_graph x) i -> grep (x_graph x') i = grep (x_graph x) i;
  same_dom : dom (classes (x_graph x')) = dom (classes (x_graph x));
  same_nodes : forall i c, classes (x_graph x) !! i = Some c -> exists c', classes (x_graph x') !! i = Some c' /\ nodes c' = nodes c
}.
Lemma x_same_refl x : x_same x x.
Proof. split; try done. eauto. Qed.
Lemma x_same_trans x y z : x_same x y -> x_same y z -> x_same x z.
Proof.
  intros [S1 R1 D1 N1] [S2 R2 D2 N2]. split; try congruence.
  - intros i Hi. rewrite R2, R1; [done|done|]. unfold in_graph in *. lia.
  - intros i c Hc. destruct (N1 i c Hc) as (c1 & Hc1 & E1). destruct (N2 i c1 Hc1) as (c2 & Hc2 & E2). exists c2. split; congruence.
Qed.
Lemma x_same_in x x' i : x_same x x' -> in_graph (x_graph x) i -> in_graph (x_graph x') i.
Proof. intros [S1 _ _ _]. unfold in_graph. by rewrite S1. Qed.

(** The class of an id. *)
Lemma the_class_ok x i :
  x_ok x -> in_graph (x_graph x) i ->
  let r := grep (x_graph x) i in
  exists c, classes (x_graph x) !! r = Some c /\ the_class x i = Ok c /\ eg_find_const (x_graph x) i = Ok r /\
    in_graph (x_graph x) r /\ grep (x_graph x) r = r.
Proof.
  intros Hx Hi r. pose proof (inv_uf T _ (xi_inv x Hx)) as Hu.
  assert (in_graph (x_graph x) r) as Hr by by apply rep_range. assert (grep (x_graph x) r = r) as Hrr by by apply rep_rep.
  destruct (proj2 (inv_dom T _ (xi_inv x Hx) r) (conj Hr Hrr)) as [c Hc]. exists c.
  unfold the_class, eg_get_const, eg_find_const. rewrite (find_rep _ i Hu Hi), ok_bind. fold r. rewrite Hc. done.
Qed.

(** Replacing the cache of a class. *)
Lemma set_cache_ok x g c r k :
  x_ok x -> uf_equiv (x_graph x) g -> classes g !! r = Some c ->
  (forall o, cache_expr k = Some o -> stands_for T e r o) ->
  (strict = true -> forall cost, cache_cost k = Some cost -> cost_ok B r c cost) ->
  let g' := set_classes g (<[r := mkClass (nodes c) (parents c) k (constant_index c)]> (classes g)) in
  x_ok (set_graph x g') /\ x_same x (set_graph x g').
Proof.
  intros [Hi Hs Hsafe Hex Hb Hca Hco] Q Hc Hko Hkc g'. set (c' := mkClass _ _ _ _) in g'.
  pose proof (uf_equiv_inv T _ g Q Hi) as Ig. pose proof (uf_equiv_sat T e _ g Q Hs) as Sg.
  pose proof (eqv_classes _ _ Q) as Ec. pose proof (eqv_size _ _ Q) as Es.
  assert (forall i y, classes g' !! i = Some y -> exists z, classes (x_graph x) !! i = Some z /\ nodes y = nodes z /\
    ((i = r /\ y = c' /\ z = c) \/ y = z)) as Hcls.
  { intros i y. unfold g'. cbn. rewrite <- Ec. rewrite lookup_insert_Some. intros [[<- <-]|[_ Hy]]; [|eauto].
    exists c. split_and!; [done|done|]. left. done. }
  split.
  - split; cbn.
    + apply (set_class_inv T g r c); [done|done|]. destruct (inv_class T g Ig r c Hc). by split.
    + apply set_class_sat; [done|]. destruct (sat_class T e g Sg r c Hc). by split.
    + intros i y n (z & Hz & En & _)%Hcls Hn. rewrite En in Hn. by apply (Hsafe i z).
    + done.
    + intros Hst i y (z & Hz & En & _)%Hcls. destruct (Hb Hst i z Hz) as (? & ? & Hn). split; [done|split; [by rewrite En|]].
      intros n Hn'. rewrite En in Hn'. rewrite <- (Hn n Hn'). apply Z.eq_le_incl. f_equal.
      pose proof (entry_operands T _ n i (class_nodes T _ i z (inv_class T _ Hi i z Hz) n Hn')) as Hops. clear -Q Hops Es.
      unfold sum_bound. induction Hops as [|j ops Hj _ IH]; [done|]. cbn [foldr]. rewrite IH. f_equal. f_equal. apply (eqv_rep _ _ Q), Hj.
    + intros Hst i y k' (z & Hz & En & [(-> & -> & ->)| ->])%Hcls Hk; [by apply Hkc|by apply (Hca Hst)].
    + intros Hst i y k' (z & Hz & En & _)%Hcls Hk. unfold cost_ok. rewrite En. by apply (Hco Hst).
  - split; cbn; [done|apply (eqv_rep _ _ Q)| |].
    + rewrite <- Ec. rewrite dom_insert_L. apply elem_of_dom_2 in Hc. set_solver.
    + intros i z Hz. rewrite <- Ec in Hz. destruct (decide (i = r)) as [->|Hne]; [|rewrite lookup_insert_ne by done; eauto].
      rewrite Hc in Hz. injection Hz as <-. exists c'. by rewrite lookup_insert_eq.
Qed.

(** *** Costs *)

(** Classes whose cost is being computed. *)
Definition settles (x x' : EGraphExtractor) : Prop :=
  forall v, v ∈ x_visited x' -> x_costs x' !! v = None -> v ∈ x_visited x /\ x_costs x !! v = None.
Definition pending (x : EGraphExtractor) (b : Z) : Prop :=
  forall v, v ∈ x_visited x -> x_costs x !! v = None -> b < B v.
(** The number of classes below [i]. *)
Definition below (x : EGraphExtractor) (i : Z) : nat := size (filter (fun j => B j < B i) (dom (classes (x_graph x)))).

Lemma settles_refl x : settles x x.
Proof. by intros v. Qed.
Lemma settles_trans x y z : settles x y -> settles y z -> settles x z.
Proof. intros K1 K2 v Hv Hn. destruct (K2 v Hv Hn). auto. Qed.
Lemma settles_pending x x' b : settles x x' -> pending x b -> pending x' b.
Proof. intros Hs Hp v Hv Hn. destruct (Hs v Hv Hn). auto. Qed.
Lemma below_same x x' i : x_same x x' -> below x' i = below x i.
Proof. intros [_ _ D _]. unfold below. by rewrite D. Qed.
Lemma below_lt x i j : j ∈ dom (classes (x_graph x)) -> B j < B i -> (below x j < below x i)%nat.
Proof.
  intros Hj Hlt. apply subset_size. split.
  - intros k. rewrite !elem_of_filter. intros [? ?]. split; [lia|done].
  - intros Hsub. assert (j ∈ filter (fun k => B k < B j) (dom (classes (x_graph x)))) as Hin.
    { apply Hsub, elem_of_filter. done. }
    apply elem_of_filter in Hin as [? _]. lia.
Qed.
Lemma below_fuel x i : (below x i < class_fuel x)%nat.
Proof.
  unfold below, class_fuel. assert (size (filter (fun j => (B j < B i)%Z) (dom (classes (x_graph x)))) <= size (dom (classes (x_graph x))))%nat as Hle.
  { apply subseteq_size. intros k. rewrite elem_of_filter. by intros [_ ?]. }
  rewrite size_dom in Hle. lia.
Qed.

Lemma update_cached_cost_ok x r c k :
  x_ok x -> in_graph (x_graph x) r -> grep (x_graph x) r = r -> classes (x_graph x) !! r = Some c ->
  (strict = true -> cost_ok B r c k) ->
  exists x', update_cached_cost x r k = Ok x' /\ x_ok x' /\ x_same x x' /\ x_visited x' = x_visited x /\
    (forall i, x_costs x' !! i = None -> x_costs x !! i = None /\ i <> r).
Proof.
  intros Hx Hin Hr Hc Hk. unfold update_cached_cost. set (x1 := mkExtractor _ _ _ _ _).
  assert (x_ok x1) as Hx1.
  { destruct Hx as [Hi Hs Hsafe Hex Hb Hca Hco]. split; try done. intros Hst i y k' Hy. unfold x1. cbn.
    destruct (x_costs x !! r) eqn:Er; [by apply (Hco Hst)|]. rewrite lookup_insert_Some.
    intros [[<- <-]|[_ Hk']]; [|by apply (Hco Hst)]. cbn in Hy. rewrite Hc in Hy. injection Hy as <-. auto. }
  assert (x_same x x1) as S1 by (split; try done; eauto).
  assert (forall i, x_costs x1 !! i = None -> x_costs x !! i = None /\ i <> r) as Hcost.
  { intros i. unfold x1. cbn. destruct (x_costs x !! r) eqn:Er; [intros Hi; split; [done|congruence]|].
    rewrite lookup_insert_None. intros [? ?]. done. }
  change (is_const x1) with (is_const x). destruct (is_const x); [exists x1; split_and!; done|].
  unfold eg_get. change (x_graph x1) with (x_graph x).
  destruct (eg_find_ok (x_graph x) r (inv_uf T _ (xi_inv x Hx)) Hin) as (g & -> & Q). rewrite !ok_bind. cbv beta iota.
  rewrite Hr, (eqv_classes _ _ Q), Hc. cbn [fmap option_fmap option_map].
  assert (classes g !! r = Some c) as Hgc by (by rewrite (eqv_classes _ _ Q)).
  destruct (set_cache_ok x1 g c r (mkCache (cache_expr (cache c)) (Some k)) Hx1 Q Hgc) as [Hx2 S2].
  - intros o Ho. by apply (sat_cache T e r c (sat_class T e _ (xi_sat x Hx) r c Hc)).
  - intros Hst cost [= <-]. auto.
  - rewrite <- (eqv_classes _ _ Q). eexists. split; [done|]. split_and!; [done|by apply (x_same_trans x x1)|done|done].
Qed.

(** What [eval_cost] does. *)
Definition cost_post (x : EGraphExtractor) (i : Z) (r : (Z * Z) * EGraphExtractor) : Prop :=
  x_ok r.2 /\ x_same x r.2 /\ settles x r.2 /\
  (strict = true -> forall c, classes (x_graph x) !! grep (x_graph x) i = Some c -> cost_ok B (grep (x_graph x) i) c r.1).
Definition cost_pre (n : nat) (x : EGraphExtractor) (i : Z) : Prop :=
  in_graph (x_graph x) i /\
  (strict = true -> (below x (grep (x_graph x) i) < n)%nat /\ pending x (B (grep (x_graph x) i))).
Definition cost_spec (n : nat) (eval : EGraphExtractor -> Z -> result ((Z * Z) * EGraphExtractor)) : Prop :=
  forall x i, x_ok x -> cost_pre n x i -> wp (eval x i) (cost_post x i).

Lemma cost_pre_same n x x' i : x_same x x' -> settles x x' -> cost_pre n x i -> cost_pre n x' i.
Proof.
  intros Hs Hse [Hi Hp]. split; [by apply (x_same_in x)|]. intros Hst. destruct (Hp Hst) as [Hb Hpe].
  rewrite (same_rep _ _ Hs) by done. split; [by rewrite (below_same x x')|by apply (settles_pending x)].
Qed.

Lemma root_class x i : x_ok x -> in_graph (x_graph x) i -> is_Some (classes (x_graph x) !! grep (x_graph x) i).
Proof. intros Hx Hi. destruct (the_class_ok x i Hx Hi) as (c & -> & _). eauto. Qed.

Lemma operands_cost_ok n eval ops x cost M :
  cost_spec n eval -> x_ok x -> Forall (cost_pre n x) ops ->
  (strict = true -> 0 <= cost /\ cost + sum_bound B (x_graph x) ops <= M < 2 ^ 64) ->
  wp (operands_cost eval x ops cost) (fun r => x_ok r.2 /\ x_same x r.2 /\ settles x r.2 /\
    (strict = true -> 0 <= r.1 <= M)).
Proof.
  intros Hev. revert x cost. induction ops as [|i ops IH]; intros x cost Hx Hops Hc; cbn [operands_cost].
  { apply wp_ok. cbn. split_and!; [done|apply x_same_refl|apply settles_refl|]. intros Hst. destruct (Hc Hst) as [? ?].
    unfold sum_bound in *. cbn in *. lia. }
  apply Forall_cons in Hops as [Hi Hops]. eapply wp_bind; [by apply Hev|]. intros [k x1] (Hx1 & S1 & Se1 & Hk). cbn [fst snd] in *.
  pose proof Hi as [Hin _]. destruct (root_class x i Hx Hin) as [c Hcl].
  assert (sum_bound B (x_graph x1) ops = sum_bound B (x_graph x) ops) as Hsum.
  { assert (Forall (in_graph (x_graph x)) ops) as Hg by (eapply Forall_impl; [exact Hops|]; by intros j []).
    clear -S1 Hg. unfold sum_bound. induction Hg as [|j ops Hj _ IH]; [done|]. cbn [foldr]. by rewrite IH, (same_rep _ _ S1). }
  eapply wp_mono; [apply (IH x1); [done| |]|].
  - eapply Forall_impl; [exact Hops|]. intros j. by apply cost_pre_same.
  - intros Hst. destruct (Hc Hst) as [Hc0 HM]. destruct (Hk Hst c Hcl) as [Hk1 _]. rewrite Hsum.
    unfold sum_bound in HM. cbn [foldr] in HM. fold (sum_bound B (x_graph x) ops) in HM.
    assert (0 <= sum_bound B (x_graph x) ops).
    { assert (forall j, j ∈ ops -> 0 <= B (grep (x_graph x) j)) as Hpos.
      { intros j Hj. rewrite Forall_forall in Hops. destruct (Hops j Hj) as [Hjin _]. destruct (root_class x j Hx Hjin) as [cj Hcj].
        by destruct (xi_bound x Hx Hst _ _ Hcj) as [[? _] _]. }
      clear -Hpos. unfold sum_bound. induction ops as [|j ops IH]; cbn [foldr]; [done|].
      pose proof (Hpos j (list_elem_of_here _ _)). assert (forall j', j' ∈ ops -> 0 <= B (grep (x_graph x) j')) as Hp by (intros; apply Hpos; by right).
      specialize (IH Hp). lia. }
    rewrite wrap_small by lia. lia.
  - intros [cost' x2] (Hx2 & S2 & Se2 & Hc2). cbn in *. split_and!; [done|by apply (x_same_trans x x1)|by apply (settles_trans x x1)|done].
Qed.

(** The best node so far. *)
Definition best_ok (i count : Z) (best : Z * Z) : Prop :=
  (best = (UINT64_MAX, SIZE_MAX) /\ count = 0) \/ (0 <= best.1 <= B i /\ 0 <= best.2 < count).

Lemma cheapest_ok n eval r ns x idx best :
  cost_spec n eval -> x_ok x ->
  Forall (fun m => Forall (cost_pre n x) (en_operands m)) ns ->
  (strict = true -> B r < UINT64_MAX /\ 0 <= idx /\ best_ok r idx best /\
     forall m, m ∈ ns -> opcode_cost (od_opcode (en_data m)) + sum_bound B (x_graph x) (en_operands m) <= B r) ->
  wp (cheapest eval x ns idx best) (fun p => x_ok p.2 /\ x_same x p.2 /\ settles x p.2 /\
    (strict = true -> best_ok r (idx + Z.of_nat (length ns)) p.1)).
Proof.
  intros Hev. revert x idx best. induction ns as [|m ns IH]; intros x idx best Hx Hns Hst; cbn [cheapest].
  { apply wp_ok. cbn. split_and!; [done|apply x_same_refl|apply settles_refl|]. intros Hs. rewrite Z.add_0_r. by apply Hst. }
  apply Forall_cons in Hns as [Hm Hns].
  eapply wp_bind; [apply (operands_cost_ok n eval _ x _ (B r) Hev Hx Hm)|].
  { intros Hs. destruct (Hst Hs) as (HB & _ & _ & Hn). specialize (Hn m (list_elem_of_here _ _)).
    unfold UINT64_MAX in HB. split; [by destruct (od_opcode (en_data m))|lia]. }
  intros [cost x1] (Hx1 & S1 & Se1 & Hc). cbn [fst snd] in *.
  eapply wp_mono; [apply (IH x1); [done| |]|].
  - eapply Forall_impl; [exact Hns|]. intros m' Hm'. cbn. eapply Forall_impl; [exact Hm'|]. intros j. by apply cost_pre_same.
  - intros Hs. destruct (Hst Hs) as (HB & Hidx & Hbest & Hn). specialize (Hc Hs). split_and!; [done|lia| |].
    + right. destruct (Z.ltb_spec cost best.1); cbn; [split; lia|]. destruct Hbest as [[-> ->]|?]; cbn in *; lia.
    + intros m' Hm'. specialize (Hn m' (list_elem_of_further _ _ _ Hm')). rewrite Forall_forall in Hns. specialize (Hns m' Hm').
      assert (sum_bound B (x_graph x1) (en_operands m') = sum_bound B (x_graph x) (en_operands m')) as ->; [|done].
      clear -S1 Hns. unfold sum_bound. induction Hns as [|j ops [Hj _] _ IH]; [done|]. cbn [foldr]. by rewrite IH, (same_rep _ _ S1).
  - intros [b x2] (Hx2 & S2 & Se2 & Hb). cbn in *. split_and!; [done|by apply (x_same_trans x x1)|by apply (settles_trans x x1)|].
    intros Hs. specialize (Hb Hs). by replace (idx + Z.of_nat (S (length ns))) with (idx + 1 + Z.of_nat (length ns)) by lia.
Qed.

Lemma sum_bound_ge g ops j : (forall k, k ∈ ops -> 0 <= B (grep g k)) -> j ∈ ops -> B (grep g j) <= sum_bound B g ops.
Proof.
  unfold sum_bound. induction ops as [|k ops IH]; intros Hpos Hj; [by apply elem_of_nil in Hj|]. cbn [foldr].
  assert (0 <= foldr (fun i s => B (grep g i) + s) 0 ops) as Hnn.
  { clear -Hpos. assert (forall k', k' ∈ ops -> 0 <= B (grep g k')) as Hp by (intros; apply Hpos; by right). clear Hpos.
    induction ops as [|k' ops IH]; cbn [foldr]; [done|]. pose proof (Hp k' (list_elem_of_here _ _)).
    assert (0 <= foldr (fun i s => B (grep g i) + s) 0 ops) by (apply IH; intros; apply Hp; by right). lia. }
  pose proof (Hpos k (list_elem_of_here _ _)). apply elem_of_cons in Hj as [->|Hj]; [lia|].
  assert (B (grep g j) <= foldr (fun i s => B (grep g i) + s) 0 ops) by (apply IH; [intros; apply Hpos; by right|done]). lia.
Qed.

(** The operands of a node have a smaller bound than its class. *)
Lemma operand_bound x i c m j :
  strict = true -> x_ok x -> classes (x_graph x) !! i = Some c -> m ∈ nodes c -> j ∈ en_operands m ->
  B (grep (x_graph x) j) < B i.
Proof.
  intros Hst Hx Hc Hm Hj. destruct (xi_bound x Hx Hst i c Hc) as (_ & _ & Hb). specialize (Hb m Hm).
  pose proof (entry_operands T _ m i (class_nodes T _ i c (inv_class T _ (xi_inv x Hx) i c Hc) m Hm)) as Hops. rewrite Forall_forall in Hops.
  assert (B (grep (x_graph x) j) <= sum_bound B (x_graph x) (en_operands m)) as Hge.
  { apply sum_bound_ge; [|done]. intros k Hk. destruct (root_class x k Hx (Hops k Hk)) as [ck Hck].
    by destruct (xi_bound x Hx Hst _ _ Hck) as [[? _] _]. }
  assert (1 <= opcode_cost (od_opcode (en_data m))) by (by destruct (od_opcode (en_data m))). lia.
Qed.

Lemma eval_cost_ok fuel : cost_spec fuel (eval_cost fuel).
Proof.
  induction fuel as [|fuel IH]; intros x i Hx [Hin Hpre]; cbn [eval_cost].
  { cbn. destruct strict; [|done]. destruct (Hpre eq_refl) as [? _]. lia. }
  destruct (the_class_ok x i Hx Hin) as (c & Hc & Ec & Ef & Hrin & Hrr). set (r := grep (x_graph x) i) in *. rewrite Ec, ok_bind.
  assert (forall k, (strict = true -> cost_ok B r c k) -> wp (Ok (k, x)) (cost_post x i)) as Hret.
  { intros k Hk. apply wp_ok. split_and!; [done|apply x_same_refl|apply settles_refl|]. cbn. fold r. intros Hst c' Hc'.
    rewrite Hc in Hc'. injection Hc' as <-. auto. }
  destruct (cache_cost (cache c)) as [k|] eqn:Ek; [apply Hret; intros Hst; by apply (xi_cached x Hx Hst)|].
  rewrite Ef, ok_bind. destruct (x_costs x !! r) as [k|] eqn:Ek'; [apply Hret; intros Hst; by apply (xi_costs x Hx Hst)|].
  case_decide as Hv.
  { apply Hret. intros Hst. destruct (Hpre Hst) as [_ Hp]. specialize (Hp r Hv Ek'). lia. }
  set (x1 := visit_class x r).
  assert (x_ok x1) as Hx1 by (destruct Hx; by split). assert (x_same x x1) as S1 by (split; try done; eauto).
  eapply wp_bind; [apply (cheapest_ok fuel _ r (nodes c) x1 0 _ IH Hx1)|].
  - apply Forall_forall. intros m Hm.
    pose proof (entry_operands T _ m r (class_nodes T _ r c (inv_class T _ (xi_inv x Hx) r c Hc) m Hm)) as Hops.
    rewrite Forall_forall in Hops |- *. intros j Hj. split; [by apply Hops|]. intros Hst. destruct (Hpre Hst) as [Hfuel Hp].
    pose proof (operand_bound x r c m j Hst Hx Hc Hm Hj) as Hlt. cbn [x1 visit_class x_graph].
    split.
    + assert (grep (x_graph x) j ∈ dom (classes (x_graph x))) as Hdom by (apply elem_of_dom, root_class; [done|by apply Hops]).
      pose proof (below_lt x r _ Hdom Hlt) as Hbl. change (below x1 (grep (x_graph x) j)) with (below x (grep (x_graph x) j)). lia.
    + intros v. cbn. intros [->%elem_of_singleton|Hv']%elem_of_union Hn; [done|]. specialize (Hp v Hv' Hn). lia.
  - intros Hst. destruct (xi_bound x Hx Hst r c Hc) as (HB & _ & Hn). split_and!; [lia|done|by left|done].
  - intros [best x2] (Hx2 & S2 & Se2 & Hb). cbn [fst snd] in *.
    destruct (same_nodes _ _ (x_same_trans x x1 x2 S1 S2) r c Hc) as (c2 & Hc2 & En2).
    assert (strict = true -> cost_ok B r c2 best /\ negb (best.2 =? SIZE_MAX) = true) as Hbest.
    { intros Hst. destruct (xi_bound x Hx Hst r c Hc) as (_ & Hlen & _). pose proof (class_nonempty T _ r c (inv_class T _ (xi_inv x Hx) r c Hc)) as Hne.
      destruct (Hb Hst) as [[_ Hz]|[? ?]].
      - exfalso. destruct (nodes c); [done|]. cbn in Hz. lia.
      - unfold cost_ok. rewrite En2. split; [lia|]. apply negb_true_iff, Z.eqb_neq. lia. }
    destruct (negb (best.2 =? SIZE_MAX)) eqn:Easrt; cbn [assert_]; [|cbn; clear -Hbest; destruct strict; [by destruct (Hbest eq_refl)|done]].
    rewrite ok_bind.
    destruct (update_cached_cost_ok x2 r c2 best Hx2) as (x3 & -> & Hx3 & S3 & Ev3 & Hc3); [| |done|intros Hst; by apply Hbest|].
    { by apply (x_same_in x1 x2 r S2). }
    { by rewrite (same_rep x1 x2 S2). }
    rewrite ok_bind. apply wp_ok. split_and!; cbn.
    + done.
    + apply (x_same_trans x x1); [done|]. by apply (x_same_trans x1 x2).
    + intros v Hv' Hn. rewrite Ev3 in Hv'. destruct (Hc3 v Hn) as [Hn2 Hne]. destruct (Se2 v Hv' Hn2) as [Hv1 Hn1].
      cbn in Hv1. apply elem_of_union in Hv1 as [->%elem_of_singleton|Hv1]; done.
    + fold r. intros Hst c' Hc'. rewrite Hc in Hc'. injection Hc' as <-. destruct (Hbest Hst) as [Hok _]. unfold cost_ok in *. by rewrite En2 in Hok.
Qed.

(** *** Building the expression of a node *)
Definition le_den (u v : option Den) : Prop := forall d, u = Some d -> v = Some d.

Lemma denote_node_mono d vs vs' v :
  Forall2 le_den vs vs' ->
  (od_opcode d = OpFixedArray \/ od_opcode d = OpAlloc \/ od_opcode d = OpStore -> Forall is_Some vs) ->
  denote_node e d vs = Some v -> denote_node e d vs' = Some v.
Proof.
  intros Hle Hdef.
  assert (od_opcode d = OpFixedArray \/ od_opcode d = OpAlloc \/ od_opcode d = OpStore -> vs' = vs) as Heq.
  { intros Ho. specialize (Hdef Ho). clear Ho. induction Hle as [|u u' vs vs' Hu _ IH]; [done|].
    apply Forall_cons in Hdef as [[w ->] Hd]. f_equal; [by apply Hu|]. auto. }
  destruct (decide (od_opcode d = OpFixedArray \/ od_opcode d = OpAlloc \/ od_opcode d = OpStore)) as [Ho|Ho]; [by rewrite Heq|].
  assert (od_opcode d <> OpFixedArray /\ od_opcode d <> OpAlloc /\ od_opcode d <> OpStore) as (N1 & N2 & N3) by tauto.
  clear Ho Heq Hdef. unfold denote_node. revert N1 N2 N3.
  destruct Hle as [|u u' vs vs' Hu [|w w' ? ? Hw [|t t' ? ? Ht [|? ? ? ? ? ?]]]]; [done|..].
  - destruct u as [x|]; [rewrite (Hu x eq_refl)|]; by destruct (od_opcode d).
  - destruct u as [x|]; [rewrite (Hu x eq_refl)|]; (destruct w as [y|]; [rewrite (Hw y eq_refl)|]); destruct (od_opcode d); try done; by destruct x.
  - destruct u as [x|]; [rewrite (Hu x eq_refl)|]; destruct (od_opcode d); try done;
      destruct x as [a| |]; try done; intros N1 N2 N3; try congruence;
      try (destruct w as [[]|], w' as [[]|]; done).
    destruct (getZExtValue a =? 1); [generalize (Hw v)|generalize (Ht v)]; by destruct w, w'.
  - intros N1 N2 N3. destruct (od_opcode d); try congruence; try done; destruct u as [[]|]; try done;
      destruct w as [[]|]; try done; by destruct t as [[]|].
Qed.

Lemma build_node_ok d ops :
  Forall wf ops -> node_ok d ops -> safe (mkOp d ops) -> exists r, build simplify d ops = Ok r /\ refines (mkOp d ops) r.
Proof.
  intros Hw Hn Hs. destruct (simplify_ok (mkOp d ops)) as (r & Er & Hr); [by constructor|done|]. exists r. split; [|done].
  unfold build, Operation_ctor.
  assert ((if opcode_nargs (opcode_val (od_opcode d)) =? 4 then Ok tt
    else assert_ (opcode_nargs (opcode_val (od_opcode d)) =? Z.of_nat (length ops))) = Ok tt) as ->; [|done].
  unfold node_ok in Hn.
  destruct (od_opcode d); try (match goal with c : ICmpOpcode |- _ => destruct c | c : FCmpOpcode |- _ => destruct c end); try done;
    destruct ops as [|a [|b [|c [|? ?]]]]; done.
Qed.
Lemma raw_build d ops : node_ok d ops -> CreateRaw simplify d ops = build simplify d ops.
Proof.
  intros Hn. unfold CreateRaw.
  assert ((if BinaryOp_classof (od_opcode d)
    then a ← of_option UndefinedBehaviour (ops !! 0%nat); b ← of_option UndefinedBehaviour (ops !! 1%nat);
         assert_ (ty_eqb (op_type a) (op_type b))
    else Ok tt) = Ok tt) as ->.
  { destruct (BinaryOp_classof (od_opcode d)) eqn:Eb; [|done].
    assert (exists a b, ops = [a; b] /\ op_type a = op_type b) as (a & b & -> & Et); [|cbn; rewrite Et, ty_eqb_refl; done].
    unfold node_ok in Hn. destruct (od_opcode d); try discriminate Eb; destruct ops as [|a [|b [|? ?]]]; try done; exists a, b; (split; [done|]);
      repeat match goal with K : exists _, _ |- _ => destruct K | K : _ /\ _ |- _ => destruct K end; congruence. }
  done.
Qed.

Lemma const_value a c s : wf a -> as_ConstantInt a = Some c -> denote e a = Some (DInt s) -> c = s.
Proof.
  intros Wa Hc Hs. destruct (as_ConstantInt_inv a c Wa Hc) as (_ & _ & _ & _ & Hd). rewrite Hd in Hs. by injection Hs.
Qed.
Lemma index_in_range vs x y l :
  (exists bs w i vs', vs = Some (DArr bs w) :: Some (DInt i) :: vs' /\ getZExtValue i < Z.of_nat (length bs) <= SIZE_MAX) ->
  Forall wf (x :: y :: l) -> Forall2 le_den vs (denote e <$> x :: y :: l) ->
  forall a, as_ConstantInt y = Some a -> op_opcode x = OpFixedArray -> getZExtValue a < Z.of_nat (length (op_operands x)) <= SIZE_MAX.
Proof.
  intros (bs & w & i & vs' & -> & Hi) Hw Hle a Ha Hx. apply Forall_cons in Hw as [Wx Hw]. apply Forall_cons in Hw as [Wy _].
  cbn [fmap list_fmap] in Hle. apply Forall2_cons in Hle as [Lx Hle]. apply Forall2_cons in Hle as [Ly _].
  rewrite (const_value y a i Wy Ha (Ly _ eq_refl)). by rewrite <- (fixed_length e x bs w (op_operands x)) by (try done; by apply Lx).
Qed.

Lemma values_mono d vs ops e' v :
  clean d -> values_safe (od_opcode d) vs -> same_symbols e e' -> Forall2 le_den vs (denote e' <$> ops) ->
  denote_node e d vs = Some v -> denote e' (mkOp d ops) = Some v.
Proof.
  intros Hd Hsafe He Hle Hv. cbn [denote]. rewrite <- (denote_node_env _ e e') by done.
  apply (denote_node_mono _ vs); [done| |done].
  unfold values_safe in Hsafe. intros [E|[E|E]]; rewrite E in Hsafe; [done|..].
  - destruct vs as [|[[]|] [|[]  [|]]]; try done. by repeat constructor.
  - destruct vs as [|[[]|] [|[[]|]  [|[] [|]]]]; try done. by repeat constructor.
Qed.

(** A node on expressions for its operands: where the operands have the values
    [vs] in [e], the node that is built has the value of the node on [vs]. *)
Lemma values_build_ok d vs ops :
  clean d -> Forall wf ops -> node_ok d ops -> values_safe (od_opcode d) vs ->
  (forall e', same_symbols e e' -> Forall2 le_den vs (denote e' <$> ops)) ->
  exists r, build simplify d ops = Ok r /\ wf r /\ op_type r = od_type d /\
    forall e' v, same_symbols e e' -> denote_node e d vs = Some v -> denote e' r = Some v.
Proof.
  intros Hd Hw Hok Hsafe Hle. destruct (decide (is_FCmp (od_opcode d) = true)) as [Hf|Hf].
  { destruct (od_opcode d) as [ | | | | | | | | | | | | | | | | | | | | | | | | | | |c | | | | | | | | | | | | | | | | | | ] eqn:Eo; try done.
    assert (exists x y, ops = [x; y]) as (x & y & ->).
    { unfold node_ok in Hok. rewrite Eo in Hok. destruct ops as [|x [|y [|? ?]]]; try done. by exists x, y. }
    destruct (simplify_fcmp d c x y Eo) as (r & Er & Wr & Tr & Dr); [by constructor|]. exists r. split_and!; [|done|done|].
    - unfold build, Operation_ctor. rewrite Eo. by destruct c.
    - intros e' v He Hv. cbn in Hsafe. destruct vs as [|[[|f|]|] [|u [|? ?]]]; try done. pose proof (Hle e' He) as Hle'. cbn in Hle'.
      apply Forall2_cons in Hle' as [Hx _]. apply (Dr e' f v); [by apply Hx|done|]. apply (values_mono d (Some (DFloat f) :: [u])); try done; [|by apply Hle].
      by rewrite Eo. }
  assert (safe (mkOp d ops)) as Hsf.
  { specialize (Hle e (conj eq_refl eq_refl)). unfold safe, values_safe in *. change (op_opcode (mkOp d ops)) with (od_opcode d). cbn [op_operands].
    destruct (od_opcode d) eqn:Eo; try done; unfold node_ok in Hok; rewrite Eo in Hok.
    - destruct ops as [|a [|b [|? ?]]]; try done. intros c Hc. inversion Hle as [|u ? ? ? Hu Hle']; subst.
      destruct u as [[s| |]|]; try done. apply Forall_cons in Hw as [Wa _]. rewrite (const_value a c s Wa Hc (Hu _ eq_refl)).
      inversion Hle' as [|w ? ? ? _ Hle'']; subst. inversion Hle''; subst. by destruct w.
    - destruct ops as [|x [|y [|z [|? ?]]]]; try done. apply (index_in_range vs x y [z]); try done.
      destruct vs as [|[[]|] [|[[]|] [|[] [|? ?]]]]; try done. eexists _, _, _, _. split; [done|exact Hsafe].
    - destruct ops as [|x [|y [|? ?]]]; try done. apply (index_in_range vs x y []); try done.
      destruct vs as [|[[]|] [|[[]|] [|? ?]]]; try done. eexists _, _, _, _. split; [done|exact Hsafe]. }
  destruct (build_node_ok d ops Hw Hok Hsf) as (r & Er & Wr & Tr & Dr). exists r. split_and!; [done|done|done|].
  intros e' v He Hv. apply Dr. by apply (values_mono d vs ops e' v Hd Hsafe He (Hle e' He)).
Qed.

(** The expression of a node, from expressions for its operands. *)
Lemma node_raw_ok g i n ops :
  eg_inv T g -> eg_sat T e g -> entry_ok T g n i -> denote e (node_op T n) = env_node e i -> node_safe e n ->
  Forall2 (stands_for T e) (en_operands n) ops ->
  exists r, CreateRaw simplify (en_data n) ops = Ok r /\ stands_for T e i r.
Proof.
  intros Hi Hs Hn Hval Hsafe Hops. pose proof Hn as [Hcl Hwn Hin _ Hty].
  assert (Forall wf ops /\ op_type <$> ops = op_type <$> (leaf T <$> en_operands n)) as [Hw Ht].
  { clear -Hops. induction Hops as [|j o js os (Wo & To & _) _ [IHw IHt]]; [done|]. split; [by constructor|]. cbn. by rewrite To, IHt. }
  assert (node_ok (en_data n) ops) as Hok by (inversion Hwn; subst; by eapply node_ok_ext).
  destruct (values_build_ok (en_data n) (env_node e <$> en_operands n) ops) as (r & Er & Wr & Tr & Dr); [done|done|done|done| |].
  { intros e' He. clear -Hops He. induction Hops as [|j o js os (_ & _ & Ho) _ IH]; constructor; [|done]. intros d Hd. by apply Ho. }
  exists r. rewrite (raw_build _ _ Hok). split; [done|]. split_and!; [done|by rewrite Tr|].
  intros e' v He Hv. apply Dr; [done|]. by rewrite <- Hv, <- Hval, (node_value T e g).
Qed.

Lemma update_cached_expr_ok x r c o :
  x_ok x -> in_graph (x_graph x) r -> grep (x_graph x) r = r -> classes (x_graph x) !! r = Some c -> stands_for T e r o ->
  exists x', update_cached_expr x r o = Ok x' /\ x_ok x' /\ x_same x x' /\ settles x x'.
Proof.
  intros Hx Hin Hr Hc Ho. unfold update_cached_expr. set (x1 := mkExtractor _ _ _ _ _).
  assert (x_ok x1) as Hx1.
  { destruct Hx as [Hi Hs Hsafe Hex Hb Hca Hco]. split; try done. intros i y. unfold x1. cbn.
    destruct (x_expressions x !! r) eqn:Er; [by apply Hex|]. rewrite lookup_insert_Some. intros [[<- <-]|[_ Hy]]; [done|by apply Hex]. }
  assert (x_same x x1) as S1 by (split; try done; eauto).
  change (is_const x1) with (is_const x). destruct (is_const x); [exists x1; split_and!; done|].
  unfold eg_get. change (x_graph x1) with (x_graph x).
  destruct (eg_find_ok (x_graph x) r (inv_uf T _ (xi_inv x Hx)) Hin) as (g & -> & Q). rewrite !ok_bind. cbv beta iota.
  rewrite Hr, (eqv_classes _ _ Q), Hc. cbn [fmap option_fmap option_map].
  assert (classes g !! r = Some c) as Hgc by (by rewrite (eqv_classes _ _ Q)).
  destruct (set_cache_ok x1 g c r (mkCache (Some o) (cache_cost (cache c))) Hx1 Q Hgc) as [Hx2 S2].
  - by intros o' [= <-].
  - intros Hst cost Hcost. by apply (xi_cached x Hx Hst).
  - rewrite <- (eqv_classes _ _ Q). eexists. split; [done|]. split_and!; [done|by apply (x_same_trans x x1)|done].
Qed.

(** What [extract] needs and does. *)
Definition complete (x : EGraphExtractor) : Prop := forall b, pending x b.
Definition extract_pre (n : nat) (x : EGraphExtractor) (i : Z) : Prop :=
  in_graph (x_graph x) i /\ (strict = true -> (below x (grep (x_graph x) i) < n)%nat /\ complete x).
Definition extract_post (x : EGraphExtractor) (i : Z) (r : Operation * EGraphExtractor) : Prop :=
  x_ok r.2 /\ x_same x r.2 /\ settles x r.2 /\ stands_for T e i r.1.
Definition extract_spec (n : nat) (f : EGraphExtractor -> Z -> result (Operation * EGraphExtractor)) : Prop :=
  forall x i, x_ok x -> extract_pre n x i -> wp (f x i) (extract_post x i).

Lemma extract_pre_same n x x' i : x_same x x' -> settles x x' -> extract_pre n x i -> extract_pre n x' i.
Proof.
  intros Hs Hse [Hi Hp]. split; [by apply (x_same_in x)|]. intros Hst. destruct (Hp Hst) as [Hb Hc].
  rewrite (same_rep _ _ Hs) by done. split; [by rewrite (below_same x x')|]. intros b. by apply (settles_pending x).
Qed.

Lemma extract_operands_ok n f x ops :
  extract_spec n f -> x_ok x -> Forall (extract_pre n x) ops ->
  wp (extract_operands f x ops) (fun r => x_ok r.2 /\ x_same x r.2 /\ settles x r.2 /\ Forall2 (stands_for T e) ops r.1).
Proof.
  intros Hf. revert x. induction ops as [|i ops IH]; intros x Hx Hops; cbn [extract_operands].
  { apply wp_ok. split_and!; [done|apply x_same_refl|apply settles_refl|constructor]. }
  apply Forall_cons in Hops as [Hi Hops]. eapply wp_bind; [by apply Hf|]. intros [o x1] (Hx1 & S1 & Se1 & Ho). cbn [fst snd] in *.
  eapply wp_bind; [apply (IH x1 Hx1); eapply Forall_impl; [exact Hops|]; intros j; by apply extract_pre_same|].
  intros [os x2] (Hx2 & S2 & Se2 & Hos). cbn [fst snd] in *. apply wp_ok.
  split_and!; [done|by apply (x_same_trans x x1)|by apply (settles_trans x x1)|by constructor].
Qed.

Lemma extract_class_ok fuel : extract_spec fuel (extract_class fuel).
Proof.
  induction fuel as [|fuel IH]; intros x i Hx [Hin Hpre]; cbn [extract_class].
  { cbn. clear -Hpre. destruct strict; [|done]. destruct (Hpre eq_refl) as [? _]. lia. }
  destruct (the_class_ok x i Hx Hin) as (c & Hc & _ & Ef & Hrin & Hrr). set (r := grep (x_graph x) i) in *. rewrite Ef, ok_bind.
  destruct (the_class_ok x r Hx Hrin) as (c' & Hc' & Ec & _). cbv zeta in Hc'. rewrite Hrr, Hc in Hc'. injection Hc' as <-. rewrite Ec, ok_bind.
  assert (forall x' o, x_ok x' -> x_same x x' -> settles x x' -> stands_for T e r o -> wp (Ok (o, x')) (extract_post x i)) as Hret.
  { intros x' o K1 K2 K3 Ho. apply wp_ok. split_and!; try done. cbn.
    apply (stands_for_move T e i r); [symmetry; by apply (inv_type T _ (xi_inv x Hx))|symmetry; by apply (sat_rep T e _ (xi_sat x Hx))|done]. }
  destruct (cache_expr (cache c)) as [o|] eqn:Eo.
  { apply Hret; [done|apply x_same_refl|apply settles_refl|]. by apply (sat_cache T e r c (sat_class T e _ (xi_sat x Hx) r c Hc)). }
  destruct (x_expressions x !! r) as [o|] eqn:Eo'.
  { apply Hret; [done|apply x_same_refl|apply settles_refl|]. by apply (xi_exprs x Hx). }
  eapply wp_bind; [apply (eval_cost_ok (class_fuel x) x r Hx)|].
  { split; [done|]. intros Hst. rewrite Hrr. destruct (Hpre Hst) as [_ Hcomp]. split; [apply below_fuel|apply Hcomp]. }
  intros [k x1] (Hx1 & S1 & Se1 & Hk). cbn [fst snd] in *. rewrite Hrr in Hk.
  destruct (nodes c !! Z.to_nat k.2) as [node|] eqn:En; cbn [of_option].
  2: { cbn. clear -Hk Hc En. destruct strict; [|done]. destruct (Hk eq_refl c Hc) as [_ ?]. apply lookup_ge_None in En. lia. }
  rewrite ok_bind. apply list_elem_of_lookup_2 in En.
  destruct (same_nodes x x1 S1 r c Hc) as (c1 & Hc1 & En1). rewrite <- En1 in En.
  pose proof (class_nodes T _ r c1 (inv_class T _ (xi_inv x1 Hx1) r c1 Hc1) node En) as Hnode.
  eapply wp_bind; [apply (extract_operands_ok fuel _ x1 (en_operands node) IH Hx1)|].
  { pose proof (entry_operands T _ node r Hnode) as Hops. rewrite Forall_forall in Hops |- *. intros j Hj. split; [by apply Hops|].
    intros Hst. destruct (Hpre Hst) as [Hfuel Hcomp]. split; [|intros b; by apply (settles_pending x)].
    assert (grep (x_graph x1) j ∈ dom (classes (x_graph x1))) as Hdom by (apply elem_of_dom, root_class; [done|by apply Hops]).
    pose proof (below_lt x1 r _ Hdom (operand_bound x1 r c1 node j Hst Hx1 Hc1 En Hj)) as Hbl.
    rewrite (below_same x x1 r S1) in Hbl. lia. }
  intros [ops x2] (Hx2 & S2 & Se2 & Hops). cbn [fst snd] in *.
  destruct (same_nodes x1 x2 S2 r c1 Hc1) as (c2 & Hc2 & En2). rewrite <- En2 in En.
  destruct (node_raw_ok (x_graph x2) r node ops (xi_inv x2 Hx2) (xi_sat x2 Hx2)) as (o & -> & Ho).
  { by apply (class_nodes T _ r c2 (inv_class T _ (xi_inv x2 Hx2) r c2 Hc2)). }
  { by apply (sat_nodes T e r c2 (sat_class T e _ (xi_sat x2 Hx2) r c2 Hc2)). }
  { by apply (xi_safe x2 Hx2 r c2). }
  { done. }
  rewrite ok_bind. pose proof (x_same_trans x x1 x2 S1 S2) as S12.
  destruct (update_cached_expr_ok x2 r c2 o Hx2) as (x3 & -> & Hx3 & S3 & Se3); [by apply (x_same_in x x2)|by rewrite (same_rep x x2 S12)|done|done|].
  rewrite ok_bind. apply Hret; [done|by apply (x_same_trans x x2)| |done].
  apply (settles_trans x x1); [done|]. by apply (settles_trans x1 x2).
Qed.

(** *** Expressions over classes *)
Inductive op_safe : Operation -> Prop :=
| op_safe_class d id l : egraph_id d = Some id -> op_safe (mkOp d l)
| op_safe_node d l : egraph_id d = None -> values_safe (od_opcode d) (denote e <$> l) -> Forall op_safe l -> op_safe (mkOp d l).
Definition op_stands (op r : Operation) : Prop :=
  wf r /\ op_type r = op_type op /\ forall e' v, same_symbols e e' -> denote e op = Some v -> denote e' r = Some v.
Definition op_post (x : EGraphExtractor) (op : Operation) (r : Operation * EGraphExtractor) : Prop :=
  x_ok r.2 /\ x_same x r.2 /\ settles x r.2 /\ op_stands op r.1.

Lemma clone_ok d ops : clean d -> node_ok d ops -> ops <> [] -> data_clone d = Ok d.
Proof.
  intros Hc Hn Ho. destruct d as [o t p]. unfold clean, node_ok in *. cbn in *. destruct ops as [|a ops]; [done|].
  destruct o, p; try done; try solve [destruct ops; done].
  destruct ops; [|done]. destruct Hn as (s' & w & [= ->] & Hw & _ & ->). unfold data_clone, ConstantData. done.
Qed.

Lemma op_fits_same x x' op : x_same x x' -> op_fits T (x_graph x) op -> op_fits T (x_graph x') op.
Proof.
  intros Hs. induction op as [d l IH] using operation_ind'. intros Hf. inversion Hf as [? id Hd Hin Ht|? ? Hd Hc Hl]; subst.
  - apply (fits_class _ _ _ id); [done|by apply (x_same_in x)|done].
  - apply fits_node; [done|done|]. rewrite Forall_forall in IH, Hl |- *. auto.
Qed.

Lemma extract_list_ok l x :
  Forall (fun op => forall x, wf op -> op_fits T (x_graph x) op -> op_safe op -> x_ok x -> (strict = true -> complete x) ->
    wp (extract_op op x) (op_post x op)) l ->
  Forall wf l -> Forall (op_fits T (x_graph x)) l -> Forall op_safe l -> x_ok x -> (strict = true -> complete x) ->
  wp (extract_list extract_op l x) (fun r => x_ok r.2 /\ x_same x r.2 /\ settles x r.2 /\ Forall2 op_stands l r.1).
Proof.
  intros IH. revert x. induction IH as [|op l Hop _ IHl]; intros x Hw Hf Hs Hx Hc; cbn [extract_list].
  { apply wp_ok. split_and!; [done|apply x_same_refl|apply settles_refl|constructor]. }
  apply Forall_cons in Hw as [Wo Hw]. apply Forall_cons in Hf as [Fo Hf]. apply Forall_cons in Hs as [So Hs].
  eapply wp_bind; [by apply Hop|]. intros [r x1] (Hx1 & S1 & Se1 & Hr). cbn [fst snd] in *. fold (extract_list extract_op).
  eapply wp_bind; [apply (IHl x1); [done| |done|done|]|].
  - eapply Forall_impl; [exact Hf|]. intros o. by apply op_fits_same.
  - intros Hst b. apply (settles_pending x); [done|by apply Hc].
  - intros [rs x2] (Hx2 & S2 & Se2 & Hrs). cbn [fst snd] in *. apply wp_ok.
    split_and!; [done|by apply (x_same_trans x x1)|by apply (settles_trans x x1)|by constructor].
Qed.

Lemma new_operands_ok d l ops :
  egraph_id d = None -> clean d -> node_ok d l -> Forall wf l -> values_safe (od_opcode d) (denote e <$> l) -> Forall2 op_stands l ops ->
  exists r, with_new_operands simplify (mkOp d l) ops = Ok r /\ op_stands (mkOp d l) r.
Proof.
  intros Hd Hc Hok Hwl Hsafe Hops.
  assert (Forall wf ops /\ op_type <$> l = op_type <$> ops) as [Hw Ht].
  { clear -Hops. induction Hops as [|o o' l ops (Wo & To & _) _ [IHw IHt]]; [done|]. split; [by constructor|]. cbn. by rewrite To, IHt. }
  assert (node_ok d ops) as Hok' by by eapply node_ok_ext.
  assert (forall e', same_symbols e e' -> Forall2 le_den (denote e <$> l) (denote e' <$> ops)) as Hle.
  { intros e' He. clear -Hops He. induction Hops as [|o o' l ops (_ & _ & Ho) _ IH]; constructor; [|done]. intros v Hv. by apply Ho. }
  unfold with_new_operands. cbn [op_operands op_data]. unfold num_operands. cbn [op_operands].
  rewrite <- (Forall2_length _ _ _ Hops), Z.eqb_refl. cbn [assert_]. rewrite ok_bind.
  assert (ops = l -> op_stands (mkOp d l) (mkOp d l)) as Hself.
  { intros E. split_and!; [by constructor|done|]. intros e' v He Hv. subst ops. by apply (values_mono d (denote e <$> l)); auto. }
  destruct (Z.eqb_spec (Z.of_nat (length l)) 0) as [Hz|Hz].
  { exists (mkOp d l). split; [done|]. apply Hself. destruct l; [by inversion Hops|done]. }
  destruct (forallb _ _) eqn:Ep.
  { exists (mkOp d l). split; [done|]. apply Hself. clear -Hops Ep. induction Hops as [|o o' l ops _ _ IH]; [done|].
    cbn in Ep. apply andb_true_iff in Ep as [Ep1 Ep2]. apply ptr_eq_sound in Ep1 as ->. f_equal. by apply IH. }
  rewrite (clone_ok d l Hc Hok), ok_bind by (by destruct l).
  destruct (values_build_ok d (denote e <$> l) ops Hc Hw Hok' Hsafe Hle) as (r & -> & Wr & Tr & Dr).
  exists r. split; [done|]. split_and!; [done|done|]. intros e' v He Hv. by apply Dr.
Qed.

Lemma extract_op_ok op x :
  wf op -> op_fits T (x_graph x) op -> op_safe op -> x_ok x -> (strict = true -> complete x) ->
  wp (extract_op op x) (op_post x op).
Proof.
  revert x. induction op as [d l IH] using operation_ind'. intros x Hw Hf Hs Hx Hc. cbn [extract_op].
  inversion Hw as [? ? Hwl Hok]; subst. inversion Hf as [? id Hd Hin Ht|? ? Hd Hcl Hl]; subst; rewrite Hd.
  - unfold extract. eapply wp_mono; [apply (extract_class_ok _ x id Hx)|].
    { split; [done|]. intros Hst. split; [apply below_fuel|auto]. }
    intros [r x'] (Hx' & S' & Se' & (Wr & Tr & Dr)). cbn [fst snd] in *. split_and!; [done|done|done|].
    split_and!; [done|cbn; by rewrite Tr|]. intros e' v He Hv. apply Dr; [done|].
    rewrite <- (leaf_value T e _ id (xi_sat x Hx) Hin), <- Hv. unfold egraph_id in Hd. destruct d as [o t p]. cbn in *.
    destruct o, p; try discriminate. injection Hd as ->. by rewrite Ht.
  - inversion Hs as [? id ? Hd'|? ? _ Hv Hsl]; subst; [congruence|].
    eapply wp_bind; [by apply extract_list_ok|]. intros [ops x'] (Hx' & S' & Se' & Hops). cbn [fst snd] in *.
    destruct (new_operands_ok d l ops) as (r & -> & Hr); [done..|]. rewrite ok_bind. apply wp_ok. by split_and!.
Qed.
End extract_sound.

(** ** The contracts *)
Section contracts.
Context `{PtrEq} `{!DataPtrEq} `{MapOrder} `{MathExtrasAPI} `{Config}.
#[local] Abbreviation grep g i := (rep (union_find g) i).

(** Graphs the extractor works on in [e]. *)
Definition extractable (T : Z -> Ty) (e : Env) (g : EGraph) : Prop :=
  eg_inv T g /\ eg_sat T e g /\ forall i c n, classes g !! i = Some c -> n ∈ nodes c -> node_safe e n.

(** Every class has a cost below 2^64, and the cached ones are its. *)
Definition bounded_costs (B : Z -> Z) (g : EGraph) : Prop :=
  forall i c, classes g !! i = Some c ->
    class_bound B g i c /\ forall k, cache_cost (cache c) = Some k -> cost_ok B i c k.

Lemma ctor_ok T e g strict B const :
  extractable T e g -> (strict = true -> bounded_costs B g) -> x_ok T e strict B (Extractor_ctor g const).
Proof.
  intros (Hi & Hs & Hsafe) Hb. split; try done.
  - intros Hst i c Hc. by apply (Hb Hst i c Hc).
  - intros Hst i c k Hc. by apply (Hb Hst i c Hc).
Qed.

(** C13: An expression extracted from an e-graph is equivalent to the class it
    was extracted for: in every environment in which the graph is sound and
    every node of the graph can be folded ([node_safe]), the expression is
    well-formed, has the type of the class and has its value, whatever the
    class ids mean, and the graph after the extraction, with its caches filled,
    is as before.  This holds also with cyclic classes, whenever the extraction
    returns.  A node can be folded if it is not a floating-point remainder, the
    left side of a floating-point comparison has a value that is not NaN, the
    operands of allocations, fixed arrays, loads and stores have values,
    allocations are not empty and indices are in range: extraction builds every
    expression through the constructors, whose folds are wrong or fail
    otherwise (Folding.v). *)
Theorem extract_sound T e g id r g' :
  extractable T e g -> in_graph g id -> egraph_extract g id = Ok (r, g') ->
  wf r /\ op_type r = T id /\
  (forall e' v, same_symbols e e' -> env_node e id = Some v -> denote e' r = Some v) /\
  extractable T e g'.
Proof.
  intros Hg Hin E. unfold egraph_extract, extract in E.
  pose proof (extract_class_ok T e false (fun _ => 0) (class_fuel (Extractor_ctor g false)) (Extractor_ctor g false) id) as K.
  apply bind_Ok in E as ([o x] & E & [= <- <-]). rewrite E in K.
  destruct K as (Hx & Hsame & _ & (Hw & Ht & Hd)); [by apply ctor_ok|by split|]. cbn in *.
  split_and!; try done. split_and!; [apply Hx|apply Hx|apply Hx].
Qed.

(** C17: Extraction succeeds on every e-graph whose classes have a cost below
    2^64 (which excludes classes that depend on themselves) and which is sound
    in some environment in which every node can be folded ([extractable]: no
    floating-point remainder, no comparison of a NaN, array operations with
    defined operands, non-empty allocations and indices in range): the
    recursion needs no more nested calls than there are classes, a cheapest node
    is always found, no assertion of the expression constructors fails, and the
    expression stands for the class. *)
Theorem extract_total T e g id B :
  extractable T e g -> bounded_costs B g -> in_graph g id ->
  exists r g', egraph_extract g id = Ok (r, g') /\ stands_for T e id r.
Proof.
  intros Hg Hb Hin. unfold egraph_extract, extract.
  pose proof (extract_class_ok T e true B (class_fuel (Extractor_ctor g false)) (Extractor_ctor g false) id) as K.
  destruct (extract_class _ _ _) as [[r x]|] eqn:E; cbn [wp] in K.
  - exists r, (x_graph x). split; [done|]. destruct K as (_ & _ & _ & Hr); [by apply ctor_ok| |done].
    split; [done|]. intros _. split; [apply below_fuel|]. by intros b v Hv.
  - discriminate K; [by apply ctor_ok|]. split; [done|]. intros _. split; [apply below_fuel|]. by intros b v Hv.
Qed.
End contracts.

Module extract_witness.
Import egraph_witness.
#[local] Instance on : Config := {| IMPLICIT_CONSTANT_FOLDING := true |}.

Definition seven : Env := {|
  env_symbol := fun _ => DInt (APInt_of 8 7); env_array := fun _ _ => DInt (APInt_of 8 7); env_node := fun _ => None |}.

Lemma empty_sat T e : (forall i, env_node e i = None) -> eg_sat T e eg_empty.
Proof.
  intros Hn. split; cbn.
  - intros i v _. by rewrite Hn.
  - intros i _. by rewrite !Hn.
  - by intros i c ?%lookup_empty_Some.
  - intros n p Hp. by apply elem_of_nil in Hp.
Qed.
Lemma step_sat op T e g :
  wf op -> op_fits T g op -> eg_inv T g -> eg_sat T e g ->
  exists T' e', eg_inv T' (with_expr op g) /\ eg_sat T' e' (with_expr op g) /\ same_symbols e e' /\
    env_node e' (or_empty (eg_add_op op g)).1 = denote e op.
Proof.
  intros Hw Hf Hi Hs. destruct (eg_add_op_ok op Hw T g Hi Hf) as (id & g' & T' & E & _ & _ & _ & I' & _ & _ & S).
  destruct (S e Hs) as (e' & [Hsym _] & Hs' & Hv). exists T', e'. unfold with_expr. rewrite E. split_and!; done.
Qed.

(** The opcodes whose folding needs no care. *)
Definition plain (n : ENode) : bool :=
  match od_opcode (en_data n) with OpAlloc | OpLoad | OpStore | OpFixedArray | OpFRem | OpFCmp _ => false | _ => true end.
Lemma plain_safe e n : plain n = true -> node_safe e n.
Proof. unfold plain, node_safe. by destruct (od_opcode (en_data n)). Qed.
Lemma gnx_plain : map_Forall (fun _ c => Forall (fun n => plain n = true) (nodes c)) (classes gnx).
Proof. vm_decide. Qed.
Lemma gnx_extractable : exists T e, extractable T e gnx /\ same_symbols e seven /\ env_node e 1 = Some (DInt (APInt_of 8 248)).
Proof.
  destruct (step_sat _ _ _ _ (sym_node_wf "x") (sym8_fits T0 _ _) (empty_inv T0) (empty_sat T0 seven (fun _ => eq_refl)))
    as (T1 & e1 & I1 & S1 & Sy1 & _).
  destruct (step_sat _ _ _ _ (not8_wf "x") (not8_fits T1 _ _) I1 S1) as (T2 & e2 & I2 & S2 & Sy2 & V2).
  assert ((or_empty (eg_add_op (not8 (sym8 "x")) gx)).1 = 1) as E1 by vm_decide.
  change (with_expr (sym8 "x") eg_empty) with gx in V2. rewrite E1 in V2. exists T2, e2. split.
  - split; [exact I2|]. split; [exact S2|]. intros i c n Hc Hn. apply plain_safe.
    pose proof (map_Forall_lookup_1 _ _ _ _ gnx_plain Hc) as Hp. rewrite Forall_forall in Hp. exact (Hp n Hn).
  - split; [destruct Sy1, Sy2; split; congruence|]. rewrite V2. transitivity (denote seven (not8 (sym8 "x"))); [|vm_cast_no_check (@eq_refl _ (Some (DInt (APInt_of 8 248))))].
    destruct e1 as [s1 a1 n1]. destruct Sy1 as [Es Ea]. cbn in Es, Ea. subst s1 a1. reflexivity.
Qed.

Definition B2 (i : Z) : Z := if i =? 0 then 65536 else 65537.
Definition bounds_hold : bool :=
  bool_decide (map_Forall (fun i c => (0 <= B2 i < UINT64_MAX /\ Z.of_nat (length (nodes c)) <= SIZE_MAX) /\
    cache_cost (cache c) = None /\
    Forall (fun n => opcode_cost (od_opcode (en_data n)) + sum_bound B2 gnx (en_operands n) <= B2 i) (nodes c)) (classes gnx)).
Lemma gnx_bounds : bounded_costs B2 gnx.
Proof.
  assert (bounds_hold = true) as K by vm_cast_no_check (@eq_refl bool true). apply bool_decide_eq_true_1 in K.
  intros i c Hc. destruct (map_Forall_lookup_1 _ _ _ _ K Hc) as ((? & ?) & Ek & Hn). rewrite Forall_forall in Hn.
  split; [split; [done|split; done]|]. intros k. rewrite Ek. discriminate.
Qed.

Definition extracted (r : result (Operation * EGraph)) : bool := match r with Ok _ => true | Err _ => false end.
Lemma extract_sound_witness :
  exists r g', egraph_extract gnx 1 = Ok (r, g') /\ wf r /\ denote seven r = Some (DInt (APInt_of 8 248)).
Proof.
  destruct gnx_extractable as (T & e & Hx & Sy & V). assert (in_graph gnx 1) as Hin by (unfold in_graph; vm_decide).
  assert (extracted (egraph_extract gnx 1) = true) as K by vm_cast_no_check (@eq_refl bool true).
  destruct (egraph_extract gnx 1) as [[r g']|err] eqn:E; [|discriminate K].
  destruct (extract_sound T e gnx 1 r g' Hx Hin E) as (Hw & _ & Hd & _). exists r, g'.
  split; [reflexivity|]. split; [exact Hw|]. exact (Hd seven _ Sy V).
Defined.
Lemma extract_total_witness :
  exists T e r g', egraph_extract gnx 1 = Ok (r, g') /\ stands_for T e 1 r.
Proof.
  destruct gnx_extractable as (T & e & Hx & _). assert (in_graph gnx 1) as Hin by (unfold in_graph; vm_decide).
  destruct (extract_total T e gnx 1 B2 Hx gnx_bounds Hin) as (r & g' & E & Hr). exists T, e, r, g'. split; [exact E|exact Hr].
Defined.
End extract_witness.
