(* ===== verification/GraphAssertions.v ===== *)
(** Path conditions over an e-graph: [caffeine::GraphAssertionList]
    (src/Model/GraphAssertionList.cpp).

    The assertions are ids of classes.  [canonicalize] replaces them by the
    representatives, takes conjunctions apart and drops literals.  The loop of
    [canonicalize] over its work list takes fuel; it does not end on every
    graph. *)
From S2P Require Import Prelude LLVM IRType Value Opcode Operation Matching Create Semantics.
From S2P Require Import Simplifier SimplifierInt SimplifierSound SparseVector Assertions.
From S2P Require Import UnionFind EGraph EGraphSound EGraphRebuild.
Open Scope Z_scope.

Section graph_assertions.
Context `{PtrEq} `{!DataPtrEq} `{MapOrder}.

Record GraphAssertionList : Type := mkGList { glist_ : list Z; glookup_ : gset Z; gmark_ : Z }.
Definition gl_empty : GraphAssertionList := mkGList [] ∅ 0.
Definition gl_size (l : GraphAssertionList) : Z := Z.of_nat (length (glist_ l)).
Definition gl_mark_sat (l : GraphAssertionList) : GraphAssertionList := mkGList (glist_ l) (glookup_ l) (gl_size l).
Definition gl_insert (l : GraphAssertionList) (assertion : Z) : GraphAssertionList :=
  if decide (assertion ∈ glookup_ l) then l
  else mkGList (glist_ l ++ [assertion]) ({[assertion]} ∪ glookup_ l) (gmark_ l).
Definition gl_insert_all (l : GraphAssertionList) (assertions : list Z) : GraphAssertionList :=
  foldl gl_insert l assertions.
Definition gl_contains (l : GraphAssertionList) (assertion : Z) : bool := bool_decide (assertion ∈ glookup_ l).

(** The array slices are undefined where the mark is past the end. *)
Definition gl_proven (l : GraphAssertionList) : result (list Z) :=
  if gmark_ l <=? gl_size l then Ok (take (Z.to_nat (gmark_ l)) (glist_ l)) else Err UndefinedBehaviour.
Definition gl_unproven (l : GraphAssertionList) : result (list Z) :=
  if gmark_ l <=? gl_size l then Ok (drop (Z.to_nat (gmark_ l)) (glist_ l)) else Err UndefinedBehaviour.

Definition gl_checkpoint (l : GraphAssertionList) : Z := gl_size l.
Definition gl_restore (l : GraphAssertionList) (checkpoint : Z) : result GraphAssertionList :=
  assert_ (checkpoint <=? gl_size l) ;;
  let k := Z.to_nat checkpoint in
  Ok (mkGList (take k (glist_ l)) (foldl (fun s i => s ∖ {[i]}) (glookup_ l) (drop k (glist_ l))) (gmark_ l)).

(** [dyn_cast<ConstantIntData>]. *)
Definition constant_int_data (d : OperationData) : option APInt :=
  match od_opcode d, od_payload d with OpConstantInt, PInt a => Some a | _, _ => None end.
Definition find_and (ns : list ENode) : option ENode :=
  head (filter (fun n => od_opcode (en_data n) = OpAnd) ns).

(** The work list [queued], whose back is the head of the list; [proven] says
    that the assertion it started from is below the mark.  The flag of the
    result is the jump to [done]. *)
Fixpoint canonicalize_queue (fuel : nat) (g : EGraph) (proven : bool) (queued : list Z) (canonical : GraphAssertionList) :
    result (bool * GraphAssertionList) :=
  match queued with
  | [] => Ok (false, canonical)
  | q :: queued =>
      match fuel with
      | O => Err OutOfFuel
      | S n =>
          assertion ← eg_find_const g q;
          c ← eg_get_const g assertion; c ← of_option AssertFailed c;
          front ← of_option UndefinedBehaviour (head (nodes c));
          match constant_int_data (en_data front) with
          | Some value =>
              if negb (getBoolValue value) then
                let canonical := gl_insert (mkGList [] ∅ (gmark_ canonical)) assertion in
                Ok (true, if proven then gl_mark_sat canonical else canonical)
              else canonicalize_queue n g proven queued canonical
          | None =>
              match find_and (nodes c) with
              | Some node => canonicalize_queue n g proven (reverse (en_operands node) ++ queued) canonical
              | None => canonicalize_queue n g proven queued (gl_insert canonical assertion)
              end
          end
      end
  end.
Fixpoint canonicalize_loop (fuel : nat) (g : EGraph) (mark i : Z) (l : list Z) (canonical : GraphAssertionList) :
    result GraphAssertionList :=
  match l with
  | [] => Ok canonical
  | a :: l =>
      let canonical := if i =? mark then gl_mark_sat canonical else canonical in
      '(done, canonical) ← canonicalize_queue fuel g (i <? mark) [a] canonical;
      if done : bool then Ok canonical else canonicalize_loop fuel g mark (i + 1) l canonical
  end.
Definition gl_canonicalize (fuel : nat) (g : EGraph) (l : GraphAssertionList) : result GraphAssertionList :=
  canonicalize_loop fuel g (gmark_ l) 0 (glist_ l) gl_empty.

(** ** Invariant and meaning *)
Record gl_inv (l : GraphAssertionList) : Prop := {
  gl_nodup : NoDup (glist_ l);
  gl_lookup : forall i, i ∈ glookup_ l <-> i ∈ glist_ l
}.
Definition marked (l : GraphAssertionList) : Prop := 0 <= gmark_ l <= gl_size l.

Lemma gl_empty_inv : gl_inv gl_empty.
Proof. split; cbn; [constructor|set_solver]. Qed.
Lemma gl_insert_inv l i : gl_inv l -> gl_inv (gl_insert l i).
Proof.
  intros [Hn Hl]. unfold gl_insert. case_decide as Hi; [done|]. split; cbn.
  - apply NoDup_app. split_and!; [done| |apply NoDup_singleton]. intros j Hj ->%list_elem_of_singleton. by apply Hi, Hl.
  - intros j. rewrite elem_of_union, elem_of_app, Hl, elem_of_singleton, list_elem_of_singleton. tauto.
Qed.
Lemma gl_insert_elem l i j : gl_inv l -> j ∈ glist_ (gl_insert l i) <-> j ∈ glist_ l \/ j = i.
Proof.
  intros [_ Hl]. unfold gl_insert. case_decide as Hi; cbn.
  - split; [tauto|]. intros [?| ->]; [done|by apply Hl].
  - by rewrite elem_of_app, list_elem_of_singleton.
Qed.
Lemma gl_insert_prefix l i : glist_ l `prefix_of` glist_ (gl_insert l i) /\ gmark_ (gl_insert l i) = gmark_ l.
Proof. unfold gl_insert. case_decide; cbn; split; try done. by apply prefix_app_r. Qed.
Lemma gl_mark_sat_inv l : gl_inv l -> gl_inv (gl_mark_sat l).
Proof. by intros []; split. Qed.

Lemma find_and_in ns n : find_and ns = Some n -> od_opcode (en_data n) = OpAnd /\ n ∈ ns.
Proof.
  unfold find_and. destruct (filter _ ns) as [|m l] eqn:E; [done|]. intros [= ->].
  assert (n ∈ filter (fun m => od_opcode (en_data m) = OpAnd) ns) as K by (rewrite E; by left).
  by apply list_elem_of_filter in K.
Qed.
End graph_assertions.

(** ** Canonicalization *)
Section canonicalize.
Context `{PtrEq} `{!DataPtrEq} `{MapOrder} `{MathExtrasAPI}.
#[local] Abbreviation grep g i := (rep (union_find g) i).

(** The class [i] is true. *)
Definition holds_id (e : Env) (i : Z) : Prop := env_node e i = Some (den_bool true).
(** A boolean class of the graph. *)
Definition bool_id (T : Z -> Ty) (g : EGraph) (i : Z) : Prop := in_graph g i /\ T i = ity 1.

(** Ids [canonicalize] leaves in the list: representatives of classes that
    have no conjunction and are not a literal, unless the list is [false]. *)
Definition settled (g : EGraph) (i : Z) : Prop :=
  exists c n, classes g !! i = Some c /\ head (nodes c) = Some n /\
    constant_int_data (en_data n) = None /\ find_and (nodes c) = None.
Definition literal_false (g : EGraph) (i : Z) : Prop :=
  exists c n a, classes g !! i = Some c /\ head (nodes c) = Some n /\
    constant_int_data (en_data n) = Some a /\ getBoolValue a = false.

Context (T : Z -> Ty) (g : EGraph) (Hg : eg_inv T g).

Lemma bool_root i : bool_id T g i -> bool_id T g (grep g i) /\ grep g (grep g i) = grep g i /\
  exists c n, classes g !! grep g i = Some c /\ head (nodes c) = Some n.
Proof.
  intros [Hi Ti]. pose proof (inv_uf T g Hg) as Hu. assert (in_graph g (grep g i)) as Hr by by apply rep_range.
  split_and!; [split; [done|by rewrite (inv_type T g Hg)]|by apply rep_rep|].
  destruct (proj2 (inv_dom T g Hg (grep g i)) (conj Hr (rep_rep _ _ Hu Hi))) as [c Hc]. exists c.
  pose proof (class_nonempty T g _ c (inv_class T g Hg _ c Hc)). destruct (nodes c) as [|n l]; [done|]. by exists n.
Qed.

(** The two steps of canonicalization are equivalences in every environment in
    which the graph is sound. *)
Lemma literal_value e i c n a :
  eg_sat T e g -> bool_id T g i -> classes g !! i = Some c -> head (nodes c) = Some n -> constant_int_data (en_data n) = Some a ->
  (holds_id e i <-> getBoolValue a = true).
Proof.
  intros Hs [Hi Ti] Hc Hn Ha. destruct (nodes c) as [|n' l] eqn:En; [done|]. injection Hn as ->.
  assert (n ∈ nodes c) as Hin by (rewrite En; by left).
  pose proof (sat_nodes T e i c (sat_class T e g Hs i c Hc) n Hin) as Hv.
  pose proof (class_nodes T g i c (inv_class T g Hg i c Hc) n Hin) as [Hcl Hw _ _ Ht].
  unfold constant_int_data in Ha. unfold clean in Hcl. destruct n as [[o t p] ops]. cbn [en_data od_opcode od_payload od_type en_operands] in *.
  destruct o; try done. destruct p; try done. injection Ha as ->. rewrite Ht, Ti in Hcl. injection Hcl as Hcl.
  inversion Hw as [? ? _ Hok]; subst. unfold node_ok in Hok. cbn in Hok. destruct ops; [|done].
  unfold node_op in Hv. cbn in Hv. unfold holds_id. rewrite <- Hv, getBoolValue_spec.
  pose proof (value_range a 1 (eq_sym Hcl)) as Hr. change (2 ^ 1) with 2 in Hr.
  rewrite negb_true_iff, Z.eqb_neq. unfold den_bool. split.
  - intros [= ->]. rewrite APInt_of_value by lia. done.
  - intros Hne. do 2 f_equal. symmetry. apply APInt_of_is; [by symmetry|]. change (wrap 1 (Z.b2z true)) with 1. lia.
Qed.

Lemma find_and_value i c n :
  bool_id T g i -> classes g !! i = Some c -> find_and (nodes c) = Some n ->
  exists x y, en_operands n = [x; y] /\ bool_id T g x /\ bool_id T g y /\
    forall e, eg_sat T e g -> (holds_id e i <-> holds_id e x /\ holds_id e y).
Proof.
  intros [Hi Ti] Hc Hn.
  destruct (find_and_in _ _ Hn) as [Ho Hin].
  pose proof (class_nodes T g i c (inv_class T g Hg i c Hc) n Hin) as [_ Hw Hops _ Ht].
  destruct (bool_bin_inv OpAnd (en_data n) (leaf T <$> en_operands n)) as (u & v & E & _ & _ & Tu & Tv); [done|done|by rewrite Ht|done|].
  destruct (en_operands n) as [|x [|y [|? ?]]] eqn:Eo; try discriminate E. injection E as <- <-.
  apply Forall_cons in Hops as [Hx Hops]. apply Forall_cons in Hops as [Hy _].
  exists x, y. split_and!; [done|by split|by split|]. intros e Hs.
  pose proof (sat_nodes T e i c (sat_class T e g Hs i c Hc) n Hin) as Hv.
  unfold node_op in Hv. rewrite Eo in Hv. cbn [fmap list_fmap] in Hv. unfold holds_id. rewrite <- Hv.
  rewrite <- (leaf_value T e g x Hs Hx), <- (leaf_value T e g y Hs Hy).
  assert (forall a b, sem_int (od_opcode (en_data n)) 1 (Z.b2z a) (Z.b2z b) = Some (Z.b2z (a && b))) as Hf.
  { intros a b. rewrite Ho. by destruct a, b. }
  destruct (denote e (mkOp (en_data n) [leaf T x; leaf T y])) as [w|] eqn:Ew.
  - destruct (denote_bool_bin e (en_data n) (leaf T x) (leaf T y) andb Hf) as (a & b & Ea & Eb & Eab);
      [by rewrite Ho|apply leaf_wf|apply leaf_wf|done|done|unfold Defined; by rewrite Ew|].
    rewrite <- Ew, Ea, Eb, Eab. split.
    + intros K. apply (inj Some) in K. apply den_bool_inj, andb_true_iff in K as [-> ->]. done.
    + intros [K1 K2]. apply (inj Some), den_bool_inj in K1, K2. by subst.
  - split; [done|]. intros [Ea Eb]. cbn [denote fmap list_fmap] in Ew, Ea, Eb. rewrite Ea, Eb in Ew.
    unfold denote_node in Ew. rewrite Ho in Ew. cbn in Ew. rewrite !APInt_of_width in Ew by lia. cbn in Ew. discriminate Ew.
Qed.

(** The conjunctions are well-founded: [rank] decreases from a class to the
    operands of its conjunction.  A class of rank [r] takes [weight r] rounds. *)
Fixpoint weight (r : nat) : nat := match r with O => 1 | S r => S (2 * weight r) end.
Definition and_rank (rank : Z -> nat) : Prop :=
  forall i c n j, classes g !! i = Some c -> find_and (nodes c) = Some n -> j ∈ en_operands n ->
    (rank (grep g j) < rank i)%nat.
Definition rounds (rank : Z -> nat) (ids : list Z) : nat := list_sum ((fun i => weight (rank (grep g i))) <$> ids).

Lemma weight_mono r r' : (r <= r')%nat -> (weight r <= weight r')%nat.
Proof. induction 1; cbn [weight]; lia. Qed.
Lemma rounds_pos r : (1 <= weight r)%nat.
Proof. destruct r; cbn; lia. Qed.
Lemma rounds_cons rank i ids : rounds rank (i :: ids) = (weight (rank (grep g i)) + rounds rank ids)%nat.
Proof. done. Qed.
Lemma weight_split (rank : Z -> nat) i x y :
  (rank x < rank i)%nat -> (rank y < rank i)%nat -> (weight (rank x) + weight (rank y) < weight (rank i))%nat.
Proof.
  intros Hx Hy. destruct (rank i) as [|r]; [lia|]. cbn [weight].
  pose proof (weight_mono (rank x) r ltac:(lia)). pose proof (weight_mono (rank y) r ltac:(lia)). lia.
Qed.

Definition all_hold (e : Env) (ids : list Z) : Prop := Forall (holds_id e) ids.
(** What the loop over [queued] makes of [canonical]: it appends settled
    classes, or ends with a literal false. *)
Definition queue_post (proven : bool) (queued : list Z) (canonical : GraphAssertionList) (r : bool * GraphAssertionList) : Prop :=
  gl_inv r.2 /\ Forall (bool_id T g) (glist_ r.2) /\
  (forall e, eg_sat T e g -> (all_hold e (glist_ r.2) <-> all_hold e (glist_ canonical) /\ all_hold e queued)) /\
  if r.1
  then (exists i, glist_ r.2 = [i] /\ literal_false g i) /\ gmark_ r.2 = if proven then 1 else gmark_ canonical
  else glist_ canonical `prefix_of` glist_ r.2 /\ gmark_ r.2 = gmark_ canonical /\
    (Forall (settled g) (glist_ canonical) -> Forall (settled g) (glist_ r.2)).

(** The fuel does not suffice for any ranking of the conjunctions. *)
Definition too_short (fuel : nat) (queued : list Z) : Prop :=
  forall rank, and_rank rank -> (fuel < rounds rank queued)%nat.
Lemma too_short_cons fuel q queued : too_short fuel queued -> too_short (S fuel) (q :: queued).
Proof. intros Hf rank Hr. specialize (Hf rank Hr). rewrite rounds_cons. pose proof (rounds_pos (rank (grep g q))). lia. Qed.

Lemma queue_ok fuel proven queued canonical :
  gl_inv canonical -> Forall (bool_id T g) queued -> Forall (bool_id T g) (glist_ canonical) ->
  (exists r, canonicalize_queue fuel g proven queued canonical = Ok r /\ queue_post proven queued canonical r) \/
  (canonicalize_queue fuel g proven queued canonical = Err OutOfFuel /\ too_short fuel queued).
Proof.
  revert queued canonical. induction fuel as [|fuel IH]; intros [|q queued] canonical Hc Hq Hb.
  - left. eexists. split; [done|]. split_and!; try done. intros e _. unfold all_hold. rewrite Forall_nil. tauto.
  - right. split; [done|]. intros rank _. rewrite rounds_cons. pose proof (rounds_pos (rank (grep g q))). lia.
  - left. eexists. split; [done|]. split_and!; try done. intros e _. unfold all_hold. rewrite Forall_nil. tauto.
  - apply Forall_cons in Hq as [Hq Hqs].
    destruct (bool_root q Hq) as (Hr & Hrr & c & n & Hcl & Hn). set (r := grep g q) in *.
    assert (forall e, eg_sat T e g -> holds_id e q <-> holds_id e r) as Hqr.
    { intros e Hs. unfold holds_id, r. rewrite (sat_rep T e g Hs) by apply Hq. done. }
    cbn [canonicalize_queue]. unfold eg_get_const, eg_find_const.
    rewrite (find_rep _ q (inv_uf T g Hg)) by apply Hq. fold r. rewrite ok_bind.
    rewrite (find_rep _ r (inv_uf T g Hg)) by apply Hr. rewrite Hrr, !ok_bind, Hcl. cbn [of_option]. rewrite ok_bind, Hn.
    cbn [of_option]. rewrite ok_bind. destruct (constant_int_data (en_data n)) as [a|] eqn:Ea.
    + destruct (getBoolValue a) eqn:Eb; cbn [negb].
      * destruct (IH queued canonical) as [(p & -> & Hi & Hbp & Hh & Hrest)|[-> Hf]]; [done..| |right; split; [done|by apply too_short_cons]].
        left. exists p. split; [done|]. split_and!; try done.
        intros e Hs. rewrite (Hh e Hs). unfold all_hold. rewrite Forall_cons, (Hqr e Hs), (literal_value e r c n a Hs Hr Hcl Hn Ea), Eb. tauto.
      * left. eexists. split; [done|]. assert (literal_false g r) as Hlf by by exists c, n, a.
        assert (gl_insert (mkGList [] ∅ (gmark_ canonical)) r = mkGList [r] ({[r]} ∪ ∅) (gmark_ canonical)) as Ei.
        { unfold gl_insert. by rewrite decide_False by (cbn; set_solver). }
        rewrite Ei. assert (gl_inv (mkGList [r] ({[r]} ∪ ∅) (gmark_ canonical))) as Hi.
        { split; cbn; [apply NoDup_singleton|]. intros i. rewrite list_elem_of_singleton. set_solver. }
        assert (forall e, eg_sat T e g -> ~ holds_id e r) as Hno.
        { intros e Hs. rewrite (literal_value e r c n a Hs Hr Hcl Hn Ea), Eb. done. }
        assert (forall e, eg_sat T e g -> all_hold e [r] <-> all_hold e (glist_ canonical) /\ all_hold e (q :: queued)) as Hh.
        { intros e Hs. unfold all_hold. rewrite Forall_singleton, Forall_cons, (Hqr e Hs). specialize (Hno e Hs). tauto. }
        assert (Forall (bool_id T g) [r]) as Hbr by by apply Forall_singleton.
        destruct proven; (split; [by destruct Hi|split; [done|split; [done|split; [by exists r|done]]]]).
    + destruct (find_and (nodes c)) as [m|] eqn:Em.
      * destruct (find_and_value r c m Hr Hcl Em) as (x & y & Ho & Hx & Hy & Hv). rewrite Ho.
        change (reverse [x; y] ++ queued) with (y :: x :: queued).
        destruct (IH (y :: x :: queued) canonical) as [(p & E & Hi & Hbp & Hh & Hrest)|[E Hf]];
          [done|by apply Forall_cons; split; [|apply Forall_cons]|done| |].
        -- left. exists p. split; [done|]. split_and!; try done.
           intros e Hs. rewrite (Hh e Hs). unfold all_hold. rewrite !Forall_cons, (Hqr e Hs), (Hv e Hs). tauto.
        -- right. split; [done|]. intros rank Hrank. specialize (Hf rank Hrank). rewrite !rounds_cons in *. fold r.
           pose proof (Hrank r c m x Hcl Em) as Rx. pose proof (Hrank r c m y Hcl Em) as Ry. rewrite Ho in Rx, Ry.
           pose proof (weight_split rank r _ _ (Rx ltac:(by left)) (Ry ltac:(by right; left))). lia.
      * assert (settled g r) as Hset by by exists c, n.
        destruct (gl_insert_prefix canonical r) as [Hpre Hmark].
        destruct (IH queued (gl_insert canonical r)) as [(p & -> & Hi & Hbp & Hh & Hrest)|[-> Hf]];
          [by apply gl_insert_inv|done| | |right; split; [done|by apply too_short_cons]].
        { apply Forall_forall. intros j [Hj| ->]%gl_insert_elem; [|done|done]. rewrite Forall_forall in Hb. auto. }
        left. exists p. split; [done|]. split_and!; try done.
        -- intros e Hs. rewrite (Hh e Hs). unfold all_hold. rewrite Forall_cons, (Hqr e Hs), !Forall_forall.
           split.
           ++ intros [K1 K2]. split_and!; [|apply K1; apply gl_insert_elem; auto|done]. intros j Hj. apply K1, gl_insert_elem; auto.
           ++ intros (K1 & K2 & K3). split; [|done]. intros j [Hj| ->]%gl_insert_elem; auto.
        -- destruct (p.1); [by rewrite Hmark in Hrest|]. destruct Hrest as (P1 & P2 & P3). split_and!; [by etrans|congruence|].
           intros Hs. apply P3, Forall_forall. intros j [Hj| ->]%gl_insert_elem; [|done|done]. rewrite Forall_forall in Hs. auto.
Qed.

(** The part below the mark of [canonical] follows from the part below the mark
    of the list it is made from. *)
Definition mark_ok (known : list Z) (canonical : GraphAssertionList) : Prop :=
  marked canonical /\
  forall e, eg_sat T e g -> all_hold e known -> all_hold e (take (Z.to_nat (gmark_ canonical)) (glist_ canonical)).
Record loop_inv (l before : list Z) (mark : Z) (canonical : GraphAssertionList) : Prop := {
  li_inv : gl_inv canonical;
  li_bool : Forall (bool_id T g) (glist_ canonical);
  li_holds : forall e, eg_sat T e g -> all_hold e (glist_ canonical) <-> all_hold e before;
  li_settled : Forall (settled g) (glist_ canonical);
  li_mark : mark_ok (take (Z.to_nat mark) l) canonical;
  li_zero : mark = 0 -> gmark_ canonical = 0;
  li_empty : before = [] -> glist_ canonical = []
}.
Definition loop_post (l : list Z) (mark : Z) (l' : GraphAssertionList) : Prop :=
  gl_inv l' /\ Forall (bool_id T g) (glist_ l') /\
  (forall e, eg_sat T e g -> all_hold e (glist_ l') <-> all_hold e l) /\
  (mark = 0 -> gmark_ l' = 0) /\
  ((exists i, glist_ l' = [i] /\ literal_false g i) \/
   (Forall (settled g) (glist_ l') /\ mark_ok (take (Z.to_nat mark) l) l')).

Lemma mark_sat_loop_inv l before rest mark canonical :
  l = before ++ rest -> Z.of_nat (length before) = mark -> loop_inv l before mark canonical ->
  loop_inv l before mark (gl_mark_sat canonical).
Proof.
  intros -> Hm [K1 K2 K3 K4 K5 K6 K7]. split; cbn; [by apply gl_mark_sat_inv|done|done|done| | |done].
  - split; [unfold marked; cbn; unfold gl_size; cbn; lia|]. intros e Hs Hk. cbn. unfold gl_size. rewrite Nat2Z.id, firstn_all.
    apply (K3 e Hs). by rewrite <- Hm, Nat2Z.id, take_app_length in Hk.
  - intros E. rewrite E in Hm. destruct before; [|done]. unfold gl_size. by rewrite K7.
Qed.

Lemma loop_ok fuel l before rest mark canonical :
  l = before ++ rest -> Forall (bool_id T g) rest -> loop_inv l before mark canonical ->
  (exists l', canonicalize_loop fuel g mark (Z.of_nat (length before)) rest canonical = Ok l' /\ loop_post l mark l') \/
  (canonicalize_loop fuel g mark (Z.of_nat (length before)) rest canonical = Err OutOfFuel /\
   exists i, i ∈ rest /\ too_short fuel [i]).
Proof.
  intros Hl. revert before canonical Hl. induction rest as [|a rest IH]; intros before canonical Hl Hb Hi.
  { left. exists canonical. split; [done|]. rewrite app_nil_r in Hl. subst before. destruct Hi. split_and!; try done. by right. }
  apply Forall_cons in Hb as [Ha Hb]. cbn [canonicalize_loop].
  set (c0 := if _ =? _ then _ else _). assert (loop_inv l before mark c0) as Hi0.
  { unfold c0. destruct (Z.eqb_spec (Z.of_nat (length before)) mark); [|done]. by apply (mark_sat_loop_inv l before (a :: rest)). }
  clearbody c0. clear canonical Hi. destruct Hi0 as [K1 K2 K3 K4 K5 K6 K7].
  destruct (queue_ok fuel (Z.of_nat (length before) <? mark) [a] c0 K1) as [([fin c1] & -> & P1 & P2 & P3 & P4)|[-> Hf]];
    [by apply Forall_singleton|done| |right; split; [done|]; exists a; split; [by left|done]].
  rewrite ok_bind. cbv beta iota. cbn [fst snd] in *.
  assert (forall e, eg_sat T e g -> all_hold e (glist_ c1) <-> all_hold e (before ++ [a])) as Hh.
  { intros e Hs. rewrite (P3 e Hs), (K3 e Hs). unfold all_hold. by rewrite Forall_app. }
  destruct fin.
  - left. exists c1. split; [reflexivity|]. destruct P4 as [(i & Ei & Hlf) Hm]. split_and!; [done|done| | |left; by exists i].
    + intros e Hs. split.
      2: { rewrite Hl, cons_middle, app_assoc. intros [K _]%Forall_app. by apply (Hh e Hs). }
      intros Hno. exfalso. rewrite Ei in Hno. unfold all_hold in Hno. rewrite Forall_singleton in Hno.
      destruct Hlf as (c & n & v & Hc & Hn & Hv & Hfalse). assert (bool_id T g i) as Hbi by (rewrite Ei in P2; by inversion P2).
      apply (literal_value e i c n v Hs Hbi Hc Hn Hv) in Hno. congruence.
    + intros ->. rewrite Hm. destruct (Z.ltb_spec (Z.of_nat (length before)) 0); [lia|auto].
  - destruct P4 as ([more Hmore] & Hm & Hset). destruct K5 as [[Km1 Km2] K5].
    replace (Z.of_nat (length before) + 1) with (Z.of_nat (length (before ++ [a]))) by (rewrite length_app; cbn [length]; lia).
    destruct (IH (before ++ [a]) c1) as [Hgood|[E (i & Hin & Hf)]]; [by rewrite Hl, cons_middle, app_assoc|done| |by left|].
    { split; [done|done|done|by apply Hset| |by rewrite Hm|intros [_ ?]%app_nil; discriminate].
      split; [unfold marked, gl_size in *; rewrite Hm, Hmore, length_app; lia|]. intros e Hs Hk.
      rewrite Hm, Hmore, take_app_le by (unfold gl_size in Km2; lia). by apply K5. }
    right. split; [done|]. exists i. split; [by right|done].
Qed.

Lemma canonicalize_post fuel l :
  Forall (bool_id T g) (glist_ l) ->
  (exists l', gl_canonicalize fuel g l = Ok l' /\ loop_post (glist_ l) (gmark_ l) l') \/
  (gl_canonicalize fuel g l = Err OutOfFuel /\ exists i, i ∈ glist_ l /\ too_short fuel [i]).
Proof.
  intros Hb. apply (loop_ok fuel (glist_ l) [] (glist_ l)); [done|done|].
  split; cbn; try done; [apply gl_empty_inv|]. split; [done|]. intros e _ _. constructor.
Qed.
End canonicalize.

(** ** The contract *)
Section contracts.
Context `{PtrEq} `{!DataPtrEq} `{MapOrder} `{MathExtrasAPI}.
#[local] Abbreviation grep g i := (rep (union_find g) i).

(** C21: Canonicalizing a path condition ends where the conjunctions of the
    e-graph are well-founded ([rank] bounds their nesting and with it the
    number of rounds), and the new list has the same solutions as the old one.
    It has no duplicates, and it is either a single literal false or consists
    of representatives of classes without conjunctions and literals; in the
    latter case the part marked as proven still follows from the part that
    was marked before. *)
Theorem canonicalize_correct T g rank fuel l :
  eg_inv T g -> Forall (bool_id T g) (glist_ l) -> and_rank g rank ->
  (forall i, i ∈ glist_ l -> (weight (rank (grep g i)) <= fuel)%nat) ->
  exists l', gl_canonicalize fuel g l = Ok l' /\ gl_inv l' /\ Forall (bool_id T g) (glist_ l') /\
    (forall e, eg_sat T e g -> all_hold e (glist_ l') <-> all_hold e (glist_ l)) /\
    ((exists i, glist_ l' = [i] /\ literal_false g i) \/
     Forall (settled g) (glist_ l') /\ exists ps, gl_proven l' = Ok ps /\
       forall e, eg_sat T e g -> all_hold e (take (Z.to_nat (gmark_ l)) (glist_ l)) -> all_hold e ps).
Proof.
  intros Hg Hb Hr Hf. destruct (canonicalize_post T g Hg fuel l Hb) as [(l' & E & P1 & P2 & P3 & _ & P4)|[_ (i & Hi & Hs)]].
  2: { specialize (Hs rank Hr). specialize (Hf i Hi). unfold rounds in Hs. cbn in Hs. lia. }
  exists l'. split_and!; try done. destruct P4 as [P4|(P4 & [Hm1 Hm2] & Hk)]; [by left|]. right. split; [done|].
  unfold gl_proven. destruct (Z.leb_spec (gmark_ l') (gl_size l')); [eauto|lia].
Qed.

(** A class whose first conjunction has the class itself as an operand. *)
Definition loops_at (g : EGraph) (r : Z) : Prop :=
  exists c n m j, classes g !! r = Some c /\ head (nodes c) = Some n /\ constant_int_data (en_data n) = None /\
    find_and (nodes c) = Some m /\ j ∈ en_operands m /\ grep g j = r.
(** One round of the work list. *)
Lemma queue_round T g fuel b k q can x :
  eg_inv T g -> in_graph g k -> canonicalize_queue (S fuel) g b (k :: q) can = Ok x ->
  exists c n, classes g !! grep g k = Some c /\ head (nodes c) = Some n /\
    ((x.1 = true /\ glist_ x.2 = [grep g k] /\ literal_false g (grep g k)) \/
     exists q' can', canonicalize_queue fuel g b (q' ++ q) can' = Ok x /\ Forall (in_graph g) q' /\
       (constant_int_data (en_data n) = None -> forall m, find_and (nodes c) = Some m -> q' = reverse (en_operands m))).
Proof.
  intros Hg Hk E. pose proof (inv_uf T g Hg) as Hu. assert (in_graph g (grep g k)) as Hgk by by apply rep_range.
  cbn [canonicalize_queue] in E. unfold eg_get_const, eg_find_const in E.
  rewrite (find_rep _ k Hu Hk), ok_bind, (find_rep _ _ Hu Hgk), !ok_bind, (rep_rep _ _ Hu Hk) in E.
  apply bind_Ok in E as (c & Hc%of_option_Ok & E). apply bind_Ok in E as (n & Hn%of_option_Ok & E). exists c, n. split_and!; [done|done|].
  destruct (constant_int_data (en_data n)) as [v|] eqn:Ev.
  - destruct (getBoolValue v) eqn:Hv; cbn [negb] in E; [right; by exists [], can|]. left. injection E as <-. split_and!; [done| |by exists c, n, v].
    destruct b; unfold gl_insert; cbn; by rewrite decide_False by set_solver.
  - right. destruct (find_and (nodes c)) as [m|] eqn:Em; [|by eexists [], _]. exists (reverse (en_operands m)), can. split_and!; [done| |by intros _ ? [= <-]].
    destruct (find_and_in _ _ Em) as [_ Hin]. apply Forall_reverse.
    apply (entry_operands T g m _ (class_nodes T g _ c (inv_class T g Hg _ c Hc) m Hin)).
Qed.
(** Once such a class is queued, the queue is never worked off. *)
Lemma looping_queue T g r fuel b q can x :
  eg_inv T g -> loops_at g r -> Forall (in_graph g) q -> canonicalize_queue fuel g b q can = Ok x ->
  (x.1 = true -> exists k, glist_ x.2 = [k] /\ literal_false g k) /\ ((exists k, k ∈ q /\ grep g k = r) -> x.1 = true).
Proof.
  intros Hg (c & n & m & j & Hc & Hn & Ha & Hm & Hj & Hjr).
  revert q can. induction fuel as [|fuel IH]; intros [|k q] can Hq E; try (injection E as <-; split; [done|by intros (? & ?%elem_of_nil & _)]); [done|].
  apply Forall_cons in Hq as [Hk Hq]. destruct (queue_round T g fuel b k q can x Hg Hk E) as (ck & nk & Hck & Hnk & [(Hx & Hl & Hf)|(q' & can' & E' & Hq' & Hand)]); [by eauto|].
  destruct (IH (q' ++ q) can') as [H1x H2x]; [by apply Forall_app|done|]. split; [done|]. intros (k0 & Hk0 & Hr). apply H2x.
  destruct (decide (grep g k = r)) as [Heq|Hne].
  - rewrite Heq, Hc in Hck. injection Hck as <-. rewrite Hn in Hnk. injection Hnk as <-. exists j. rewrite (Hand Ha m Hm). split; [|done].
    apply elem_of_app. left. by apply elem_of_reverse.
  - exists k0. apply elem_of_cons in Hk0 as [->|Hk0]; [done|]. split; [|done]. apply elem_of_app. by right.
Qed.
Lemma looping_loop T g r fuel mark l : forall k can l',
  eg_inv T g -> loops_at g r -> Forall (in_graph g) l -> (exists i, i ∈ l /\ grep g i = r) ->
  canonicalize_loop fuel g mark k l can = Ok l' -> exists i, glist_ l' = [i] /\ literal_false g i.
Proof.
  induction l as [|a l IH]; intros k can l' Hg Hloop Hl (i & Hi & Hr) E; [by apply elem_of_nil in Hi|]. cbn [canonicalize_loop] in E.
  apply Forall_cons in Hl as [Ha Hl]. apply bind_Ok in E as ([d can'] & Eq & E).
  destruct (looping_queue T g r fuel _ [a] _ _ Hg Hloop (proj2 (Forall_singleton _ _) Ha) Eq) as [Hlit Hin]. cbn in Hlit, Hin.
  destruct d; [injection E as <-; by apply Hlit|]. apply (IH (k + 1) can'); try done. exists i. split; [|done].
  apply elem_of_cons in Hi as [->|Hi]; [|done]. discriminate Hin. exists a. split; [by left|done].
Qed.

(** C36: Canonicalizing does not end on a path condition that asserts a class
    whose first conjunction has the class itself as an operand, unless it meets
    a literal false.  Wherever the class is in the path condition and the
    operand in the conjunction, no number of rounds of the loop is enough to
    return anything but the list of one literal false.  The class must not have
    a constant as its first node.  The rewrite of x & x to x makes such
    classes. *)
Theorem canonicalize_diverges T g fuel l i :
  eg_inv T g -> Forall (bool_id T g) (glist_ l) -> i ∈ glist_ l -> loops_at g (grep g i) ->
  gl_canonicalize fuel g l = Err OutOfFuel \/
  exists l' k, gl_canonicalize fuel g l = Ok l' /\ glist_ l' = [k] /\ literal_false g k.
Proof.
  intros Hg Hb Hi Hloop. destruct (canonicalize_post T g Hg fuel l Hb) as [(l' & E & _)|[E _]]; [right|by left].
  destruct (looping_loop T g (grep g i) fuel (gmark_ l) (glist_ l) 0 gl_empty l') as (k & Hk & Hlf); try done.
  - eapply Forall_impl; [exact Hb|]. by intros ? [].
  - by exists i.
  - by exists l', k.
Qed.
End contracts.

Module graphlist_witness.
Import egraph_witness.
Definition sym1 (s : string) : Operation := mkOp (mkData OpConstantNamed (ity 1) (PSymbol (Named s))) [].
Definition and1 (x y : Operation) : Operation := mkOp (mkData OpAnd (ity 1) NoPayload) [x; y].
Definition false1 : Operation := mkOp (mkData OpConstantInt (ity 1) (PInt (APInt_of 1 0))) [].

Lemma sym1_wf s : wf (sym1 s).
Proof. constructor; [constructor|]. by exists (Named s). Qed.
Lemma and1_wf s t : wf (and1 (sym1 s) (sym1 t)).
Proof. constructor; [constructor; [apply sym1_wf|constructor; [apply sym1_wf|constructor]]|]. by exists 1. Qed.
Lemma sym1_fits T g s : op_fits T g (sym1 s).
Proof. by apply fits_node. Qed.
Lemma and1_fits T g s t : op_fits T g (and1 (sym1 s) (sym1 t)).
Proof. apply fits_node; [done|done|]. constructor; [apply sym1_fits|constructor; [apply sym1_fits|constructor]]. Qed.

(** x, y, and x & y as class 2. *)
Definition g1 : EGraph := with_expr (and1 (sym1 "x") (sym1 "y")) eg_empty.
Definition list2 : GraphAssertionList := gl_insert gl_empty 2.
Lemma g1_inv : exists T, eg_inv T g1 /\ T 2 = ity 1.
Proof.
  destruct (add_step _ _ _ (and1_wf "x" "y") (and1_fits T0 _ _ _) (empty_inv T0)) as (T & I & _ & Ht).
  exists T. split; [exact I|]. assert ((or_empty (eg_add_op (and1 (sym1 "x") (sym1 "y")) eg_empty)).1 = 2) as E by vm_decide.
  rewrite E in Ht. exact Ht.
Qed.
Definition rank1 (i : Z) : nat := if i =? 2 then 1%nat else 0%nat.
Lemma g1_rank : and_rank g1 rank1.
Proof.
  assert (map_Forall (fun i c => Forall (fun n => Forall (fun j => (rank1 (rep (union_find g1) j) < rank1 i)%nat) (en_operands n))
    (option_list (find_and (nodes c)))) (classes g1)) as K by vm_decide.
  intros i c n j Hc Hn Hj. pose proof (map_Forall_lookup_1 _ _ _ _ K Hc) as Kc. cbv beta in Kc. rewrite Hn in Kc.
  apply Forall_cons in Kc as [Kn _]. rewrite Forall_forall in Kn. by apply Kn.
Qed.
Lemma canonicalize_correct_witness :
  exists T l', gl_canonicalize 3 g1 list2 = Ok l' /\ glist_ l' = [1; 0] /\
    forall e, eg_sat T e g1 -> all_hold e [1; 0] <-> all_hold e [2].
Proof.
  destruct g1_inv as (T & I & Ht). exists T.
  destruct (canonicalize_correct T g1 rank1 3 list2 I) as (l' & E & _ & _ & Hh & _).
  - apply Forall_singleton. split; [unfold in_graph; vm_decide|exact Ht].
  - exact g1_rank.
  - intros i ->%list_elem_of_singleton. vm_decide.
  - assert (glist_ <$> gl_canonicalize 3 g1 list2 = Ok [1; 0]) as K by vm_decide. rewrite E in K. injection K as K.
    exists l'. split; [exact E|]. split; [exact K|]. rewrite <- K. exact Hh.
Defined.

(** x & x merged with x, as the rewrite rule for conjunctions of equal operands
    does, and rebuilt. *)
Definition gx1 : EGraph := with_expr (and1 (sym1 "x") (sym1 "x")) eg_empty.
Definition gmerged : EGraph := (or_empty (eg_merge gx1 1 0)).2.
Definition gcycle : EGraph := match rebuild gmerged with Ok g => g | Err _ => eg_empty end.
Lemma gmerged_inv : exists T, eg_inv T gmerged /\ T 1 = ity 1.
Proof.
  destruct (add_step _ _ _ (sym1_wf "x") (sym1_fits T0 _ _) (empty_inv T0)) as (T & I & _ & Ht0).
  destruct (add_step _ _ _ (and1_wf "x" "x") (and1_fits T _ _ _) I) as (T' & I' & Hold & Ht1). exists T'.
  set (g0 := with_expr (sym1 "x") eg_empty) in *.
  assert ((or_empty (eg_add_op (sym1 "x") eg_empty)).1 = 0 /\ (or_empty (eg_add_op (and1 (sym1 "x") (sym1 "x")) g0)).1 = 1) as [E0 E1] by vm_decide.
  rewrite E0 in Ht0. rewrite E1 in Ht1. assert (in_graph g0 0) as R0 by (unfold in_graph; vm_decide).
  assert (with_expr (and1 (sym1 "x") (sym1 "x")) g0 = gx1) as Eg by vm_cast_no_check (@eq_refl EGraph gx1).
  rewrite Eg in I'. assert (in_graph gx1 1 /\ in_graph gx1 0) as [R1 R0'] by (unfold in_graph; vm_decide).
  destruct (eg_merge_ok T' gx1 1 0 I' R1 R0') as (g' & E & I'' & _).
  { rewrite Ht1, (Hold 0 R0), Ht0. exact eq_refl. }
  split; [|rewrite Ht1; exact eq_refl]. unfold gmerged. rewrite E. exact I''.
Qed.
Lemma gcycle_inv : exists T, eg_inv T gcycle /\ T 1 = ity 1.
Proof.
  destruct gmerged_inv as (T & I & Ht). exists T. split; [|exact Ht].
  pose proof (rebuild_ok (fun e => eg_sat T e gmerged) T gmerged) as K. unfold ok_or_ub in K.
  assert (is_ok (rebuild gmerged) = true) as Eok by vm_decide. unfold gcycle.
  destruct (rebuild gmerged) as [g'|err]; [|discriminate Eok]. destruct K as ([I' _] & _); [by split|exact I'].
Qed.

(** The class of x & x has no literal below it. *)
Lemma gcycle_never : is_ok (gl_canonicalize 1000 gcycle (gl_insert gl_empty 1)) = false.
Proof. vm_decide. Qed.
Lemma canonicalize_diverges_witness :
  gl_canonicalize 1000 gcycle (gl_insert gl_empty 1) = Err OutOfFuel.
Proof.
  destruct gcycle_inv as (T & I & Ht).
  assert (exists c, classes gcycle !! 1 = Some c) as [c Hc].
  { assert (bool_decide (is_Some (classes gcycle !! 1)) = true) as K by vm_cast_no_check (@eq_refl bool true).
    apply bool_decide_eq_true_1 in K as [c Hc]. exists c. exact Hc. }
  assert ((fun c => (option_map (fun n => constant_int_data (en_data n)) (head (nodes c)), option_map en_operands (find_and (nodes c))))
    <$> classes gcycle !! 1 = Some (Some None, Some [1; 1])) as K by vm_decide.
  assert (rep (union_find gcycle) 1 = 1) as Er by vm_decide.
  rewrite Hc in K. cbn in K. destruct (head (nodes c)) as [n|] eqn:En; [|discriminate K].
  destruct (find_and (nodes c)) as [m|] eqn:Em; [|discriminate K]. cbn in K. injection K as K1 K2.
  destruct (canonicalize_diverges T gcycle 1000 (gl_insert gl_empty 1) 1 I) as [E|(l' & k & E & _)].
  - constructor; [|constructor]. split; [unfold in_graph; vm_decide|exact Ht].
  - left.
  - exists c, n, m, 1. rewrite Er, K2. split; [exact Hc|]. split; [exact En|]. split; [exact K1|]. split; [exact Em|]. split; [left|reflexivity].
  - exact E.
  - pose proof gcycle_never as N. rewrite E in N. discriminate N.
Defined.

(** A literal false after the mark: the list is emptied but its mark is not
    reset, and the proven part runs past the end of the list. *)
Definition g3 : EGraph := with_expr false1 (with_expr (sym1 "y") (with_expr (sym1 "x") eg_empty)).
Definition list3 : GraphAssertionList := gl_insert (gl_mark_sat (gl_insert_all gl_empty [0; 1])) 2.
Lemma canonicalize_stale_mark :
  marked list3 /\ exists l', gl_canonicalize 1 g3 list3 = Ok l' /\ glist_ l' = [2] /\ gl_proven l' = Err UndefinedBehaviour.
Proof.
  split; [unfold marked; vm_decide|].
  assert ((fun l => (glist_ l, gl_proven l)) <$> gl_canonicalize 1 g3 list3 = Ok ([2], Err UndefinedBehaviour)) as K by vm_decide.
  destruct (gl_canonicalize 1 g3 list3) as [l'|err]; [|discriminate K]. injection K as K1 K2.
  exists l'. split; [reflexivity|]. split; [exact K1|exact K2].
Qed.
End graphlist_witness.
