(* ===== verification/Frames.v ===== *)
(** Values of LLVM variables and stack frames: [caffeine::LLVMScalar] and
    [caffeine::LLVMValue] (include/caffeine/Model/Value.inl),
    [caffeine::IRStackFrame], [caffeine::ExternalStackFrame] and
    [caffeine::StackFrame] (src/Interpreter/StackFrame.cpp).

    LLVM's functions, blocks, instructions and arguments are identities; what
    the frames ask of them is the class [LLVMIR].  A position in a block is an
    index into its instructions. *)
From S2P Require Import Prelude LLVM IRType Value Opcode Operation Matching Create Semantics.
From S2P Require Import Simplifier SparseVector Assertions Allocation SlotMap BumpAllocator MemHeap.
Open Scope Z_scope.

(** What the frames use of LLVM's IR. *)
Class LLVMIR := {
  block_insts : Z -> list Z;          (** the instructions of a block *)
  entry_block : Z -> Z;               (** of a function *)
  fn_args : Z -> list Z;              (** the arguments of a function *)
  invoke_dests : Z -> option (Z * Z)  (** an invoke's normal and unwind block *)
}.

Section values.
Context `{PtrEq} `{MathExtrasAPI} `{Config}.

(** *** Scalars *)
Inductive LLVMScalar : Type := Expr (e : Operation) | Ptr (p : Pointer).
Definition is_expr (s : LLVMScalar) : bool := match s with Expr _ => true | Ptr _ => false end.
Definition is_pointer (s : LLVMScalar) : bool := negb (is_expr s).
Definition scalar_expr (s : LLVMScalar) : result Operation := match s with Expr e => Ok e | Ptr _ => Err AssertFailed end.
Definition scalar_pointer (s : LLVMScalar) : result Pointer := match s with Ptr p => Ok p | Expr _ => Err AssertFailed end.

(** *** Values: a vector of scalars, of length one for a scalar, or an
    aggregate *)
Inductive LLVMValue : Type := Vector (vs : list LLVMScalar) | Aggregate (ms : list LLVMValue).
Definition LLVMValue_of (s : LLVMScalar) : LLVMValue := Vector [s].
Definition is_vector (v : LLVMValue) : bool := match v with Vector _ => true | Aggregate _ => false end.
Definition is_aggregate (v : LLVMValue) : bool := negb (is_vector v).
Definition value_vector (v : LLVMValue) : result (list LLVMScalar) :=
  match v with Vector vs => Ok vs | Aggregate _ => Err AssertFailed end.
Definition value_aggregate (v : LLVMValue) : result (list LLVMValue) :=
  match v with Aggregate ms => Ok ms | Vector _ => Err AssertFailed end.
Definition is_scalar (v : LLVMValue) : bool := match v with Vector [_] => true | _ => false end.
Definition value_scalar (v : LLVMValue) : result LLVMScalar :=
  assert_ (is_scalar v) ;; vs ← value_vector v; of_option UndefinedBehaviour (vs !! 0%nat).
Definition num_elements (v : LLVMValue) : result Z := vs ← value_vector v; Ok (Z.of_nat (length vs)).
Definition element (v : LLVMValue) (idx : nat) : result LLVMScalar :=
  vs ← value_vector v; of_option UndefinedBehaviour (vs !! idx).
Definition num_members (v : LLVMValue) : result Z := ms ← value_aggregate v; Ok (Z.of_nat (length ms)).
Definition member (v : LLVMValue) (idx : nat) : result LLVMValue :=
  ms ← value_aggregate v; of_option UndefinedBehaviour (ms !! idx).
Definition broadcast (s : LLVMScalar) (width : nat) : LLVMValue := Vector (replicate width s).

(** *** [transform_elements] and [transform_exprs] *)

(** The loop over all iterators at once, [n] more elements. *)
Fixpoint transform_loop (n : nat) (func : list LLVMScalar -> result LLVMScalar) (its : list (list LLVMScalar)) :
    result (list LLVMScalar) :=
  match n with
  | O => Ok []
  | S n =>
      args ← of_option UndefinedBehaviour (mapM hd_error its);
      r ← func args; rs ← transform_loop n func (tail <$> its); Ok (r :: rs)
  end.
Definition transform_elements (func : list LLVMScalar -> result LLVMScalar) (values : list LLVMValue) : result LLVMValue :=
  assert_ (forallb is_vector values) ;;
  its ← mapM value_vector values;
  let n := length (default [] (hd_error its)) in
  assert_ (forallb (fun vs => (length vs =? n)%nat) its) ;;
  results ← transform_loop n func its; Ok (Vector results).
Definition transform_exprs (func : list Operation -> result Operation) (values : list LLVMValue) : result LLVMValue :=
  transform_elements (fun args => es ← mapM scalar_expr args; r ← func es; Ok (Expr r)) values.
End values.

(** *** Frames *)
Section frames.
Context `{PtrEq} `{MathExtrasAPI} `{Config} `{LLVMIR}.

Record StackAllocation : Type := mkStackAlloc { sa_alloc : AllocId; sa_heap : Z }.

(** [current] is the position of the next instruction of [current_block]. *)
Record IRStackFrame : Type := mkIRFrame {
  ir_frame_id : Z;
  allocations : list StackAllocation;
  variables : gmap Z LLVMValue;
  current_block : Z;
  prev_block : option Z;
  current : nat;
  func : Z
}.
Definition IRStackFrame_ctor (function frame_id : Z) : IRStackFrame :=
  mkIRFrame frame_id [] ∅ (entry_block function) None 0 function.
Definition jump_to (f : IRStackFrame) (block : option Z) : result IRStackFrame :=
  b ← of_option AssertFailed block;
  Ok (mkIRFrame (ir_frame_id f) (allocations f) (variables f) b (Some (current_block f)) 0 (func f)).
Definition frame_insert (f : IRStackFrame) (value : Z) (exprs : LLVMValue) : IRStackFrame :=
  mkIRFrame (ir_frame_id f) (allocations f) (<[value := exprs]> (variables f)) (current_block f) (prev_block f) (current f) (func f).
Definition set_current (f : IRStackFrame) (pos : nat) : IRStackFrame :=
  mkIRFrame (ir_frame_id f) (allocations f) (variables f) (current_block f) (prev_block f) pos (func f).

(** The instruction before [current]; at the start of a block, the terminator
    of the block before. *)
Definition get_current_instruction (f : IRStackFrame) : result (option Z) :=
  match current f with
  | O => match prev_block f with None => Ok None | Some b => Ok (last (block_insts b)) end
  | S k => i ← of_option UndefinedBehaviour (block_insts (current_block f) !! k); Ok (Some i)
  end.

Definition ir_set_result (f : IRStackFrame) (result_ resume_value : option LLVMValue) : result IRStackFrame :=
  assert_ (negb (bool_decide (is_Some result_)) || negb (bool_decide (is_Some resume_value))) ;;
  caller ← match current f with
           | O => Err UndefinedBehaviour
           | S k => of_option UndefinedBehaviour (block_insts (current_block f) !! k)
           end;
  let f := match result_ with Some r => frame_insert f caller r | None => f end in
  match invoke_dests caller with
  | None => Ok f
  | Some (normal, unwind) =>
      match resume_value with
      | None => jump_to f (Some normal)
      | Some v =>
          f ← jump_to f (Some unwind);
          landingpad ← of_option UndefinedBehaviour (block_insts (current_block f) !! current f);
          Ok (set_current (frame_insert f landingpad v) (S (current f)))
      end
  end.

(** The members of the base class; what a derived class keeps for its coroutine
    is not part of the model. *)
Record ExternalStackFrame : Type := mkExtFrame {
  ext_frame_id : Z;
  result_ : option LLVMValue;
  resume_value_ : option LLVMValue;
  ext_args : list LLVMValue;
  ext_func : Z
}.
Definition ext_set_result (f : ExternalStackFrame) (r resume : option LLVMValue) : result ExternalStackFrame :=
  assert_ (negb (bool_decide (is_Some r)) || negb (bool_decide (is_Some resume))) ;;
  Ok (mkExtFrame (ext_frame_id f) (match r with Some _ => r | None => result_ f end)
        (match resume with Some _ => resume | None => resume_value_ f end) (ext_args f) (ext_func f)).

Inductive FrameValue : Type := Uninitialized | Regular (f : IRStackFrame) | External (f : ExternalStackFrame).
Record StackFrame : Type := mkFrame { value_ : FrameValue; frame_id : Z }.
Definition is_regular (f : StackFrame) : bool := match value_ f with Regular _ => true | _ => false end.
Definition is_external (f : StackFrame) : bool := match value_ f with External _ => true | _ => false end.
(** [std::get] throws. *)
Definition get_regular (f : StackFrame) : result IRStackFrame := match value_ f with Regular r => Ok r | _ => Err Thrown end.
Definition get_external (f : StackFrame) : result ExternalStackFrame := match value_ f with External x => Ok x | _ => Err Thrown end.
Definition set_regular (f : StackFrame) (r : IRStackFrame) : StackFrame := mkFrame (Regular r) (frame_id f).

(** The counter [next_frame_id] is 64 bits wide and shared by all frames. *)
Definition get_next_frame_id (next : Z) : Z * Z := (next, wrap 64 (next + 1)).
Definition ExternalStackFrame_ctor (args : list LLVMValue) (function : Z) (next : Z) : ExternalStackFrame * Z :=
  let '(id, next) := get_next_frame_id next in (mkExtFrame id None None args function, next).
Definition RegularFrame (function : Z) (next : Z) : StackFrame * Z :=
  let '(id, next) := get_next_frame_id next in (mkFrame (Regular (IRStackFrame_ctor function id)) id, next).
Definition ExternalFrame (frame : ExternalStackFrame) : StackFrame := mkFrame (External frame) (ext_frame_id frame).

Definition set_result (f : StackFrame) (r resume : option LLVMValue) : result StackFrame :=
  match value_ f with
  | Regular i => i ← ir_set_result i r resume; Ok (mkFrame (Regular i) (frame_id f))
  | External x => x ← ext_set_result x r resume; Ok (mkFrame (External x) (frame_id f))
  | Uninitialized => Err Aborted
  end.
End frames.

(** ** Vectors *)
Section vectors.
Context `{PtrEq} `{MathExtrasAPI} `{Config}.

(** The arguments of the [k]th call: the [k]th element of every vector. *)
Definition column (k : nat) (its : list (list LLVMScalar)) : option (list LLVMScalar) := mapM (fun vs => vs !! k) its.

Lemma mapM_heads its k : mapM hd_error (drop k <$> its) = column k its.
Proof.
  induction its as [|vs its IH]; [done|]. unfold column in *. cbn. rewrite IH.
  assert (hd_error (drop k vs) = vs !! k) as ->; [|done]. rewrite <- (Nat.add_0_r k) at 2. rewrite <- lookup_drop. by destruct (drop k vs).
Qed.
Lemma tail_drop (vs : list LLVMScalar) k : tail (drop k vs) = drop (S k) vs.
Proof. revert vs. induction k as [|k IH]; intros [|v vs]; try done. cbn [drop]. by rewrite IH. Qed.

Lemma transform_loop_ok n func its k rs :
  transform_loop n func (drop k <$> its) = Ok rs <->
  length rs = n /\ forall j r, rs !! j = Some r -> exists args, column (k + j) its = Some args /\ func args = Ok r.
Proof.
  revert k rs. induction n as [|n IH]; intros k rs; cbn [transform_loop].
  { split; [intros [= <-]; done|]. intros [E _]. by destruct rs. }
  rewrite mapM_heads, <- list_fmap_compose.
  assert (tail ∘ drop k <$> its = drop (S k) <$> its) as -> by (apply list_fmap_ext; intros ? ? _; apply tail_drop).
  rewrite bind_Ok. split.
  - intros (args & Ha%of_option_Ok & Hr). apply bind_Ok in Hr as (r & Hf & Hr). apply bind_Ok in Hr as (rs' & Hl & [= <-]).
    apply IH in Hl as [El Hl]. split; [cbn; congruence|]. intros [|j] r'; cbn.
    + intros [= <-]. exists args. by rewrite Nat.add_0_r.
    + intros Hj. rewrite Nat.add_succ_r. by apply (Hl j r').
  - intros [El Hr]. destruct rs as [|r rs]; [done|]. destruct (Hr 0%nat r eq_refl) as (args & Ha & Hf). rewrite Nat.add_0_r in Ha.
    exists args. rewrite Ha. split; [done|]. rewrite Hf, ok_bind.
    rewrite (proj2 (IH (S k) rs)); [done|]. split; [by injection El|]. intros j r' Hj.
    specialize (Hr (S j) r' Hj). by rewrite Nat.add_succ_r in Hr.
Qed.

Lemma mapM_vectors its : mapM value_vector (Vector <$> its) = Ok its.
Proof. induction its as [|vs its IH]; [done|]. cbn. by rewrite IH. Qed.
Lemma forallb_vectors its : forallb is_vector (Vector <$> its) = true.
Proof. induction its as [|vs its IH]; done. Qed.

(** [transform_elements] applies its function position by position: on
    vectors of one length it succeeds exactly where every
    call succeeds, and element [j] of the result comes from the [j]th elements
    of the arguments. *)
Theorem transform_elements_pointwise func its n v :
  its <> [] -> Forall (fun vs => length vs = n) its ->
  (transform_elements func (Vector <$> its) = Ok v <->
   exists rs, v = Vector rs /\ length rs = n /\
     forall j r, rs !! j = Some r -> exists args, column j its = Some args /\ func args = Ok r).
Proof.
  intros Hne Hn. unfold transform_elements. rewrite forallb_vectors. cbn [assert_]. rewrite ok_bind, mapM_vectors, ok_bind.
  assert (length (default [] (hd_error its)) = n) as -> by (destruct Hn; [done|done]).
  assert (forallb (fun vs => (length vs =? n)%nat) its = true) as ->.
  { apply forallb_forall. intros vs Hin. apply list_elem_of_In in Hin. rewrite Forall_forall in Hn. apply Nat.eqb_eq. auto. }
  cbn [assert_]. rewrite ok_bind, bind_Ok.
  assert (drop 0 <$> its = its) as E0 by apply list_fmap_id. pose proof (fun rs => transform_loop_ok n func its 0 rs) as K.
  rewrite E0 in K. split.
  - intros (rs & [El Hl]%K & [= <-]). exists rs. split_and!; [done|done|]. intros j r Hj. by apply (Hl j r).
  - intros (rs & -> & El & Hl). exists rs. split; [|done]. apply K. split; [done|]. intros j r Hj. by apply (Hl j r).
Qed.
End vectors.

(** ** Returning to a frame *)
Section returning.
Context `{PtrEq} `{MathExtrasAPI} `{Config} `{LLVMIR}.

(** The block of an invoke ends with it, and an unwind block starts with a
    landing pad. *)
Definition invoke_ok (block caller : Z) : Prop :=
  forall normal unwind, invoke_dests caller = Some (normal, unwind) ->
    last (block_insts block) = Some caller /\ block_insts unwind <> [].

(** A call returns to the frame of the caller: the result is stored for the
    call instruction, every other variable is kept, and the frame continues
    behind the call, at the start of the normal block of an invoke, or behind
    the landing pad of its unwind block, which then holds the value resumed
    with.  In the first two cases the current instruction is the call, in the
    last it is the landing pad. *)
Theorem set_result_returns f k caller r resume :
  current f = S k -> block_insts (current_block f) !! k = Some caller -> invoke_ok (current_block f) caller ->
  r = None \/ resume = None ->
  exists f', ir_set_result f r resume = Ok f' /\ allocations f' = allocations f /\ ir_frame_id f' = ir_frame_id f /\
    match invoke_dests caller, resume with
    | Some (_, unwind), Some v =>
        exists pad, hd_error (block_insts unwind) = Some pad /\ current_block f' = unwind /\ prev_block f' = Some (current_block f) /\
          variables f' = <[pad := v]> (variables f) /\ get_current_instruction f' = Ok (Some pad)
    | Some (normal, _), None =>
        current_block f' = normal /\ current f' = 0%nat /\ get_current_instruction f' = Ok (Some caller) /\
        variables f' = match r with Some v => <[caller := v]> (variables f) | None => variables f end
    | None, _ =>
        current_block f' = current_block f /\ current f' = current f /\ get_current_instruction f' = Ok (Some caller) /\
        variables f' = match r with Some v => <[caller := v]> (variables f) | None => variables f end
    end.
Proof.
  intros Hk Hc Hinv Hone. unfold ir_set_result.
  assert (negb (bool_decide (is_Some r)) || negb (bool_decide (is_Some resume)) = true) as ->.
  { apply orb_true_iff. rewrite !negb_true_iff, !bool_decide_eq_false. destruct Hone as [->| ->]; [left|right]; by intros []. }
  cbn [assert_]. rewrite ok_bind, Hk, Hc. cbn [of_option]. rewrite ok_bind.
  set (f1 := match r with Some _ => _ | None => _ end).
  assert (variables f1 = match r with Some v => <[caller := v]> (variables f) | None => variables f end) as Ev by by destruct r.
  assert (allocations f1 = allocations f /\ ir_frame_id f1 = ir_frame_id f /\ current_block f1 = current_block f /\ current f1 = current f /\
    prev_block f1 = prev_block f) as (Ea & Ei & Eb & Ec & Ep) by by destruct r.
  destruct (invoke_dests caller) as [[normal unwind]|] eqn:Ed.
  - destruct (Hinv normal unwind Ed) as [Hlast Hpad]. destruct resume as [v|].
    + unfold jump_to. cbn [of_option]. rewrite !ok_bind. cbn [current_block current].
      destruct (block_insts unwind) as [|pad rest] eqn:Eu; [done|]. cbn [of_option lookup list_lookup]. rewrite ok_bind.
      eexists. split; [done|]. cbn. split_and!; [done|done|]. exists pad. rewrite Eb. split_and!; try done.
      * destruct Hone as [->|?]; [|done]. done.
      * unfold get_current_instruction. cbn. by rewrite Eu.
    + unfold jump_to. cbn [of_option]. rewrite ok_bind. eexists. split; [done|]. cbn. split_and!; try done.
      unfold get_current_instruction. cbn. by rewrite Eb, Hlast.
  - exists f1. split; [done|]. split_and!; try done; [congruence|]. unfold get_current_instruction. by rewrite Ec, Hk, Eb, Hc.
Qed.
End returning.

Module frames_witness.
#[local] Instance on : Config := {| IMPLICIT_CONSTANT_FOLDING := true |}.
(** Block 10 is an add and an invoke that unwinds to block 30. *)
#[local] Instance small_ir : LLVMIR := {|
  block_insts b := if b =? 10 then [100; 101] else if b =? 30 then [300; 301] else [200];
  entry_block _ := 10; fn_args _ := []; invoke_dests i := if i =? 101 then Some (20, 30) else None |}.
Definition expr8 (s : string) : Operation := mkOp (mkData OpConstantNamed (ity 8) (PSymbol (Named s))) [].
Definition at_invoke : IRStackFrame := set_current (IRStackFrame_ctor 1 0) 2.
Definition thrown : LLVMValue := LLVMValue_of (Expr (expr8 "x")).

Lemma set_result_returns_witness :
  exists f', ir_set_result at_invoke None (Some thrown) = Ok f' /\ current_block f' = 30 /\
    variables f' = {[300 := thrown]} /\ get_current_instruction f' = Ok (Some 300).
Proof.
  destruct (set_result_returns at_invoke 1 101 None (Some thrown)) as (f' & E & _ & _ & pad & Hp & Hb & _ & Hv & Hi).
  - reflexivity.
  - reflexivity.
  - intros normal unwind K. vm_compute in K. injection K as <- <-. split; [reflexivity|discriminate].
  - left. reflexivity.
  - vm_compute in Hp. injection Hp as <-. exists f'. split; [exact E|]. split; [exact Hb|]. split; [exact Hv|exact Hi].
Defined.

Definition pair_up (args : list LLVMScalar) : result LLVMScalar := of_option Thrown (args !! 1%nat).
Lemma transform_elements_pointwise_witness :
  transform_elements pair_up (Vector <$> [[Expr (expr8 "a")]; [Expr (expr8 "b")]]) = Ok (Vector [Expr (expr8 "b")]).
Proof.
  apply (transform_elements_pointwise pair_up [[Expr (expr8 "a")]; [Expr (expr8 "b")]] 1).
  - discriminate.
  - constructor; [reflexivity|]. constructor; [reflexivity|constructor].
  - exists [Expr (expr8 "b")]. split; [reflexivity|]. split; [reflexivity|]. intros [|j] r Hj; [|discriminate Hj].
    injection Hj as <-. exists [Expr (expr8 "a"); Expr (expr8 "b")]. split; reflexivity.
Defined.
End frames_witness.
