(* ===== verification/Context.v ===== *)
(** Execution contexts: [caffeine::MemHeapMgr] (src/Memory/MemHeap.cpp) and
    [caffeine::Context] (src/Interpreter/Context.cpp).

    A context is one path of the program: its stack, heaps, e-graph and the
    assertions under which it is taken, as classes of the e-graph.  Asking the
    solver rebuilds the e-graph, canonicalizes the assertions and extracts an
    [AssertionList] from it.  Canonicalization takes [fuel], which is passed
    through. *)
From S2P Require Import Prelude LLVM IRType Value Opcode Operation Matching Create Semantics.
From S2P Require Import Simplifier SimplifierInt SimplifierSound Overflow AtEnv ModelEval SparseVector Assertions Slicer Solvers.
From S2P Require Import Allocation SlotMap BumpAllocator MemHeap UnionFind EGraph EGraphSound EGraphRebuild Extract.
From S2P Require Import GraphAssertions Frames.
Open Scope Z_scope.

(** *** MemHeapMgr *)
Section heaps.
Context `{PtrEq} `{MathExtrasAPI} `{Config}.

Record MemHeapMgr : Type := mkHeaps { heaps_ : gmap Z MemHeap; heaps_are_concrete_ : bool }.
Definition MemHeapMgr_ctor (concrete_heap : bool) : MemHeapMgr := mkHeaps ∅ concrete_heap.
Definition set_concrete (m : MemHeapMgr) (concrete : bool) : MemHeapMgr := mkHeaps (heaps_ m) concrete.
Definition FUNCTION_INDEX : Z := 2 ^ 32 - 1 - 2.

(** [operator[]] creates the heap where there is none; the const one throws. *)
Definition mgr_at (m : MemHeapMgr) (index : Z) : MemHeap * MemHeapMgr :=
  match heaps_ m !! index with
  | Some h => (h, m)
  | None =>
      let h := MemHeap_ctor index (heaps_are_concrete_ m) in
      (h, mkHeaps (<[index := h]> (heaps_ m)) (heaps_are_concrete_ m))
  end.
Definition mgr_at_const (m : MemHeapMgr) (index : Z) : result MemHeap := of_option Thrown (heaps_ m !! index).
Definition mgr_set (m : MemHeapMgr) (index : Z) (h : MemHeap) : MemHeapMgr :=
  mkHeaps (<[index := h]> (heaps_ m)) (heaps_are_concrete_ m).
Definition function_heap (m : MemHeapMgr) : MemHeap * MemHeapMgr := mgr_at m FUNCTION_INDEX.
Definition ptr_allocation (m : MemHeapMgr) (p : Pointer) : result (Allocation * MemHeapMgr) :=
  assert_ (is_resolved p) ;;
  let '(h, m) := mgr_at m (heap_ p) in a ← heap_at h (alloc_ p); Ok (a, m).
Definition mgr_check_valid (m : MemHeapMgr) (p : Pointer) (width : Operation) : result (Operation * MemHeapMgr) :=
  let '(h, m) := mgr_at m (heap_ p) in r ← check_valid h p width; Ok (r, m).
Definition mgr_check_valid_u32 (m : MemHeapMgr) (p : Pointer) (width : Z) : result (Operation * MemHeapMgr) :=
  w ← bitwidth (op_type (ptr_offset p)); c ← ConstantInt_Create simplify (APInt_of w width); mgr_check_valid m p c.
Definition mgr_check_starts_allocation (m : MemHeapMgr) (p : Pointer) : result (Operation * MemHeapMgr) :=
  let '(h, m) := mgr_at m (heap_ p) in r ← check_starts_allocation h p; Ok (r, m).
Definition mgr_resolve {C} `{!PathOps C} (m : MemHeapMgr) (p : Pointer) (c : C) : result (list Pointer * C) :=
  h ← mgr_at_const m (heap_ p); heap_resolve h p c.
End heaps.

(** *** Context *)
Section context.
Context `{PtrEq} `{!DataPtrEq} `{MapOrder} `{MathExtrasAPI} `{Config} `{HashOrder} `{LLVMIR}.

(** The back of the stack is the end of the list. *)
Record Context : Type := mkContext {
  ctx_stack : list StackFrame;
  globals : gmap Z LLVMValue;
  heaps : MemHeapMgr;
  assertions : GraphAssertionList;
  constants : gmap string Operation;
  mod_ : Z;
  global_ctors_ran : bool;
  egraph : EGraph;
  constant_num_ : Z
}.
Definition set_stack (c : Context) (s : list StackFrame) : Context :=
  mkContext s (globals c) (heaps c) (assertions c) (constants c) (mod_ c) (global_ctors_ran c) (egraph c) (constant_num_ c).
Definition set_heaps (c : Context) (m : MemHeapMgr) : Context :=
  mkContext (ctx_stack c) (globals c) m (assertions c) (constants c) (mod_ c) (global_ctors_ran c) (egraph c) (constant_num_ c).
Definition set_graphs (c : Context) (l : GraphAssertionList) (g : EGraph) : Context :=
  mkContext (ctx_stack c) (globals c) (heaps c) l (constants c) (mod_ c) (global_ctors_ran c) g (constant_num_ c).

Definition stack_top (c : Context) : result StackFrame := of_option AssertFailed (last (ctx_stack c)).
Definition ctx_push (c : Context) (frame : StackFrame) : Context := set_stack c (ctx_stack c ++ [frame]).
Definition ctx_empty (c : Context) : bool := bool_decide (ctx_stack c = []).

(** The loop of [pop] over the allocations of the frame. *)
Fixpoint release (m : MemHeapMgr) (allocs : list StackAllocation) : result MemHeapMgr :=
  match allocs with
  | [] => Ok m
  | a :: allocs =>
      let '(h, m) := mgr_at m (sa_heap a) in
      al ← heap_at h (sa_alloc a); assert_ (bool_decide (alloc_kind al = Alloca)) ;;
      h ← heap_deallocate h (sa_alloc a); release (mgr_set m (sa_heap a) h) allocs
  end.
Definition ctx_pop (c : Context) : result Context :=
  top ← of_option AssertFailed (last (ctx_stack c));
  m ← match value_ top with Regular f => release (heaps c) (allocations f) | _ => Ok (heaps c) end;
  Ok (set_stack (set_heaps c m) (removelast (ctx_stack c))).

(** The constructors; the arguments become variables of the first frame. *)
Fixpoint insert_args (f : IRStackFrame) (params : list Z) (args : list Operation) : IRStackFrame :=
  match params, args with
  | p :: params, a :: args => insert_args (frame_insert f p (LLVMValue_of (Expr a))) params args
  | _, _ => f
  end.
Definition init_args (c : Context) (args : list Operation) : result Context :=
  front ← of_option UndefinedBehaviour (hd_error (ctx_stack c)); f ← get_regular front;
  assert_ (length (fn_args (func f)) =? length args)%nat ;;
  top ← stack_top c; tf ← get_regular top;
  Ok (set_stack c (removelast (ctx_stack c) ++ [set_regular top (insert_args tf (fn_args (func f)) args)])).
Definition Context_ctor (function module : Z) (args : list Operation) (next : Z) : result (Context * Z) :=
  let '(frame, next) := RegularFrame function next in
  c ← init_args (mkContext [frame] ∅ (MemHeapMgr_ctor true) gl_empty ∅ module false eg_empty 0) args; Ok (c, next).

Definition fork_once (c : Context) : Context := c.
(** [fork] moves the context into the last copy. *)
Definition ctx_fork (c : Context) (count : nat) : list Context :=
  match count with O => [] | S n => replicate n c ++ [c] end.

Definition ctx_next_constant (c : Context) : result (Z * Context) :=
  assert_ (constant_num_ c <? 2 ^ 29) ;;
  Ok (constant_num_ c,
      mkContext (ctx_stack c) (globals c) (heaps c) (assertions c) (constants c) (mod_ c) (global_ctors_ran c) (egraph c)
        (wrap 64 (constant_num_ c + 1))).

(** [backprop]: the variables of the top frame that hold the pointer. *)
Definition backprop_value (unresolved resolved : Pointer) (v : LLVMValue) : LLVMValue :=
  match v with
  | Vector [Ptr p] => if pointer_eqb p unresolved then LLVMValue_of (Ptr resolved) else v
  | _ => v
  end.
Definition ctx_backprop (c : Context) (unresolved resolved : Pointer) : result Context :=
  top ← stack_top c; f ← get_regular top;
  let f' := mkIRFrame (ir_frame_id f) (allocations f) (backprop_value unresolved resolved <$> variables f)
              (current_block f) (prev_block f) (current f) (func f) in
  Ok (set_stack c (removelast (ctx_stack c) ++ [set_regular top f'])).

(** *** Assertions *)
Definition context_add (c : Context) (assertion : Operation) : result Context :=
  '(id, g) ← eg_add_op assertion (egraph c); Ok (set_graphs c (gl_insert (assertions c) id) g).

Fixpoint insert_extracted (x : EGraphExtractor) (ids : list Z) (l : AssertionList) : result (AssertionList * EGraphExtractor) :=
  match ids with
  | [] => Ok (l, x)
  | i :: ids => '(o, x) ← extract x i; a ← Assertion_ctor o; l ← al_insert l a; insert_extracted x ids l
  end.
Definition extract_marked (x : EGraphExtractor) (gl : GraphAssertionList) : result (AssertionList * EGraphExtractor) :=
  ps ← gl_proven gl; '(l, x) ← insert_extracted x ps al_empty;
  us ← gl_unproven gl; insert_extracted x us (mark_sat l).
Definition extract_assertions (fuel : nat) (c : Context) : result (AssertionList * Context) :=
  g ← rebuild (egraph c); gl ← gl_canonicalize fuel g (assertions c);
  '(l, x) ← extract_marked (Extractor_ctor g false) gl; Ok (l, set_graphs c gl (x_graph x)).
Definition extract_assertions_const (c : Context) : result AssertionList :=
  '(l, _) ← extract_marked (Extractor_ctor (egraph c) true) (assertions c); Ok l.

(** [check] and [resolve]; the list that is marked is a copy that goes away. *)
Definition context_ask (ask : AssertionList -> Operation -> result (SolverResult * AssertionList))
    (fuel : nat) (c : Context) (extra : Operation) : result (SolverResult * Context) :=
  '(l, c) ← extract_assertions fuel c;
  '(ex, x) ← extract_op extra (Extractor_ctor (egraph c) false); ex ← Assertion_ctor ex;
  '(r, l) ← ask l ex;
  let l := if result_is r SAT then mark_sat l else l in
  Ok (r, set_graphs c (assertions c) (x_graph x)).
Definition context_check (s : Solver) := context_ask (solver_check s).
Definition context_resolve (s : Solver) := context_ask (solver_resolve s).
End context.

(** ** Asking the solver

    [e] is an environment in which the e-graph is sound.  As in Extract.v the
    lemmas come in two strengths: with [strict] the computation must succeed. *)
Section asking.
Context `{PtrEq} `{!DataPtrEq} `{MapOrder} `{MathExtrasAPI} `{Config} `{HashOrder} `{LLVMIR}.
Context (T : Z -> Ty) (e : Env) (strict : bool) (B : Z -> Z).
#[local] Abbreviation xok := (x_ok T e strict B).

Lemma extract_any_spec n : extract_spec T e strict B n extract.
Proof.
  intros x i Hx [Hin Hpre]. apply extract_class_ok; [done|]. split; [done|].
  intros Hst. split; [apply below_fuel|by apply Hpre].
Qed.
Lemma extract_ids_ok x ids :
  xok x -> Forall (in_graph (x_graph x)) ids -> (strict = true -> complete B x) ->
  wp strict (extract_operands extract x ids) (fun r => xok r.2 /\ x_same x r.2 /\ settles x r.2 /\ Forall2 (stands_for T e) ids r.1).
Proof.
  intros Hx Hin Hc. apply (extract_operands_ok T e strict B (class_fuel x)); [apply extract_any_spec|done|].
  eapply Forall_impl; [exact Hin|]. intros i Hi. split; [done|]. intros Hst. split; [apply below_fuel|auto].
Qed.

(** Extracting and inserting one by one is extracting all and inserting all. *)
Lemma insert_extracted_ok x ids l rs x' :
  extract_operands extract x ids = Ok (rs, x') -> Forall (fun r => op_type r = ity 1) rs ->
  insert_extracted x ids l = (l' ← al_insert_all l rs; Ok (l', x')).
Proof.
  revert x l rs x'. induction ids as [|i ids IH]; intros x l rs x' E Ht; cbn [extract_operands insert_extracted] in *.
  { by injection E as <- <-. }
  apply bind_Ok in E as ([o x1] & Eo & E). apply bind_Ok in E as ([os x2] & Eos & [= <- <-]).
  apply Forall_cons in Ht as [To Ht]. rewrite Eo, ok_bind. cbv beta iota.
  assert (Assertion_ctor o = Ok o) as -> by (unfold Assertion_ctor; by rewrite int_ty_good, ok_bind, To, ty_eqb_refl).
  rewrite ok_bind. cbn [al_insert_all]. destruct (al_insert l o) as [l1|err]; [|done]. rewrite !ok_bind. by apply (IH x1).
Qed.
Lemma insert_extracted_err x ids l err : extract_operands extract x ids = Err err -> is_ok (insert_extracted x ids l) = false.
Proof.
  revert x l. induction ids as [|i ids IH]; intros x l E; cbn [extract_operands insert_extracted] in *; [done|].
  revert E. destruct (extract x i) as [[o x1]|]; [|done]. rewrite !ok_bind. cbv beta iota. intros E.
  destruct (Assertion_ctor o); [|done]. rewrite ok_bind. destruct (al_insert l a); [|done]. rewrite ok_bind. apply IH.
  revert E. by destruct (extract_operands extract x1 ids) as [[os x2]|].
Qed.
Lemma extract_operands_app x ids1 ids2 :
  extract_operands extract x (ids1 ++ ids2) =
  ('(rs1, x1) ← extract_operands extract x ids1; '(rs2, x2) ← extract_operands extract x1 ids2; Ok (rs1 ++ rs2, x2)).
Proof.
  revert x. induction ids1 as [|i ids1 IH]; intros x; cbn [app extract_operands].
  { rewrite ok_bind. by destruct (extract_operands extract x ids2) as [[]|]. }
  destruct (extract x i) as [[o x1]|]; [|done]. rewrite !ok_bind. cbv beta iota. rewrite IH.
  destruct (extract_operands extract x1 ids1) as [[os x2]|]; [|done]. rewrite !ok_bind. cbv beta iota.
  by destruct (extract_operands extract x2 ids2) as [[]|].
Qed.

Lemma al_empty_ok : al_inv al_empty.
Proof. split; [apply sv_empty_inv|done|done|constructor]. Qed.
Lemma mark_sat_backing l : backing_size (list_ (mark_sat l)) <= backing_size (list_ l).
Proof.
  unfold mark_sat, compress, backing_size. cbn [list_]. destruct (size_ (list_ l) =? _); [done|]. cbn [elements_].
  pose proof (length_filter (fun e => is_value e = true) (elements_ (list_ l))). lia.
Qed.

(** What inserting the extracted assertions makes of a list. *)
Definition asserted (x : EGraphExtractor) (ids : list Z) (p : AssertionList * EGraphExtractor) : Prop :=
  exists rs, Forall2 (stands_for T e) ids rs /\ xok p.2 /\ x_same x p.2 /\ settles x p.2 /\ al_inv p.1 /\
    forall e', Forall (Defined e') rs -> (Forall (Holds e') (al_values p.1) <-> Forall (Holds e') rs).

Lemma stands_boolean x ids rs : Forall (bool_id T (x_graph x)) ids -> Forall2 (stands_for T e) ids rs -> Forall boolean rs.
Proof.
  intros Hb Hs. induction Hs as [|i r ids rs (Wr & Tr & _) _ IH]; [done|]. apply Forall_cons in Hb as [[_ Ti] Hb].
  constructor; [split; [done|by rewrite Tr]|auto].
Qed.

Lemma extract_marked_ok x gl :
  xok x -> Forall (bool_id T (x_graph x)) (glist_ gl) -> (strict = true -> complete B x) -> (strict = true -> marked gl) ->
  0 <= gmark_ gl ->
  (forall rs x', extract_operands extract x (glist_ gl) = Ok (rs, x') -> Z.of_nat (stack_size rs) < SparseVector.no_head) ->
  wp strict (extract_marked x gl) (fun p => asserted x (glist_ gl) p /\ (gmark_ gl = 0 -> mark_ p.1 = 0)).
Proof.
  intros Hx Hb Hc Hm Hm0 Hsmall. unfold extract_marked, gl_proven, gl_unproven.
  destruct (Z.leb_spec (gmark_ gl) (gl_size gl)) as [Hle|Hgt].
  2: { cbn. destruct strict; [|done]. destruct (Hm eq_refl). lia. }
  rewrite ok_bind. set (ps := take _ _). set (us := drop _ _).
  assert (glist_ gl = ps ++ us) as Eg by (unfold ps, us; by rewrite take_drop).
  rewrite Eg in Hb, Hsmall |- *. rewrite extract_operands_app in Hsmall. apply Forall_app in Hb as [Hbp Hbu].
  assert (forall ids, Forall (bool_id T (x_graph x)) ids -> Forall (in_graph (x_graph x)) ids) as Hin.
  { intros ids K. eapply Forall_impl; [exact K|]. by intros i []. }
  pose proof (extract_ids_ok x ps Hx (Hin _ Hbp) Hc) as Kp.
  destruct (extract_operands extract x ps) as [[rp x1]|err] eqn:Ep; cbn [wp] in Kp.
  2: { pose proof (insert_extracted_err x ps al_empty err Ep) as K. destruct (insert_extracted x ps al_empty); done. }
  destruct Kp as (Hx1 & S1 & Se1 & Fp). cbn [fst snd] in *.
  assert (Forall (bool_id T (x_graph x1)) us) as Hbu1.
  { eapply Forall_impl; [exact Hbu|]. intros i [? ?]. split; [by apply (x_same_in x)|done]. }
  pose proof (stands_boolean x ps rp Hbp Fp) as Bp.
  assert (forall rs, Forall boolean rs -> Forall (fun r => op_type r = ity 1) rs) as Hty.
  { intros rs K. eapply Forall_impl; [exact K|]. by intros r []. }
  rewrite (insert_extracted_ok x ps al_empty rp x1 Ep (Hty _ Bp)).
  pose proof (extract_ids_ok x1 us Hx1) as Ku.
  assert (Forall (in_graph (x_graph x1)) us) as Hin1 by (eapply Forall_impl; [exact Hbu1|]; by intros i []).
  assert (strict = true -> complete B x1) as Hc1 by (intros Hst b; apply (settles_pending B x); [done|by apply Hc]).
  specialize (Ku Hin1 Hc1).
  destruct (extract_operands extract x1 us) as [[ru x2]|err] eqn:Eu; cbn [wp] in Ku.
  2: { destruct (al_insert_all al_empty rp) as [l1|]; [|done]. cbn -[insert_extracted wp].
       pose proof (insert_extracted_err x1 us (mark_sat l1) err Eu) as K. destruct (insert_extracted x1 us (mark_sat l1)); done. }
  destruct Ku as (Hx2 & S2 & Se2 & Fu). cbn [fst snd] in *. pose proof (stands_boolean x1 us ru Hbu1 Fu) as Bu.
  specialize (Hsmall (rp ++ ru) x2 ltac:(cbn; by rewrite Eu)). unfold stack_size in Hsmall. rewrite fmap_app, list_sum_app in Hsmall.
  fold (stack_size rp) (stack_size ru) in Hsmall.
  destruct (al_insert_all_ok al_empty rp) as (l1 & -> & I1 & M1 & (n1 & Hn1 & Hl1) & Hh1); [apply al_empty_ok|done|change (backing_size (list_ al_empty)) with 0; lia|].
  rewrite !ok_bind. cbv beta iota.
  destruct (mark_sat_ok l1 I1) as (Im & Vm & _ & _). pose proof (mark_sat_backing l1) as Hbk.
  rewrite (insert_extracted_ok x1 us (mark_sat l1) ru x2 Eu (Hty _ Bu)).
  assert (backing_size (list_ l1) <= Z.of_nat (stack_size rp)) as Hb1.
  { unfold backing_size. rewrite Hn1. cbn. rewrite length_fmap. lia. }
  destruct (al_insert_all_ok (mark_sat l1) ru Im Bu) as (l2 & -> & I2 & M2 & (n2 & Hn2 & Hl2) & Hh2); [lia|].
  rewrite ok_bind. cbn [wp]. split.
  - exists (rp ++ ru). cbn [fst snd]. split_and!; [by apply Forall2_app|done|by apply (x_same_trans x x1)|by apply (settles_trans x x1)|done|].
    intros e' Hd. apply Forall_app in Hd as [Dp Du]. rewrite (Hh2 e' Du), Vm, (Hh1 e' Dp), Forall_app. cbn. rewrite Forall_nil. tauto.
  - intros Hz. cbn [fst]. rewrite M2. assert (ps = []) as -> by (unfold ps; rewrite Hz; done). inversion Fp; subst.
    cbn in Hl1. destruct n1; [|cbn in Hl1; lia]. unfold mark_sat, compress. cbn [list_ mark_].
    assert (elements_ (list_ l1) = []) as En by by rewrite Hn1. destruct (al_sparse l1 I1) as [_ Hs _].
    unfold count_values in Hs. rewrite En in Hs. rewrite Hs. unfold backing_size. by rewrite En.
Qed.
End asking.

(** ** The query *)
Section query.
Context `{PtrEq} `{!DataPtrEq} `{MapOrder} `{MathExtrasAPI} `{Config} `{HashOrder} `{LLVMIR}.
#[local] Abbreviation grep g i := (rep (union_find g) i).

(** The assertions of a context are boolean classes of a sound e-graph. *)
Record ctx_inv (T : Z -> Ty) (c : Context) : Prop := {
  ctx_graph : eg_inv T (egraph c);
  ctx_bools : Forall (bool_id T (egraph c)) (glist_ (assertions c));
  ctx_lookup : gl_inv (assertions c);
  ctx_mark : gmark_ (assertions c) = 0
}.
(** The path of [c] is taken in [e]. *)
Definition on_path (e : Env) (c : Context) : Prop := all_hold e (glist_ (assertions c)).

(** The list and the extra assertion that [check] hands to the solver. *)
Definition context_query (fuel : nat) (c : Context) (extra : Operation) : result (AssertionList * Operation * Context) :=
  '(l, c) ← extract_assertions fuel c;
  '(ex, x) ← extract_op extra (Extractor_ctor (egraph c) false); ex ← Assertion_ctor ex;
  Ok (l, ex, set_graphs c (assertions c) (x_graph x)).
Lemma context_ask_query ask fuel c extra :
  context_ask ask fuel c extra = ('(l, ex, c') ← context_query fuel c extra; '(r, _) ← ask l ex; Ok (r, c')).
Proof.
  unfold context_ask, context_query. destruct (extract_assertions fuel c) as [[l c1]|]; [|done]. rewrite !ok_bind. cbv beta iota.
  destruct (extract_op extra _) as [[ex x]|]; [|done]. rewrite !ok_bind. cbv beta iota.
  destruct (Assertion_ctor ex) as [a|]; [|done]. rewrite !ok_bind. cbv beta iota. by destruct (ask l a) as [[]|].
Qed.

(** [e] makes the e-graph sound, and nothing the extraction builds is outside
    what folding allows. *)
Record sound_env (T : Z -> Ty) (c : Context) (g : EGraph) (extra : Operation) (e : Env) : Prop := {
  env_sat : eg_sat T e (egraph c);
  env_safe : forall i cl n, classes g !! i = Some cl -> n ∈ nodes cl -> node_safe e n;
  env_extra : op_safe e extra
}.
(** The expressions that are extracted for the assertions fit in a list. *)
Definition small (fuel : nat) (c : Context) (g : EGraph) : Prop :=
  forall gl rs x, gl_canonicalize fuel g (assertions c) = Ok gl ->
    extract_operands extract (Extractor_ctor g false) (glist_ gl) = Ok (rs, x) -> Z.of_nat (stack_size rs) < SparseVector.no_head.
(** What makes the computation end: conjunctions and costs are bounded. *)
Definition bounded (fuel : nat) (c : Context) (g : EGraph) (B : Z -> Z) : Prop :=
  bounded_costs B g /\ exists rank, and_rank g rank /\
    forall i, i ∈ glist_ (assertions c) -> (weight (rank (grep g i)) <= fuel)%nat.

(** [c'] has the classes of [c] with the nodes they have when [c] is rebuilt. *)
Definition same_classes (c c' : Context) : Prop :=
  uf_size (union_find (egraph c')) = uf_size (union_find (egraph c)) /\
  forall g i cl n, rebuild (egraph c) = Ok g -> classes (egraph c') !! i = Some cl -> n ∈ nodes cl ->
    exists cl', classes g !! i = Some cl' /\ n ∈ nodes cl'.
Definition query_post (T : Z -> Ty) (e : Env) (c : Context) (extra : Operation) (q : AssertionList * Operation * Context) : Prop :=
  let '(l, ex, c') := q in
  al_inv l /\ boolean ex /\ mark_ l = 0 /\ op_stands e extra ex /\ ctx_inv T c' /\
  eg_sat T e (egraph c') /\ (on_path e c' <-> on_path e c) /\
  (on_path e c -> Forall (Holds e) (al_values l)) /\
  (forall e', same_symbols e e' -> (forall i, in_graph (egraph c) i -> env_node e i <> None) ->
    Forall (Holds e') (al_values l) -> on_path e c) /\
  same_classes c c'.

Lemma stands_hold T e ids rs : Forall2 (stands_for T e) ids rs -> all_hold e ids -> Forall (Holds e) rs.
Proof.
  intros Hs. induction Hs as [|i r ids rs (_ & _ & Hr) _ IH]; intros Hh; [constructor|].
  apply Forall_cons in Hh as [Hi Hh]. constructor; [by apply Hr|auto].
Qed.
Lemma stands_back T e e' ids rs :
  same_symbols e e' -> Forall2 (stands_for T e) ids rs -> Forall (fun i => env_node e i <> None) ids ->
  Forall (Defined e') rs /\ (Forall (Holds e') rs -> all_hold e ids).
Proof.
  intros He Hs. induction Hs as [|i r ids rs (_ & _ & Hr) _ IH]; intros Hd; [split; [done|by constructor]|].
  apply Forall_cons in Hd as [Hi Hd]. destruct (env_node e i) as [v|] eqn:Ev; [|done]. specialize (Hr e' v He eq_refl).
  destruct (IH Hd) as [IHd IHh]. split; [constructor; [unfold Defined; by rewrite Hr|done]|].
  intros Hh. apply Forall_cons in Hh as [Hh1 Hh2]. constructor; [|by apply IHh]. unfold Holds in Hh1. unfold holds_id. congruence.
Qed.

Lemma query_post_ok T e strict B fuel c g extra :
  ctx_inv T c -> rebuild (egraph c) = Ok g -> sound_env T c g extra e ->
  boolean extra -> op_fits T (egraph c) extra -> small fuel c g -> (strict = true -> bounded fuel c g B) ->
  wp strict (context_query fuel c extra) (query_post T e c extra).
Proof.
  intros [Hg Hb Hl Hm] Er [Hs Hsafe Hex] [We Te] Hfit Hsmall Hbound.
  pose proof (rebuild_ok (fun e' => e' = e) T (egraph c)) as K. unfold ok_or_ub in K. rewrite Er in K.
  destruct K as ([Ig Sg] & _ & Hsize); [split; [done|by intros ? ->]|]. specialize (Sg e eq_refl).
  assert (forall i, in_graph g i <-> in_graph (egraph c) i) as Hin by (intros i; unfold in_graph; by rewrite Hsize).
  assert (Forall (bool_id T g) (glist_ (assertions c))) as Hbg.
  { eapply Forall_impl; [exact Hb|]. intros i [? ?]. split; [by apply Hin|done]. }
  unfold context_query, extract_assertions. rewrite Er, ok_bind.
  destruct (canonicalize_post T g Ig fuel (assertions c) Hbg) as [(gl & Egl & Igl & Bgl & Hgl & Zgl & Mgl)|[-> (i & Hi & Hshort)]].
  2: { cbn. destruct strict; [|done]. destruct (Hbound eq_refl) as (_ & rank & Hr & Hf).
       specialize (Hshort rank Hr). specialize (Hf i Hi). unfold rounds in Hshort. cbn in Hshort. lia. }
  specialize (Zgl Hm). rewrite Egl, ok_bind.
  assert (extractable T e g) as Hxg by done.
  assert (x_ok T e strict B (Extractor_ctor g false)) as Hx0.
  { apply ctor_ok; [done|]. intros Hst. by apply Hbound. }
  pose proof (extract_marked_ok T e strict B (Extractor_ctor g false) gl Hx0 Bgl) as K.
  specialize (K (fun _ => ltac:(by intros b v Hv)) (fun _ => ltac:(unfold marked, gl_size; lia)) ltac:(lia) (fun rs x => Hsmall gl rs x Egl)).
  destruct (extract_marked _ gl) as [[l x1]|]; cbn [wp] in K; [|done].
  destruct K as [(rs & Frs & Hx1 & Sx1 & _ & Il & Hlh) Hml]. cbn [fst snd] in *. rewrite !ok_bind. cbv beta iota.
  cbn [egraph set_graphs assertions].
  assert (x_ok T e strict B (Extractor_ctor (x_graph x1) false)) as Hx2.
  { destruct Hx1 as [X1 X2 X3 X4 X5 X6 X7]. apply ctor_ok; [done|]. intros Hst i cl Hc. split; [by apply X5|]. intros k Hk. by apply (X6 Hst i cl). }
  pose proof (extract_op_ok T e strict B extra (Extractor_ctor (x_graph x1) false) We) as K.
  assert (forall i, in_graph (egraph c) i <-> in_graph (x_graph x1) i) as Hin1.
  { intros i. rewrite <- Hin. unfold in_graph. by rewrite (same_size _ _ Sx1). }
  assert (op_fits T (x_graph x1) extra) as Hfit1.
  { clear -Hfit Hin1. induction extra as [d l IH] using operation_ind'. inversion Hfit as [? id Hd Hi Ht|? ? Hd Hc Hl]; subst.
    - apply (fits_class _ _ _ id); [done|by apply Hin1|done].
    - apply fits_node; [done|done|]. rewrite Forall_forall in IH, Hl |- *. auto. }
  specialize (K Hfit1 Hex Hx2 (fun _ => ltac:(by intros b v Hv))).
  destruct (extract_op extra _) as [[ex x2]|]; cbn [wp] in K; [|done].
  destruct K as (Hx3 & Sx2 & _ & Hst). cbn [fst snd] in *.
  assert (x_same x1 x2) as Sx2' by (destruct Sx2; by split). rewrite ok_bind. cbv beta iota.
  assert (boolean ex) as Hbex by (destruct Hst as (? & Tx & _); split; [done|by rewrite Tx]).
  assert (Assertion_ctor ex = Ok ex) as ->.
  { unfold Assertion_ctor. rewrite int_ty_good, ok_bind by done. destruct Hbex as [_ ->]. by rewrite ty_eqb_refl. }
  rewrite ok_bind. cbn [wp]. cbn [egraph set_graphs assertions query_post].
  assert (forall i, in_graph (x_graph x1) i <-> in_graph (x_graph x2) i) as Hin2.
  { intros i. unfold in_graph. pose proof (same_size _ _ Sx2) as E. cbn in E. by rewrite E. }
  split_and!; [done|done|by apply Hml|done| |apply Hx3|apply (Hgl e Sg)| | |].
  - split; cbn [egraph set_graphs assertions]; [apply Hx3| |done|done].
    eapply Forall_impl; [exact Bgl|]. intros i [Hi Ti]. split; [|done]. by apply Hin2, Hin1, Hin.
  - intros Hp. apply Hlh; [|by apply (stands_hold T e (glist_ gl)), (Hgl e Sg)].
    eapply Forall_impl; [apply (stands_hold T e (glist_ gl) rs Frs); by apply (Hgl e Sg)|]. intros a. apply Holds_Defined.
  - intros e' He Htot Hh. apply (Hgl e Sg). destruct (stands_back T e e' (glist_ gl) rs He Frs) as [Hd Hback].
    { eapply Forall_impl; [exact Bgl|]. intros i [Hi _]. by apply Htot, Hin. }
    apply Hback. by apply Hlh.
  - pose proof (x_same_trans _ _ _ Sx1 Sx2') as [Z1 _ D1 N1]. cbn in Z1, D1, N1. split; cbn [egraph set_graphs]; [congruence|].
    intros g' i cl n Hg'. rewrite Er in Hg'. injection Hg' as <-. intros Hcl Hn. assert (i ∈ dom (classes g)) as Hi by (rewrite <- D1; apply elem_of_dom; eauto).
    apply elem_of_dom in Hi as [cl' Hcl']. destruct (N1 i cl' Hcl') as (cl2 & Hcl2 & En). exists cl'. split; [done|]. rewrite <- En. congruence.
Qed.
End query.

(** ** The contracts *)
Section contracts.
Context `{PtrEq} `{!DataPtrEq} `{MapOrder} `{MathExtrasAPI} `{Config} `{HashOrder} `{LLVMIR}.

(** Adding an assertion to a context succeeds and strengthens its path
    condition by exactly that assertion: every environment of the e-graph
    extends to the new classes, and there the new path is taken if and only if
    the old one is and the assertion holds. *)
Theorem context_add_correct T c a :
  ctx_inv T c -> boolean a -> op_fits T (egraph c) a ->
  exists c' T', context_add c a = Ok c' /\ ctx_inv T' c' /\
    forall e, eg_sat T e (egraph c) -> exists e', same_symbols e e' /\ eg_sat T' e' (egraph c') /\
      (forall i, in_graph (egraph c) i -> T' i = T i /\ env_node e' i = env_node e i) /\
      (on_path e' c' <-> on_path e c /\ Holds e a).
Proof.
  intros [Hg Hb Hl Hm] [Wa Ta] Hf. destruct (eg_add_op_ok a Wa T (egraph c) Hg Hf) as (id & g' & T' & E & Hin & Ht & _ & Ig & X & _ & Hs).
  unfold context_add. rewrite E, ok_bind. eexists _, T'. split; [done|]. split.
  - split; cbn [egraph assertions set_graphs]; [done| |by apply gl_insert_inv|by destruct (gl_insert_prefix (assertions c) id) as [_ ->]].
    apply Forall_forall. intros i [Hi| ->]%gl_insert_elem; [|split; congruence|done]. rewrite Forall_forall in Hb. destruct (Hb i Hi) as [Hi1 Hi2].
    pose proof (ext_size _ _ _ _ X). split; [unfold in_graph in *; lia|by rewrite (ext_type _ _ _ _ X)].
  - intros e He. destruct (Hs e He) as (e' & [Hsym Hn] & Hs' & Hv). exists e'. split_and!; [done|done|intros i Hi; split; [by apply (ext_type _ _ _ _ X)|auto]|].
    cbn [egraph assertions set_graphs]. unfold on_path, all_hold. cbn [assertions set_graphs]. rewrite !Forall_forall. rewrite Forall_forall in Hb. split.
    + intros Hall. split.
      * intros i Hi. unfold holds_id. rewrite <- Hn by apply (Hb i Hi). apply Hall, gl_insert_elem; auto.
      * unfold Holds. rewrite <- Hv. apply Hall, gl_insert_elem; auto.
    + intros [Hall Ha] i [Hi| ->]%gl_insert_elem; [|by unfold holds_id; rewrite Hv|done].
      unfold holds_id. rewrite Hn by apply (Hb i Hi). by apply Hall.
Qed.

(** A query in terms of the solver's contract. *)
Lemma query_ok_of T e fuel c g extra l ex c' :
  ctx_inv T c -> rebuild (egraph c) = Ok g -> sound_env T c g extra e -> boolean extra -> op_fits T (egraph c) extra -> small fuel c g ->
  context_query fuel c extra = Ok (l, ex, c') -> query_post T e c extra (l, ex, c') /\ query_ok l ex.
Proof.
  intros Hc Er He Hb Hf Hs E. pose proof (query_post_ok T e false (fun _ => 0) fuel c g extra Hc Er He Hb Hf Hs ltac:(done)) as K.
  rewrite E in K. cbn [wp] in K. split; [done|]. destruct K as (Il & Bex & Ml & _). split; [done|done|].
  destruct (proven_unproven l Il) as (ps & us & Ep & _ & Ev & Eu). exists ps, e. split; [done|].
  rewrite Ml in Eu. change (drop (Z.to_nat 0) (elements_ (list_ l))) with (elements_ (list_ l)) in Eu.
  unfold al_values in Ev. rewrite <- Eu in Ev. destruct ps as [|p ps]; [constructor|]. apply (f_equal length) in Ev. rewrite length_app in Ev. cbn in Ev. lia.
Qed.

(** C20: [Context::check] is correct for every solver that is ([SolverSpec]): it
    returns an answer and a context on the same path; an UNSAT answer means that
    the extra assertion fails wherever the path is taken, and a SAT answer that
    there are values of the symbols for which the path is taken and the
    assertion holds, in every environment with these values that gives a value
    to every class.  The environments are those in which the e-graph is sound
    and every node of the rebuilt graph, and of the extra assertion, can be
    folded ([sound_env], of which there must be one): no floating-point
    remainder, no comparison with NaN on its left, array operations with defined
    operands and indices in range, allocations that are not empty.  The extra
    assertion is a boolean over the classes of the graph without the float
    constants 0 and NaN ([op_fits]), on which the comparison of nodes goes wrong;
    the
    extracted assertions fit in an assertion list ([small]); and the costs of
    the classes and the nesting of asserted conjunctions are bounded
    ([bounded]), without which neither is sure to end. *)
Theorem context_check_correct T s fuel c extra g B e0 :
  ctx_inv T c -> SolverSpec s -> boolean extra -> op_fits T (egraph c) extra ->
  rebuild (egraph c) = Ok g -> sound_env T c g extra e0 -> small fuel c g -> bounded fuel c g B ->
  exists r c', context_check s fuel c extra = Ok (r, c') /\ ctx_inv T c' /\
    (forall e, sound_env T c g extra e -> eg_sat T e (egraph c') /\ (on_path e c' <-> on_path e c)) /\
    (kind_ r = UNSAT -> forall e, sound_env T c g extra e -> on_path e c -> ~ Holds e extra) /\
    (kind_ r = SAT -> exists e1, forall e, sound_env T c g extra e -> same_symbols e1 e ->
       (forall i, in_graph (egraph c) i -> env_node e i <> None) -> Defined e extra ->
       on_path e c /\ Holds e extra).
Proof.
  intros Hc Hs Hb Hf Er He0 Hsm Hbd. unfold context_check. rewrite context_ask_query.
  pose proof (query_post_ok T e0 true B fuel c g extra Hc Er He0 Hb Hf Hsm (fun _ => Hbd)) as K.
  destruct (context_query fuel c extra) as [[[l ex] c']|] eqn:Eq; cbn [wp] in K; [|done]. rewrite ok_bind. cbv beta iota.
  pose proof (fun e He => query_ok_of T e fuel c g extra l ex c' Hc Er He Hb Hf Hsm Eq) as Hq.
  destruct (check_ok l ex (proj2 (Hq e0 He0))) as (r & l' & -> & [_ _ _ Hu Hsat]). rewrite ok_bind. exists r, c'.
  split_and!; [done|apply K| | |].
  - intros e He. destruct (Hq e He) as [(_ & _ & _ & _ & _ & ? & ? & _) _]. done.
  - intros Hk e He Hp Hh. destruct (Hq e He) as [(_ & _ & _ & (_ & _ & Hst) & _ & _ & _ & Hfwd & _) _].
    apply (Hu Hk e). constructor; [by apply Hst|auto].
  - intros Hk. destruct (Hsat Hk) as (e1 & Hh). apply Forall_cons in Hh as [Hx Hh]. exists e1. intros e He Hsym Htot Hdef.
    destruct (Hq e He) as [(_ & _ & _ & (_ & _ & Hst) & _ & _ & _ & _ & Hback & _) _].
    assert (same_symbols e e1) as Hsym' by (destruct Hsym; by split). split; [by apply (Hback e1)|].
    unfold Defined in Hdef. destruct (denote e extra) as [v|] eqn:Ev; [|done]. specialize (Hst e1 v Hsym' eq_refl).
    unfold Holds in *. congruence.
Qed.
End contracts.

(** ** Leaving a function *)
Section leaving.
Context `{PtrEq} `{!DataPtrEq} `{MapOrder} `{MathExtrasAPI} `{Config} `{HashOrder} `{LLVMIR}.

(** An allocation of a heap of the context. *)
Definition live (m : MemHeapMgr) (heap : Z) (id : AllocId) (a : Allocation) : Prop :=
  0 <= id.1 /\ exists h, heaps_ m !! heap = Some h /\ sm_lookup (allocs_ h) id = Some a.
(** While a heap is concrete its allocations are at distinct addresses its
    allocator has handed out. *)
Definition concrete_ok (h : MemHeap) : Prop :=
  match allocator_ h with
  | Init b => forall k a, 0 <= k.1 -> sm_lookup (allocs_ h) k = Some a ->
      exists v, as_ConstantInt (address_ a) = Some v /\ v ∈ BumpAllocator.allocations b /\
        forall k' a', 0 <= k'.1 -> sm_lookup (allocs_ h) k' = Some a' -> as_ConstantInt (address_ a') = Some v -> k' = k
  | _ => True
  end.
Definition heaps_ok (m : MemHeapMgr) : Prop := forall i h, heaps_ m !! i = Some h -> sm_inv (allocs_ h) /\ concrete_ok h.

Lemma deallocate_live h id a :
  sm_inv (allocs_ h) -> concrete_ok h -> 0 <= id.1 -> sm_lookup (allocs_ h) id = Some a ->
  exists h', heap_deallocate h id = Ok h' /\ sm_inv (allocs_ h') /\ concrete_ok h' /\
    forall k, 0 <= k.1 -> sm_lookup (allocs_ h') k = if decide (k = id) then None else sm_lookup (allocs_ h) k.
Proof.
  intros Hs Hc Hid Ha. unfold heap_deallocate, concrete_ok in *.
  destruct (sm_remove_ok (allocs_ h) id a Hs Hid Ha) as (m' & -> & Hs' & Hl & _). rewrite ok_bind. cbv beta iota.
  destruct (allocator_ h) as [|b|]; try (eexists; split; [done|]; done).
  destruct (Hc id a Hid Ha) as (v & -> & Hv & Hu). cbn [of_option]. rewrite ok_bind. unfold bump_deallocate.
  rewrite bool_decide_eq_true_2 by done. cbn [assert_]. rewrite !ok_bind. eexists. split; [done|]. cbn [allocs_ allocator_].
  split_and!; [done| |done]. intros k x Hk. rewrite Hl by done. case_decide as Hne; [done|]. intros Hx.
  destruct (Hc k x Hk Hx) as (u & Eu & Hu' & Huu). exists u. split_and!; [done| |].
  - cbn. apply list_elem_of_filter. split; [|done]. intros ->. by apply Hne, (Hu k x).
  - intros k' a' Hk'. rewrite Hl by done. case_decide; [done|]. by apply Huu.
Qed.

Definition frame_alloc (id : AllocId) (heap : Z) : StackAllocation := mkStackAlloc id heap.
Lemma release_ok m allocs :
  heaps_ok m -> NoDup allocs -> Forall (fun s => exists a, live m (sa_heap s) (sa_alloc s) a /\ alloc_kind a = Alloca) allocs ->
  exists m', release m allocs = Ok m' /\ heaps_ok m' /\
    forall heap id a, live m' heap id a <-> live m heap id a /\ frame_alloc id heap ∉ allocs.
Proof.
  revert m. induction allocs as [|s allocs IH]; intros m Hm Hnd Hall; cbn [release].
  { exists m. split_and!; [done|done|]. intros heap id a. split; [intros ?; split; [done|apply not_elem_of_nil]|by intros []]. }
  apply NoDup_cons in Hnd as [Hs Hnd]. apply Forall_cons in Hall as [(a & (Hid & h & Hh & Ha) & Hkind) Hall].
  destruct s as [id0 heap0]. cbn [sa_alloc sa_heap] in *. unfold mgr_at. rewrite Hh. cbv beta iota.
  destruct (Hm heap0 h Hh) as [Hsm Hcon]. unfold heap_at. rewrite (live_at (allocs_ h) id0 a Hid Ha), ok_bind.
  rewrite bool_decide_eq_true_2 by done. cbn [assert_]. rewrite ok_bind.
  destruct (deallocate_live h id0 a Hsm Hcon Hid Ha) as (h' & -> & Hsm' & Hcon' & Hl). rewrite ok_bind.
  assert (forall heap id x, live (mgr_set m heap0 h') heap id x <-> live m heap id x /\ frame_alloc id heap <> mkStackAlloc id0 heap0) as Hstep.
  { intros heap id x. unfold live, mgr_set, frame_alloc. cbn [heaps_]. split.
    - intros [Hk (y & Hy & Hx)]. apply lookup_insert_Some in Hy as [[<- <-]|[Hne Hy]].
      + rewrite Hl in Hx by done. case_decide as Hne; [done|]. split; [split; [done|by exists h]|]. intros [= ->]. done.
      + split; [split; [done|by exists y]|]. intros [= -> ->]. done.
    - intros [[Hk (y & Hy & Hx)] Hne]. split; [done|]. destruct (decide (heap = heap0)) as [->|Hneh].
      + exists h'. rewrite lookup_insert_eq. split; [done|]. rewrite Hl by done. rewrite Hh in Hy. injection Hy as <-.
        rewrite decide_False; [done|]. intros ->. done.
      + exists y. rewrite lookup_insert_ne by done. done. }
  destruct (IH (mgr_set m heap0 h')) as (m' & -> & Hm' & Hlive).
  - intros i y. unfold mgr_set. cbn [heaps_]. intros [[<- <-]|[_ Hy]]%lookup_insert_Some; [done|by apply (Hm i)].
  - done.
  - rewrite Forall_forall in Hall |- *. intros s Hin. destruct (Hall s Hin) as (x & Hx & Hk). exists x. split; [|done].
    apply Hstep. split; [done|]. unfold frame_alloc. destruct s. cbn. intros [= -> ->]. done.
  - exists m'. split_and!; [done|done|]. intros heap id x. rewrite Hlive, Hstep, not_elem_of_cons. tauto.
Qed.

(** [Context::pop] removes the top frame and frees exactly the allocations
    the frame made on the stack: every other allocation of every heap stays,
    and neither the path condition nor the rest of the stack changes. *)
Theorem pop_frees_frame c s top f :
  ctx_stack c = s ++ [top] -> value_ top = Regular f -> heaps_ok (heaps c) -> NoDup (allocations f) ->
  Forall (fun s => exists a, live (heaps c) (sa_heap s) (sa_alloc s) a /\ alloc_kind a = Alloca) (allocations f) ->
  exists c', ctx_pop c = Ok c' /\ ctx_stack c' = s /\ assertions c' = assertions c /\ egraph c' = egraph c /\ heaps_ok (heaps c') /\
    forall heap id a, live (heaps c') heap id a <-> live (heaps c) heap id a /\ frame_alloc id heap ∉ allocations f.
Proof.
  intros Es Ev Hm Hnd Hall. unfold ctx_pop. rewrite Es, last_snoc. cbn [of_option]. rewrite ok_bind, Ev.
  destruct (release_ok (heaps c) (allocations f) Hm Hnd Hall) as (m' & -> & Hm' & Hl). rewrite ok_bind.
  eexists. split; [done|]. cbn. split_and!; try done. apply removelast_last.
Qed.
End leaving.

Module context_witness.
Import egraph_witness extract_witness graphlist_witness.
#[local] Instance on : Config := {| IMPLICIT_CONSTANT_FOLDING := true |}.
#[local] Instance small_ir : LLVMIR := {|
  block_insts _ := [100]; entry_block _ := 10; fn_args _ := []; invoke_dests _ := None |}.

Definition yes : Env := {|
  env_symbol := fun _ => den_bool true; env_array := fun _ _ => den_bool true; env_node := fun _ => None |}.
Definition c0 : Context := mkContext [] ∅ (MemHeapMgr_ctor true) gl_empty ∅ 0 false eg_empty 0.
Lemma c0_inv T : ctx_inv T c0.
Proof. split; [apply empty_inv|constructor|apply gl_empty_inv|reflexivity]. Qed.
Lemma and1_boolean s t : boolean (and1 (sym1 s) (sym1 t)).
Proof. split; [apply and1_wf|reflexivity]. Qed.

Lemma context_add_correct_witness :
  exists c' T' e', context_add c0 (and1 (sym1 "x") (sym1 "y")) = Ok c' /\ ctx_inv T' c' /\ eg_sat T' e' (egraph c') /\ on_path e' c'.
Proof.
  destruct (context_add_correct T0 c0 (and1 (sym1 "x") (sym1 "y")) (c0_inv T0) (and1_boolean _ _) (and1_fits _ _ _ _))
    as (c' & T' & E & I & Hs).
  destruct (Hs yes (empty_sat T0 yes (fun _ => eq_refl))) as (e' & _ & S' & _ & Hp).
  exists c', T', e'. split; [exact E|]. split; [exact I|]. split; [exact S'|]. apply Hp. split; [constructor|].
  unfold Holds. vm_decide.
Defined.

(** x & y is asserted and x is checked. *)
Definition c1 : Context := set_graphs c0 list2 g1.
Definition g1r : EGraph := match rebuild g1 with Ok g => g | Err _ => eg_empty end.
Lemma g1_rebuild : rebuild (egraph c1) = Ok g1r.
Proof.
  change (egraph c1) with g1. unfold g1r. assert (is_ok (rebuild g1) = true) as K by vm_decide.
  destruct (rebuild g1) as [g|err]; [reflexivity|discriminate K].
Qed.
Lemma g1r_plain : map_Forall (fun _ c => Forall (fun n => plain n = true) (nodes c)) (classes g1r).
Proof. vm_decide. Qed.
Lemma c1_sound : exists T e, ctx_inv T c1 /\ sound_env T c1 g1r (sym1 "x") e /\ same_symbols yes e.
Proof.
  destruct (eg_add_op_ok _ (and1_wf "x" "y") T0 eg_empty (empty_inv T0) (and1_fits _ _ _ _)) as (id & g' & T' & E & _ & Ht & _ & I' & _ & _ & Hs).
  destruct (Hs yes (empty_sat T0 yes (fun _ => eq_refl))) as (e' & [Hsym _] & S' & _).
  assert (g' = g1 /\ id = 2) as [-> ->].
  { split; [unfold g1, with_expr; rewrite E; reflexivity|]. assert ((or_empty (eg_add_op (and1 (sym1 "x") (sym1 "y")) eg_empty)).1 = 2) as K by vm_decide.
    rewrite E in K. exact K. }
  exists T', e'. split; [split; [exact I'| |apply gl_insert_inv, gl_empty_inv|reflexivity]|].
  - apply Forall_singleton. split; [unfold in_graph; vm_decide|exact Ht].
  - split; [split; [exact S'| |]|exact Hsym].
    + intros i c n Hc Hn. apply plain_safe. pose proof (map_Forall_lookup_1 _ _ _ _ g1r_plain Hc) as Hp. rewrite Forall_forall in Hp. exact (Hp n Hn).
    + apply op_safe_node; [reflexivity|exact Logic.I|constructor].
Qed.

Definition B3 (i : Z) : Z := if i =? 2 then 131073 else 65536.
Definition bounds3 : bool :=
  bool_decide (map_Forall (fun i c => (0 <= B3 i < UINT64_MAX /\ Z.of_nat (length (nodes c)) <= SIZE_MAX) /\
    cache_cost (cache c) = None /\
    Forall (fun n => opcode_cost (od_opcode (en_data n)) + sum_bound B3 g1r (en_operands n) <= B3 i) (nodes c)) (classes g1r)).
Lemma g1r_bounded : bounded 3 c1 g1r B3.
Proof.
  split.
  - assert (bounds3 = true) as K by vm_cast_no_check (@eq_refl bool true). apply bool_decide_eq_true_1 in K.
    intros i c Hc. destruct (map_Forall_lookup_1 _ _ _ _ K Hc) as ((? & ?) & Ek & Hn). rewrite Forall_forall in Hn.
    split; [split; [done|split; done]|]. intros k. rewrite Ek. discriminate.
  - exists rank1. split.
    + assert (map_Forall (fun i c => Forall (fun n => Forall (fun j => (rank1 (rep (union_find g1r) j) < rank1 i)%nat) (en_operands n))
        (option_list (find_and (nodes c)))) (classes g1r)) as K by vm_decide.
      intros i c n j Hc Hn Hj. pose proof (map_Forall_lookup_1 _ _ _ _ K Hc) as Kc. cbv beta in Kc. rewrite Hn in Kc.
      apply Forall_cons in Kc as [Kn _]. rewrite Forall_forall in Kn. by apply Kn.
    + intros i ->%list_elem_of_singleton. vm_decide.
Qed.
Definition extracted_size : result nat :=
  gl ← gl_canonicalize 3 g1r list2; '(rs, _) ← extract_operands extract (Extractor_ctor g1r false) (glist_ gl); Ok (stack_size rs).
Lemma c1_small : small 3 c1 g1r.
Proof.
  assert (extracted_size = Ok 2%nat) as K by vm_cast_no_check (@eq_refl (result nat) (Ok 2%nat)).
  intros gl rs x E1 E2. unfold extracted_size in K. change (assertions c1) with list2 in E1. rewrite E1, ok_bind, E2, ok_bind in K.
  injection K as K. rewrite K. vm_decide.
Qed.

Lemma context_check_correct_witness :
  exists r c', context_check (solvers_witness.probe yes) 3 c1 (sym1 "x") = Ok (r, c') /\ kind_ r = SAT /\
    exists T e1, forall e, sound_env T c1 g1r (sym1 "x") e -> same_symbols e1 e ->
      (forall i, in_graph g1 i -> env_node e i <> None) -> Defined e (sym1 "x") -> on_path e c1 /\ Holds e (sym1 "x").
Proof.
  destruct c1_sound as (T & e0 & I & S & _).
  destruct (context_check_correct T (solvers_witness.probe yes) 3 c1 (sym1 "x") g1r B3 e0 I (solvers_witness.probe_spec yes)
    (conj (sym1_wf "x") eq_refl) (sym1_fits _ _ _) g1_rebuild S c1_small g1r_bounded) as (r & c' & E & _ & _ & _ & Hsat).
  assert ((fun p => kind_ p.1) <$> context_check (solvers_witness.probe yes) 3 c1 (sym1 "x") = Ok SAT) as K by vm_decide.
  rewrite E in K. injection K as K. exists r, c'. split; [exact E|]. split; [exact K|]. exists T. exact (Hsat K).
Defined.

(** A frame with one of the two allocations of heap 0. *)
Definition stack_byte : Allocation := mkAllocation (sym8 "a") (sym8 "s") (sym8 "d") Alloca 0.
Definition heap_byte : Allocation := mkAllocation (sym8 "b") (sym8 "s") (sym8 "d") Malloc 0.
Definition slots (r : result (key_type * slot_map Allocation)) : slot_map Allocation := match r with Ok p => p.2 | Err _ => sm_empty end.
Definition two_slots : slot_map Allocation := slots (sm_insert (slots (sm_insert sm_empty stack_byte)) heap_byte).
Definition two_heaps : MemHeapMgr := mgr_set (MemHeapMgr_ctor true) 0 (mkHeap two_slots 0 Symbolic).
Definition top_frame : IRStackFrame := mkIRFrame 1 [mkStackAlloc (0, 0) 0] ∅ 10 None 0 1.
Definition c2 : Context := set_stack (set_heaps c0 two_heaps) [mkFrame (Regular top_frame) 1].
Lemma two_slots_inv : sm_inv two_slots.
Proof.
  destruct (sm_insert_ok sm_empty stack_byte sm_empty_inv) as (k1 & m1 & E1 & I1 & _ & _ & _ & _ & Hn1); [vm_decide|].
  destruct (sm_insert_ok m1 heap_byte I1) as (k2 & m2 & E2 & I2 & _); [|unfold two_slots; rewrite E1; cbn [slots snd]; rewrite E2; exact I2].
  assert (m1 = slots (sm_insert sm_empty stack_byte)) as -> by (rewrite E1; reflexivity). vm_decide.
Qed.
Lemma pop_frees_frame_witness :
  exists c', ctx_pop c2 = Ok c' /\ ctx_stack c' = [] /\ live (heaps c') 0 (1, 0) heap_byte /\ ~ live (heaps c') 0 (0, 0) stack_byte.
Proof.
  destruct (pop_frees_frame c2 [] (mkFrame (Regular top_frame) 1) top_frame) as (c' & E & Es & _ & _ & _ & Hl).
  - reflexivity.
  - reflexivity.
  - intros i h. cbn. intros [[<- <-]|[_ Hi]]%lookup_insert_Some; [split; [exact two_slots_inv|exact Logic.I]|].
    rewrite lookup_empty in Hi. discriminate Hi.
  - apply NoDup_singleton.
  - apply Forall_singleton. exists stack_byte. split; [|reflexivity]. split; [cbn; lia|]. exists (mkHeap two_slots 0 Symbolic). split; reflexivity.
  - exists c'. split; [exact E|]. split; [exact Es|]. split.
    + apply Hl. split; [|set_solver]. split; [cbn; lia|]. exists (mkHeap two_slots 0 Symbolic). split; reflexivity.
    + intros K. apply Hl in K as [_ K]. apply K. by left.
Defined.
End context_witness.
