(* ===== verification/Constprop.v ===== *)
(** Constant propagation on the e-graph: [EGraph::constprop]
    (src/IR/EGraphConstprop.cpp).

    Classes without a constant are visited in the order of the hash map; a node
    whose operands are constant classes is folded and its class is merged with
    the class of the result.  [foldSelect] is not called by the code and is not
    part of the model. *)
From S2P Require Import Prelude LLVM IRType Value Opcode Operation Matching Create Semantics.
From S2P Require Import Simplifier SimplifierInt SimplifierSound UnionFind EGraph EGraphSound EGraphRebuild GraphAssertions.
Open Scope Z_scope.

Section constprop.
Context `{PtrEq} `{!DataPtrEq} `{MapOrder} `{MathExtrasAPI}.

Record Propagator : Type := mkPropagator { p_graph : EGraph; p_constants : gset Z }.

(** The functions of [tryFoldNode]; [args[i]] is undefined past the end.  A
    division by zero trips an assertion of [APInt]. *)
Definition fold2 (f : APInt -> APInt -> result APInt) (args : list APInt) : result APInt :=
  a ← of_option UndefinedBehaviour (args !! 0%nat); b ← of_option UndefinedBehaviour (args !! 1%nat); f a b.
Definition fold1 (f : APInt -> APInt) (args : list APInt) : result APInt :=
  a ← of_option UndefinedBehaviour (args !! 0%nat); Ok (f a).
Definition bool_int (b : bool) : APInt := APInt_of 1 (Z.b2z b).
Definition fold_div (div : APInt -> APInt -> APInt) (a b : APInt) : result APInt :=
  if ap_eq_u64 b 0 then assert_ (negb (ap_eq_u64 b 0)) ;; Ok (div a b) else Ok b.
Definition fold_icmp (c : ICmpOpcode) (a b : APInt) : bool :=
  match c with
  | EQ => ap_eq a b | NE => negb (ap_eq a b)
  | UGT => ap_ugt a b | UGE => ap_uge a b | ULT => ap_ult a b | ULE => ap_ule a b
  | SGT => ap_sgt a b | SGE => ap_sge a b | SLT => ap_slt a b | SLE => ap_sle a b
  end.
Definition fold_func (d : OperationData) : option (list APInt -> result APInt) :=
  match od_opcode d with
  | OpAdd => Some (fold2 (fun a b => Ok (ap_add a b)))
  | OpSub => Some (fold2 (fun a b => Ok (ap_sub a b)))
  | OpMul => Some (fold2 (fun a b => Ok (ap_mul a b)))
  | OpUDiv => Some (fold2 (fold_div ap_udiv))
  | OpSDiv => Some (fold2 (fold_div ap_sdiv))
  | OpURem => Some (fold2 (fold_div ap_urem))
  | OpSRem => Some (fold2 (fold_div ap_srem))
  | OpAnd => Some (fold2 (fun a b => Ok (ap_and a b)))
  | OpOr => Some (fold2 (fun a b => Ok (ap_or a b)))
  | OpXor => Some (fold2 (fun a b => Ok (ap_xor a b)))
  | OpShl => Some (fold2 (fun a b => Ok (ap_shl a b)))
  | OpLShr => Some (fold2 (fun a b => Ok (ap_lshr a b)))
  | OpAShr => Some (fold2 (fun a b => Ok (ap_ashr a b)))
  | OpICmp c => Some (fold2 (fun a b => Ok (bool_int (fold_icmp c a b))))
  | OpNot => Some (fold1 ap_not)
  | OpZExt => Some (fun args => w ← bitwidth (od_type d); fold1 (fun a => ap_zext a w) args)
  | OpSExt => Some (fun args => w ← bitwidth (od_type d); fold1 (fun a => ap_sext a w) args)
  | OpTrunc => Some (fun args => w ← bitwidth (od_type d); fold1 (fun a => ap_trunc a w) args)
  | _ => None
  end.

(** [tryFoldConstIntOperands]. *)
Fixpoint all_constant (g : EGraph) (constants : gset Z) (operands : list Z) : result (bool * EGraph) :=
  match operands with
  | [] => Ok (true, g)
  | i :: operands =>
      '(r, g) ← eg_find g i;
      if decide (r ∈ constants) then all_constant g constants operands else Ok (false, g)
  end.
Fixpoint constant_operands (g : EGraph) (operands : list Z) : result (list APInt * EGraph) :=
  match operands with
  | [] => Ok ([], g)
  | i :: operands =>
      '(c, g) ← eg_get g i; '(_, c) ← of_option AssertFailed c; assert_ (eclass_is_constant c) ;;
      n ← of_option Thrown (hd_error (nodes c)); a ← of_option AssertFailed (constant_int_data (en_data n));
      '(args, g) ← constant_operands g operands; Ok (a :: args, g)
  end.
Definition tryFoldConstIntOperands (g : EGraph) (constants : gset Z) (node : ENode) (func : list APInt -> result APInt) :
    result (option APInt * EGraph) :=
  '(all, g) ← all_constant g constants (en_operands node);
  if all : bool then '(args, g) ← constant_operands g (en_operands node); a ← func args; Ok (Some a, g)
  else Ok (None, g).
(** [foldIntOp] and [foldBoolOp] add the constant. *)
Definition tryFoldNode (g : EGraph) (constants : gset Z) (node : ENode) : result (option Z * EGraph) :=
  match fold_func (en_data node) with
  | None => Ok (None, g)
  | Some func =>
      '(folded, g) ← tryFoldConstIntOperands g constants node func;
      match folded with
      | None => Ok (None, g)
      | Some a => d ← ConstantIntData a; '(id, g) ← eg_add g (mkNode d []); Ok (Some id, g)
      end
  end.

Fixpoint visit_nodes (p : Propagator) (id : Z) (ns : list ENode) : result Propagator :=
  match ns with
  | [] => Ok p
  | n :: ns =>
      '(merged, g) ← tryFoldNode (p_graph p) (p_constants p) n;
      match merged with
      | Some m =>
          '(id, g) ← eg_merge g m id;
          Ok (mkPropagator (set_worklist g (worklist g ++ [id])) ({[id]} ∪ p_constants p))
      | None => visit_nodes (mkPropagator g (p_constants p)) id ns
      end
  end.
Definition cp_visit (p : Propagator) (id : Z) : result Propagator :=
  '(r, g) ← eg_find (p_graph p) id;
  if negb (id =? r) then Ok (mkPropagator g (p_constants p))
  else if decide (id ∈ p_constants p) then Ok (mkPropagator g (p_constants p))
  else
    '(c, g) ← eg_get g id; '(_, c) ← of_option UndefinedBehaviour c;
    visit_nodes (mkPropagator g (p_constants p)) id (nodes c).
Fixpoint visit_all (p : Propagator) (queue : list Z) : result Propagator :=
  match queue with
  | [] => Ok p
  | id :: queue => p ← cp_visit p id; visit_all p queue
  end.
Definition constprop (g : EGraph) : result EGraph :=
  let order := map_order (map_to_list (classes g)) in
  let constants := list_to_set (filter (fun p => eclass_is_constant p.2 = true) order).*1 in
  let queue := (filter (fun p => eclass_is_constant p.2 = false) order).*1 in
  p ← visit_all (mkPropagator g constants) queue; Ok (p_graph p).
End constprop.

(** ** Soundness *)

(** A change of the graph that keeps it sound: every environment of the old
    graph extends to the classes of the new one. *)
Section steps.
Context `{PtrEq} `{!DataPtrEq} `{MapOrder} `{MathExtrasAPI}.
#[local] Abbreviation grep g i := (rep (union_find g) i).

Definition sound_step (T : Z -> Ty) (g : EGraph) (T' : Z -> Ty) (g' : EGraph) : Prop :=
  eg_inv T' g' /\ extends T g T' g' /\
  forall e, eg_sat T e g -> exists e', env_extends g e e' /\ eg_sat T' e' g'.
Lemma sound_step_refl T g : eg_inv T g -> sound_step T g T g.
Proof. intros Hg. split_and!; [done|apply extends_refl|]. intros e Hs. exists e. split; [apply env_extends_refl|done]. Qed.
Lemma sound_step_trans T1 g1 T2 g2 T3 g3 : sound_step T1 g1 T2 g2 -> sound_step T2 g2 T3 g3 -> sound_step T1 g1 T3 g3.
Proof.
  intros (_ & X1 & S1) (I2 & X2 & S2). split_and!; [done|by apply (extends_trans T1 g1 T2 g2)|]. intros e Hs.
  destruct (S1 e Hs) as (e1 & E1 & Hs1). destruct (S2 e1 Hs1) as (e2 & E2 & Hs2). exists e2. split; [|done].
  apply (env_extends_trans g1 g2 e e1 e2); [apply X1|done|done].
Qed.
Lemma uf_equiv_step T g g' : eg_inv T g -> uf_equiv g g' -> sound_step T g T g'.
Proof.
  intros Hg Q. split_and!; [by apply (uf_equiv_inv T g)| |].
  - split; [rewrite (eqv_size _ _ Q); done|done].
  - intros e Hs. exists e. split; [apply env_extends_refl|by apply (uf_equiv_sat T e g)].
Qed.
Lemma set_worklist_step T g w : eg_inv T g -> Forall (in_graph g) w -> sound_step T g T (set_worklist g w).
Proof.
  intros Hg Hw. split_and!.
  - destruct Hg as [Hu Ht Hd Hc Hh Hwl Hup]. split; try done.
    + intros i c Hi. apply (class_ok_mono T g); [done|by apply Hc].
    + intros n p Hp. apply (entry_ok_mono T g); [done|by apply Hh].
  - by split.
  - intros e [Ht Hr Hc Hh]. exists e. split; [apply env_extends_refl|]. by split.
Qed.

(** A property of every node of the graph. *)
Definition nodes_all (P : ENode -> Prop) (g : EGraph) : Prop :=
  forall i c n, classes g !! i = Some c -> n ∈ nodes c -> P n.
Lemma nodes_all_classes P g g' : classes g' = classes g -> nodes_all P g -> nodes_all P g'.
Proof. intros E Hp i c n. rewrite E. apply Hp. Qed.
Lemma eg_find_classes g i r g' : eg_find g i = Ok (r, g') -> classes g' = classes g.
Proof. unfold eg_find. intros E. apply bind_Ok in E as ([r' u] & _ & [= _ <-]). done. Qed.
Lemma eg_merge_nodes P g id1 id2 r g' : nodes_all P g -> eg_merge g id1 id2 = Ok (r, g') -> nodes_all P g'.
Proof.
  intros Hp E. unfold eg_merge in E. apply bind_Ok in E as ([r1 g1] & E1 & E). apply bind_Ok in E as ([r2 g2] & E2 & E).
  apply (nodes_all_classes P g g1) in Hp; [|by eapply eg_find_classes]. apply (nodes_all_classes P g1 g2) in Hp; [|by eapply eg_find_classes].
  destruct (r1 =? r2); [by injection E as _ <-|]. apply bind_Ok in E as ([new u] & _ & E). cbv zeta in E.
  apply bind_Ok in E as (c1 & H1c%of_option_Ok & E). apply bind_Ok in E as (c2 & H2c%of_option_Ok & E).
  apply bind_Ok in E as (c & Hc & [= _ <-]). cbn in H1c, H2c.
  intros i x n. cbn. intros [_ Hx]%lookup_delete_Some. apply lookup_insert_Some in Hx as [[_ <-]|[_ Hx]]; [|by apply (Hp i)].
  unfold eclass_merge in Hc. apply bind_Ok in Hc as (t1 & _ & Hc). apply bind_Ok in Hc as (t2 & _ & Hc). apply bind_Ok in Hc as (? & _ & [= <-]).
  assert (forall b, nodes b = nodes c1 ++ nodes c2 -> n ∈ nodes b -> P n) as K.
  { intros b -> [Hn|Hn]%elem_of_app; [by apply (Hp new c1)|by apply (Hp r2 c2)]. }
  destruct (constant_index c2); [destruct (constant_index c1)|]; by apply K.
Qed.
Lemma eg_add_leaf_nodes P g d id g' : nodes_all P g -> P (mkNode d []) -> eg_add g (mkNode d []) = Ok (id, g') -> nodes_all P g'.
Proof.
  intros Hp Hd E. unfold eg_add, canonicalize_node in E. cbn in E. destruct (hm_find _ _ _); [by injection E as _ <-|].
  injection E as _ <-. intros i c n. cbn. destruct (classes g !! _) eqn:Ec; [apply Hp|].
  intros [[_ <-]|[_ Hc]]%lookup_insert_Some; [|by apply (Hp i)]. cbn. by intros ->%list_elem_of_singleton.
Qed.

(** ** Folding one node *)
Definition is_division (o : Opcode) : bool :=
  match o with OpUDiv | OpSDiv | OpURem | OpSRem => true | _ => false end.

(** What folding [d] over constant operands promises. *)
Definition folds_to (d : OperationData) (args : list APInt) (a : APInt) : Prop :=
  good_width (getBitWidth a) /\ od_type d = ity (getBitWidth a) /\
  forall e, denote_node e d (Some ∘ DInt <$> args) = Some (DInt a).

Lemma folds_binary d a b w z :
  int_binop (od_opcode d) = true -> good_width w -> od_type d = ity w -> getBitWidth a = w -> getBitWidth b = w ->
  sem_int (od_opcode d) w (getZExtValue a) (getZExtValue b) = Some z -> folds_to d [a; b] (APInt_of w z).
Proof.
  intros Ho Hw Ht Ha Hb Hz. unfold folds_to. rewrite APInt_of_width by (destruct Hw; lia). split_and!; [done..|].
  intros e. unfold denote_node. cbn. destruct (od_opcode d); try done; cbn in *; rewrite Ha, Hb, Z.eqb_refl;
    lazymatch type of Hz with ?l = _ => lazymatch goal with |- _ = _ => change (((fun z => DInt (APInt_of w z)) <$> l) = Some (DInt (APInt_of w z))) end end;
    by rewrite Hz.
Qed.
Lemma folds_icmp d c a b :
  od_opcode d = OpICmp c -> od_type d = ity 1 -> getBitWidth a = getBitWidth b -> folds_to d [a; b] (bool_int (fold_icmp c a b)).
Proof.
  intros Ho Ht Hab. unfold folds_to, bool_int. rewrite APInt_of_width by lia. split_and!; [done..|].
  intros e. unfold denote_node. rewrite Ho. cbn. rewrite Hab, Z.eqb_refl. unfold den_bool. do 5 f_equal.
  destruct c; cbn; rewrite ?ap_eq_spec, ?ap_ugt_spec, ?ap_uge_spec, ?ap_ult_spec, ?ap_ule_spec, ?ap_sgt_spec, ?ap_sge_spec,
    ?ap_slt_spec, ?ap_sle_spec by done; by rewrite ?Hab.
Qed.
Lemma folds_unary d a w z :
  od_opcode d ∈ [OpNot; OpTrunc; OpZExt; OpSExt] -> good_width w -> od_type d = ity w ->
  sem_unary (od_opcode d) (od_type d) (DInt a) = Some (DInt (APInt_of w z)) -> folds_to d [a] (APInt_of w z).
Proof.
  intros Ho Hw Ht Hz. unfold folds_to. rewrite APInt_of_width by (destruct Hw; lia). split_and!; [done..|].
  intros e. unfold denote_node. cbn. set_unfold. by destruct Ho as [E|[E|[E|[E|[]]]]]; rewrite E in *.
Qed.

(** The operands of a foldable node have integer types. *)
Lemma fold_func_types T d ids f :
  fold_func d = Some f -> node_ok d (leaf T <$> ids) -> Forall (fun i => exists w, T i = ity w) ids.
Proof.
  unfold fold_func, node_ok. intros Hf Hn.
  destruct (od_opcode d); try discriminate Hf; destruct ids as [|i [|j [|? ?]]]; try done; cbn in Hn;
    repeat match goal with K : exists _, _ |- _ => destruct K as [? K] end; destruct_and? Hn; repeat constructor; eauto.
Qed.

Lemma fold_func_ok T d ids args f :
  fold_func d = Some f -> is_division (od_opcode d) = false -> node_ok d (leaf T <$> ids) ->
  Forall2 (fun i a => T i = ity (getBitWidth a)) ids args -> exists a, f args = Ok a /\ folds_to d args a.
Proof.
  unfold fold_func, node_ok. intros Hf Hd Hn Ha.
  destruct (od_opcode d) eqn:Ho; try discriminate Hf; try discriminate Hd; injection Hf as <-;
    (destruct Ha as [|i a ids args Hi [|j b ids' args' Hj [|? ? ? ? ? ?]]]; try done; cbn in Hn);
    cbn [fold2 fold1 lookup list_lookup of_option]; rewrite ?ok_bind;
    try (destruct Hn as (w & Hw & Ht & Hx & Hy); rewrite Hi in Hx; rewrite Hj in Hy; injection Hx as Hx; injection Hy as Hy;
         eexists; (split; [done|]));
    try solve [rewrite ?ap_add_spec, ?ap_sub_spec, ?ap_mul_spec, ?ap_and_spec, ?ap_or_spec, ?ap_xor_spec, ?ap_shl_spec, ?ap_lshr_spec, ?ap_ashr_spec
           by congruence; rewrite Hx; apply folds_binary; rewrite ?Ho, ?Hx; done].
  - by apply folds_icmp; [| |congruence].
  - destruct Hn as (w & Hw & Ht & Hx). rewrite Hi in Hx. injection Hx as Hx. eexists. split; [done|].
    rewrite ap_not_spec, Hx. apply folds_unary; rewrite ?Ho; [set_solver|done..|]. cbn. by rewrite Hx.
  - destruct Hn as (w & w' & Hw & Hw' & Hle & Ht & Hx). rewrite Hi in Hx. injection Hx as Hx. rewrite Ht, bitwidth_ity. cbn.
    eexists. split; [done|]. rewrite ap_trunc_spec by (rewrite Hx; destruct Hw; lia). apply folds_unary; rewrite ?Ho, ?Ht; [set_solver|done..].
  - destruct Hn as (w & w' & Hw & Hw' & Hle & Ht & Hx). rewrite Hi in Hx. injection Hx as Hx. rewrite Ht, bitwidth_ity. cbn.
    eexists. split; [done|]. rewrite ap_sext_spec by (rewrite Hx; destruct Hw'; lia). apply folds_unary; rewrite ?Ho, ?Ht; [set_solver|done..].
  - destruct Hn as (w & w' & Hw & Hw' & Hle & Ht & Hx). rewrite Hi in Hx. injection Hx as Hx. rewrite Ht, bitwidth_ity. cbn.
    eexists. split; [done|]. rewrite ap_zext_spec by (rewrite Hx; destruct Hw; lia). apply folds_unary; rewrite ?Ho, ?Ht; [set_solver|done..].
Qed.

(** ** Constant classes *)
Definition const_class (g : EGraph) (i : Z) : Prop :=
  exists c, classes g !! grep g i = Some c /\ eclass_is_constant c = true.
(** The code reads the constant of a constant class off its first node. *)
Definition front_constant (g : EGraph) : Prop :=
  forall i c, classes g !! i = Some c -> eclass_is_constant c = true ->
    exists n, hd_error (nodes c) = Some n /\ enode_is_constant n = true.
Definition hash_constant (g : EGraph) : Prop :=
  forall n p, (n, p) ∈ hashcons g -> enode_is_constant n = true -> const_class g p.
Definition no_division (g : EGraph) : Prop := nodes_all (fun n => is_division (od_opcode (en_data n)) = false) g.

Record cp_inv T (g : EGraph) (K : gset Z) : Prop := {
  cp_graph : eg_inv T g;
  cp_front : front_constant g;
  cp_hash : hash_constant g;
  cp_division : no_division g;
  cp_constants : forall i, i ∈ K -> in_graph g i /\ const_class g i
}.

(** Every constant class is known to the propagator, but for the class of [m]. *)
Definition known (g : EGraph) (K : gset Z) : Prop :=
  forall r c, classes g !! r = Some c -> eclass_is_constant c = true -> r ∈ K.
Definition known_but (g : EGraph) (K : gset Z) (m : Z) : Prop :=
  forall r c, classes g !! r = Some c -> eclass_is_constant c = true -> r ∈ K \/ r = grep g m.
(** Constant classes stay constant; the others stay as they are. *)
Record cp_step (g g' : EGraph) : Prop := {
  step_const : forall i, in_graph g i -> const_class g i -> const_class g' i;
  step_kept : forall i c, classes g !! i = Some c -> classes g' !! i = Some c \/ const_class g' i
}.
Lemma cp_step_trans T g1 T' g2 g3 : extends T g1 T' g2 -> eg_inv T g1 -> cp_step g1 g2 -> cp_step g2 g3 -> cp_step g1 g3.
Proof.
  intros [Hsz _] Hg [C1 K1] [C2 K2]. assert (forall i, in_graph g1 i -> in_graph g2 i) as Hin by (unfold in_graph; lia). split; [auto|].
  intros i c Hc. assert (in_graph g1 i) by (apply (inv_dom T g1 Hg); eauto). destruct (K1 i c Hc); auto.
Qed.
Lemma const_class_equiv g g' i : uf_equiv g g' -> in_graph g i -> const_class g i <-> const_class g' i.
Proof. intros Q Hi. unfold const_class. by rewrite (eqv_rep g g' Q) by done; rewrite (eqv_classes g g' Q). Qed.
Lemma cp_equiv T g g' K : uf_equiv g g' -> cp_inv T g K -> cp_inv T g' K.
Proof.
  intros Q [Hg Hf Hh Hd HK]. pose proof (eqv_classes g g' Q) as Ec. split.
  - by apply (uf_equiv_inv T g).
  - intros i c. rewrite Ec. apply Hf.
  - intros n p. rewrite (eqv_hashcons g g' Q). intros Hp Hn. apply (const_class_equiv g g' p Q); [apply (inv_hashcons T g Hg n p Hp)|by apply (Hh n)].
  - by apply (nodes_all_classes _ g).
  - intros i Hi. destruct (HK i Hi). rewrite (uf_equiv_in g g' i Q). split; [done|by apply (const_class_equiv g g' i Q)].
Qed.

Lemma cp_step_equiv g g' : uf_equiv g g' -> cp_step g g'.
Proof. intros Q. split; [intros i; by apply (const_class_equiv g g' i Q)|]. intros i c. rewrite (eqv_classes g g' Q). auto. Qed.
Lemma eclass_merge_constant c1 c2 c :
  eclass_merge c1 c2 = Ok c -> nodes c = nodes c1 ++ nodes c2 /\ eclass_is_constant c = eclass_is_constant c1 || eclass_is_constant c2.
Proof.
  unfold eclass_merge, eclass_is_constant. intros E. apply bind_Ok in E as (t1 & _ & E). apply bind_Ok in E as (t2 & _ & E).
  apply bind_Ok in E as (? & _ & [= <-]).
  destruct (constant_index c2) eqn:E2, (constant_index c1) eqn:E1; by rewrite ?E1, ?E2.
Qed.
Lemma eg_merge_shape T g id1 id2 r g' :
  eg_inv T g -> in_graph g id1 -> in_graph g id2 -> eg_merge g id1 id2 = Ok (r, g') ->
  uf_equiv g g' /\ grep g id1 = grep g id2 \/
  exists c1 c2 c, classes g !! grep g id1 = Some c1 /\ classes g !! grep g id2 = Some c2 /\ eclass_merge c1 c2 = Ok c /\
    classes g' = delete (grep g id2) (<[grep g id1 := c]> (classes g)) /\ hashcons g' = hashcons g /\ grep g id1 <> grep g id2 /\
    forall i, in_graph g i -> grep g' i = if decide (grep g i = grep g id2) then grep g id1 else grep g i.
Proof.
  intros Hg I1 I2 E. unfold eg_merge in E. pose proof (inv_uf T g Hg) as Hu.
  destruct (eg_find_ok g id1 Hu I1) as (g1 & E1 & Q1). rewrite E1, ok_bind in E. cbv beta iota in E.
  destruct (eg_find_ok g1 id2 (eqv_uf g g1 Q1)) as (g2 & E2 & Q2); [by apply (uf_equiv_in g g1)|]. rewrite E2, ok_bind in E. cbv beta iota in E.
  pose proof (uf_equiv_trans g g1 g2 Q1 Q2) as Q. rewrite (eqv_rep g g1 Q1) in E by done.
  destruct (Z.eqb_spec (grep g id1) (grep g id2)) as [Heq|Hne]; [injection E as <- <-; by left|]. right.
  assert (in_graph g (grep g id1) /\ in_graph g (grep g id2)) as [G1 G2] by (by split; apply rep_range).
  assert (grep g2 (grep g id1) = grep g id1 /\ grep g2 (grep g id2) = grep g id2) as [F1 F2] by (split; rewrite (eqv_rep g g2 Q) by done; by apply rep_rep).
  destruct (do_union_ok (union_find g2) (grep g id1) (grep g id2)) as (u & Eu & _ & _ & Hr);
    [apply (eqv_uf g g2 Q)|by apply (uf_equiv_in g g2)..|done|done|done|].
  rewrite Eu, ok_bind in E. cbv beta iota zeta in E. unfold eg_at in E. cbn [set_union_find classes] in E. rewrite (eqv_classes g g2 Q) in E.
  apply bind_Ok in E as (c1 & C1%of_option_Ok & E). apply bind_Ok in E as (c2 & C2%of_option_Ok & E). apply bind_Ok in E as (c & Ec & [= _ <-]).
  exists c1, c2, c. split_and!; try done; [apply (eqv_hashcons g g2 Q)|].
  intros i Hi. cbn. rewrite Hr by (by apply (uf_equiv_in g g2 i Q)). by rewrite (eqv_rep g g2 Q).
Qed.
Lemma eg_merge_const_class T g id1 id2 r g' i :
  eg_inv T g -> in_graph g id1 -> in_graph g id2 -> eg_merge g id1 id2 = Ok (r, g') -> in_graph g i -> const_class g i -> const_class g' i.
Proof.
  intros Hg I1 I2 E Hi Hc. destruct (eg_merge_shape T g id1 id2 r g' Hg I1 I2 E) as [[Q _]|(c1 & c2 & c & C1 & C2 & Em & Ec & _ & Hne & Hr)];
    [by apply (const_class_equiv g g' i Q)|].
  destruct Hc as (x & Hx & Hk). destruct (eclass_merge_constant c1 c2 c Em) as [_ Ek]. unfold const_class. rewrite Hr, Ec by done.
  case_decide as Hd.
  - exists c. rewrite lookup_delete_ne, lookup_insert_eq by done. split; [done|]. rewrite Hd, C2 in Hx. injection Hx as ->. by rewrite Ek, Hk, orb_true_r.
  - rewrite lookup_delete_ne by done. destruct (decide (grep g i = grep g id1)) as [Hd'|Hd'].
    + rewrite Hd' in *. exists c. rewrite lookup_insert_eq. split; [done|]. rewrite C1 in Hx. injection Hx as ->. by rewrite Ek, Hk.
    + exists x. by rewrite lookup_insert_ne by done.
Qed.

(** Merging a class into a constant one. *)
Lemma merge_step_const T g K m id r g' :
  eg_inv T g -> in_graph g m -> const_class g m -> in_graph g id -> eg_merge g m id = Ok (r, g') ->
  cp_step g g' /\ const_class g' id /\ (known_but g K m -> known g' ({[grep g m]} ∪ K)).
Proof.
  intros Hg Hm Hcm Hid E. pose proof (fun i Hi => eg_merge_const_class T g m id _ g' i Hg Hm Hid E Hi) as Hcc.
  destruct (eg_merge_shape T g m id _ g' Hg Hm Hid E) as [[Q Er]|(c1 & c2 & c & C1 & C2 & Em & Ec & _ & Hne & Hrep)].
  - split_and!; [by apply cp_step_equiv| |].
    + apply (const_class_equiv g g' id Q); [done|]. unfold const_class in *. by rewrite <- Er.
    + intros Hk k c. rewrite (eqv_classes g g' Q). intros Hx Hxk. destruct (Hk k c Hx Hxk); set_solver.
  - assert (const_class g' m) as Hm' by by apply Hcc. assert (const_class g' id) as Hid'.
    { unfold const_class in *. rewrite Hrep in Hm' |- * by done. rewrite decide_True by done. by rewrite decide_False in Hm' by done. }
    split_and!; [|done|].
    + split; [done|]. intros i x Hx. assert (in_graph g i /\ grep g i = i) as [Hi Hir] by (apply (inv_dom T g Hg); eauto).
      destruct (decide (i = grep g m)) as [Hd1|Hd1]; [|destruct (decide (i = grep g id)) as [Hd2|Hd2]].
      * right. apply Hcc; [done|]. unfold const_class in *. by rewrite Hir, Hd1.
      * right. unfold const_class in *. rewrite Hrep in Hid' |- * by done. by rewrite Hir, <- Hd2 in *.
      * left. by rewrite Ec, lookup_delete_ne, lookup_insert_ne by done.
    + intros Hk k x. rewrite Ec. intros [_ Hx]%lookup_delete_Some. apply lookup_insert_Some in Hx as [[<- _]|[_ Hx]]; [set_solver|].
      intros Hxk. destruct (Hk k x Hx Hxk); set_solver.
Qed.
Lemma cp_merge T g K m id :
  cp_inv T g K -> in_graph g m -> const_class g m -> in_graph g id -> T m = T id ->
  exists g', eg_merge g m id = Ok (grep g m, g') /\ cp_inv T g' ({[grep g m]} ∪ K) /\ extends T g T g' /\
    cp_step g g' /\ const_class g' id /\ (known_but g K m -> known g' ({[grep g m]} ∪ K)) /\
    forall e, eg_sat T e g -> env_node e m = env_node e id -> eg_sat T e g'.
Proof.
  intros [Hg Hf Hh Hd HK] Hm Hcm Hid ET. pose proof (inv_uf T g Hg) as Hu.
  destruct (eg_merge_ok T g m id Hg Hm Hid ET) as (g' & E & Hg' & Hs & _ & Hr & Hsat). exists g'.
  assert (forall i, in_graph g' i <-> in_graph g i) as Hin by (intros i; unfold in_graph; by rewrite Hs).
  pose proof (fun i Hi => eg_merge_const_class T g m id _ g' i Hg Hm Hid E Hi) as Hcc.
  destruct (merge_step_const T g K m id _ g' Hg Hm Hcm Hid E) as (Hst & Hcid & Hkn).
  split_and!; [done| |by split; [lia|]|done..]. split; [done|..].
  - destruct (eg_merge_shape T g m id _ g' Hg Hm Hid E) as [[Q _]|(c1 & c2 & c & C1 & C2 & Em & Ec & _)].
    { intros i c. rewrite (eqv_classes g g' Q). apply Hf. }
    destruct (eclass_merge_constant c1 c2 c Em) as [En _]. intros i x. rewrite Ec. intros [_ Hx]%lookup_delete_Some.
    apply lookup_insert_Some in Hx as [[_ <-]|[_ Hx]]; [intros _|by apply (Hf i)]. destruct Hcm as (y & Hy & Hk). rewrite C1 in Hy. injection Hy as <-.
    destruct (Hf _ _ C1 Hk) as (n & Hn & Hk'). exists n. split; [|done]. rewrite En. by destruct (nodes c1).
  - destruct (eg_merge_shape T g m id _ g' Hg Hm Hid E) as [[Q _]|(c1 & c2 & c & _ & _ & _ & _ & Eh & _)];
      intros n p; [rewrite (eqv_hashcons g g' Q)|rewrite Eh]; intros Hp Hn; (apply Hcc; [apply (inv_hashcons T g Hg n p Hp)|by apply (Hh n)]).
  - by apply (eg_merge_nodes _ g m id (grep g m)).
  - intros i [->%elem_of_singleton|Hi]%elem_of_union; rewrite Hin.
    + assert (in_graph g (grep g m)) as Hgm by (by apply rep_range). split; [done|]. apply Hcc; [done|].
      unfold const_class in *. by rewrite rep_rep.
    + destruct (HK i Hi). auto.
Qed.

(** Adding a constant. *)
Definition int_data (a : APInt) : OperationData := mkData OpConstantInt (ity (getBitWidth a)) (PInt a).
Lemma ConstantIntData_ok a : good_width (getBitWidth a) -> ConstantIntData a = Ok (int_data a).
Proof. intros Ha. unfold ConstantIntData, type_of_apint. by rewrite int_ty_good, ok_bind by done. Qed.
Lemma eg_add_leaf_shape g d id g' :
  uf_inv (union_find g) -> eg_add g (mkNode d []) = Ok (id, g') ->
  g' = g /\ hm_find enode_eqb (hashcons g) (mkNode d []) = Some id \/
  classes g !! id = None /\ classes g' = <[id := EClass_ctor [mkNode d []]]> (classes g) /\ grep g' id = id /\
    (forall n p, (n, p) ∈ hashcons g' -> (n, p) ∈ hashcons g \/ (n = mkNode d [] /\ p = id)) \/
  is_Some (classes g !! uf_size (union_find g)).
Proof.
  intros Hu E. unfold eg_add, canonicalize_node in E. cbn in E. destruct (hm_find _ _ _) eqn:Ef; [injection E as <- <-; by left|].
  injection E as <- <-. right. destruct (classes g !! uf_size (union_find g)) eqn:Ec; [right; eauto|left]. split_and!.
  - done.
  - cbn. done.
  - cbn. destruct (make_set_ok (union_find g) Hu) as (u & [= <-] & _ & _ & Hr & _). done.
  - cbn. intros n p [[?|[= -> ->]]%hm_emplace_in|[= -> ->]]%hm_emplace_in; auto.
Qed.
Lemma cp_add T g K a :
  cp_inv T g K -> good_width (getBitWidth a) ->
  exists id g' T', eg_add g (mkNode (int_data a) []) = Ok (id, g') /\ cp_inv T' g' K /\ extends T g T' g' /\
    in_graph g' id /\ const_class g' id /\ T' id = ity (getBitWidth a) /\ cp_step g g' /\ (known g K -> known_but g' K id) /\
    forall e, eg_sat T e g -> exists e', env_extends g e e' /\ eg_sat T' e' g' /\ env_node e' id = Some (DInt a).
Proof.
  intros [Hg Hf Hh Hd HK] Ha.
  destruct (eg_add_ok T g (mkNode (int_data a) []) Hg) as (id & g' & T' & E & Hg' & X & Gr & Hid & Et & _ & Hsat);
    [done|constructor; [constructor|by exists a]|constructor|].
  exists id, g', T'.
  assert (const_class g' id /\ front_constant g' /\ hash_constant g' /\ cp_step g g' /\ (known g K -> known_but g' K id)) as (Hc & Hf' & Hh' & Hcc & Hkn).
  { destruct (eg_add_leaf_shape g (int_data a) id g' (inv_uf T g Hg) E) as [[-> Hfind]|[(Hn & Ec & Er & Hhash)|Hsome]].
    - split_and!; [|done|done|by split; auto|by intros Hk r c Hr Hrk; left; apply (Hk r c)].
      apply hm_find_clean with (T := T) (g := g) in Hfind; [|apply (inv_hashcons T g Hg)|done]. by apply (Hh (mkNode (int_data a) [])).
    - assert (const_class g' id) as Hc by (unfold const_class; rewrite Er, Ec, lookup_insert_eq; by eexists).
      assert (forall i, in_graph g i -> const_class g i -> const_class g' i) as Hcc.
      { intros i Hi (c & Hi' & Hk). exists c. rewrite (grow_rep g g' Gr i Hi), Ec, lookup_insert_ne; [done|]. intros ->. by rewrite Hn in Hi'. }
      split_and!; [done| | |split; [done|]|].
      + intros i c. rewrite Ec. intros [[_ <-]|[_ Hi]]%lookup_insert_Some; [intros _; by eexists|by apply (Hf i)].
      + intros n p [Hp|[-> ->]]%Hhash Hk; [|done]. apply Hcc; [apply (inv_hashcons T g Hg n p Hp)|by apply (Hh n)].
      + intros i c Hi. left. rewrite Ec, lookup_insert_ne; [done|]. intros ->. by rewrite Hn in Hi.
      + intros Hk r c. rewrite Ec. intros [[<- _]|[_ Hr]]%lookup_insert_Some Hrk; [by right|left; by apply (Hk r c)].
    - apply (inv_dom T g Hg) in Hsome as [[_ Hs] _]. lia. }
  split_and!; try done.
  - split; try done; [by apply (eg_add_leaf_nodes _ g (int_data a) id)|]. intros i [Hi Hk]%HK. split; [|by apply (step_const g g' Hcc)].
    unfold in_graph in *. pose proof (ext_size _ _ _ _ X). lia.
Qed.

(** ** Folding, one class and the whole graph *)
Lemma all_constant_ok g K ids :
  uf_inv (union_find g) -> Forall (in_graph g) ids ->
  exists b g', all_constant g K ids = Ok (b, g') /\ uf_equiv g g' /\ (b = true <-> Forall (fun i => grep g i ∈ K) ids).
Proof.
  revert g. induction ids as [|i ids IH]; intros g Hu Hids; cbn [all_constant].
  { exists true, g. split_and!; [done|by apply uf_equiv_refl|by split; [constructor|]]. }
  apply Forall_cons in Hids as [Hi Hids]. destruct (eg_find_ok g i Hu Hi) as (g1 & -> & Q1). rewrite ok_bind. cbv beta iota.
  case_decide as HK; [|exists false, g1; split_and!; [done..|]; split; [done|]; by intros [? _]%Forall_cons].
  destruct (IH g1 (eqv_uf g g1 Q1)) as (b & g2 & -> & Q2 & Hb); [eapply Forall_impl; [exact Hids|]; intros j; apply (uf_equiv_in g g1 j Q1)|].
  exists b, g2. split_and!; [done|by apply (uf_equiv_trans g g1)|]. rewrite Hb, Forall_cons.
  assert (Forall (fun j => grep g1 j ∈ K) ids <-> Forall (fun j => grep g j ∈ K) ids) as ->; [|by intuition].
  rewrite !Forall_forall in *. split; intros Hj j Hin; specialize (Hj j Hin); rewrite (eqv_rep g g1 Q1) in *; auto.
Qed.

(** The first node of a constant class of integer type. *)
Lemma const_front T g K i c w :
  cp_inv T g K -> in_graph g i -> T i = ity w -> classes g !! grep g i = Some c -> eclass_is_constant c = true ->
  exists n a, hd_error (nodes c) = Some n /\ constant_int_data (en_data n) = Some a /\ T i = ity (getBitWidth a) /\
    forall e, eg_sat T e g -> env_node e i = Some (DInt a).
Proof.
  intros [Hg Hf _ _ _] Hi Ti Hc Hk. destruct (Hf _ _ Hc Hk) as (n & Hn & Hnk).
  assert (n ∈ nodes c) as Hin by (destruct (nodes c); [done|injection Hn as ->; by left]).
  pose proof (class_nodes T g _ c (inv_class T g Hg _ c Hc) n Hin) as [Hcl Hw _ _ Ht].
  rewrite (inv_type T g Hg i Hi) in Ht. destruct n as [[o t p] ops]. unfold enode_is_constant in Hnk. cbn in *.
  inversion Hw as [? ? _ Hok]; subst. unfold node_ok in Hok. cbn in Hok.
  destruct o; try discriminate Hnk; unfold clean in Hcl; cbn in Hcl; destruct p as [| |a|f| |]; try done.
  - exists (mkNode (mkData OpConstantInt (T i) (PInt a)) ops), a. split_and!; [done..|]. intros e Hs.
    rewrite <- (sat_rep T e g Hs i Hi), <- (sat_nodes T e _ c (sat_class T e g Hs _ c Hc) _ Hin). destruct ops; done.
  - destruct ops; [|done]. destruct Hok as (f' & [= <-] & Hty). rewrite Ti in Hty.
    by apply (den_ty_float f) in Hty.
Qed.
Lemma constant_operands_ok T g K ids :
  cp_inv T g K -> Forall (fun i => in_graph g i /\ const_class g i /\ exists w, T i = ity w) ids ->
  exists args g', constant_operands g ids = Ok (args, g') /\ uf_equiv g g' /\
    Forall2 (fun i a => T i = ity (getBitWidth a)) ids args /\
    forall e, eg_sat T e g -> env_node e <$> ids = Some ∘ DInt <$> args.
Proof.
  revert g. induction ids as [|i ids IH]; intros g HI Hids; cbn [constant_operands].
  { exists [], g. split_and!; [done|apply uf_equiv_refl, (inv_uf T g), HI|constructor|done]. }
  apply Forall_cons in Hids as [(Hi & (c & Hc & Hk) & w & Ti) Hids]. unfold eg_get.
  destruct (eg_find_ok g i) as (g1 & -> & Q1); [apply (inv_uf T g), HI|done|]. rewrite !ok_bind. cbv beta iota.
  rewrite (eqv_classes g g1 Q1), Hc. cbn [fmap option_fmap option_map of_option]. rewrite ok_bind. cbv beta iota.
  destruct (const_front T g K i c w HI Hi Ti Hc Hk) as (n & a & En & Ea & Ta & Hv). rewrite Hk. cbn [assert_]. rewrite ok_bind, En. cbn [of_option].
  rewrite ok_bind, Ea. cbn [of_option]. rewrite ok_bind.
  destruct (IH g1) as (args & g2 & -> & Q2 & Ha & Hvs).
  { by apply (cp_equiv T g). }
  { eapply Forall_impl; [exact Hids|]. intros j (Hj & Hcj & Htj). rewrite (uf_equiv_in g g1 j Q1). split_and!; [done|by apply (const_class_equiv g g1 j Q1)|done]. }
  exists (a :: args), g2. split_and!; [done|by apply (uf_equiv_trans g g1)|by constructor|]. intros e Hs. cbn. f_equal; [by apply Hv|].
  apply Hvs. by apply (uf_equiv_sat T e g).
Qed.

Lemma tryFoldConstIntOperands_ok T g K n p f :
  cp_inv T g K -> entry_ok T g n p -> is_division (od_opcode (en_data n)) = false -> fold_func (en_data n) = Some f ->
  exists r g', tryFoldConstIntOperands g K n f = Ok (r, g') /\ uf_equiv g g' /\
    (known g K -> Forall (const_class g) (en_operands n) -> is_Some r) /\
    forall a, r = Some a -> good_width (getBitWidth a) /\ T p = ity (getBitWidth a) /\
      forall e, eg_sat T e g -> denote e (node_op T n) = Some (DInt a).
Proof.
  intros HI [Hcl Hw Ho Hp Ht] Hd Hf. unfold tryFoldConstIntOperands. pose proof (inv_uf T g (cp_graph T g K HI)) as Hu.
  destruct (all_constant_ok g K (en_operands n) Hu Ho) as (b & g1 & -> & Q1 & Hb). rewrite ok_bind. cbv beta iota.
  assert (known g K -> Forall (const_class g) (en_operands n) -> b = true) as Hcomplete.
  { intros Hkn Hc. apply Hb. rewrite Forall_forall in Hc |- *. intros i (c & Hi & Hk)%Hc. by apply (Hkn _ c). }
  destruct b; [|exists None, g1; split_and!; [done..| |done]; intros K1 K2; by specialize (Hcomplete K1 K2)].
  pose proof (proj1 Hb eq_refl) as Hb'. clear Hb Hcomplete. rename Hb' into Hb. inversion Hw as [? ? _ Hok]; subst.
  pose proof (fold_func_types T _ _ f Hf Hok) as Hty. pose proof (cp_equiv T g g1 K Q1 HI) as HI1.
  destruct (constant_operands_ok T g1 K (en_operands n) HI1) as (args & g2 & -> & Q2 & Ha & Hv).
  { rewrite Forall_forall in Ho, Hb, Hty |- *. intros i Hi. split; [apply (uf_equiv_in g g1 i Q1); auto|split; [|auto]].
    apply (const_class_equiv g g1 i Q1); [auto|]. destruct (cp_constants T g K HI (grep g i) (Hb i Hi)) as [_ (c & Hc & Hk)].
    exists c. rewrite rep_rep in Hc by (apply Hu || exact (Ho i Hi)). done. }
  rewrite ok_bind. cbv beta iota. destruct (fold_func_ok T _ _ args f Hf Hd Hok Ha) as (a & -> & Hgw & Hta & Hden). rewrite ok_bind.
  exists (Some a), g2. split_and!; [done|by apply (uf_equiv_trans g g1)|done|]. intros a' [= <-]. split_and!; [done|congruence|].
  intros e Hs. rewrite (node_value T e g n Hs Ho), Hv by (by apply (uf_equiv_sat T e g)). apply Hden.
Qed.

(** A node all of whose operands are constant, with an opcode that is folded. *)
Definition foldable (g : EGraph) (n : ENode) : Prop :=
  is_Some (fold_func (en_data n)) /\ Forall (const_class g) (en_operands n).
Lemma tryFoldNode_ok T g K i c n :
  cp_inv T g K -> classes g !! i = Some c -> n ∈ nodes c ->
  exists r g' T', tryFoldNode g K n = Ok (r, g') /\ (r = None -> uf_equiv g g') /\ (known g K -> foldable g n -> is_Some r) /\
    forall m, r = Some m -> cp_inv T' g' K /\ extends T g T' g' /\ in_graph g' m /\ const_class g' m /\ T' m = T i /\
      cp_step g g' /\ (known g K -> known_but g' K m) /\
      forall e, eg_sat T e g -> exists e', env_extends g e e' /\ eg_sat T' e' g' /\ env_node e' m = env_node e i.
Proof.
  intros HI Hc Hin. pose proof (cp_graph T g K HI) as Hg. pose proof (class_nodes T g i c (inv_class T g Hg i c Hc) n Hin) as Hn.
  unfold tryFoldNode. destruct (fold_func (en_data n)) as [f|] eqn:Ef;
    [|exists None, g, T; split_and!; [done|intros _; apply uf_equiv_refl, (inv_uf T g Hg)|unfold foldable; rewrite Ef; by intros _ [[? [=]] _]|done]].
  destruct (tryFoldConstIntOperands_ok T g K n i f HI Hn) as (r & g1 & -> & Q1 & Hfold & Hr); [by apply (cp_division T g K HI i c)|done|].
  rewrite ok_bind. cbv beta iota. destruct r as [a|];
    [|exists None, g1, T; split_and!; [done|done| |done]; intros Hk [_ Ho]; by destruct (Hfold Hk Ho)].
  destruct (Hr a eq_refl) as (Ha & Ti & Hv). rewrite ConstantIntData_ok, ok_bind by done. clear Hfold.
  destruct (cp_add T g1 K a (cp_equiv T g g1 K Q1 HI) Ha) as (id & g2 & T' & -> & HI2 & X & Hid & Hcid & Tid & Hst & Hkn & Hs).
  rewrite ok_bind. cbv beta iota. destruct (uf_equiv_step T g g1 Hg Q1) as (_ & X1 & _).
  exists (Some id), g2, T'. split_and!; [done..|]. intros m [= <-]. split_and!; try done.
  - by apply (extends_trans T g T g1).
  - congruence.
  - apply (cp_step_trans T g T g1 g2 X1 Hg); [by apply cp_step_equiv|done].
  - intros Hk. apply Hkn. intros r c'. rewrite (eqv_classes g g1 Q1). apply Hk.
  - intros e He. destruct (Hs e) as (e' & [Hsy Hno] & He' & Hve); [by apply (uf_equiv_sat T e g)|]. exists e'. split_and!; [split; [done|]|done|].
    + intros j Hj. apply Hno. by apply (uf_equiv_in g g1 j Q1).
    + rewrite Hve, <- (Hv e He). by apply (sat_nodes T e i c (sat_class T e g He i c Hc)).
Qed.

(** A visit of the graph [g] with the constants [K], after which the classes
    in [F] are constant. *)
Definition cp_good T (g : EGraph) (K : gset Z) : Prop := cp_inv T g K /\ known g K.
Definition visited T (g : EGraph) (F : Z -> Prop) (r : result Propagator) : Prop :=
  exists p T', r = Ok p /\ cp_good T' (p_graph p) (p_constants p) /\ sound_step T g T' (p_graph p) /\
    cp_step g (p_graph p) /\ forall i, F i -> const_class (p_graph p) i.
Lemma cp_good_equiv T g g' K : uf_equiv g g' -> cp_good T g K -> cp_good T g' K.
Proof. intros Q [HI Hk]. split; [by apply (cp_equiv T g)|]. intros r c. rewrite (eqv_classes g g' Q). apply Hk. Qed.
Lemma visited_equiv T g g' K (F : Z -> Prop) :
  cp_good T g K -> uf_equiv g g' -> (forall i, F i -> in_graph g i /\ const_class g i) -> visited T g F (Ok (mkPropagator g' K)).
Proof.
  intros HI Q HF. exists (mkPropagator g' K), T.
  split_and!; [done|by apply (cp_good_equiv T g)|by apply uf_equiv_step; [apply HI|]|by apply cp_step_equiv|].
  intros i [Hi Hc]%HF. by apply (const_class_equiv g g' i Q).
Qed.
Lemma visited_after T g g' F r : eg_inv T g -> uf_equiv g g' -> visited T g' F r -> visited T g F r.
Proof.
  intros Hg Q (p & T' & Er & HI & Hs & Hst & HF). destruct (uf_equiv_step T g g' Hg Q) as (I' & X & S').
  exists p, T'. split_and!; [done..| |apply (cp_step_trans T g T g'); [done|done|by apply cp_step_equiv|done]|done].
  by apply (sound_step_trans T g T g').
Qed.
Lemma foldable_equiv T g g' i c n :
  eg_inv T g -> uf_equiv g g' -> classes g !! i = Some c -> n ∈ nodes c -> foldable g n -> foldable g' n.
Proof.
  intros Hg Q Hc Hin [Hf Ho]. split; [done|]. pose proof (entry_operands T g n i (class_nodes T g i c (inv_class T g Hg i c Hc) n Hin)) as Hops.
  rewrite !Forall_forall in *. intros j Hj. apply (const_class_equiv g g' j Q); auto.
Qed.

Lemma visit_nodes_ok T g K i c ns :
  cp_good T g K -> classes g !! i = Some c -> (forall n, n ∈ ns -> n ∈ nodes c) ->
  visited T g (fun j => j = i /\ exists n, n ∈ ns /\ foldable g n) (visit_nodes (mkPropagator g K) i ns).
Proof.
  revert g. induction ns as [|n ns IH]; intros g HI Hc Hns; cbn [visit_nodes p_graph p_constants].
  { apply visited_equiv; [done|apply uf_equiv_refl, (inv_uf T g), HI|]. intros j (_ & n & Hn & _). by apply elem_of_nil in Hn. }
  pose proof (cp_graph T g K (proj1 HI)) as Hg. assert (n ∈ nodes c) as Hn by (apply Hns; by left).
  destruct (tryFoldNode_ok T g K i c n (proj1 HI) Hc Hn) as (r & g1 & T1 & -> & Hnone & Hfold & Hsome). rewrite ok_bind. cbv beta iota.
  destruct r as [m|].
  - destruct (Hsome m eq_refl) as (HI1 & X & Hm & Hcm & Tm & St1 & Hkn1 & Hs1). clear Hnone Hsome Hfold IH.
    assert (in_graph g i) as Hi by (apply (inv_dom T g Hg); eauto).
    assert (in_graph g1 i) as Hi1 by (unfold in_graph in *; pose proof (ext_size _ _ _ _ X); lia).
    destruct (cp_merge T1 g1 K m i HI1 Hm Hcm Hi1) as (g2 & -> & HI2 & X2 & St2 & Hci & Hkn2 & Hs2); [rewrite Tm; symmetry; by apply (ext_type _ _ _ _ X)|].
    rewrite ok_bind. cbv beta iota. set (r := grep g1 m) in *. eexists _, T1. split; [done|]. cbn [p_graph p_constants].
    destruct (cp_constants T1 g2 _ HI2 r) as [Hr _]; [set_solver|].
    destruct (set_worklist_step T1 g2 (worklist g2 ++ [r])) as (I3 & _ & S3);
      [apply HI2|apply Forall_app; split; [apply (inv_worklist T1 g2), HI2|by apply Forall_singleton]|].
    specialize (Hkn2 (Hkn1 (proj2 HI))). split_and!.
    + split; [|done]. destruct HI2 as [_ ? ? ? ?]. by split.
    + split_and!; [done|destruct (extends_trans T g T1 g1 T1 g2 X X2); by split|]. intros e He. destruct (Hs1 e He) as (e1 & E1 & He1 & Hv).
      assert (eg_sat T1 e1 g2) as He2 by (apply Hs2; [done|]; rewrite Hv; symmetry; by apply (ext_node _ _ _ E1)).
      exists e1. split; [done|]. destruct He2 as [? ? ? ?]. by split.
    + destruct (cp_step_trans T g T1 g1 g2 X Hg St1 St2). by split.
    + intros j [-> _]. done.
  - specialize (Hnone eq_refl). apply (visited_after T g g1); [done..|].
    destruct (IH g1) as (p & T' & Er & Hp & Hs & Hst & HF); [by apply (cp_good_equiv T g)|by rewrite (eqv_classes g g1 Hnone)|intros m Hm; apply Hns; by right|].
    exists p, T'. split_and!; [done..|]. intros j (-> & n' & [->|Hn']%elem_of_cons & Hf); [by destruct (Hfold (proj2 HI) Hf)|].
    apply HF. split; [done|]. exists n'. split; [done|]. apply (foldable_equiv T g g1 i c); try done. apply Hns. by right.
Qed.
(** The class [i] has a node to fold. *)
Definition to_fold (g : EGraph) (i : Z) : Prop :=
  exists c n, classes g !! i = Some c /\ n ∈ nodes c /\ foldable g n.
Lemma to_fold_step T g g' i : eg_inv T g -> cp_step g g' -> to_fold g i -> to_fold g' i \/ const_class g' i.
Proof.
  intros Hg [Hc Hk] (c & n & Hi & Hn & Hf & Ho). destruct (Hk i c Hi) as [Hi'|]; [left|by right]. exists c, n. split_and!; [done..|]. split; [done|].
  pose proof (entry_operands T g n i (class_nodes T g i c (inv_class T g Hg i c Hi) n Hn)) as Hops. rewrite !Forall_forall in *. auto.
Qed.
Lemma cp_visit_ok T g K i :
  cp_good T g K -> in_graph g i -> visited T g (fun j => j = i /\ to_fold g i) (cp_visit (mkPropagator g K) i).
Proof.
  intros HI Hi. pose proof (cp_graph T g K (proj1 HI)) as Hg. unfold cp_visit. cbn [p_graph p_constants].
  destruct (eg_find_ok g i (inv_uf T g Hg) Hi) as (g1 & -> & Q1). rewrite ok_bind. cbv beta iota.
  destruct (Z.eqb_spec i (grep g i)) as [Hr|Hr]; cbn [negb].
  2: { apply visited_equiv; [done..|]. intros j (_ & c & n & Hc & _). destruct Hr. symmetry. apply (inv_dom T g Hg). eauto. }
  case_decide as HK; [apply visited_equiv; [done..|]; intros j [-> _]; by apply (cp_constants T g K (proj1 HI))|].
  unfold eg_get. destruct (eg_find_ok g1 i) as (g2 & -> & Q2); [apply (eqv_uf g g1 Q1)|by apply (uf_equiv_in g g1)|].
  pose proof (uf_equiv_trans g g1 g2 Q1 Q2) as Q. rewrite !ok_bind. cbv beta iota. rewrite (eqv_rep g g1 Q1), <- Hr, (eqv_classes g g2 Q) by done.
  destruct (proj2 (inv_dom T g Hg i) (conj Hi (eq_sym Hr))) as [c Hc]. rewrite Hc. cbn [fmap option_fmap option_map of_option]. rewrite ok_bind. cbv beta iota.
  apply (visited_after T g g2); [done..|].
  destruct (visit_nodes_ok T g2 K i c (nodes c)) as (p & T' & Er & Hp & Hs & Hst & HF); [by apply (cp_good_equiv T g)|by rewrite (eqv_classes g g2 Q)|done|].
  exists p, T'. split_and!; [done..|]. intros j (-> & c' & n & Hc' & Hn & Hf). rewrite Hc in Hc'. injection Hc' as <-.
  apply HF. split; [done|]. exists n. split; [done|by apply (foldable_equiv T g g2 i c)].
Qed.
Lemma visit_all_ok T g K queue :
  cp_good T g K -> Forall (in_graph g) queue -> visited T g (fun i => i ∈ queue /\ to_fold g i) (visit_all (mkPropagator g K) queue).
Proof.
  revert T g K. induction queue as [|i queue IH]; intros T g K HI Hq; cbn [visit_all].
  { apply visited_equiv; [done|apply uf_equiv_refl, (inv_uf T g), HI|]. intros j [Hj _]. by apply elem_of_nil in Hj. }
  apply Forall_cons in Hq as [Hi Hq]. pose proof (cp_graph T g K (proj1 HI)) as Hg.
  destruct (cp_visit_ok T g K i HI Hi) as ([g1 K1] & T1 & -> & HI1 & S1 & St1 & F1). rewrite ok_bind. cbn [p_graph p_constants] in *.
  destruct S1 as (I1 & X1 & S1). assert (forall j, in_graph g j -> in_graph g1 j) as Hin by (intros j; pose proof (ext_size _ _ _ _ X1); unfold in_graph; lia).
  destruct (IH T1 g1 K1 HI1) as (p & T2 & -> & HI2 & S2 & St2 & F2); [eapply Forall_impl; [exact Hq|done]|].
  exists p, T2. split_and!; [done..|by apply (sound_step_trans T g T1 g1)|by apply (cp_step_trans T g T1 g1)|].
  intros j [Hj Hf]. assert (in_graph g j) as Hgj by (destruct Hf as (c & _ & Hc & _); apply (inv_dom T g Hg); eauto).
  apply elem_of_cons in Hj as [->|Hj]; [apply (step_const _ _ St2); auto|].
  destruct (to_fold_step T g g1 j Hg St1 Hf) as [Hf'|Hc']; [auto|apply (step_const _ _ St2); auto].
Qed.

Lemma constprop_ok T g :
  eg_inv T g -> front_constant g -> hash_constant g -> no_division g ->
  exists g' T', constprop g = Ok g' /\ sound_step T g T' g' /\ front_constant g' /\ hash_constant g' /\ no_division g' /\
    forall i, in_graph g i -> const_class g i \/ to_fold g i -> const_class g' i.
Proof.
  intros Hg Hf Hh Hd. unfold constprop. set (order := map_order (map_to_list (classes g))).
  assert (forall i c, (i, c) ∈ order <-> classes g !! i = Some c) as Ho.
  { intros i c. unfold order. rewrite map_order_perm. apply elem_of_map_to_list. }
  assert (forall i, is_Some (classes g !! i) -> in_graph g i /\ grep g i = i) as Hdom by (intros i; apply (inv_dom T g Hg)).
  edestruct (visit_all_ok T g) as (p & T' & -> & HI & Hs & Hst & HF).
  - split; [split; try done|].
    + intros i. rewrite elem_of_list_to_set. intros ([j c] & -> & [Hk Hin%Ho]%list_elem_of_filter)%list_elem_of_fmap. cbn.
      destruct (Hdom j) as [Hj Hr]; [eauto|]. split; [done|]. exists c. by rewrite Hr.
    + intros r c Hr Hk. apply elem_of_list_to_set, list_elem_of_fmap. exists (r, c). split; [done|]. apply list_elem_of_filter. by rewrite Ho.
  - apply Forall_forall. intros i ([j c] & -> & [_ Hin%Ho]%list_elem_of_filter)%list_elem_of_fmap. apply Hdom. eauto.
  - rewrite ok_bind. exists (p_graph p), T'. destruct HI as [[_ ? ? ? _] _]. split_and!; try done.
    intros i Hi Hc. apply (fun K => or_ind (fun c => step_const _ _ Hst i Hi c) K Hc). intros Hfold.
    destruct Hfold as (c & n & Hc' & Hn & Hfn) eqn:Hfe. destruct (eclass_is_constant c) eqn:Ek.
    + apply (step_const _ _ Hst i Hi). exists c. by rewrite (proj2 (Hdom i (ex_intro _ c Hc'))).
    + apply HF. split; [|done]. apply list_elem_of_fmap. exists (i, c). split; [done|]. apply list_elem_of_filter. by rewrite Ho.
Qed.
End steps.

Section contracts.
Context `{PtrEq} `{!DataPtrEq} `{MapOrder} `{MathExtrasAPI}.

(** C18: Constant propagation terminates without an assertion on a sound graph
    without divisions in which the constant of a constant class is its first
    node and the constants of the hash table belong to constant classes
    ([front_constant], [hash_constant]).
    Every environment of the graph extends to the new one, so only equal
    classes were merged, and a class with a foldable node over constant classes
    has become constant. *)
Theorem constprop_correct T g :
  eg_inv T g -> front_constant g -> hash_constant g -> no_division g ->
  exists g' T', constprop g = Ok g' /\ eg_inv T' g' /\ front_constant g' /\ hash_constant g' /\ no_division g' /\
    extends T g T' g' /\ (forall e, eg_sat T e g -> exists e', env_extends g e e' /\ eg_sat T' e' g') /\
    forall i, in_graph g i -> const_class g i \/ to_fold g i -> const_class g' i.
Proof.
  intros Hg Hf Hh Hd. destruct (constprop_ok T g Hg Hf Hh Hd) as (g' & T' & E & (I' & X & S') & F1 & F2 & F3 & Hfold).
  exists g', T'. by split_and!.
Qed.
End contracts.

Module constprop_witness.
Import egraph_witness.
Definition int8 (v : Z) : Operation := mkOp (mkData OpConstantInt (ity 8) (PInt (APInt_of 8 v))) [].
Definition bin8 (o : Opcode) (x y : Operation) : Operation := mkOp (mkData o (ity 8) NoPayload) [x; y].
Lemma int8_wf v : wf (int8 v).
Proof. constructor; [constructor|]. exists (APInt_of 8 v). rewrite APInt_of_width by done. done. Qed.
Lemma int8_clean v : clean (mkData OpConstantInt (ity 8) (PInt (APInt_of 8 v))).
Proof. unfold clean. cbn [od_opcode od_payload od_type]. by rewrite APInt_of_width by done. Qed.
Lemma int8_fits T g v : op_fits T g (int8 v).
Proof. apply fits_node; [done|apply int8_clean|constructor]. Qed.
Lemma bin8_wf o u v : o ∈ [OpAdd; OpUDiv] -> wf (bin8 o (int8 u) (int8 v)).
Proof.
  intros Ho. constructor; [constructor; [apply int8_wf|constructor; [apply int8_wf|constructor]]|].
  set_unfold in Ho. destruct Ho as [->|[->|[]]]; by exists 8.
Qed.
Lemma bin8_fits o T g u v : o ∈ [OpAdd; OpUDiv] -> op_fits T g (bin8 o (int8 u) (int8 v)).
Proof.
  intros Ho. set_unfold in Ho. apply fits_node; [by destruct Ho as [->|[->|[]]]|by destruct Ho as [->|[->|[]]]|].
  constructor; [apply int8_fits|constructor; [apply int8_fits|constructor]].
Qed.

(** 2, 3 and 2 + 3 as class 2. *)
Definition gsum : EGraph := with_expr (bin8 OpAdd (int8 2) (int8 3)) eg_empty.
Lemma gsum_inv : exists T, eg_inv T gsum.
Proof.
  destruct (add_step (bin8 OpAdd (int8 2) (int8 3)) T0 eg_empty) as (T & I & _);
    [apply bin8_wf; vm_decide|apply bin8_fits; vm_decide|apply empty_inv|]. exists T. exact I.
Qed.
Definition constant_at (g : EGraph) (i : Z) : bool :=
  match classes g !! rep (union_find g) i with Some c => eclass_is_constant c | None => false end.
Lemma constant_at_spec g i : constant_at g i = true <-> const_class g i.
Proof.
  unfold constant_at, const_class. destruct (classes g !! _) as [c|]; split; [by exists c|by intros (? & [= ->] & ?)|done|by intros (? & ? & _)].
Qed.
Definition front_check (g : EGraph) : bool :=
  bool_decide (map_Forall (fun _ c => implb (eclass_is_constant c) match hd_error (nodes c) with Some n => enode_is_constant n | None => false end = true)
    (classes g)).
Lemma front_check_spec g : front_check g = true -> front_constant g.
Proof.
  unfold front_check. rewrite bool_decide_eq_true. intros K i c Hc Hk. specialize (K i c Hc). cbn in K. rewrite Hk in K. cbn in K.
  destruct (hd_error (nodes c)) as [n|]; [by exists n|done].
Qed.
Definition hash_check (g : EGraph) : bool := forallb (fun p => implb (enode_is_constant p.1) (constant_at g p.2)) (hashcons g).
Lemma hash_check_spec g : hash_check g = true -> hash_constant g.
Proof.
  unfold hash_check. rewrite forallb_forall. intros K n p Hp Hn. apply list_elem_of_In, K in Hp. cbn in Hp. rewrite Hn in Hp.
  by apply constant_at_spec.
Qed.
Definition division_check (g : EGraph) : bool :=
  bool_decide (map_Forall (fun _ c => forallb (fun n => negb (is_division (od_opcode (en_data n)))) (nodes c) = true) (classes g)).
Lemma division_check_spec g : division_check g = true -> no_division g.
Proof.
  unfold division_check. rewrite bool_decide_eq_true. intros K i c n Hc Hn. specialize (K i c Hc). cbn in K.
  rewrite forallb_forall in K. apply negb_true_iff, K. by apply list_elem_of_In.
Qed.
Definition fold_check (g : EGraph) (i : Z) : bool :=
  match classes g !! i with
  | Some c => existsb (fun n => match fold_func (en_data n) with Some _ => forallb (constant_at g) (en_operands n) | None => false end) (nodes c)
  | None => false
  end.
Lemma fold_check_spec g i : fold_check g i = true -> to_fold g i.
Proof.
  unfold fold_check. destruct (classes g !! i) as [c|] eqn:Ec; [|done]. rewrite existsb_exists. intros (n & Hn & Hf). exists c, n.
  split_and!; [done|by apply list_elem_of_In|]. unfold foldable. destruct (fold_func (en_data n)); [|done]. split; [by eexists|].
  apply Forall_forall. intros j Hj. rewrite forallb_forall in Hf. by apply constant_at_spec, Hf, list_elem_of_In.
Qed.

(** The sum is folded to 5. *)
Lemma constprop_correct_witness :
  constant_at gsum 2 = false /\ exists T g', constprop gsum = Ok g' /\ eg_inv T g' /\ const_class g' 2.
Proof.
  split; [vm_decide|]. destruct gsum_inv as (T & I).
  destruct (constprop_correct T gsum I) as (g' & T' & E & I' & _ & _ & _ & _ & _ & Hf).
  - apply front_check_spec. vm_decide.
  - apply hash_check_spec. vm_decide.
  - apply division_check_spec. vm_decide.
  - exists T', g'. split; [exact E|]. split; [exact I'|]. apply Hf; [unfold in_graph; vm_decide|]. right. apply fold_check_spec. vm_decide.
Defined.

(** The conditions of the division rules are the wrong way round: a non-zero
    divisor is taken for the quotient, and 8 / 2 becomes the class of 2. *)
Definition gdiv : EGraph := with_expr (bin8 OpUDiv (int8 8) (int8 2)) eg_empty.
Definition same_class (r : result EGraph) (i j : Z) : option bool :=
  match r with Ok g => Some (rep (union_find g) i =? rep (union_find g) j) | Err _ => None end.
Lemma gdiv_merged : same_class (constprop gdiv) 2 1 = Some true.
Proof. vm_cast_no_check (@eq_refl (option bool) (Some true)). Qed.
Definition front_node (g : EGraph) (i : Z) : option ENode := c ← classes g !! i; hd_error (nodes c).
Lemma front_value T e g i n : eg_sat T e g -> front_node g i = Some n -> env_node e i = denote e (node_op T n).
Proof.
  intros Hs Hn. unfold front_node in Hn. destruct (classes g !! i) as [c|] eqn:Hc; [|done]. cbn in Hn. symmetry.
  apply (sat_nodes T e i c (sat_class T e g Hs i c Hc)). destruct (nodes c); [done|]. injection Hn as ->. by left.
Qed.
Lemma constprop_division_unsound :
  exists g', constprop gdiv = Ok g' /\ rep (union_find g') 2 = rep (union_find g') 1 /\
    forall T e, eg_sat T e gdiv -> env_node e 2 <> env_node e 1.
Proof.
  pose proof gdiv_merged as K. destruct (constprop gdiv) as [g'|err]; [|discriminate K]. exists g'. split; [exact eq_refl|].
  injection K as K%Z.eqb_eq. split; [exact K|]. intros T e Hs.
  assert (front_node gdiv 0 = Some (mkNode (op_data (int8 8)) []) /\ front_node gdiv 1 = Some (mkNode (op_data (int8 2)) []) /\
    front_node gdiv 2 = Some (mkNode (mkData OpUDiv (ity 8) NoPayload) [0; 1])) as (F0 & F1 & F2) by vm_decide.
  pose proof (front_value T e gdiv 0 _ Hs F0) as V0. pose proof (front_value T e gdiv 1 _ Hs F1) as V1.
  rewrite (front_value T e gdiv 2 _ Hs F2), (node_value T e gdiv _ Hs) by (repeat constructor; unfold in_graph; vm_decide).
  cbn [en_data en_operands fmap list_fmap]. rewrite V0, V1. vm_decide.
Qed.

(** The constant of a constant class is read off its first node: with x merged
    with 5 the propagation of !x fails its cast. *)
Definition g5 : EGraph := (or_empty (eg_merge (with_expr (int8 5) (with_expr (not8 (sym8 "x")) eg_empty)) 0 2)).2.
Lemma constprop_front_fails : constprop g5 = Err AssertFailed.
Proof. vm_cast_no_check (@eq_refl (result EGraph) (Err AssertFailed)). Qed.
End constprop_witness.
