(* ===== verification/EMatching.v ===== *)
(** Rewriting of e-graphs: patterns and their builder
    (include/caffeine/IR/EGraphMatching.h, src/IR/EGraphMatching.cpp,
    src/IR/EMatching/Filters.cpp) and the engine that applies rules until
    nothing changes (src/IR/EGraphMatcher.cpp).

    [Operation::Invalid], which matches every opcode, is [None].  Node pointers
    are nodes: the vector of nodes of a class does not move while rules are
    applied.  [equality_saturation] takes fuel, one unit a round; the code has
    no bound on the rounds. *)
From stdpp Require Import sorting.
From S2P Require Import Prelude LLVM IRType Value Opcode Operation Matching Create Semantics.
From S2P Require Import Simplifier UnionFind EGraph EGraphSound EGraphRebuild GraphAssertions Constprop.
Open Scope Z_scope.

(** Reading and writing a vector at a [size_t] index. *)
Definition at_z {A} (l : list A) (i : Z) : option A := if i <? 0 then None else l !! Z.to_nat i.

Section ematching.
Context `{PtrEq} `{!DataPtrEq} `{MapOrder} `{MathExtrasAPI} `{Config}.

(** ** Patterns *)
Inductive SubClauseFilter : Type :=
| IdenticalOperandsFilter
| ConstantOperandFilter (value : APInt).
Definition filter_matches (f : SubClauseFilter) (node : ENode) : result bool :=
  match f with
  | IdenticalOperandsFilter =>
      Ok match en_operands node with [] => true | i :: _ => forallb (fun o => o =? i) (en_operands node) end
  | ConstantOperandFilter value =>
      match constant_int_data (en_data node) with
      | None => Ok false
      | Some a => w ← bitwidth (od_type (en_data node)); Ok (ap_eq a (ap_sextOrTrunc value w))
      end
  end.

Record SubClause : Type := mkSubClause {
  sc_opcode : option Opcode;
  sc_submatchers : list Z;
  sc_filter : option SubClauseFilter;
  sc_capture : bool
}.
Definition is_potential_match (c : SubClause) (node : ENode) : result bool :=
  if bool_decide (sc_opcode c <> Some (od_opcode (en_data node))) && bool_decide (sc_opcode c <> None) then Ok false
  else match sc_filter c with None => Ok true | Some f => filter_matches f node end.
(** [operator==] compares the addresses of the filters. *)
Definition subclause_eqb (a b : SubClause) : bool :=
  bool_decide (sc_opcode a = sc_opcode b) && bool_decide (sc_submatchers a = sc_submatchers b) &&
  match sc_filter a, sc_filter b with None, None => true | _, _ => false end.

(** ** What matched *)
Definition ClauseData : Type := gmap Z (list Z).
Definition MatchData : Type := list ClauseData.
Definition contains_match (d : MatchData) (subclause eclass : Z) : bool :=
  match at_z d subclause with None => false | Some m => bool_decide (is_Some (m !! eclass)) end.
Definition md_matches (d : MatchData) (subclause : Z) : result ClauseData := of_option Thrown (at_z d subclause).
Definition md_matches_at (d : MatchData) (subclause eclass : Z) : result (list Z) :=
  m ← md_matches d subclause; Ok (default [] (m !! eclass)).

(** ** The view of the graph that rules get: merges are put off *)
Definition CapturesMap : Type := gmap Z (list ENode).
Record GraphAccessor : Type := mkAccessor {
  a_graph : EGraph;
  a_data : MatchData;
  a_captures : CapturesMap;
  a_merges : list (Z * Z)
}.
Definition with_graph (a : GraphAccessor) (g : EGraph) : GraphAccessor := mkAccessor g (a_data a) (a_captures a) (a_merges a).
Definition with_captures (a : GraphAccessor) (c : CapturesMap) : GraphAccessor := mkAccessor (a_graph a) (a_data a) c (a_merges a).
Fixpoint merge_all (g : EGraph) (merges : list (Z * Z)) : result EGraph :=
  match merges with
  | [] => Ok g
  | (lhs, rhs) :: merges => '(_, g) ← eg_merge g lhs rhs; merge_all g merges
  end.
Definition persist (a : GraphAccessor) : result GraphAccessor :=
  g ← merge_all (a_graph a) (a_merges a); Ok (mkAccessor g (a_data a) (a_captures a) []).
Definition acc_merge (a : GraphAccessor) (id1 id2 : Z) : GraphAccessor :=
  if id1 =? id2 then a else mkAccessor (a_graph a) (a_data a) (a_captures a) (a_merges a ++ [(id1, id2)]).
Definition acc_add (a : GraphAccessor) (enode : ENode) : result (Z * GraphAccessor) :=
  '(id, g) ← eg_add (a_graph a) enode; Ok (id, with_graph a g).
Definition acc_add_op (a : GraphAccessor) (op : Operation) : result (Z * GraphAccessor) :=
  '(id, g) ← eg_add_op op (a_graph a); Ok (id, with_graph a g).
Definition acc_add_merge (a : GraphAccessor) (eclass : Z) (enode : ENode) : result GraphAccessor :=
  '(id, a) ← acc_add a enode; Ok (acc_merge a eclass id).
Definition acc_add_merge_op (a : GraphAccessor) (eclass : Z) (op : Operation) : result GraphAccessor :=
  '(id, a) ← acc_add_op a op; Ok (acc_merge a eclass id).
(** [*get(eclass)]: no class is a null pointer. *)
Definition acc_get (a : GraphAccessor) (eclass : Z) : result (EClass * GraphAccessor) :=
  '(c, g) ← eg_get (a_graph a) eclass; '(_, c) ← of_option UndefinedBehaviour c; Ok (c, with_graph a g).
Definition acc_get_op (a : GraphAccessor) (eclass : Z) : result (Operation * GraphAccessor) :=
  '(c, a) ← acc_get a eclass; t ← eclass_type c; op ← EGraphNode_Create simplify t eclass; Ok (op, a).
Definition acc_capture (a : GraphAccessor) (subclause : Z) : result ENode :=
  match a_captures a !! subclause with Some [n] => Ok n | _ => Err AssertFailed end.
Definition acc_captures (a : GraphAccessor) (subclause : Z) : result (list ENode) :=
  match a_captures a !! subclause with Some (n :: ns) => Ok (n :: ns) | _ => Err AssertFailed end.

(** ** Rules and their builder *)
Record Clause : Type := mkClause {
  cl_matcher : Z;
  cl_filter : option (GraphAccessor -> ENode -> bool);
  cl_update : GraphAccessor -> Z -> Z -> result GraphAccessor
}.
Record EMatcherBuilder : Type := mkBuilder {
  subclause_id : Z;
  b_clauses : list Clause;
  b_subclauses : list (SubClause * Z)
}.
Definition empty_builder : EMatcherBuilder := mkBuilder 0 [] [].

(** The hash of a clause is any function of it; a lookup compares hashes
    before it compares clauses. *)
Class ClauseHash := clause_hash : SubClause -> Z.
Context {hash : ClauseHash}.
Definition same_clause (a b : SubClause) : bool := (clause_hash a =? clause_hash b) && subclause_eqb a b.
Definition add_clause (b : EMatcherBuilder) (opcode : option Opcode) (submatchers : list Z) (filter : option SubClauseFilter)
    (is_capture : bool) : result (Z * EMatcherBuilder) :=
  assert_ (forallb (fun s => s <? subclause_id b) submatchers) ;;
  let clause := mkSubClause opcode submatchers filter is_capture in
  Ok match hm_find same_clause (b_subclauses b) clause with
     | Some id => (id, b)
     | None => (subclause_id b, mkBuilder (subclause_id b + 1) (b_clauses b) (b_subclauses b ++ [(clause, subclause_id b)]))
     end.
Definition add_any (b : EMatcherBuilder) : result (Z * EMatcherBuilder) := add_clause b None [] None false.
Definition add_capture (b : EMatcherBuilder) (opcode : Opcode) (submatchers : list Z) : result (Z * EMatcherBuilder) :=
  add_clause b (Some opcode) submatchers None true.
Definition add_matcher (b : EMatcherBuilder) (clause : Z) (update : GraphAccessor -> Z -> Z -> result GraphAccessor) : EMatcherBuilder :=
  mkBuilder (subclause_id b) (b_clauses b ++ [mkClause clause None update]) (b_subclauses b).

Record EMatcher : Type := mkMatcher {
  m_clauses : list Clause;
  m_subclauses : list SubClause;
  m_captures : list bool;
  m_subindex : list (option Opcode * list Z)
}.
Definition opcode_eqb (a b : option Opcode) : bool := bool_decide (a = b).
(** [subindex[opcode].push_back(i)]. *)
Definition push_index (m : list (option Opcode * list Z)) (o : option Opcode) (i : Z) : list (option Opcode * list Z) :=
  hm_assign opcode_eqb m o (default [] (hm_find opcode_eqb m o) ++ [i]).
Fixpoint number_clauses (i : Z) (cs : list SubClause) (m : list (option Opcode * list Z)) : list (option Opcode * list Z) :=
  match cs with [] => m | c :: cs => number_clauses (i + 1) cs (push_index m (sc_opcode c) i) end.
(** Whether a clause or one below it captures. *)
Fixpoint build_captures (cs : list SubClause) (captures : list bool) : result (list bool) :=
  match cs with
  | [] => Ok captures
  | c :: cs =>
      below ← mapM (fun s => of_option Thrown (at_z captures s)) (if sc_capture c then [] else sc_submatchers c);
      build_captures cs (captures ++ [sc_capture c || existsb id below])
  end.
Definition id_order (p q : SubClause * Z) : Prop := p.2 <= q.2.
#[export] Instance id_order_dec p q : Decision (id_order p q).
Proof. unfold id_order. apply _. Defined.
Definition build_matcher (b : EMatcherBuilder) : result EMatcher :=
  let sorted := merge_sort id_order (map_order (b_subclauses b)) in
  captures ← build_captures sorted.*1 [];
  Ok (mkMatcher (b_clauses b) sorted.*1 captures (number_clauses 0 sorted.*1 [])).
Definition m_clause (m : EMatcher) (clause : Z) : result Clause := of_option Thrown (at_z (m_clauses m) clause).
Definition m_subclause (m : EMatcher) (subclause : Z) : result SubClause := of_option Thrown (at_z (m_subclauses m) subclause).

(** ** The engine *)
Record EGraphMatcher : Type := mkEM {
  potentials : gmap Z (list (Z * Z));
  reversed : gmap Z (list Z)
}.
Definition matching_clauses (m : EMatcher) (o : option Opcode) : list Z := default [] (hm_find opcode_eqb (m_subindex m) o).

(** [potentials[clause].erase(eclass)] for the clauses recorded for a class. *)
Fixpoint erase_potentials (ps : gmap Z (list (Z * Z))) (clauses : list Z) (eclass_id : Z) : gmap Z (list (Z * Z)) :=
  match clauses with
  | [] => ps
  | k :: clauses => erase_potentials (<[k := filter (fun p => p.1 <> eclass_id) (default [] (ps !! k))]> ps) clauses eclass_id
  end.
Fixpoint potential_clauses (m : EMatcher) (st : EGraphMatcher) (eclass_id node_id : Z) (node : ENode) (clauses : list Z) : result EGraphMatcher :=
  match clauses with
  | [] => Ok st
  | k :: clauses =>
      clause ← of_option UndefinedBehaviour (at_z (m_subclauses m) k);
      ok ← is_potential_match clause node;
      potential_clauses m
        (if ok : bool then
           mkEM (<[k := default [] (potentials st !! k) ++ [(eclass_id, node_id)]]> (potentials st))
                (<[eclass_id := default [] (reversed st !! eclass_id) ++ [k]]> (reversed st))
         else st) eclass_id node_id node clauses
  end.
Fixpoint potential_nodes (m : EMatcher) (st : EGraphMatcher) (eclass_id node_id : Z) (ns : list ENode) : result EGraphMatcher :=
  match ns with
  | [] => Ok st
  | n :: ns =>
      st ← potential_clauses m st eclass_id node_id n (matching_clauses m None ++ matching_clauses m (Some (od_opcode (en_data n))));
      potential_nodes m st eclass_id (node_id + 1) ns
  end.
Definition update_eclass_potential_matches (m : EMatcher) (st : EGraphMatcher) (g : EGraph) (eclass_id : Z) :
    result (EGraphMatcher * EGraph) :=
  '(c, g) ← eg_get g eclass_id; '(_, eclass) ← of_option UndefinedBehaviour c;
  let clauses := default [] (reversed st !! eclass_id) in
  let st := mkEM (erase_potentials (potentials st) clauses eclass_id) (<[eclass_id := clauses]> (reversed st)) in
  '(r, g) ← eg_find g eclass_id;
  if negb (r =? eclass_id) then Ok (st, g)
  else st ← potential_nodes m st eclass_id 0 (nodes eclass); Ok (st, g).
Fixpoint update_classes (m : EMatcher) (st : EGraphMatcher) (g : EGraph) (ids : list Z) : result (EGraphMatcher * EGraph) :=
  match ids with
  | [] => Ok (st, g)
  | i :: ids => '(st, g) ← update_eclass_potential_matches m st g i; update_classes m st g ids
  end.
Definition update_potential_matches (m : EMatcher) (st : EGraphMatcher) (g : EGraph) : result (EGraphMatcher * EGraph) :=
  if decide (potentials st = ∅) then update_classes m st g (map_order (map_to_list (classes g)).*1)
  else update_classes m st g (map_order (elements (updated g))).

(** [find_matches]: the operands of the node match the clauses below. *)
Fixpoint operands_match (ms : MatchData) (submatchers operands : list Z) : bool :=
  match submatchers, operands with
  | s :: submatchers, o :: operands => contains_match ms s o && operands_match ms submatchers operands
  | _, _ => true
  end.
Fixpoint match_potentials (ms : MatchData) (clause : SubClause) (g : EGraph) (ps : list (Z * Z)) (clause_matches : ClauseData) :
    result (ClauseData * EGraph) :=
  match ps with
  | [] => Ok (clause_matches, g)
  | (eclass_id, enode_id) :: ps =>
      '(c, g) ← eg_get g eclass_id; '(_, eclass) ← of_option UndefinedBehaviour c;
      enode ← of_option Thrown (at_z (nodes eclass) enode_id);
      let fits := bool_decide (sc_submatchers clause = []) ||
        ((length (sc_submatchers clause) =? length (en_operands enode))%nat && operands_match ms (sc_submatchers clause) (en_operands enode)) in
      match_potentials ms clause g ps
        (if fits then <[eclass_id := default [] (clause_matches !! eclass_id) ++ [enode_id]]> clause_matches else clause_matches)
  end.
Fixpoint find_clauses (st : EGraphMatcher) (g : EGraph) (clause_id : Z) (cs : list SubClause) (ms : MatchData) : result (MatchData * EGraph) :=
  match cs with
  | [] => Ok (ms, g)
  | clause :: cs =>
      match potentials st !! clause_id with
      | None => find_clauses st g (clause_id + 1) cs (ms ++ [∅])
      | Some ps => '(cm, g) ← match_potentials ms clause g (map_order ps) ∅; find_clauses st g (clause_id + 1) cs (ms ++ [cm])
      end
  end.
Definition find_matches (m : EMatcher) (st : EGraphMatcher) (g : EGraph) : result (MatchData * EGraph) :=
  find_clauses st g 0 (m_subclauses m) [].

Definition WorkItem : Type := Z * Z * Z.
Fixpoint work_nodes (clause : Clause) (subclause : SubClause) (d : MatchData) (g : EGraph) (clause_id eclass_id : Z) (ids : list Z) :
    result (list WorkItem * EGraph) :=
  match ids with
  | [] => Ok ([], g)
  | enode_id :: ids =>
      '(c, g) ← eg_get g eclass_id; '(_, eclass) ← of_option UndefinedBehaviour c;
      enode ← of_option UndefinedBehaviour (at_z (nodes eclass) enode_id);
      assert_ (match sc_opcode subclause with None => true | Some o => bool_decide (od_opcode (en_data enode) = o) end) ;;
      let skip := match cl_filter clause with None => false | Some f => negb (f (mkAccessor g d ∅ []) enode) end in
      '(items, g) ← work_nodes clause subclause d g clause_id eclass_id ids;
      Ok (if skip then items else (clause_id, eclass_id, enode_id) :: items, g)
  end.
Fixpoint work_classes (clause : Clause) (subclause : SubClause) (d : MatchData) (g : EGraph) (clause_id : Z) (ms : list (Z * list Z)) :
    result (list WorkItem * EGraph) :=
  match ms with
  | [] => Ok ([], g)
  | (eclass_id, enodes) :: ms =>
      '(r, g) ← eg_find g eclass_id;
      '(items, g) ← (if negb (r =? eclass_id) then Ok ([], g)
                     else if decide (eclass_id ∉ updated g) then Ok ([], g)
                     else work_nodes clause subclause d g clause_id eclass_id enodes);
      '(rest, g) ← work_classes clause subclause d g clause_id ms; Ok (items ++ rest, g)
  end.
Fixpoint work_clauses (m : EMatcher) (d : MatchData) (g : EGraph) (clause_id : Z) (cs : list Clause) : result (list WorkItem * EGraph) :=
  match cs with
  | [] => Ok ([], g)
  | clause :: cs =>
      subclause ← of_option UndefinedBehaviour (at_z (m_subclauses m) (cl_matcher clause));
      ms ← md_matches d (cl_matcher clause);
      '(items, g) ← work_classes clause subclause d g clause_id (map_order (map_to_list ms));
      '(rest, g) ← work_clauses m d g (clause_id + 1) cs; Ok (items ++ rest, g)
  end.
Definition matching_work_items (m : EMatcher) (d : MatchData) (g : EGraph) : result (list WorkItem * EGraph) :=
  work_clauses m d g 0 (m_clauses m).

(** [all_captures_impl] calls [func] once for every choice of captured nodes;
    the clauses below have smaller ids, so the number of clauses bounds the
    nesting. *)
Definition push_capture (a : GraphAccessor) (k : Z) (n : ENode) : GraphAccessor :=
  with_captures a (<[k := default [] (a_captures a !! k) ++ [n]]> (a_captures a)).
Definition pop_capture (a : GraphAccessor) (k : Z) : result GraphAccessor :=
  ns ← of_option Thrown (a_captures a !! k); assert_ (negb (bool_decide (ns = []))) ;;
  Ok (with_captures a (<[k := removelast ns]> (a_captures a))).
Definition drop_empty_capture (a : GraphAccessor) (k : Z) : GraphAccessor :=
  match a_captures a !! k with Some [] => with_captures a (delete k (a_captures a)) | _ => a end.
(** The local function [iterate]. *)
Fixpoint iterate (impl : Z -> Z -> (GraphAccessor -> result GraphAccessor) -> GraphAccessor -> result GraphAccessor)
    (submatchers operands : list Z) (func : GraphAccessor -> result GraphAccessor) (a : GraphAccessor) : result GraphAccessor :=
  match submatchers with
  | [] => func a
  | s :: submatchers =>
      match operands with
      | [] => Err UndefinedBehaviour
      | o :: operands => impl s o (iterate impl submatchers operands func) a
      end
  end.
Fixpoint each_match (sc : SubClause) (k : Z) (eclass : option EClass)
    (step : ENode -> GraphAccessor -> result GraphAccessor) (ids : list Z) (a : GraphAccessor) : result GraphAccessor :=
  match ids with
  | [] => Ok a
  | i :: ids =>
      c ← of_option UndefinedBehaviour eclass; node ← of_option Thrown (at_z (nodes c) i);
      a ← step node (if sc_capture sc then push_capture a k node else a);
      a ← (if sc_capture sc then pop_capture a k else Ok a);
      each_match sc k eclass step ids a
  end.
Fixpoint all_captures_impl (fuel : nat) (m : EMatcher) (data : MatchData) (k eclass_id : Z)
    (func : GraphAccessor -> result GraphAccessor) (a : GraphAccessor) : result GraphAccessor :=
  match fuel with
  | O => Err OutOfFuel
  | S n =>
      captured ← of_option UndefinedBehaviour (at_z (m_captures m) k);
      if negb captured then func a
      else
        sc ← m_subclause m k; '(c, g) ← eg_get (a_graph a) eclass_id;
        ids ← md_matches_at data k eclass_id;
        a ← each_match sc k (snd <$> c)
              (fun node => iterate (all_captures_impl n m data) (sc_submatchers sc) (en_operands node) func) ids (with_graph a g);
        Ok (drop_empty_capture a k)
  end.
Definition all_captures (m : EMatcher) (data : MatchData) (k eclass_id enode_id : Z)
    (func : GraphAccessor -> result GraphAccessor) (a : GraphAccessor) : result GraphAccessor :=
  '(c, a) ← acc_get a eclass_id; enode ← of_option Thrown (at_z (nodes c) enode_id); sc ← m_subclause m k;
  let a := match a_captures a !! k with Some _ => a | None => with_captures a (<[k := [enode]]> (a_captures a)) end in
  captured ← of_option Thrown (at_z (m_captures m) k);
  a ← (if negb captured then func a
       else iterate (all_captures_impl (length (m_subclauses m)) m data) (sc_submatchers sc) (en_operands enode) func a);
  Ok (with_captures a ∅).

Fixpoint apply_rules (m : EMatcher) (work : list WorkItem) (a : GraphAccessor) : result GraphAccessor :=
  match work with
  | [] => Ok a
  | (clause_id, eclass_id, enode_id) :: work =>
      clause ← of_option UndefinedBehaviour (at_z (m_clauses m) clause_id);
      a ← all_captures m (a_data a) (cl_matcher clause) eclass_id enode_id (fun a => cl_update clause a eclass_id enode_id) a;
      apply_rules m work a
  end.
Definition clear_updated (g : EGraph) : EGraph := mkGraph (union_find g) (hashcons g) (classes g) ∅ (worklist g).
Fixpoint saturate (fuel : nat) (m : EMatcher) (st : EGraphMatcher) (g : EGraph) : result EGraph :=
  if decide (updated g = ∅) then Ok g
  else
    match fuel with
    | O => Err OutOfFuel
    | S n =>
        '(st, g) ← update_potential_matches m st g;
        '(data, g) ← find_matches m st g;
        '(work, g) ← matching_work_items m data g;
        a ← apply_rules m work (mkAccessor (clear_updated g) data ∅ []);
        a ← persist a; g ← constprop (a_graph a); g ← rebuild g;
        saturate n m st g
    end.
Definition equality_saturation (fuel : nat) (m : EMatcher) (g : EGraph) : result EGraph :=
  g ← constprop g; g ← rebuild g; saturate fuel m (mkEM ∅ ∅) g.
(** [EGraph::simplify]. *)
Definition eg_simplify (fuel : nat) (m : EMatcher) (g : EGraph) : result EGraph := equality_saturation fuel m g.
End ematching.
