(* ===== verification/Rewrites.v ===== *)
(** The rewrite rules of the e-graph: src/IR/EMatching/AllMatchers.cpp and
    src/IR/EMatching/Rewrites.

    A rule adds its patterns to the builder and a function that runs on every
    match; the ids of the patterns are known to that function. *)
From stdpp Require Import sorting.
From S2P Require Import Prelude LLVM IRType Value Opcode Operation Matching Create Semantics.
From S2P Require Import Simplifier UnionFind EGraph EGraphSound EGraphRebuild Extract GraphAssertions Constprop EMatching.
Open Scope Z_scope.

Section rewrites.
Context `{PtrEq} `{!DataPtrEq} `{MapOrder} `{MathExtrasAPI} `{Config} {hash : ClauseHash}.

(** [egraph.get(eclass)->nodes[index]], or with [at], which throws, and
    [node.operands[i]]. *)
Definition node_or (out : error) (a : GraphAccessor) (eclass_id enode_id : Z) : result (ENode * GraphAccessor) :=
  '(c, a) ← acc_get a eclass_id; n ← of_option out (at_z (nodes c) enode_id); Ok (n, a).
Definition node_at : GraphAccessor -> Z -> Z -> result (ENode * GraphAccessor) := node_or UndefinedBehaviour.
Definition operand (n : ENode) (i : nat) : result Z := of_option UndefinedBehaviour (en_operands n !! i).
Definition constant_node (a : APInt) : result ENode := d ← ConstantIntData a; Ok (mkNode d []).
Definition as_constant_int (n : ENode) : result APInt := of_option AssertFailed (constant_int_data (en_data n)).

(** *** Commutativity *)
Definition commute (a : GraphAccessor) (eclass_id node_id : Z) : result GraphAccessor :=
  '(node, a) ← node_at a eclass_id node_id; y ← operand node 1; x ← operand node 0;
  acc_add_merge a eclass_id (mkNode (en_data node) [y; x]).
Definition commutativity_op (opcode : Opcode) (b : EMatcherBuilder) : result EMatcherBuilder :=
  '(clause, b) ← add_clause b (Some opcode) [] None false; Ok (add_matcher b clause commute).
Definition for_opcodes (rule : Opcode -> EMatcherBuilder -> result EMatcherBuilder) : list Opcode -> EMatcherBuilder -> result EMatcherBuilder :=
  fix go os b := match os with [] => Ok b | o :: os => b ← rule o b; go os b end.
Definition commutativity : EMatcherBuilder -> result EMatcherBuilder :=
  for_opcodes commutativity_op
    [OpAdd; OpMul; OpAnd; OpOr; OpXor; OpFAdd; OpFSub; OpFMul; OpICmp EQ; OpICmp NE; OpFCmp FEQ; OpFCmp FNE].

(** *** Associativity: the operands are collected along the cheapest nodes,
    sorted and added again.  A path longer than the number of classes repeats
    a class, and the recursion does not end. *)
Fixpoint assoc_rewrite (fuel : nat) (opcode : Opcode) (a : GraphAccessor) (stack : list Z) (eclass_id : Z) : result (list Z * GraphAccessor) :=
  match fuel with
  | O => Err OutOfFuel
  | S n =>
      '(c, a) ← acc_get a eclass_id;
      cost ← of_option UndefinedBehaviour (cache_cost (cache c));
      enode ← of_option UndefinedBehaviour (at_z (nodes c) cost.2);
      if bool_decide (od_opcode (en_data enode) = opcode) then
        x ← operand enode 0; '(stack, a) ← assoc_rewrite n opcode a stack x;
        y ← operand enode 1; assoc_rewrite n opcode a stack y
      else Ok (stack ++ [eclass_id], a)
  end.
(** [compare]: constants first, then by id. *)
Definition assoc_less (p q : bool * Z) : bool := if xorb p.1 q.1 then p.1 else p.2 <? q.2.
Definition assoc_order (p q : bool * Z) : Prop := assoc_less q p = false.
#[export] Instance assoc_order_dec p q : Decision (assoc_order p q).
Proof. unfold assoc_order. apply _. Defined.
(** The keys [compare] looks up; that its lookups shorten paths of the
    union-find once more is left out. *)
Fixpoint assoc_keys (a : GraphAccessor) (items : list Z) : result (list (bool * Z) * GraphAccessor) :=
  match items with
  | [] => Ok ([], a)
  | i :: items => '(c, a) ← acc_get a i; '(ks, a) ← assoc_keys a items; Ok ((eclass_is_constant c, i) :: ks, a)
  end.
Fixpoint assoc_chain (a : GraphAccessor) (data : OperationData) (eclass : Z) (items : list Z) : result (Z * GraphAccessor) :=
  match items with
  | [] => Ok (eclass, a)
  | i :: items => '(eclass, a) ← acc_add a (mkNode data [eclass; i]); assoc_chain a data eclass items
  end.
Definition assoc_emit (opcode : Opcode) (original : Z) (stack : list Z) (a : GraphAccessor) : result GraphAccessor :=
  '(ks, a) ← assoc_keys a stack;
  match (merge_sort assoc_order ks).*2 with
  | [] => Err UndefinedBehaviour
  | first :: items =>
      '(c, a) ← acc_get a first; t ← eclass_type c;
      '(eclass, a) ← assoc_chain a (mkData opcode t NoPayload) first items;
      Ok (acc_merge a original eclass)
  end.
Definition associate (opcode : Opcode) (a : GraphAccessor) (eclass_id enode_id : Z) : result GraphAccessor :=
  let x := Extractor_ctor (a_graph a) false in
  '(_, x) ← eval_cost (class_fuel x) x eclass_id; let a := with_graph a (x_graph x) in
  '(enode, a) ← node_at a eclass_id enode_id; let fuel := S (size (classes (a_graph a))) in
  l ← operand enode 0; '(stack, a) ← assoc_rewrite fuel opcode a [] l;
  r ← operand enode 1; '(stack, a) ← assoc_rewrite fuel opcode a stack r;
  assoc_emit opcode eclass_id stack a.
Definition associativity_op (opcode : Opcode) (b : EMatcherBuilder) : result EMatcherBuilder :=
  '(clause, b) ← add_clause b (Some opcode) [] None false; Ok (add_matcher b clause (associate opcode)).
Definition associativity : EMatcherBuilder -> result EMatcherBuilder :=
  for_opcodes associativity_op [OpAdd; OpMul; OpAnd; OpOr; OpXor; OpFAdd; OpFSub; OpFMul].

(** *** Operations on equal operands *)
Definition to_zero (a : GraphAccessor) (eclass_id enode_id : Z) : result GraphAccessor :=
  '(c, a) ← acc_get a eclass_id; t ← eclass_type c; w ← bitwidth t;
  n ← constant_node (getNullValue w); acc_add_merge a eclass_id n.
Definition eliminate_to_zero (opcode : Opcode) (b : EMatcherBuilder) : result EMatcherBuilder :=
  '(clause, b) ← add_clause b (Some opcode) [] (Some IdenticalOperandsFilter) false; Ok (add_matcher b clause to_zero).
Definition to_operand (out : error) (i : nat) (a : GraphAccessor) (eclass_id enode_id : Z) : result GraphAccessor :=
  '(enode, a) ← node_or out a eclass_id enode_id; x ← operand enode i; Ok (acc_merge a eclass_id x).
Definition eliminate_to_operand (opcode : Opcode) (b : EMatcherBuilder) : result EMatcherBuilder :=
  '(clause, b) ← add_clause b (Some opcode) [] (Some IdenticalOperandsFilter) false; Ok (add_matcher b clause (to_operand UndefinedBehaviour 0)).
Definition sub_elimination := eliminate_to_zero OpSub.
Definition xor_elimination := eliminate_to_zero OpXor.
Definition and_elimination := eliminate_to_operand OpAnd.
Definition or_elimination := eliminate_to_operand OpOr.
Definition and_zero_elimination (b : EMatcherBuilder) : result EMatcherBuilder :=
  '(lhs, b) ← add_any b;
  '(rhs, b) ← add_clause b (Some OpConstantInt) [] (Some (ConstantOperandFilter (getNullValue 1))) false;
  '(clause, b) ← add_clause b (Some OpAnd) [lhs; rhs] None false; Ok (add_matcher b clause (to_operand Thrown 1)).

(** *** Comparisons; [APInt::getAllOnesValue] is [getMaxValue]. *)
Definition to_bool (value : bool) (a : GraphAccessor) (eclass_id enode_id : Z) : result GraphAccessor :=
  n ← constant_node (if value then getMaxValue 1 else getNullValue 1); acc_add_merge a eclass_id n.
Definition eliminate_to_bool (value : bool) (opcode : Opcode) (b : EMatcherBuilder) : result EMatcherBuilder :=
  '(clause, b) ← add_clause b (Some opcode) [] (Some IdenticalOperandsFilter) false; Ok (add_matcher b clause (to_bool value)).
Definition compare_select (icmpeq select : Z) (a : GraphAccessor) (eclass_id enode_id : Z) : result GraphAccessor :=
  inode ← acc_capture a icmpeq; snode ← acc_capture a select;
  s1 ← operand snode 1; s2 ← operand snode 2;
  if s1 =? s2 then Ok a
  else
    i1 ← operand inode 1; s0 ← operand snode 0;
    if s1 =? i1 then Ok (acc_merge a eclass_id s0)
    else if s2 =? i1 then '(x, a) ← acc_get_op a s0; op ← CreateNot simplify x; acc_add_merge_op a eclass_id op
    else Ok a.
Definition icmpeq_select_elimination (b : EMatcherBuilder) : result EMatcherBuilder :=
  '(any, b) ← add_any b; '(iconst, b) ← add_clause b (Some OpConstantInt) [] None false;
  '(select, b) ← add_capture b OpSelect [any; iconst; iconst];
  '(icmpeq, b) ← add_capture b (OpICmp EQ) [select; iconst];
  Ok (add_matcher b icmpeq (compare_select icmpeq select)).
Definition icmp_bools : list (Opcode * bool) :=
  [(OpICmp EQ, true); (OpICmp NE, false); (OpICmp UGT, false); (OpICmp UGE, true); (OpICmp ULT, false); (OpICmp ULE, true);
   (OpICmp SGT, false); (OpICmp SGE, true); (OpICmp SLT, false); (OpICmp SLE, true)].
Fixpoint eliminate_all_to_bool (os : list (Opcode * bool)) (b : EMatcherBuilder) : result EMatcherBuilder :=
  match os with [] => Ok b | (o, v) :: os => b ← eliminate_to_bool v o b; eliminate_all_to_bool os b end.
Definition icmp_eliminations (b : EMatcherBuilder) : result EMatcherBuilder :=
  b ← eliminate_all_to_bool icmp_bools b; icmpeq_select_elimination b.

(** *** Changes of width *)
Definition mask_truncated (trunc zext : Z) (a : GraphAccessor) (eclass_id enode_id : Z) : result GraphAccessor :=
  tnode ← acc_capture a trunc; znode ← acc_capture a zext;
  x ← operand tnode 0; '(x, a) ← acc_get_op a x; l ← CreateTruncOrZExt simplify (od_type (en_data znode)) x;
  zw ← bitwidth (od_type (en_data znode)); tw ← bitwidth (od_type (en_data tnode));
  r ← ConstantInt_Create simplify (getLowBitsSet zw tw);
  op ← CreateAnd simplify l r; acc_add_merge_op a eclass_id op.
Definition zext_trunc_elimination (b : EMatcherBuilder) : result EMatcherBuilder :=
  '(trunc, b) ← add_capture b OpTrunc []; '(zext, b) ← add_capture b OpZExt [trunc];
  Ok (add_matcher b zext (mask_truncated trunc zext)).
Definition truncate_extended (zext trunc : Z) (a : GraphAccessor) (eclass_id enode_id : Z) : result GraphAccessor :=
  znode ← acc_capture a zext; tnode ← acc_capture a trunc;
  x ← operand znode 0; '(x, a) ← acc_get_op a x; op ← CreateTruncOrZExt simplify (od_type (en_data tnode)) x;
  acc_add_merge_op a eclass_id op.
Definition trunc_zext_elimination (b : EMatcherBuilder) : result EMatcherBuilder :=
  '(zext, b) ← add_capture b OpZExt []; '(trunc, b) ← add_capture b OpTrunc [zext];
  Ok (add_matcher b trunc (truncate_extended zext trunc)).

(** *** Selections and loads *)
Definition select_branch (a : GraphAccessor) (eclass_id enode_id : Z) : result GraphAccessor :=
  '(enode, a) ← node_at a eclass_id enode_id; c ← operand enode 0; '(cclass, a) ← acc_get a c;
  i ← of_option UndefinedBehaviour (constant_index cclass); cnode ← of_option UndefinedBehaviour (nodes cclass !! i);
  value ← as_constant_int cnode;
  x ← operand enode (if getBoolValue value then 1 else 2); Ok (acc_merge a eclass_id x).
Definition select_constprop (b : EMatcherBuilder) : result EMatcherBuilder :=
  '(any, b) ← add_any b; '(constant, b) ← add_clause b (Some OpConstantInt) [] None false;
  '(select, b) ← add_clause b (Some OpSelect) [constant; any; any] None false; Ok (add_matcher b select select_branch).
Fixpoint load_stores (load_enode : ENode) (store_class : EClass) (eclass_id : Z) (ids : list Z) (a : GraphAccessor) : result GraphAccessor :=
  match ids with
  | [] => Ok a
  | id :: ids =>
      store_node ← of_option Thrown (at_z (nodes store_class) id);
      s0 ← operand store_node 0; s1 ← operand store_node 1; s2 ← operand store_node 2; l1 ← operand load_enode 1;
      '(icmp, a) ← acc_add a (mkNode (mkData (OpICmp EQ) bool_ty NoPayload) [s1; l1]);
      '(load, a) ← acc_add a (mkNode (en_data load_enode) [s0; l1]);
      a ← acc_add_merge a eclass_id (mkNode (mkData OpSelect (od_type (en_data load_enode)) NoPayload) [icmp; s2; load]);
      load_stores load_enode store_class eclass_id ids a
  end.
Definition load_of_store (store : Z) (a : GraphAccessor) (eclass_id enode_id : Z) : result GraphAccessor :=
  '(load_enode, a) ← node_or Thrown a eclass_id enode_id;
  l0 ← operand load_enode 0; '(store_class, a) ← acc_get a l0;
  ids ← md_matches_at (a_data a) store l0; load_stores load_enode store_class eclass_id ids a.
Definition load_store_elimination (b : EMatcherBuilder) : result EMatcherBuilder :=
  '(any, b) ← add_any b; '(store, b) ← add_clause b (Some OpStore) [] None false;
  '(load, b) ← add_clause b (Some OpLoad) [store; any] None false; Ok (add_matcher b load (load_of_store store)).

(** *** Shifts; not one of the default rules. *)
Definition shift_pair (iconst lshr : Z) (a : GraphAccessor) (eclass_id enode_id : Z) : result GraphAccessor :=
  consts ← acc_captures a iconst;
  c0 ← of_option UndefinedBehaviour (consts !! 0%nat); rshift ← as_constant_int c0;
  c1 ← of_option UndefinedBehaviour (consts !! 1%nat); lshift ← as_constant_int c1;
  shiftop ← acc_capture a lshr; w ← bitwidth (od_type (en_data shiftop));
  let mask := ap_shl (ap_lshr (getMaxValue w) rshift) lshift in
  x ← operand shiftop 0; '(x, a) ← acc_get_op a x;
  v ← (if ap_eq rshift lshift then Ok x
       else if ap_ult rshift lshift then s ← ConstantInt_Create simplify (ap_sub lshift rshift); CreateShl simplify x s
       else s ← ConstantInt_Create simplify (ap_sub rshift lshift); CreateLShr simplify x s);
  m ← ConstantInt_Create simplify mask; op ← CreateAnd simplify v m; acc_add_merge_op a eclass_id op.
Definition shift_elimination (b : EMatcherBuilder) : result EMatcherBuilder :=
  '(any, b) ← add_any b; '(iconst, b) ← add_capture b OpConstantInt [];
  '(lshr, b) ← add_capture b OpLShr [any; iconst]; '(shl, b) ← add_clause b (Some OpShl) [lshr; iconst] None false;
  Ok (add_matcher b shl (shift_pair iconst lshr)).

Definition add_defaults (b : EMatcherBuilder) : result EMatcherBuilder :=
  b ← commutativity b; b ← associativity b;
  b ← sub_elimination b; b ← and_elimination b; b ← xor_elimination b; b ← or_elimination b; b ← icmp_eliminations b;
  b ← and_zero_elimination b; b ← zext_trunc_elimination b; b ← trunc_zext_elimination b;
  b ← select_constprop b; load_store_elimination b.
End rewrites.
