(* ===== verification/RewriteSound.v ===== *)
(** Soundness of rewriting: steps of an e-graph together with the environments
    in which it is sound, and the engine of EMatching.v over rules that keep
    them.

    [gstate T g E]: in every environment of [E] the graph [g] is sound and every
    class has a value.  A step may add classes, so it comes with a new typing
    and new environments, each of which extends an old one. *)
From S2P Require Import Prelude LLVM IRType Value Opcode Operation Matching Create Semantics.
From S2P Require Import Simplifier SimplifierInt SimplifierSound UnionFind EGraph EGraphSound EGraphRebuild Extract GraphAssertions Constprop EMatching.
Open Scope Z_scope.

(** Whether the graphs hold arrays and what folding may get wrong outside of
    bounds; the results hold both ways. *)
Class OpScope := with_arrays : bool.

Section steps.
Context `{PtrEq} `{!DataPtrEq} `{MapOrder} `{MathExtrasAPI} `{Config} `{!OpScope}.
#[local] Abbreviation grep g i := (rep (union_find g) i).
Implicit Types (T : Z -> Ty) (E : Env -> Prop).

(** Opcodes for which folding and the rules are right.  The folding of divisions
    is not; the rules take floating-point subtraction for commutative; and the
    rules that match a truncation, a selection or a load together with a node
    below it read that node at an index that an earlier merge may have made
    stale ([stale_capture_unsound] of Saturation.v). *)
Definition safe_opcode (o : Opcode) : bool :=
  match o with
  | OpUDiv | OpSDiv | OpURem | OpSRem | OpFAdd | OpFSub | OpFMul | OpFCmp FEQ | OpFCmp FNE => false
  | OpTrunc | OpSelect | OpLoad => false
  | OpAlloc | OpStore | OpFRem | OpFCmp _ => with_arrays
  | _ => true
  end.
Definition safe_node (n : ENode) : Prop := safe_opcode (od_opcode (en_data n)) = true.

Definition total (g : EGraph) (e : Env) : Prop := forall i, in_graph g i -> is_Some (env_node e i).
Record gstate T (g : EGraph) E : Prop := {
  gs_inv : eg_inv T g;
  gs_sat : forall e, E e -> eg_sat T e g;
  gs_total : forall e, E e -> total g e;
  gs_safe : nodes_all safe_node g
}.
Record gstep T (g : EGraph) E T' (g' : EGraph) E' : Prop := {
  gp_state : gstate T' g' E';
  gp_extends : extends T g T' g';
  gp_fwd : forall e, E e -> exists e', E' e' /\ env_extends g e e';
  gp_bwd : forall e', E' e' -> exists e, E e /\ env_extends g e e'
}.
Lemma gstep_refl T g E : gstate T g E -> gstep T g E T g E.
Proof. intros Hg. split; [done|apply extends_refl|..]; intros e He; exists e; (split; [done|apply env_extends_refl]). Qed.
Lemma gstep_trans T1 g1 E1 T2 g2 E2 T3 g3 E3 : gstep T1 g1 E1 T2 g2 E2 -> gstep T2 g2 E2 T3 g3 E3 -> gstep T1 g1 E1 T3 g3 E3.
Proof.
  intros [_ X1 F1 B1] [S2 X2 F2 B2]. pose proof (ext_size _ _ _ _ X1) as Hs. split; [done|by apply (extends_trans T1 g1 T2 g2)|..].
  - intros e He. destruct (F1 e He) as (e1 & He1 & K1). destruct (F2 e1 He1) as (e2 & He2 & K2). exists e2. split; [done|].
    by apply (env_extends_trans g1 g2 e e1 e2).
  - intros e He. destruct (B2 e He) as (e1 & He1 & K1). destruct (B1 e1 He1) as (e2 & He2 & K2). exists e2. split; [done|].
    by apply (env_extends_trans g1 g2 e2 e1 e).
Qed.
(** A step that adds no class. *)
Lemma gstep_same T g g' E :
  uf_size (union_find g') = uf_size (union_find g) -> gstate T g E ->
  eg_inv T g' -> (forall e, E e -> eg_sat T e g') -> nodes_all safe_node g' -> gstep T g E T g' E.
Proof.
  intros Hs [_ _ Ht _] Hi Hsat Hn. split; [split; try done| |..].
  - intros e He i Hin. apply Ht; [done|]. unfold in_graph in *. lia.
  - split; [lia|done].
  - intros e He. exists e. split; [done|apply env_extends_refl].
  - intros e He. exists e. split; [done|apply env_extends_refl].
Qed.
Lemma gstep_equiv T g g' E : gstate T g E -> uf_equiv g g' -> gstep T g E T g' E.
Proof.
  intros Hg Q. apply gstep_same; [apply Q|done|by apply (uf_equiv_inv T g), Hg| |apply (nodes_all_classes _ g); [apply Q|apply Hg]].
  intros e He. apply (uf_equiv_sat T e g g' Q). by apply Hg.
Qed.

(** *** Facts about classes that steps keep *)
Definition sem_entry T (g : EGraph) E (n : ENode) (i : Z) : Prop :=
  entry_ok T g n i /\ forall e, E e -> denote e (node_op T n) = env_node e i.
Lemma gstep_in T g E T' g' E' i : gstep T g E T' g' E' -> in_graph g i -> in_graph g' i.
Proof. intros [_ [Hs _] _ _]. unfold in_graph. lia. Qed.
Lemma sem_entry_step T g E T' g' E' n i : gstep T g E T' g' E' -> sem_entry T g E n i -> sem_entry T' g' E' n i.
Proof.
  intros [_ X _ B] [He Hv]. split; [by apply (extends_entry T g)|]. intros e' He'. destruct (B e' He') as (e & HE & K).
  rewrite (env_extends_value T g T' g' e e' n i), (Hv e HE); [|done..]. symmetry. apply (ext_node _ _ _ K), (entry_class T g n i He).
Qed.
Lemma class_entry T g E i c n : gstate T g E -> classes g !! i = Some c -> n ∈ nodes c -> sem_entry T g E n i.
Proof.
  intros Hg Hc Hn. split; [by apply (inv_class T g (gs_inv T g E Hg) i c Hc)|]. intros e He.
  by apply (sat_nodes T e i c (sat_class T e g (gs_sat T g E Hg e He) i c Hc)).
Qed.
Definition same_value E (i j : Z) : Prop := forall e, E e -> env_node e i = env_node e j.
Lemma same_value_step T g E T' g' E' i j :
  gstep T g E T' g' E' -> in_graph g i -> in_graph g j -> same_value E i j -> same_value E' i j.
Proof. intros [_ _ _ B] Hi Hj Hv e' (e & He & K)%B. rewrite !(ext_node _ _ _ K) by done. by apply Hv. Qed.

(** The classes keep their nodes while merges are put off. *)
Definition kept (g g' : EGraph) : Prop :=
  forall i c, classes g !! i = Some c -> exists c', classes g' !! i = Some c' /\ nodes c' = nodes c.
Lemma kept_refl g : kept g g.
Proof. intros i c Hc. by exists c. Qed.
Lemma kept_trans g1 g2 g3 : kept g1 g2 -> kept g2 g3 -> kept g1 g3.
Proof. intros K1 K2 i c (c1 & H1c & E1)%K1. destruct (K2 i c1 H1c) as (c2 & H2c & E2). exists c2. split; [done|congruence]. Qed.
Lemma kept_equiv g g' : uf_equiv g g' -> kept g g'.
Proof. intros Q i c. rewrite (eqv_classes g g' Q). intros Hc. by exists c. Qed.

(** ** Adding a node *)
Definition same_nodes (g g' : EGraph) : Prop := forall i, nodes <$> classes g' !! i = nodes <$> classes g !! i.
Lemma same_nodes_kept g g' : same_nodes g g' -> kept g g'.
Proof. intros Hs i c Hc. specialize (Hs i). rewrite Hc in Hs. apply fmap_Some in Hs as (c' & Hc' & En). by exists c'. Qed.
Lemma same_nodes_all P g g' : same_nodes g g' -> nodes_all P g -> nodes_all P g'.
Proof.
  intros Hs Hp i c n Hc Hn. specialize (Hs i). rewrite Hc in Hs. cbn in Hs. symmetry in Hs. apply fmap_Some in Hs as (c' & Hc' & En).
  apply (Hp i c'); [done|by rewrite <- En].
Qed.
Lemma add_parent_nodes g children n id g' :
  add_parent g children n id = Ok g' -> same_nodes g g' /\ union_find g' = union_find g.
Proof.
  revert g. induction children as [|i children IH]; intros g E; cbn [add_parent] in E; [by injection E as <-|].
  apply bind_Ok in E as (c & Hc & E). unfold eg_at in Hc. apply of_option_Ok in Hc. apply IH in E as [E1 E2]. split; [|done].
  intros j. rewrite E1. cbn. destruct (decide (i = j)) as [<-|]; [by rewrite lookup_insert_eq, Hc|by rewrite lookup_insert_ne].
Qed.
Lemma eg_add_shape T g n id g' :
  eg_inv T g -> Forall (in_graph g) (en_operands n) -> eg_add g n = Ok (id, g') ->
  (forall i, in_graph g' i -> in_graph g i \/ i = id) /\ kept g g' /\
  forall P : ENode -> Prop, (forall m m', en_data m = en_data m' -> P m -> P m') -> P n -> nodes_all P g -> nodes_all P g'.
Proof.
  intros Hg Ho E. unfold eg_add in E. destruct (canonicalize_ok g n (inv_uf T g Hg) Ho) as (g1 & E1 & Q1). rewrite E1, ok_bind in E. cbv beta iota in E.
  pose proof (eqv_size g g1 Q1) as Hsz. pose proof (eqv_classes g g1 Q1) as Hcl.
  destruct (hm_find enode_eqb (hashcons g1) (canon g n)) as [k|].
  - injection E as <- <-. split_and!; [|by apply kept_equiv|].
    + intros i Hi. left. unfold in_graph in *. lia.
    + intros P _ _. by apply nodes_all_classes.
  - cbn in E. apply bind_Ok in E as (g2 & E2 & [= <- <-]). apply add_parent_nodes in E2 as [Hn2 Hu2]. cbn in Hn2, Hu2.
    set (k := uf_size (union_find g1)) in *.
    assert (classes g1 !! k = None) as Hk.
    { destruct (classes g1 !! k) eqn:Ek; [|done]. assert (in_graph g1 k) as [_ ?] by (apply (inv_dom T g1 (uf_equiv_inv T g g1 Q1 Hg)); eauto). lia. }
    rewrite Hk in Hn2. split_and!.
    + intros i. unfold in_graph, uf_size. cbn. rewrite Hu2, length_app. cbn. unfold k, uf_size in *. lia.
    + intros i c Hi. specialize (Hn2 i). cbn in Hn2. rewrite lookup_insert_ne, Hcl, Hi in Hn2 by (rewrite <- Hcl in Hi; congruence).
      apply fmap_Some in Hn2 as (c' & Hc' & En). by exists c'.
    + intros P Hdata Hn Hp i c m Hc Hm. cbn in Hc. specialize (Hn2 i). rewrite Hc in Hn2. cbn in Hn2. symmetry in Hn2.
      apply fmap_Some in Hn2 as (c' & Hc' & En). rewrite En in Hm. apply lookup_insert_Some in Hc' as [[_ <-]|[_ Hc']].
      * cbn in Hm. apply list_elem_of_singleton in Hm as ->. by apply (Hdata n).
      * rewrite Hcl in Hc'. by apply (Hp i c').
Qed.
Lemma node_op_extends T g T' g' n : extends T g T' g' -> Forall (in_graph g) (en_operands n) -> node_op T' n = node_op T n.
Proof.
  intros [_ Hty] Ho. unfold node_op. f_equal. apply list_fmap_ext. intros k i Hi%list_elem_of_lookup_2. unfold leaf.
  rewrite Forall_forall in Ho. by rewrite Hty by auto.
Qed.
Lemma node_value_extends T g T' g' e e' n :
  extends T g T' g' -> env_extends g e e' -> clean (en_data n) -> Forall (in_graph g) (en_operands n) ->
  denote e' (node_op T' n) = denote e (node_op T n).
Proof.
  intros X K Hc Ho. rewrite (node_op_extends T g T' g') by done. cbn [node_op denote]. rewrite (denote_node_env _ e e') by (done || apply K). f_equal.
  rewrite <- !list_fmap_compose. apply list_fmap_ext. intros k i Hi%list_elem_of_lookup_2. rewrite Forall_forall in Ho. cbn.
  unfold denote_node. cbn. by rewrite (ext_node _ _ _ K) by auto.
Qed.
Lemma gstep_add T g E n id g' :
  gstate T g E -> clean (en_data n) -> wf (node_op T n) -> Forall (in_graph g) (en_operands n) -> safe_node n ->
  (forall e, E e -> is_Some (denote e (node_op T n))) -> eg_add g n = Ok (id, g') ->
  exists T' E', gstep T g E T' g' E' /\ kept g g' /\ sem_entry T' g' E' n id.
Proof.
  intros Hg Hc Hw Ho Hn Hd E0. pose proof (gs_inv T g E Hg) as Hi.
  destruct (eg_add_ok T g n Hi Hc Hw Ho) as (id' & g0 & T' & E1 & Hi' & X & _ & Hid & Ht & _ & Hs). rewrite E0 in E1. injection E1 as <- <-.
  destruct (eg_add_shape T g n id g' Hi Ho E0) as (Hin & Hk & Hp).
  assert (entry_ok T' g' n id) as Hent.
  { split; [done|by rewrite (node_op_extends T g T' g')| |done|by symmetry]. eapply Forall_impl; [exact Ho|].
    intros i. pose proof (ext_size _ _ _ _ X). unfold in_graph. lia. }
  exists T', (fun e' => exists e, E e /\ env_extends g e e' /\ eg_sat T' e' g' /\ env_node e' id = denote e (node_op T n)).
  split_and!; [split; [split| |..]|done|split; [done|]].
  - done.
  - by intros e' (e & _ & _ & Hs' & _).
  - intros e' (e & He & K & _ & Hv) i [Hi0| ->]%Hin.
    + rewrite (ext_node _ _ _ K) by done. by apply (gs_total T g E Hg).
    + rewrite Hv. by apply Hd.
  - apply Hp; [|done|apply Hg]. intros m m'. unfold safe_node. by intros ->.
  - done.
  - intros e He. destruct (Hs e) as (e' & K & Hs' & Hv); [by apply (gs_sat T g E Hg)|]. exists e'. split; [|done]. exists e. by split_and!.
  - intros e' (e & He & K & _). by exists e.
  - intros e' (e & He & K & Hs' & Hv). rewrite Hv. by apply (node_value_extends T g T' g').
Qed.

(** ** Merging *)
Lemma gstep_merge T g E i j r g' :
  gstate T g E -> in_graph g i -> in_graph g j -> T i = T j -> same_value E i j -> eg_merge g i j = Ok (r, g') ->
  gstep T g E T g' E /\ r = grep g i.
Proof.
  intros Hg Hi Hj Ht Hv E0. pose proof (gs_inv T g E Hg) as Hinv.
  destruct (eg_merge_ok T g i j Hinv Hi Hj Ht) as (g0 & E1 & Hi' & Hs & _ & _ & Hsat). rewrite E0 in E1. injection E1 as -> <-. split; [|done].
  apply gstep_same; [done|done|done|intros e He; apply Hsat; [by apply (gs_sat T g E Hg)|by apply Hv]|].
  apply (eg_merge_nodes _ g i j (grep g i)); [apply Hg|done].
Qed.
Definition merges_ok T (g : EGraph) E (ms : list (Z * Z)) : Prop :=
  Forall (fun p => in_graph g p.1 /\ in_graph g p.2 /\ T p.1 = T p.2 /\ same_value E p.1 p.2) ms.
Lemma merges_ok_step T g E T' g' E' ms : gstep T g E T' g' E' -> merges_ok T g E ms -> merges_ok T' g' E' ms.
Proof.
  intros Hs Hm. eapply Forall_impl; [exact Hm|]. intros [i j] (Hi & Hj & Ht & Hv). cbn in *.
  pose proof (gp_extends _ _ _ _ _ _ Hs) as [_ Hty]. split_and!; [by eapply gstep_in..|by rewrite !Hty|by eapply same_value_step].
Qed.
Lemma merge_all_ok T g E ms g' :
  gstate T g E -> merges_ok T g E ms -> merge_all g ms = Ok g' -> gstep T g E T g' E.
Proof.
  revert g. induction ms as [|[i j] ms IH]; intros g Hg Hm E0; cbn [merge_all] in E0; [injection E0 as <-; by apply gstep_refl|].
  apply Forall_cons in Hm as [(Hi & Hj & Ht & Hv) Hm]. apply bind_Ok in E0 as ([r g1] & E1 & E0).
  destruct (gstep_merge T g E i j r g1 Hg Hi Hj Ht Hv E1) as [S1 _]. apply (gstep_trans T g E T g1 E); [done|].
  apply IH; [apply S1|by apply (merges_ok_step T g E)|done].
Qed.

(** ** Rebuilding *)
Lemma find_classes P g i r g' : nodes_all P g -> eg_find g i = Ok (r, g') -> nodes_all P g'.
Proof. intros Hp E0. by apply (nodes_all_classes P g); [eapply eg_find_classes|]. Qed.
Lemma find_all_classes g ids rs g' : find_all g ids = Ok (rs, g') -> classes g' = classes g.
Proof.
  revert g rs. induction ids as [|i ids IH]; intros g rs E0; cbn [find_all] in E0; [by injection E0 as _ <-|].
  apply bind_Ok in E0 as ([r g1] & E1 & E0). apply bind_Ok in E0 as ([rs1 g2] & E2 & [= _ <-]). rewrite (IH _ _ E2). by eapply eg_find_classes.
Qed.
Lemma canonicalize_classes g n n' g' : canonicalize_node g n = Ok (n', g') -> classes g' = classes g /\ en_data n' = en_data n.
Proof.
  unfold canonicalize_node. intros E0. apply bind_Ok in E0 as ([ops g1] & E1 & [= <- <-]). split; [by eapply find_all_classes|done].
Qed.
Lemma eg_get_shape g i c g' : eg_get g i = Ok (c, g') -> classes g' = classes g /\ forall r x, c = Some (r, x) -> classes g !! r = Some x.
Proof.
  unfold eg_get. intros E0. apply bind_Ok in E0 as ([r g1] & E1 & [= <- <-]). pose proof (eg_find_classes _ _ _ _ E1) as Ec. split; [done|].
  rewrite Ec. intros r' x. destruct (classes g !! r) eqn:Er; cbn; [|done]. by intros [= <- <-].
Qed.
Section data_predicate.
Context (P : ENode -> Prop) (Hdata : forall m m', en_data m = en_data m' -> P m -> P m').
Lemma set_class_nodes g r c c' :
  nodes_all P g -> classes g !! r = Some c -> (forall n, n ∈ nodes c' -> P n) -> nodes_all P (set_classes g (<[r := c']> (classes g))).
Proof. intros Hp Hc Hn i x n Hx Hin. cbn in Hx. apply lookup_insert_Some in Hx as [[_ <-]|[_ Hx]]; [auto|by apply (Hp i x)]. Qed.
Lemma unparent_operands_nodes g ops n g' : nodes_all P g -> unparent_operands g ops n = Ok g' -> nodes_all P g'.
Proof.
  revert g. induction ops as [|i ops IH]; intros g Hp E0; cbn [unparent_operands] in E0; [by injection E0 as <-|].
  apply bind_Ok in E0 as ([c g1] & E1 & E0). apply bind_Ok in E0 as ([r x] & Hx%of_option_Ok & E0). apply eg_get_shape in E1 as [Ec Hc].
  apply (IH _) in E0; [done|]. apply (set_class_nodes g1 r x); [by apply (nodes_all_classes P g)|rewrite Ec; by apply Hc|].
  cbn. intros m Hm. apply (Hp r x); [by apply Hc|done].
Qed.
Lemma unparent_nodes_nodes g ns g' : nodes_all P g -> unparent_nodes g ns = Ok g' -> nodes_all P g'.
Proof.
  revert g. induction ns as [|n ns IH]; intros g Hp E0; cbn [unparent_nodes] in E0; [by injection E0 as <-|].
  apply bind_Ok in E0 as (g1 & E1 & E0). apply (IH g1); [by eapply unparent_operands_nodes|done].
Qed.
Lemma unparent_all g i g' : nodes_all P g -> unparent g i = Ok g' -> nodes_all P g'.
Proof.
  unfold unparent. intros Hp E0. apply bind_Ok in E0 as (c & _ & E0). apply bind_Ok in E0 as (k & _ & E0).
  destruct (length (nodes c) =? 1)%nat; [by injection E0 as <-|]. apply bind_Ok in E0 as (g1 & E1 & E0). apply bind_Ok in E0 as (c1 & Hc1%of_option_Ok & E0).
  apply bind_Ok in E0 as (n & Hn%of_option_Ok & [= <-]). apply unparent_nodes_nodes in E1; [|done].
  apply (set_class_nodes g1 i c1); [done|done|]. cbn. intros m ->%list_elem_of_singleton. apply (E1 i c1); [done|by eapply list_elem_of_lookup_2].
Qed.
Lemma repair_hashcons_classes g ps g' : repair_hashcons g ps = Ok g' -> classes g' = classes g.
Proof.
  revert g. induction ps as [|[n p] ps IH]; intros g E0; cbn [repair_hashcons] in E0; [by injection E0 as <-|].
  apply bind_Ok in E0 as ([n' g1] & E1 & E0). apply bind_Ok in E0 as ([r g2] & E2 & E0). apply IH in E0. cbn in E0.
  apply canonicalize_classes in E1 as [Ec _]. apply eg_find_classes in E2. cbn in E2. congruence.
Qed.
Lemma repair_parents_nodes g i orig ps new new' g' : nodes_all P g -> repair_parents g i orig ps new = Ok (new', g') -> nodes_all P g'.
Proof.
  revert g new. induction ps as [|[n p] ps IH]; intros g new Hp E0; cbn [repair_parents] in E0; [by injection E0 as _ <-|].
  apply bind_Ok in E0 as ([n' g1] & E1 & E0). apply canonicalize_classes in E1 as [Ec _]. apply (nodes_all_classes P g g1 Ec) in Hp.
  apply bind_Ok in E0 as ([new1 g2] & E2 & E0). apply (IH g2 new1); [|done]. destruct (hm_find enode_eqb new n') as [other|].
  - apply bind_Ok in E2 as ([id g3] & E3 & E2). apply bind_Ok in E2 as (c & _ & E2). apply bind_Ok in E2 as ([] & _ & [= _ <-]). by eapply eg_merge_nodes.
  - apply bind_Ok in E2 as ([r g3] & E3 & [= _ <-]). by eapply find_classes.
Qed.
Lemma canonicalize_all_nodes g ns ns' g' :
  canonicalize_all g ns = Ok (ns', g') -> (forall n, n ∈ ns -> P n) -> classes g' = classes g /\ forall n, n ∈ ns' -> P n.
Proof.
  revert g ns'. induction ns as [|n ns IH]; intros g ns' E0 Hp; cbn [canonicalize_all] in E0; [injection E0 as <- <-; split; [done|set_solver]|].
  apply bind_Ok in E0 as ([n1 g1] & E1 & E0). apply bind_Ok in E0 as ([ns1 g2] & E2 & [= <- <-]). apply canonicalize_classes in E1 as [Ec Ed].
  apply IH in E2 as [Ec2 Hp2]; [|set_solver]. split; [congruence|]. intros m [->|Hm]%elem_of_cons; [|auto]. apply (Hdata n); [done|]. apply Hp. by left.
Qed.
Lemma repair_nodes g i g' : nodes_all P g -> repair g i = Ok g' -> nodes_all P g'.
Proof.
  unfold repair. intros Hp E0. apply bind_Ok in E0 as (c & _ & E0). apply bind_Ok in E0 as (g1 & E1 & E0).
  assert (nodes_all P g1) as Hp1 by (destruct (eclass_is_constant c); [by eapply unparent_all|by injection E1 as <-]).
  apply bind_Ok in E0 as (c1 & _ & E0). cbv zeta in E0. apply bind_Ok in E0 as (g2 & E2 & E0). apply bind_Ok in E0 as ([new g3] & E3 & E0).
  apply bind_Ok in E0 as (c3 & Hc3%of_option_Ok & E0). apply bind_Ok in E0 as ([ns g4] & E4 & [= <-]).
  apply (nodes_all_classes P g1 g2) in Hp1; [|by eapply repair_hashcons_classes]. apply repair_parents_nodes in E3; [|done].
  apply canonicalize_all_nodes in E4 as [Ec4 Hn4]; [|intros n Hn; by apply (E3 i c3)].
  apply (set_class_nodes g4 i c3); [by apply (nodes_all_classes P g3)|congruence|done].
Qed.
Lemma rebuild_todo_nodes g todo stack stack' g' : nodes_all P g -> rebuild_todo g todo stack = Ok (stack', g') -> nodes_all P g'.
Proof.
  revert g stack. induction todo as [|i todo IH]; intros g stack Hp E0; cbn [rebuild_todo] in E0; [by injection E0 as _ <-|].
  apply bind_Ok in E0 as ([r g1] & E1 & E0). apply bind_Ok in E0 as (g2 & E2 & E0). apply bind_Ok in E0 as (c & _ & E0).
  apply IH in E0; [done|]. eapply repair_nodes; [|done]. by eapply find_classes.
Qed.
Lemma rebuild_loop_nodes fuel g stack stack' g' : nodes_all P g -> rebuild_loop fuel g stack = Ok (stack', g') -> nodes_all P g'.
Proof.
  revert g stack. induction fuel as [|fuel IH]; intros g stack Hp E0; cbn [rebuild_loop] in E0; destruct (worklist g) as [|i todo];
    try (by injection E0 as _ <-); [done|]. apply bind_Ok in E0 as ([stack1 g1] & E1 & E0). apply (IH g1 stack1); [|done].
  eapply rebuild_todo_nodes; [|done]. done.
Qed.
Lemma clear_caches_nodes fuel g visited stack g' : nodes_all P g -> clear_caches fuel g visited stack = Ok g' -> nodes_all P g'.
Proof.
  revert g visited stack. induction fuel as [|fuel IH]; intros g visited [|id stack] Hp E0; cbn [clear_caches] in E0; try (by injection E0 as <-); [done|].
  case_decide; [by eapply IH|]. cbv zeta in E0. apply bind_Ok in E0 as ([c g1] & E1 & E0). apply bind_Ok in E0 as ([r x] & Hx%of_option_Ok & E0).
  apply eg_get_shape in E1 as [Ec Hc]. eapply IH; [|exact E0].
  assert (nodes_all P (set_classes g1 (<[r := mkClass (nodes x) (parents x) no_cache (constant_index x)]> (classes g1)))) as K; [|exact K].
  apply (set_class_nodes g1 r x); [by apply (nodes_all_classes P g)|rewrite Ec; by apply Hc|]. cbn. intros n Hn. apply (Hp r x); [by apply Hc|done].
Qed.
Lemma rebuild_nodes g g' : nodes_all P g -> rebuild g = Ok g' -> nodes_all P g'.
Proof.
  unfold rebuild. intros Hp E0. apply bind_Ok in E0 as ([stack g1] & E1 & E0). eapply clear_caches_nodes; [|done]. by eapply rebuild_loop_nodes.
Qed.
End data_predicate.
Lemma gstep_rebuild T g E g' : gstate T g E -> rebuild g = Ok g' -> gstep T g E T g' E.
Proof.
  intros Hg E0. pose proof (rebuild_ok E T g) as K. rewrite E0 in K. destruct K as ([Hi' Hs'] & _ & Hsz); [by split; [apply Hg|apply (gs_sat T g E Hg)]|].
  apply gstep_same; [done|done|done|done|]. apply (rebuild_nodes _) with (g := g); [intros m m'; unfold safe_node; by intros ->|apply Hg|done].
Qed.

(** ** Constant propagation, as far as it does not fail *)
Lemma safe_no_division o : safe_opcode o = true -> is_division o = false.
Proof. by destruct o. Qed.
Lemma all_constant_equiv g K ids b g' :
  uf_inv (union_find g) -> Forall (in_graph g) ids -> all_constant g K ids = Ok (b, g') -> uf_equiv g g'.
Proof. intros Hu Hi E0. destruct (all_constant_ok g K ids Hu Hi) as (b' & g1 & E1 & Q & _). congruence. Qed.
(** A class whose first node is a constant. *)
Lemma front_class_value T g E i c n a :
  gstate T g E -> in_graph g i -> classes g !! grep g i = Some c -> hd_error (nodes c) = Some n -> constant_int_data (en_data n) = Some a ->
  T i = ity (getBitWidth a) /\ forall e, E e -> env_node e i = Some (DInt a).
Proof.
  intros Hg Hi Hc Hn Ha. pose proof (gs_inv T g E Hg) as Hinv. assert (n ∈ nodes c) as Hin by (destruct (nodes c); [done|injection Hn as ->; by left]).
  destruct (class_entry T g E _ c n Hg Hc Hin) as [[Hcl Hw _ _ Ht] Hv]. rewrite (inv_type T g Hinv i Hi) in Ht.
  destruct n as [[o t p] ops]. unfold constant_int_data in Ha. cbn in Ha, Ht, Hcl, Hw. destruct o; try done. destruct p; try done. injection Ha as ->.
  unfold clean in Hcl. cbn in Hcl. split; [congruence|]. intros e He. rewrite <- (sat_rep T e g (gs_sat T g E Hg e He) i Hi), <- (Hv e He).
  inversion Hw as [? ? _ Hok]; subst. unfold node_ok in Hok. cbn in Hok. by destruct ops.
Qed.
Lemma constant_operands_partial T g E ids args g' :
  gstate T g E -> Forall (in_graph g) ids -> constant_operands g ids = Ok (args, g') ->
  uf_equiv g g' /\ Forall2 (fun i a => T i = ity (getBitWidth a)) ids args /\ forall e, E e -> env_node e <$> ids = Some ∘ DInt <$> args.
Proof.
  revert g args. induction ids as [|i ids IH]; intros g args Hg Hi E0; cbn [constant_operands] in E0.
  { injection E0 as <- <-. split_and!; [apply uf_equiv_refl, (inv_uf T g), Hg|constructor|done]. }
  apply Forall_cons in Hi as [Hi Hids]. unfold eg_get in E0.
  destruct (eg_find_ok g i (inv_uf T g (gs_inv T g E Hg)) Hi) as (g1 & E1 & Q1). rewrite E1, !ok_bind in E0. cbv beta iota in E0.
  apply bind_Ok in E0 as ([r c] & Hc%of_option_Ok & E0). apply bind_Ok in E0 as ([] & _ & E0).
  apply bind_Ok in E0 as (n & Hn%of_option_Ok & E0). apply bind_Ok in E0 as (a & Ha%of_option_Ok & E0).
  apply bind_Ok in E0 as ([args1 g2] & E2 & [= <- <-]).
  rewrite (eqv_classes g g1 Q1) in Hc. apply fmap_Some in Hc as (c' & Hc & [= -> ->]).
  destruct (front_class_value T g E i c' n a Hg Hi Hc Hn Ha) as [Ht Hv].
  destruct (IH g1 args1) as (Q2 & Hargs & Hvs); [apply (gstep_equiv T g g1 E Hg Q1)| |done|].
  { eapply Forall_impl; [exact Hids|]. intros j. apply (uf_equiv_in g g1 j Q1). }
  split_and!; [by apply (uf_equiv_trans g g1)|by constructor|]. intros e He. cbn. by rewrite Hv, Hvs.
Qed.
Lemma tryFoldNode_gstep T g E K i c n r g' :
  gstate T g E -> classes g !! i = Some c -> n ∈ nodes c -> tryFoldNode g K n = Ok (r, g') ->
  (r = None -> uf_equiv g g') /\
  forall m, r = Some m -> exists T' E', gstep T g E T' g' E' /\ in_graph g' m /\ T' m = T i /\ same_value E' m i.
Proof.
  intros Hg Hc Hin E0. pose proof (inv_uf T g (gs_inv T g E Hg)) as Hu. pose proof (class_entry T g E i c n Hg Hc Hin) as Hent.
  pose proof Hent as [[Hcl Hw Ho Hp Ht] Hv].
  unfold tryFoldNode in E0. destruct (fold_func (en_data n)) as [f|] eqn:Ef; [|injection E0 as <- <-; split; [intros _; by apply uf_equiv_refl|done]].
  apply bind_Ok in E0 as ([a g1] & E1 & E0). unfold tryFoldConstIntOperands in E1. apply bind_Ok in E1 as ([b g2] & E2 & E1).
  pose proof (all_constant_equiv g K _ b g2 Hu Ho E2) as Q2. pose proof (gstep_equiv T g g2 E Hg Q2) as S2.
  destruct b; [|injection E1 as <- <-; by injection E0 as <- <-]. apply bind_Ok in E1 as ([args g3] & E3 & E1). apply bind_Ok in E1 as (v & Ev & [= <- <-]).
  destruct (constant_operands_partial T g2 E (en_operands n) args g3 (gp_state _ _ _ _ _ _ S2)) as (Q3 & Hargs & Hvals);
    [eapply Forall_impl; [exact Ho|]; intros j; apply (uf_equiv_in g g2 j Q2)|done|].
  pose proof (uf_equiv_trans g g2 g3 Q2 Q3) as Q. pose proof (gstep_equiv T g g3 E Hg Q) as S3. inversion Hw as [? ? _ Hok]; subst.
  destruct (fold_func_ok T _ _ args f Ef (safe_no_division _ (gs_safe T g E Hg i c n Hc Hin)) Hok Hargs) as (v' & Ev' & Hgw & Hty & Hden).
  rewrite Ev in Ev'. injection Ev' as <-. apply bind_Ok in E0 as (d & Ed & E0). rewrite ConstantIntData_ok in Ed by done. injection Ed as <-.
  apply bind_Ok in E0 as ([id g4] & E4 & [= <- <-]). split; [done|]. intros m [= <-].
  destruct (gstep_add T g3 E (mkNode (int_data v) []) id g4) as (T' & E' & S4 & _ & [Hid Hvid]);
    [apply S3|done|constructor; [constructor|by exists v]|constructor|done|by intros; eexists|done|].
  pose proof (gstep_trans _ _ _ _ _ _ _ _ _ S3 S4) as S. exists T', E'.
  destruct (sem_entry_step _ _ _ _ _ _ n i S Hent) as [[_ _ _ _ Ht'] Hv'].
  split_and!; [done|apply (entry_class _ _ _ _ Hid)| |].
  - rewrite <- (entry_type _ _ _ _ Hid). cbn. congruence.
  - intros e' He'. rewrite <- (Hvid e' He'), <- (Hv' e' He'). destruct (gp_bwd _ _ _ _ _ _ S e' He') as (e & He & Ke).
    rewrite (node_value_extends T g T' g4 e e' n) by (done || apply S). rewrite (node_value T e g n (gs_sat T g E Hg e He) Ho), Hvals, Hden by done. done.
Qed.

Lemma visit_nodes_gstep T g E K i c ns p :
  gstate T g E -> classes g !! i = Some c -> (forall n, n ∈ ns -> n ∈ nodes c) -> visit_nodes (mkPropagator g K) i ns = Ok p ->
  exists T' E', gstep T g E T' (p_graph p) E'.
Proof.
  revert g. induction ns as [|n ns IH]; intros g Hg Hc Hns E0; cbn [visit_nodes p_graph p_constants] in E0.
  { injection E0 as <-. exists T, E. by apply gstep_refl. }
  apply bind_Ok in E0 as ([r g1] & E1 & E0).
  destruct (tryFoldNode_gstep T g E K i c n r g1 Hg Hc) as [Hnone Hsome]; [apply Hns; by left|done|]. destruct r as [m|].
  - destruct (Hsome m eq_refl) as (T' & E' & S1 & Hm & Htm & Hvm). apply bind_Ok in E0 as ([id g2] & E2 & [= <-]).
    assert (in_graph g i) as Hi by (apply (inv_dom T g (gs_inv T g E Hg)); eauto).
    destruct (gstep_merge T' g1 E' m i id g2 (gp_state _ _ _ _ _ _ S1) Hm (gstep_in _ _ _ _ _ _ i S1 Hi)) as [S2 ->];
      [rewrite Htm; symmetry; by apply (gp_extends _ _ _ _ _ _ S1)|done|done|].
    pose proof (gp_state _ _ _ _ _ _ S2) as [I2 A2 B2 C2]. exists T', E'. apply (gstep_trans _ _ _ _ _ _ _ _ _ S1), (gstep_trans _ _ _ _ _ _ _ _ _ S2).
    destruct (set_worklist_step T' g2 (worklist g2 ++ [grep g1 m]) I2) as (I3 & _ & _).
    { apply Forall_app. split; [apply (inv_worklist T' g2 I2)|]. apply Forall_singleton. eapply gstep_in; [exact S2|].
      by apply rep_range; [apply (inv_uf T' g1), S1|]. }
    apply gstep_same; [done|by split|done| |done]. intros e He. destruct (A2 e He). by split.
  - specialize (Hnone eq_refl). pose proof (gstep_equiv T g g1 E Hg Hnone) as S1.
    destruct (IH g1 (gp_state _ _ _ _ _ _ S1)) as (T' & E' & S2); [by rewrite (eqv_classes g g1 Hnone)|intros; apply Hns; by right|done|].
    exists T', E'. by apply (gstep_trans _ _ _ _ _ _ _ _ _ S1).
Qed.
Lemma visit_all_gstep T g E K queue p :
  gstate T g E -> Forall (in_graph g) queue -> visit_all (mkPropagator g K) queue = Ok p -> exists T' E', gstep T g E T' (p_graph p) E'.
Proof.
  revert T g E K. induction queue as [|i queue IH]; intros T g E K Hg Hq E0; cbn [visit_all] in E0.
  { injection E0 as <-. exists T, E. by apply gstep_refl. }
  apply Forall_cons in Hq as [Hi Hq]. apply bind_Ok in E0 as ([g1 K1] & E1 & E0).
  assert (exists T1 E1, gstep T g E T1 g1 E1) as (T1 & E1' & S1).
  { pose proof (inv_uf T g (gs_inv T g E Hg)) as Hu. unfold cp_visit in E1. cbn [p_graph p_constants] in E1.
    destruct (eg_find_ok g i Hu Hi) as (g2 & E2 & Q2). rewrite E2, ok_bind in E1. cbv beta iota in E1.
    pose proof (gstep_equiv T g g2 E Hg Q2) as S2.
    destruct (negb (i =? grep g i)) eqn:Hr; [injection E1 as <- _; eauto|]. apply negb_false_iff, Z.eqb_eq in Hr.
    destruct (decide (i ∈ K)); [injection E1 as <- _; eauto|]. unfold eg_get in E1.
    destruct (eg_find_ok g2 i (eqv_uf g g2 Q2)) as (g3 & E3 & Q3); [by apply (uf_equiv_in g g2)|]. rewrite E3, !ok_bind in E1. cbv beta iota in E1.
    pose proof (uf_equiv_trans g g2 g3 Q2 Q3) as Q. pose proof (gstep_equiv T g g3 E Hg Q) as S3.
    rewrite (eqv_rep g g2 Q2), <- Hr in E1 by done. apply bind_Ok in E1 as ([r c] & Hc%of_option_Ok & E1).
    apply fmap_Some in Hc as (c' & Hc & [= -> ->]).
    destruct (visit_nodes_gstep T g3 E K i c' (nodes c') _ (gp_state _ _ _ _ _ _ S3) Hc (fun n Hn => Hn) E1) as (T' & E' & S4).
    exists T', E'. by apply (gstep_trans _ _ _ _ _ _ _ _ _ S3). }
  destruct (IH T1 g1 E1' K1) as (T' & E' & S2); [apply S1|eapply Forall_impl; [exact Hq|]; intros j; by apply (gstep_in _ _ _ _ _ _ j S1)|done|].
  exists T', E'. by apply (gstep_trans _ _ _ _ _ _ _ _ _ S1).
Qed.
Lemma gstep_constprop T g E g' : gstate T g E -> constprop g = Ok g' -> exists T' E', gstep T g E T' g' E'.
Proof.
  unfold constprop. intros Hg E0. apply bind_Ok in E0 as (p & Ep & [= <-]). eapply visit_all_gstep; [exact Hg| |exact Ep].
  apply Forall_forall. intros i ([j c] & -> & [_ Hin]%list_elem_of_filter)%list_elem_of_fmap. rewrite map_order_perm in Hin.
  apply elem_of_map_to_list in Hin. apply (inv_dom T g (gs_inv T g E Hg)). eauto.
Qed.
End steps.

(** ** The engine *)
Section engine.
Context `{PtrEq} `{!DataPtrEq} `{MapOrder} `{MathExtrasAPI} `{Config} `{!OpScope} (M : EMatcher).
#[local] Abbreviation grep g i := (rep (union_find g) i).
Implicit Types (T : Z -> Ty) (E : Env -> Prop).

Definition potential (sc : SubClause) (n : ENode) : Prop := is_potential_match sc n = Ok true.
Definition subclause_is (k : Z) (sc : SubClause) : Prop := at_z (m_subclauses M) k = Some sc.
(** The class has a node that fits a clause. *)
Definition leaf_match T g E (s o : Z) : Prop :=
  forall sc, subclause_is s sc -> exists m, sem_entry T g E m o /\ potential sc m /\ safe_node m.
Definition sem_match T g E (sc : SubClause) (n : ENode) : Prop :=
  potential sc n /\ (sc_submatchers sc = [] \/ Forall2 (leaf_match T g E) (sc_submatchers sc) (en_operands n)).

(** What a rule must do: on a match, a step of the graph, after which the
    merges it asks for are of classes with the same value. *)
Definition rule_ok (cl : Clause) : Prop :=
  forall T E a i idx c n sc a',
    gstate T (a_graph a) E -> merges_ok T (a_graph a) E (a_merges a) ->
    classes (a_graph a) !! i = Some c -> at_z (nodes c) idx = Some n -> subclause_is (cl_matcher cl) sc ->
    sem_match T (a_graph a) E sc n -> cl_update cl a i idx = Ok a' ->
    exists T' E', gstep T (a_graph a) E T' (a_graph a') E' /\ merges_ok T' (a_graph a') E' (a_merges a') /\ kept (a_graph a) (a_graph a').

Lemma leaf_match_step T g E T' g' E' s o : gstep T g E T' g' E' -> leaf_match T g E s o -> leaf_match T' g' E' s o.
Proof. intros S Hl sc Hsc. destruct (Hl sc Hsc) as (m & Hm & Hp). exists m. split; [by eapply sem_entry_step|done]. Qed.
Lemma sem_match_step T g E T' g' E' sc n : gstep T g E T' g' E' -> sem_match T g E sc n -> sem_match T' g' E' sc n.
Proof.
  intros S [Hp [Hn|Hl]]; (split; [done|]); [by left|right]. eapply Forall2_impl; [exact Hl|]. intros s o. by eapply leaf_match_step.
Qed.

(** *** Potential matches *)
Definition entry_of (ps : gmap Z (list (Z * Z))) (k i idx : Z) : Prop := exists l, ps !! k = Some l /\ (i, idx) ∈ l.
Definition pot_ok T g E (st : EGraphMatcher) : Prop :=
  forall k i idx, entry_of (potentials st) k i idx -> exists sc n, subclause_is k sc /\ sem_entry T g E n i /\ potential sc n /\ safe_node n.
Definition rev_ok (st : EGraphMatcher) : Prop :=
  forall k i idx, entry_of (potentials st) k i idx -> k ∈ default [] (reversed st !! i).
Definition fresh (g : EGraph) (st : EGraphMatcher) (i : Z) : Prop :=
  forall k idx, entry_of (potentials st) k i idx -> exists sc c n,
    subclause_is k sc /\ classes g !! i = Some c /\ at_z (nodes c) idx = Some n /\ potential sc n.

Lemma entry_insert ps k l k' i idx : entry_of (<[k := l]> ps) k' i idx <-> (k = k' /\ (i, idx) ∈ l) \/ (k <> k' /\ entry_of ps k' i idx).
Proof.
  unfold entry_of. destruct (decide (k = k')) as [<-|Hne].
  - rewrite lookup_insert_eq. naive_solver.
  - rewrite lookup_insert_ne by done. naive_solver.
Qed.
Lemma entry_default ps k i idx : (i, idx) ∈ default [] (ps !! k) <-> entry_of ps k i idx.
Proof. unfold entry_of. destruct (ps !! k); cbn; set_solver. Qed.
Lemma erase_entries ps ks i k j idx : entry_of (erase_potentials ps ks i) k j idx -> entry_of ps k j idx /\ ~ (k ∈ ks /\ j = i).
Proof.
  revert ps. induction ks as [|k' ks IH]; intros ps; cbn [erase_potentials]; [intros Hd; split; [done|]; by intros [?%elem_of_nil _]|].
  intros [He Hn]%IH. apply entry_insert in He as [[<- Hin]|[Hne He]].
  - apply list_elem_of_filter in Hin as [Hi Hin]. cbn in Hi. split; [by apply entry_default|]. intros [_ ->]. done.
  - split; [done|]. intros [[->|Hk]%elem_of_cons ->]; [done|]. by apply Hn.
Qed.
Definition new_entry (i : Z) (ns : list ENode) (k j idx : Z) : Prop :=
  j = i /\ exists n sc, at_z ns idx = Some n /\ subclause_is k sc /\ potential sc n.
Lemma potential_clauses_ok st i nid n ks st' all :
  at_z all nid = Some n -> potential_clauses M st i nid n ks = Ok st' ->
  (forall k j idx, entry_of (potentials st') k j idx -> entry_of (potentials st) k j idx \/ new_entry i all k j idx) /\ (rev_ok st -> rev_ok st').
Proof.
  intros Hall. revert st. induction ks as [|k ks IH]; intros st E0; cbn [potential_clauses] in E0; [injection E0 as <-; auto|].
  apply bind_Ok in E0 as (sc & Hsc%of_option_Ok & E0). apply bind_Ok in E0 as (ok & Hok & E0). apply IH in E0 as [He Hr].
  destruct ok; [|done]. split.
  - intros k' j idx [Hin|Hin]%He; [|by right]. cbn in Hin. apply entry_insert in Hin as [[<- Hin]|[_ Hin]]; [|by left].
    apply elem_of_app in Hin as [Hin%entry_default|Hin]; [by left|]. apply list_elem_of_singleton in Hin as [= -> ->]. right. split; [done|]. by exists n, sc.
  - intros Hrev. apply Hr. intros k' j idx Hin. cbn in *. apply entry_insert in Hin as [[<- Hin]|[_ Hin]].
    + apply elem_of_app in Hin as [Hin%entry_default%Hrev|Hin].
      * destruct (decide (i = j)) as [<-|]; [rewrite lookup_insert_eq; cbn; set_solver|by rewrite lookup_insert_ne].
      * apply list_elem_of_singleton in Hin as [= -> ->]. rewrite lookup_insert_eq. cbn. set_solver.
    + apply Hrev in Hin. destruct (decide (i = j)) as [<-|]; [rewrite lookup_insert_eq; cbn; set_solver|by rewrite lookup_insert_ne].
Qed.
Lemma potential_nodes_ok st i nid ns st' all :
  0 <= nid -> (forall m n, ns !! m = Some n -> at_z all (nid + Z.of_nat m) = Some n) -> potential_nodes M st i nid ns = Ok st' ->
  (forall k j idx, entry_of (potentials st') k j idx -> entry_of (potentials st) k j idx \/ new_entry i all k j idx) /\ (rev_ok st -> rev_ok st').
Proof.
  revert st nid. induction ns as [|n ns IH]; intros st nid Hpos Hall E0; cbn [potential_nodes] in E0; [injection E0 as <-; auto|].
  apply bind_Ok in E0 as (st1 & E1 & E0). apply (potential_clauses_ok st i nid n _ st1 all) in E1 as [He1 Hr1]; [|specialize (Hall 0%nat n eq_refl); by rewrite Z.add_0_r in Hall].
  apply IH in E0 as [He Hr]; [|lia|intros m n' Hm; specialize (Hall (S m) n' Hm); by rewrite <- Hall; f_equal; lia].
  split; [|auto]. intros k j idx [Hin|Hin]%He; [by apply He1|by right].
Qed.
Lemma at_z_lookup {A} (l : list A) m x : l !! m = Some x -> at_z l (0 + Z.of_nat m) = Some x.
Proof. intros Hm. unfold at_z. destruct (Z.ltb_spec (0 + Z.of_nat m) 0); [lia|]. by rewrite Z.add_0_l, Nat2Z.id. Qed.
Lemma at_z_in {A} (l : list A) i x : at_z l i = Some x -> x ∈ l.
Proof. unfold at_z. case_match; [done|]. apply list_elem_of_lookup_2. Qed.

Lemma update_eclass_ok T g E st i st' g' :
  gstate T g E -> in_graph g i -> pot_ok T g E st -> rev_ok st -> update_eclass_potential_matches M st g i = Ok (st', g') ->
  uf_equiv g g' /\ pot_ok T g E st' /\ rev_ok st' /\ fresh g st' i /\ forall j, fresh g st j -> fresh g st' j.
Proof.
  intros Hg Hi Hp Hr E0. pose proof (gs_inv T g E Hg) as Hinv. unfold update_eclass_potential_matches, eg_get in E0.
  destruct (eg_find_ok g i (inv_uf T g Hinv) Hi) as (g1 & E1 & Q1). rewrite E1, !ok_bind in E0. cbv beta iota in E0.
  apply bind_Ok in E0 as ([r c] & Hc%of_option_Ok & E0). rewrite (eqv_classes g g1 Q1) in Hc. apply fmap_Some in Hc as (c' & Hc & [= -> ->]).
  cbv zeta in E0. set (st1 := mkEM _ _) in E0.
  destruct (eg_find_ok g1 i (eqv_uf g g1 Q1)) as (g2 & E2 & Q2); [by apply (uf_equiv_in g g1)|]. rewrite E2, ok_bind in E0. cbv beta iota in E0.
  rewrite (eqv_rep g g1 Q1) in E0 by done. pose proof (uf_equiv_trans g g1 g2 Q1 Q2) as Q.
  assert (forall k j idx, entry_of (potentials st1) k j idx -> entry_of (potentials st) k j idx /\ j <> i) as He1.
  { intros k j idx [Hin Hn]%erase_entries. split; [done|]. intros ->. apply Hn. split; [by apply Hr in Hin|done]. }
  assert (rev_ok st1) as Hr1.
  { intros k j idx [Hin Hne]%He1. cbn. rewrite lookup_insert_ne by done. by apply Hr in Hin. }
  destruct (negb (grep g i =? i)) eqn:Hroot.
  - injection E0 as <- <-. split_and!; [done| |done| |].
    + intros k j idx [Hin _]%He1. by apply (Hp k j idx).
    + intros k idx [_ Hne]%He1. done.
    + intros j Hf k idx [Hin _]%He1. by apply Hf.
  - apply negb_false_iff, Z.eqb_eq in Hroot. rewrite Hroot in Hc. apply bind_Ok in E0 as (st2 & E3 & [= <- <-]).
    apply (potential_nodes_ok st1 i 0 (nodes c') st2 (nodes c')) in E3 as [He2 Hr2]; [|lia|intros m n; apply at_z_lookup].
    assert (forall k j idx, new_entry i (nodes c') k j idx -> j = i /\ exists sc n, subclause_is k sc /\ at_z (nodes c') idx = Some n /\ potential sc n) as Hnew.
    { intros k j idx (-> & n & sc & Hn & Hsc & Hpn). eauto 10. }
    split_and!; [done| |auto| |].
    + intros k j idx [[Hin _]%He1|(-> & sc & n & Hsc & Hn & Hpn)%Hnew]%He2; [by apply (Hp k j idx)|]. exists sc, n. split_and!; [done| |done|].
      { eapply class_entry; [done|exact Hc|by eapply at_z_in]. }
      apply (gs_safe T g E Hg i c' n Hc). by eapply at_z_in.
    + intros k idx [[_ Hne]%He1|(_ & sc & n & Hsc & Hn & Hpn)%Hnew]%He2; [done|]. by exists sc, c', n.
    + intros j Hf k idx [[Hin _]%He1|(-> & sc & n & Hsc & Hn & Hpn)%Hnew]%He2; [by apply Hf|]. by exists sc, c', n.
Qed.

Lemma fresh_equiv g g' st i : uf_equiv g g' -> fresh g st i -> fresh g' st i.
Proof. intros Q Hf k idx He. destruct (Hf k idx He) as (sc & c & n & ? & ? & ?). exists sc, c, n. by rewrite (eqv_classes g g' Q). Qed.
Lemma pot_ok_step T g E T' g' E' st : gstep T g E T' g' E' -> pot_ok T g E st -> pot_ok T' g' E' st.
Proof.
  intros S Hp k i idx He. destruct (Hp k i idx He) as (sc & n & Hsc & Hn & Hpn). exists sc, n. split_and!; [done|by eapply sem_entry_step|apply Hpn|apply Hpn].
Qed.
Lemma update_classes_ok T g E st ids st' g' :
  gstate T g E -> Forall (in_graph g) ids -> pot_ok T g E st -> rev_ok st -> update_classes M st g ids = Ok (st', g') ->
  uf_equiv g g' /\ pot_ok T g' E st' /\ rev_ok st' /\ (forall i, i ∈ ids -> fresh g' st' i) /\ forall j, fresh g st j -> fresh g' st' j.
Proof.
  revert g st. induction ids as [|i ids IH]; intros g st Hg Hids Hp Hr E0; cbn [update_classes] in E0.
  { injection E0 as <- <-. split_and!; try done; [apply uf_equiv_refl, (inv_uf T g), Hg|set_solver]. }
  apply Forall_cons in Hids as [Hi Hids]. apply bind_Ok in E0 as ([st1 g1] & E1 & E0).
  destruct (update_eclass_ok T g E st i st1 g1 Hg Hi Hp Hr E1) as (Q1 & Hp1 & Hr1 & Hf1 & Hk1). pose proof (gstep_equiv T g g1 E Hg Q1) as S1.
  destruct (IH g1 st1) as (Q2 & Hp2 & Hr2 & Hf2 & Hk2); [apply S1| |by apply (pot_ok_step _ _ _ _ _ _ _ S1)|done|done|].
  { eapply Forall_impl; [exact Hids|]. intros j. apply (uf_equiv_in g g1 j Q1). }
  split_and!; [by apply (uf_equiv_trans g g1)|done|done| |].
  - intros j [->|Hj]%elem_of_cons; [|auto]. by apply Hk2, (fresh_equiv g g1).
  - intros j Hj. by apply Hk2, (fresh_equiv g g1), Hk1.
Qed.
Lemma update_potentials_ok T g E st st' g' :
  gstate T g E -> (forall i, i ∈ updated g -> in_graph g i) -> pot_ok T g E st -> rev_ok st -> update_potential_matches M st g = Ok (st', g') ->
  uf_equiv g g' /\ pot_ok T g' E st' /\ rev_ok st' /\ forall i, i ∈ updated g -> fresh g' st' i.
Proof.
  intros Hg Hu Hp Hr E0. unfold update_potential_matches in E0. case_decide as Hempty.
  - destruct (update_classes_ok T g E st (map_order (map_to_list (classes g)).*1) st' g' Hg) as (Q & Hp' & Hr' & _ & Hk); try done.
    { rewrite Forall_forall. intros i Hi. rewrite map_order_perm in Hi. apply list_elem_of_fmap in Hi as ([j c] & -> & Hin%elem_of_map_to_list).
      apply (inv_dom T g (gs_inv T g E Hg)). eauto. }
    split_and!; try done. intros i _. apply Hk. intros k idx (l & Hl & _). by rewrite Hempty, lookup_empty in Hl.
  - destruct (update_classes_ok T g E st (map_order (elements (updated g))) st' g' Hg) as (Q & Hp' & Hr' & Hf & _); try done.
    { rewrite Forall_forall. intros i Hi. rewrite map_order_perm in Hi. by apply Hu, elem_of_elements. }
    split_and!; try done. intros i Hi. apply Hf. rewrite map_order_perm. by apply elem_of_elements.
Qed.

(** *** Matches *)
Definition node_matched (g : EGraph) (ms : MatchData) (sc : SubClause) (i idx : Z) : Prop :=
  exists c n, classes g !! grep g i = Some c /\ at_z (nodes c) idx = Some n /\
    (sc_submatchers sc = [] \/ Forall2 (fun s o => contains_match ms s o = true) (sc_submatchers sc) (en_operands n)).
Definition clause_ok (g : EGraph) (st : EGraphMatcher) (ms : MatchData) (k : Z) (sc : SubClause) (cm : ClauseData) : Prop :=
  forall i ids, cm !! i = Some ids -> ids <> [] /\ forall idx, idx ∈ ids -> entry_of (potentials st) k i idx /\ node_matched g ms sc i idx.
Definition data_ok (g : EGraph) (st : EGraphMatcher) (ms : MatchData) : Prop :=
  forall k cm, at_z ms k = Some cm -> exists sc, subclause_is k sc /\ clause_ok g st ms k sc cm.
Lemma operands_match_spec ms subs ops :
  length subs = length ops -> operands_match ms subs ops = true -> Forall2 (fun s o => contains_match ms s o = true) subs ops.
Proof.
  revert ops. induction subs as [|s subs IH]; intros [|o ops] Hl Hm; try done. cbn in Hm. apply andb_true_iff in Hm as [? ?].
  constructor; [done|]. apply IH; [by injection Hl|done].
Qed.
Lemma clause_ok_equiv g g' st ms k sc cm : uf_equiv g g' -> (forall i, is_Some (cm !! i) -> in_graph g i) -> clause_ok g st ms k sc cm -> clause_ok g' st ms k sc cm.
Proof.
  intros Q Hin Hc i ids Hi. destruct (Hc i ids Hi) as [Hne Hids]. split; [done|]. intros idx (He & c & n & Hcl & Hn)%Hids. split; [done|].
  exists c, n. rewrite (eqv_rep g g' Q) by eauto. by rewrite (eqv_classes g g' Q).
Qed.
Lemma match_potentials_ok T g E st ms k sc ps cm cm' g' :
  gstate T g E -> pot_ok T g E st -> (forall p, p ∈ ps -> entry_of (potentials st) k p.1 p.2) ->
  (forall i, is_Some (cm !! i) -> in_graph g i) -> clause_ok g st ms k sc cm ->
  match_potentials ms sc g ps cm = Ok (cm', g') -> uf_equiv g g' /\ (forall i, is_Some (cm' !! i) -> in_graph g' i) /\ clause_ok g' st ms k sc cm'.
Proof.
  revert g cm. induction ps as [|[i idx] ps IH]; intros g cm Hg Hp Hps Hin Hcm E0; cbn [match_potentials] in E0.
  { injection E0 as <- <-. split_and!; [apply uf_equiv_refl, (inv_uf T g), Hg|done|done]. }
  pose proof (gs_inv T g E Hg) as Hinv. assert (entry_of (potentials st) k i idx) as Hent by (apply (Hps (i, idx)); by left).
  destruct (Hp k i idx Hent) as (_ & m & _ & [Hm _] & _). pose proof (entry_class T g m i Hm) as Hi.
  unfold eg_get in E0. destruct (eg_find_ok g i (inv_uf T g Hinv) Hi) as (g1 & E1 & Q1). rewrite E1, !ok_bind in E0. cbv beta iota in E0.
  apply bind_Ok in E0 as ([r c] & Hc%of_option_Ok & E0). rewrite (eqv_classes g g1 Q1) in Hc. apply fmap_Some in Hc as (c' & Hc & [= -> ->]).
  apply bind_Ok in E0 as (n & Hn%of_option_Ok & E0). cbv zeta in E0. pose proof (gstep_equiv T g g1 E Hg Q1) as S1.
  match type of E0 with match_potentials _ _ _ _ ?x = _ => set (cm1 := x) in E0 end.
  assert (clause_ok g st ms k sc cm1 /\ forall j, is_Some (cm1 !! j) -> in_graph g j) as [Hcm1 Hin1].
  { unfold cm1. case_match eqn:Hfits; [|done]. split.
    - intros j ids Hj. apply lookup_insert_Some in Hj as [[<- <-]|[Hne Hj]]; [|by apply Hcm]. split; [by destruct (default [] (cm !! i))|].
      intros idx' [Hidx|Hidx]%elem_of_app.
      + destruct (cm !! i) as [ids|] eqn:Ei; [|by apply elem_of_nil in Hidx]. by apply (proj2 (Hcm i ids Ei)).
      + apply list_elem_of_singleton in Hidx as ->. split; [done|]. exists c', n. split_and!; [done|done|].
        apply orb_true_iff in Hfits as [Hnil|[Hlen Hops]%andb_true_iff]; [left; by apply bool_decide_eq_true_1 in Hnil|right].
        apply operands_match_spec; [by apply Nat.eqb_eq|done].
    - intros j [ids Hj]. apply lookup_insert_Some in Hj as [[<- _]|[_ Hj]]; [done|]. apply Hin. eauto. }
  destruct (IH g1 cm1) as (Q2 & Hin2 & Hcm2); [apply S1|by apply (pot_ok_step _ _ _ _ _ _ _ S1)|intros p Hp'; apply Hps; by right| | |done|].
  - intros j Hj. apply (uf_equiv_in g g1 j Q1). by apply Hin1.
  - by apply (clause_ok_equiv g g1).
  - split_and!; [by apply (uf_equiv_trans g g1)|done|done].
Qed.

Lemma at_z_app_l {A} (l l' : list A) k x : at_z l k = Some x -> at_z (l ++ l') k = Some x.
Proof. unfold at_z. case_match; [done|]. apply lookup_app_l_Some. Qed.
Lemma at_z_snoc {A} (l : list A) y k x : at_z (l ++ [y]) k = Some x -> at_z l k = Some x \/ (k = Z.of_nat (length l) /\ x = y).
Proof.
  unfold at_z. destruct (Z.ltb_spec k 0) as [|Hk]; [done|]. intros [Hl|[Hle Hl]]%lookup_app_Some; [by left|right].
  apply list_lookup_singleton_Some in Hl as [Hz ->]. split; [lia|done].
Qed.
Lemma contains_match_app ms cm s o : contains_match ms s o = true -> contains_match (ms ++ [cm]) s o = true.
Proof. unfold contains_match. destruct (at_z ms s) as [m|] eqn:Em; [|done]. by rewrite (at_z_app_l ms [cm] s m Em). Qed.
Lemma clause_ok_app g st ms cm0 k sc cm : clause_ok g st ms k sc cm -> clause_ok g st (ms ++ [cm0]) k sc cm.
Proof.
  intros Hc i ids Hi. destruct (Hc i ids Hi) as [Hne Hids]. split; [done|]. intros idx (He & c & n & Hcl & Hn & Hm)%Hids. split; [done|].
  exists c, n. split_and!; [done|done|]. destruct Hm as [?|Hm]; [by left|right]. eapply Forall2_impl; [exact Hm|]. intros s o. apply contains_match_app.
Qed.
Lemma clause_in T g E st ms k sc cm i : pot_ok T g E st -> clause_ok g st ms k sc cm -> is_Some (cm !! i) -> in_graph g i.
Proof.
  intros Hp Hc [ids Hi]. destruct (Hc i ids Hi) as [Hne Hids]. destruct ids as [|idx ids]; [done|].
  destruct (Hids idx) as [He _]; [by left|]. destruct (Hp k i idx He) as (_ & n & _ & [Hn _] & _). apply (entry_class T g n i Hn).
Qed.
Lemma data_ok_equiv T g E g' st ms : pot_ok T g E st -> uf_equiv g g' -> data_ok g st ms -> data_ok g' st ms.
Proof.
  intros Hp Q Hd k cm Hk. destruct (Hd k cm Hk) as (sc & Hsc & Hc). exists sc. split; [done|]. apply (clause_ok_equiv g); [done| |done].
  intros i. by eapply clause_in.
Qed.
Lemma find_clauses_ok T g E st pre cs ms ms' g' :
  gstate T g E -> pot_ok T g E st -> m_subclauses M = pre ++ cs -> length pre = length ms -> data_ok g st ms ->
  find_clauses st g (Z.of_nat (length ms)) cs ms = Ok (ms', g') -> uf_equiv g g' /\ data_ok g' st ms'.
Proof.
  revert g pre ms. induction cs as [|sc cs IH]; intros g pre ms Hg Hp Hsub Hlen Hd E0; cbn [find_clauses] in E0.
  { injection E0 as <- <-. split; [apply uf_equiv_refl, (inv_uf T g), Hg|done]. }
  assert (subclause_is (Z.of_nat (length ms)) sc) as Hsc.
  { unfold subclause_is. rewrite Hsub, <- Hlen, <- (Z.add_0_l (Z.of_nat (length pre))). apply at_z_lookup. by rewrite list_lookup_middle. }
  assert (forall g cm, data_ok g st ms -> clause_ok g st ms (Z.of_nat (length ms)) sc cm -> data_ok g st (ms ++ [cm])) as Hsnoc.
  { intros g0 cm Hd0 Hc k cm' [Hk|[-> ->]]%at_z_snoc.
    - destruct (Hd0 k cm' Hk) as (sc' & ? & ?). exists sc'. split; [done|by apply clause_ok_app].
    - exists sc. split; [done|by apply clause_ok_app]. }
  assert (Z.of_nat (length ms) + 1 = Z.of_nat (length (ms ++ [∅ : ClauseData]))) as Hnext.
  { rewrite length_app. cbn. lia. }
  destruct (potentials st !! Z.of_nat (length ms)) as [ps|] eqn:Eps.
  - apply bind_Ok in E0 as ([cm g1] & E1 & E0).
    destruct (match_potentials_ok T g E st ms (Z.of_nat (length ms)) sc (map_order ps) ∅ cm g1 Hg Hp) as (Q1 & _ & Hc1); [| | |done|].
    { intros [i idx] Hin. rewrite map_order_perm in Hin. by exists ps. }
    { intros i [ids Hi]. by apply lookup_empty_Some in Hi. }
    { intros i ids Hi. by apply lookup_empty_Some in Hi. }
    pose proof (gstep_equiv T g g1 E Hg Q1) as S1.
    rewrite Hnext, length_app in E0. cbn in E0.
    destruct (IH g1 (pre ++ [sc]) (ms ++ [cm])) as [Q2 Hd2]; [apply S1|by apply (pot_ok_step _ _ _ _ _ _ _ S1)|by rewrite <- app_assoc|
      rewrite !length_app; cbn; lia|apply Hsnoc; [by apply (data_ok_equiv T g E)|done]|by rewrite length_app|].
    split; [by apply (uf_equiv_trans g g1)|done].
  - rewrite Hnext in E0.
    apply (IH g (pre ++ [sc])) in E0; [done|done|done|by rewrite <- app_assoc|rewrite !length_app; cbn; lia|].
    apply Hsnoc; [done|]. intros i ids Hi. by apply lookup_empty_Some in Hi.
Qed.
Lemma find_matches_ok T g E st ms g' :
  gstate T g E -> pot_ok T g E st -> find_matches M st g = Ok (ms, g') -> uf_equiv g g' /\ data_ok g' st ms.
Proof.
  intros Hg Hp E0. apply (find_clauses_ok T g E st [] (m_subclauses M) []); try done. intros k cm Hk. unfold at_z in Hk. case_match; [done|].
  by rewrite lookup_nil in Hk.
Qed.

(** *** Work items *)
Lemma work_nodes_ok g cl sc d cid i ids items g' :
  uf_inv (union_find g) -> in_graph g i -> work_nodes cl sc d g cid i ids = Ok (items, g') ->
  uf_equiv g g' /\ forall it, it ∈ items -> exists idx, it = (cid, i, idx) /\ idx ∈ ids.
Proof.
  revert g items. induction ids as [|idx ids IH]; intros g items Hu Hi E0; cbn [work_nodes] in E0.
  { injection E0 as <- <-. split; [by apply uf_equiv_refl|set_solver]. }
  unfold eg_get in E0. destruct (eg_find_ok g i Hu Hi) as (g1 & E1 & Q1). rewrite E1, !ok_bind in E0. cbv beta iota in E0.
  apply bind_Ok in E0 as ([r c] & _ & E0). apply bind_Ok in E0 as (n & _ & E0). apply bind_Ok in E0 as ([] & _ & E0). cbv zeta in E0.
  apply bind_Ok in E0 as ([items1 g2] & E2 & [= <- <-]). destruct (IH g1 items1 (eqv_uf g g1 Q1)) as [Q2 Hit]; [by apply (uf_equiv_in g g1)|done|].
  split; [by apply (uf_equiv_trans g g1)|]. intros it Hin.
  assert (it = (cid, i, idx) \/ it ∈ items1) as [->|Hin'] by (destruct (match cl_filter cl with Some f => _ | None => _ end); set_solver).
  - exists idx. split; [done|by left].
  - destruct (Hit it Hin') as (idx' & -> & ?). exists idx'. split; [done|by right].
Qed.
Definition item_of (g : EGraph) (cid : Z) (ms : list (Z * list Z)) (it : WorkItem) : Prop :=
  exists i idx ids, it = (cid, i, idx) /\ (i, ids) ∈ ms /\ idx ∈ ids /\ grep g i = i /\ i ∈ updated g.
Lemma work_classes_ok g cl sc d cid ms items g' :
  uf_inv (union_find g) -> (forall p, p ∈ ms -> in_graph g p.1) -> work_classes cl sc d g cid ms = Ok (items, g') ->
  uf_equiv g g' /\ forall it, it ∈ items -> item_of g cid ms it.
Proof.
  revert g items. induction ms as [|[i ids] ms IH]; intros g items Hu Hms E0; cbn [work_classes] in E0.
  { injection E0 as <- <-. split; [by apply uf_equiv_refl|set_solver]. }
  assert (in_graph g i) as Hi by (apply (Hms (i, ids)); by left).
  destruct (eg_find_ok g i Hu Hi) as (g1 & E1 & Q1). rewrite E1, ok_bind in E0. cbv beta iota in E0.
  apply bind_Ok in E0 as ([items1 g2] & E2 & E0). apply bind_Ok in E0 as ([rest g3] & E3 & [= <- <-]).
  assert (uf_equiv g1 g2 /\ forall it, it ∈ items1 -> exists idx, it = (cid, i, idx) /\ idx ∈ ids /\ grep g i = i /\ i ∈ updated g) as [Q2 Hit].
  { pose proof (uf_equiv_refl g1 (eqv_uf g g1 Q1)) as Q11.
    destruct (Z.eqb_spec (grep g i) i) as [Hr|Hr]; cbn [negb] in E2; [|injection E2 as <- <-; split; [done|set_solver]].
    case_decide as Hup; [injection E2 as <- <-; split; [done|set_solver]|]. rewrite (eqv_updated g g1 Q1) in Hup.
    destruct (work_nodes_ok g1 cl sc d cid i ids items1 g2 (eqv_uf g g1 Q1)) as [Q2 Hit]; [by apply (uf_equiv_in g g1)|done|].
    split; [done|]. intros it (idx & -> & Hidx)%Hit. by exists idx. }
  pose proof (uf_equiv_trans g g1 g2 Q1 Q2) as Q.
  destruct (IH g2 rest (eqv_uf g g2 Q)) as [Q3 Hrest]; [intros p Hp; apply (uf_equiv_in g g2 _ Q), Hms; by right|done|].
  split; [by apply (uf_equiv_trans g g2)|]. intros it [(idx & -> & Hidx & Hr & Hup)%Hit|Hin]%elem_of_app.
  - exists i, idx, ids. split_and!; [done|by left|done..].
  - destruct (Hrest it Hin) as (j & idx & jds & -> & Hj & Hidx & Hr & Hup). rewrite (eqv_updated g g2 Q) in Hup.
    assert (in_graph g j) as Hgj by (apply (Hms (j, jds)); by right). rewrite (eqv_rep g g2 Q) in Hr by done.
    exists j, idx, jds. split_and!; [done|by right|done..].
Qed.
Lemma work_clauses_ok T g E st d pre cs items g' :
  gstate T g E -> pot_ok T g E st -> data_ok g st d -> m_clauses M = pre ++ cs ->
  work_clauses M d g (Z.of_nat (length pre)) cs = Ok (items, g') ->
  uf_equiv g g' /\ forall it, it ∈ items -> exists cl cm cid, at_z (m_clauses M) cid = Some cl /\ at_z d (cl_matcher cl) = Some cm /\
    item_of g cid (map_to_list cm) it.
Proof.
  revert g pre items. induction cs as [|cl cs IH]; intros g pre items Hg Hp Hd Hcs E0; cbn [work_clauses] in E0.
  { injection E0 as <- <-. split; [apply uf_equiv_refl, (inv_uf T g), Hg|set_solver]. }
  pose proof (inv_uf T g (gs_inv T g E Hg)) as Hu.
  apply bind_Ok in E0 as (sc & _ & E0). apply bind_Ok in E0 as (cm & Hcm%of_option_Ok & E0). apply bind_Ok in E0 as ([items1 g1] & E1 & E0).
  apply bind_Ok in E0 as ([rest g2] & E2 & [= <- <-]). destruct (Hd _ cm Hcm) as (sc' & _ & Hc).
  destruct (fun Hms => work_classes_ok g cl sc d (Z.of_nat (length pre)) (map_order (map_to_list cm)) items1 g1 Hu Hms E1) as [Q1 Hit].
  { intros [i ids] Hin. rewrite map_order_perm in Hin. apply elem_of_map_to_list in Hin. eapply clause_in; [done|done|by exists ids]. }
  pose proof (gstep_equiv T g g1 E Hg Q1) as S1.
  destruct (IH g1 (pre ++ [cl]) rest) as [Q2 Hrest]; [apply S1|by apply (pot_ok_step _ _ _ _ _ _ _ S1)|by apply (data_ok_equiv T g E)|by rewrite <- app_assoc|
    by rewrite length_app, Nat2Z.inj_add|].
  split; [by apply (uf_equiv_trans g g1)|]. intros it [Hin|Hin]%elem_of_app.
  - exists cl, cm, (Z.of_nat (length pre)). split_and!; [rewrite Hcs, <- (Z.add_0_l (Z.of_nat (length pre))); apply at_z_lookup; by rewrite list_lookup_middle|done|].
    destruct (Hit it Hin) as (i & idx & ids & -> & Hi & ?). rewrite map_order_perm in Hi. by exists i, idx, ids.
  - destruct (Hrest it Hin) as (cl' & cm' & cid & Hcl & Hcm' & i & idx & ids & -> & Hi & Hidx & Hr & Hup).
    exists cl', cm', cid. split_and!; [done..|]. exists i, idx, ids. rewrite (eqv_updated g g1 Q1) in Hup. destruct (Hd _ cm' Hcm') as (sc1 & _ & Hc1).
    assert (in_graph g i) as Hgi by (eapply clause_in; [done|done|apply elem_of_map_to_list in Hi; by exists ids]). by rewrite (eqv_rep g g1 Q1) in Hr.
Qed.

(** A work item names a node that matches its clause. *)
Definition item_of_rule T g E (cl : Clause) (i idx : Z) : Prop :=
  exists sc c n, subclause_is (cl_matcher cl) sc /\ classes g !! i = Some c /\ at_z (nodes c) idx = Some n /\ sem_match T g E sc n.
Definition item_ok T g E (it : WorkItem) : Prop :=
  let '(cid, i, idx) := it in exists cl, at_z (m_clauses M) cid = Some cl /\ item_of_rule T g E cl i idx.
Lemma data_leaf T g E st d s o : pot_ok T g E st -> data_ok g st d -> contains_match d s o = true -> leaf_match T g E s o.
Proof.
  intros Hp Hd Hm sc Hsc. unfold contains_match in Hm. destruct (at_z d s) as [cm|] eqn:Es; [|done]. apply bool_decide_eq_true_1 in Hm as [ids Ho].
  destruct (Hd s cm Es) as (sc' & Hsc' & Hc). unfold subclause_is in *. rewrite Hsc in Hsc'. injection Hsc' as <-.
  destruct (Hc o ids Ho) as [Hne Hids]. destruct ids as [|idx ids]; [done|]. destruct (Hids idx) as [He _]; [by left|].
  destruct (Hp s o idx He) as (sc1 & n & Hsc1 & Hn & Hpn). unfold subclause_is in Hsc1. rewrite Hsc in Hsc1. injection Hsc1 as <-. by exists n.
Qed.
Lemma work_items_ok T g E st d items g' :
  gstate T g E -> pot_ok T g E st -> data_ok g st d -> (forall i, i ∈ updated g -> fresh g st i) ->
  matching_work_items M d g = Ok (items, g') -> uf_equiv g g' /\ forall it, it ∈ items -> item_ok T g E it.
Proof.
  intros Hg Hp Hd Hf E0. destruct (work_clauses_ok T g E st d [] (m_clauses M) items g' Hg Hp Hd eq_refl E0) as [Q Hit]. split; [done|].
  intros it (cl & cm & cid & Hcl & Hcm & i & idx & ids & -> & Hi%elem_of_map_to_list & Hidx & Hr & Hup)%Hit.
  destruct (Hd _ cm Hcm) as (sc & Hsc & Hc). destruct (Hc i ids Hi) as [_ Hids]. destruct (Hids idx Hidx) as (He & c & n & Hci & Hn & Hm).
  rewrite Hr in Hci. destruct (Hf i Hup _ idx He) as (sc1 & c1 & n1 & Hsc1 & Hc1 & Hn1 & Hpn). rewrite Hci in Hc1. injection Hc1 as <-.
  rewrite Hn in Hn1. injection Hn1 as <-. unfold subclause_is in Hsc, Hsc1. rewrite Hsc in Hsc1. injection Hsc1 as <-.
  exists cl. split; [done|]. exists sc, c, n. split_and!; try done. split; [done|]. destruct Hm as [?|Hm]; [by left|right].
  eapply Forall2_impl; [exact Hm|]. intros s o. by eapply data_leaf.
Qed.

(** *** Rounds *)
(** A rule runs once for every choice of captured nodes.  Each run may add
    classes, so what a run needs of a graph is stated for every graph of at
    least the size at which the choice was made. *)
Section captures.
Context (Inv : GraphAccessor -> Prop).
Hypothesis Inv_captures : forall a cs, Inv a -> Inv (with_captures a cs).
Hypothesis Inv_find : forall a g, Inv a -> uf_equiv (a_graph a) g -> Inv (with_graph a g).
Hypothesis Inv_graph : forall a, Inv a -> exists T E, gstate T (a_graph a) E.
Definition asize (a : GraphAccessor) : Z := uf_size (union_find (a_graph a)).
Definition runs (N : Z) (f : GraphAccessor -> result GraphAccessor) : Prop :=
  forall a a', Inv a -> N <= asize a -> f a = Ok a' -> Inv a' /\ asize a <= asize a'.
Lemma runs_mono N N' f : N <= N' -> runs N f -> runs N' f.
Proof. intros Hn Hf a a' Ha Hs. apply Hf; [done|lia]. Qed.
Lemma iterate_runs N impl subs ops f :
  (forall s o f', 0 <= o < N -> runs N f' -> runs N (impl s o f')) -> Forall (fun o => 0 <= o < N) ops -> runs N f ->
  runs N (iterate impl subs ops f).
Proof.
  intros Himpl Ho Hf. revert ops Ho. induction subs as [|s subs IH]; intros ops Ho; cbn [iterate]; [done|].
  destruct Ho as [|o ops Ho Hops]; [by intros ? ? ? ?|]. by apply Himpl, IH.
Qed.
Lemma each_match_runs N sc k c step ids :
  (forall x n, c = Some x -> n ∈ nodes x -> runs N (step n)) -> runs N (each_match sc k c step ids).
Proof.
  intros Hstep. induction ids as [|i ids IH]; intros a a' Ha Hs E0; cbn [each_match] in E0; [by injection E0 as <-|].
  apply bind_Ok in E0 as (x & Hx%of_option_Ok & E0). apply bind_Ok in E0 as (n & Hn%of_option_Ok & E0).
  apply bind_Ok in E0 as (a1 & E1 & E0). apply bind_Ok in E0 as (a2 & E2 & E0).
  assert (Inv a1 /\ asize a <= asize a1) as [I1 S1].
  { pose proof (Hstep x n Hx (at_z_in _ _ _ Hn)) as Hr. destruct (sc_capture sc); [|by apply (Hr a)].
    apply (Hr (push_capture a k n)); [by apply Inv_captures|done|done]. }
  assert (Inv a2 /\ asize a2 = asize a1) as [I2 S2].
  { destruct (sc_capture sc); [|by injection E2 as <-]. unfold pop_capture in E2. apply bind_Ok in E2 as (ns & _ & E2).
    apply bind_Ok in E2 as ([] & _ & [= <-]). split; [by apply Inv_captures|done]. }
  destruct (IH a2 a' I2) as [I3 S3]; [lia|done|]. split; [done|lia].
Qed.
Lemma captures_impl_runs fuel d : forall N k i f, 0 <= i < N -> runs N f -> runs N (all_captures_impl fuel M d k i f).
Proof.
  induction fuel as [|fuel IH]; intros N k i f Hi Hf a a' Ha Hs E0; cbn [all_captures_impl] in E0; [done|].
  apply bind_Ok in E0 as (b & _ & E0). destruct b; cbn [negb] in E0; [|by apply Hf].
  apply bind_Ok in E0 as (sc & _ & E0). destruct (Inv_graph a Ha) as (T & E & Hg).
  destruct (eg_find_ok (a_graph a) i (inv_uf T _ (gs_inv T _ E Hg))) as (g1 & E1 & Q1); [unfold asize, in_graph in *; lia|].
  unfold eg_get in E0. rewrite E1, !ok_bind in E0. cbv beta iota in E0.
  apply bind_Ok in E0 as (ids & _ & E0). apply bind_Ok in E0 as (a1 & E2 & [= <-]).
  assert (asize (with_graph a g1) = asize a) as Hsz by apply (eqv_size _ _ Q1).
  apply (each_match_runs (asize a)) in E2; [|..|by apply Inv_find|lia].
  - destruct E2 as [I1 S1]. unfold drop_empty_capture. destruct (a_captures a1 !! k) as [[|]|]; (split; [by try apply Inv_captures|unfold asize in *; cbn in *; lia]).
  - intros x n Hx Hn. apply iterate_runs; [intros s o f'; apply IH| |by apply (runs_mono N)].
    rewrite (eqv_classes _ _ Q1) in Hx. apply fmap_Some in Hx as ([r y] & Hy & ->). apply fmap_Some in Hy as (z & Hz & [= -> ->]). cbn in Hn.
    destruct (class_entry T _ E _ z n Hg Hz Hn) as [Hent _]. apply (entry_operands T _ n _ Hent).
Qed.
Lemma all_captures_runs d k i idx f a a' :
  Inv a -> in_graph (a_graph a) i -> runs (asize a) f -> all_captures M d k i idx f a = Ok a' -> Inv a' /\ asize a <= asize a'.
Proof.
  intros Ha Hi Hf E0. unfold all_captures, acc_get, eg_get in E0. destruct (Inv_graph a Ha) as (T & E & Hg).
  destruct (eg_find_ok (a_graph a) i (inv_uf T _ (gs_inv T _ E Hg)) Hi) as (g1 & E1 & Q1). rewrite E1, !ok_bind in E0. cbv beta iota in E0.
  apply bind_Ok in E0 as ([c a0] & E2 & E0). apply bind_Ok in E2 as ([r c'] & Hc%of_option_Ok & [= <- <-]).
  rewrite (eqv_classes _ _ Q1) in Hc. apply fmap_Some in Hc as (z & Hz & [= -> ->]).
  apply bind_Ok in E0 as (n & Hn%of_option_Ok & E0). apply bind_Ok in E0 as (sc & _ & E0). cbv zeta in E0.
  apply bind_Ok in E0 as (b & _ & E0). apply bind_Ok in E0 as (a1 & E3 & [= <-]).
  assert (forall h, runs (asize a) h -> forall cs, h (with_captures (with_graph a g1) cs) = Ok a1 -> Inv a1 /\ asize a <= asize a1) as K.
  { intros h Hh cs Eh. assert (asize (with_captures (with_graph a g1) cs) = asize a) as Hsz by apply (eqv_size _ _ Q1).
    destruct (Hh _ _ (Inv_captures _ cs (Inv_find a g1 Ha Q1)) ltac:(lia) Eh). split; [done|lia]. }
  assert (exists h cs, runs (asize a) h /\ h (with_captures (with_graph a g1) cs) = Ok a1) as (h & cs & Hh & Eh).
  { assert (Forall (fun o => 0 <= o < asize a) (en_operands n)) as Ho.
    { destruct (class_entry T _ E _ z n Hg Hz (at_z_in _ _ _ Hn)) as [Hent _]. apply (entry_operands T _ n _ Hent). }
    assert (runs (asize a) (iterate (all_captures_impl (length (m_subclauses M)) M d) (sc_submatchers sc) (en_operands n) f)) as Hit
      by (apply iterate_runs; [intros s o f'; apply captures_impl_runs|done|done]).
    match type of E3 with (if negb b then f ?x else _) = _ => exists (if negb b then f else iterate (all_captures_impl (length (m_subclauses M)) M d) (sc_submatchers sc) (en_operands n) f) end.
    destruct (a_captures (with_graph a g1) !! k); [exists (a_captures a)|eexists]; (split; [by destruct b|]); destruct b; exact E3. }
  destruct (K h Hh cs Eh) as [I1 S1]. split; [by apply Inv_captures|done].
Qed.
End captures.
Lemma item_ok_step T g E T' g' E' it : gstep T g E T' g' E' -> kept g g' -> item_ok T g E it -> item_ok T' g' E' it.
Proof.
  intros S K. destruct it as [[cid i] idx]. intros (cl & Hcl & sc & c & n & Hsc & Hc & Hn & Hm). destruct (K i c Hc) as (c' & Hc' & En).
  exists cl. split; [done|]. exists sc, c', n. rewrite En. split_and!; [done..|by eapply sem_match_step].
Qed.
(** What a run of rules has made of a graph. *)
Definition stepped T g E (a : GraphAccessor) : Prop :=
  exists T' E', gstep T g E T' (a_graph a) E' /\ merges_ok T' (a_graph a) E' (a_merges a) /\ kept g (a_graph a).
Lemma stepped_find T g E a g' : stepped T g E a -> uf_equiv (a_graph a) g' -> stepped T g E (with_graph a g').
Proof.
  intros (T' & E' & S & Hm & K) Q. pose proof (gstep_equiv T' _ _ E' (gp_state _ _ _ _ _ _ S) Q) as S'. exists T', E'.
  split_and!; [by eapply gstep_trans|by eapply merges_ok_step|by eapply kept_trans; [|apply kept_equiv]].
Qed.
Lemma rule_runs T g E cl i idx :
  rule_ok cl -> item_of_rule T g E cl i idx -> runs (stepped T g E) (uf_size (union_find g)) (fun a => cl_update cl a i idx).
Proof.
  intros Hr (sc & c & n & Hsc & Hc & Hn & Hm) a a' (T1 & E1 & S1 & M1 & K1) _ E0. destruct (K1 i c Hc) as (c1 & Hc1 & En).
  destruct (Hr T1 E1 a i idx c1 n sc a') as (T2 & E2 & S2 & M2 & K2); try done; [apply S1|by rewrite En|by eapply sem_match_step|].
  split; [|apply (ext_size _ _ _ _ (gp_extends _ _ _ _ _ _ S2))].
  exists T2, E2. split_and!; [by eapply gstep_trans|done|by eapply kept_trans].
Qed.
Lemma apply_rules_ok T E a work a' :
  Forall rule_ok (m_clauses M) -> gstate T (a_graph a) E -> merges_ok T (a_graph a) E (a_merges a) ->
  (forall it, it ∈ work -> item_ok T (a_graph a) E it) -> apply_rules M work a = Ok a' ->
  exists T' E', gstep T (a_graph a) E T' (a_graph a') E' /\ merges_ok T' (a_graph a') E' (a_merges a').
Proof.
  intros Hrules. revert T E a. induction work as [|[[cid i] idx] work IH]; intros T E a Hg Hm Hw E0; cbn [apply_rules] in E0.
  { injection E0 as <-. exists T, E. split; [by apply gstep_refl|done]. }
  destruct (Hw (cid, i, idx)) as (cl & Hcl & Hit); [by left|]. rewrite Hcl in E0. cbn [of_option] in E0.
  rewrite ok_bind in E0. apply bind_Ok in E0 as (a1 & E1 & E0).
  assert (in_graph (a_graph a) i) as Hi by (destruct Hit as (? & ? & ? & _ & ? & _); apply (inv_dom T _ (gs_inv T _ E Hg)); eauto).
  rewrite Forall_forall in Hrules.
  apply (all_captures_runs (stepped T (a_graph a) E)) in E1 as [(T1 & E1' & S1 & M1 & K1) _]; [|done|intros x g; apply stepped_find| | |done|].
  2: { intros x (T' & E' & S' & _). exists T', E'. apply S'. }
  2: { exists T, E. split_and!; [by apply gstep_refl|done|apply kept_refl]. }
  2: { apply rule_runs; [by apply Hrules, (at_z_in _ _ _ Hcl)|done]. }
  destruct (IH T1 E1' a1) as (T2 & E2' & S2 & Hm2); [apply S1|done| |done|].
  - intros it Hin. eapply item_ok_step; [exact S1|done|apply Hw; by right].
  - exists T2, E2'. split; [by eapply gstep_trans|done].
Qed.
Lemma gstep_clear_updated T g E : gstate T g E -> gstep T g E T (clear_updated g) E.
Proof.
  intros Hg. apply gstep_same; [done|done| | |apply (gs_safe T g E Hg)].
  - destruct (gs_inv T g E Hg) as [? ? ? Hc Hh ? ?]. split; try done; [|intros n p Hp; apply (entry_ok_mono T g); [done|by apply Hh]].
    intros j c Hj. apply (class_ok_mono T g); [done|by apply Hc].
  - intros e He. destruct (gs_sat T g E Hg e He). by split.
Qed.
Lemma saturate_ok fuel T E st g g' :
  Forall rule_ok (m_clauses M) -> gstate T g E -> pot_ok T g E st -> rev_ok st ->
  saturate fuel M st g = Ok g' -> exists T' E', gstep T g E T' g' E'.
Proof.
  intros Hrules. revert T E st g. induction fuel as [|fuel IH]; intros T E st g Hg Hp Hr E0; cbn [saturate] in E0;
    (case_decide; [injection E0 as <-; exists T, E; by apply gstep_refl|]); [done|].
  apply bind_Ok in E0 as ([st1 g1] & E1 & E0). apply bind_Ok in E0 as ([d g2] & E2 & E0). apply bind_Ok in E0 as ([work g3] & E3 & E0).
  apply bind_Ok in E0 as (a4 & E4 & E0). apply bind_Ok in E0 as (a5 & E5 & E0). apply bind_Ok in E0 as (g6 & E6 & E0). apply bind_Ok in E0 as (g7 & E7 & E0).
  destruct (update_potentials_ok T g E st st1 g1 Hg (inv_updated T g (gs_inv T g E Hg)) Hp Hr E1) as (Q1 & Hp1 & Hr1 & Hf1).
  pose proof (gstep_equiv T g g1 E Hg Q1) as S1. destruct (find_matches_ok T g1 E st1 d g2 (gp_state _ _ _ _ _ _ S1) Hp1 E2) as [Q2 Hd2].
  pose proof (gstep_equiv T g1 g2 E (gp_state _ _ _ _ _ _ S1) Q2) as S2. pose proof (pot_ok_step _ _ _ _ _ _ _ S2 Hp1) as Hp2.
  destruct (work_items_ok T g2 E st1 d work g3 (gp_state _ _ _ _ _ _ S2) Hp2 Hd2) as [Q3 Hitems]; [|done|].
  { intros i. rewrite (eqv_updated _ _ Q2), (eqv_updated _ _ Q1). intros Hi. by apply (fresh_equiv g1), Hf1. }
  pose proof (gstep_equiv T g2 g3 E (gp_state _ _ _ _ _ _ S2) Q3) as S3.
  pose proof (gstep_clear_updated T g3 E (gp_state _ _ _ _ _ _ S3)) as S3'. pose proof (gstep_trans _ _ _ _ _ _ _ _ _ S3 S3') as S34.
  destruct (apply_rules_ok T E (mkAccessor (clear_updated g3) d ∅ []) work a4 Hrules (gp_state _ _ _ _ _ _ S34)) as (T4 & E4' & S4 & Hm4); [constructor| |done|].
  { intros it Hit. eapply item_ok_step; [exact S34| |by apply Hitems]. exact (kept_equiv g2 g3 Q3). }
  cbn [a_graph] in S4. unfold persist in E5. apply bind_Ok in E5 as (g5 & E5 & [= <-]). cbn [a_graph] in E6.
  pose proof (merge_all_ok T4 (a_graph a4) E4' (a_merges a4) g5 (gp_state _ _ _ _ _ _ S4) Hm4 E5) as S5.
  destruct (gstep_constprop T4 g5 E4' g6 (gp_state _ _ _ _ _ _ S5) E6) as (T6 & E6' & S6).
  pose proof (gstep_rebuild T6 g6 E6' g7 (gp_state _ _ _ _ _ _ S6) E7) as S7.
  assert (gstep T g2 E T6 g7 E6') as Sall.
  { eapply gstep_trans; [exact S34|]. eapply gstep_trans; [exact S4|]. eapply gstep_trans; [exact S5|]. by eapply gstep_trans. }
  destruct (IH T6 E6' st1 g7) as (T8 & E8 & S8); [apply Sall|by eapply pot_ok_step|done|done|].
  exists T8, E8. eapply gstep_trans; [exact S1|]. eapply gstep_trans; [exact S2|]. by eapply gstep_trans.
Qed.
Lemma equality_saturation_ok fuel T E g g' :
  Forall rule_ok (m_clauses M) -> gstate T g E -> equality_saturation fuel M g = Ok g' -> exists T' E', gstep T g E T' g' E'.
Proof.
  intros Hrules Hg E0. unfold equality_saturation in E0. apply bind_Ok in E0 as (g1 & E1 & E0). apply bind_Ok in E0 as (g2 & E2 & E0).
  destruct (gstep_constprop T g E g1 Hg E1) as (T1 & E1' & S1). pose proof (gstep_rebuild T1 g1 E1' g2 (gp_state _ _ _ _ _ _ S1) E2) as S2.
  destruct (saturate_ok fuel T1 E1' (mkEM ∅ ∅) g2 g' Hrules) as (T3 & E3 & S3); [apply S2| | |done|].
  - intros k i idx (l & Hl & _). cbn in Hl. by apply lookup_empty_Some in Hl.
  - intros k i idx (l & Hl & _). cbn in Hl. by apply lookup_empty_Some in Hl.
  - exists T3, E3. eapply gstep_trans; [exact S1|]. by eapply gstep_trans.
Qed.
End engine.
