(* ===== verification/RuleSound.v ===== *)
(** The rewrite rules keep the graph sound: every rule that only looks at the
    node it matched and at the values of its operands satisfies the contract of
    RewriteSound.v. *)
From stdpp Require Import sorting.
From S2P Require Import Prelude LLVM IRType Value Opcode Operation Matching Create Semantics.
From S2P Require Import Simplifier SimplifierInt SimplifierSound UnionFind EGraph EGraphSound EGraphRebuild Extract GraphAssertions Constprop.
From S2P Require Import EMatching Rewrites RewriteSound.
Open Scope Z_scope.

Section rules.
Context `{PtrEq} `{!DataPtrEq} `{MapOrder} `{MathExtrasAPI} `{Config} `{!OpScope} (M : EMatcher).
#[local] Abbreviation grep g i := (rep (union_find g) i).
Implicit Types (T : Z -> Ty) (E : Env -> Prop).

(** *** Lookups and additions *)
Lemma acc_get_ok T E a i c a' :
  gstate T (a_graph a) E -> in_graph (a_graph a) i -> acc_get a i = Ok (c, a') ->
  uf_equiv (a_graph a) (a_graph a') /\ a_merges a' = a_merges a /\ a_data a' = a_data a /\ classes (a_graph a) !! grep (a_graph a) i = Some c.
Proof.
  intros Hg Hi E0. unfold acc_get, eg_get in E0. destruct (eg_find_ok (a_graph a) i (inv_uf T _ (gs_inv T _ E Hg)) Hi) as (g1 & E1 & Q1).
  rewrite E1, !ok_bind in E0. cbv beta iota in E0. apply bind_Ok in E0 as ([r x] & Hx%of_option_Ok & [= <- <-]).
  rewrite (eqv_classes _ _ Q1) in Hx. apply fmap_Some in Hx as (y & Hy & [= -> ->]). by split_and!.
Qed.
Lemma matched_root T g E i c : gstate T g E -> classes g !! i = Some c -> in_graph g i /\ grep g i = i.
Proof. intros Hg Hc. apply (inv_dom T g (gs_inv T g E Hg)). eauto. Qed.
Lemma node_at_ok out T E a i idx c n n' a' :
  gstate T (a_graph a) E -> classes (a_graph a) !! i = Some c -> at_z (nodes c) idx = Some n -> node_or out a i idx = Ok (n', a') ->
  n' = n /\ uf_equiv (a_graph a) (a_graph a') /\ a_merges a' = a_merges a /\ a_data a' = a_data a.
Proof.
  intros Hg Hc Hn E0. destruct (matched_root T _ E i c Hg Hc) as [Hi Hr]. unfold node_or in E0. apply bind_Ok in E0 as ([x a1] & E1 & E0).
  destruct (acc_get_ok T E a i x a1 Hg Hi E1) as (Q & Em & Ed & Hx). rewrite Hr, Hc in Hx. injection Hx as <-.
  apply bind_Ok in E0 as (m & Hm%of_option_Ok & [= <- <-]). split_and!; [congruence|done..].
Qed.
(** What a rule owes, from the graph it was given. *)
Definition rule_post T (a : GraphAccessor) E (a' : GraphAccessor) : Prop :=
  exists T' E', gstep T (a_graph a) E T' (a_graph a') E' /\ merges_ok T' (a_graph a') E' (a_merges a') /\ kept (a_graph a) (a_graph a').
Lemma rule_post_equiv T a E a1 a' :
  gstate T (a_graph a) E -> uf_equiv (a_graph a) (a_graph a1) -> rule_post T a1 E a' -> rule_post T a E a'.
Proof.
  intros Hg Q (T' & E' & S & Hm & K). exists T', E'. split_and!; [|done|by eapply kept_trans; [apply kept_equiv|]].
  eapply gstep_trans; [by apply gstep_equiv|done].
Qed.
Lemma acc_merge_ok T a E i j :
  gstate T (a_graph a) E -> merges_ok T (a_graph a) E (a_merges a) -> in_graph (a_graph a) i -> in_graph (a_graph a) j ->
  T i = T j -> same_value E i j -> rule_post T a E (acc_merge a i j).
Proof.
  intros Hg Hm Hi Hj Ht Hv. exists T, E. unfold acc_merge. destruct (i =? j); cbn; split_and!; try (by apply gstep_refl); try apply kept_refl; try done.
  apply Forall_app. split; [done|by apply Forall_singleton].
Qed.
Lemma add_merge_ok T a E i m a' :
  gstate T (a_graph a) E -> merges_ok T (a_graph a) E (a_merges a) -> in_graph (a_graph a) i ->
  clean (en_data m) -> wf (node_op T m) -> Forall (in_graph (a_graph a)) (en_operands m) -> safe_node m -> od_type (en_data m) = T i ->
  (forall e, E e -> denote e (node_op T m) = env_node e i) -> acc_add_merge a i m = Ok a' -> rule_post T a E a'.
Proof.
  intros Hg Hm Hi Hc Hw Ho Hsafe Ht Hv E0. unfold acc_add_merge, acc_add in E0.
  apply bind_Ok in E0 as ([id a1] & E1 & [= <-]). apply bind_Ok in E1 as ([id' g1] & E1 & [= <- <-]).
  destruct (gstep_add T (a_graph a) E m id' g1 Hg Hc Hw Ho Hsafe) as (T' & E' & S & K & Hid & Hvid); [|done|].
  { intros e He. rewrite Hv by done. by apply (gs_total T _ E Hg). }
  pose proof (gstep_in _ _ _ _ _ _ i S Hi) as Hi'.
  destruct (acc_merge_ok T' (with_graph a g1) E' i id') as (T2 & E2 & S2 & Hm2 & K2).
  - apply S.
  - by eapply merges_ok_step.
  - done.
  - apply (entry_class _ _ _ _ Hid).
  - rewrite <- (entry_type _ _ _ _ Hid), Ht. by apply (gp_extends _ _ _ _ _ _ S).
  - intros e' He'. rewrite <- (Hvid e' He'). destruct (gp_bwd _ _ _ _ _ _ S e' He') as (e & He & X).
    rewrite (node_value_extends T (a_graph a) T' g1 e e' m) by (done || apply S). rewrite (Hv e He). by apply (ext_node _ _ _ X).
  - exists T2, E2. split_and!; [by eapply gstep_trans|done|by eapply kept_trans].
Qed.
(** A constant of the type of the class. *)
Lemma add_merge_constant T a E i v m a' :
  gstate T (a_graph a) E -> merges_ok T (a_graph a) E (a_merges a) -> in_graph (a_graph a) i ->
  good_width (getBitWidth v) -> T i = ity (getBitWidth v) -> (forall e, E e -> env_node e i = Some (DInt v)) ->
  constant_node v = Ok m -> acc_add_merge a i m = Ok a' -> rule_post T a E a'.
Proof.
  intros Hg Hm Hi Hw Ht Hv Em E0. unfold constant_node in Em. rewrite ConstantIntData_ok, ok_bind in Em by done. injection Em as <-.
  apply (add_merge_ok T a E i (mkNode (int_data v) [])); try done.
  - constructor; [constructor|by exists v].
  - intros e He. by rewrite Hv.
Qed.

(** *** The node that was matched *)
Lemma potential_opcode sc n o : sc_opcode sc = Some o -> potential sc n -> od_opcode (en_data n) = o.
Proof.
  unfold potential, is_potential_match. intros Eo Hp. rewrite Eo in Hp. case_bool_decide as Hne; [|by injection Hne as ->].
  by rewrite bool_decide_eq_true_2 in Hp.
Qed.
Lemma potential_filter sc n f : sc_filter sc = Some f -> potential sc n -> filter_matches f n = Ok true.
Proof. unfold potential, is_potential_match. intros Ef Hp. rewrite Ef in Hp. by case_match. Qed.
(** An integer operation: two operands of the type of the node, with values. *)
Lemma int_node_values T g E n i o w :
  gstate T g E -> sem_entry T g E n i -> od_opcode (en_data n) = o -> int_binop o = true -> od_type (en_data n) = ity w ->
  exists x y, en_operands n = [x; y] /\ good_width w /\ in_graph g x /\ in_graph g y /\ T x = ity w /\ T y = ity w /\
    forall e, E e -> exists a b, env_node e x = Some (DInt a) /\ env_node e y = Some (DInt b) /\ getBitWidth a = w /\ getBitWidth b = w /\
      env_node e i = (fun z => DInt (APInt_of w z)) <$> sem_int o w (getZExtValue a) (getZExtValue b).
Proof.
  intros Hg [[Hcl Hw Hops Hi Ht] Hv] Ho Hb Hty. inversion Hw as [? ? _ Hok]; subst. unfold node_ok in Hok.
  assert (exists x y, en_operands n = [x; y] /\ exists w', good_width w' /\ od_type (en_data n) = ity w' /\ T x = ity w' /\ T y = ity w')
    as (x & y & Exy & w' & Hw' & Hd & Hx & Hy).
  { destruct (od_opcode (en_data n)); try done; destruct (en_operands n) as [|x [|y [|? ?]]]; try done; destruct Hok as (w' & ?); eauto 10. }
  clear Hok. rewrite Hd in Hty. injection Hty as ->. rewrite Exy in Hops. apply Forall_cons in Hops as [Gx Hops]. apply Forall_cons in Hops as [Gy _].
  exists x, y. split_and!; try done. intros e He. pose proof (gs_sat T g E Hg e He) as Hs.
  destruct (gs_total T g E Hg e He x Gx) as [u Eu]. destruct (gs_total T g E Hg e He y Gy) as [v Ev].
  pose proof (sat_typed T e g Hs x u Gx Eu) as Tu. rewrite Hx in Tu. pose proof (sat_typed T e g Hs y v Gy Ev) as Tv. rewrite Hy in Tv.
  apply den_int_inv in Tu as (a & -> & Ha). apply den_int_inv in Tv as (b & -> & Hb'). exists a, b. split_and!; try done.
  rewrite <- (Hv e He), (node_value T e g n Hs) by (rewrite Exy, !Forall_cons; by split_and!). rewrite Exy. cbn [fmap list_fmap]. rewrite Eu, Ev.
  unfold denote_node. destruct (od_opcode (en_data n)); try done; cbn; by rewrite Ha, Hb', Z.eqb_refl.
Qed.

Lemma icmp_node_values T g E n i c :
  gstate T g E -> sem_entry T g E n i -> od_opcode (en_data n) = OpICmp c ->
  exists x y w, en_operands n = [x; y] /\ good_width w /\ od_type (en_data n) = ity 1 /\ in_graph g x /\ in_graph g y /\ T x = ity w /\ T y = ity w /\
    forall e, E e -> exists a b, env_node e x = Some (DInt a) /\ env_node e y = Some (DInt b) /\ getBitWidth a = w /\ getBitWidth b = w /\
      env_node e i = Some (den_bool (sem_icmp c w (getZExtValue a) (getZExtValue b))).
Proof.
  intros Hg [[Hcl Hw Hops Hi Ht] Hv] Ho. inversion Hw as [? ? _ Hok]; subst. unfold node_ok in Hok. rewrite Ho in Hok.
  destruct (en_operands n) as [|x [|y [|? ?]]] eqn:Exy; try done. cbn in Hok. destruct Hok as (w & Hw' & Hd & Hx & Hy).
  apply Forall_cons in Hops as [Gx Hops]. apply Forall_cons in Hops as [Gy _].
  exists x, y, w. split_and!; try done. intros e He. pose proof (gs_sat T g E Hg e He) as Hs.
  destruct (gs_total T g E Hg e He x Gx) as [u Eu]. destruct (gs_total T g E Hg e He y Gy) as [v Ev].
  pose proof (sat_typed T e g Hs x u Gx Eu) as Tu. rewrite Hx in Tu. pose proof (sat_typed T e g Hs y v Gy Ev) as Tv. rewrite Hy in Tv.
  apply den_int_inv in Tu as (a & -> & Ha). apply den_int_inv in Tv as (b & -> & Hb). exists a, b. split_and!; try done.
  rewrite <- (Hv e He), (node_value T e g n Hs) by (rewrite Exy, !Forall_cons; by split_and!). rewrite Exy. cbn [fmap list_fmap]. rewrite Eu, Ev.
  unfold denote_node. rewrite Ho. cbn. by rewrite Ha, Hb, Z.eqb_refl.
Qed.
Lemma identical_operands n x y : filter_matches IdenticalOperandsFilter n = Ok true -> en_operands n = [x; y] -> y = x.
Proof. unfold filter_matches. intros Hf Exy. rewrite Exy in Hf. cbn in Hf. injection Hf as Hf. apply andb_true_iff in Hf as [_ Hf]. apply andb_true_iff in Hf as [Hf _]. by apply Z.eqb_eq. Qed.

(** *** Commutativity *)
Definition commutes (o : Opcode) : bool :=
  match o with OpAdd | OpMul | OpAnd | OpOr | OpXor | OpICmp EQ | OpICmp NE => true | _ => false end.
Lemma sem_binary_comm o u v : commutes o = true -> sem_binary o u v = sem_binary o v u.
Proof.
  intros Ho. destruct u as [a|f|], v as [b|h|]; try done; cbn.
  - rewrite (Z.eqb_sym (getBitWidth b)). destruct (Z.eqb_spec (getBitWidth a) (getBitWidth b)) as [Hw|]; [|done]. rewrite <- Hw.
    destruct o as [| | | | | | | | | | | | | | | | | | | | | | | | | |[]| | | | | | | | | | | | | | | | | | |]; try done; cbn;
      by rewrite 1?Z.add_comm, 1?Z.mul_comm, 1?Z.land_comm, 1?Z.lor_comm, 1?Z.lxor_comm, 1?(Z.eqb_sym (getZExtValue a)).
  - by destruct o.
Qed.
Lemma commute_ok T E a i idx c n o sc a' :
  gstate T (a_graph a) E -> merges_ok T (a_graph a) E (a_merges a) ->
  classes (a_graph a) !! i = Some c -> at_z (nodes c) idx = Some n -> sc_opcode sc = Some o -> potential sc n ->
  commutes o = true \/ safe_opcode o = false -> commute a i idx = Ok a' -> rule_post T a E a'.
Proof.
  intros Hg Hm Hc Hn Hsc Hp Ho E0. pose proof (at_z_in _ _ _ Hn) as Hin. pose proof (class_entry T _ E i c n Hg Hc Hin) as Hent.
  pose proof (potential_opcode sc n o Hsc Hp) as Hop. destruct Ho as [Ho|Ho].
  2: { pose proof (gs_safe T _ E Hg i c n Hc Hin) as Hs. unfold safe_node in Hs. congruence. }
  unfold commute in E0. apply bind_Ok in E0 as ([n' a1] & E1 & E0). destruct (node_at_ok _ T E a i idx c n n' a1 Hg Hc Hn E1) as (-> & Q & Em & _).
  apply (rule_post_equiv T a E a1); [done|done|]. pose proof (gstep_equiv T _ _ E Hg Q) as S. pose proof Hent as [[Hcl Hw Hops Hi Ht] Hv].
  inversion Hw as [? ? Hlw Hok]; subst.
  assert (exists x y, en_operands n = [x; y] /\ node_ok (en_data n) [leaf T y; leaf T x]) as (x & y & Exy & Hok').
  { unfold node_ok in *. destruct (od_opcode (en_data n)) as [| | | | | | | | | | | | | | | | | | | | | | | | | |[]| | | | | | | | | | | | | | | | | | |]; try done;
      destruct (en_operands n) as [|x [|y [|? ?]]]; try done; exists x, y; (split; [done|]); destruct Hok as (w & ?); exists w; naive_solver. }
  unfold operand in E0. rewrite Exy in E0. cbn [lookup list_lookup of_option] in E0. rewrite !ok_bind in E0.
  rewrite Exy in Hops. apply Forall_cons in Hops as [Gx Hops]. apply Forall_cons in Hops as [Gy _].
  apply (add_merge_ok T a1 E i (mkNode (en_data n) [y; x])); try done.
  - apply S.
  - rewrite Em. by eapply merges_ok_step.
  - by apply (uf_equiv_in _ _ i Q).
  - constructor; [|done]. constructor; [apply leaf_wf|constructor; [apply leaf_wf|constructor]].
  - cbn. rewrite !Forall_cons. split_and!; [by apply (uf_equiv_in _ _ _ Q)..|done].
  - apply (gs_safe T _ E Hg i c n Hc Hin).
  - intros e He. rewrite <- (Hv e He). pose proof (gs_sat T _ E Hg e He) as Hs. unfold node_op. cbn [en_data en_operands]. rewrite Exy.
    cbn [denote fmap list_fmap]. change (denote e (leaf T x)) with (denote e (leaf T x)). rewrite !(leaf_value T e _ _ Hs) by done.
    destruct (gs_total T _ E Hg e He x Gx) as [u ->]. destruct (gs_total T _ E Hg e He y Gy) as [v ->].
    unfold denote_node. pose proof (sem_binary_comm (od_opcode (en_data n)) v u Ho) as K.
    destruct (od_opcode (en_data n)) as [| | | | | | | | | | | | | | | | | | | | | | | | | |[]| | | | | | | | | | | | | | | | | | |]; done.
Qed.
(** *** Operations on equal operands *)
Lemma int_node_type T g E n i o :
  sem_entry T g E n i -> od_opcode (en_data n) = o -> int_binop o = true -> exists w, od_type (en_data n) = ity w.
Proof.
  intros [[Hcl Hw Hops Hi Ht] Hv] Ho Hb. inversion Hw as [? ? _ Hok]; subst. unfold node_ok in Hok.
  destruct (od_opcode (en_data n)); try done; destruct (en_operands n) as [|x [|y [|? ?]]]; try done; destruct Hok as (w & ? & ? & _); by exists w.
Qed.
(** The class a rule was called for, after the lookup of it. *)
Lemma matched_class T E a i c x a1 :
  gstate T (a_graph a) E -> merges_ok T (a_graph a) E (a_merges a) -> classes (a_graph a) !! i = Some c -> acc_get a i = Ok (x, a1) ->
  x = c /\ uf_equiv (a_graph a) (a_graph a1) /\ gstate T (a_graph a1) E /\ merges_ok T (a_graph a1) E (a_merges a1) /\
  in_graph (a_graph a1) i /\ eclass_type c = Ok (T i).
Proof.
  intros Hg Hm Hc E1. destruct (matched_root T _ E i c Hg Hc) as [Hi Hr]. destruct (acc_get_ok T E a i x a1 Hg Hi E1) as (Q & Em & _ & Hx).
  rewrite Hr, Hc in Hx. injection Hx as <-. pose proof (gstep_equiv T _ _ E Hg Q) as S.
  split_and!; [done|done|apply S|rewrite Em; by eapply merges_ok_step|by apply (uf_equiv_in _ _ i Q)|].
  apply (eclass_type_ok T (a_graph a)). by apply (inv_class T _ (gs_inv T _ E Hg)).
Qed.
Lemma matched_node out T E a i idx c n n' a1 :
  gstate T (a_graph a) E -> merges_ok T (a_graph a) E (a_merges a) -> classes (a_graph a) !! i = Some c -> at_z (nodes c) idx = Some n ->
  node_or out a i idx = Ok (n', a1) ->
  n' = n /\ uf_equiv (a_graph a) (a_graph a1) /\ gstate T (a_graph a1) E /\ merges_ok T (a_graph a1) E (a_merges a1) /\
  in_graph (a_graph a1) i /\ sem_entry T (a_graph a1) E n i.
Proof.
  intros Hg Hm Hc Hn E1. unfold node_or in E1. apply bind_Ok in E1 as ([x a2] & E1 & E2). apply bind_Ok in E2 as (m & Hx%of_option_Ok & [= -> ->]).
  destruct (matched_class T E a i c x a1 Hg Hm Hc E1) as (-> & Q & Hg1 & Hm1 & Hi & _). rewrite Hn in Hx. injection Hx as <-.
  split_and!; try done. apply (sem_entry_step _ _ _ _ _ _ n i (gstep_equiv T _ _ E Hg Q)), (class_entry T _ E i c); [done|done|by eapply at_z_in].
Qed.
Lemma operand_Ok n k x : operand n k = Ok x -> en_operands n !! k = Some x.
Proof. apply of_option_Ok. Qed.

Lemma sem_int_same o w z : o = OpSub \/ o = OpXor -> sem_int o w z z = Some 0.
Proof. intros [-> | ->]; cbn; [by rewrite Z.sub_diag|by rewrite Z.lxor_nilpotent]. Qed.
Lemma to_zero_ok T E a i idx c n o sc a' :
  gstate T (a_graph a) E -> merges_ok T (a_graph a) E (a_merges a) ->
  classes (a_graph a) !! i = Some c -> at_z (nodes c) idx = Some n -> sc_opcode sc = Some o -> sc_filter sc = Some IdenticalOperandsFilter ->
  potential sc n -> o = OpSub \/ o = OpXor -> to_zero a i idx = Ok a' -> rule_post T a E a'.
Proof.
  intros Hg Hm Hc Hn Hsc Hf Hp Ho E0. pose proof (class_entry T _ E i c n Hg Hc (at_z_in _ _ _ Hn)) as Hent.
  pose proof (potential_opcode sc n o Hsc Hp) as Hop. pose proof (potential_filter sc n _ Hf Hp) as Hid.
  assert (int_binop o = true) as Hb by (by destruct Ho as [-> | ->]). destruct (int_node_type T _ E n i o Hent Hop Hb) as (w & Hty).
  destruct (int_node_values T _ E n i o w Hg Hent Hop Hb Hty) as (x & y & Exy & Hw & _ & _ & _ & _ & Hv).
  pose proof (identical_operands n x y Hid Exy) as ->. unfold to_zero in E0. apply bind_Ok in E0 as ([c' a1] & E1 & E0).
  destruct (matched_class T E a i c c' a1 Hg Hm Hc E1) as (-> & Q & Hg1 & Hm1 & Hi1 & Ety). rewrite Ety, ok_bind in E0.
  pose proof (entry_type _ _ _ _ (proj1 Hent)) as Hti. rewrite <- Hti, Hty, bitwidth_ity, ok_bind in E0.
  apply bind_Ok in E0 as (m & Em & E0). 
  apply (rule_post_equiv T a E a1); [done|done|]. assert (0 < w) by (unfold good_width in Hw; lia). rewrite getNullValue_spec in Em by done.
  apply (add_merge_constant T a1 E i (APInt_of w 0) m a'); rewrite ?APInt_of_width by done; try done; [congruence|].
  intros e He. destruct (Hv e He) as (u & v & Eu & Ev & _ & _ & ->). rewrite Eu in Ev. injection Ev as <-.
  by rewrite sem_int_same.
Qed.
Lemma wrap_lor_same w z : sem_int OpAnd w z z = Some z /\ sem_int OpOr w z z = Some z.
Proof. cbn. by rewrite Z.land_diag, Z.lor_diag. Qed.
(** The value of the class of a constant node. *)
Lemma constant_entry_value T g E n i v :
  sem_entry T g E n i -> constant_int_data (en_data n) = Some v ->
  good_width (getBitWidth v) /\ T i = ity (getBitWidth v) /\ od_type (en_data n) = T i /\ forall e, E e -> env_node e i = Some (DInt v).
Proof.
  intros [[Hcl Hw _ _ Ht] Hv] Ha. destruct n as [[o t p] ops]. unfold constant_int_data in Ha. cbn in *.
  destruct o; try done. destruct p; try done. injection Ha as ->.
  inversion Hw as [? ? _ Hok]; subst. unfold node_ok in Hok. cbn in Hok. destruct ops; [|done]. destruct Hok as (a & [= <-] & Hgw & Hty).
  split_and!; [done|congruence|done|]. intros e He. by rewrite <- (Hv e He).
Qed.
Lemma to_operand_same_ok T E a i idx c n o sc a' :
  gstate T (a_graph a) E -> merges_ok T (a_graph a) E (a_merges a) ->
  classes (a_graph a) !! i = Some c -> at_z (nodes c) idx = Some n -> sc_opcode sc = Some o -> sc_filter sc = Some IdenticalOperandsFilter ->
  potential sc n -> o = OpAnd \/ o = OpOr -> to_operand UndefinedBehaviour 0 a i idx = Ok a' -> rule_post T a E a'.
Proof.
  intros Hg Hm Hc Hn Hsc Hf Hp Ho E0. unfold to_operand in E0. apply bind_Ok in E0 as ([n' a1] & E1 & E0).
  destruct (matched_node _ T E a i idx c n n' a1 Hg Hm Hc Hn E1) as (-> & Q & Hg1 & Hm1 & Hi1 & Hent).
  pose proof (potential_opcode sc n o Hsc Hp) as Hop. pose proof (potential_filter sc n _ Hf Hp) as Hid.
  assert (int_binop o = true) as Hb by (by destruct Ho as [-> | ->]). destruct (int_node_type T _ E n i o Hent Hop Hb) as (w & Hty).
  destruct (int_node_values T _ E n i o w Hg1 Hent Hop Hb Hty) as (x & y & Exy & Hw & Gx & _ & Tx & _ & Hv).
  pose proof (identical_operands n x y Hid Exy) as ->. unfold operand in E0. rewrite Exy in E0. cbn in E0. injection E0 as <-.
  apply (rule_post_equiv T a E a1); [done|done|]. apply (acc_merge_ok T a1 E); try done.
  - rewrite Tx, <- Hty. symmetry. apply (entry_type _ _ _ _ (proj1 Hent)).
  - intros e He. destruct (Hv e He) as (u & v & Eu & Ev & Hu & _ & ->). rewrite Eu in Ev. injection Ev as <-. rewrite Eu.
    destruct (wrap_lor_same w (getZExtValue u)) as [Ea Eo]. destruct Ho as [-> | ->]; rewrite ?Ea, ?Eo; cbn; by rewrite <- Hu, APInt_eta.
Qed.
Lemma zero_filter k : good_width (getBitWidth k) -> ap_eq k (ap_sextOrTrunc (getNullValue 1) (getBitWidth k)) = true -> getZExtValue k = 0.
Proof.
  unfold good_width. intros Hk. rewrite getNullValue_spec, ap_sextOrTrunc_spec by (rewrite ?APInt_of_width; lia).
  rewrite ap_eq_spec by (by rewrite APInt_of_width by lia). rewrite Z.eqb_eq, !APInt_of_value, APInt_of_width by lia. by intros ->.
Qed.
Lemma to_zero_operand_ok T E a i idx c n sc s0 s1 z k1 k2 a' :
  gstate T (a_graph a) E -> merges_ok T (a_graph a) E (a_merges a) ->
  classes (a_graph a) !! i = Some c -> at_z (nodes c) idx = Some n -> sc = mkSubClause (Some OpAnd) [s0; s1] None k1 ->
  subclause_is M s1 z -> z = mkSubClause (Some OpConstantInt) [] (Some (ConstantOperandFilter (getNullValue 1))) k2 ->
  sem_match M T (a_graph a) E sc n -> to_operand Thrown 1 a i idx = Ok a' -> rule_post T a E a'.
Proof.
  intros Hg Hm Hc Hn -> Hz -> [Hp Hsub] E0. unfold to_operand in E0. apply bind_Ok in E0 as ([n' a1] & E1 & E0).
  destruct (matched_node _ T E a i idx c n n' a1 Hg Hm Hc Hn E1) as (-> & Q & Hg1 & Hm1 & Hi1 & Hent).
  assert (od_opcode (en_data n) = OpAnd) as Hop by (eapply potential_opcode; [|exact Hp]; done). destruct (int_node_type T _ E n i OpAnd Hent Hop eq_refl) as (w & Hty).
  destruct (int_node_values T _ E n i OpAnd w Hg1 Hent Hop eq_refl Hty) as (x & y & Exy & Hw & _ & Gy & _ & Ty & Hv).
  destruct Hsub as [|Hsub]; [done|]. cbn in Hsub. rewrite Exy in Hsub. apply Forall2_cons in Hsub as [_ Hsub]. apply Forall2_cons in Hsub as [Hl _].
  destruct (Hl _ Hz) as (m & Hment & Hmp & _). assert (filter_matches (ConstantOperandFilter (getNullValue 1)) m = Ok true) as Hf by (eapply potential_filter; [|exact Hmp]; done). cbn in Hf.
  destruct (constant_int_data (en_data m)) as [k|] eqn:Ek; [|done].
  destruct (constant_entry_value T _ E m y k Hment Ek) as (Hgk & HTk & Hmt & Hvk).
  rewrite Hmt, HTk, bitwidth_ity in Hf. cbn in Hf. injection Hf as Hf.
  unfold operand in E0. rewrite Exy in E0. cbn in E0. injection E0 as <-.
  apply (rule_post_equiv T a E a1); [done|done|]. apply (acc_merge_ok T a1 E); try done.
  - rewrite Ty, <- Hty. symmetry. apply (entry_type _ _ _ _ (proj1 Hent)).
  - intros e He. destruct (Hv e He) as (u & v & Eu & Ev & Hu & Hvw & ->). rewrite Ev. rewrite (Hvk e He) in Ev. injection Ev as <-.
    cbn. rewrite (zero_filter k Hgk Hf), Z.land_0_r, <- (zero_filter k Hgk Hf). by rewrite <- Hvw, APInt_eta.
Qed.
(** *** Comparisons *)
Lemma icmp_bools_same o v c : (o, v) ∈ icmp_bools -> o = OpICmp c -> forall w z, sem_icmp c w z z = v.
Proof.
  intros Hin -> w z. repeat (apply elem_of_cons in Hin as [[= -> ->]|Hin]; [cbn; by rewrite ?Z.eqb_refl, ?Z.ltb_irrefl, ?Z.leb_refl|]). by apply elem_of_nil in Hin.
Qed.
Lemma to_bool_ok T E a i idx c n o v sc a' :
  gstate T (a_graph a) E -> merges_ok T (a_graph a) E (a_merges a) ->
  classes (a_graph a) !! i = Some c -> at_z (nodes c) idx = Some n -> sc_opcode sc = Some o -> sc_filter sc = Some IdenticalOperandsFilter ->
  potential sc n -> (o, v) ∈ icmp_bools -> to_bool v a i idx = Ok a' -> rule_post T a E a'.
Proof.
  intros Hg Hm Hc Hn Hsc Hf Hp Ho E0. pose proof (class_entry T _ E i c n Hg Hc (at_z_in _ _ _ Hn)) as Hent.
  pose proof (potential_opcode sc n o Hsc Hp) as Hop. pose proof (potential_filter sc n _ Hf Hp) as Hid.
  assert (exists cmp, o = OpICmp cmp) as [cmp ->].
  { clear -Ho. repeat (apply elem_of_cons in Ho as [[= -> ->]|Ho]; [eauto|]). by apply elem_of_nil in Ho. }
  destruct (icmp_node_values T _ E n i cmp Hg Hent Hop) as (x & y & w & Exy & Hw & Hty & _ & _ & _ & _ & Hv).
  pose proof (identical_operands n x y Hid Exy) as ->. unfold to_bool in E0. apply bind_Ok in E0 as (m & Em & E0).
  destruct (matched_root T _ E i c Hg Hc) as [Hi _].
  assert ((if v then getMaxValue 1 else getNullValue 1) = APInt_of 1 (Z.b2z v)) as Ev by (destruct v; [by rewrite getMaxValue_spec|by rewrite getNullValue_spec]).
  rewrite Ev in Em. apply (add_merge_constant T a E i (APInt_of 1 (Z.b2z v)) m a'); rewrite ?APInt_of_width by done; try done.
  - rewrite <- (entry_type _ _ _ _ (proj1 Hent)). done.
  - intros e He. destruct (Hv e He) as (u & u' & Eu & Eu' & _ & _ & ->). rewrite Eu in Eu'. injection Eu' as <-.
    by rewrite (icmp_bools_same _ v cmp Ho eq_refl).
Qed.

(** *** Rules for opcodes outside of the scope *)
Lemma unsafe_rule_ok k upd sc o :
  subclause_is M k sc -> sc_opcode sc = Some o -> safe_opcode o = false -> rule_ok M (mkClause k None upd).
Proof.
  intros Hsc Ho Hs T E a i idx c n sc' a' Hg _ Hc Hn Hsc' [Hp _] _. cbn in Hsc'. unfold subclause_is in *. rewrite Hsc in Hsc'. injection Hsc' as <-.
  pose proof (gs_safe T _ E Hg i c n Hc (at_z_in _ _ _ Hn)) as Hn'. unfold safe_node in Hn'. rewrite (potential_opcode sc n o Ho Hp) in Hn'. congruence.
Qed.
(** The first clause below the matched one is outside of the scope. *)
Lemma unsafe_operand_rule_ok k upd sc s ss sc1 o :
  subclause_is M k sc -> sc_submatchers sc = s :: ss -> subclause_is M s sc1 -> sc_opcode sc1 = Some o -> safe_opcode o = false ->
  rule_ok M (mkClause k None upd).
Proof.
  intros Hsc Hss Hs Ho Hsafe T E a i idx c n sc' a' Hg _ Hc Hn Hsc' [_ Hsub] _. cbn in Hsc'. pose proof Hsc as Hsc0. unfold subclause_is in Hsc0, Hsc'.
  rewrite Hsc0 in Hsc'. injection Hsc' as <-. destruct Hsub as [Hnil|Hsub]; [congruence|]. rewrite Hss in Hsub.
  inversion Hsub as [|? x ? xs Hl _]; subst. destruct (Hl sc1 Hs) as (m & _ & Hp & Hm). unfold safe_node in Hm.
  rewrite (potential_opcode sc1 m o Ho Hp) in Hm. congruence.
Qed.
End rules.
