(* ===== verification/AssocSound.v ===== *)
(** The associativity rewrite keeps the graph sound: the operands of a chain of
    an associative and commutative operation can be collected, sorted and
    combined again in the new order. *)
From stdpp Require Import sorting.
From S2P Require Import Prelude LLVM IRType Value Opcode Operation Matching Create Semantics.
From S2P Require Import Simplifier SimplifierInt SimplifierSound UnionFind EGraph EGraphSound EGraphRebuild Extract GraphAssertions Constprop.
From S2P Require Import EMatching Rewrites RewriteSound RuleSound.
Open Scope Z_scope.

(** ** The operations on [w] bits *)
Definition ac_fun (o : Opcode) : option (Z -> Z -> Z) :=
  match o with
  | OpAdd => Some Z.add | OpMul => Some Z.mul | OpAnd => Some Z.land | OpOr => Some Z.lor | OpXor => Some Z.lxor
  | _ => None
  end.
Definition ac_unit (o : Opcode) : Z := match o with OpMul => 1 | OpAnd => -1 | _ => 0 end.
(** An operation that depends on the low [w] bits of its arguments only. *)
Record ac_law (f : Z -> Z -> Z) (u : Z) : Prop := {
  ac_comm : forall x y, f x y = f y x;
  ac_assoc : forall x y z, f x (f y z) = f (f x y) z;
  ac_neutral : forall x, f x u = x;
  ac_wrap : forall w x y, 0 <= w -> wrap w (f (wrap w x) y) = wrap w (f x y)
}.
Lemma bitwise_wrap (f : Z -> Z -> Z) (b : bool -> bool -> bool) :
  (forall x y i, 0 <= i -> Z.testbit (f x y) i = b (Z.testbit x i) (Z.testbit y i)) ->
  forall w x y, 0 <= w -> wrap w (f (wrap w x) y) = wrap w (f x y).
Proof.
  intros Hf w x y Hw. apply Z.bits_inj'. intros i Hi. rewrite !testbit_wrap, !Hf, testbit_wrap by done.
  by destruct (i <? w).
Qed.
Lemma ac_ok o f : ac_fun o = Some f -> ac_law f (ac_unit o).
Proof.
  destruct o; try done; intros [= <-]; cbn; split; try (intros; lia).
  - intros. by apply wrap_add_l.
  - intros w x y Hw. unfold wrap. by rewrite Zmult_mod_idemp_l.
  - apply Z.land_comm.
  - apply Z.land_assoc.
  - intros. apply Z.land_m1_r.
  - apply (bitwise_wrap _ andb). intros. apply Z.land_spec.
  - apply Z.lor_comm.
  - apply Z.lor_assoc.
  - intros. apply Z.lor_0_r.
  - apply (bitwise_wrap _ orb). intros. apply Z.lor_spec.
  - apply Z.lxor_comm.
  - intros. by rewrite Z.lxor_assoc.
  - intros. apply Z.lxor_0_r.
  - apply (bitwise_wrap _ xorb). intros. apply Z.lxor_spec.
Qed.

Section fold.
Context (f : Z -> Z -> Z) (u w : Z) (Hf : ac_law f u) (Hw : 0 <= w).
Definition combine (l : list Z) : Z := wrap w (foldr f u l).
Lemma ac_wrap_r x y : wrap w (f x (wrap w y)) = wrap w (f x y).
Proof using Hf Hw. by rewrite (ac_comm f u Hf x (wrap w y)), (ac_wrap f u Hf), (ac_comm f u Hf). Qed.
Lemma combine_app l1 l2 : combine (l1 ++ l2) = wrap w (f (combine l1) (combine l2)).
Proof using Hf Hw.
  unfold combine. rewrite (ac_wrap f u Hf), ac_wrap_r by done. f_equal. induction l1 as [|x l1 IH]; cbn.
  - by rewrite (ac_comm f u Hf), (ac_neutral f u Hf).
  - by rewrite IH, (ac_assoc f u Hf).
Qed.
Lemma combine_single x : 0 <= x < 2 ^ w -> combine [x] = x.
Proof using Hf Hw. intros Hx. unfold combine. cbn. rewrite (ac_neutral f u Hf). by apply wrap_small. Qed.
Lemma combine_snoc l x y : wrap w (f (wrap w (f y x)) (combine l)) = wrap w (f y (combine (x :: l))).
Proof using Hf Hw. unfold combine. cbn. by rewrite (ac_wrap f u Hf), !ac_wrap_r, (ac_assoc f u Hf). Qed.
Lemma combine_permutation l1 l2 : l1 ≡ₚ l2 -> combine l1 = combine l2.
Proof using Hf.
  intros Hp. unfold combine. f_equal. induction Hp as [|x l1 l2 _ IH|x y l|l1 l2 l3 _ IH1 _ IH2]; cbn; [done|by rewrite IH| |congruence].
  by rewrite !(ac_assoc f u Hf), (ac_comm f u Hf y x).
Qed.
End fold.

Section assoc.
Context `{PtrEq} `{!DataPtrEq} `{MapOrder} `{MathExtrasAPI} `{Config} `{!OpScope} (M : EMatcher).
#[local] Abbreviation grep g i := (rep (union_find g) i).
Implicit Types (T : Z -> Ty) (E : Env -> Prop).

(** ** Costs change caches only *)
Definition cached T E (g g' : EGraph) : Prop := gstep T g E T g' E /\ kept g g'.
Lemma cached_refl T E g : gstate T g E -> cached T E g g.
Proof. split; [by apply gstep_refl|apply kept_refl]. Qed.
Lemma cached_trans T E g1 g2 g3 : cached T E g1 g2 -> cached T E g2 g3 -> cached T E g1 g3.
Proof. intros [S1 K1] [S2 K2]. split; [by eapply gstep_trans|by eapply kept_trans]. Qed.
Lemma cached_equiv T E g g' : gstate T g E -> uf_equiv g g' -> cached T E g g'.
Proof. split; [by apply gstep_equiv|by apply kept_equiv]. Qed.
Lemma cached_state T E g g' : cached T E g g' -> gstate T g' E.
Proof. intros [S _]. apply S. Qed.
Lemma cached_in T E g g' i : cached T E g g' -> in_graph g i -> in_graph g' i.
Proof. intros [S _]. by apply (gstep_in _ _ _ _ _ _ i S). Qed.
Lemma set_cost_cached T E g r c k :
  gstate T g E -> classes g !! r = Some c ->
  cached T E g (set_classes g (<[r := mkClass (nodes c) (parents c) (mkCache (cache_expr (cache c)) k) (constant_index c)]> (classes g))).
Proof.
  intros Hg Hc. pose proof (gs_inv T g E Hg) as Hinv. split.
  - apply gstep_same; [done|done| | |].
    + apply (set_class_inv T g r c); [done|done|]. destruct (inv_class T g Hinv r c Hc). by split.
    + intros e He. pose proof (gs_sat T g E Hg e He) as Hs. apply set_class_sat; [done|]. destruct (sat_class T e g Hs r c Hc). by split.
    + apply (set_class_nodes _ g r c); [apply Hg|done|]. cbn. intros n Hn. by apply (gs_safe T g E Hg r c).
  - intros i x Hx. cbn. destruct (decide (r = i)) as [<-|]; [|rewrite lookup_insert_ne by done; eauto].
    rewrite lookup_insert_eq. rewrite Hc in Hx. injection Hx as <-. by eexists.
Qed.
Lemma update_cost_cached T E x r k x' :
  gstate T (x_graph x) E -> in_graph (x_graph x) r -> update_cached_cost x r k = Ok x' -> cached T E (x_graph x) (x_graph x').
Proof.
  intros Hg Hr E0. unfold update_cached_cost in E0. cbv zeta in E0. cbn [is_const x_graph] in E0.
  destruct (is_const x); [injection E0 as <-; by apply cached_refl|]. unfold eg_get in E0.
  destruct (eg_find_ok (x_graph x) r (inv_uf T _ (gs_inv T _ E Hg)) Hr) as (g1 & E1 & Q). rewrite E1, !ok_bind in E0. cbv beta iota in E0.
  injection E0 as <-. pose proof (cached_equiv T E _ _ Hg Q) as C1. destruct (classes g1 !! _) as [c|] eqn:Hc; cbn; [|done].
  eapply cached_trans; [exact C1|]. by apply set_cost_cached; [apply C1|].
Qed.
Definition cost_cached (f : EGraphExtractor -> Z -> result ((Z * Z) * EGraphExtractor)) : Prop :=
  forall T E x i k x', gstate T (x_graph x) E -> in_graph (x_graph x) i -> f x i = Ok (k, x') -> cached T E (x_graph x) (x_graph x').
Lemma operands_cost_cached f T E x ops cost r x' :
  cost_cached f -> gstate T (x_graph x) E -> Forall (in_graph (x_graph x)) ops -> operands_cost f x ops cost = Ok (r, x') ->
  cached T E (x_graph x) (x_graph x').
Proof.
  intros Hf. revert x cost. induction ops as [|i ops IH]; intros x cost Hg Ho E0; cbn [operands_cost] in E0; [injection E0 as _ <-; by apply cached_refl|].
  apply Forall_cons in Ho as [Hi Ho]. apply bind_Ok in E0 as ([k x1] & E1 & E0). pose proof (Hf T E x i k x1 Hg Hi E1) as C1.
  eapply cached_trans; [exact C1|]. apply (IH x1 _ (cached_state _ _ _ _ C1)) in E0; [done|].
  eapply Forall_impl; [exact Ho|]. intros j. by apply cached_in with T E.
Qed.
Lemma cheapest_cached f T E x ns i best r x' :
  cost_cached f -> gstate T (x_graph x) E -> Forall (fun n => Forall (in_graph (x_graph x)) (en_operands n)) ns -> cheapest f x ns i best = Ok (r, x') ->
  cached T E (x_graph x) (x_graph x').
Proof.
  intros Hf. revert x i best. induction ns as [|n ns IH]; intros x i best Hg Ho E0; cbn [cheapest] in E0; [injection E0 as _ <-; by apply cached_refl|].
  apply Forall_cons in Ho as [Hn Ho]. apply bind_Ok in E0 as ([k x1] & E1 & E0). pose proof (operands_cost_cached f T E x _ _ k x1 Hf Hg Hn E1) as C1.
  eapply cached_trans; [exact C1|]. apply (IH x1 _ _ (cached_state _ _ _ _ C1)) in E0; [done|].
  eapply Forall_impl; [exact Ho|]. intros m Hm. eapply Forall_impl; [exact Hm|]. intros j. by apply cached_in with T E.
Qed.
Lemma eval_cost_cached fuel : cost_cached (eval_cost fuel).
Proof.
  induction fuel as [|fuel IH]; intros T E x i k x' Hg Hi E0; cbn [eval_cost] in E0; [done|].
  pose proof (inv_uf T _ (gs_inv T _ E Hg)) as Hu. apply bind_Ok in E0 as (c & Hc & E0).
  destruct (cache_cost (cache c)); [injection E0 as _ <-; by apply cached_refl|]. unfold eg_find_const in E0.
  unfold the_class, eg_get_const, eg_find_const in Hc. rewrite (find_rep _ i Hu Hi) in E0, Hc. rewrite ok_bind in E0. cbn in Hc. apply of_option_Ok in Hc.
  destruct (x_costs x !! _); [injection E0 as _ <-; by apply cached_refl|]. case_decide; [injection E0 as _ <-; by apply cached_refl|].
  apply bind_Ok in E0 as ([best x1] & E1 & E0). apply bind_Ok in E0 as ([] & _ & E0). apply bind_Ok in E0 as (x2 & E2 & [= _ <-]).
  assert (cached T E (x_graph x) (x_graph x1)) as C1.
  { apply (cheapest_cached _ T E (visit_class x (grep (x_graph x) i)) _ _ _ _ _ IH Hg) in E1; [done|]. apply Forall_forall. intros n Hn.
    apply (entry_operands T _ n (grep (x_graph x) i)). by apply (inv_class T _ (gs_inv T _ E Hg) _ c Hc). }
  eapply cached_trans; [exact C1|]. apply (update_cost_cached T E x1 _ _ _ (cached_state _ _ _ _ C1)) in E2; [done|].
  apply (cached_in _ _ _ _ _ C1). apply (inv_dom T _ (gs_inv T _ E Hg)). eauto.
Qed.

(** ** Values of integer classes *)
Definition ival (e : Env) (i : Z) : Z := match env_node e i with Some (DInt a) => getZExtValue a | _ => 0 end.
Definition int_class T (g : EGraph) (w i : Z) : Prop := in_graph g i /\ T i = ity w.
Lemma ival_spec T g E e w i :
  gstate T g E -> E e -> good_width w -> int_class T g w i -> env_node e i = Some (DInt (APInt_of w (ival e i))) /\ 0 <= ival e i < 2 ^ w.
Proof.
  intros Hg He Hw [Hi Ht]. destruct (gs_total T g E Hg e He i Hi) as [v Ev]. pose proof (sat_typed T e g (gs_sat T g E Hg e He) i v Hi Ev) as Hv.
  rewrite Ht in Hv. apply den_int_inv in Hv as (a & -> & Ha). unfold ival. rewrite Ev, <- Ha. split; [by rewrite APInt_eta|apply APInt_range].
Qed.
Lemma int_class_step T g E T' g' E' w i : gstep T g E T' g' E' -> int_class T g w i -> int_class T' g' w i.
Proof. intros S [Hi Ht]. split; [by eapply gstep_in|]. by rewrite (ext_type _ _ _ _ (gp_extends _ _ _ _ _ _ S)). Qed.
Lemma ival_rep T g E e i : gstate T g E -> E e -> in_graph g i -> ival e (grep g i) = ival e i.
Proof. intros Hg He Hi. unfold ival. by rewrite (sat_rep T e g (gs_sat T g E Hg e He) i Hi). Qed.
Lemma ival_same T g E e w i j :
  gstate T g E -> E e -> good_width w -> int_class T g w i -> int_class T g w j -> ival e i = ival e j -> env_node e i = env_node e j.
Proof.
  intros Hg He Hw Hi Hj Hij. destruct (ival_spec T g E e w i Hg He Hw Hi) as [-> _]. destruct (ival_spec T g E e w j Hg He Hw Hj) as [-> _]. by rewrite Hij.
Qed.
Section opcode.
Context (o : Opcode) (f : Z -> Z -> Z) (w : Z) (Hac : ac_fun o = Some f) (Hw : good_width w).
#[local] Lemma width_pos : 0 < w. Proof using Hw. unfold good_width in Hw. lia. Qed.
#[local] Lemma width_nonneg : 0 <= w. Proof using Hw. pose proof width_pos. lia. Qed.
#[local] Abbreviation sum := (combine f (ac_unit o) w).
Lemma ac_int : int_binop o = true.
Proof using Hac. by destruct o. Qed.
Lemma ac_sem x y : sem_int o w x y = Some (f x y).
Proof using Hac. destruct o; try done; by injection Hac as <-. Qed.
(** A node of the operation. *)
Lemma ac_node_value T g E n i :
  gstate T g E -> sem_entry T g E n i -> od_opcode (en_data n) = o -> T i = ity w ->
  exists x y, en_operands n = [x; y] /\ int_class T g w x /\ int_class T g w y /\
    forall e, E e -> ival e i = wrap w (f (ival e x) (ival e y)).
Proof using Hac Hw.
  intros Hg Hent Ho Ht. pose proof width_pos as Hn. assert (od_type (en_data n) = ity w) as Hty by (rewrite <- Ht; apply Hent).
  destruct (int_node_values T g E n i o w Hg Hent Ho ac_int Hty) as (x & y & Exy & _ & Gx & Gy & Tx & Ty & Hv).
  exists x, y. split_and!; try done. intros e He. destruct (Hv e He) as (u & v & Eu & Ev & Hu & Hv' & Ei).
  unfold ival. rewrite Eu, Ev, Ei, ac_sem. cbn. by rewrite APInt_of_value.
Qed.
(** The operands a class is taken apart into. *)
Definition sums T (g : EGraph) E (l : list Z) (i : Z) : Prop :=
  Forall (int_class T g w) l /\ forall e, E e -> ival e i = sum (ival e <$> l).
Lemma sums_single T g E i : gstate T g E -> int_class T g w i -> sums T g E [i] i.
Proof using Hac Hw.
  intros Hg Hi. split; [by apply Forall_singleton|]. intros e He. cbn. symmetry.
  apply (combine_single f (ac_unit o) w (ac_ok o f Hac) width_nonneg). by apply (ival_spec T g E e w i Hg He Hw Hi).
Qed.
Lemma sums_step T g g' E l i : gstep T g E T g' E -> sums T g E l i -> sums T g' E l i.
Proof. intros S [Hl Hv]. split; [|done]. eapply Forall_impl; [exact Hl|]. intros j. by eapply int_class_step. Qed.
Lemma assoc_rewrite_ok fuel T E a stack i stack' a' :
  gstate T (a_graph a) E -> int_class T (a_graph a) w i -> assoc_rewrite fuel o a stack i = Ok (stack', a') ->
  uf_equiv (a_graph a) (a_graph a') /\ a_merges a' = a_merges a /\ exists l, stack' = stack ++ l /\ sums T (a_graph a') E l i.
Proof using Hac Hw.
  revert a stack i stack' a'. induction fuel as [|fuel IH]; intros a stack i stack' a' Hg Hi E0; cbn [assoc_rewrite] in E0; [done|].
  apply bind_Ok in E0 as ([c a1] & E1 & E0). destruct (acc_get_ok T E a i c a1 Hg (proj1 Hi) E1) as (Q1 & Em1 & _ & Hc).
  pose proof (gstep_equiv T _ _ E Hg Q1) as S1. pose proof (gp_state _ _ _ _ _ _ S1) as Hg1. pose proof (int_class_step _ _ _ _ _ _ w i S1 Hi) as Hi1.
  apply bind_Ok in E0 as (cost & _ & E0). apply bind_Ok in E0 as (n & Hn%of_option_Ok & E0). case_bool_decide as Ho.
  2: { injection E0 as <- <-. split_and!; [done|done|]. exists [i]. split; [done|by apply sums_single]. }
  pose proof (class_entry T _ E _ c n Hg Hc (at_z_in _ _ _ Hn)) as Hent.
  assert (T (grep (a_graph a) i) = ity w) as Hti by (rewrite (inv_type T _ (gs_inv T _ E Hg)); apply Hi).
  destruct (ac_node_value T _ E n _ Hg Hent Ho Hti) as (x & y & Exy & Hx & Hy & Hv).
  unfold operand in E0. rewrite Exy in E0. cbn [lookup list_lookup of_option] in E0. rewrite ok_bind in E0.
  apply bind_Ok in E0 as ([s2 a2] & E2 & E0). rewrite ok_bind in E0.
  destruct (IH a1 stack x s2 a2 Hg1 (int_class_step _ _ _ _ _ _ w x S1 Hx) E2) as (Q2 & Em2 & l1 & -> & Hs1).
  pose proof (gstep_equiv T _ _ E Hg1 Q2) as S2. pose proof (gp_state _ _ _ _ _ _ S2) as Hg2.
  destruct (IH a2 (stack ++ l1) y stack' a' Hg2) as (Q3 & Em3 & l2 & -> & Hs2); [|done|].
  { eapply int_class_step; [exact S2|]. by eapply int_class_step. }
  split_and!; [eapply uf_equiv_trans; [exact Q1|]; by eapply uf_equiv_trans|congruence|].
  exists (l1 ++ l2). split; [by rewrite app_assoc|]. apply (sums_step T _ _ E l1 x (gstep_equiv T _ _ E Hg2 Q3)) in Hs1.
  destruct Hs1 as [F1 V1], Hs2 as [F2 V2]. split; [by apply Forall_app|]. intros e He.
  rewrite fmap_app, (combine_app f (ac_unit o) w (ac_ok o f Hac) width_nonneg), <- (V1 e He), <- (V2 e He), <- (Hv e He).
  symmetry. apply (ival_rep T _ E e i Hg He), Hi.
Qed.
Lemma assoc_keys_ok T E a items ks a' :
  gstate T (a_graph a) E -> Forall (in_graph (a_graph a)) items -> assoc_keys a items = Ok (ks, a') ->
  uf_equiv (a_graph a) (a_graph a') /\ a_merges a' = a_merges a /\ ks.*2 = items.
Proof.
  revert a ks. induction items as [|i items IH]; intros a ks Hg Hi E0; cbn [assoc_keys] in E0.
  { injection E0 as <- <-. split_and!; [apply uf_equiv_refl, (inv_uf T _ (gs_inv T _ E Hg))|done..]. }
  apply Forall_cons in Hi as [Hi Hr]. apply bind_Ok in E0 as ([c a1] & E1 & E0). apply bind_Ok in E0 as ([ks1 a2] & E2 & [= <- <-]).
  destruct (acc_get_ok T E a i c a1 Hg Hi E1) as (Q1 & Em1 & _ & _). destruct (IH a1 ks1) as (Q2 & Em2 & <-); [apply (gstep_equiv T _ _ E Hg Q1)| |done|].
  - eapply Forall_impl; [exact Hr|]. intros j. apply (uf_equiv_in _ _ j Q1).
  - split_and!; [by eapply uf_equiv_trans|congruence|done].
Qed.
Lemma ival_step T g E T' g' E' e' : gstep T g E T' g' E' -> E' e' -> exists e, E e /\ forall j, in_graph g j -> ival e' j = ival e j.
Proof. intros S He'. destruct (gp_bwd _ _ _ _ _ _ S e' He') as (e & He & X). exists e. split; [done|]. intros j Hj. unfold ival. by rewrite (ext_node _ _ _ X). Qed.
Lemma assoc_add_ok T E a x y k a' :
  gstate T (a_graph a) E -> int_class T (a_graph a) w x -> int_class T (a_graph a) w y ->
  acc_add a (mkNode (mkData o (ity w) NoPayload) [x; y]) = Ok (k, a') ->
  exists T' E', gstep T (a_graph a) E T' (a_graph a') E' /\ kept (a_graph a) (a_graph a') /\ a_merges a' = a_merges a /\
    int_class T' (a_graph a') w k /\ forall e, E' e -> ival e k = wrap w (f (ival e x) (ival e y)).
Proof using Hac Hw.
  intros Hg Hx Hy E0. unfold acc_add in E0. apply bind_Ok in E0 as ([id g1] & E1 & [= <- <-]). pose proof width_pos as Hn.
  set (n := mkNode _ _) in E1. assert (sem_int o w = fun a b => Some (f a b)) as Hsem by (clear -Hac; destruct o; try done; by injection Hac as <-).
  assert (wf (node_op T n)) as Hwf.
  { constructor; [constructor; [apply leaf_wf|constructor; [apply leaf_wf|constructor]]|]. unfold node_ok. cbn.
    destruct Hx as [_ Tx], Hy as [_ Ty]. clear -Hac Hw Tx Ty. destruct o; try done; by exists w. }
  assert (Forall (in_graph (a_graph a)) (en_operands n)) as Hops by (cbn; rewrite !Forall_cons; split_and!; [apply Hx|apply Hy|done]).
  destruct (gstep_add T (a_graph a) E n id g1 Hg) as (T' & E' & S & K & Hid); [|done|done| | |done|].
  { unfold clean. cbn. clear -Hac. by destruct o. }
  { unfold safe_node. cbn. clear -Hac. by destruct o. }
  { intros e He. rewrite (node_value T e _ n (gs_sat T _ E Hg e He) Hops). unfold n. cbn [en_data en_operands fmap list_fmap].
    destruct (ival_spec T _ E e w x Hg He Hw Hx) as [-> _]. destruct (ival_spec T _ E e w y Hg He Hw Hy) as [-> _].
    unfold denote_node. clear -Hac Hn. destruct o; try done; cbn; rewrite !APInt_of_width, Z.eqb_refl by done; eauto. }
  exists T', E'. assert (T' id = ity w) as Ht by (symmetry; apply (entry_type _ _ _ _ (proj1 Hid))).
  destruct (ac_node_value T' g1 E' n id (gp_state _ _ _ _ _ _ S) Hid eq_refl Ht) as (x' & y' & [= <- <-] & _ & _ & Hv).
  split_and!; [done|done|done| |done]. split; [apply (entry_class _ _ _ _ (proj1 Hid))|done].
Qed.
Lemma assoc_chain_ok T E a i x items k a' :
  gstate T (a_graph a) E -> merges_ok T (a_graph a) E (a_merges a) -> int_class T (a_graph a) w i ->
  int_class T (a_graph a) w x -> Forall (int_class T (a_graph a) w) items ->
  (forall e, E e -> ival e i = wrap w (f (ival e x) (sum (ival e <$> items)))) ->
  assoc_chain a (mkData o (ity w) NoPayload) x items = Ok (k, a') -> rule_post T a E (acc_merge a' i k).
Proof using Hac Hw.
  pose proof (ac_ok o f Hac) as Hl. pose proof width_nonneg as Hn.
  revert T E a x. induction items as [|y items IH]; intros T E a x Hg Hm Hi Hx Hit Hv E0; cbn [assoc_chain] in E0.
  { injection E0 as <- <-. apply (acc_merge_ok T a E); try done; [apply Hi|apply Hx|destruct Hi, Hx; congruence|]. intros e He.
    apply (ival_same T _ E e w i x Hg He Hw Hi Hx). rewrite (Hv e He). cbn. unfold combine. cbn [foldr].
    rewrite (ac_wrap_r f (ac_unit o) w Hl Hn), (ac_neutral f _ Hl). apply wrap_small. by apply (ival_spec T _ E e w x Hg He Hw Hx). }
  apply Forall_cons in Hit as [Hy Hit]. apply bind_Ok in E0 as ([k1 a1] & E1 & E0).
  destruct (assoc_add_ok T E a x y k1 a1 Hg Hx Hy E1) as (T1 & E1' & S1 & K1 & Em1 & Hk1 & Hv1).
  destruct (IH T1 E1' a1 k1) as (T2 & E2 & S2 & Hm2 & K2); try done.
  - apply S1.
  - rewrite Em1. by eapply merges_ok_step.
  - by eapply int_class_step.
  - eapply Forall_impl; [exact Hit|]. intros j. by eapply int_class_step.
  - intros e' He'. destruct (ival_step _ _ _ _ _ _ e' S1 He') as (e & He & Hj). rewrite (Hv1 e' He'), (Hj i), (Hj x), (Hj y) by (apply Hi || apply Hx || apply Hy).
    rewrite (Hv e He). cbn [fmap list_fmap]. rewrite <- (combine_snoc f (ac_unit o) w Hl Hn).
    do 3 f_equal. symmetry. apply list_fmap_ext. intros ? j Hj'%list_elem_of_lookup_2. rewrite Forall_forall in Hit. by apply Hj, Hit.
  - exists T2, E2. split_and!; [by eapply gstep_trans|done|by eapply kept_trans].
Qed.
Lemma assoc_emit_ok T E a i stack a' :
  gstate T (a_graph a) E -> merges_ok T (a_graph a) E (a_merges a) -> int_class T (a_graph a) w i ->
  sums T (a_graph a) E stack i -> assoc_emit o i stack a = Ok a' -> rule_post T a E a'.
Proof using Hac Hw.
  intros Hg Hm Hi [Hst Hv] E0. unfold assoc_emit in E0. apply bind_Ok in E0 as ([ks a1] & E1 & E0).
  destruct (assoc_keys_ok T E a stack ks a1 Hg) as (Q1 & Em1 & Hks); [|done|]. { eapply Forall_impl; [exact Hst|]. by intros j [? _]. }
  assert ((merge_sort assoc_order ks).*2 ≡ₚ stack) as Hp by (rewrite <- Hks; apply Permutation_map, merge_sort_Permutation).
  destruct ((merge_sort assoc_order ks).*2) as [|x items]; [done|].
  apply bind_Ok in E0 as ([c a2] & E2 & E0). apply bind_Ok in E0 as (t & Et & E0). apply bind_Ok in E0 as ([k a3] & E3 & [= <-]).
  pose proof (gstep_equiv T _ _ E Hg Q1) as S1. pose proof (gp_state _ _ _ _ _ _ S1) as Hg1. rewrite <- Hp in Hst. apply Forall_cons in Hst as [Hx Hst].
  pose proof (int_class_step _ _ _ _ _ _ w x S1 Hx) as Hx1.
  destruct (acc_get_ok T E a1 x c a2 Hg1 (proj1 Hx1) E2) as (Q2 & Em2 & _ & Hc).
  rewrite (eclass_type_ok T _ _ c (inv_class T _ (gs_inv T _ E Hg1) _ c Hc)) in Et. rewrite (inv_type T _ (gs_inv T _ E Hg1)) in Et by apply Hx1.
  rewrite (proj2 Hx) in Et. injection Et as <-. pose proof (gstep_equiv T _ _ E Hg1 Q2) as S2. pose proof (gstep_trans _ _ _ _ _ _ _ _ _ S1 S2) as S.
  apply (rule_post_equiv T a E a1 _ Hg Q1), (rule_post_equiv T a1 E a2 _ Hg1 Q2).
  apply (assoc_chain_ok T E a2 i x items k a3); try done; [apply S2|rewrite Em2, Em1; by eapply merges_ok_step|by eapply int_class_step..| |].
  - eapply Forall_impl; [exact Hst|]. intros j. by eapply int_class_step.
  - intros e He. rewrite (Hv e He). rewrite (combine_permutation f (ac_unit o) w (ac_ok o f Hac) _ (ival e <$> x :: items)) by (by rewrite Hp).
    unfold combine. cbn. by rewrite (ac_wrap_r f (ac_unit o) w (ac_ok o f Hac) width_nonneg).
Qed.
End opcode.

(** ** The rule *)
Lemma associate_ok T E a i idx c n o sc a' :
  gstate T (a_graph a) E -> merges_ok T (a_graph a) E (a_merges a) ->
  classes (a_graph a) !! i = Some c -> at_z (nodes c) idx = Some n -> sc_opcode sc = Some o -> potential sc n ->
  is_Some (ac_fun o) \/ safe_opcode o = false -> associate o a i idx = Ok a' -> rule_post T a E a'.
Proof.
  intros Hg Hm Hc Hn Hsc Hp Ho E0. pose proof (potential_opcode sc n o Hsc Hp) as Hop. destruct Ho as [[f Hac]|Ho].
  2: { pose proof (gs_safe T _ E Hg i c n Hc (at_z_in _ _ _ Hn)) as Hs. unfold safe_node in Hs. congruence. }
  destruct (matched_root T _ E i c Hg Hc) as [Hi Hr]. unfold associate in E0. cbv zeta in E0. apply bind_Ok in E0 as ([cost x] & E1 & E0).
  destruct (eval_cost_cached _ T E (Extractor_ctor (a_graph a) false) i cost x Hg Hi E1) as [S1 K1]. cbn [x_graph Extractor_ctor] in S1, K1.
  pose proof (gp_state _ _ _ _ _ _ S1) as Hg1. destruct (K1 i c Hc) as (c1 & Hc1 & En).
  apply bind_Ok in E0 as ([n' a2] & E2 & E0). rewrite <- En in Hn.
  destruct (matched_node UndefinedBehaviour T E (with_graph a (x_graph x)) i idx c1 n n' a2 Hg1) as (-> & Q2 & Hg2 & Hm2 & Hi2 & Hent2); try done; [by eapply merges_ok_step|].
  assert (int_binop o = true) as Hb by (by apply ac_int with f). destruct (int_node_type T _ E n i o Hent2 Hop Hb) as (w & Hty).
  destruct (int_node_values T _ E n i o w Hg2 Hent2 Hop Hb Hty) as (_ & _ & _ & Hw & _).
  assert (T i = ity w) as Ht by (rewrite <- Hty; symmetry; apply (entry_type _ _ _ _ (proj1 Hent2))).
  destruct (ac_node_value o f w Hac Hw T _ E n i Hg2 Hent2 Hop Ht) as (l & r & Exy & Hl & Hrr & Hv).
  unfold operand in E0. rewrite Exy in E0. cbn [lookup list_lookup of_option] in E0. rewrite ok_bind in E0.
  apply bind_Ok in E0 as ([s3 a3] & E3 & E0). rewrite ok_bind in E0. apply bind_Ok in E0 as ([s4 a4] & E4 & E0).
  destruct (assoc_rewrite_ok o f w Hac Hw _ T E a2 [] l s3 a3 Hg2 Hl E3) as (Q3 & Em3 & l1 & -> & Hs1).
  pose proof (gstep_equiv T _ _ E Hg2 Q3) as S3. pose proof (gp_state _ _ _ _ _ _ S3) as Hg3.
  destruct (assoc_rewrite_ok o f w Hac Hw _ T E a3 ([] ++ l1) r s4 a4 Hg3 (int_class_step _ _ _ _ _ _ w r S3 Hrr) E4) as (Q4 & Em4 & l2 & -> & Hs2).
  pose proof (gstep_equiv T _ _ E Hg3 Q4) as S4. apply (sums_step o f w T _ _ E l1 l S4) in Hs1.
  pose proof (uf_equiv_trans _ _ _ Q2 (uf_equiv_trans _ _ _ Q3 Q4)) as Q. pose proof (gstep_equiv T _ _ E Hg1 Q) as S.
  destruct (assoc_emit_ok o f w Hac Hw T E a4 i (([] ++ l1) ++ l2) a') as (T' & E' & S5 & Hm5 & K5); try done.
  - apply S4.
  - rewrite Em4, Em3. eapply merges_ok_step; [exact S4|]. by eapply merges_ok_step.
  - split; [|done]. eapply gstep_in; [exact S4|]. by eapply gstep_in.
  - destruct Hs1 as [F1 V1], Hs2 as [F2 V2]. split; [by apply Forall_app|]. intros e He. cbn [app].
    rewrite fmap_app, (combine_app f (ac_unit o) w (ac_ok o f Hac) (width_nonneg w Hw)), <- (V1 e He), <- (V2 e He). by apply Hv.
  - exists T', E'. split_and!; [|done|].
    + eapply gstep_trans; [exact S1|]. by eapply gstep_trans.
    + eapply kept_trans; [exact K1|]. eapply kept_trans; [by apply kept_equiv|done].
Qed.
End assoc.
