(* ===== verification/Saturation.v ===== *)
(** Equality saturation with the default rules keeps the meaning of an e-graph of
    nodes of the scope ([EGraph::simplify], src/IR/EGraph.cpp, with the rules of
    [EMatcherBuilder::add_defaults], src/IR/EMatching/AllMatchers.cpp), and what
    goes wrong outside of the scope. *)
From stdpp Require Import sorting.
From S2P Require Import Prelude LLVM IRType Value Opcode Operation Matching Create Semantics.
From S2P Require Import Simplifier SimplifierInt SimplifierSound UnionFind EGraph EGraphSound EGraphRebuild Extract GraphAssertions Constprop.
From S2P Require Import EMatching Rewrites RewriteSound RuleSound AssocSound.
Open Scope Z_scope.

Section builder.
Context `{PtrEq} `{!DataPtrEq} `{MapOrder} `{MathExtrasAPI} `{Config} `{!OpScope} {hash : ClauseHash}.

(** ** Builders whose rules are sound *)
Definition has (M : EMatcher) (b : EMatcherBuilder) : Prop := forall sc id, (sc, id) ∈ b_subclauses b -> subclause_is M id sc.
Record good_builder (b : EMatcherBuilder) : Prop := {
  gb_next : subclause_id b = Z.of_nat (length (b_subclauses b));
  gb_ids : (b_subclauses b).*2 = seqZ 0 (subclause_id b);
  gb_rules : forall M, has M b -> Forall (rule_ok M) (b_clauses b)
}.
Lemma empty_good : good_builder empty_builder.
Proof. split; try done; constructor. Qed.

Lemma clause_ids b k sc id : good_builder b -> b_subclauses b !! k = Some (sc, id) -> id = Z.of_nat k.
Proof.
  intros Hb Hk. assert ((b_subclauses b).*2 !! k = Some id) as Hi by (by rewrite list_lookup_fmap, Hk).
  rewrite (gb_ids b Hb) in Hi. apply lookup_seqZ in Hi as [-> _]. lia.
Qed.
Lemma numbered_sorted (l : list (SubClause * Z)) n : (forall k p, l !! k = Some p -> p.2 = n + Z.of_nat k) -> StronglySorted id_order l.
Proof.
  revert n. induction l as [|p l IH]; intros n Hl; constructor.
  - apply (IH (n + 1)). intros k q Hq. rewrite (Hl (S k) q Hq). lia.
  - apply Forall_forall. intros q [k Hk]%list_elem_of_lookup. unfold id_order. rewrite (Hl 0%nat p), (Hl (S k) q) by done. lia.
Qed.
(** The matcher has the clauses in the order they were added. *)
Lemma sorted_clauses b : good_builder b -> merge_sort id_order (map_order (b_subclauses b)) = b_subclauses b.
Proof.
  intros Hb. assert (Transitive id_order) by (intros x y z; unfold id_order; lia). assert (Total id_order) by (intros x y; unfold id_order; lia).
  assert (merge_sort id_order (map_order (b_subclauses b)) ≡ₚ b_subclauses b) as Hp by (by rewrite merge_sort_Permutation, map_order_perm).
  apply (StronglySorted_unique_strong id_order); [|by apply StronglySorted_merge_sort| |done].
  - intros [s1 i1] [s2 i2] H1in H2in. rewrite Hp in H1in. unfold id_order. cbn. intros. apply list_elem_of_lookup in H1in as [k1 Hk1].
    apply list_elem_of_lookup in H2in as [k2 Hk2]. pose proof (clause_ids b k1 s1 i1 Hb Hk1). pose proof (clause_ids b k2 s2 i2 Hb Hk2).
    assert (k1 = k2) as -> by lia. congruence.
  - apply (numbered_sorted _ 0). intros k [sc id] Hk. rewrite (clause_ids b k sc id Hb Hk). done.
Qed.
Lemma build_matcher_ok b M : good_builder b -> build_matcher b = Ok M -> Forall (rule_ok M) (m_clauses M).
Proof.
  intros Hb E0. unfold build_matcher in E0. cbv zeta in E0. rewrite (sorted_clauses b Hb) in E0. apply bind_Ok in E0 as (caps & Ec & [= <-]).
  apply (gb_rules b Hb). intros sc id Hin. apply list_elem_of_lookup in Hin as [k Hk]. pose proof (clause_ids b k sc id Hb Hk) as ->.
  unfold subclause_is. cbn. rewrite <- (Z.add_0_l (Z.of_nat k)). apply at_z_lookup. by rewrite list_lookup_fmap, Hk.
Qed.

(** ** Adding patterns and rules *)
(** A clause that was there before may differ in whether it captures. *)
Lemma add_clause_ok b o subs flt cap id b' :
  good_builder b -> add_clause b o subs flt cap = Ok (id, b') ->
  good_builder b' /\ (exists k, (mkSubClause o subs flt k, id) ∈ b_subclauses b') /\ b_subclauses b ⊆ b_subclauses b'.
Proof.
  intros Hb E0. unfold add_clause in E0. apply bind_Ok in E0 as ([] & _ & [= E0]). set (c := mkSubClause o subs flt cap) in *.
  destruct (hm_find same_clause (b_subclauses b) c) as [id'|] eqn:Ef.
  - injection E0 as <- <-. split_and!; [done| |done]. apply hm_find_in in Ef as (c' & Heq & Hin). exists (sc_capture c').
    unfold same_clause, subclause_eqb in Heq. apply andb_true_iff in Heq as [_ Heq]. apply andb_true_iff in Heq as [Heq Hf].
    apply andb_true_iff in Heq as [Ho Hs]. apply bool_decide_eq_true_1 in Ho, Hs. unfold c in *. destruct c' as [? ? f ?]. cbn in *.
    destruct f, flt; try done. by subst.
  - injection E0 as <- <-. destruct Hb as [Hn Hi Hr]. split_and!; [split; cbn| |].
    + rewrite length_app, Hn. cbn. lia.
    + rewrite fmap_app, Hi, Hn, Z.add_1_r, <- Nat2Z.inj_succ, seqZ_S. done.
    + intros M HM. apply Hr. intros sc id Hin. apply HM. cbn. apply elem_of_app. by left.
    + exists cap. cbn. apply elem_of_app. right. by left.
    + cbn. intros p. rewrite elem_of_app. by left.
Qed.
Lemma has_mono M b b' : b_subclauses b ⊆ b_subclauses b' -> has M b' -> has M b.
Proof. intros Hs HM sc id Hin. by apply HM, Hs. Qed.
Lemma add_matcher_good b id upd :
  good_builder b -> (forall M, has M b -> rule_ok M (mkClause id None upd)) -> good_builder (add_matcher b id upd).
Proof.
  intros [Hn Hi Hr] Hu. split; try done. intros M HM. cbn. apply Forall_app. split; [by apply Hr|]. apply Forall_singleton. by apply Hu.
Qed.
(** A rule with one pattern. *)
Lemma flat_rule_good b o flt upd id b' :
  good_builder b -> add_clause b (Some o) [] flt false = Ok (id, b') ->
  (forall T E a i idx c n sc a', gstate T (a_graph a) E -> merges_ok T (a_graph a) E (a_merges a) -> classes (a_graph a) !! i = Some c ->
     at_z (nodes c) idx = Some n -> sc_opcode sc = Some o -> sc_filter sc = flt -> potential sc n -> upd a i idx = Ok a' -> rule_post T a E a') ->
  good_builder (add_matcher b' id upd).
Proof.
  intros Hb E0 Hu. destruct (add_clause_ok b (Some o) [] flt false id b' Hb E0) as (Hb' & (k & Hin) & _). apply add_matcher_good; [done|].
  intros M HM T E a i idx c n sc a' Hg Hm Hc Hn Hsc [Hp _] E1. pose proof (HM _ _ Hin) as Hsc'. cbn in Hsc. unfold subclause_is in *.
  rewrite Hsc' in Hsc. injection Hsc as <-. by apply (Hu T E a i idx c n (mkSubClause (Some o) [] flt k) a').
Qed.

(** *** The rules *)
Definition keeps_good (rule : EMatcherBuilder -> result EMatcherBuilder) : Prop :=
  forall b b', good_builder b -> rule b = Ok b' -> good_builder b'.
Lemma keeps_bind r1 r2 : keeps_good r1 -> keeps_good r2 -> keeps_good (fun b => r1 b ≫= r2).
Proof. intros K1 K2 b b' Hb E0. apply bind_Ok in E0 as (b1 & E1 & E2). eauto. Qed.
Lemma for_opcodes_good rule os : Forall (fun o => keeps_good (rule o)) os -> keeps_good (for_opcodes rule os).
Proof. induction 1 as [|o os Ho _ IH]; intros b b' Hb E0; cbn in E0; [by injection E0 as <-|]. apply bind_Ok in E0 as (b1 & E1 & E0). eauto. Qed.
Lemma commutativity_good : keeps_good commutativity.
Proof.
  apply for_opcodes_good. apply Forall_forall. intros o Hin b b' Hb E0. apply bind_Ok in E0 as ([id b1] & E1 & [= <-]).
  apply (flat_rule_good b o None _ _ _ Hb E1). intros. eapply commute_ok; try done.
  clear -Hin. repeat (apply elem_of_cons in Hin as [->|Hin]; [by (left + right)|]). by apply elem_of_nil in Hin.
Qed.
Lemma associativity_good : keeps_good associativity.
Proof.
  apply for_opcodes_good. apply Forall_forall. intros o Hin b b' Hb E0. apply bind_Ok in E0 as ([id b1] & E1 & [= <-]).
  apply (flat_rule_good b o None _ _ _ Hb E1). intros. eapply associate_ok; try done.
  clear -Hin. repeat (apply elem_of_cons in Hin as [->|Hin]; [(left; by eexists) + by right|]). by apply elem_of_nil in Hin.
Qed.
Lemma to_zero_good o : o = OpSub \/ o = OpXor -> keeps_good (eliminate_to_zero o).
Proof.
  intros Ho b b' Hb E0. apply bind_Ok in E0 as ([id b1] & E1 & [= <-]). apply (flat_rule_good b o (Some IdenticalOperandsFilter) _ _ _ Hb E1).
  intros. by eapply to_zero_ok.
Qed.
Lemma to_operand_good o : o = OpAnd \/ o = OpOr -> keeps_good (eliminate_to_operand o).
Proof.
  intros Ho b b' Hb E0. apply bind_Ok in E0 as ([id b1] & E1 & [= <-]). apply (flat_rule_good b o (Some IdenticalOperandsFilter) _ _ _ Hb E1).
  intros. by eapply to_operand_same_ok.
Qed.
Lemma to_bools_good os : Forall (fun p => p ∈ icmp_bools) os -> keeps_good (eliminate_all_to_bool os).
Proof.
  induction 1 as [|[o v] os Ho _ IH]; intros b b' Hb E0; cbn [eliminate_all_to_bool] in E0; [by injection E0 as <-|]. apply bind_Ok in E0 as (b1 & E1 & E0).
  apply (IH b1); [|done]. unfold eliminate_to_bool in E1. apply bind_Ok in E1 as ([id b2] & E1 & [= <-]).
  apply (flat_rule_good b o (Some IdenticalOperandsFilter) _ _ _ Hb E1). intros. by eapply to_bool_ok.
Qed.
Lemma and_zero_good : keeps_good and_zero_elimination.
Proof.
  intros b b' Hb E0. unfold and_zero_elimination, add_any in E0. apply bind_Ok in E0 as ([l b1] & E1 & E0). apply bind_Ok in E0 as ([r b2] & E2 & E0).
  apply bind_Ok in E0 as ([id b3] & E3 & [= <-]). destruct (add_clause_ok _ _ _ _ _ _ _ Hb E1) as (Hb1 & _ & _).
  destruct (add_clause_ok _ _ _ _ _ _ _ Hb1 E2) as (Hb2 & (k2 & Hr) & _). destruct (add_clause_ok _ _ _ _ _ _ _ Hb2 E3) as (Hb3 & (k3 & Hc) & Hs3).
  apply add_matcher_good; [done|]. intros M HM T E a i idx c n sc a' Hg Hm Hci Hn Hsc Hmt E4. pose proof (HM _ _ Hc) as Hsc'. unfold subclause_is in *.
  cbn [cl_matcher] in Hsc. rewrite Hsc' in Hsc. injection Hsc as <-.
  eapply (to_zero_operand_ok M T E a i idx c n _ l r); try done. by apply HM, Hs3.
Qed.

(** Rules for nodes outside of the scope: the matched node, or the one below
    it, is none of a graph of the scope. *)
Lemma unsafe_rule_good b o subs cap id b1 upd :
  good_builder b -> add_clause b (Some o) subs None cap = Ok (id, b1) -> safe_opcode o = false -> good_builder (add_matcher b1 id upd).
Proof.
  intros Hb E0 Hs. destruct (add_clause_ok _ _ _ _ _ _ _ Hb E0) as (Hb1 & (k & Hc) & _). apply add_matcher_good; [done|].
  intros M HM. by eapply unsafe_rule_ok; [by apply HM| |].
Qed.
Lemma unsafe_operand_rule_good b1 o subs id1 k upd o' subs' cap' b2 id :
  good_builder b1 -> (mkSubClause (Some o') subs' None k, id1) ∈ b_subclauses b1 -> safe_opcode o' = false ->
  add_clause b1 (Some o) (id1 :: subs) None cap' = Ok (id, b2) -> good_builder (add_matcher b2 id upd).
Proof.
  intros Hb Hin Hs E0. destruct (add_clause_ok _ _ _ _ _ _ _ Hb E0) as (Hb2 & (k2 & Hc) & Hsub). apply add_matcher_good; [done|].
  intros M HM. eapply unsafe_operand_rule_ok; [by apply HM|done|by apply HM, Hsub|done|done].
Qed.
Lemma icmpeq_select_good : keeps_good icmpeq_select_elimination.
Proof.
  intros b b' Hb E0. unfold icmpeq_select_elimination, add_any, add_capture in E0. apply bind_Ok in E0 as ([x b1] & E1 & E0).
  apply bind_Ok in E0 as ([y b2] & E2 & E0). apply bind_Ok in E0 as ([s b3] & E3 & E0). apply bind_Ok in E0 as ([id b4] & E4 & [= <-]).
  destruct (add_clause_ok _ _ _ _ _ _ _ Hb E1) as (Hb1 & _ & _). destruct (add_clause_ok _ _ _ _ _ _ _ Hb1 E2) as (Hb2 & _ & _).
  destruct (add_clause_ok _ _ _ _ _ _ _ Hb2 E3) as (Hb3 & (k & Hc) & _). by eapply unsafe_operand_rule_good.
Qed.
Lemma zext_trunc_good : keeps_good zext_trunc_elimination.
Proof.
  intros b b' Hb E0. unfold zext_trunc_elimination, add_capture in E0. apply bind_Ok in E0 as ([x b1] & E1 & E0). apply bind_Ok in E0 as ([id b2] & E2 & [= <-]).
  destruct (add_clause_ok _ _ _ _ _ _ _ Hb E1) as (Hb1 & (k & Hc) & _). by eapply unsafe_operand_rule_good.
Qed.
Lemma trunc_zext_good : keeps_good trunc_zext_elimination.
Proof.
  intros b b' Hb E0. unfold trunc_zext_elimination, add_capture in E0. apply bind_Ok in E0 as ([x b1] & E1 & E0). apply bind_Ok in E0 as ([id b2] & E2 & [= <-]).
  destruct (add_clause_ok _ _ _ _ _ _ _ Hb E1) as (Hb1 & _). by eapply unsafe_rule_good.
Qed.
Lemma select_constprop_good : keeps_good select_constprop.
Proof.
  intros b b' Hb E0. unfold select_constprop, add_any in E0. apply bind_Ok in E0 as ([l b1] & E1 & E0). apply bind_Ok in E0 as ([r b2] & E2 & E0).
  apply bind_Ok in E0 as ([id b3] & E3 & [= <-]). destruct (add_clause_ok _ _ _ _ _ _ _ Hb E1) as (Hb1 & _).
  destruct (add_clause_ok _ _ _ _ _ _ _ Hb1 E2) as (Hb2 & _). by eapply unsafe_rule_good.
Qed.
Lemma load_store_good : keeps_good load_store_elimination.
Proof.
  intros b b' Hb E0. unfold load_store_elimination, add_any in E0. apply bind_Ok in E0 as ([l b1] & E1 & E0). apply bind_Ok in E0 as ([r b2] & E2 & E0).
  apply bind_Ok in E0 as ([id b3] & E3 & [= <-]). destruct (add_clause_ok _ _ _ _ _ _ _ Hb E1) as (Hb1 & _).
  destruct (add_clause_ok _ _ _ _ _ _ _ Hb1 E2) as (Hb2 & _). by eapply unsafe_rule_good.
Qed.
Lemma add_defaults_good : keeps_good add_defaults.
Proof.
  unfold add_defaults. apply keeps_bind; [apply commutativity_good|]. apply keeps_bind; [apply associativity_good|].
  apply keeps_bind; [apply to_zero_good; by left|]. apply keeps_bind; [apply to_operand_good; by left|].
  apply keeps_bind; [apply to_zero_good; by right|]. apply keeps_bind; [apply to_operand_good; by right|].
  apply keeps_bind; [apply keeps_bind; [apply to_bools_good; by apply Forall_forall|apply icmpeq_select_good]|].
  apply keeps_bind; [apply and_zero_good|]. apply keeps_bind; [apply zext_trunc_good|]. apply keeps_bind; [apply trunc_zext_good|].
  apply keeps_bind; [apply select_constprop_good|apply load_store_good].
Qed.
End builder.

Section saturation.
Context `{PtrEq} `{!DataPtrEq} `{MapOrder} `{MathExtrasAPI} `{Config} `{!OpScope} {hash : ClauseHash}.
#[local] Abbreviation grep g i := (rep (union_find g) i).

(** The matcher of the program: [CaffeineContext] builds it from the default
    rules. *)
Class DefaultMatcher (M : EMatcher) : Prop :=
  default_matcher : exists b, add_defaults empty_builder = Ok b /\ build_matcher b = Ok M.
(** What its users rely on: simplifying a graph is a step of it and of the
    environments in which it is sound. *)
Lemma simplify_step M `{!DefaultMatcher M} fuel T E g g' :
  gstate T g E -> eg_simplify fuel M g = Ok g' -> exists T' E', gstep T g E T' g' E'.
Proof.
  destruct default_matcher as (b & Hb & HM). apply equality_saturation_ok. by apply (build_matcher_ok b M (add_defaults_good _ _ empty_good Hb) HM).
Qed.

(** C19: [EGraph::simplify] with the matcher of the program, built from the
    default rules ([add_defaults]), keeps the meaning of a graph whose nodes are
    in the scope of these rules: no integer division or remainder, no
    floating-point addition, subtraction, multiplication or (in)equality, no
    truncation, selection or load; in the smaller of the two scopes, without
    [with_arrays], also no allocation, store, floating-point remainder or other
    floating-point comparison.  Then, in an environment in which
    the graph is sound and every class has a value, whatever graph the
    saturation returns is sound with the same values, whatever the order of the
    hash maps: the rules, the constant propagation and the congruence closure
    only put classes with equal values together.  Outside of that scope it is
    false: [stale_capture_unsound] and [constprop_division_unsound]. *)
Theorem saturation_sound fuel M `{!DefaultMatcher M} T e g g' :
  eg_inv T g -> eg_sat T e g -> total g e -> nodes_all safe_node g ->
  eg_simplify fuel M g = Ok g' ->
  exists T' e', eg_inv T' g' /\ eg_sat T' e' g' /\ total g' e' /\ env_extends g e e' /\
    (forall i, in_graph g i -> in_graph g' i /\ T' i = T i) /\
    (forall i j, in_graph g i -> in_graph g j -> grep g' i = grep g' j -> env_node e i = env_node e j).
Proof.
  intros Hi Hs Ht Hn E0.
  destruct (simplify_step M fuel T (fun e' => e' = e) g g') as (T' & E' & S); [|done|].
  { split; [done|by intros ? ->|by intros ? ->|done]. }
  destruct (gp_fwd _ _ _ _ _ _ S e eq_refl) as (e' & He' & X). pose proof (gp_state _ _ _ _ _ _ S) as Hg'. exists T', e'.
  pose proof (gs_sat _ _ _ Hg' e' He') as Hs'. split_and!; [apply Hg'|done|by apply (gs_total _ _ _ Hg')|done| |].
  - intros i Hin. split; [by eapply gstep_in|by apply (gp_extends _ _ _ _ _ _ S)].
  - intros i j Hii Hij Hr. rewrite <- !(ext_node _ _ _ X) by done. rewrite <- (sat_rep T' e' g' Hs' i), <- (sat_rep T' e' g' Hs' j), Hr by by eapply gstep_in.
    done.
Qed.
End saturation.

Module saturation_witness.
Import egraph_witness constprop_witness extract_witness.
#[local] Instance on : Config := {| IMPLICIT_CONSTANT_FOLDING := true |}.
#[local] Instance all_nodes : OpScope := true.
#[local] Instance clause_hash_capture : ClauseHash := fun c => if sc_capture c then 1 else 0.
Definition matcher_of (rules : EMatcherBuilder -> result EMatcherBuilder) : result EMatcher := b ← rules empty_builder; build_matcher b.
Definition simplified (rules : EMatcherBuilder -> result EMatcherBuilder) (fuel : nat) (g : EGraph) : result EGraph :=
  M ← matcher_of rules; eg_simplify fuel M g.

(** x is class 0 and x - x class 1; the result has them apart and class 1 with
    the constant 0. *)
Definition gsub : EGraph := with_expr (bin8 OpSub (sym8 "x") (sym8 "x")) eg_empty.
Definition zero_class (r : result EGraph) (i : Z) : option (option Z) :=
  match r with
  | Ok g => Some (c ← classes g !! rep (union_find g) i; k ← constant_index c; n ← nodes c !! k; getZExtValue <$> constant_int_data (en_data n))
  | Err _ => None
  end.
Lemma gsub_simplified : zero_class (simplified add_defaults 4 gsub) 1 = Some (Some 0).
Proof. vm_cast_no_check (@eq_refl (option (option Z)) (Some (Some 0))). Qed.
Lemma sub_wf : wf (bin8 OpSub (sym8 "x") (sym8 "x")).
Proof. constructor; [constructor; [apply sym_node_wf|constructor; [apply sym_node_wf|constructor]]|]. by exists 8. Qed.
Lemma sub_fits T g : op_fits T g (bin8 OpSub (sym8 "x") (sym8 "x")).
Proof. apply fits_node; [done|done|]. constructor; [apply sym8_fits|constructor; [apply sym8_fits|constructor]]. Qed.
Definition safe_check (g : EGraph) : bool :=
  bool_decide (map_Forall (fun _ c => forallb (fun n => safe_opcode (od_opcode (en_data n))) (nodes c) = true) (classes g)).
Lemma safe_check_spec g : safe_check g = true -> nodes_all safe_node g.
Proof.
  unfold safe_check. rewrite bool_decide_eq_true. intros K i c n Hc Hn. specialize (K i c Hc). cbn in K. rewrite forallb_forall in K.
  by apply K, list_elem_of_In.
Qed.
Lemma gsub_env : exists T e, eg_inv T gsub /\ eg_sat T e gsub /\ total gsub e.
Proof.
  destruct (eg_add_op_ok _ sub_wf T0 eg_empty (empty_inv T0) (sub_fits _ _)) as (id & g' & T' & E & _ & _ & _ & I' & _ & _ & Hs).
  destruct (Hs seven (empty_sat T0 seven (fun _ => eq_refl))) as (e' & [[Hsym _] _] & S' & Hv).
  assert ((or_empty (eg_add_op (bin8 OpSub (sym8 "x") (sym8 "x")) eg_empty)).1 = 1) as K by vm_decide. rewrite E in K. cbn in K.
  assert (gsub = g') as Hg by (unfold gsub, with_expr; by rewrite E). exists T', e'. rewrite Hg. split; [done|]. split; [done|]. rewrite <- Hg in *.
  intros i [Hi0 Hi1]. assert (uf_size (union_find gsub) = 2) as Hsz by vm_decide. assert (i = 0 \/ i = 1) as [->| ->] by lia.
  - assert (front_node gsub 0 = Some (mkNode (op_data (sym8 "x")) [])) as F0 by vm_decide.
    rewrite (front_value T' e' gsub 0 _ S' F0). unfold node_op. cbn [denote en_data en_operands op_data sym8 fmap list_fmap]. unfold denote_node. cbn [od_opcode od_payload].
    rewrite <- Hsym. cbn [env_symbol seven]. vm_decide.
  - rewrite K in Hv. rewrite Hv. vm_decide.
Qed.
Lemma simplified_inv rules fuel g i v : zero_class (simplified rules fuel g) i = Some v ->
  exists b M g', rules empty_builder = Ok b /\ build_matcher b = Ok M /\ eg_simplify fuel M g = Ok g' /\ zero_class (Ok g') i = Some v.
Proof.
  intros K. destruct (simplified rules fuel g) as [g'|] eqn:E; [|done]. unfold simplified, matcher_of in E. apply bind_Ok in E as (M & E & Eg).
  apply bind_Ok in E as (b & Eb & EM). by exists b, M, g'.
Qed.
(** x and the class of x - x get 0 as a constant, in a sound graph. *)
Lemma saturation_sound_witness :
  exists M g', eg_simplify 4 M gsub = Ok g' /\ zero_class (Ok g') 1 = Some (Some 0) /\ exists T e, eg_inv T g' /\ eg_sat T e g'.
Proof.
  destruct (simplified_inv add_defaults 4 gsub 1 _ gsub_simplified) as (b & M & g' & Eb & EM & Eg & K). destruct gsub_env as (T & e & I & S & Ht).
  assert (DefaultMatcher M) as HM by (exists b; split; [exact Eb|exact EM]).
  destruct (saturation_sound 4 M T e gsub g' I S Ht) as (T' & e' & I' & S' & _); [apply safe_check_spec; vm_decide|exact Eg|].
  exists M, g'. split; [exact Eg|]. split; [exact K|]. exists T', e'. split; [exact I'|exact S'].
Defined.

(** The default rules fail on (x - x) + 1: the class of x - x gets the constant
    behind the subtraction, and the propagation reads its first node. *)
Definition gsum1 : EGraph := with_expr (bin8 OpAdd (bin8 OpSub (sym8 "x") (sym8 "x")) (int8 1)) eg_empty.
Lemma default_rules_fail : simplified add_defaults 8 gsum1 = Err AssertFailed.
Proof. vm_cast_no_check (@eq_refl (result EGraph) (Err AssertFailed)). Qed.

(** A class that was merged into another keeps the matches recorded for it
    until it is updated itself, and its captured nodes are read at the recorded
    index of the merged class: zext(trunc z) is merged with the constant 0. *)
Definition symw (w : Z) (s : string) : Operation := mkOp (mkData OpConstantNamed (ity w) (PSymbol (Named s))) [].
Definition trunc8 (x : Operation) : Operation := mkOp (mkData OpTrunc (ity 8) NoPayload) [x].
Definition zext16 (x : Operation) : Operation := mkOp (mkData OpZExt (ity 16) NoPayload) [x].
Definition select3 (w : Z) (c x y : Operation) : Operation := mkOp (mkData OpSelect (ity w) NoPayload) [c; x; y].
Definition cmp (o : ICmpOpcode) (x y : Operation) : Operation := mkOp (mkData (OpICmp o) (ity 1) NoPayload) [x; y].
Definition gstale : EGraph :=
  with_expr (select3 8 (select3 1 (cmp EQ (sym8 "x") (sym8 "x")) (cmp NE (sym8 "w") (sym8 "w")) (symw 1 "d")) (sym8 "y") (trunc8 (symw 16 "z")))
    (with_expr (zext16 (trunc8 (symw 16 "z"))) eg_empty).
Definition seven16 : Env := {|
  env_symbol := fun _ => DInt (APInt_of 16 7); env_array := fun _ _ => DInt (APInt_of 16 7); env_node := fun _ => None |}.
Lemma stale_merged : zero_class (simplified add_defaults 8 gstale) 2 = Some (Some 0).
Proof. vm_cast_no_check (@eq_refl (option (option Z)) (Some (Some 0))). Qed.
Lemma stale_capture_unsound :
  front_node gstale 2 = Some (mkNode (mkData OpZExt (ity 16) NoPayload) [1]) /\
  zero_class (simplified add_defaults 8 gstale) 2 = Some (Some 0) /\
  denote seven16 (zext16 (trunc8 (symw 16 "z"))) = Some (DInt (APInt_of 16 7)).
Proof. split; [vm_decide|]. split; [exact stale_merged|vm_decide]. Qed.
End saturation_witness.
