(* ===== verification/ValueMemory.v ===== *)
(** Values in memory: the reads and writes of [caffeine::Allocation] that follow
    an LLVM type (src/Memory/Allocation.cpp), over the scalar ones of
    Allocation.v.

    LLVM's data layout is the class [Layout]. *)
From S2P Require Import Prelude LLVM IRType Value Opcode Operation Matching Create Semantics.
From S2P Require Import Simplifier SimplifierInt SimplifierSound Overflow AtEnv SparseVector Assertions Allocation SlotMap BumpAllocator MemHeap.
From S2P Require Import UnionFind EGraph GraphAssertions Frames Context.
Open Scope Z_scope.

(** [llvm::DataLayout]: sizes in bytes, and the offset of a member of a struct. *)
Class Layout := {
  layout_pointers :: DataLayout;
  getPointerSizeInBits : Z -> Z;
  getTypeAllocSize : llvm_type -> Z;
  getTypeStoreSize : llvm_type -> Z;
  getElementOffset : list llvm_type -> Z -> Z
}.

Section value_memory.
Context `{PtrEq} `{MathExtrasAPI} `{Config} `{Layout}.

(** [Pointer::value(const MemHeapMgr&)]. *)
Definition ptr_value_in (p : Pointer) (m : MemHeapMgr) : result Operation :=
  if negb (is_resolved p) then Ok (ptr_offset p)
  else h ← mgr_at_const m (heap_ p); ptr_value p h.

(** [i * getTypeAllocSize(elem)], on 64 bits. *)
Definition elem_offset (elem : llvm_type) (i : Z) : Z := wrap 64 (i * getTypeAllocSize elem).

(** *** Reading: the members from index [i] on *)
Section members.
Context (read_at : Operation -> result LLVMValue) (elem : llvm_type) (offset : Operation).
Fixpoint read_elements (i : Z) (n : nat) : result (list LLVMValue) :=
  match n with
  | O => Ok []
  | S n =>
      newoffset ← IntOp_Create_ri simplify OpAdd offset (elem_offset elem i);
      m ← read_at newoffset; ms ← read_elements (i + 1) n; Ok (m :: ms)
  end.
End members.
Definition pointer_heap (is_function : bool) (addrspace : Z) : Z := if is_function then FUNCTION_INDEX else addrspace.
Fixpoint read_value (a : Allocation) (type : llvm_type) (offset : Operation) : result LLVMValue :=
  if negb (has_perm (perms_ a) PermRead) then Err Thrown
  else
    match type with
    | LPointer is_function addrspace =>
        t ← int_ty (getPointerSizeInBits 0); v ← read a offset t;
        p ← Pointer_abs v (pointer_heap is_function addrspace); Ok (LLVMValue_of (Ptr p))
    | LArray n elem => ms ← read_elements (read_value a elem) elem offset 0 (Z.to_nat n); Ok (Aggregate ms)
    | LStruct elems =>
        ms ← (fix members (elems : list llvm_type) (elem_off : Z) : result (list LLVMValue) :=
                match elems with
                | [] => Ok []
                | elem :: elems =>
                    newoffset ← IntOp_Create_ri simplify OpAdd offset elem_off;
                    m ← read_value a elem newoffset; ms ← members elems (wrap 64 (elem_off + getTypeAllocSize elem)); Ok (m :: ms)
                end) elems 0;
        Ok (Aggregate ms)
    | LVector n elem =>
        ms ← read_elements (read_value a elem) elem offset 0 (Z.to_nat n); ss ← mapM value_scalar ms; Ok (Vector ss)
    | _ => t ← from_llvm type; v ← read a offset t; Ok (LLVMValue_of (Expr v))
    end.

(** *** Writing *)
Definition write_scalar (a : Allocation) (offset : Operation) (value : LLVMScalar) (m : MemHeapMgr) : result Allocation :=
  match value with
  | Ptr p => v ← ptr_value_in p m; write a offset v
  | Expr e => write a offset e
  end.
Fixpoint write_scalars (a : Allocation) (type : llvm_type) (offset : Operation) (i : Z) (vs : list LLVMScalar) (m : MemHeapMgr) :
    result Allocation :=
  match vs with
  | [] => Ok a
  | v :: vs =>
      o ← IntOp_Create_ri simplify OpAdd offset (elem_offset type i); a ← write_scalar a o v m;
      write_scalars a type offset (i + 1) vs m
  end.
Section elements.
Context (write_at : Allocation -> Operation -> LLVMValue -> result Allocation) (elem : llvm_type) (offset : Operation).
Fixpoint write_elements (a : Allocation) (i : Z) (vs : list LLVMValue) : result Allocation :=
  match vs with
  | [] => Ok a
  | v :: vs =>
      o ← IntOp_Create_ri simplify OpAdd offset (elem_offset elem i); a ← write_at a o v; write_elements a (i + 1) vs
  end.
End elements.
(** A value that is neither a vector nor of an array or struct type is not
    written. *)
Fixpoint write_value (type : llvm_type) (m : MemHeapMgr) (a : Allocation) (offset : Operation) (value : LLVMValue) : result Allocation :=
  if negb (has_perm (perms_ a) PermWrite) then Err Thrown
  else
    match value, type with
    | Vector vs, LVector n elem => assert_ (Z.of_nat (length vs) =? n) ;; write_scalars a elem offset 0 vs m
    | Vector vs, _ => write_scalars a type offset 0 vs m
    | Aggregate ms, LArray n elem =>
        assert_ (Z.of_nat (length ms) =? n) ;; write_elements (write_value elem m) elem offset a 0 ms
    | Aggregate ms, LStruct elems =>
        assert_ (Z.of_nat (length ms) =? Z.of_nat (length elems)) ;;
        (fix members (elems : list llvm_type) (elem_off : Z) (a : Allocation) (ms : list LLVMValue) : result Allocation :=
           match elems, ms with
           | elem :: elems, v :: ms =>
               o ← IntOp_Create_ri simplify OpAdd offset elem_off; a ← write_value elem m a o v;
               members elems (wrap 64 (elem_off + getTypeAllocSize elem)) a ms
           | _, _ => Ok a
           end) elems 0 a ms
    | Aggregate _, _ => Ok a
    end.
End value_memory.
