(* ===== verification/Effects.v ===== *)
(** A monad of state and errors, for the parts of the program that change a
    context or the queue of contexts and may fail at any point.

    A computation returns a value or an error, and the state it leaves behind:
    what was changed before an exception is thrown stays changed. *)
From S2P Require Import Prelude.
Open Scope Z_scope.

Definition M (S A : Type) : Type := S -> result A * S.
#[export] Instance M_ret S : MRet (M S) := fun A a s => (Ok a, s).
#[export] Instance M_bind S : MBind (M S) := fun A B f m s =>
  match m s with (Ok a, s) => f a s | (Err e, s) => (Err e, s) end.

Section effects.
Context {S : Type}.
Definition lift {A} (r : result A) : M S A := fun s => (r, s).
Definition raise {A} (e : error) : M S A := lift (Err e).
Definition state : M S S := fun s => (Ok s, s).
Definition modify (f : S -> S) : M S unit := fun s => (Ok tt, f s).
Definition check_that (b : bool) : M S unit := lift (assert_ b).
(** A function on the state that leaves it alone where it fails. *)
Definition apply_st {A} (f : S -> result (A * S)) : M S A := fun s =>
  match f s with Ok (a, s) => (Ok a, s) | Err e => (Err e, s) end.
Definition update_st (f : S -> result S) : M S unit := apply_st (fun s => s ← f s; Ok (tt, s)).
(** A computation on a part of the state. *)
Definition zoom {T A} (get : S -> result T) (set : S -> T -> S) (m : M T A) : M S A := fun s =>
  match get s with Err e => (Err e, s) | Ok t => let '(r, t) := m t in (r, set s t) end.
(** [make_guard]: [last] runs when [m] is left, also by an exception. *)
Definition finally {A} (m : M S A) (last : M S unit) : M S A := fun s =>
  let '(r, s) := m s in let '(_, s) := last s in (r, s).

Fixpoint map_m {A B} (f : A -> M S B) (l : list A) : M S (list B) :=
  match l with
  | [] => mret []
  | a :: l => b ← f a; bs ← map_m f l; mret (b :: bs)
  end.
Fixpoint iter_m {A} (f : A -> M S unit) (l : list A) : M S unit :=
  match l with
  | [] => mret tt
  | a :: l => _ ← f a; iter_m f l
  end.

(** *** Reasoning *)
Lemma bind_run {A B} (m : M S A) (f : A -> M S B) s b s' :
  (m ≫= f) s = (Ok b, s') <-> exists a s1, m s = (Ok a, s1) /\ f a s1 = (Ok b, s').
Proof.
  unfold mbind, M_bind. destruct (m s) as [[a|e] s1]; split; [by exists a, s1|by intros (? & ? & [= <- <-] & ?)|done|by intros (? & ? & ? & _)].
Qed.
Lemma bind_eq {A B} (m : M S A) (f : A -> M S B) s a s1 : m s = (Ok a, s1) -> (m ≫= f) s = f a s1.
Proof. unfold mbind, M_bind. by intros ->. Qed.
Lemma lift_run {A} (r : result A) s a s' : lift r s = (Ok a, s') <-> r = Ok a /\ s' = s.
Proof. unfold lift. split; [by intros [= -> <-]|by intros [-> ->]]. Qed.
Lemma ret_run {A} (a b : A) s s' : (mret a : M S A) s = (Ok b, s') <-> b = a /\ s' = s.
Proof. split; [by intros [= <- <-]|by intros [-> ->]]. Qed.
Lemma check_run b s u s' : check_that b s = (Ok u, s') <-> b = true /\ s' = s.
Proof. unfold check_that. rewrite lift_run. destruct u. split; [intros [E ->]; by destruct b|by intros [-> ->]]. Qed.
Lemma apply_st_run {A} (f : S -> result (A * S)) s a s' : apply_st f s = (Ok a, s') <-> f s = Ok (a, s').
Proof. unfold apply_st. destruct (f s) as [[x t]|]; (split; [by intros [= <- <-]|by intros [= <- <-]]) || by split. Qed.
Lemma update_st_run (f : S -> result S) s u s' : update_st f s = (Ok u, s') <-> f s = Ok s'.
Proof. unfold update_st. rewrite apply_st_run. destruct u, (f s); cbn; (split; [by intros [= <-]|by intros [= <-]]) || by split. Qed.
Lemma zoom_run {T A} get set (m : M T A) s a s' :
  zoom get set m s = (Ok a, s') <-> exists t t', get s = Ok t /\ m t = (Ok a, t') /\ s' = set s t'.
Proof.
  unfold zoom. destruct (get s) as [t|e]; [destruct (m t) as [r t'] eqn:E|]; split; try done.
  - intros [= -> <-]. by exists t, t'.
  - intros (? & ? & [= <-] & E' & ->). rewrite E in E'. by injection E' as -> <-.
  - by intros (? & ? & ? & _).
Qed.
End effects.
