(* ===== verification/OperationBuilder.v ===== *)
(** Building expressions in a context: [caffeine::OperationBuilder]
    (src/IR/OperationBuilder.cpp).

    A builder makes the expression and puts it into the e-graph of its context;
    what comes back is the class.  The operations of the two macros
    [DEF_BINOP] and [DEF_UNOP] are one definition with the constructor as an
    argument. *)
From S2P Require Import Prelude LLVM IRType Value Opcode Operation Matching Create Semantics.
From S2P Require Import Simplifier SparseVector Assertions Allocation SlotMap BumpAllocator MemHeap.
From S2P Require Import UnionFind EGraph GraphAssertions Frames Context ValueMemory Effects.
Open Scope Z_scope.

(** [transform_elements] with a function that has effects. *)
Section elements.
Context `{PtrEq} `{MathExtrasAPI} `{Config} {S : Type}.
Fixpoint elements_loop (n : nat) (func : list LLVMScalar -> M S LLVMScalar) (its : list (list LLVMScalar)) : M S (list LLVMScalar) :=
  match n with
  | O => mret []
  | Datatypes.S n =>
      args ← lift (of_option UndefinedBehaviour (mapM hd_error its));
      r ← func args; rs ← elements_loop n func (tail <$> its); mret (r :: rs)
  end.
Definition for_elements (func : list LLVMScalar -> M S LLVMScalar) (values : list LLVMValue) : M S LLVMValue :=
  _ ← check_that (forallb is_vector values);
  its ← lift (mapM value_vector values);
  let n := length (default [] (hd_error its)) in
  _ ← check_that (forallb (fun vs => (length vs =? n)%nat) its);
  results ← elements_loop n func its; mret (Vector results).
Definition for_exprs (func : list Operation -> M S Operation) (values : list LLVMValue) : M S LLVMValue :=
  for_elements (fun args => es ← lift (mapM scalar_expr args); r ← func es; mret (Expr r)) values.
(** Functions of one and of two arguments. *)
Definition on_one {A} (f : A -> M S LLVMScalar) (args : list A) : M S LLVMScalar :=
  match args with [a] => f a | _ => raise UndefinedBehaviour end.
Definition on_two {A B} (f : A -> A -> M S B) (args : list A) : M S B :=
  match args with [a; b] => f a b | _ => raise UndefinedBehaviour end.
Definition on_three {A} (f : A -> A -> A -> M S LLVMScalar) (args : list A) : M S LLVMScalar :=
  match args with [a; b; c] => f a b c | _ => raise UndefinedBehaviour end.
End elements.

Section builder.
Context `{PtrEq} `{!DataPtrEq} `{MapOrder} `{MathExtrasAPI} `{Config} `{HashOrder} `{LLVMIR} `{Layout}.

Definition passthrough (o : Opcode) : bool :=
  match o with OpConstantInt | OpConstantFloat | OpFixedArray | OpFunctionObject => true | _ => false end.
Definition to_egraph (op : Operation) : M Context Operation :=
  if passthrough (op_opcode op) then mret op
  else
    id ← apply_st (fun c => '(id, g) ← eg_add_op op (egraph c); Ok (id, set_graphs c (assertions c) g));
    lift (EGraphNode_Create simplify (op_type op) id).
Definition ptr_to_expr (p : Pointer) : M Context Operation := c ← state; lift (ptr_value_in p (heaps c)).
Definition to_expr (s : LLVMScalar) : M Context Operation :=
  match s with Expr e => mret e | Ptr p => ptr_to_expr p end.

Definition createConstantInt (bitwidth value : Z) : result Operation := ConstantInt_Create simplify (APInt_of bitwidth value).
Definition createConstantZero (bitwidth : Z) : result Operation := ConstantInt_Create simplify (getNullValue bitwidth).
Definition createFunctionObject (function : Z) : result Operation := FunctionObject_Create simplify function.
Definition createConstant (t : Ty) (symbol : Symbol) : M Context Operation := op ← lift (Constant_Create simplify t symbol); to_egraph op.

Definition createConstantFloat (value : APFloat) : result Operation := ConstantFloat_Create simplify value.
Definition createConstantArray (symbol : Symbol) (size : Operation) : M Context Operation :=
  op ← lift (ConstantArray_Create simplify symbol size); to_egraph op.
Definition createAlloc (size defaultval : Operation) : result Operation := AllocOp_Create simplify size defaultval.
Definition createLoad (data offset : Operation) : M Context Operation := op ← lift (LoadOp_Create simplify data offset); to_egraph op.
Definition createStore (data offset value : Operation) : result Operation := StoreOp_Create simplify data offset value.
Definition createUndef (t : Ty) : M Context Operation := op ← lift (Undef_Create simplify t); to_egraph op.
Definition createFixedArray (index_ty : Ty) (data : list Operation) : result Operation := FixedArray_Create simplify index_ty data.

(** [DEF_BINOP]. *)
Definition create_binop (create : Operation -> Operation -> result Operation) (lhs rhs : Operation) : M Context Operation :=
  op ← lift (create lhs rhs); to_egraph op.
Definition create_binop_values (create : Operation -> Operation -> result Operation) (lhs rhs : LLVMValue) : M Context LLVMValue :=
  for_elements (on_two (fun a b => x ← to_expr a; y ← to_expr b; r ← create_binop create x y; mret (Expr r))) [lhs; rhs].
(** [DEF_INT_BINOP_OVERLOADS]: the literal on the right and on the left. *)
Definition create_binop_ri (create : Operation -> Operation -> result Operation) (lhs : Operation) (rhs : Z) : M Context Operation :=
  _ ← check_that (is_int (op_type lhs)); w ← lift (bitwidth (op_type lhs));
  value ← lift (ConstantInt_Create simplify (ap_sextOrTrunc (APInt_of 64 rhs) w)); create_binop create lhs value.
Definition create_binop_li (create : Operation -> Operation -> result Operation) (lhs : Z) (rhs : Operation) : M Context Operation :=
  _ ← check_that (is_int (op_type rhs)); w ← lift (bitwidth (op_type rhs));
  value ← lift (ConstantInt_Create simplify (ap_sextOrTrunc (APInt_of 64 lhs) w)); create_binop create value rhs.
(** [DEF_PTR_BINOP_OVERLOADS]. *)
Definition create_binop_ptr (create : Operation -> Operation -> result Operation) (lhs : Pointer) (rhs : Operation) : M Context Operation :=
  x ← ptr_to_expr lhs; create_binop create x rhs.
Definition create_binop_expr_ptr (create : Operation -> Operation -> result Operation) (lhs : Operation) (rhs : Pointer) : M Context Operation :=
  y ← ptr_to_expr rhs; create_binop create lhs y.
Definition create_binop_ptrs (create : Operation -> Operation -> result Operation) (lhs rhs : Pointer) : M Context Operation :=
  x ← ptr_to_expr lhs; y ← ptr_to_expr rhs; create_binop create x y.
(** [DEF_UNOP]. *)
Definition create_unop (create : Operation -> result Operation) (operand : Operation) : M Context Operation :=
  op ← lift (create operand); to_egraph op.
Definition create_unop_values (create : Operation -> result Operation) (arg : LLVMValue) : M Context LLVMValue :=
  for_elements (on_one (fun x => e ← to_expr x; r ← create_unop create e; mret (Expr r))) [arg].
(** [DEF_CONVERT]. *)
Definition create_convert (create : Ty -> Operation -> result Operation) (tgt : Ty) (operand : Operation) : M Context Operation :=
  op ← lift (create tgt operand); to_egraph op.
Definition create_convert_values (create : Ty -> Operation -> result Operation) (tgt : Ty) (x : LLVMValue) : M Context LLVMValue :=
  for_elements (on_one (fun x => e ← to_expr x; r ← create_convert create tgt e; mret (Expr r))) [x].

Definition createAdd_ptr : Pointer -> Operation -> M Context Operation := create_binop_ptr (CreateAdd simplify).
Definition createAnd_values : LLVMValue -> LLVMValue -> M Context LLVMValue := create_binop_values (CreateAnd simplify).
Definition createOr_values : LLVMValue -> LLVMValue -> M Context LLVMValue := create_binop_values (CreateOr simplify).
Definition createNot_values : LLVMValue -> M Context LLVMValue := create_unop_values (CreateNot simplify).
Definition createFIsNaN_values : LLVMValue -> M Context LLVMValue := create_unop_values (CreateFIsNaN simplify).
Definition createICmp (opcode : ICmpOpcode) : Operation -> Operation -> M Context Operation := create_binop (CreateICmp simplify opcode).
Definition createICmp_values (opcode : ICmpOpcode) : LLVMValue -> LLVMValue -> M Context LLVMValue :=
  create_binop_values (CreateICmp simplify opcode).
Definition createICmpEQ_ptrs : Pointer -> Pointer -> M Context Operation := create_binop_ptrs (CreateICmp simplify EQ).
(** [createFCmp] takes the expressions of its scalars, a pointer fails. *)
Definition createFCmp (opcode : FCmpOpcode) (lhs rhs : Operation) : M Context Operation :=
  op ← lift (CreateFCmp simplify opcode lhs rhs); to_egraph op.
Definition createFCmp_values (opcode : FCmpOpcode) (lhs rhs : LLVMValue) : M Context LLVMValue :=
  for_elements (on_two (fun a b => x ← lift (scalar_expr a); y ← lift (scalar_expr b); r ← createFCmp opcode x y; mret (Expr r))) [lhs; rhs].
End builder.
