(* ===== verification/InterpreterContext.v ===== *)
(** The context part of [caffeine::InterpreterContext]
    (src/Interpreter/InterpreterContext.cpp): variables, allocations, memory,
    jumps, calls and queries of one execution context.

    LLVM's values, instructions, blocks and functions are identities.  What the
    interpreter reads off them through LLVM's classes is the class
    [LLVMProgram]: [inst_view] and [value_view] give the operands and types of
    an instruction or a constant after LLVM's own dispatch on its class. *)
From S2P Require Import Prelude LLVM IRType Value Opcode Operation Matching Create Semantics.
From S2P Require Import Simplifier ModelEval SparseVector Assertions Slicer Solvers Allocation SlotMap BumpAllocator MemHeap.
From S2P Require Import UnionFind EGraph Extract GraphAssertions Frames Context ValueMemory Constprop EMatching Effects OperationBuilder.
Open Scope Z_scope.

(** ** What is read off LLVM's IR *)
Inductive FCmpPredicate : Set :=
| FCMP_FALSE | FCMP_OEQ | FCMP_OGT | FCMP_OGE | FCMP_OLT | FCMP_OLE | FCMP_ONE | FCMP_ORD
| FCMP_UNO | FCMP_UEQ | FCMP_UGT | FCMP_UGE | FCMP_ULT | FCMP_ULE | FCMP_UNE | FCMP_TRUE.
(** A step of [gep_type_iterator]: a member of a struct or an index. *)
Inductive GepIndex : Type :=
| GepMember (sty : list llvm_type) (member : Z)
| GepOperand (indexed : llvm_type) (operand : Z).

Section views.
Context `{APIntAPI} `{APFloatAPI}.
Inductive InstView : Type :=
| IBinary (o : Opcode) (lhs rhs : Z)
| ICast (o : Opcode) (x : Z) (type : llvm_type)
| IFNeg (x : Z)
| IICmp (p : ICmpOpcode) (lhs rhs : Z)
| IFCmp (p : FCmpPredicate) (lhs rhs : Z)
| IPtrToInt (x : Z) (type : llvm_type)
| IIntToPtr (x : Z) (addrspace : Z)
| IBitCast (x : Z) (src dst : llvm_type)
| IGetElementPtr (inbounds : bool) (base : Z) (indices : list GepIndex) (width : option Z) (addrspace : Z)
| ISelect (cond t_val f_val : Z)
| IInsertElement (vec elt idx : Z)
| IExtractElement (vec idx : Z) (type : llvm_type)
| IShuffleVector (v1 v2 : Z) (mask : list (option Z)) (elem : llvm_type)
| IExtractValue (agg : Z) (indices : list Z)
| IInsertValue (agg val : Z) (indices : list Z)
| IPHI (incoming : list (Z * Z))
| IBr (target : Z)
| ICondBr (cond if_true if_false : Z)
| IRet (value : option Z)
| ISwitch (cond : Z) (cases : list (APInt * Z)) (default_dest : Z)
| ICall (called : option Z) (operand : Z) (args : list Z)
| IIntrinsic (id : Z) (no_effect : bool) (called : Z) (args : list Z)
| IResume (value : Z)
| ILoad (ptr : Z) (type : llvm_type)
| IStore (ptr value : Z) (type : llvm_type)
| IAlloca (allocated : llvm_type) (alignment addrspace : Z)
| IMemTransfer
| IDbgInfo
| IOther.
Inductive ValueView : Type :=
| VInstruction
| VConstantExpr (inst : InstView)
| VConstantInt (a : APInt)
| VConstantFP (f : APFloat)
| VConstantPointerNull (addrspace : Z)
| VConstantAggregateZero (is_vector : bool) (elements : list Z)
| VConstantDataVector (splat : option Z) (elements : list Z)
| VConstantDataArray (elements : list Z)
| VUndef (type : llvm_type)
| VConstantArray (operands : list Z)
| VConstantStruct (operands : list Z)
| VConstantVector (operands : list Z)
| VGlobalVariable (initializer : option (Z * llvm_type)) (is_constant : bool) (alignment addrspace : Z)
| VFunction (instruction_count : Z)
| VGlobalAlias (aliasee : Z)
| VOtherValue.
Class LLVMProgram := {
  program_ir :: LLVMIR;
  inst_view : Z -> InstView;
  value_view : Z -> ValueView;
  block_parent : Z -> Z;
  fn_empty : Z -> bool;
  fn_is_intrinsic : Z -> bool;
  fn_return_type : Z -> llvm_type;
  is_call_or_invoke : Z -> bool;
  is_call : Z -> bool
}.
End views.

Section interp_context.
Context `{PtrEq} `{!DataPtrEq} `{MapOrder} `{MathExtrasAPI} `{Config} `{HashOrder} `{!LLVMProgram} `{Layout}.

(** ** The context as the heaps see it *)
Context (solver : Solver) (fuel : nat).
#[export] Instance context_ops : PathOps Context := {|
  ctx_add := context_add;
  ctx_check c a := '(r, c) ← context_check solver fuel c a; Ok (kind_ r, c);
  next_constant c := '(n, c) ← ctx_next_constant c; Ok (Numbered n, c);
  ctx_extract c a :=
    g ← rebuild (egraph c); '(r, x) ← extract_op a (Extractor_ctor g false);
    Ok (r, set_graphs c (assertions c) (x_graph x))
|}.

(** *** The current function and instruction *)
Definition getCurrentFunction (c : Context) : result (option Z) :=
  if ctx_empty c then Ok None
  else
    frame ← stack_top c;
    if is_regular frame then f ← get_regular frame; Ok (Some (block_parent (current_block f)))
    else x ← get_external frame; Ok (Some (ext_func x)).
Definition getCurrentInstruction (c : Context) : result (option Z) :=
  if ctx_empty c then Ok None
  else
    frame ← stack_top c;
    if is_external frame then Ok None else f ← get_regular frame; get_current_instruction f.

(** *** Variables *)
Definition set_top (c : Context) (f : StackFrame) : Context := set_stack c (removelast (ctx_stack c) ++ [f]).
Definition lookup_value (value : Z) : M Context (option LLVMValue) :=
  c ← state; frame ← lift (stack_top c);
  if is_external frame then mret None else f ← lift (get_regular frame); mret (variables f !! value).
(** The change of the frame on top of the stack. *)
Definition update_regular (change : IRStackFrame -> result IRStackFrame) : M Context unit :=
  update_st (fun c => frame ← stack_top c; f ← get_regular frame; f ← change f; Ok (set_top c (set_regular frame f))).
Definition store_value (ident : Z) (value : LLVMValue) : M Context unit :=
  c ← state; frame ← lift (stack_top c);
  if is_external frame then raise Unimplemented else update_regular (fun f => Ok (frame_insert f ident value)).

(** *** Allocations *)
Definition in_heap {A} (index : Z) (f : MemHeap -> Context -> result (A * MemHeap * Context)) : M Context A :=
  apply_st (fun c =>
    let '(h, m) := mgr_at (heaps c) index in
    '(a, h, c) ← f h (set_heaps c m); Ok (a, set_heaps c (mgr_set (heaps c) index h))).
Definition add_alloca (alloc : AllocId) (address_space : Z) (f : IRStackFrame) : IRStackFrame :=
  mkIRFrame (ir_frame_id f) (allocations f ++ [mkStackAlloc alloc address_space]) (variables f) (current_block f) (prev_block f)
    (current f) (func f).
Definition interp_allocate (size align data : Operation) (address_space : Z) (kind : AllocationKind) (perms : Z) : M Context Pointer :=
  alloc ← in_heap address_space (fun h c => allocate h size align data kind perms c);
  _ ← (if decide (kind = Alloca) then update_regular (fun f => Ok (add_alloca alloc address_space f)) else mret tt);
  zero ← lift (ConstantInt_CreateZero simplify (getPointerSizeInBits address_space));
  lift (Pointer_ctor alloc zero address_space).
Definition allocate_repeated (size align byte : Operation) (address_space : Z) (kind : AllocationKind) (perms : Z) : M Context Pointer :=
  data ← lift (AllocOp_Create simplify size byte); interp_allocate size align data address_space kind perms.

(** *** Memory: the allocation of a resolved pointer is changed in place *)
Definition sm_update {T} (m : slot_map T) (key : key_type) (x : T) : slot_map T :=
  mkSlotMap (alter (fun e => entry_emplace e x) (Z.to_nat key.1) (entries_ m)) (head m).
Definition heap_update (h : MemHeap) (alloc : AllocId) (a : Allocation) : MemHeap :=
  mkHeap (sm_update (allocs_ h) alloc a) (index_ h) (allocator_ h).
Definition get_allocation (p : Pointer) : M Context Allocation :=
  apply_st (fun c => '(a, m) ← ptr_allocation (heaps c) p; Ok (a, set_heaps c m)).
Definition put_allocation (p : Pointer) (a : Allocation) : M Context unit :=
  modify (fun c => let '(h, m) := mgr_at (heaps c) (heap_ p) in set_heaps c (mgr_set m (heap_ p) (heap_update h (alloc_ p) a))).
Definition mem_write (p : Pointer) (type : llvm_type) (value : LLVMValue) : M Context unit :=
  _ ← check_that (is_resolved p); a ← get_allocation p; c ← state;
  a ← lift (write_value type (heaps c) a (ptr_offset p) value); put_allocation p a.
Definition mem_read (p : Pointer) (type : llvm_type) : M Context LLVMValue :=
  _ ← check_that (is_resolved p); a ← get_allocation p; lift (read_value a type (ptr_offset p)).

(** *** Jumps and calls *)
Definition interp_jump_to (block : Z) : M Context unit :=
  c ← state; _ ← check_that (negb (ctx_empty c));
  fn ← lift (getCurrentFunction c); _ ← check_that (bool_decide (fn = Some (block_parent block)));
  frame ← lift (stack_top c); _ ← check_that (is_regular frame);
  update_regular (fun f => jump_to f (Some block)).
Definition update_top (change : StackFrame -> result StackFrame) : M Context unit :=
  update_st (fun c => frame ← stack_top c; f ← change frame; Ok (set_top c f)).
Definition jump_return (retval : option LLVMValue) : M Context unit :=
  c ← state; _ ← check_that (negb (ctx_empty c)); inst ← lift (getCurrentInstruction c);
  _ ← check_that (match inst with Some i => is_call_or_invoke i | None => true end);
  update_top (fun f => set_result f retval None).
Fixpoint bind_args (f : IRStackFrame) (params : list Z) (args : list LLVMValue) : IRStackFrame :=
  match params, args with
  | p :: params, a :: args => bind_args (frame_insert f p a) params args
  | _, _ => f
  end.
(** The counter of frame ids is threaded through. *)
Definition call_function (function : Z) (args : list LLVMValue) (next : Z) : M Context Z :=
  _ ← check_that (negb (fn_empty function)); _ ← check_that (length args =? length (fn_args function))%nat;
  let '(frame, next) := RegularFrame function next in
  callee ← lift (get_regular frame);
  _ ← modify (fun c => ctx_push c (set_regular frame (bind_args callee (fn_args function) args))); mret next.
Definition call_external_function (frame : ExternalStackFrame) : M Context unit :=
  modify (fun c => ctx_push c (ExternalFrame frame)).

(** *** Queries: the e-graph is simplified first *)
Context (matcher : EMatcher) (rounds : nat).
Definition simplify_graph : M Context unit :=
  update_st (fun c => g ← eg_simplify rounds matcher (egraph c); Ok (set_graphs c (assertions c) g)).
Definition interp_check (extra : Operation) : M Context SolverResult :=
  _ ← simplify_graph; apply_st (fun c => context_check solver fuel c extra).
Definition interp_resolve (extra : Operation) : M Context SolverResult :=
  _ ← simplify_graph; apply_st (fun c => context_resolve solver fuel c extra).
Definition add_assertion (assertion : Operation) : M Context unit := update_st (fun c => context_add c assertion).
End interp_context.
