(* ===== verification/ExprEval.v ===== *)
(** Evaluation of LLVM expressions: [caffeine::ExprEvaluator]
    (src/Interpreter/ExprEval.cpp).

    A value is looked up among the variables of the frame first and evaluated
    where it has none.  The recursion follows the operands of constants and
    instructions, which the model bounds by [fuel].  Evaluating a global makes
    an allocation for it the first time. *)
From S2P Require Import Prelude LLVM IRType Value Opcode Operation Matching Create Semantics.
From S2P Require Import Simplifier ModelEval SparseVector Assertions Slicer Solvers Allocation SlotMap BumpAllocator MemHeap.
From S2P Require Import UnionFind EGraph Extract GraphAssertions Frames Context ValueMemory Constprop EMatching Effects OperationBuilder InterpreterContext.
Open Scope Z_scope.

Section expr_eval.
Context `{PtrEq} `{!DataPtrEq} `{MapOrder} `{MathExtrasAPI} `{Config} `{HashOrder} `{!LLVMProgram} `{Layout}.
Context (solver : Solver) (fuel : nat).

Definition scalarize : LLVMScalar -> M Context Operation := to_expr.

(** *** Undefined values, by their type *)
Fixpoint visitUndefValue (type : llvm_type) : result LLVMValue :=
  match type with
  | LVector n elem => inner ← visitUndefValue elem; s ← value_scalar inner; Ok (Vector (replicate (Z.to_nat n) s))
  | LArray n elem => inner ← visitUndefValue elem; Ok (Aggregate (replicate (Z.to_nat n) inner))
  | LStruct elems =>
      ms ← (fix members (elems : list llvm_type) : result (list LLVMValue) :=
              match elems with [] => Ok [] | t :: elems => m ← visitUndefValue t; ms ← members elems; Ok (m :: ms) end) elems;
      Ok (Aggregate ms)
  | LInteger _ | LHalf | LFloat | LDouble | LFP128 | LX86_FP80 | LPPC_FP128 =>
      t ← from_llvm type; u ← Undef_Create simplify t; Ok (LLVMValue_of (Expr u))
  | LPointer _ addrspace =>
      t ← int_ty (getPointerSizeInBits addrspace); u ← Undef_Create simplify t; p ← Pointer_abs u addrspace; Ok (LLVMValue_of (Ptr p))
  | _ => Err Thrown
  end.

(** *** Selections, also of pointers *)
Definition eval_select (cond t_val f_val : LLVMScalar) : M Context LLVMScalar :=
  if negb (is_pointer t_val) && negb (is_pointer f_val) then
    c ← lift (scalar_expr cond); t ← lift (scalar_expr t_val); f ← lift (scalar_expr f_val);
    r ← lift (SelectOp_Create simplify c t f); mret (Expr r)
  else
    t_ptr ← lift (scalar_pointer t_val); f_ptr ← lift (scalar_pointer f_val);
    _ ← check_that (heap_ t_ptr =? heap_ f_ptr);
    c ← lift (scalar_expr cond);
    if decide (alloc_ t_ptr = alloc_ f_ptr) then
      off ← lift (SelectOp_Create simplify c (ptr_offset t_ptr) (ptr_offset f_ptr));
      p ← lift (Pointer_ctor (alloc_ t_ptr) off (heap_ t_ptr)); mret (Ptr p)
    else
      t ← ptr_to_expr t_ptr; f ← ptr_to_expr f_ptr; v ← lift (SelectOp_Create simplify c t f);
      p ← lift (Pointer_abs v (heap_ t_ptr)); mret (Ptr p).
Definition index_is (idx : Operation) (i : Z) : M Context LLVMScalar := c ← lift (CreateICmp_ri simplify EQ idx i); mret (Expr c).
Fixpoint insert_select (idx : Operation) (elt : LLVMScalar) (i : Z) (vec : list LLVMScalar) : M Context (list LLVMScalar) :=
  match vec with
  | [] => mret []
  | v :: vec => c ← index_is idx i; r ← eval_select c elt v; rs ← insert_select idx elt (i + 1) vec; mret (r :: rs)
  end.
Fixpoint extract_select (idx : Operation) (i : Z) (vec : list LLVMScalar) (result_ : LLVMScalar) : M Context LLVMScalar :=
  match vec with
  | [] => mret result_
  | v :: vec => c ← index_is idx i; r ← eval_select c v result_; extract_select idx (i + 1) vec r
  end.

(** *** The constructors behind the macros *)
Definition binary_create (o : Opcode) : option (Operation -> Operation -> result Operation) :=
  match o with
  | OpAdd | OpSub | OpMul | OpUDiv | OpSDiv | OpURem | OpSRem | OpShl | OpLShr | OpAShr | OpAnd | OpOr | OpXor =>
      Some (IntOp_Create simplify o)
  | OpFAdd | OpFSub | OpFMul | OpFDiv => Some (FloatOp_Create simplify o)
  | _ => None
  end.
Definition cast_create (o : Opcode) : option (Ty -> Operation -> result Operation) :=
  match o with
  | OpTrunc => Some (CreateTrunc simplify) | OpSExt => Some (CreateSExt simplify) | OpZExt => Some (CreateZExt simplify)
  | OpFpTrunc => Some (CreateFpTrunc simplify) | OpFpExt => Some (CreateFpExt simplify)
  | OpUIToFp => Some (CreateUIToFp simplify) | OpSIToFp => Some (CreateSIToFp simplify)
  | OpFpToSI => Some (CreateFpToSI simplify) | OpFpToUI => Some (CreateFpToUI simplify)
  | _ => None
  end.
Inductive FCmpCase : Set := FCompare (ordered : bool) (op : FCmpOpcode) | FUnordered | FOrdered | FConst (value : bool).
Definition fcmp_case (p : FCmpPredicate) : FCmpCase :=
  match p with
  | FCMP_OEQ => FCompare true FEQ | FCMP_OGT => FCompare true FGT | FCMP_OGE => FCompare true FGE
  | FCMP_OLT => FCompare true FLT | FCMP_OLE => FCompare true FLE | FCMP_ONE => FCompare true FNE
  | FCMP_UEQ => FCompare false FEQ | FCMP_UGT => FCompare false FGT | FCMP_UGE => FCompare false FGE
  | FCMP_ULT => FCompare false FLT | FCMP_ULE => FCompare false FLE | FCMP_UNE => FCompare false FNE
  | FCMP_UNO => FUnordered | FCMP_ORD => FOrdered | FCMP_TRUE => FConst true | FCMP_FALSE => FConst false
  end.

(** ** Instructions *)
Section visit.
Context (visit : Z -> M Context LLVMValue).
Definition visit_scalar (v : Z) : M Context LLVMScalar := x ← visit v; lift (value_scalar x).
Definition visitBinary (o : Opcode) (l r : Z) : M Context LLVMValue :=
  match binary_create o with
  | None => raise Thrown
  | Some create =>
      lhs ← visit l; rhs ← visit r;
      for_elements (on_two (fun a b => x ← scalarize a; y ← scalarize b; v ← lift (create x y); mret (Expr v))) [lhs; rhs]
  end.
Definition visitCast (o : Opcode) (x : Z) (type : llvm_type) : M Context LLVMValue :=
  match cast_create o with
  | None => raise Thrown
  | Some create =>
      value ← visit x; t ← lift (from_llvm type);
      for_elements (on_one (fun a => e ← lift (scalar_expr a); v ← lift (create t e); mret (Expr v))) [value]
  end.
Definition visitFNeg (x : Z) : M Context LLVMValue :=
  value ← visit x; for_elements (on_one (fun a => e ← lift (scalar_expr a); v ← lift (CreateFNeg simplify e); mret (Expr v))) [value].
Definition visitICmp (p : ICmpOpcode) (l r : Z) : M Context LLVMValue :=
  lhs ← visit l; rhs ← visit r; createICmp_values p lhs rhs.
Definition either_nan (lhs rhs : LLVMValue) : M Context LLVMValue :=
  a ← createFIsNaN_values lhs; b ← createFIsNaN_values rhs; createOr_values a b.
Definition visitFCmp (p : FCmpPredicate) (l r : Z) : M Context LLVMValue :=
  lhs ← visit l; rhs ← visit r;
  match fcmp_case p with
  | FUnordered => either_nan lhs rhs
  | FOrdered => n ← either_nan lhs rhs; createNot_values n
  | FConst value =>
      x ← visit l; for_elements (on_one (fun _ => v ← lift (ConstantInt_Create_bool simplify value); mret (Expr v))) [x]
  | FCompare ordered op =>
      checkord ← either_nan lhs rhs; cmp ← createFCmp_values op lhs rhs;
      if ordered then n ← createNot_values checkord; createAnd_values n cmp else createOr_values checkord cmp
  end.
Definition visitPtrToInt (x : Z) (type : llvm_type) : M Context LLVMValue :=
  t ← lift (from_llvm type); v ← visit x; create_convert_values (CreateTruncOrZExt simplify) t v.
Definition visitIntToPtr (x addrspace : Z) : M Context LLVMValue :=
  v ← visit x;
  for_elements (on_one (fun a =>
    t ← lift (int_ty (getPointerSizeInBits addrspace)); e ← lift (scalar_expr a); r ← lift (CreateTruncOrZExt simplify t e);
    p ← lift (Pointer_abs r addrspace); mret (Ptr p))) [v].
Definition is_pointer_ty (t : llvm_type) : bool := match t with LPointer _ _ => true | _ => false end.
Definition is_integer_ty (t : llvm_type) : bool := match t with LInteger _ => true | _ => false end.
Definition is_fp_ty (t : llvm_type) : bool :=
  match t with LHalf | LFloat | LDouble | LFP128 | LX86_FP80 | LPPC_FP128 => true | _ => false end.
Definition visitBitCast (x : Z) (src dst : llvm_type) : M Context LLVMValue :=
  if is_pointer_ty dst && is_pointer_ty src then visit x
  else if (is_integer_ty dst && is_fp_ty src) || (is_fp_ty dst && is_integer_ty src) then
    t ← lift (from_llvm dst); v ← visit x; create_convert_values (CreateBitcast simplify) t v
  else raise Thrown.

(** [GetElementPtr]: the offsets of all indices are added up. *)
Definition gep_offset (ptr_width : Z) (n : nat) (i : GepIndex) : M Context LLVMValue :=
  match i with
  | GepMember sty member =>
      m ← lift (createConstantInt ptr_width (getElementOffset sty (wrap 32 member))); mret (broadcast (Expr m) n)
  | GepOperand indexed operand =>
      v ← visit operand;
      v ← (if is_scalar v then s ← lift (value_scalar v); mret (broadcast s n) else mret v);
      for_elements (on_one (fun a =>
        e ← lift (scalar_expr a); t ← lift (int_ty ptr_width); index ← lift (CreateTruncOrSExt simplify t e);
        r ← lift (IntOp_Create_ri simplify OpMul index (getTypeAllocSize indexed)); mret (Expr r))) [v]
  end.
Fixpoint gep_offsets (ptr_width : Z) (n : nat) (indices : list GepIndex) (offsets : LLVMValue) : M Context LLVMValue :=
  match indices with
  | [] => mret offsets
  | i :: indices =>
      newoffset ← gep_offset ptr_width n i;
      offsets ← for_elements (on_two (fun a b =>
        x ← lift (scalar_expr a); y ← lift (scalar_expr b); r ← lift (CreateAdd simplify x y); mret (Expr r))) [offsets; newoffset];
      gep_offsets ptr_width n indices offsets
  end.
Definition gep_pointer (inbounds : bool) (base offset : LLVMScalar) : M Context LLVMScalar :=
  ptr ← lift (scalar_pointer base); off ← lift (scalar_expr offset);
  if inbounds then
    o ← lift (CreateAdd simplify (ptr_offset ptr) off); p ← lift (Pointer_ctor (alloc_ ptr) o (heap_ ptr)); mret (Ptr p)
  else v ← createAdd_ptr ptr off; p ← lift (Pointer_abs v (heap_ ptr)); mret (Ptr p).
Definition visitGetElementPtr (inbounds : bool) (base : Z) (indices : list GepIndex) (width : option Z) (addrspace : Z) :
    M Context LLVMValue :=
  let n := Z.to_nat (default 1 width) in
  let ptr_width := getPointerSizeInBits addrspace in
  zero ← lift (ConstantInt_CreateZero simplify ptr_width);
  offsets ← gep_offsets ptr_width n indices (broadcast (Expr zero) n);
  b ← visit base;
  '(b, offsets) ← (if is_scalar b then s ← lift (value_scalar b); mret (broadcast s n, offsets)
                   else if is_scalar offsets then s ← lift (value_scalar offsets); k ← lift (num_elements b); mret (b, broadcast s (Z.to_nat k))
                   else mret (b, offsets));
  nb ← lift (num_elements b); no ← lift (num_elements offsets); _ ← check_that (nb =? no);
  for_elements (on_two (gep_pointer inbounds)) [b; offsets].

Definition visitSelectInst (cond t f : Z) : M Context LLVMValue :=
  cond ← visit cond; t_val ← visit t; f_val ← visit f;
  cond ← (if is_scalar cond then s ← lift (value_scalar cond); n ← lift (num_elements t_val); mret (broadcast s (Z.to_nat n))
          else mret cond);
  for_elements (on_three eval_select) [cond; t_val; f_val].
Definition visitInsertElement (vec elt idx : Z) : M Context LLVMValue :=
  v ← visit vec; vs ← lift (value_vector v); elt ← visit_scalar elt; i ← visit_scalar idx; idx ← lift (scalar_expr i);
  rs ← insert_select idx elt 0 vs; mret (Vector rs).
Definition visitExtractElement (vec idx : Z) (type : llvm_type) : M Context LLVMValue :=
  v ← visit vec; vs ← lift (value_vector v); i ← visit_scalar idx; idx ← lift (scalar_expr i);
  u ← lift (match type with
            | LPointer _ addrspace =>
                t ← int_ty (getPointerSizeInBits addrspace); u ← Undef_Create simplify t; p ← Pointer_abs u addrspace; Ok (Ptr p)
            | _ => t ← from_llvm type; u ← Undef_Create simplify t; Ok (Expr u)
            end);
  r ← extract_select idx 0 vs u; mret (LLVMValue_of r).
(** The mask selects from both vectors; [UndefMaskElem] is [None]. *)
Definition shuffled (elem : llvm_type) (vec1 vec2 : list LLVMScalar) (mask_val : option Z) : M Context LLVMScalar :=
  t ← lift (from_llvm elem); u ← lift (Undef_Create simplify t);
  match mask_val with
  | None => mret (Expr u)
  | Some i =>
      s ← lift (of_option UndefinedBehaviour
                  (if i <? Z.of_nat (length vec1) then at_z vec1 i else at_z vec2 (i - Z.of_nat (length vec1))));
      e ← scalarize s; mret (Expr e)
  end.
Definition visitShuffleVector (v1 v2 : Z) (mask : list (option Z)) (elem : llvm_type) : M Context LLVMValue :=
  x ← visit v1; y ← visit v2; vec1 ← lift (value_vector x); vec2 ← lift (value_vector y);
  rs ← map_m (shuffled elem vec1 vec2) mask; mret (Vector rs).
Fixpoint member_at (v : LLVMValue) (indices : list Z) : result LLVMValue :=
  match indices with [] => Ok v | i :: indices => m ← member v (Z.to_nat i); member_at m indices end.
Definition visitExtractValue (agg : Z) (indices : list Z) : M Context LLVMValue := v ← visit agg; lift (member_at v indices).
Fixpoint insert_member (v : LLVMValue) (indices : list Z) (new : LLVMValue) : result LLVMValue :=
  match indices with
  | [] => Ok new
  | i :: indices =>
      ms ← value_aggregate v; m ← of_option UndefinedBehaviour (ms !! Z.to_nat i);
      m ← insert_member m indices new; Ok (Aggregate (<[Z.to_nat i := m]> ms))
  end.
Definition visitInsertValue (agg val : Z) (indices : list Z) : M Context LLVMValue :=
  a ← visit agg; v ← visit val; lift (insert_member a indices v).

(** Everything else is [visitInstruction]. *)
Definition visit_inst (i : InstView) : M Context LLVMValue :=
  match i with
  | IBinary o l r => visitBinary o l r
  | ICast o x t => visitCast o x t
  | IFNeg x => visitFNeg x
  | IICmp p l r => visitICmp p l r
  | IFCmp p l r => visitFCmp p l r
  | IPtrToInt x t => visitPtrToInt x t
  | IIntToPtr x a => visitIntToPtr x a
  | IBitCast x s d => visitBitCast x s d
  | IGetElementPtr ib b is_ w a => visitGetElementPtr ib b is_ w a
  | ISelect c t f => visitSelectInst c t f
  | IInsertElement v e i => visitInsertElement v e i
  | IExtractElement v i t => visitExtractElement v i t
  | IShuffleVector a b m t => visitShuffleVector a b m t
  | IExtractValue a is_ => visitExtractValue a is_
  | IInsertValue a v is_ => visitInsertValue a v is_
  | _ => raise Thrown
  end.

(** ** Constants and globals *)
Definition visit_scalars (vs : list Z) : M Context LLVMValue := ss ← map_m visit_scalar vs; mret (Vector ss).
Definition visit_members (vs : list Z) : M Context LLVMValue := ms ← map_m visit vs; mret (Aggregate ms).
Definition visitConstantDataVector (splat : option Z) (elements : list Z) : M Context LLVMValue :=
  match splat with
  | Some v => s ← visit_scalar v; mret (Vector (replicate (length elements) s))
  | None => visit_scalars elements
  end.
Definition visitConstantPointerNull (addrspace : Z) : result LLVMValue :=
  z ← ConstantInt_Create simplify (getNullValue (getPointerSizeInBits addrspace)); p ← Pointer_abs z addrspace; Ok (LLVMValue_of (Ptr p)).
(** [emplace] keeps an entry that is there. *)
Definition emplace_global (g : Z) (v : LLVMValue) : M Context unit :=
  modify (fun c =>
    mkContext (ctx_stack c) (match globals c !! g with Some _ => globals c | None => <[g := v]> (globals c) end) (heaps c) (assertions c)
      (constants c) (mod_ c) (global_ctors_ran c) (egraph c) (constant_num_ c)).
(** The permissions are set when the function is left, also by an exception.
    The allocation is changed through a reference taken before the initializer
    is evaluated; the model looks it up again. *)
Definition visitGlobalData (constant : Z) (type : llvm_type) (ptr : Pointer) (addrspace perms : Z) : M Context unit :=
  finally
    (match value_view constant with
     | VConstantAggregateZero _ _ => mret tt
     | _ =>
         value ← visit constant; zero ← lift (ConstantInt_CreateZero simplify (getPointerSizeInBits addrspace));
         a ← get_allocation ptr; c ← state; a ← lift (write_value type (heaps c) a zero value); put_allocation ptr a
     end)
    (a ← get_allocation ptr; put_allocation ptr (set_permissions a perms)).
Definition visitGlobalVariable (global : Z) (initializer : option (Z * llvm_type)) (is_constant : bool) (alignment addrspace : Z) :
    M Context LLVMValue :=
  c ← state;
  match globals c !! global with
  | Some v => mret v
  | None =>
      '(init, type) ← lift (of_option Thrown initializer);
      let bitwidth := getPointerSizeInBits 0 in
      size ← lift (ConstantInt_Create simplify (APInt_of bitwidth (getTypeAllocSize type)));
      byte ← lift (ConstantInt_CreateZero simplify 8); data ← lift (AllocOp_Create simplify size byte);
      align ← lift (createConstantInt bitwidth alignment);
      ptr ← interp_allocate solver fuel size align data addrspace Global PermReadWrite;
      let res := LLVMValue_of (Ptr ptr) in
      _ ← emplace_global global res;
      _ ← visitGlobalData init type ptr addrspace (if is_constant then PermRead else PermReadWrite);
      mret res
  end.
Definition visitFunction (function instruction_count : Z) : M Context LLVMValue :=
  c ← state;
  match globals c !! function with
  | Some v => mret v
  | None =>
      let bitwidth := getPointerSizeInBits 0 in
      size ← lift (createConstantInt bitwidth (Z.max instruction_count 1)); align ← lift (createConstantZero bitwidth);
      data ← lift (createFunctionObject function);
      ptr ← interp_allocate solver fuel size align data FUNCTION_INDEX Global PermExecute;
      let pointer := LLVMValue_of (Ptr ptr) in
      _ ← emplace_global function pointer; mret pointer
  end.
Definition visitGlobalAlias (alias aliasee : Z) : M Context LLVMValue :=
  res ← visit aliasee; _ ← emplace_global alias res; mret res.

Definition evaluate (val : Z) : M Context LLVMValue :=
  match value_view val with
  | VInstruction => visit_inst (inst_view val)
  | VConstantExpr inst => visit_inst inst
  | VConstantInt a => c ← lift (ConstantInt_Create simplify a); mret (LLVMValue_of (Expr c))
  | VConstantFP f => c ← lift (ConstantFloat_Create simplify f); mret (LLVMValue_of (Expr c))
  | VConstantPointerNull a => lift (visitConstantPointerNull a)
  | VConstantAggregateZero is_vector elements => if is_vector then visit_scalars elements else visit_members elements
  | VConstantDataVector splat elements => visitConstantDataVector splat elements
  | VConstantDataArray elements => visit_members elements
  | VUndef t => lift (visitUndefValue t)
  | VConstantArray ops | VConstantStruct ops => visit_members ops
  | VConstantVector ops => visit_scalars ops
  | VGlobalVariable init k align a => visitGlobalVariable val init k align a
  | VFunction n => visitFunction val n
  | VGlobalAlias aliasee => visitGlobalAlias val aliasee
  | VOtherValue => raise Thrown
  end.
End visit.

Fixpoint visit (depth : nat) (val : Z) : M Context LLVMValue :=
  match depth with
  | O => raise OutOfFuel
  | Datatypes.S n =>
      variable ← lookup_value val;
      match variable with Some v => mret v | None => evaluate (visit n) val end
  end.
(** [InterpreterContext::load]. *)
Definition load_value (depth : nat) (value : Z) : M Context LLVMValue :=
  variable ← lookup_value value;
  match variable with Some v => mret v | None => visit depth value end.
End expr_eval.
