(* ===== verification/Interpreter.v ===== *)
(** The interpreter: the rest of [caffeine::InterpreterContext]
    (src/Interpreter/InterpreterContext.cpp) and [caffeine::Interpreter]
    (src/Interpreter/Interpreter.cpp).

    The state is the queue of contexts a worker keeps, what was reported to the
    failure logger and to the execution policy, and the counter of frame ids.
    An [InterpreterContext] is an index into the queue: entries are never
    removed while an instruction is executed. *)
From stdpp Require Import sorting.
From S2P Require Import Prelude LLVM IRType Value Opcode Operation Matching Create Semantics.
From S2P Require Import Simplifier ModelEval SparseVector Assertions Slicer Solvers Allocation SlotMap BumpAllocator MemHeap.
From S2P Require Import UnionFind EGraph Extract GraphAssertions Frames Context ValueMemory Constprop EMatching Effects OperationBuilder InterpreterContext ExprEval.
Open Scope Z_scope.

(** [ExecutionPolicy::ExitStatus]. *)
Inductive ExitStatus : Set := Success | Fail | Dead | Removed.

Section world.
Context `{PtrEq} `{!DataPtrEq} `{MapOrder} `{MathExtrasAPI} `{Config} `{HashOrder} `{!LLVMProgram} `{Layout}.

Record ContextQueueEntry : Type := mkEntry { dead : bool; entry_context : Context }.
Inductive Event : Type :=
| LogFailure (model : option Model) (ctx : Context) (assertion : Operation) (message : string)
| PathComplete (ctx : Context) (status : ExitStatus) (assertion : Operation).
Record World : Type := mkWorld { queue_ : list ContextQueueEntry; events : list Event; next_frame_id : Z }.
Definition set_queue (w : World) (q : list ContextQueueEntry) : World := mkWorld q (events w) (next_frame_id w).

(** [entry_]. *)
Definition entry (i : nat) (w : World) : result ContextQueueEntry := of_option Thrown (queue_ w !! i).
Definition set_entry (i : nat) (w : World) (e : ContextQueueEntry) : World := set_queue w (<[i := e]> (queue_ w)).
Definition in_context {A} (i : nat) (m : M Context A) : M World A :=
  zoom (fun w => e ← entry i w; Ok (entry_context e))
       (fun w c => match queue_ w !! i with Some e => set_entry i w (mkEntry (dead e) c) | None => w end) m.
Definition emit (e : Event) : M World unit := modify (fun w => mkWorld (queue_ w) (events w ++ [e]) (next_frame_id w)).

Definition is_dead (i : nat) : M World bool := w ← state; e ← lift (entry i w); mret (dead e).
Definition emit_failure (i : nat) (message : string) (model : option Model) (assertion : Operation) : M World unit :=
  c ← in_context i state; emit (LogFailure model c assertion message).
Definition on_path_complete (i : nat) (status : ExitStatus) (assertion : Operation) : M World unit :=
  c ← in_context i state; emit (PathComplete c status assertion).
Definition set_dead (i : nat) (status : ExitStatus) (assertion : Operation) : M World unit :=
  _ ← update_st (fun w => e ← entry i w; Ok (set_entry i w (mkEntry true (entry_context e))));
  on_path_complete i status assertion.
Definition kill (i : nat) : M World unit := t ← lift (Assertion_constant true); set_dead i Dead t.
(** The new context is the last entry of the queue. *)
Definition fork_existing (c : Context) : M World nat :=
  w ← state; _ ← modify (fun w => set_queue w (queue_ w ++ [mkEntry false c])); mret (length (queue_ w)).
Definition fork (i : nat) : M World nat := c ← in_context i state; fork_existing (fork_once c).

(** What the interpreter is given: the solver, the matcher, the external
    functions and intrinsics of [CaffeineContext], and the model's bounds. *)
Record Machine : Type := mkMachine {
  mc_solver : Solver;
  mc_fuel : nat;
  mc_matcher : EMatcher;
  mc_rounds : nat;
  mc_depth : nat;
  mc_function : Z -> option (nat -> list LLVMValue -> M World unit);
  mc_intrinsic : Z -> option (nat -> list LLVMValue -> M World unit);
  mc_external_step : nat -> M World unit;
  mc_global_ctors : result (option (list (Z * Z)));
  mc_chain_call : list Z -> ExternalStackFrame;
  mc_resume_function : option Z
}.
Context (mc : Machine).
#[local] Instance machine_ops : PathOps Context := context_ops (mc_solver mc) (mc_fuel mc).

Definition interp_load (i : nat) (value : Z) : M World LLVMValue := in_context i (load_value (mc_solver mc) (mc_fuel mc) (mc_depth mc) value).
Definition check_path (i : nat) (extra : Operation) : M World SolverResult :=
  in_context i (interp_check (mc_solver mc) (mc_fuel mc) (mc_matcher mc) (mc_rounds mc) extra).
Definition resolve_path (i : nat) (extra : Operation) : M World SolverResult :=
  in_context i (interp_resolve (mc_solver mc) (mc_fuel mc) (mc_matcher mc) (mc_rounds mc) extra).
Definition assume (i : nat) (assertion : Operation) : M World unit := in_context i (add_assertion assertion).

Definition assert_or_fail (i : nat) (assertion : Operation) (message : string) : M World unit :=
  d ← is_dead i;
  if (d : bool) then mret tt
  else
    checked ← lift (Assertion_not assertion); r ← resolve_path i checked;
    _ ← (if result_is r SAT then _ ← emit_failure i message (model_ r) checked; on_path_complete i Fail checked else mret tt);
    assume i assertion.
Definition interp_fail (i : nat) (message : string) : M World unit :=
  d ← is_dead i;
  if (d : bool) then mret tt
  else
    t ← lift (Assertion_constant true); r ← resolve_path i t;
    _ ← (if result_is r SAT then emit_failure i message (model_ r) t else mret tt);
    set_dead i Fail t.

(** *** Pointers *)
Definition assert_ptr_valid (i : nat) (ptr : Pointer) (width : Operation) (message : string) : M World unit :=
  d ← is_dead i;
  if (d : bool) then mret tt
  else
    valid ← in_context i (apply_st (fun c => '(v, m) ← mgr_check_valid (heaps c) ptr width; Ok (v, set_heaps c m)));
    assertion ← lift (Assertion_not valid); r ← resolve_path i assertion;
    if result_is r SAT then _ ← emit_failure i message (model_ r) assertion; set_dead i Fail assertion else mret tt.
Definition assert_ptr_starts_allocation (i : nat) (ptr : Pointer) (message : string) : M World unit :=
  a ← in_context i (apply_st (fun c => '(v, m) ← mgr_check_starts_allocation (heaps c) ptr; Ok (v, set_heaps c m)));
  assert_or_fail i a message.
Definition resolve_ptr (i : nat) (ptr : Pointer) (width : Operation) (message : string) : M World (list Pointer) :=
  _ ← assert_ptr_valid i ptr width message;
  d ← is_dead i;
  if (d : bool) then mret [] else in_context i (apply_st (fun c => mgr_resolve (heaps c) ptr c)).
Definition resolve_ptr_size (i : nat) (ptr : Pointer) (width : Z) (message : string) : M World (list Pointer) :=
  w ← lift (bitwidth (op_type (ptr_offset ptr))); c ← lift (ConstantInt_Create simplify (APInt_of w (wrap 32 width)));
  resolve_ptr i ptr c message.

(** *** Returning *)
Definition is_void_ty (t : llvm_type) : bool := match t with LVoid => true | _ => false end.
Definition check_return (t : llvm_type) (retval : option LLVMValue) : result unit :=
  if is_void_ty t then assert_ (negb (bool_decide (is_Some retval)))
  else
    v ← of_option AssertFailed retval;
    match t with
    | LInteger w =>
        assert_ (is_scalar v) ;; s ← value_scalar v; assert_ (is_expr s) ;; e ← scalar_expr s;
        assert_ (is_int (op_type e)) ;; w' ← bitwidth (op_type e); assert_ (w' =? w)
    | _ => Ok tt
    end.
Definition function_return (i : nat) (retval : option LLVMValue) : M World unit :=
  c ← in_context i state; fn ← lift (getCurrentFunction c);
  _ ← lift (match fn with Some f => check_return (fn_return_type f) retval | None => Ok tt end);
  _ ← in_context i (update_st ctx_pop);
  c ← in_context i state;
  if ctx_empty c then kill i else in_context i (update_top (fun f => set_result f retval None)).
Definition jump_resume (i : nat) (resume : LLVMValue) : M World unit :=
  c ← in_context i state; _ ← check_that (negb (ctx_empty c)); inst ← lift (getCurrentInstruction c);
  match inst with
  | Some n => if is_call n then interp_fail i "attempted to unwind from a function call made using the 'call' instruction."
              else _ ← check_that (is_call_or_invoke n); in_context i (update_top (fun f => set_result f None (Some resume)))
  | None => in_context i (update_top (fun f => set_result f None (Some resume)))
  end.
Definition interp_call (i : nat) (function : Z) (args : list LLVMValue) : M World unit :=
  w ← state; next ← in_context i (call_function function args (next_frame_id w));
  modify (fun w => mkWorld (queue_ w) (events w) next).

(** ** The interpreter *)

(** [DEF_SIMPLE_OP]. *)
Definition visitSimple (i : nat) (inst : Z) : M World unit :=
  v ← in_context i (evaluate (mc_solver mc) (mc_fuel mc) (visit (mc_solver mc) (mc_fuel mc) (mc_depth mc)) inst);
  in_context i (store_value inst v).

(** *** Divisions, which check their operands first *)
Definition check_nonzero (i : nat) (rhs : Operation) (message : string) : M World unit :=
  a ← lift (CreateICmp_ri simplify NE rhs 0); a ← lift (Assertion_ctor a); assert_or_fail i a message.
Definition check_signed_division (i : nat) (lhs rhs : Operation) (message : string) : M World unit :=
  cmp1 ← lift (CreateICmp_ri simplify EQ rhs 0);
  w ← lift (bitwidth (op_type lhs)); min ← lift (ConstantInt_Create simplify (getSignedMinValue w));
  cmp2 ← lift (CreateICmp simplify EQ lhs min); cmp3 ← lift (CreateICmp_ri simplify EQ rhs (-1));
  both ← lift (CreateAnd simplify cmp2 cmp3); fault ← lift (CreateOr simplify cmp1 both); fault ← lift (Assertion_ctor fault);
  a ← lift (Assertion_not fault); assert_or_fail i a message.
Definition visitDivision (i : nat) (inst : Z) (o : Opcode) (l r : Z) (guard : Operation -> Operation -> M World unit) : M World unit :=
  lhs ← interp_load i l; rhs ← interp_load i r;
  v ← for_exprs (on_two (fun a b => _ ← guard a b; lift (IntOp_Create simplify o a b))) [lhs; rhs];
  in_context i (store_value inst v).
Definition visitUDiv (i : nat) (inst l r : Z) : M World unit := visitDivision i inst OpUDiv l r (fun _ b => check_nonzero i b "udiv by 0").
Definition visitSDiv (i : nat) (inst l r : Z) : M World unit :=
  visitDivision i inst OpSDiv l r (fun a b => check_signed_division i a b "sdiv fault (div by 0 or overflow)").
Definition visitSRem (i : nat) (inst l r : Z) : M World unit :=
  visitDivision i inst OpSRem l r (fun a b => check_signed_division i a b "srem fault (div by 0 or overflow)").
Definition visitURem (i : nat) (inst l r : Z) : M World unit :=
  visitDivision i inst OpURem l r (fun _ b => check_nonzero i b "urem fault (div by 0)").

(** *** Control flow *)
Definition visitPHINode (i : nat) (inst : Z) (incoming : list (Z * Z)) : M World unit :=
  c ← in_context i state; frame ← lift (stack_top c); f ← lift (get_regular frame);
  prev ← lift (of_option AssertFailed (prev_block f));
  v ← lift (of_option UndefinedBehaviour (snd <$> hd_error (filter (fun p => p.1 = prev) incoming)));
  value ← interp_load i v; in_context i (store_value inst value).
(** A fork that takes a branch under an assertion. *)
Definition fork_branch (i : nat) (assertion : Operation) (target : Z) : M World unit :=
  k ← fork i; _ ← assume k assertion; in_context k (interp_jump_to target).
Definition visitCondBranch (i : nat) (cond if_true if_false : Z) : M World unit :=
  v ← interp_load i cond; s ← lift (value_scalar v); e ← lift (scalar_expr s); assertion ← lift (Assertion_ctor e);
  is_t ← check_path i assertion; negated ← lift (Assertion_not assertion); is_f ← check_path i negated;
  _ ← (if result_isnt is_t UNSAT then fork_branch i assertion if_true else mret tt);
  _ ← (if result_isnt is_f UNSAT then n ← lift (Assertion_not assertion); fork_branch i n if_false else mret tt);
  kill i.
Definition visitReturnInst (i : nat) (value : option Z) : M World unit :=
  match value with
  | Some v => x ← interp_load i v; function_return i (Some x)
  | None => function_return i None
  end.
(** The negations of the cases that were taken, in order. *)
Fixpoint switch_cases (i : nat) (cond : Operation) (cases : list (APInt * Z)) : M World (list Operation) :=
  match cases with
  | [] => mret []
  | (value, target) :: cases =>
      k ← lift (ConstantInt_Create simplify value); cmp ← lift (CreateICmp simplify EQ cond k); assertion ← lift (Assertion_ctor cmp);
      r ← check_path i assertion;
      if result_is r UNSAT then switch_cases i cond cases
      else
        n ← lift (Assertion_not assertion); _ ← fork_branch i assertion target;
        ns ← switch_cases i cond cases; mret (n :: ns)
  end.
Definition visitSwitchInst (i : nat) (cond : Z) (cases : list (APInt * Z)) (default_dest : Z) : M World unit :=
  v ← interp_load i cond; s ← lift (value_scalar v); e ← lift (scalar_expr s);
  ns ← switch_cases i e cases; _ ← iter_m (assume i) ns;
  t ← lift (Assertion_constant true); r ← check_path i t;
  if result_isnt r UNSAT then in_context i (interp_jump_to default_dest) else kill i.

(** *** Calls *)
Definition visitExternFunc (i : nat) (function : Z) (args : list Z) : M World unit :=
  _ ← check_that (fn_empty function);
  match mc_function mc function with
  | Some handler => vs ← map_m (interp_load i) args; handler i vs
  | None => raise Aborted
  end.
Definition visit_known_call (i : nat) (function : Z) (args : list Z) : M World unit :=
  _ ← check_that (negb (fn_is_intrinsic function));
  if fn_empty function then visitExternFunc i function args
  else vs ← map_m (interp_load i) args; interp_call i function vs.
Definition called_function (a : Allocation) : result Z :=
  match op_opcode (data_ a), od_payload (op_data (data_ a)) with OpFunctionObject, PFunction f => Ok f | _, _ => Err AssertFailed end.
Definition call_resolved (i : nat) (pointer : Pointer) (args : list Z) (ptr : Pointer) : M World unit :=
  k ← fork i; alloc ← in_context k (get_allocation ptr); c ← in_context k state;
  v ← lift (ptr_value_in pointer (heaps c)); eq ← lift (CreateICmp simplify EQ (address_ alloc) v); a ← lift (Assertion_ctor eq);
  _ ← assume k a; f ← lift (called_function alloc); visit_known_call k f args.
Definition visitIndirectCall (i : nat) (operand : Z) (args : list Z) : M World unit :=
  _ ← check_that (match value_view operand with VUndef _ => false | _ => true end);
  v ← interp_load i operand; s ← lift (value_scalar v); pointer ← lift (scalar_pointer s);
  _ ← check_that (heap_ pointer =? FUNCTION_INDEX);
  resolved ← resolve_ptr_size i pointer 1 "invalid function pointer";
  _ ← kill i; iter_m (call_resolved i pointer args) resolved.
Definition visitCallBase (i : nat) (called : option Z) (operand : Z) (args : list Z) : M World unit :=
  match called with None => visitIndirectCall i operand args | Some f => visit_known_call i f args end.
Definition visitResumeInst (i : nat) (value : Z) : M World unit :=
  f ← lift (of_option AssertFailed (mc_resume_function mc));
  v ← interp_load i value; ms ← lift (value_aggregate v); a ← lift (of_option UndefinedBehaviour (hd_error ms));
  interp_call i f [a].
Definition visitIntrinsicInst (i : nat) (id : Z) (no_effect : bool) (args : list Z) : M World unit :=
  if no_effect then mret tt
  else
    match mc_intrinsic mc id with
    | None => interp_fail i "Intrinsic function is not supported"
    | Some handler => vs ← map_m (interp_load i) args; handler i vs
    end.

(** *** Memory *)
Definition load_resolved (i : nat) (inst : Z) (type : llvm_type) (unresolved ptr : Pointer) : M World unit :=
  k ← fork i; eq ← in_context k (createICmpEQ_ptrs unresolved ptr); a ← lift (Assertion_ctor eq); _ ← assume k a;
  v ← in_context k (mem_read ptr type); in_context k (store_value inst v).
Definition visitLoadInst (i : nat) (inst operand : Z) (type : llvm_type) : M World unit :=
  v ← interp_load i operand; s ← lift (value_scalar v); unresolved ← lift (scalar_pointer s);
  resolved ← resolve_ptr_size i unresolved (getTypeStoreSize type) "invalid pointer read during load";
  _ ← kill i; iter_m (load_resolved i inst type unresolved) resolved.
(** A write without permission is an [AllocationException], which is caught. *)
Definition store_resolved (i : nat) (type : llvm_type) (value : LLVMValue) (unresolved ptr : Pointer) : M World unit :=
  k ← fork i; c ← in_context i state; x ← lift (ptr_value_in ptr (heaps c)); y ← lift (ptr_value_in unresolved (heaps c));
  eq ← lift (CreateICmp simplify EQ x y); a ← lift (Assertion_ctor eq); _ ← assume k a;
  _ ← check_that (is_resolved ptr); alloc ← in_context k (get_allocation ptr);
  if negb (has_perm (perms_ alloc) PermWrite) then interp_fail k "tried to write to unwritable allocation"
  else in_context k (mem_write ptr type value).
Definition visitStoreInst (i : nat) (ptr_operand value_operand : Z) (type : llvm_type) : M World unit :=
  v ← interp_load i ptr_operand; s ← lift (value_scalar v); unresolved ← lift (scalar_pointer s);
  value ← interp_load i value_operand;
  resolved ← resolve_ptr_size i unresolved (getTypeStoreSize type) "invalid pointer store";
  _ ← kill i; iter_m (store_resolved i type value unresolved) resolved.
Definition visitAllocaInst (i : nat) (inst : Z) (allocated : llvm_type) (alignment addrspace : Z) : M World unit :=
  let w := getPointerSizeInBits addrspace in
  size ← lift (ConstantInt_Create simplify (APInt_of w (getTypeAllocSize allocated)));
  align ← lift (ConstantInt_Create simplify (APInt_of w (Z.max alignment 1)));
  byte ← lift (ConstantInt_Create simplify (APInt_of 8 0xDD));
  p ← in_context i (allocate_repeated (mc_solver mc) (mc_fuel mc) size align byte addrspace Alloca PermReadWrite);
  in_context i (store_value inst (LLVMValue_of (Ptr p))).

(** *** One step *)
Definition visitInst (i : nat) (inst : Z) : M World unit :=
  match inst_view inst with
  | IBinary OpUDiv l r => visitUDiv i inst l r
  | IBinary OpSDiv l r => visitSDiv i inst l r
  | IBinary OpURem l r => visitURem i inst l r
  | IBinary OpSRem l r => visitSRem i inst l r
  | IBinary _ _ _ | ICast _ _ _ | IFNeg _ | IICmp _ _ _ | IFCmp _ _ _ | IPtrToInt _ _ | IIntToPtr _ _ | IBitCast _ _ _
  | IGetElementPtr _ _ _ _ _ | ISelect _ _ _ | IInsertElement _ _ _ | IExtractElement _ _ _ | IShuffleVector _ _ _ _
  | IExtractValue _ _ | IInsertValue _ _ _ => visitSimple i inst
  | IPHI incoming => visitPHINode i inst incoming
  | IBr target => in_context i (interp_jump_to target)
  | ICondBr cond t f => visitCondBranch i cond t f
  | IRet value => visitReturnInst i value
  | ISwitch cond cases d => visitSwitchInst i cond cases d
  | ICall called operand args => visitCallBase i called operand args
  | IIntrinsic id no_effect _ args => visitIntrinsicInst i id no_effect args
  | IResume value => visitResumeInst i value
  | ILoad p type => visitLoadInst i inst p type
  | IStore p v type => visitStoreInst i p v type
  | IAlloca t al a => visitAllocaInst i inst t al a
  | IMemTransfer => raise Aborted
  | IDbgInfo => mret tt
  | IOther => raise Aborted
  end.

(** [visitGlobalCtors]: the constructors in the order of their priority, then of
    the addresses of the functions. *)
Definition ctor_order (p q : Z * Z) : Prop := p.1 < q.1 \/ (p.1 = q.1 /\ p.2 <= q.2).
#[export] Instance ctor_order_dec p q : Decision (ctor_order p q).
Proof. unfold ctor_order. apply _. Defined.
Definition visitGlobalCtors (i : nat) : M World unit :=
  ctors ← lift (mc_global_ctors mc);
  match ctors with
  | None => mret tt
  | Some ctors => in_context i (call_external_function (mc_chain_call mc (merge_sort ctor_order ctors).*2))
  end.
Definition set_ctors_ran (c : Context) : Context :=
  mkContext (ctx_stack c) (globals c) (heaps c) (assertions c) (constants c) (mod_ c) true (egraph c) (constant_num_ c).
Definition execute (i : nat) : M World unit :=
  c ← in_context i state;
  _ ← (if global_ctors_ran c then mret tt else _ ← visitGlobalCtors i; in_context i (modify set_ctors_ran));
  c ← in_context i state; frame ← lift (stack_top c);
  if is_external frame then mc_external_step mc i
  else
    f ← lift (get_regular frame); inst ← lift (of_option AssertFailed (block_insts (current_block f) !! current f));
    _ ← in_context i (update_regular (fun f => Ok (set_current f (S (current f)))));
    visitInst i inst.
End world.
