(* ===== verification/Paths.v ===== *)
(** Paths: what the operations of an execution context do to the environments
    that take its path.

    [path_ok T e c]: the e-graph of [c] is sound in [e] and gives a value to
    every class.  An operation may add classes, so the environment grows with
    the context; [path_step] relates both.  The expressions it is given are
    [usable]: they are over the classes of the context, have a value, and like
    the nodes of the graph are in the scope of the rewrite rules without arrays:
    no integer division or remainder, no truncation, selection or array, and no
    floating-point addition, subtraction, multiplication, remainder or
    comparison; outside of it the rules are not sound (Saturation.v). *)
From S2P Require Import Prelude LLVM IRType Value Opcode Operation Matching Create Semantics.
From S2P Require Import Simplifier SimplifierInt SimplifierSound Overflow AtEnv ModelEval SparseVector Assertions Slicer Solvers.
From S2P Require Import Allocation SlotMap BumpAllocator MemHeap UnionFind EGraph EGraphSound EGraphRebuild Extract GraphAssertions Frames Context.
From S2P Require Import Constprop EMatching RewriteSound Saturation Effects OperationBuilder InterpreterContext.
Open Scope Z_scope.

Definition no_arrays : OpScope := false.
#[local] Existing Instance no_arrays.

Section graphs.
Context `{PtrEq} `{!DataPtrEq} `{MapOrder} `{MathExtrasAPI} `{Config}.

(** ** One environment *)
Definition gok (T : Z -> Ty) (e : Env) (g : EGraph) : Prop := gstate T g (fun e' => e' = e).
Definition grown T e g T' e' g' : Prop := gok T' e' g' /\ extends T g T' g' /\ env_extends g e e'.
Lemma grown_refl T e g : gok T e g -> grown T e g T e g.
Proof. intros Hg. split_and!; [done|apply extends_refl|apply env_extends_refl]. Qed.
Lemma grown_trans T1 e1 g1 T2 e2 g2 T3 e3 g3 : grown T1 e1 g1 T2 e2 g2 -> grown T2 e2 g2 T3 e3 g3 -> grown T1 e1 g1 T3 e3 g3.
Proof.
  intros (_ & X1 & K1) (G2 & X2 & K2). split_and!; [done|by apply (extends_trans T1 g1 T2 g2)|].
  apply (env_extends_trans g1 g2 e1 e2 e3); [apply X1|done|done].
Qed.
Lemma gstep_grown T e g T' g' E' : gstep T g (fun e' => e' = e) T' g' E' -> exists e', E' e' /\ grown T e g T' e' g'.
Proof.
  intros [[Hi Hs Ht Hn] X F _]. destruct (F e eq_refl) as (e' & He' & K). exists e'. split; [done|].
  split_and!; [split; [done|by intros ? ->; apply Hs|by intros ? ->; apply Ht|done]|done|done].
Qed.

(** ** Expressions *)
Inductive usable (T : Z -> Ty) (e : Env) (g : EGraph) : Operation -> Prop :=
| usable_class d id : egraph_id d = Some id -> in_graph g id -> od_type d = T id -> usable T e g (mkOp d [])
| usable_node d l :
    egraph_id d = None -> clean d -> safe_opcode (od_opcode d) = true -> od_opcode d <> OpFixedArray ->
    denote e (mkOp d l) <> None -> Forall (usable T e g) l -> usable T e g (mkOp d l).

Lemma usable_fits T e g op : usable T e g op -> op_fits T g op.
Proof.
  induction op as [d l IH] using operation_ind'. intros Hu. inversion Hu as [? id Hd Hi Ht|? ? Hd Hc _ _ _ Hl]; subst.
  - by apply (fits_class _ _ _ id).
  - apply fits_node; [done|done|]. rewrite Forall_forall in IH, Hl |- *. auto.
Qed.
Lemma usable_safe T e g op : usable T e g op -> op_safe e op.
Proof.
  induction op as [d l IH] using operation_ind'. intros Hu. inversion Hu as [? id Hd _ _|? ? Hd _ Hs Hf _ Hl]; subst.
  - by apply (op_safe_class _ _ id).
  - apply op_safe_node; [done| |rewrite Forall_forall in IH, Hl |- *; auto].
    clear -Hs Hf. by destruct (od_opcode d) as [ | | | | | | | | | | | | | | | | | | | | | | | | | | c|[] | | | | | | | | | | | | | | | | | | ].
Qed.
Lemma usable_defined T e g op : gok T e g -> usable T e g op -> Defined e op.
Proof.
  intros Hg Hu. inversion Hu as [d id Hd Hi Ht|? ? _ _ _ _ Hv _]; subst; [|done]. unfold Defined.
  destruct (gs_total _ _ _ Hg e eq_refl id Hi) as [v Ev]. pose proof (leaf_value T e g id (gs_sat _ _ _ Hg e eq_refl) Hi) as K.
  destruct d as [o t p]. unfold egraph_id in Hd. cbn in Hd, Ht. destruct o, p; try done. injection Hd as ->. subst t.
  unfold leaf in K. cbn in K |- *. rewrite K, Ev. done.
Qed.
Lemma usable_grows T e g T' e' g' op : extends T g T' g' -> env_extends g e e' -> usable T e g op -> usable T' e' g' op.
Proof.
  intros X K. induction op as [d l IH] using operation_ind'. intros Hu. pose proof (usable_fits T e g _ Hu) as Hf.
  inversion Hu as [? id Hd Hi Ht|? ? Hd Hc Hs Hx Hv Hl]; subst.
  - apply (usable_class _ _ _ _ id); [done|destruct X; unfold in_graph in *; lia|by rewrite (ext_type _ _ _ _ X)].
  - apply usable_node; [done..| |].
    + by rewrite (op_fits_value T g e e').
    + rewrite Forall_forall in IH, Hl |- *. auto.
Qed.

(** The shapes of negations and comparisons. *)
Lemma const_shape n a r : ConstantInt_Create (constant_fold (S n)) a = Ok r -> op_opcode r = OpConstantInt.
Proof.
  unfold ConstantInt_Create, ConstantIntData, build, Operation_ctor. intros E. inv_ok. subst. cbn [constant_fold] in E. unfold visit in E.
  by destruct IMPLICIT_CONSTANT_FOLDING; injection E as <-.
Qed.
Lemma simplify_fold op : exists n, simplify op = visit (constant_fold (S (S n))) op.
Proof. exists (op_size op). unfold simplify. by rewrite !Nat.add_succ_r, Nat.add_0_r. Qed.
Lemma simplify_const_shape a r : ConstantInt_Create simplify a = Ok r -> op_opcode r = OpConstantInt.
Proof.
  unfold ConstantInt_Create, ConstantIntData, build, Operation_ctor. intros E. inv_ok. subst. unfold simplify in E. rewrite Nat.add_succ_r in E.
  cbn [constant_fold] in E. unfold visit in E. by destruct IMPLICIT_CONSTANT_FOLDING; injection E as <-.
Qed.
Lemma not_shape x r :
  CreateNot simplify x = Ok r -> op_opcode r = OpConstantInt \/ r = not_node x \/ exists rest, op_operands x = r :: rest.
Proof.
  unfold CreateNot, UnaryOp_Create, build, Operation_ctor. intros E. inv_ok. subst. destruct (simplify_fold (mkOp (mkData OpNot (op_type x) NoPayload) [x])) as [n En].
  rewrite En in E. unfold visit in E. destruct IMPLICIT_CONSTANT_FOLDING; [|injection E as <-; auto].
  cbn [visit_dispatch op_opcode op_data od_opcode] in E. unfold with_operand, operand_at in E. cbn -[constant_fold] in E.
  unfold visitNot in E. destruct (as_ConstantInt x) as [ai|]; [left; by apply const_shape in E|].
  destruct (matches x _ _) as [[] c] eqn:Em; [|injection E as <-; auto]. destruct (c 0%nat) as [value|] eqn:Ec; [|injection E as <-; auto].
  injection E as <-. destruct (match_unary _ _ _ _ Em Ec) as (_ & rest & Hl). eauto.
Qed.
Lemma icmp_shape c x y r :
  CreateICmp simplify c x y = Ok r ->
  op_opcode r = OpConstantInt \/ op_opcode r = OpUndef \/ r = mkOp (mkData (OpICmp c) type_of_bool NoPayload) [x; y].
Proof.
  unfold CreateICmp, build, Operation_ctor. intros E. inv_ok. subst. destruct (simplify_fold (mkOp (mkData (OpICmp c) type_of_bool NoPayload) [x; y])) as [n En].
  rewrite En in E. unfold visit in E. destruct IMPLICIT_CONSTANT_FOLDING; [|injection E as <-; auto].
  cbn [visit_dispatch op_opcode op_data od_opcode] in E. unfold with_operands2, operand_at in E. cbn -[constant_fold] in E.
  unfold Simplifier.visitICmp in E. destruct (const_ints x y) as [[]|]; [left; by apply const_shape in E|].
  destruct (ptr_eq x y); [|injection E as <-; auto]. destruct (is_Undef x); [|left; by apply const_shape in E].
  right. left. inv_ok. unfold Undef_Create, build, Operation_ctor in E. inv_ok. subst. cbn [constant_fold] in E. unfold visit in E.
  by destruct IMPLICIT_CONSTANT_FOLDING; injection E as <-.
Qed.

Lemma usable_const T e g r : wf r -> op_opcode r = OpConstantInt -> usable T e g r.
Proof.
  intros Hw Ho. destruct r as [[o t p] l]. cbn in Ho. subst o. inversion Hw as [? ? _ Hok]; subst. unfold node_ok in Hok. cbn in Hok.
  destruct l; [|done]. destruct Hok as (a & -> & Ha & ->).
  apply usable_node; done.
Qed.
Lemma usable_not T e g x r :
  gok T e g -> boolean x -> usable T e g x -> Assertion_not x = Ok r ->
  boolean r /\ usable T e g r /\ forall e' u, denote e' x = Some (den_bool u) -> denote e' r = Some (den_bool (negb u)).
Proof.
  intros Hg [Wx Tx] Hu E. unfold Assertion_not in E. apply bind_Ok in E as (n & En & E).
  assert (n = r) as -> by (unfold Assertion_ctor in E; by inv_ok). destruct (simplify_not x Wx Tx) as (r' & Er & Wr & Tr & Hv).
  assert (r' = r) as -> by congruence. split_and!; [done| |done]. apply not_shape in En as [Ho|[->|[rest Hr]]]; [by apply usable_const| |].
  - pose proof (usable_defined T e g x Hg Hu) as Hd. unfold Defined in Hd. destruct (denote e x) as [v|] eqn:Ev; [|done].
    destruct (bool_value e x v Wx Tx Ev) as [b ->]. apply usable_node; [done|done|done|done| |by constructor].
    by rewrite (denote_not e (mkData OpNot (op_type x) NoPayload) x b).
  - inversion Hu as [? ? ? ? ?|? ? ? ? ? ? ? Hl]; subst; cbn in Hr; [done|]. subst. by apply Forall_cons in Hl as [? _].
Qed.
Lemma usable_icmp T e g c w x y r :
  gok T e g -> iwf w x -> iwf w y -> usable T e g x -> usable T e g y -> CreateICmp simplify c x y = Ok r ->
  boolean r /\ usable T e g r /\
  forall e' a b, ival e' w x a -> ival e' w y b -> denote e' r = Some (den_bool (sem_icmp c w (wrap w a) (wrap w b))).
Proof.
  intros Hg Hx Hy Ux Uy E. destruct (icmp_any c w x y Hx Hy) as (r' & Er & (Wr & Tr & Hw1) & Hv). assert (r' = r) as -> by congruence.
  assert (forall z, iwf w z -> usable T e g z -> exists a, ival e w z a) as Hval.
  { intros z (Wz & Tz & Hw) Uz. pose proof (usable_defined T e g z Hg Uz) as Hd. unfold Defined in Hd. destruct (denote e z) as [v|] eqn:Ev; [|done].
    destruct (ival_of e z w v Wz Tz Hw Ev) as (a & Ha & _). by exists a. }
  destruct (Hval x Hx Ux) as [a Ha]. destruct (Hval y Hy Uy) as [b Hb]. pose proof (Hv e a b Ha Hb) as (_ & _ & _ & Hden).
  split_and!; [done| |].
  - apply icmp_shape in E as [Ho|[Ho| ->]]; [by apply usable_const| |].
    + destruct r as [[o t p] l]. cbn in Ho. subst o. inversion Wr as [? ? _ Hok]; subst. unfold node_ok in Hok. cbn in Hok. by destruct l.
    + apply usable_node; [done|done|done|done|by rewrite Hden|by repeat constructor].
  - intros e' a' b' Ha' Hb'. by destruct (Hv e' a' b' Ha' Hb') as (_ & _ & _ & ?).
Qed.

(** ** Adding an expression *)
Definition put (T : Z -> Ty) e g op T' e' g' id : Prop :=
  grown T e g T' e' g' /\ in_graph g' id /\ T' id = op_type op /\ env_node e' id = denote e op.
Lemma add_list_grown l ids T e g g1 :
  Forall (fun op => wf op -> forall T e g id g', gok T e g -> usable T e g op -> eg_add_op op g = Ok (id, g') ->
    exists T' e', put T e g op T' e' g' id) l ->
  Forall wf l -> gok T e g -> Forall (usable T e g) l -> add_list eg_add_op l g = Ok (ids, g1) ->
  exists T1 e1, grown T e g T1 e1 g1 /\ Forall (in_graph g1) ids /\ T1 <$> ids = op_type <$> l /\ env_node e1 <$> ids = denote e <$> l.
Proof.
  intros IH. revert ids T e g. induction IH as [|x l Hx _ IHl]; intros ids T e g Hw Hg Hu E; cbn [add_list] in E.
  { injection E as <- <-. exists T, e. split_and!; [by apply grown_refl|done|done|done]. }
  apply Forall_cons in Hw as [Wx Wl]. apply Forall_cons in Hu as [Ux Ul]. apply bind_Ok in E as ([i g2] & E1 & E).
  apply bind_Ok in E as ([is_ g3] & E2 & [= <- <-]). destruct (Hx Wx T e g i g2 Hg Ux E1) as (T2 & e2 & (G2 & X2 & K2) & In2 & Ty2 & V2).
  destruct (IHl is_ T2 e2 g2 Wl G2) as (T3 & e3 & (G3 & X3 & K3) & In3 & Ty3 & V3); [|done|].
  { eapply Forall_impl; [exact Ul|]. intros y. by apply usable_grows. }
  exists T3, e3. pose proof (ext_size _ _ _ _ X3). split_and!.
  - by apply (grown_trans T e g T2 e2 g2).
  - constructor; [unfold in_graph in *; lia|done].
  - cbn. f_equal; [by rewrite (ext_type _ _ _ _ X3)|done].
  - cbn. f_equal; [by rewrite (ext_node _ _ _ K3)|]. rewrite V3. apply list_fmap_ext. intros k y Hy%list_elem_of_lookup_2.
    rewrite Forall_forall in Ul. apply (op_fits_value T g e e2); [|done]. by apply (usable_fits T e), Ul.
Qed.
Lemma add_op_grown op : wf op -> forall T e g id g', gok T e g -> usable T e g op -> eg_add_op op g = Ok (id, g') ->
  exists T' e', put T e g op T' e' g' id.
Proof.
  induction op as [d l IH] using operation_ind'. intros Hw T e g id g' Hg Hu E. cbn [eg_add_op] in E.
  inversion Hw as [? ? Hwl Hok]; subst. inversion Hu as [? j Hd Hin Ht|? ? Hd Hc Hs Hx Hv Hl]; subst; rewrite Hd in E.
  { injection E as <- <-. exists T, e. split_and!; [by apply grown_refl|done|done|]. pose proof (gs_sat _ _ _ Hg e eq_refl) as Hsat.
    rewrite <- (leaf_value T e g j Hsat Hin). cbn. unfold denote_node. unfold egraph_id in Hd. destruct d as [o t p]. cbn in *.
    destruct o, p; try discriminate. injection Hd as ->. by rewrite Ht. }
  apply bind_Ok in E as ([ids g1] & E1 & E). fold (add_list eg_add_op) in E1.
  destruct (add_list_grown l ids T e g g1 IH Hwl Hg Hl E1) as (T1 & e1 & (G1 & X1 & K1) & In1 & Ty1 & V1).
  assert (denote e1 (node_op T1 (mkNode d ids)) = denote e (mkOp d l)) as Hden.
  { rewrite (node_value T1 e1 g1 (mkNode d ids) (gs_sat _ _ _ G1 e1 eq_refl) In1). cbn [en_data en_operands denote]. rewrite V1.
    symmetry. apply denote_node_env; [done|apply K1]. }
  destruct (gstep_add T1 g1 (fun e' => e' = e1) (mkNode d ids) id g' G1 Hc) as (T2 & E2 & S2 & _ & [Hent Hsem]).
  - constructor; [apply Forall_forall; intros x (i & -> & _)%list_elem_of_fmap; apply leaf_wf|].
    eapply node_ok_ext; [|exact Hok]. rewrite <- Ty1. cbn [en_operands]. by rewrite <- list_fmap_compose.
  - done.
  - done.
  - intros e' ->. rewrite Hden. by destruct (denote e (mkOp d l)).
  - done.
  - destruct (gstep_grown T1 e1 g1 T2 g' E2 S2) as (e2 & He2 & G2). exists T2, e2. split_and!; [by apply (grown_trans T e g T1 e1 g1)|apply Hent|by symmetry; apply Hent|].
    rewrite <- (Hsem e2 He2). destruct G2 as (_ & X2 & K2). rewrite (node_value_extends T1 g1 T2 g' e1 e2); done.
Qed.
End graphs.

Section paths.
Context `{PtrEq} `{!DataPtrEq} `{MapOrder} `{MathExtrasAPI} `{Config} `{HashOrder} `{LLVMIR}.

Definition path_ok (T : Z -> Ty) (e : Env) (c : Context) : Prop := ctx_inv T c /\ gok T e (egraph c).
(** Only the e-graph and the assertions change. *)
Definition only_graphs (c c' : Context) : Prop := c' = set_graphs c (assertions c') (egraph c').
Definition path_step T e c T' e' c' : Prop :=
  path_ok T' e' c' /\ only_graphs c c' /\ extends T (egraph c) T' (egraph c') /\ env_extends (egraph c) e e'.
Lemma path_step_trans T1 e1 c1 T2 e2 c2 T3 e3 c3 : path_step T1 e1 c1 T2 e2 c2 -> path_step T2 e2 c2 T3 e3 c3 -> path_step T1 e1 c1 T3 e3 c3.
Proof.
  intros ([_ G1] & O1 & X1 & K1) (P2 & O2 & X2 & K2). split_and!; [done| |by apply (extends_trans T1 (egraph c1) T2 (egraph c2))|].
  - unfold only_graphs in *. by rewrite O2, O1.
  - apply (env_extends_trans (egraph c1) (egraph c2) e1 e2 e3); [apply X1|done|done].
Qed.
Lemma usable_step T e c T' e' c' op : path_step T e c T' e' c' -> usable T e (egraph c) op -> usable T' e' (egraph c') op.
Proof. intros (_ & _ & X & K). by apply usable_grows. Qed.
Lemma value_step T e c T' e' c' op : path_step T e c T' e' c' -> usable T e (egraph c) op -> denote e' op = denote e op.
Proof. intros (_ & _ & X & K) Hu. apply (op_fits_value T (egraph c)); [by apply (usable_fits T e)|done]. Qed.

(** ** The operations *)
Lemma simplify_path {hash : ClauseHash} M `{!DefaultMatcher M} rounds T e c u c' :
  path_ok T e c -> simplify_graph M rounds c = (Ok u, c') ->
  exists T' e', path_step T e c T' e' c' /\ (on_path e' c' <-> on_path e c).
Proof.
  intros [[Hi Hb Hl Hm] Hg] E. unfold simplify_graph in E. apply update_st_run, bind_Ok in E as (g' & E & [= <-]).
  destruct (simplify_step M rounds T _ _ _ Hg E) as (T' & E' & S). destruct (gstep_grown T e _ T' g' E' S) as (e' & _ & G' & X & K).
  exists T', e'. cbn [egraph assertions set_graphs]. split; [split_and!; [split; [split; cbn|]|..]; try done|].
  - apply G'.
  - eapply Forall_impl; [exact Hb|]. intros i [Hi1 Hi2]. split; [destruct X; unfold in_graph in *; lia|by rewrite (ext_type _ _ _ _ X)].
  - unfold on_path, all_hold. cbn. rewrite !Forall_forall. rewrite Forall_forall in Hb. unfold holds_id.
    split; intros Hh i Hin; specialize (Hh i Hin); rewrite (ext_node _ _ _ K) in *; (done || by apply Hb).
Qed.

Lemma context_query_only fuel c p l ex c' : context_query fuel c p = Ok (l, ex, c') -> only_graphs c c'.
Proof.
  intros Eq. unfold context_query in Eq. apply bind_Ok in Eq as ([l1 c1] & E1 & Eq). apply bind_Ok in Eq as ([ex1 x1] & _ & Eq).
  apply bind_Ok in Eq as (ex2 & _ & [= <- <- <-]). unfold extract_assertions in E1. apply bind_Ok in E1 as (g1 & _ & E1).
  apply bind_Ok in E1 as (gl & _ & E1). by apply bind_Ok in E1 as ([l2' x2] & _ & [= <- <-]).
Qed.
Lemma only_graphs_trans c1 c2 c3 : only_graphs c1 c2 -> only_graphs c2 c3 -> only_graphs c1 c3.
Proof. unfold only_graphs. by intros -> ->. Qed.
Lemma interp_ask_only M rounds ask fuel p c r c' :
  (_ ← simplify_graph M rounds; apply_st (fun c => context_ask ask fuel c p)) c = (Ok r, c') -> only_graphs c c'.
Proof.
  intros E. apply bind_run in E as (u & c1 & E1 & E2%apply_st_run). apply (only_graphs_trans c c1).
  - unfold simplify_graph in E1. by apply update_st_run, bind_Ok in E1 as (g' & _ & [= <-]).
  - rewrite context_ask_query in E2. apply bind_Ok in E2 as ([[l ex] c2] & Eq & E2). apply bind_Ok in E2 as ([r' l'] & _ & [= <- <-]).
    by apply context_query_only in Eq.
Qed.

(** A query: [ask] is [check] or [resolve] of a correct solver; [Q] is what is
    known of the solution behind a SAT answer. *)
Definition asks (ask : AssertionList -> Operation -> result (SolverResult * AssertionList)) (Q : SolverResult -> Env -> Prop) : Prop :=
  forall l extra, query_ok l extra -> exists r l', ask l extra = Ok (r, l') /\ answers l extra r l' /\
    (kind_ r = SAT -> exists e, Q r e /\ Forall (Holds e) (extra :: al_values l)).
Definition modelled (r : SolverResult) (e : Env) : Prop := exists m, model_ r = Some m /\ agrees m e.
Lemma asks_check s `{!SolverSpec s} : asks (solver_check s) (fun _ _ => True).
Proof.
  intros l extra Hq. destruct (check_ok l extra Hq) as (r & l' & E & Ha). exists r, l'. split_and!; [done|done|].
  intros Hk. destruct Ha as [_ _ _ _ Hs]. destruct (Hs Hk) as (e & Hh). by exists e.
Qed.
Lemma asks_resolve s `{!SolverSpec s} : asks (solver_resolve s) modelled.
Proof.
  intros l extra Hq. destruct (resolve_ok l extra Hq) as (r & l' & E & Ha & Hm). exists r, l'. split_and!; [done|done|].
  intros Hk. destruct (Hm Hk) as (m & e & Em & Hag & Hh). exists e. split; [by exists m|done].
Qed.

(** An UNSAT answer is right in [e]. *)
Definition answered (e : Env) (c : Context) (p : Operation) (r : SolverResult) : Prop := kind_ r = UNSAT -> on_path e c -> ~ Holds e p.
Lemma answered_back T e c T1 e1 c1 p r :
  path_step T e c T1 e1 c1 -> (on_path e1 c1 <-> on_path e c) -> usable T e (egraph c) p -> answered e1 c1 p r -> answered e c p r.
Proof.
  intros S Ho Hu Au Hk Hon Hh. apply (Au Hk); [by apply Ho|]. unfold Holds in *. by rewrite (value_step _ _ _ _ _ _ p S Hu).
Qed.
(** The environments with the symbols of a solution take the path. *)
Definition solved (e1 : Env) (c : Context) (p : Operation) : Prop :=
  forall T e, path_ok T e c -> usable T e (egraph c) p -> same_symbols e1 e -> on_path e c /\ Holds e p.

(** What a query is in one environment. *)
Lemma query_env fuel T e c p l ex c' g :
  path_ok T e c -> boolean p -> usable T e (egraph c) p -> rebuild (egraph c) = Ok g -> small fuel c g ->
  context_query fuel c p = Ok (l, ex, c') -> query_post T e c p (l, ex, c') /\ query_ok l ex /\ gok T e g.
Proof.
  intros [Hc Hg] Hp Hu Er Hsm Eq. pose proof (gp_state _ _ _ _ _ _ (gstep_rebuild T _ _ g Hg Er)) as Hgr.
  assert (sound_env T c g p e) as He.
  { split; [by apply (gs_sat _ _ _ Hg)| |by apply (usable_safe T e (egraph c))]. intros i cl n Hcl Hn. unfold node_safe.
    pose proof (gs_safe _ _ _ Hgr i cl n Hcl Hn) as Hs. unfold safe_node in Hs.
    assert (Forall is_Some (env_node e <$> en_operands n)) as Hall.
    { apply Forall_fmap, Forall_forall. intros j Hj. apply (gs_total _ _ _ Hgr e eq_refl).
      destruct (class_entry T g _ i cl n Hgr Hcl Hn) as [[_ _ Ho _ _] _]. rewrite Forall_forall in Ho. by apply Ho. }
    clear -Hs Hall. by destruct (od_opcode (en_data n)) as [ | | | | | | | | | | | | | | | | | | | | | | | | | | k|[] | | | | | | | | | | | | | | | | | | ]. }
  destruct (query_ok_of T e fuel c g p l ex c' Hc Er He Hp (usable_fits T e _ p Hu) Hsm Eq). done.
Qed.
Lemma ask_path ask Q fuel T e c p r c' g :
  asks ask Q -> path_ok T e c -> boolean p -> usable T e (egraph c) p -> rebuild (egraph c) = Ok g -> small fuel c g ->
  context_ask ask fuel c p = Ok (r, c') ->
  path_step T e c T e c' /\ (on_path e c' <-> on_path e c) /\ answered e c p r /\
  (kind_ r = SAT -> exists e1, Q r e1 /\ solved e1 c p).
Proof.
  intros Ha Hpath Hp Hu Er Hsm E. rewrite context_ask_query in E. apply bind_Ok in E as ([[l ex] c2] & Eq & E).
  apply bind_Ok in E as ([r' l'] & Ea & [= <- <-]).
  destruct (query_env fuel T e c p l ex c2 g Hpath Hp Hu Er Hsm Eq) as ((_ & _ & _ & (_ & _ & Hst) & Ic & Sc & Hon & Hfwd & _ & Hsz & Hcls) & Hq & Hgr).
  destruct (Ha l ex Hq) as (r2 & l2 & Ea' & [_ _ _ Hun _] & Hsat). rewrite Ea in Ea'. injection Ea' as <- <-. pose proof (proj2 Hpath) as Hg.
  assert (forall i, in_graph (egraph c2) i <-> in_graph (egraph c) i) as Hin by (intros i; unfold in_graph; by rewrite Hsz).
  split_and!; [split_and!; [split; [done|]|..]|done|..].
  - split; [apply Ic|by intros ? ->|intros ? -> i Hi; apply (gs_total _ _ _ Hg e eq_refl); by apply Hin|].
    intros i cl n Hcl Hn. destruct (Hcls g i cl n Er Hcl Hn) as (cl' & Hcl' & Hn'). by apply (gs_safe _ _ _ Hgr i cl').
  - by apply (context_query_only fuel c p l ex).
  - split; [lia|done].
  - apply env_extends_refl.
  - intros Hk Hon' Hh. apply (Hun Hk e). constructor; [by apply Hst|auto].
  - intros Hk. destruct (Hsat Hk) as (e1 & HQ & Hh). apply Forall_cons in Hh as [Hx Hh]. exists e1. split; [done|]. clear T e Hpath Hu Hst Ic Sc Hon Hfwd Hgr Hg.
    intros T e Hpath Hu Hsym. assert (same_symbols e e1) as Hsym' by (destruct Hsym; by split).
    destruct (query_env fuel T e c p l ex c2 g Hpath Hp Hu Er Hsm Eq) as ((_ & _ & _ & (_ & _ & Hst) & _ & _ & _ & _ & Hback & _) & _ & _). split.
    + apply (Hback e1); [done| |done]. intros i Hi. destruct (gs_total _ _ _ (proj2 Hpath) e eq_refl i Hi) as [v ->]. done.
    + pose proof (usable_defined T e _ p (proj2 Hpath) Hu) as Hd. unfold Defined in Hd. destruct (denote e p) as [v|] eqn:Ev; [|done].
      specialize (Hst e1 v Hsym' eq_refl). unfold Holds in *. congruence.
Qed.

Lemma add_path T e c a c' :
  path_ok T e c -> boolean a -> usable T e (egraph c) a -> context_add c a = Ok c' ->
  exists T' e', path_step T e c T' e' c' /\ (on_path e' c' <-> on_path e c /\ Holds e a).
Proof.
  intros [[Hi Hb Hl Hm] Hg] [Wa Ta] Hu E. unfold context_add in E. apply bind_Ok in E as ([id g'] & E & [= <-]).
  destruct (add_op_grown a Wa T e (egraph c) id g' Hg Hu E) as (T' & e' & (G' & X & K) & Hin & Ht & Hv). exists T', e'.
  cbn [egraph assertions set_graphs]. split; [split_and!; [split; [split; cbn|]|..]; try done|].
  - apply G'.
  - apply Forall_forall. intros i [Hi'| ->]%gl_insert_elem; [|split; congruence|done]. rewrite Forall_forall in Hb. destruct (Hb i Hi') as [Hi1 Hi2].
    pose proof (ext_size _ _ _ _ X). split; [unfold in_graph in *; lia|by rewrite (ext_type _ _ _ _ X)].
  - by apply gl_insert_inv.
  - by destruct (gl_insert_prefix (assertions c) id) as [_ ->].
  - unfold on_path, all_hold. cbn [assertions set_graphs]. rewrite !Forall_forall. rewrite Forall_forall in Hb. split.
    + intros Hall. split.
      * intros i Hi'. unfold holds_id. rewrite <- (ext_node _ _ _ K) by apply (Hb i Hi'). apply Hall, gl_insert_elem; auto.
      * unfold Holds. rewrite <- Hv. apply Hall, gl_insert_elem; auto.
    + intros [Hall Ha] i [Hi'| ->]%gl_insert_elem; [|by unfold holds_id; rewrite Hv|done].
      unfold holds_id. rewrite (ext_node _ _ _ K) by apply (Hb i Hi'). by apply Hall.
Qed.

(** The operations of [Context] as the heaps see them keep the laws of
    [PathContext] (MemHeap.v), for expressions over the classes of its e-graph:
    adding an assertion succeeds and narrows the path by it, checking and
    extracting keep the path, an UNSAT answer is right, and a fresh constant is
    there while fewer than 2^29 have been handed out. *)
Lemma context_laws `{!LLVMProgram} `{Layout} (s : Solver) fuel `{!SolverSpec s} T c a (ops := context_ops s fuel) :
  ctx_inv T c -> boolean a -> op_fits T (egraph c) a ->
  (exists c' T', ctx_add c a = Ok c' /\ ctx_inv T' c' /\ forall e, eg_sat T e (egraph c) ->
     exists e', same_symbols e e' /\ eg_sat T' e' (egraph c') /\ (on_path e' c' <-> on_path e c /\ Holds e a)) /\
  (forall k c' g e, rebuild (egraph c) = Ok g -> sound_env T c g a e -> small fuel c g -> ctx_check c a = Ok (k, c') ->
     ctx_inv T c' /\ eg_sat T e (egraph c') /\ (on_path e c' <-> on_path e c) /\ (k = UNSAT -> on_path e c -> ~ Holds e a)) /\
  (constant_num_ c < 2 ^ 29 <-> exists r, next_constant c = Ok r) /\
  (forall n c', next_constant c = Ok (n, c') -> ctx_inv T c' /\ egraph c' = egraph c /\ forall e, on_path e c' <-> on_path e c) /\
  (forall r c' g e, rebuild (egraph c) = Ok g -> sound_env T c g a e -> ctx_extract c a = Ok (r, c') ->
     op_stands e a r /\ eg_sat T e (egraph c') /\ (on_path e c' <-> on_path e c)).
Proof.
  intros Hc Hb Hf. split_and!.
  - destruct (context_add_correct T c a Hc Hb Hf) as (c' & T' & E & I' & Hs). exists c', T'. split_and!; [done|done|].
    intros e He. destruct (Hs e He) as (e' & ? & ? & _ & ?). by exists e'.
  - intros k c' g e Er He Hsm E. unfold ctx_check, ops, context_ops in E. apply bind_Ok in E as ([r c1] & E & [= <- <-]). unfold context_check in E. rewrite context_ask_query in E.
    apply bind_Ok in E as ([[l ex] c2] & Eq & E). apply bind_Ok in E as ([r' l'] & Ea & [= <- <-]).
    destruct (query_ok_of T e fuel c g a l ex c2 Hc Er He Hb Hf Hsm Eq) as [(_ & _ & _ & (_ & _ & Hst) & Ic & Sc & Hon & Hfwd & _) Hq].
    destruct (check_ok l ex Hq) as (r2 & l2 & Ea' & [_ _ _ Hu _]). rewrite Ea in Ea'. injection Ea' as <- <-. split_and!; try done.
    intros Hk Hp Hh. apply (Hu Hk e). constructor; [by apply Hst|auto].
  - cbn. unfold ctx_next_constant. destruct (Z.ltb_spec (constant_num_ c) (2 ^ 29)) as [Hn|Hn]; cbn; [split; [eauto|done]|].
    split; [lia|]. by intros [? ?].
  - intros n c' E. unfold next_constant, ops, context_ops in E. apply bind_Ok in E as ([k c1] & E & [= <- <-]).
    unfold ctx_next_constant in E. apply bind_Ok in E as ([] & _ & [= <- <-]). destruct Hc as [I1 I2 I3 I4]. split_and!; [split; done|done|done].
  - intros r c' g e Er He E. unfold ctx_extract, ops, context_ops in E. rewrite Er, ok_bind in E. apply bind_Ok in E as ([r' x] & E & [= <- <-]).
    destruct Hc as [Ig _ _ _]. destruct He as [Hs Hsafe Hex].
    pose proof (rebuild_ok (fun e' => e' = e) T (egraph c)) as K. unfold ok_or_ub in K. rewrite Er in K.
    destruct K as ([Ig' Sg] & _ & Hsize); [split; [done|by intros ? ->]|]. specialize (Sg e eq_refl).
    pose proof (extract_op_ok T e false (fun _ => 0) a (Extractor_ctor g false) (proj1 Hb)) as K.
    rewrite E in K. cbn [wp] in K. destruct K as (Hx & _ & _ & Hst); [|done|by apply ctor_ok|done|].
    + apply (op_fits_mono T (egraph c) T); [split; [cbn; lia|done]|done].
    + split_and!; [done|apply Hx|done].
Qed.
End paths.
