(* ===== verification/Branching.v ===== *)
(** Branching: no feasible path is lost and none is made up at a conditional
    branch, a switch and an assertion of the interpreter.

    The theorems are about machines with a correct solver and the matcher of the
    default rules, for every environment in which the e-graph of a context is
    sound ([path_ok]) and the condition is [usable] (Paths.v). *)
From S2P Require Import Prelude LLVM IRType Value Opcode Operation Matching Create Semantics.
From S2P Require Import Simplifier SimplifierInt SimplifierSound Overflow AtEnv ModelEval SparseVector Assertions Slicer Solvers.
From S2P Require Import Allocation SlotMap BumpAllocator MemHeap UnionFind EGraph EGraphSound EGraphRebuild Extract GraphAssertions Frames Context.
From S2P Require Import Constprop EMatching Rewrites RewriteSound Saturation ValueMemory Effects OperationBuilder InterpreterContext ExprEval Interpreter Paths.
Open Scope Z_scope.
#[local] Existing Instance no_arrays.

Section worlds.
Context `{PtrEq} `{!DataPtrEq} `{MapOrder} `{MathExtrasAPI} `{Config} `{HashOrder} `{!LLVMProgram} `{Layout}.

(** ** The queue *)
Definition at_entry (w : World) (i : nat) (d : bool) (c : Context) : Prop := queue_ w !! i = Some (mkEntry d c).
Lemma in_context_eq {A} i (m : M Context A) w d c :
  at_entry w i d c -> in_context i m w = ((m c).1, set_entry i w (mkEntry d (m c).2)).
Proof. unfold at_entry, in_context, zoom, entry. intros Hi. cbv beta. rewrite Hi. cbn. by destruct (m c). Qed.
Lemma in_context_ok {A} i (m : M Context A) w d c a w' :
  at_entry w i d c -> in_context i m w = (Ok a, w') -> exists c', m c = (Ok a, c') /\ w' = set_entry i w (mkEntry d c').
Proof. intros Hi. rewrite (in_context_eq i m w d c Hi). destruct (m c) as [r c']. cbn. intros [= -> <-]. by exists c'. Qed.
Lemma set_entry_same i w d c : at_entry w i d c -> set_entry i w (mkEntry d c) = w.
Proof. unfold at_entry, set_entry, set_queue. intros Hi. destruct w. cbn in *. by rewrite list_insert_id. Qed.
Lemma set_entry_at i w d c d' c' : at_entry w i d c -> at_entry (set_entry i w (mkEntry d' c')) i d' c'.
Proof. unfold at_entry, set_entry. cbn. intros Hi. apply list_lookup_insert_eq. by eapply lookup_lt_Some. Qed.
Lemma set_entry_twice i w x y : set_entry i (set_entry i w x) y = set_entry i w y.
Proof. unfold set_entry, set_queue. cbn. by rewrite list_insert_insert_eq. Qed.

(** ** Frames *)
Definition frame_at (c : Context) (f : IRStackFrame) : Prop := exists s top, ctx_stack c = s ++ [top] /\ value_ top = Regular f.
Definition variable (c : Context) (v : Z) (x : LLVMValue) : Prop := exists f, frame_at c f /\ variables f !! v = Some x.
(** [c'] is [c] after a jump to [block], with another e-graph and other
    assertions. *)
Definition moved (c c' : Context) (block : Z) : Prop :=
  exists s top f f', ctx_stack c = s ++ [top] /\ value_ top = Regular f /\ jump_to f (Some block) = Ok f' /\
    c' = set_graphs (set_stack c (s ++ [set_regular top f'])) (assertions c') (egraph c').
Lemma only_graphs_moved c c1 c' block : only_graphs c c1 -> moved c1 c' block -> moved c c' block.
Proof. unfold only_graphs. intros -> (s & top & f & f' & Es & Ev & Ej & Ec). by exists s, top, f, f'. Qed.

Lemma load_variable solver fuel depth v x c : variable c v x -> load_value solver fuel depth v c = (Ok x, c).
Proof.
  intros (f & (s & top & Es & Ev) & Hx). assert (lookup_value v c = (Ok (Some x), c)) as El.
  { unfold lookup_value. rewrite (bind_eq _ _ c c c), (bind_eq _ _ c top c) by (unfold lift, stack_top; by rewrite ?Es, ?last_snoc).
    unfold is_external, get_regular. rewrite Ev. rewrite (bind_eq _ _ c f c) by done. by rewrite Hx. }
  unfold load_value. by rewrite (bind_eq _ _ c (Some x) c).
Qed.
Lemma jump_run b c u c' :
  interp_jump_to b c = (Ok u, c') -> moved c c' b /\ egraph c' = egraph c /\ assertions c' = assertions c.
Proof.
  intros E. unfold interp_jump_to in E. apply bind_run in E as (c0 & c1 & [= <- <-] & E).
  apply bind_run in E as (? & ? & [_ ->]%check_run & E). apply bind_run in E as (fn & ? & [_ ->]%lift_run & E).
  apply bind_run in E as (? & ? & [_ ->]%check_run & E). apply bind_run in E as (fr & ? & [_ ->]%lift_run & E).
  apply bind_run in E as (? & ? & [_ ->]%check_run & E). unfold update_regular in E. apply update_st_run in E.
  apply bind_Ok in E as (top & Et & E). apply bind_Ok in E as (f & Ef & E). apply bind_Ok in E as (f' & Ej & [= <-]).
  unfold stack_top in Et. apply of_option_Ok in Et. destruct (last_Some (ctx_stack c) top) as [[s Es] _]; [done|]. split; [|done].
  unfold get_regular in Ef. destruct (value_ top) as [|f0|] eqn:Ev; [done| |done]. injection Ef as ->.
  exists s, top, f, f'. split_and!; [done|done|done|]. unfold set_top. rewrite Es, removelast_last. done.
Qed.
End worlds.

Section machine.
Context `{PtrEq} `{!DataPtrEq} `{MapOrder} `{MathExtrasAPI} `{Config} `{HashOrder} `{!LLVMProgram} `{Layout}.
Context (mc : Machine) `{!SolverSpec (mc_solver mc)} {hash : ClauseHash} `{!DefaultMatcher (mc_matcher mc)}.

(** ** Queries *)

(** The expressions extracted for the next query fit in a list. *)
Definition query_small (c : Context) : Prop :=
  forall c1 g, simplify_graph (mc_matcher mc) (mc_rounds mc) c = (Ok tt, c1) -> rebuild (egraph c1) = Ok g -> small (mc_fuel mc) c1 g.
Lemma query_path ask Q T e c p r c' :
  asks ask Q -> path_ok T e c -> boolean p -> usable T e (egraph c) p -> query_small c ->
  (_ ← simplify_graph (mc_matcher mc) (mc_rounds mc); apply_st (fun c => context_ask ask (mc_fuel mc) c p)) c = (Ok r, c') ->
  (exists T' e', path_step T e c T' e' c' /\ (on_path e' c' <-> on_path e c) /\ answered e c p r) /\
  (kind_ r = SAT -> exists e1, Q r e1 /\ solved e1 c p).
Proof using DefaultMatcher0.
  intros Ha Hp Hb Hu Hs E. apply bind_run in E as ([] & c1 & E1 & E2%apply_st_run).
  destruct (simplify_path (mc_matcher mc) (mc_rounds mc) T e c tt c1 Hp E1) as (T1 & e1 & S1 & O1).
  destruct (rebuild (egraph c1)) as [g|err] eqn:Er.
  2: { rewrite context_ask_query in E2. unfold context_query, extract_assertions in E2. by rewrite Er in E2. }
  destruct (ask_path ask Q (mc_fuel mc) T1 e1 c1 p r c' g Ha) as (S2 & O2 & A2 & Hsat);
    [apply S1|done|by eapply usable_step|done|by apply Hs|done|]. split.
  - exists T1, e1. split_and!; [by apply (path_step_trans T e c T1 e1 c1)|by rewrite O2|by apply (answered_back T e c T1 e1 c1)].
  - intros Hk. destruct (Hsat Hk) as (e2 & HQ & Hsol). exists e2. split; [done|]. clear T e Hp Hu T1 e1 S1 O1 S2 O2 A2 Hsat.
    intros T e Hp Hu Hsym. destruct (simplify_path (mc_matcher mc) (mc_rounds mc) T e c tt c1 Hp E1) as (T1 & e1 & S1 & O1).
    destruct (Hsol T1 e1 (proj1 S1)) as [Hon Hh]; [by apply (usable_step T e c)| |].
    + destruct S1 as (_ & _ & _ & [[K1 K2] _]). destruct Hsym. split; congruence.
    + split; [by apply O1|]. unfold Holds in *. by rewrite <- (value_step T e c T1 e1 c1 p S1 Hu).
Qed.
#[local] Abbreviation ask_check := (interp_check (mc_solver mc) (mc_fuel mc) (mc_matcher mc) (mc_rounds mc)).
#[local] Abbreviation ask_resolve := (interp_resolve (mc_solver mc) (mc_fuel mc) (mc_matcher mc) (mc_rounds mc)).
Lemma interp_check_path T e c p r c' :
  path_ok T e c -> boolean p -> usable T e (egraph c) p -> query_small c -> ask_check p c = (Ok r, c') ->
  exists T' e', path_step T e c T' e' c' /\ (on_path e' c' <-> on_path e c) /\ answered e c p r.
Proof using SolverSpec0 DefaultMatcher0.
  intros Hp Hb Hu Hq E. by apply (query_path (solver_check (mc_solver mc)) (fun _ _ => True) T e c p r c' (asks_check _)).
Qed.
Lemma interp_check_sat T e c p r c' :
  path_ok T e c -> boolean p -> usable T e (egraph c) p -> query_small c -> ask_check p c = (Ok r, c') ->
  kind_ r = SAT -> exists e1, solved e1 c p.
Proof using SolverSpec0 DefaultMatcher0.
  intros Hp Hb Hu Hq E Hk. destruct (query_path (solver_check (mc_solver mc)) (fun _ _ => True) T e c p r c' (asks_check _) Hp Hb Hu Hq E) as [_ Hs].
  destruct (Hs Hk) as (e1 & _ & ?). by exists e1.
Qed.
Lemma interp_resolve_path T e c p r c' :
  path_ok T e c -> boolean p -> usable T e (egraph c) p -> query_small c -> ask_resolve p c = (Ok r, c') ->
  (exists T' e', path_step T e c T' e' c' /\ (on_path e' c' <-> on_path e c) /\ answered e c p r) /\
  (kind_ r = SAT -> exists e1, modelled r e1 /\ solved e1 c p).
Proof using SolverSpec0 DefaultMatcher0. apply (query_path (solver_resolve (mc_solver mc))), asks_resolve, _. Qed.

(** ** Forks *)
Lemma fork_run i w d c k w' : at_entry w i d c -> fork i w = (Ok k, w') -> k = length (queue_ w) /\ w' = set_queue w (queue_ w ++ [mkEntry false c]).
Proof.
  intros Hi E. unfold fork in E. apply bind_run in E as (c0 & w1 & E1 & E). apply (in_context_ok i _ w d c c0 w1 Hi) in E1 as (c1 & [= <- <-] & ->).
  rewrite (set_entry_same i w d c Hi) in E. unfold fork_existing in E. apply bind_run in E as (w2 & w3 & [= <- <-] & E).
  apply bind_run in E as (? & w4 & [= <- <-] & [-> ->]%ret_run). done.
Qed.
Lemma fork_branch_run i w d c a b u w' :
  at_entry w i d c -> fork_branch i a b w = (Ok u, w') ->
  exists c1 c', context_add c a = Ok c1 /\ interp_jump_to b c1 = (Ok tt, c') /\ w' = set_queue w (queue_ w ++ [mkEntry false c']).
Proof.
  intros Hi E. unfold fork_branch in E. apply bind_run in E as (k & w1 & E1 & E). apply (fork_run i w d c k w1 Hi) in E1 as [-> ->].
  set (k := length (queue_ w)) in *. set (w1 := set_queue _ _) in *. assert (at_entry w1 k false c) as Hk by by apply list_lookup_middle.
  apply bind_run in E as ([] & w2 & E2 & E3). unfold assume in E2. apply (in_context_ok k _ w1 false c tt w2 Hk) in E2 as (c1 & E2%update_st_run & ->).
  pose proof (set_entry_at k w1 false c false c1 Hk) as Hk1.
  apply (in_context_ok k _ _ false c1 u w' Hk1) in E3 as (c' & E3 & ->). exists c1, c'. destruct u. split_and!; [done|done|].
  rewrite set_entry_twice. unfold set_entry, w1, set_queue. cbn. f_equal. by rewrite insert_app_r_alt, Nat.sub_diag by done.
Qed.

(** ** Continuing under a condition *)

(** [c'] is the path of [c] where [P] holds as well. *)
Definition narrows (T : Z -> Ty) (e : Env) (c : Context) (P : Prop) (c' : Context) : Prop :=
  exists T' e', path_ok T' e' c' /\ env_extends (egraph c) e e' /\ (on_path e' c' <-> on_path e c /\ P).
Lemma narrows_graphs T e c P c1 c2 : egraph c2 = egraph c1 -> assertions c2 = assertions c1 -> narrows T e c P c1 -> narrows T e c P c2.
Proof.
  intros Eg Ea (T' & e' & [[Hi Hb Hl Hm] Hg] & K & Ho). exists T', e'. unfold path_ok, on_path in *. rewrite Eg, Ea.
  split; [split; [split|]|]; rewrite ?Eg, ?Ea; done.
Qed.
Lemma narrows_step T e c T1 e1 c1 P Q c' :
  path_step T e c T1 e1 c1 -> (on_path e1 c1 <-> on_path e c /\ Q) -> narrows T1 e1 c1 P c' -> narrows T e c (Q /\ P) c'.
Proof.
  intros (_ & _ & X & K) Ho (T' & e' & Hp & K' & Ho'). exists T', e'. split_and!; [done| |rewrite Ho', Ho; tauto].
  apply (env_extends_trans (egraph c) (egraph c1) e e1 e'); [apply X|done|done].
Qed.
Lemma add_narrows T e c a c1 c' b :
  path_ok T e c -> boolean a -> usable T e (egraph c) a -> context_add c a = Ok c1 -> interp_jump_to b c1 = (Ok tt, c') ->
  moved c c' b /\ narrows T e c (Holds e a) c'.
Proof.
  intros Hp Hb Hu Ea Ej. apply jump_run in Ej as (Hm & Eg & El). destruct (add_path T e c a c1 Hp Hb Hu Ea) as (T1 & e1 & S1 & O1). split.
  - apply (only_graphs_moved c c1); [apply S1|done].
  - apply (narrows_graphs T e c _ c1 c' Eg El). exists T1, e1. split_and!; [apply S1|apply S1|done].
Qed.

Lemma kill_run i w d c u w' : at_entry w i d c -> kill i w = (Ok u, w') -> queue_ w' = <[i := mkEntry true c]> (queue_ w).
Proof.
  intros Hi E. unfold kill in E. apply bind_run in E as (t & w1 & [_ ->]%lift_run & E). unfold set_dead in E.
  apply bind_run in E as ([] & w1 & E1%update_st_run & E). unfold entry in E1. rewrite Hi in E1. injection E1 as <-.
  unfold on_path_complete in E. apply bind_run in E as (c1 & w2 & E1 & [= <- <-]).
  apply (in_context_ok i _ _ true c c1 w2) in E1 as (c2 & [= <- <-] & ->); [|by apply (set_entry_at i w d c)].
  rewrite set_entry_twice. done.
Qed.
Lemma load_run i w d c v x r w' : at_entry w i d c -> variable c v x -> interp_load mc i v w = (Ok r, w') -> r = x /\ w' = w.
Proof.
  intros Hi Hv E. unfold interp_load in E. apply (in_context_ok i _ w d c r w' Hi) in E as (c' & E & ->).
  rewrite (load_variable _ _ _ v x c Hv) in E. injection E as <- <-. split; [done|by apply set_entry_same].
Qed.
Lemma assertion_run p a : boolean p -> Assertion_ctor p = Ok a -> a = p.
Proof. intros [_ Tp]. unfold Assertion_ctor. intros E. by inv_ok. Qed.

(** ** Conditional branches *)

(** The forks of a branch: the side of [b] unless the answer is UNSAT. *)
Definition side (c : Context) (r : SolverResult) (a : Operation) (target : Z) (forks : list ContextQueueEntry) : Prop :=
  if result_isnt r UNSAT
  then exists c1 c', context_add c a = Ok c1 /\ interp_jump_to target c1 = (Ok tt, c') /\ forks = [mkEntry false c']
  else forks = [].
Lemma side_run i w d c r a target (m : M World unit) u w' :
  at_entry w i d c -> (forall w1 u1, m w = (Ok u1, w1) -> fork_branch i a target w = (Ok u1, w1)) ->
  (if result_isnt r UNSAT then m else mret tt) w = (Ok u, w') ->
  exists forks, side c r a target forks /\ w' = set_queue w (queue_ w ++ forks).
Proof.
  intros Hi Hm E. unfold side. destruct (result_isnt r UNSAT).
  - apply Hm, (fork_branch_run i w d c a target u w' Hi) in E as (c1 & c' & ? & ? & ->). eexists. split; [by exists c1, c'|done].
  - apply ret_run in E as [_ ->]. exists []. split; [done|]. rewrite app_nil_r. by destruct w.
Qed.
Lemma set_queue_at w q i d c : at_entry w i d c -> at_entry (set_queue w (queue_ w ++ q)) i d c.
Proof. unfold at_entry. cbn. apply lookup_app_l_Some. Qed.

(** What a run of [visitBranchInst] does, step by step. *)
Lemma cond_branch_run w i d c cond p t f u w' :
  at_entry w i d c -> variable c cond (LLVMValue_of (Expr p)) -> boolean p -> visitCondBranch mc i cond t f w = (Ok u, w') ->
  exists rt rf c1 c2 n ft ff, ask_check p c = (Ok rt, c1) /\ Assertion_not p = Ok n /\ ask_check n c1 = (Ok rf, c2) /\
    side c2 rt p t ft /\ side c2 rf n f ff /\ queue_ w' = <[i := mkEntry true c2]> (queue_ w) ++ ft ++ ff.
Proof.
  intros Hi Hv Hb E. unfold visitCondBranch in E.
  apply bind_run in E as (v & w1 & E1 & E). apply (load_run i w d c cond _ v w1 Hi Hv) in E1 as [-> ->].
  apply bind_run in E as (s & w1 & [E1 ->]%lift_run & E). cbn in E1. injection E1 as <-.
  apply bind_run in E as (x & w1 & [E1 ->]%lift_run & E). cbn in E1. injection E1 as <-.
  apply bind_run in E as (a & w1 & [E1 ->]%lift_run & E). apply (assertion_run p a Hb) in E1 as ->.
  apply bind_run in E as (rt & w1 & E1 & E). unfold check_path in E1. apply (in_context_ok i _ w d c rt w1 Hi) in E1 as (c1 & Ec1 & ->).
  pose proof (set_entry_at i w d c d c1 Hi) as Hi1. apply bind_run in E as (n & w1 & [En ->]%lift_run & E).
  apply bind_run in E as (rf & w1 & E1 & E). unfold check_path in E1. apply (in_context_ok i _ _ d c1 rf w1 Hi1) in E1 as (c2 & Ec2 & ->).
  rewrite set_entry_twice in E. pose proof (set_entry_at i w d c d c2 Hi) as Hi2. set (w2 := set_entry i w (mkEntry d c2)) in *.
  apply bind_run in E as ([] & w3 & E3 & E).
  destruct (side_run i w2 d c2 rt p t _ tt w3 Hi2 (fun _ _ K => K) E3) as (ft & Ht & ->).
  pose proof (set_queue_at w2 ft i d c2 Hi2) as Hi3. apply bind_run in E as ([] & w4 & E4 & E).
  eapply (side_run i (set_queue w2 (queue_ w2 ++ ft)) d c2 rf n f _ tt w4 Hi3) in E4 as (ff & Hf & ->).
  2: { intros w5 u5 K. apply bind_run in K as (n' & w6 & [En' ->]%lift_run & K). by rewrite En in En'; injection En' as <-. }
  exists rt, rf, c1, c2, n, ft, ff. split_and!; try done.
  rewrite (kill_run i _ d c2 u w' (set_queue_at _ ff i d c2 Hi3) E). cbn. rewrite <- app_assoc.
  rewrite insert_app_l by (rewrite length_insert; by eapply lookup_lt_Some). by rewrite list_insert_insert_eq.
Qed.

(** A path that is taken in [e] and continues that of [c]. *)
Definition taken (e : Env) (c c' : Context) : Prop :=
  exists T' e', path_ok T' e' c' /\ env_extends (egraph c) e e' /\ on_path e' c'.
Lemma narrows_taken T e c (P : Prop) c' : narrows T e c P c' -> on_path e c -> P -> taken e c c'.
Proof. intros (T' & e' & Hp & K & Ho) Hon HP. exists T', e'. split_and!; [done|done|by apply Ho]. Qed.
Lemma side_narrows T e c r a target forks k T0 e0 c0 (Q : Prop) :
  side c r a target forks -> k ∈ forks -> path_step T0 e0 c0 T e c -> (on_path e c <-> on_path e0 c0) ->
  boolean a -> usable T e (egraph c) a -> (Holds e a <-> Q) -> narrows T0 e0 c0 Q (entry_context k).
Proof.
  intros Hs Hk S Ho Hb Hu HQ. unfold side in Hs. destruct (result_isnt r UNSAT); [|by rewrite Hs in Hk; apply not_elem_of_nil in Hk].
  destruct Hs as (c1 & c' & Ea & Ej & ->). apply list_elem_of_singleton in Hk as ->.
  destruct (add_narrows T e c a c1 c' target (proj1 S) Hb Hu Ea Ej) as [_ (T' & e' & Hp & K & Ho')].
  exists T', e'. split_and!; [done| |cbn; rewrite Ho'; tauto]. apply (env_extends_trans (egraph c0) (egraph c) e0 e e'); [apply S|apply S|done].
Qed.
Lemma side_moved c0 c r a target forks k :
  side c r a target forks -> k ∈ forks -> only_graphs c0 c -> dead k = false /\ moved c0 (entry_context k) target.
Proof.
  intros Hs Hk Ho. unfold side in Hs. destruct (result_isnt r UNSAT); [|by rewrite Hs in Hk; apply not_elem_of_nil in Hk].
  destruct Hs as (c1 & c' & Ea & Ej & ->). apply list_elem_of_singleton in Hk as ->. split; [done|].
  apply (only_graphs_moved c0 c1); [|by apply jump_run in Ej as [? _]]. apply (only_graphs_trans c0 c); [done|].
  unfold context_add in Ea. by apply bind_Ok in Ea as ([id g'] & _ & [= <-]).
Qed.
Lemma side_length c r a target forks : side c r a target forks -> length forks = if decide (kind_ r = UNSAT) then 0%nat else 1%nat.
Proof.
  unfold side, result_isnt, result_is. case_decide; [by rewrite bool_decide_eq_true_2 by done; intros ->|].
  rewrite bool_decide_eq_false_2 by done. by intros (c1 & c' & _ & _ & ->).
Qed.
Lemma side_some c r a target forks : side c r a target forks -> kind_ r <> UNSAT -> exists k, k ∈ forks.
Proof.
  intros Hs%side_length Hk. rewrite decide_False in Hs by done. destruct forks as [|k forks]; [done|]. exists k. by left.
Qed.

(** Both queries of a branch. *)
Definition checked_both T e c p n rt rf T2 e2 c2 : Prop :=
  path_step T e c T2 e2 c2 /\ (on_path e2 c2 <-> on_path e c) /\ answered e c p rt /\ boolean n /\
  usable T2 e2 (egraph c2) p /\ usable T2 e2 (egraph c2) n /\ answered e c n rf /\
  (forall b, denote e p = Some (den_bool b) -> denote e n = Some (den_bool (negb b))) /\ denote e2 p = denote e p /\ denote e2 n = denote e n.
Lemma check_both T e c p n rt rf c1 c2 :
  path_ok T e c -> boolean p -> usable T e (egraph c) p -> Assertion_not p = Ok n -> ask_check p c = (Ok rt, c1) -> query_small c ->
  query_small c1 -> ask_check n c1 = (Ok rf, c2) -> exists T2 e2, checked_both T e c p n rt rf T2 e2 c2.
Proof using SolverSpec0 DefaultMatcher0.
  intros Hp Hb Hu En E1 Hq Hq1 E2. destruct (interp_check_path T e c p rt c1 Hp Hb Hu Hq E1) as (T1 & e1 & S1 & O1 & A1).
  destruct (usable_not T e (egraph c) p n (proj2 Hp) Hb Hu En) as (Bn & Un & Vn). pose proof (usable_step _ _ _ _ _ _ n S1 Un) as Un1.
  destruct (interp_check_path T1 e1 c1 n rf c2 (proj1 S1) Bn Un1 Hq1 E2) as (T2 & e2 & S2 & O2 & A2).
  pose proof (path_step_trans _ _ _ _ _ _ _ _ _ S1 S2) as S. exists T2, e2. unfold checked_both.
  split_and!; try done; [by rewrite O2|by apply (usable_step T e c)|by apply (usable_step T e c)|by apply (answered_back T e c T1 e1 c1)|
    by apply Vn|by eapply value_step..].
Qed.

(** There are values of the symbols under which the path of [c] is taken and
    [p] is [b]. *)
Definition feasible (c : Context) (p : Operation) (b : bool) : Prop :=
  exists e1, forall T e, path_ok T e c -> usable T e (egraph c) p -> same_symbols e1 e -> on_path e c /\ denote e p = Some (den_bool b).
Lemma negated_value T e c p n b :
  path_ok T e c -> boolean p -> usable T e (egraph c) p -> Assertion_not p = Ok n ->
  denote e n = Some (den_bool b) <-> denote e p = Some (den_bool (negb b)).
Proof.
  intros Hp Hb Hu En. destruct (usable_not T e (egraph c) p n (proj2 Hp) Hb Hu En) as (_ & _ & Vn).
  pose proof (usable_defined T e _ p (proj2 Hp) Hu) as Hd. unfold Defined in Hd. destruct (denote e p) as [v|] eqn:Ev; [|done].
  destruct (bool_value e p v (proj1 Hb) (proj2 Hb) Ev) as [u ->]. rewrite (Vn e u Ev).
  split; intros K%(inj Some)%den_bool_inj; f_equal; f_equal; by destruct u, b.
Qed.
Lemma check_both_sat T e c p n rt rf c1 c2 :
  path_ok T e c -> boolean p -> usable T e (egraph c) p -> Assertion_not p = Ok n -> ask_check p c = (Ok rt, c1) -> query_small c ->
  query_small c1 -> ask_check n c1 = (Ok rf, c2) -> (kind_ rt = SAT -> feasible c p true) /\ (kind_ rf = SAT -> feasible c p false).
Proof using SolverSpec0 DefaultMatcher0.
  intros Hp Hb Hu En E1 Hq Hq1 E2. split; intros Hk.
  - destruct (interp_check_sat T e c p rt c1 Hp Hb Hu Hq E1 Hk) as (e1 & Hs). exists e1. intros T' e' Hp' Hu' Hsym. by apply (Hs T' e').
  - destruct (interp_check_path T e c p rt c1 Hp Hb Hu Hq E1) as (T1 & e1 & S1 & _).
    destruct (usable_not T e (egraph c) p n (proj2 Hp) Hb Hu En) as (Bn & Un & _).
    destruct (interp_check_sat T1 e1 c1 n rf c2 (proj1 S1) Bn (usable_step _ _ _ _ _ _ n S1 Un) Hq1 E2 Hk) as (e2 & Hs). exists e2.
    clear T e Hp Hu T1 e1 S1 Un. intros T e Hp Hu Hsym. destruct (usable_not T e (egraph c) p n (proj2 Hp) Hb Hu En) as (_ & Un & _).
    destruct (interp_check_path T e c p rt c1 Hp Hb Hu Hq E1) as (T1 & e1 & S1 & O1 & _).
    destruct (Hs T1 e1 (proj1 S1) (usable_step _ _ _ _ _ _ n S1 Un)) as [Hon Hh].
    { destruct S1 as (_ & _ & _ & [[K1 K2] _]). destruct Hsym. split; congruence. }
    split; [by apply O1|]. apply (negated_value T e c p n true Hp Hb Hu En). unfold Holds in Hh. by rewrite (value_step T e c T1 e1 c1 n S1 Un) in Hh.
Qed.
(** A context a branch adds for the side [b]. *)
Definition branch_fork (c : Context) (p : Operation) (target : Z) (b : bool) (k : ContextQueueEntry) : Prop :=
  dead k = false /\ moved c (entry_context k) target /\
  forall T e, path_ok T e c -> usable T e (egraph c) p -> narrows T e c (denote e p = Some (den_bool b)) (entry_context k).

(** C2: A conditional branch explores exactly the sides that the solver does not
    refute.  It asks the solver whether the path goes on with the condition, and
    with its negation; for each side it adds no context to the queue when the
    answer is UNSAT and one otherwise, which is the context of the branch moved
    to the target of that side, on the path narrowed by that value of the
    condition.  The context it started from is dead.  An UNSAT answer is right:
    in every environment that takes the path, the side it goes to is among the
    added contexts.  So is a SAT answer: there are values of the symbols with
    which every environment takes the path and that side.  This is for a boolean condition held by a
    variable, a solver with the contract [SolverSpec], the matcher of the
    default rules, queries whose expressions fit in an assertion list
    ([query_small]), and environments
    in which the e-graph of the context is sound with a value for every class and
    the condition and the graph have no integer division or
    remainder, truncation, selection, array or floating-point arithmetic or
    comparison ([path_ok], [usable]), outside of which rewriting is not sound;
    and for runs that end without an error. *)
Theorem branch_exact w i d c cond p t f w' :
  at_entry w i d c -> variable c cond (LLVMValue_of (Expr p)) -> boolean p ->
  query_small c -> (forall r c1, ask_check p c = (Ok r, c1) -> query_small c1) ->
  visitCondBranch mc i cond t f w = (Ok tt, w') ->
  exists rt rf n c1 c2 ft ff, ask_check p c = (Ok rt, c1) /\ Assertion_not p = Ok n /\ ask_check n c1 = (Ok rf, c2) /\
    queue_ w' = <[i := mkEntry true c2]> (queue_ w) ++ ft ++ ff /\
    length ft = (if decide (kind_ rt = UNSAT) then 0%nat else 1%nat) /\ length ff = (if decide (kind_ rf = UNSAT) then 0%nat else 1%nat) /\
    Forall (branch_fork c p t true) ft /\ Forall (branch_fork c p f false) ff /\
    (forall T e (b : bool), path_ok T e c -> usable T e (egraph c) p -> on_path e c -> denote e p = Some (den_bool b) ->
       exists k, k ∈ (if b then ft else ff) /\ taken e c (entry_context k)) /\
    (forall T e, path_ok T e c -> usable T e (egraph c) p -> (kind_ rt = SAT -> feasible c p true) /\ (kind_ rf = SAT -> feasible c p false)).
Proof using SolverSpec0 DefaultMatcher0.
  intros Hi Hv Hb Hq Hq1 E. apply (cond_branch_run w i d c) with (p := p) in E as (rt & rf & c1 & c2 & n & ft & ff & E1 & En & E2 & Ht & Hf & Eq); [|done..].
  assert (only_graphs c c2) as Ho by (apply (only_graphs_trans c c1); by eapply interp_ask_only).
  assert (forall T e, path_ok T e c -> usable T e (egraph c) p -> exists T2 e2, checked_both T e c p n rt rf T2 e2 c2) as Hpath.
  { intros T e Hp Hu. by apply (check_both T e c p n rt rf c1 c2); [..|by apply (Hq1 rt)|]. }
  assert (Forall (branch_fork c p t true) ft) as Fft.
  { apply Forall_forall. intros k Hk. destruct (side_moved c c2 rt p t ft k Ht Hk Ho) as [Hd Hm]. split_and!; [done|done|]. intros T e Hp Hu.
    destruct (Hpath T e Hp Hu) as (T2 & e2 & S & O & _ & _ & Up & _ & _ & _ & Vp & _).
    eapply (side_narrows T2 e2 c2 rt p t ft k T e c); try done. unfold Holds. by rewrite Vp. }
  assert (Forall (branch_fork c p f false) ff) as Fff.
  { apply Forall_forall. intros k Hk. destruct (side_moved c c2 rf n f ff k Hf Hk Ho) as [Hd Hm]. split_and!; [done|done|]. intros T e Hp Hu.
    destruct (Hpath T e Hp Hu) as (T2 & e2 & S & O & _ & Bn & _ & Un & _ & _ & _ & Vn).
    eapply (side_narrows T2 e2 c2 rf n f ff k T e c); try done. unfold Holds. rewrite Vn. by apply (negated_value T e c p n true). }
  exists rt, rf, n, c1, c2, ft, ff. split_and!; try done; [by eapply side_length..| |].
  - intros T e b Hp Hu Hon Hval. destruct (Hpath T e Hp Hu) as (T2 & e2 & S & O & At & Bn & Up & Un & Af & Neg & Vp & Vn). rewrite Forall_forall in Fft, Fff.
    destruct b.
    + destruct (side_some c2 rt p t ft Ht) as [k Hk]; [intros Hk; by apply (At Hk Hon)|]. exists k. split; [done|].
      by apply (narrows_taken T e c _ _ (proj2 (proj2 (Fft k Hk)) T e Hp Hu)).
    + destruct (side_some c2 rf n f ff Hf) as [k Hk]; [intros Hk; apply (Af Hk Hon); by apply (Neg false)|]. exists k. split; [done|].
      by apply (narrows_taken T e c _ _ (proj2 (proj2 (Fff k Hk)) T e Hp Hu)).
  - intros T e Hp Hu. by apply (check_both_sat T e c p n rt rf c1 c2); [..|by apply (Hq1 rt)|].
Qed.

(** ** Switches *)
Fixpoint find_case (v : Z) (cases : list (APInt * Z)) : option Z :=
  match cases with
  | [] => None
  | (value, target) :: cases => if getZExtValue value =? v then Some target else find_case v cases
  end.
Definition switch_target (v : Z) (cases : list (APInt * Z)) (default_dest : Z) : Z := default default_dest (find_case v cases).
(** The queries of the cases are small. *)
Fixpoint cases_small (x : Operation) (cases : list (APInt * Z)) (c : Context) : Prop :=
  match cases with
  | [] => True
  | (value, _) :: cases =>
      query_small c /\ forall k a r c1, ConstantInt_Create simplify value = Ok k -> CreateICmp simplify EQ x k = Ok a ->
        ask_check a c = (Ok r, c1) -> cases_small x cases c1
  end.

Lemma set_entry_other i w x k d c : at_entry w k d c -> k <> i -> at_entry (set_entry i w x) k d c.
Proof. unfold at_entry, set_entry. cbn. intros Hk Hne. by rewrite list_lookup_insert_ne by done. Qed.
Lemma usable_case T e g w x value k a :
  gok T e g -> iwf w x -> usable T e g x -> getBitWidth value = w ->
  ConstantInt_Create simplify value = Ok k -> CreateICmp simplify EQ x k = Ok a ->
  boolean a /\ usable T e g a /\ forall v, ival e w x v -> 0 <= v < 2 ^ w -> denote e a = Some (den_bool (getZExtValue value =? v)).
Proof.
  intros Hg Hx Hu Hw Ek Ea. pose proof Hx as (_ & _ & Gw). destruct (const_any w (getZExtValue value) Gw) as (k' & Ek' & Hk & Vk).
  pose proof (value_range value w Hw) as Hr. rewrite (APInt_of_is value w) in Ek' by (done || by apply wrap_small). rewrite Ek in Ek'. injection Ek' as <-.
  destruct (usable_icmp T e g EQ w x k a Hg Hx Hk Hu) as (Ba & Ua & Va); [apply usable_const; [apply Hk|by apply simplify_const_shape in Ek]|done|].
  split_and!; [done|done|]. intros v Hv Hr'. rewrite (Va e v (getZExtValue value) Hv (Vk e)), !wrap_small by (done || lia).
  cbn. by rewrite Z.eqb_sym.
Qed.

(** What the loop over the cases leaves behind in [e], where the condition is
    [v]: a fork for the first case that matches, or the negations of all cases
    that were not refuted hold. *)
Definition cases_done (w' : World) (e : Env) (c : Context) (v : Z) (cases : list (APInt * Z)) (i : nat) (e' : Env) (ns : list Operation) : Prop :=
  match find_case v cases with
  | Some target => exists k ck, k <> i /\ at_entry w' k false ck /\ moved c ck target /\ taken e c ck
  | None => Forall (Holds e') ns
  end.
Lemma taken_step T e c T1 e1 c1 c' : path_step T e c T1 e1 c1 -> taken e1 c1 c' -> taken e c c'.
Proof.
  intros (_ & _ & X & K) (T' & e' & Hp & K' & Ho). exists T', e'. split_and!; [done| |done].
  apply (env_extends_trans (egraph c) (egraph c1) e e1 e'); [apply X|done|done].
Qed.
Lemma ctor_same p a : Assertion_ctor p = Ok a -> a = p.
Proof. unfold Assertion_ctor. intros E. by inv_ok. Qed.
Lemma path_step_refl T e c : path_ok T e c -> path_step T e c T e c.
Proof. intros Hp. split_and!; [done|by destruct c|apply extends_refl|apply env_extends_refl]. Qed.
Lemma ival_path_step T e c T' e' c' w x v : path_step T e c T' e' c' -> usable T e (egraph c) x -> ival e w x v -> ival e' w x v.
Proof. intros S Hu (? & ? & ? & Hv). split_and!; try done. by rewrite (value_step T e c T' e' c'). Qed.
Lemma cases_done_step w' T e c T1 e1 c1 v cases i e' ns :
  path_step T e c T1 e1 c1 -> cases_done w' e1 c1 v cases i e' ns -> cases_done w' e c v cases i e' ns.
Proof.
  intros S. unfold cases_done. destruct (find_case v cases); [|done]. intros (k & ck & Hk & Hat & Hm & Ht). exists k, ck.
  split_and!; [done|done|apply (only_graphs_moved c c1); [apply S|done]|by apply (taken_step T e c T1 e1 c1)].
Qed.

(** The hypotheses of the loop in [e], and what it leads to. *)
Record case_env (width v : Z) (x : Operation) (cases : list (APInt * Z)) T e (c : Context) : Prop := {
  ce_width : iwf width x;
  ce_cases : Forall (fun p => getBitWidth p.1 = width) cases;
  ce_small : cases_small x cases c;
  ce_path : path_ok T e c;
  ce_usable : usable T e (egraph c) x;
  ce_on : on_path e c;
  ce_value : ival e width x v /\ 0 <= v < 2 ^ width
}.
Definition after_cases w' i v cases ns c' T e c : Prop :=
  exists T' e', path_step T e c T' e' c' /\ on_path e' c' /\
    Forall (fun n => boolean n /\ usable T' e' (egraph c') n) ns /\ cases_done w' e c v cases i e' ns.
Lemma case_step width v x value target cases T e c k a r c1 :
  case_env width v x ((value, target) :: cases) T e c -> ConstantInt_Create simplify value = Ok k -> CreateICmp simplify EQ x k = Ok a ->
  ask_check a c = (Ok r, c1) ->
  exists T1 e1, path_step T e c T1 e1 c1 /\ case_env width v x cases T1 e1 c1 /\ boolean a /\ usable T e (egraph c) a /\
    denote e a = Some (den_bool (getZExtValue value =? v)) /\ (kind_ r = UNSAT -> getZExtValue value <> v).
Proof using SolverSpec0 DefaultMatcher0.
  intros [Hx Hc [Hq Hs] Hp Hu Hon [Hv Hr]] Ek Ea E. apply Forall_cons in Hc as [Hval Hc].
  destruct (usable_case T e (egraph c) width x value k a (proj2 Hp) Hx Hu Hval Ek Ea) as (Ba & Ua & Va). specialize (Va v Hv Hr).
  destruct (interp_check_path T e c a r c1 Hp Ba Ua Hq E) as (T1 & e1 & S1 & O1 & Au). exists T1, e1.
  split_and!; try done.
  - split; [done|done|by apply (Hs k a r)|apply S1|by apply (usable_step T e c)|by apply O1|split; [by apply (ival_path_step T e c T1 e1 c1)|done]].
  - intros Hk Heq. apply (Au Hk Hon). unfold Holds. by rewrite Va, (proj2 (Z.eqb_eq _ _) Heq).
Qed.
Lemma switch_cases_run x cases : forall w i d c ns w',
  at_entry w i d c -> switch_cases mc i x cases w = (Ok ns, w') ->
  exists c', at_entry w' i d c' /\ (forall k d' ck, k <> i -> at_entry w k d' ck -> at_entry w' k d' ck) /\
    forall width v T e, case_env width v x cases T e c -> after_cases w' i v cases ns c' T e c.
Proof using SolverSpec0 DefaultMatcher0.
  induction cases as [|[value target] cases IH]; intros w i d c ns w' Hi E; cbn [switch_cases] in E.
  { apply ret_run in E as [-> ->]. exists c. split_and!; [done|done|]. intros width v T e Hc. exists T, e.
    split_and!; [apply path_step_refl, Hc|apply Hc|constructor|constructor]. }
  apply bind_run in E as (k & w1 & [Ek ->]%lift_run & E). apply bind_run in E as (a & w1 & [Ea ->]%lift_run & E).
  apply bind_run in E as (a' & w1 & [->%ctor_same ->]%lift_run & E). apply bind_run in E as (r & w1 & E1 & E).
  unfold check_path in E1. apply (in_context_ok i _ w d c r w1 Hi) in E1 as (c1 & Ec & ->).
  pose proof (set_entry_at i w d c d c1 Hi) as Hi1. set (w1 := set_entry i w (mkEntry d c1)) in *.
  unfold result_is in E. case_bool_decide as Hk.
  - destruct (IH w1 i d c1 ns w' Hi1 E) as (c' & Hi' & Hkeep & Hafter). exists c'. split_and!; [done| |].
    { intros j d' cj Hj Hcj. apply Hkeep; [done|]. by apply set_entry_other. }
    intros width v T e Hc. destruct (case_step width v x value target cases T e c k a r c1 Hc Ek Ea Ec) as (T1 & e1 & S1 & Hc1 & _ & _ & _ & Hun).
    destruct (Hafter width v T1 e1 Hc1) as (T' & e' & S' & On' & Hns & Hdone). exists T', e'. split_and!; [by apply (path_step_trans T e c T1 e1 c1)|done|done|].
    apply (cases_done_step w' T e c T1 e1 c1); [done|]. unfold cases_done in *. cbn [find_case]. destruct (Z.eqb_spec (getZExtValue value) v); [by destruct (Hun Hk)|done].
  - apply bind_run in E as (n & w2 & [En ->]%lift_run & E). apply bind_run in E as ([] & w2 & E2 & E).
    apply (fork_branch_run i w1 d c1 a target tt w2 Hi1) in E2 as (c2 & ck & Eadd & Ej & ->). apply bind_run in E as (ns' & w3 & E & [-> <-]%ret_run).
    set (w2 := set_queue w1 (queue_ w1 ++ [mkEntry false ck])) in *. pose proof (set_queue_at w1 [mkEntry false ck] i d c1 Hi1) as Hi2.
    destruct (IH w2 i d c1 ns' w' Hi2 E) as (c' & Hi' & Hkeep & Hafter). exists c'. split_and!; [done| |].
    { intros j d' cj Hj Hcj. apply Hkeep; [done|]. by apply set_queue_at, set_entry_other. }
    intros width v T e Hc. destruct (case_step width v x value target cases T e c k a r c1 Hc Ek Ea Ec) as (T1 & e1 & S1 & Hc1 & Ba & Ua & Va & _).
    destruct (Hafter width v T1 e1 Hc1) as (T' & e' & S' & On' & Hns & Hdone). pose proof (path_step_trans _ _ _ _ _ _ _ _ _ S1 S') as S.
    destruct (usable_not T e (egraph c) a n (proj2 (ce_path _ _ _ _ _ _ _ Hc)) Ba Ua En) as (Bn & Un & Vn). specialize (Vn e _ Va).
    exists T', e'. split_and!; [done|done|constructor; [split; [done|by apply (usable_step T e c)]|done]|].
    apply (cases_done_step w' T e c T1 e1 c1); [done|]. unfold cases_done in *. cbn [find_case].
    destruct (Z.eqb_spec (getZExtValue value) v) as [Heq|Hne].
    + exists (length (queue_ w1)), ck. apply lookup_lt_Some in Hi1 as Hlt. split_and!; [lia| | |].
      * apply Hkeep; [lia|]. by apply list_lookup_middle.
      * by destruct (add_narrows T1 e1 c1 a c2 ck target (proj1 S1) Ba (usable_step _ _ _ _ _ _ a S1 Ua) Eadd Ej).
      * destruct (add_narrows T1 e1 c1 a c2 ck target (proj1 S1) Ba (usable_step _ _ _ _ _ _ a S1 Ua) Eadd Ej) as [_ Hn].
        apply (narrows_taken T1 e1 c1 _ ck Hn (ce_on _ _ _ _ _ _ _ Hc1)). unfold Holds. rewrite (value_step T e c T1 e1 c1 a S1 Ua), Va.
        by destruct (Z.eqb_spec (getZExtValue value) v).
    + destruct (find_case v cases); [done|]. constructor; [|done]. unfold Holds. rewrite (value_step T e c T' e' c' n S Un), Vn.
      by destruct (Z.eqb_spec (getZExtValue value) v).
Qed.
Lemma assume_all_run ns : forall w i d c w',
  at_entry w i d c -> iter_m (assume i) ns w = (Ok tt, w') ->
  exists c', w' = set_entry i w (mkEntry d c') /\ only_graphs c c' /\
    forall T e, path_ok T e c -> on_path e c -> Forall (fun n => boolean n /\ usable T e (egraph c) n) ns -> Forall (Holds e) ns ->
      exists T' e', path_step T e c T' e' c' /\ on_path e' c'.
Proof.
  induction ns as [|n ns IH]; intros w i d c w' Hi E; cbn [iter_m] in E.
  { apply ret_run in E as [_ ->]. exists c. split_and!; [by rewrite set_entry_same|by destruct c|]. intros T e Hp Hon _ _. exists T, e.
    split; [by apply path_step_refl|done]. }
  apply bind_run in E as ([] & w1 & E1 & E). unfold assume in E1. apply (in_context_ok i _ w d c tt w1 Hi) in E1 as (c1 & E1%update_st_run & ->).
  destruct (IH _ i d c1 w' (set_entry_at i w d c d c1 Hi) E) as (c' & -> & Ho & Hpath). exists c'. split_and!; [by rewrite set_entry_twice| |].
  - apply (only_graphs_trans c c1); [|done]. unfold context_add in E1. by apply bind_Ok in E1 as ([id g'] & _ & [= <-]).
  - intros T e Hp Hon Hns Hh. apply Forall_cons in Hns as [[Bn Un] Hns]. apply Forall_cons in Hh as [Hn Hh].
    destruct (add_path T e c n c1 Hp Bn Un E1) as (T1 & e1 & S1 & O1).
    destruct (Hpath T1 e1) as (T' & e' & S' & On'); [apply S1|by apply O1| | |exists T', e'; split; [by apply (path_step_trans T e c T1 e1 c1)|done]].
    + eapply Forall_impl; [exact Hns|]. intros y [By Uy]. split; [done|by apply (usable_step T e c)].
    + rewrite Forall_forall in Hns, Hh |- *. intros y Hy. unfold Holds. rewrite (value_step T e c T1 e1 c1 y S1); [by apply Hh|by apply Hns].
Qed.
Lemma true_usable T e g t : Assertion_constant true = Ok t -> boolean t /\ usable T e g t /\ Holds e t.
Proof.
  unfold Assertion_constant. intros E. apply bind_Ok in E as (k & Ek & ->%ctor_same).
  destruct (const_any 1 1) as (k' & Ek' & (Wk & Tk & _) & Vk); [done|]. assert (k' = k) as -> by (cbn in Ek; congruence).
  split_and!; [done|apply usable_const; [done|by apply simplify_const_shape in Ek]|]. by destruct (Vk e) as (_ & _ & _ & ?).
Qed.

(** The end of [visitSwitchInst]: what is left of the path goes to the default. *)
Definition to_default (i : nat) (default_dest : Z) : M World unit :=
  t ← lift (Assertion_constant true); r ← check_path mc i t;
  if result_isnt r UNSAT then in_context i (interp_jump_to default_dest) else kill i.
Lemma to_default_run i default_dest w c w' :
  at_entry w i false c -> query_small c -> to_default i default_dest w = (Ok tt, w') ->
  (forall k d ck, k <> i -> at_entry w k d ck -> at_entry w' k d ck) /\
  forall T e, path_ok T e c -> on_path e c -> exists c', at_entry w' i false c' /\ moved c c' default_dest /\ taken e c c'.
Proof using SolverSpec0 DefaultMatcher0.
  intros Hi Hq E. unfold to_default in E. apply bind_run in E as (t & w1 & [Et ->]%lift_run & E). apply bind_run in E as (r & w1 & E1 & E).
  unfold check_path in E1. apply (in_context_ok i _ w false c r w1 Hi) in E1 as (c1 & Ec & ->). pose proof (set_entry_at i w false c false c1 Hi) as Hi1.
  unfold result_isnt, result_is in E. case_bool_decide as Hk; cbn [negb] in E; split.
  - intros k d ck Hne Hck. unfold at_entry. rewrite (kill_run i _ false c1 tt w' Hi1 E). rewrite list_lookup_insert_ne by done. by apply set_entry_other.
  - intros T e Hp Hon. destruct (true_usable T e (egraph c) t Et) as (Bt & Ut & Ht).
    destruct (interp_check_path T e c t r c1 Hp Bt Ut Hq Ec) as (T1 & e1 & _ & _ & Au). by destruct (Au Hk Hon).
  - intros k d ck Hne Hck. apply (in_context_ok i _ _ false c1 tt w' Hi1) in E as (c' & _ & ->). by apply set_entry_other; [apply set_entry_other|].
  - intros T e Hp Hon. destruct (true_usable T e (egraph c) t Et) as (Bt & Ut & Ht).
    destruct (interp_check_path T e c t r c1 Hp Bt Ut Hq Ec) as (T1 & e1 & S1 & O1 & _).
    apply (in_context_ok i _ _ false c1 tt w' Hi1) in E as (c' & Ej & ->). apply jump_run in Ej as (Hm & Eg & Ea). exists c'.
    split_and!; [by apply (set_entry_at i _ false c1)|apply (only_graphs_moved c c1); [apply S1|done]|].
    destruct (narrows_graphs T e c True c1 c' Eg Ea) as (T' & e' & Hp' & K & Ho); [exists T1, e1; split_and!; [apply S1|apply S1|rewrite O1; tauto]|].
    exists T', e'. split_and!; [done|done|by apply Ho].
Qed.

(** C3: A switch loses no path: in every environment that takes the path of the
    context, where the condition has the value [v], the queue then has a live
    context that is moved to the case of [v], or to the default where no case
    has this value, and whose path is taken.  This is for an integer condition
    held by a variable and cases of its width, a solver with the contract
    [SolverSpec], the matcher of the default rules, queries whose expressions
    fit in an assertion list ([cases_small], [query_small]), and environments
    in which the e-graph of the context is sound with a value for every class and
    the condition and the graph have no integer division or remainder, truncation, selection, array or
    floating-point arithmetic or comparison ([path_ok], [usable]), outside of
    which rewriting is not sound; and for runs that end without an error. *)
Theorem switch_covers w i c cond x cases default_dest width w' :
  at_entry w i false c -> variable c cond (LLVMValue_of (Expr x)) -> iwf width x -> Forall (fun p => getBitWidth p.1 = width) cases ->
  cases_small x cases c ->
  (forall ns w1 w2 c2, switch_cases mc i x cases w = (Ok ns, w1) -> iter_m (assume i) ns w1 = (Ok tt, w2) -> at_entry w2 i false c2 -> query_small c2) ->
  visitSwitchInst mc i cond cases default_dest w = (Ok tt, w') ->
  forall T e v, path_ok T e c -> usable T e (egraph c) x -> on_path e c -> ival e width x v -> 0 <= v < 2 ^ width ->
    exists k ck, at_entry w' k false ck /\ moved c ck (switch_target v cases default_dest) /\ taken e c ck.
Proof using SolverSpec0 DefaultMatcher0.
  intros Hi Hvar Hx Hcs Hsm Hsm2 E T e v Hp Hu Hon Hval Hr. unfold visitSwitchInst in E.
  apply bind_run in E as (y & w1 & E1 & E). apply (load_run i w false c cond _ y w1 Hi Hvar) in E1 as [-> ->].
  apply bind_run in E as (s & w1 & [E1 ->]%lift_run & E). cbn in E1. injection E1 as <-.
  apply bind_run in E as (y & w1 & [E1 ->]%lift_run & E). cbn in E1. injection E1 as <-.
  apply bind_run in E as (ns & w1 & E1 & E). apply bind_run in E as ([] & w2 & E2 & E).
  destruct (switch_cases_run x cases w i false c ns w1 Hi E1) as (c1 & Hi1 & _ & Hafter).
  destruct (Hafter width v T e) as (T1 & e1 & S1 & On1 & Hns & Hdone); [by split|].
  destruct (assume_all_run ns w1 i false c1 w2 Hi1 E2) as (c2 & -> & Ho2 & Hass). pose proof (set_entry_at i w1 false c1 false c2 Hi1) as Hi2.
  destruct (to_default_run i default_dest _ c2 w' Hi2 (Hsm2 ns w1 _ c2 E1 E2 Hi2) E) as [Hkeep Hdef].
  unfold switch_target, cases_done in *. destruct (find_case v cases) as [target|]; cbn [default].
  - destruct Hdone as (k & ck & Hk & Hck & Hm & Ht). exists k, ck. split_and!; [|done|done]. apply Hkeep; [done|]. by apply set_entry_other.
  - destruct (Hass T1 e1 (proj1 S1) On1 Hns Hdone) as (T2 & e2 & S2 & On2). destruct (Hdef T2 e2 (proj1 S2) On2) as (c' & Hc' & Hm & Ht).
    pose proof (path_step_trans _ _ _ _ _ _ _ _ _ S1 S2) as S. exists i, c'. split_and!; [done| |by apply (taken_step T e c T2 e2 c2)].
    apply (only_graphs_moved c c2); [apply S|done].
Qed.

(** ** Assertions *)
Lemma emit_run ev w u w' : emit ev w = (Ok u, w') -> w' = mkWorld (queue_ w) (events w ++ [ev]) (next_frame_id w).
Proof. by intros [= _ <-]. Qed.
Lemma own_context i w d c x w' : at_entry w i d c -> in_context i state w = (Ok x, w') -> x = c /\ w' = w.
Proof. intros Hi E. apply (in_context_ok i _ w d c x w' Hi) in E as (c' & [= <- <-] & ->). split; [done|by apply set_entry_same]. Qed.
(** What is reported when the negation [n] of an assertion is satisfiable. *)
Definition failure (r : SolverResult) (c : Context) (n : Operation) (message : string) : list Event :=
  if result_is r SAT then [LogFailure (model_ r) c n message; PathComplete c Fail n] else [].
Lemma assert_run w i c a message u w' :
  at_entry w i false c -> assert_or_fail mc i a message w = (Ok u, w') ->
  exists n r c1 c2, Assertion_not a = Ok n /\ ask_resolve n c = (Ok r, c1) /\ context_add c1 a = Ok c2 /\
    queue_ w' = <[i := mkEntry false c2]> (queue_ w) /\ events w' = events w ++ failure r c1 n message.
Proof.
  intros Hi E. unfold assert_or_fail in E. apply bind_run in E as (dd & w1 & E1 & E).
  unfold is_dead in E1. apply bind_run in E1 as (w2 & w3 & [= <- <-] & E1). apply bind_run in E1 as (en & w2 & [Een ->]%lift_run & [-> ->]%ret_run).
  unfold entry in Een. rewrite Hi in Een. injection Een as <-. cbn [dead] in E.
  apply bind_run in E as (n & w1 & [En ->]%lift_run & E). apply bind_run in E as (r & w1 & E1 & E). unfold resolve_path in E1.
  apply (in_context_ok i _ w false c r w1 Hi) in E1 as (c1 & Er & ->). pose proof (set_entry_at i w false c false c1 Hi) as Hi1.
  set (w1 := set_entry i w (mkEntry false c1)) in *. apply bind_run in E as ([] & w2 & E2 & E).
  assert (queue_ w2 = queue_ w1 /\ events w2 = events w1 ++ failure r c1 n message) as [Eq Ev].
  { unfold failure. destruct (result_is r SAT); [|apply ret_run in E2 as [_ ->]; by rewrite app_nil_r].
    apply bind_run in E2 as ([] & w3 & E2 & E3). unfold emit_failure in E2. apply bind_run in E2 as (x & w4 & E2 & ->%emit_run).
    apply (own_context i w1 false c1 x w4 Hi1) in E2 as [-> ->]. unfold on_path_complete in E3. apply bind_run in E3 as (x & w4 & E3 & ->%emit_run).
    apply (own_context i _ false c1 x w4) in E3 as [-> ->]; [|exact Hi1]. cbn. by rewrite <- app_assoc. }
  assert (at_entry w2 i false c1) as Hi2 by (unfold at_entry; by rewrite Eq). unfold assume in E.
  apply (in_context_ok i _ w2 false c1 u w' Hi2) in E as (c2 & Ea%update_st_run & ->). exists n, r, c1, c2. split_and!; try done.
  cbn. rewrite Eq. unfold w1. cbn. by rewrite list_insert_insert_eq.
Qed.

(** C4: [assert_or_fail] is sound and raises no false alarm.  It asks the solver
    to resolve the negation of the assertion on the path of the context, and the
    context goes on under the assertion.  A failure, with the model of the
    answer, is logged exactly when the answer is SAT; then the model has values
    of the symbols with which every environment takes the path and the assertion
    does not hold.  When the answer is UNSAT, the assertion holds wherever the path is
    taken.  This is for a boolean assertion, a solver with the contract
    [SolverSpec], the matcher of the default rules, a query whose expressions
    fit in an assertion list ([query_small]), and environments
    in which the e-graph of the context is sound with a value for every class and
    the assertion and the graph have no integer division or remainder, truncation, selection, array or
    floating-point arithmetic or comparison ([path_ok], [usable]), outside of
    which rewriting is not sound; and for runs that end without an error. *)
Theorem assert_or_fail_correct w i c a message w' :
  at_entry w i false c -> boolean a -> query_small c -> (exists T0 e0, path_ok T0 e0 c /\ usable T0 e0 (egraph c) a) ->
  assert_or_fail mc i a message w = (Ok tt, w') ->
  exists n r c1 c', Assertion_not a = Ok n /\ ask_resolve n c = (Ok r, c1) /\ context_add c1 a = Ok c' /\
    queue_ w' = <[i := mkEntry false c']> (queue_ w) /\ events w' = events w ++ failure r c1 n message /\
    (forall T e, path_ok T e c -> usable T e (egraph c) a ->
       narrows T e c (Holds e a) c' /\ (kind_ r = UNSAT -> on_path e c -> Holds e a)) /\
    (kind_ r = SAT -> exists m e1, model_ r = Some m /\ agrees m e1 /\
       forall T e, path_ok T e c -> usable T e (egraph c) a -> same_symbols e1 e -> on_path e c /\ ~ Holds e a).
Proof using SolverSpec0 DefaultMatcher0.
  intros Hi Hb Hq (T0 & e0 & Hp0 & Hu0) E. apply (assert_run w i c a) in E as (n & r & c1 & c2 & En & Er & Ea & Eq & Ev); [|done].
  exists n, r, c1, c2. split_and!; [done..| |].
  - intros T e Hp Hu. destruct (usable_not T e (egraph c) a n (proj2 Hp) Hb Hu En) as (Bn & Un & Vn).
    destruct (interp_resolve_path T e c n r c1 Hp Bn Un Hq Er) as [(T1 & e1 & S1 & O1 & A1) _]. split.
    + destruct (add_path T1 e1 c1 a c2 (proj1 S1) Hb (usable_step _ _ _ _ _ _ a S1 Hu) Ea) as (T2 & e2 & S2 & O2).
      pose proof (path_step_trans _ _ _ _ _ _ _ _ _ S1 S2) as S. exists T2, e2. split_and!; [apply S|apply S|].
      rewrite O2, O1. unfold Holds. by rewrite (value_step T e c T1 e1 c1 a S1 Hu).
    + intros Hk Hon. specialize (A1 Hk Hon). pose proof (usable_defined T e _ a (proj2 Hp) Hu) as Hd. unfold Defined in Hd.
      destruct (denote e a) as [v|] eqn:Ev'; [|done]. destruct (bool_value e a v (proj1 Hb) (proj2 Hb) Ev') as [[] ->]; [done|].
      by destruct A1; apply (Vn e false).
  - intros Hk. destruct (usable_not T0 e0 (egraph c) a n (proj2 Hp0) Hb Hu0 En) as (Bn & Un & _).
    destruct (interp_resolve_path T0 e0 c n r c1 Hp0 Bn Un Hq Er) as [_ Hsat]. destruct (Hsat Hk) as (e1 & (m & Em & Hag) & Hsol).
    exists m, e1. split_and!; [done|done|]. intros T e Hp Hu Hsym. destruct (usable_not T e (egraph c) a n (proj2 Hp) Hb Hu En) as (_ & Un' & Vn).
    destruct (Hsol T e Hp Un' Hsym) as [Hon Hn]. split; [done|]. intros Ha. specialize (Vn e true Ha). unfold Holds in Hn.
    rewrite Vn in Hn. by apply (inj Some), den_bool_inj in Hn.
Qed.
End machine.

Module branching_witness.
Import egraph_witness extract_witness graphlist_witness.
#[local] Instance on : Config := {| IMPLICIT_CONSTANT_FOLDING := true |}.
#[local] Instance clause_hash_capture : ClauseHash := fun c => if sc_capture c then 1 else 0.
#[local] Instance one_function : LLVMProgram := {|
  program_ir := {| block_insts b := if b =? 10 then [100] else [200]; entry_block _ := 10; fn_args _ := []; invoke_dests _ := None |};
  inst_view _ := IOther; value_view _ := VInstruction; block_parent _ := 1; fn_empty _ := false; fn_is_intrinsic _ := false;
  fn_return_type _ := LVoid; is_call_or_invoke _ := false; is_call _ := false |}.
#[local] Instance flat_layout : Layout := {|
  layout_pointers := {| getPointerSize := 8 |}; getPointerSizeInBits _ := 64; getTypeAllocSize _ := 8; getTypeStoreSize _ := 8;
  getElementOffset _ i := 8 * i |}.

(** A solver that tries the environment in which every symbol is 0. *)
Definition zeros (w : Z) : Env := {|
  env_symbol := fun _ => DInt (APInt_of w 0); env_array := fun _ _ => DInt (APInt_of w 0); env_node := fun _ => None |}.
Definition zero_model (w : Z) : Model := mkModel (fun _ n => match n with None => VInt (APInt_of w 0) | Some _ => VEmpty end).
Definition guess (w : Z) (l : AssertionList) (extra : Operation) : result (SolverResult * AssertionList) :=
  Ok (if decide (Forall (fun a => denote (zeros w) a = Some (den_bool true)) (extra :: al_values l))
      then mkResult SAT (Some (zero_model w)) else mkResult Unknown None, l).
Definition guesser (w : Z) : Solver := mkSolver (guess w) (guess w).
#[local] Instance guesser_spec w : SolverSpec (guesser w).
Proof.
  split; intros l extra [Hi He Hm]; cbn [guesser solver_check solver_resolve]; unfold guess; eexists _, _; (split; [done|]); case_decide as Hd; split_and?;
    try (split; try done; intros _; by exists (zeros w)); try done.
  intros _. exists (zero_model w), (zeros w). split_and!; [done| |done]. split; [intros s _; constructor|intros s n Hn; by destruct Hn].
Qed.

Definition rules0 : result EMatcher := b ← add_defaults empty_builder; build_matcher b.
Definition or_none (r : result EMatcher) : EMatcher := match r with Ok m => m | Err _ => mkMatcher [] [] [] [] end.
Lemma or_none_default r : is_ok r = true -> (forall m, r = Ok m -> DefaultMatcher m) -> DefaultMatcher (or_none r).
Proof. destruct r as [m|]; [|done]. intros _ Hm. by apply Hm. Qed.
Lemma rules0_ok : is_ok rules0 = true.
Proof. vm_cast_no_check (@eq_refl bool true). Qed.
Lemma rules0_default m : rules0 = Ok m -> DefaultMatcher m.
Proof. unfold rules0. intros E. apply bind_Ok in E as (b & Eb & EM). exists b. split; [exact Eb|exact EM]. Qed.
Definition matcher0 : EMatcher := or_none rules0.
#[local] Instance matcher0_default : DefaultMatcher matcher0.
Proof. apply or_none_default; [apply rules0_ok|apply rules0_default]. Qed.
Definition machine (w : Z) : Machine := mkMachine (guesser w) 3 matcher0 6 4 (fun _ => None) (fun _ => None) (fun _ => raise Thrown) (Ok None)
  (fun _ => mkExtFrame 0 None None [] 0) None.

(** A context in block 10 of function 1, with [x] in variable 5. *)
Definition ctx0 (x : Operation) : Context :=
  mkContext [mkFrame (Regular (frame_insert (IRStackFrame_ctor 1 0) 5 (LLVMValue_of (Expr x)))) 0] ∅ (MemHeapMgr_ctor true) gl_empty ∅ 0 true eg_empty 0.
Definition world0 (x : Operation) : World := mkWorld [mkEntry false (ctx0 x)] [] 1.
Lemma ctx0_variable x : variable (ctx0 x) 5 (LLVMValue_of (Expr x)).
Proof. eexists. split; [exists [], (mkFrame (Regular (frame_insert (IRStackFrame_ctor 1 0) 5 (LLVMValue_of (Expr x)))) 0); split; reflexivity|reflexivity]. Qed.
Lemma ctx0_path w x : path_ok T0 (zeros w) (ctx0 x) /\ on_path (zeros w) (ctx0 x).
Proof.
  split; [|constructor]. split; [split; [apply empty_inv|constructor|apply gl_empty_inv|reflexivity]|].
  split; [apply empty_inv|intros ? ->; by apply empty_sat|intros ? -> i [? Hi]; unfold uf_size in Hi; cbn in Hi; lia|].
  intros i c n Hc. cbn in Hc. by rewrite lookup_empty in Hc.
Qed.
Definition symw (w : Z) (s : string) : Operation := mkOp (mkData OpConstantNamed (ity w) (PSymbol (Named s))) [].
Lemma sym_usable w T g s : bool_decide (denote (zeros w) (symw w s) = None) = false -> usable T (zeros w) g (symw w s).
Proof. intros Hd%bool_decide_eq_false. apply usable_node; [done|done|done|done|done|constructor]. Qed.
(** A query on a path without assertions is small. *)
Lemma empty_small mc c : assertions c = gl_empty -> query_small mc c.
Proof.
  intros Ha c1 g E _ gl rs x Egl Ex. unfold simplify_graph in E. apply update_st_run, bind_Ok in E as (g' & _ & [= <-]). cbn in Egl. rewrite Ha in Egl.
  injection Egl as <-. injection Ex as <- _. vm_decide.
Qed.
Lemma asked_empty mc p c r c1 :
  assertions c = gl_empty -> interp_check (mc_solver mc) (mc_fuel mc) (mc_matcher mc) (mc_rounds mc) p c = (Ok r, c1) -> assertions c1 = gl_empty.
Proof.
  intros Ha E. unfold interp_check in E. apply bind_run in E as (u & c2 & E1 & E2%apply_st_run).
  unfold simplify_graph in E1. apply update_st_run, bind_Ok in E1 as (g' & _ & [= <-]). unfold context_check in E2. rewrite context_ask_query in E2.
  apply bind_Ok in E2 as ([[l ex] c3] & Eq & E2). apply bind_Ok in E2 as ([r' l'] & _ & [= <- <-]). unfold context_query in Eq.
  apply bind_Ok in Eq as ([l1 c4] & E3 & Eq). apply bind_Ok in Eq as ([ex1 x1] & _ & Eq). apply bind_Ok in Eq as (ex2 & _ & [= <- <- <-]).
  unfold extract_assertions in E3. apply bind_Ok in E3 as (g1 & _ & E3). cbn in E3. rewrite Ha in E3. apply bind_Ok in E3 as (gl & [= <-] & E3).
  by apply bind_Ok in E3 as ([l2 x2] & _ & [= <- <-]).
Qed.
Lemma ran {A} (r : result A * World) : is_ok r.1 = true -> exists a w', r = (Ok a, w').
Proof. destruct r as [[a|] w']; [by exists a, w'|done]. Qed.

Lemma branch_ran : exists w', visitCondBranch (machine 1) 0 5 20 30 (world0 (sym1 "x")) = (Ok tt, w').
Proof. destruct (ran (visitCondBranch (machine 1) 0 5 20 30 (world0 (sym1 "x")))) as ([] & w' & E); [vm_cast_no_check (@eq_refl bool true)|]. exists w'. exact E. Qed.
(** The branch on a symbol, where it is 0. *)
Lemma branch_exact_witness :
  exists w' k, visitCondBranch (machine 1) 0 5 20 30 (world0 (sym1 "x")) = (Ok tt, w') /\ k ∈ queue_ w' /\
    moved (ctx0 (sym1 "x")) (entry_context k) 30 /\ taken (zeros 1) (ctx0 (sym1 "x")) (entry_context k).
Proof.
  destruct branch_ran as [w' E].
  destruct (branch_exact (machine 1) (world0 (sym1 "x")) 0 false (ctx0 (sym1 "x")) 5 (sym1 "x") 20 30 w')
    as (rt & rf & n & c1 & c2 & ft & ff & _ & _ & _ & Eq & _ & _ & _ & Hff & Hcov & _).
  - reflexivity.
  - apply ctx0_variable.
  - split; [apply sym1_wf|reflexivity].
  - apply empty_small. reflexivity.
  - intros r c3 E1. apply empty_small. apply (asked_empty (machine 1) (sym1 "x") (ctx0 (sym1 "x")) r c3); [reflexivity|exact E1].
  - exact E.
  - destruct (ctx0_path 1 (sym1 "x")) as [Hp Hon]. destruct (Hcov T0 (zeros 1) false) as (k & Hk & Ht).
    + exact Hp.
    + apply (sym_usable 1). vm_compute. reflexivity.
    + exact Hon.
    + reflexivity.
    + exists w', k. split; [exact E|]. rewrite Forall_forall in Hff. destruct (Hff k Hk) as (_ & Hm & _).
      split; [rewrite Eq; apply elem_of_app; right; apply elem_of_app; right; exact Hk|]. split; [exact Hm|exact Ht].
Defined.

(** A switch on an 8-bit symbol, where it is 0. *)
Definition byte_cases : list (APInt * Z) := [(APInt_of 8 0, 20); (APInt_of 8 3, 30)].
Lemma cases_small_empty mc x cases c : assertions c = gl_empty -> cases_small mc x cases c.
Proof.
  revert c. induction cases as [|[value target] cases IH]; intros c Ha; cbn [cases_small]; [done|]. split; [by apply empty_small|].
  intros k a r c1 _ _ E. apply IH. by apply (asked_empty mc a c r c1).
Qed.
Definition final_size (mc : Machine) (x : Operation) (cases : list (APInt * Z)) (w : World) : option nat :=
  match switch_cases mc 0 x cases w with
  | (Ok ns, w1) =>
      match iter_m (assume 0) ns w1 with
      | (Ok tt, w2) =>
          match queue_ w2 !! 0%nat with
          | Some (mkEntry false c2) =>
              match simplify_graph (mc_matcher mc) (mc_rounds mc) c2 with
              | (Ok tt, c1) =>
                  match rebuild (egraph c1) with
                  | Ok g =>
                      match gl_canonicalize (mc_fuel mc) g (assertions c1) with
                      | Ok gl => match extract_operands extract (Extractor_ctor g false) (glist_ gl) with Ok (rs, _) => Some (stack_size rs) | _ => None end
                      | _ => None
                      end
                  | _ => None
                  end
              | _ => None
              end
          | _ => None
          end
      | _ => None
      end
  | _ => None
  end.
Lemma final_small mc x cases w n ns w1 w2 c2 :
  final_size mc x cases w = Some n -> Z.of_nat n < SparseVector.no_head ->
  switch_cases mc 0 x cases w = (Ok ns, w1) -> iter_m (assume 0) ns w1 = (Ok tt, w2) -> at_entry w2 0 false c2 -> query_small mc c2.
Proof.
  intros K Hn E1 E2 Hat c1 g Es Er gl rs y Egl Ex. unfold final_size in K. rewrite E1, E2 in K. unfold at_entry in Hat.
  rewrite Hat, Es, Er, Egl, Ex in K. by injection K as ->.
Qed.
Lemma final_size_8 : final_size (machine 8) (symw 8 "x") byte_cases (world0 (symw 8 "x")) = Some 8%nat.
Proof. vm_decide. Qed.
Lemma switch_ran : exists w', visitSwitchInst (machine 8) 0 5 byte_cases 40 (world0 (symw 8 "x")) = (Ok tt, w').
Proof. destruct (ran (visitSwitchInst (machine 8) 0 5 byte_cases 40 (world0 (symw 8 "x")))) as ([] & w' & E); [vm_cast_no_check (@eq_refl bool true)|]. exists w'. exact E. Qed.
Lemma symw_wf w s : good_width w -> iwf w (symw w s).
Proof. intros Hw. split_and!; [constructor; [constructor|by exists (Named s)]|done|done]. Qed.
Lemma symw_value : denote (zeros 8) (symw 8 "x") = Some (DInt (APInt_of 8 0)).
Proof. vm_decide. Qed.
Lemma switch_covers_witness :
  exists w' k ck, visitSwitchInst (machine 8) 0 5 byte_cases 40 (world0 (symw 8 "x")) = (Ok tt, w') /\ at_entry w' k false ck /\
    moved (ctx0 (symw 8 "x")) ck 20 /\ taken (zeros 8) (ctx0 (symw 8 "x")) ck.
Proof.
  destruct switch_ran as [w' E]. destruct (ctx0_path 8 (symw 8 "x")) as [Hp Hon].
  destruct (switch_covers (machine 8) (world0 (symw 8 "x")) 0 (ctx0 (symw 8 "x")) 5 (symw 8 "x") byte_cases 40 8 w') with (T := T0) (e := zeros 8) (v := 0)
    as (k & ck & Hk & Hm & Ht).
  - reflexivity.
  - apply ctx0_variable.
  - apply symw_wf. split; lia.
  - constructor; [reflexivity|]. constructor; [reflexivity|constructor].
  - apply cases_small_empty. reflexivity.
  - intros ns w1 w2 c2. apply (final_small (machine 8) (symw 8 "x") byte_cases (world0 (symw 8 "x")) 8 ns w1 w2 c2 final_size_8). reflexivity.
  - exact E.
  - exact Hp.
  - apply (sym_usable 8). vm_compute. reflexivity.
  - exact Hon.
  - destruct (symw_wf 8 "x") as (Wx & Tx & Gx); [split; lia|]. split; [exact Wx|]. split; [exact Tx|]. split; [exact Gx|exact symw_value].
  - lia.
  - exists w', k, ck. split; [exact E|]. split; [exact Hk|]. split; [exact Hm|exact Ht].
Defined.

(** An assertion that fails where the symbol is 0. *)
Definition assert_world : World := (assert_or_fail (machine 1) 0 (sym1 "x") "assertion failure" (world0 (sym1 "x"))).2.
Lemma assert_ran : assert_or_fail (machine 1) 0 (sym1 "x") "assertion failure" (world0 (sym1 "x")) = (Ok tt, assert_world).
Proof.
  unfold assert_world. destruct (ran (assert_or_fail (machine 1) 0 (sym1 "x") "assertion failure" (world0 (sym1 "x")))) as ([] & w' & E); [vm_cast_no_check (@eq_refl bool true)|].
  rewrite E. reflexivity.
Qed.
Lemma assert_reports : length (events assert_world) = 2%nat.
Proof. vm_decide. Qed.
Lemma failure_sat r c n m : length (failure r c n m) = 2%nat -> kind_ r = SAT.
Proof. unfold failure, result_is. case_bool_decide; done. Qed.
Lemma assert_or_fail_correct_witness :
  exists m e1, agrees m e1 /\ length (events assert_world) = 2%nat /\
    forall T e, path_ok T e (ctx0 (sym1 "x")) -> usable T e eg_empty (sym1 "x") -> same_symbols e1 e -> ~ Holds e (sym1 "x").
Proof.
  destruct (assert_or_fail_correct (machine 1) (world0 (sym1 "x")) 0 (ctx0 (sym1 "x")) (sym1 "x") "assertion failure" assert_world) as (n & r & c1 & c' & _ & _ & _ & _ & Ev & _ & Hsat).
  - reflexivity.
  - split; [apply sym1_wf|reflexivity].
  - apply empty_small. reflexivity.
  - exists T0, (zeros 1). split; [apply ctx0_path|]. apply (sym_usable 1). vm_compute. reflexivity.
  - exact assert_ran.
  - pose proof assert_reports as K. rewrite Ev in K. destruct (Hsat (failure_sat r c1 n _ K)) as (m & e1 & _ & Hag & Hno).
    exists m, e1. split; [exact Hag|]. split; [exact assert_reports|]. intros T e Hp Hu Hs. exact (proj2 (Hno T e Hp Hu Hs)).
Defined.
End branching_witness.
