(* ===== verification/ControlFlow.v ===== *)
(** Calls, returns and PHI nodes of the interpreter. *)
From S2P Require Import Prelude LLVM IRType Value Opcode Operation Matching Create Semantics.
From S2P Require Import Simplifier SimplifierInt SimplifierSound Overflow AtEnv ModelEval SparseVector Assertions Slicer Solvers.
From S2P Require Import Allocation SlotMap BumpAllocator MemHeap UnionFind EGraph EGraphSound EGraphRebuild Extract GraphAssertions Frames Context.
From S2P Require Import Constprop EMatching RewriteSound Saturation ValueMemory Effects OperationBuilder InterpreterContext ExprEval Interpreter Paths Branching.
Open Scope Z_scope.

Section control.
Context `{PtrEq} `{!DataPtrEq} `{MapOrder} `{MathExtrasAPI} `{Config} `{HashOrder} `{!LLVMProgram} `{Layout}.
Context (mc : Machine).

(** The context with its top frame, a regular one, changed. *)
Definition with_top (c : Context) (s : list StackFrame) (top : StackFrame) (f : IRStackFrame) : Context := set_stack c (s ++ [set_regular top f]).
Definition top_is (c : Context) (s : list StackFrame) (top : StackFrame) (f : IRStackFrame) : Prop := ctx_stack c = s ++ [top] /\ value_ top = Regular f.
Lemma with_top_is c s top f : top_is (with_top c s top f) s (set_regular top f) f.
Proof. done. Qed.
Lemma with_top_twice c s top f g : with_top (with_top c s top f) s (set_regular top f) g = with_top c s top g.
Proof. done. Qed.
Lemma stack_top_is c s top f : top_is c s top f -> stack_top c = Ok top /\ get_regular top = Ok f /\ is_external top = false /\ ctx_empty c = false.
Proof.
  intros [Es Ev]. unfold stack_top, get_regular, is_external, ctx_empty. rewrite Es, Ev, last_snoc. split_and!; try done.
  apply bool_decide_eq_false. by destruct s.
Qed.
Lemma set_top_is c s top f g : top_is c s top f -> set_top c (set_regular top g) = with_top c s top g.
Proof. intros [Es _]. unfold set_top. by rewrite Es, removelast_last. Qed.
Lemma top_variable c s top f v x : top_is c s top f -> variables f !! v = Some x -> variable c v x.
Proof. intros [Es Ev] Hv. exists f. split; [by exists s, top|done]. Qed.

(** ** PHI nodes *)
Lemma store_run c s top f v x : top_is c s top f -> store_value v x c = (Ok tt, with_top c s top (frame_insert f v x)).
Proof.
  intros Ht. destruct (stack_top_is c s top f Ht) as (E1 & E2 & E3 & _).
  unfold store_value. rewrite (bind_eq _ _ c c c), (bind_eq _ _ c top c) by (unfold lift; by rewrite ?E1). rewrite E3.
  unfold update_regular, update_st, apply_st. rewrite E1, ok_bind, E2, ok_bind. cbn [mbind result_bind]. by rewrite (set_top_is c s top f).
Qed.
Lemma phi_run w i d c s top f inst incoming prev v x :
  at_entry w i d c -> top_is c s top f -> prev_block f = Some prev -> hd_error (filter (fun p => p.1 = prev) incoming) = Some (prev, v) ->
  variables f !! v = Some x ->
  visitPHINode mc i inst incoming w = (Ok tt, set_entry i w (mkEntry d (with_top c s top (frame_insert f inst x)))).
Proof.
  intros Hi Ht Hp Hin Hx. destruct (stack_top_is c s top f Ht) as (E1 & E2 & _ & _). unfold visitPHINode.
  rewrite (bind_eq _ _ w c w). 2: { rewrite (in_context_eq i _ w d c Hi). cbn. by rewrite set_entry_same. }
  rewrite (bind_eq _ _ w top w), (bind_eq _ _ w f w), (bind_eq _ _ w prev w), (bind_eq _ _ w v w) by (unfold lift; by rewrite ?E1, ?E2, ?Hp, ?Hin).
  rewrite (bind_eq _ _ w x w).
  2: { unfold interp_load. rewrite (in_context_eq i _ w d c Hi), (load_variable _ _ _ v x c); [|by eapply top_variable]. cbn. by rewrite set_entry_same. }
  rewrite (in_context_eq i _ w d c Hi), (store_run c s top f inst x Ht). done.
Qed.

(** C39: The PHI nodes of a block are evaluated one after the other, each on what the
    ones before it have stored: a node [b] whose incoming value is a node [a] of
    the same block reads the new value of [a]. LLVM evaluates the nodes of a
    block together, on the values at the end of the block before, [y] here. *)
Theorem phi_nodes_in_turn w i d c s top f a b va x y prev incoming_a incoming_b :
  at_entry w i d c -> ctx_stack c = s ++ [top] -> value_ top = Regular f -> prev_block f = Some prev -> a <> b ->
  hd_error (filter (fun p => p.1 = prev) incoming_a) = Some (prev, va) -> hd_error (filter (fun p => p.1 = prev) incoming_b) = Some (prev, a) ->
  variables f !! va = Some x -> variables f !! a = Some y ->
  exists w' c', (visitPHINode mc i a incoming_a ≫= fun _ => visitPHINode mc i b incoming_b) w = (Ok tt, w') /\ at_entry w' i d c' /\
    variable c' a x /\ variable c' b x.
Proof.
  intros Hi Es Ev Hp Hab Ha Hb Hx _. pose proof (conj Es Ev : top_is c s top f) as Ht.
  rewrite (bind_eq _ _ w tt _ (phi_run w i d c s top f a incoming_a prev va x Hi Ht Hp Ha Hx)).
  rewrite (phi_run _ i d _ s _ (frame_insert f a x) b incoming_b prev a x (set_entry_at i w d c _ _ Hi) (with_top_is _ _ _ _) Hp Hb).
  2: { cbn. by rewrite lookup_insert_eq. }
  eexists _, _. split; [done|]. split; [eapply set_entry_at, set_entry_at, Hi|].
  split; (eapply top_variable; [apply with_top_is|]); cbn; [|by rewrite lookup_insert_eq].
  rewrite lookup_insert_ne by done. by rewrite lookup_insert_eq.
Qed.

(** ** Calls and returns *)
Lemma in_context_update i (g : Context -> result Context) w d c c' :
  at_entry w i d c -> g c = Ok c' -> in_context i (update_st g) w = (Ok tt, set_entry i w (mkEntry d c')).
Proof. intros Hi E. rewrite (in_context_eq i _ w d c Hi). unfold update_st, apply_st. by rewrite E. Qed.
Lemma in_context_state i w d c : at_entry w i d c -> in_context i state w = (Ok c, w).
Proof. intros Hi. rewrite (in_context_eq i _ w d c Hi). cbn. by rewrite set_entry_same. Qed.
Lemma kill_reports w i d c t : at_entry w i d c -> Assertion_constant true = Ok t ->
  kill i w = (Ok tt, mkWorld (<[i := mkEntry true c]> (queue_ w)) (events w ++ [PathComplete c Dead t]) (next_frame_id w)).
Proof.
  intros Hi Et. unfold kill. rewrite (bind_eq _ _ w t w) by (unfold lift; by rewrite Et). unfold set_dead.
  rewrite (bind_eq _ _ w tt (set_entry i w (mkEntry true c))). 2: { unfold update_st, apply_st, entry. by rewrite Hi. }
  unfold on_path_complete. rewrite (bind_eq _ _ _ c _ (in_context_state i _ true c (set_entry_at i w d c _ _ Hi))). done.
Qed.
Lemma pop_run c s top f : ctx_stack c = s ++ [top] -> value_ top = Regular f -> allocations f = [] -> ctx_pop c = Ok (set_stack c s).
Proof. intros Es Ev Ea. unfold ctx_pop. rewrite Es, last_snoc. cbn. rewrite Ev, Ea. cbn. rewrite removelast_last. by destruct c. Qed.
Lemma current_function c s top f : top_is c s top f -> getCurrentFunction c = Ok (Some (block_parent (current_block f))).
Proof.
  intros Ht. destruct (stack_top_is c s top f Ht) as (E1 & E2 & _ & E4). unfold getCurrentFunction. rewrite E4, E1, ok_bind.
  unfold is_regular. destruct Ht as [_ ->]. by rewrite E2, ok_bind.
Qed.
Lemma bind_args_kept f params args :
  allocations (bind_args f params args) = allocations f /\ current_block (bind_args f params args) = current_block f /\
  current (bind_args f params args) = current f /\ prev_block (bind_args f params args) = prev_block f.
Proof. revert f args. induction params as [|p ps IH]; intros f [|a args]; cbn; try done. apply (IH (frame_insert f p a)). Qed.
(** The parameters are bound to the arguments in order, and nothing else is. *)
Lemma bind_args_other f params args q : q ∉ params -> variables (bind_args f params args) !! q = variables f !! q.
Proof.
  revert f args. induction params as [|p ps IH]; intros f [|a args] Hq; cbn; try done. apply not_elem_of_cons in Hq as [Hne Hq].
  rewrite IH by done. cbn. by rewrite lookup_insert_ne.
Qed.
Lemma bind_args_bound f params args j p a :
  NoDup params -> params !! j = Some p -> args !! j = Some a -> variables (bind_args f params args) !! p = Some a.
Proof.
  intros Hn. revert f args j. induction Hn as [|q ps Hq _ IH]; intros f [|b args] [|j] Hp Ha; cbn in *; try done.
  - injection Hp as ->. injection Ha as ->. rewrite bind_args_other by done. cbn. apply lookup_insert_eq.
  - by apply (IH _ args j).
Qed.
Lemma call_run w i d c fn args :
  at_entry w i d c -> fn_empty fn = false -> length args = length (fn_args fn) ->
  interp_call i fn args w =
  (Ok tt, mkWorld (<[i := mkEntry d (ctx_push c (mkFrame (Regular (bind_args (IRStackFrame_ctor fn (next_frame_id w)) (fn_args fn) args)) (next_frame_id w)))]>
    (queue_ w)) (events w) (wrap 64 (next_frame_id w + 1))).
Proof.
  intros Hi He Hl. set (c1 := ctx_push c _). unfold interp_call. rewrite (bind_eq _ _ w w w) by done.
  rewrite (bind_eq _ _ w (wrap 64 (next_frame_id w + 1)) (set_entry i w (mkEntry d c1))); [done|].
  rewrite (in_context_eq i _ w d c Hi). unfold call_function. cbn. unfold mbind, M_bind, check_that, lift. rewrite He. cbn.
  by rewrite Hl, Nat.eqb_refl.
Qed.
(** A return to a frame of the stack. *)
Lemma return_run w i d c c1 s0 ret g s top f f' v :
  at_entry w i d c -> top_is c s0 ret g -> check_return (fn_return_type (block_parent (current_block g))) v = Ok tt ->
  ctx_pop c = Ok c1 -> top_is c1 s top f -> ir_set_result f v None = Ok f' ->
  function_return i v w = (Ok tt, set_entry i w (mkEntry d (with_top c1 s top f'))).
Proof.
  intros Hi Ht Hr Ep Ht1 Es. unfold function_return. rewrite (bind_eq _ _ w c w (in_context_state i w d c Hi)).
  rewrite (bind_eq _ _ w _ w) by (unfold lift; by rewrite (current_function _ _ _ _ Ht)).
  rewrite (bind_eq _ _ w tt w) by (unfold lift; by rewrite Hr).
  rewrite (bind_eq _ _ w tt _ (in_context_update i ctx_pop w d c c1 Hi Ep)).
  pose proof (set_entry_at i w d c d c1 Hi) as Hi2. rewrite (bind_eq _ _ _ c1 _ (in_context_state i _ d c1 Hi2)).
  destruct (stack_top_is c1 s top f Ht1) as (F1 & _ & _ & F4). rewrite F4.
  unfold update_top. rewrite (in_context_update i _ _ d c1 (with_top c1 s top f') Hi2); [by rewrite set_entry_twice|].
  rewrite F1, ok_bind. unfold set_result. destruct Ht1 as [Ets Etv]. rewrite Etv, Es, ok_bind. cbn. change (mkFrame (Regular f') (frame_id top)) with (set_regular top f').
  by rewrite (set_top_is c1 s top f _ (conj Ets Etv)).
Qed.
(** The caller after a call that returned [v]. *)
Definition resumed (f f' : IRStackFrame) (caller : Z) (v : option LLVMValue) : Prop :=
  variables f' = match v with Some r => <[caller := r]> (variables f) | None => variables f end /\ allocations f' = allocations f /\
  match invoke_dests caller with
  | None => current_block f' = current_block f /\ current f' = current f /\ prev_block f' = prev_block f
  | Some (normal, _) => current_block f' = normal /\ current f' = 0%nat /\ prev_block f' = Some (current_block f)
  end.
Lemma set_result_resumes f k caller v :
  current f = S k -> block_insts (current_block f) !! k = Some caller -> exists f', ir_set_result f v None = Ok f' /\ resumed f f' caller v.
Proof.
  intros Hc Hk. unfold ir_set_result, resumed. rewrite Hc, Hk, (bool_decide_eq_false_2 (is_Some None)), orb_true_r by by intros []. cbn.
  destruct (invoke_dests caller) as [[normal unwind]|]; eexists; (split; [done|]); by destruct v.
Qed.

(** C28: A call and the return from it.  Calling a function that has a body, with
    as many arguments as it has parameters, pushes a frame at the start of its
    entry block in which each parameter has the value of its argument and
    nothing else is bound or allocated, and changes nothing else but the counter
    of frame ids.  Whatever the
    callee does, if in the end a frame of that function is on top of the
    unchanged stack of the caller, a return of a value of its result type pops
    that frame and frees exactly the stack allocations recorded in it: every
    other allocation of every heap, the path condition and the e-graph are
    kept, and so are the frames below the caller.  The caller's frame has the
    result in the variable of the call instruction, keeps its other variables
    and its allocations, and goes on behind the call, or at the normal
    destination of an invoke.  The parameters of a function are distinct values;
    the heaps are well formed and the recorded allocations are distinct, live
    and made by [alloca] ([heaps_ok]). *)
Theorem call_and_return w i d c s top f k caller fn args :
  at_entry w i d c -> ctx_stack c = s ++ [top] -> value_ top = Regular f ->
  current f = S k -> block_insts (current_block f) !! k = Some caller ->
  fn_empty fn = false -> length args = length (fn_args fn) -> NoDup (fn_args fn) ->
  (exists callee, interp_call i fn args w =
       (Ok tt, mkWorld (<[i := mkEntry d (ctx_push c (mkFrame (Regular callee) (next_frame_id w)))]> (queue_ w)) (events w) (wrap 64 (next_frame_id w + 1))) /\
     current_block callee = entry_block fn /\ current callee = 0%nat /\ allocations callee = [] /\
     (forall j p a, fn_args fn !! j = Some p -> args !! j = Some a -> variables callee !! p = Some a) /\
     (forall q, q ∉ fn_args fn -> variables callee !! q = None)) /\
  (forall w2 d2 c2 ret g v, at_entry w2 i d2 c2 -> ctx_stack c2 = s ++ [top; ret] -> value_ ret = Regular g ->
     block_parent (current_block g) = fn -> check_return (fn_return_type fn) v = Ok tt ->
     heaps_ok (heaps c2) -> NoDup (allocations g) ->
     Forall (fun x => exists a, live (heaps c2) (sa_heap x) (sa_alloc x) a /\ alloc_kind a = Alloca) (allocations g) ->
     exists c3 f', function_return i v w2 = (Ok tt, set_entry i w2 (mkEntry d2 c3)) /\
       ctx_stack c3 = s ++ [mkFrame (Regular f') (frame_id top)] /\ resumed f f' caller v /\
       assertions c3 = assertions c2 /\ egraph c3 = egraph c2 /\
       (forall heap id a, live (heaps c3) heap id a <-> live (heaps c2) heap id a /\ frame_alloc id heap ∉ allocations g)).
Proof.
  intros Hi Es Ev Hc Hk He Hl Hnd. split.
  - exists (bind_args (IRStackFrame_ctor fn (next_frame_id w)) (fn_args fn) args). split; [by apply call_run|].
    destruct (bind_args_kept (IRStackFrame_ctor fn (next_frame_id w)) (fn_args fn) args) as (-> & -> & -> & _).
    split_and!; try done; [by intros j p a; apply bind_args_bound|]. intros q Hq. by rewrite bind_args_other.
  - intros w2 d2 c2 ret g v Hi2 Es2 Ev2 Hb Hr Hh Hn Hal.
    assert (ctx_stack c2 = (s ++ [top]) ++ [ret]) as Es2' by (by rewrite <- app_assoc).
    destruct (pop_frees_frame c2 (s ++ [top]) ret g Es2' Ev2 Hh Hn Hal) as (c1 & Ep & Es1 & Ea & Eg & _ & Hlive).
    destruct (set_result_resumes f k caller v Hc Hk) as (f' & Ef & Hf). rewrite <- Hb in Hr.
    exists (with_top c1 s top f'), f'. split_and!; try done. by apply (return_run w2 i d2 c2 c1 (s ++ [top]) ret g s top f).
Qed.

(** Returning from the function a context was started with ends the context,
    and the policy is told that the path is dead, never that it succeeded. *)
Theorem return_reported_dead w i d c top f v t :
  at_entry w i d c -> ctx_stack c = [top] -> value_ top = Regular f -> allocations f = [] ->
  check_return (fn_return_type (block_parent (current_block f))) v = Ok tt -> Assertion_constant true = Ok t ->
  function_return i v w =
  (Ok tt, mkWorld (<[i := mkEntry true (set_stack c [])]> (queue_ w)) (events w ++ [PathComplete (set_stack c []) Dead t]) (next_frame_id w)).
Proof.
  intros Hi Es Ev Ea Hr Et. assert (top_is c [] top f) as Ht by done. unfold function_return.
  rewrite (bind_eq _ _ w c w (in_context_state i w d c Hi)).
  rewrite (bind_eq _ _ w _ w) by (unfold lift; by rewrite (current_function _ _ _ _ Ht)).
  rewrite (bind_eq _ _ w tt w) by (unfold lift; by rewrite Hr).
  rewrite (bind_eq _ _ w tt _ (in_context_update i ctx_pop w d c (set_stack c []) Hi (pop_run c [] top f Es Ev Ea))).
  pose proof (set_entry_at i w d c d (set_stack c []) Hi) as Hi2. rewrite (bind_eq _ _ _ _ _ (in_context_state i _ d _ Hi2)).
  change (ctx_empty (set_stack c [])) with true. cbv iota. rewrite (kill_reports _ i d _ t Hi2 Et). unfold set_entry. cbn. by rewrite list_insert_insert_eq.
Qed.
End control.

Module control_witness.
Import egraph_witness extract_witness.
#[local] Instance on : Config := {| IMPLICIT_CONSTANT_FOLDING := true |}.
#[local] Instance clause_hash_capture : ClauseHash := fun c => if sc_capture c then 1 else 0.
(** Function 1 starts in block 10, function 2, with a parameter 7, in block 20. *)
#[local] Instance two_functions : LLVMProgram := {|
  program_ir := {| block_insts b := if b =? 20 then [200] else [100; 101]; entry_block fn := if fn =? 2 then 20 else 10; fn_args fn := if fn =? 2 then [7] else []; invoke_dests _ := None |};
  inst_view _ := IOther; value_view _ := VInstruction; block_parent b := if b =? 20 then 2 else 1; fn_empty _ := false; fn_is_intrinsic _ := false;
  fn_return_type _ := LVoid; is_call_or_invoke _ := true; is_call _ := true |}.
#[local] Instance flat_layout : Layout := {|
  layout_pointers := {| getPointerSize := 8 |}; getPointerSizeInBits _ := 64; getTypeAllocSize _ := 8; getTypeStoreSize _ := 8;
  getElementOffset _ i := 8 * i |}.
Definition no_solver : Solver := mkSolver (fun l _ => Ok (mkResult Unknown None, l)) (fun l _ => Ok (mkResult Unknown None, l)).
Definition machine : Machine := mkMachine no_solver 3 (mkMatcher [] [] [] []) 6 4 (fun _ => None) (fun _ => None) (fun _ => raise Thrown) (Ok None)
  (fun _ => mkExtFrame 0 None None [] 0) None.
(** Variables 5 and 6, in block 11 after block 10, behind its first instruction. *)
Definition val (n : Z) : LLVMValue := LLVMValue_of (Expr (cint (APInt_of 8 n))).
Definition frame0 : IRStackFrame := mkIRFrame 0 [] (<[5 := val 1]> (<[6 := val 2]> ∅)) 11 (Some 10) 1 1.
Definition ctx0 : Context := mkContext [mkFrame (Regular frame0) 0] ∅ (MemHeapMgr_ctor true) gl_empty ∅ 0 true eg_empty 0.
Definition world0 : World := mkWorld [mkEntry false ctx0] [] 1.

(** The loop [a = phi [b]; b = phi [a]] meant to swap 5 and 6. *)
Lemma phi_nodes_in_turn_witness : exists w' c',
  (visitPHINode machine 0 5 [(10, 6)] ≫= fun _ => visitPHINode machine 0 6 [(10, 5)]) world0 = (Ok tt, w') /\ at_entry w' 0 false c' /\
  variable c' 5 (val 2) /\ variable c' 6 (val 2).
Proof.
  apply (phi_nodes_in_turn machine world0 0 false ctx0 [] (mkFrame (Regular frame0) 0) frame0 5 6 6 (val 2) (val 1) 10); try reflexivity. discriminate.
Defined.
(** Function 2 has allocated a byte on the stack; another one is on the heap. *)
Definition body : IRStackFrame := mkIRFrame 1 [mkStackAlloc (0, 0) 0] ∅ 20 None 1 2.
Definition ctx2 : Context :=
  set_stack (set_heaps ctx0 context_witness.two_heaps) [mkFrame (Regular frame0) 0; mkFrame (Regular body) 1].
Definition world2 : World := mkWorld [mkEntry false ctx2] [] 2.
Lemma call_and_return_witness : exists callee c3 f',
  interp_call 0 2 [val 3] world0 = (Ok tt, mkWorld [mkEntry false (ctx_push ctx0 (mkFrame (Regular callee) 1))] [] 2) /\
  variables callee !! 7 = Some (val 3) /\
  function_return 0 None world2 = (Ok tt, set_entry 0 world2 (mkEntry false c3)) /\ ctx_stack c3 = [mkFrame (Regular f') 0] /\
  variables f' = variables frame0 /\ live (heaps c3) 0 (1, 0) context_witness.heap_byte /\ ~ live (heaps c3) 0 (0, 0) context_witness.stack_byte.
Proof.
  destruct (call_and_return world0 0 false ctx0 [] (mkFrame (Regular frame0) 0) frame0 0 100 2 [val 3]) as [(callee & E & _ & _ & _ & Hb & _) Hret];
    try reflexivity; [apply NoDup_singleton|].
  destruct (Hret world2 false ctx2 (mkFrame (Regular body) 1) body None) as (c3 & f' & Er & Es & (Ev & _) & _ & _ & Hl); try reflexivity.
  - intros i h. cbn. intros [[<- <-]|[_ Hi]]%lookup_insert_Some; [split; [exact context_witness.two_slots_inv|exact Logic.I]|].
    rewrite lookup_empty in Hi. discriminate Hi.
  - apply NoDup_singleton.
  - apply Forall_singleton. exists context_witness.stack_byte. split; [|reflexivity]. split; [cbn; lia|].
    exists (mkHeap context_witness.two_slots 0 Symbolic). split; reflexivity.
  - exists callee, c3, f'. split; [exact E|]. split; [apply (Hb 0%nat); reflexivity|]. split; [exact Er|]. split; [exact Es|]. split; [exact Ev|]. split.
    + apply Hl. split; [|set_solver]. split; [cbn; lia|]. exists (mkHeap context_witness.two_slots 0 Symbolic). split; reflexivity.
    + intros K. apply Hl in K as [_ K]. apply K. by left.
Defined.
Lemma return_reported_dead_witness : exists t,
  function_return 0 None world0 = (Ok tt, mkWorld [mkEntry true (set_stack ctx0 [])] [PathComplete (set_stack ctx0 []) Dead t] 1).
Proof.
  destruct (Assertion_constant true) as [t|] eqn:Et; [|discriminate Et]. exists t.
  apply (return_reported_dead world0 0 false ctx0 (mkFrame (Regular frame0) 0) frame0 None t); try reflexivity. exact Et.
Defined.
End control_witness.
