(* ===== verification/ValueRoundtrip.v ===== *)
(** LLVM values in memory: what [write_value] stores of a value of a nested
    type, [read_value] reads back.

    A value of an integer, pointer, vector, array or struct type is, in an
    environment, a list of cells: a number of some width at some offset.  The
    cells are the common meaning of the value written, of the bytes of the
    allocation and of the value read. *)
From S2P Require Import Prelude LLVM IRType Value Opcode Operation Matching Create Semantics.
From S2P Require Import Simplifier SimplifierInt SimplifierSound Overflow AtEnv SparseVector Assertions Allocation SlotMap BumpAllocator MemHeap.
From S2P Require Import UnionFind EGraph GraphAssertions Frames Context ValueMemory.
Open Scope Z_scope.

Section llvm_types.
Context (P : llvm_type -> Prop) (HV : P LVoid) (HH : P LHalf) (HF : P LFloat) (HD : P LDouble) (HQ : P LFP128) (HX : P LX86_FP80) (HP : P LPPC_FP128)
  (HI : forall w, P (LInteger w)) (HPtr : forall f a, P (LPointer f a)) (HFn : P LFunction) (HT : P LToken) (HM : P LMetadata) (HL : P LLabel)
  (HA : forall n t, P t -> P (LArray n t)) (HVec : forall n t, P t -> P (LVector n t)) (HS : forall ts, Forall P ts -> P (LStruct ts)) (HO : P LOther).
Fixpoint llvm_type_ind' (t : llvm_type) : P t :=
  match t with
  | LVoid => HV | LHalf => HH | LFloat => HF | LDouble => HD | LFP128 => HQ | LX86_FP80 => HX | LPPC_FP128 => HP
  | LInteger w => HI w | LPointer f a => HPtr f a | LFunction => HFn | LToken => HT | LMetadata => HM | LLabel => HL
  | LArray n t => HA n t (llvm_type_ind' t) | LVector n t => HVec n t (llvm_type_ind' t)
  | LStruct ts => HS ts ((fix go ts : Forall P ts := match ts with [] => Forall_nil_2 _ | t :: ts => Forall_cons_2 _ _ _ (llvm_type_ind' t) (go ts) end) ts)
  | LOther => HO
  end.
End llvm_types.

Section roundtrip.
Context `{PtrEq} `{MathExtrasAPI} `{Config} `{Layout}.
Context (e : Env) (w : Z) (mgr : MemHeapMgr).

(** ** Cells *)
Record Cell : Set := mkCell { cell_at : Z; cell_width : Z; cell_value : Z }.
Definition cell_in (bs : list (option APInt)) (c : Cell) : Prop :=
  has_bytes bs (cell_at c) (le_bytes (Z.to_nat (divceil (cell_width c) 8)) (cell_value c)).
Definition cell_range (lo hi : Z) (c : Cell) : Prop := lo <= cell_at c /\ cell_at c + divceil (cell_width c) 8 <= hi.
Definition readable (k : Z) : Prop := good_width k /\ k + 8 <= 2 ^ 24.

(** A scalar expression of [k] bits, at offset [o]. *)
Definition num_cell (k : Z) (x : Operation) (o : Z) (cs : list Cell) : Prop :=
  exists V, readable k /\ ival e k x V /\ 0 <= V < 2 ^ k /\ cs = [mkCell o k V].
Definition scalar_cells (t : llvm_type) (s : LLVMScalar) (o : Z) (cs : list Cell) : Prop :=
  match t with
  | LInteger k => exists x, s = Expr x /\ num_cell k x o cs
  | LPointer _ _ => exists p x, s = Ptr p /\ ptr_value_in p mgr = Ok x /\ num_cell (getPointerSizeInBits 0) x o cs
  | _ => False
  end.
(** Elements [vs], the first of which has index [i]. *)
Section elements.
Context {A : Type} (enc : A -> Z -> list Cell -> Prop) (stride o : Z).
Fixpoint elements_cells (i : Z) (vs : list A) (cs : list Cell) : Prop :=
  match vs with
  | [] => cs = []
  | v :: vs => exists c1 c2, cs = c1 ++ c2 /\ enc v (o + i * stride) c1 /\ elements_cells (i + 1) vs c2
  end.
End elements.
Fixpoint cells (t : llvm_type) (v : LLVMValue) (o : Z) (cs : list Cell) : Prop :=
  match t with
  | LInteger _ | LPointer _ _ => exists s, v = LLVMValue_of s /\ scalar_cells t s o cs
  | LArray n elem => exists ms, v = Aggregate ms /\ Z.of_nat (length ms) = n /\ elements_cells (cells elem) (getTypeAllocSize elem) o 0 ms cs
  | LVector n elem => exists ss, v = Vector ss /\ Z.of_nat (length ss) = n /\ elements_cells (scalar_cells elem) (getTypeAllocSize elem) o 0 ss cs
  | LStruct elems => exists ms, v = Aggregate ms /\ length ms = length elems /\
      (fix members (elems : list llvm_type) (k : Z) (ms : list LLVMValue) (cs : list Cell) : Prop :=
         match elems, ms with
         | elem :: elems, v :: ms => exists c1 c2, cs = c1 ++ c2 /\ cells elem v (o + k) c1 /\ members elems (k + getTypeAllocSize elem) ms c2
         | _, _ => cs = []
         end) elems 0 ms cs
  | _ => False
  end.
Section members.
Context (o : Z).
Fixpoint members_cells (elems : list llvm_type) (k : Z) (ms : list LLVMValue) (cs : list Cell) : Prop :=
  match elems, ms with
  | elem :: elems, v :: ms => exists c1 c2, cs = c1 ++ c2 /\ cells elem v (o + k) c1 /\ members_cells elems (k + getTypeAllocSize elem) ms c2
  | _, _ => cs = []
  end.
End members.
Lemma cells_struct elems v o cs : cells (LStruct elems) v o cs <->
  exists ms, v = Aggregate ms /\ length ms = length elems /\ members_cells o elems 0 ms cs.
Proof. done. Qed.

(** ** The bytes a type takes, and types whose elements fit in their slots *)
Definition sizes (elems : list llvm_type) : Z := foldr Z.add 0 (getTypeAllocSize <$> elems).
Definition span (t : llvm_type) : Z :=
  match t with
  | LInteger k => divceil k 8
  | LPointer _ _ => divceil (getPointerSizeInBits 0) 8
  | LArray n elem | LVector n elem => n * getTypeAllocSize elem
  | LStruct elems => sizes elems
  | _ => 0
  end.
Fixpoint fits (t : llvm_type) : Prop :=
  match t with
  | LArray n elem | LVector n elem => 0 <= n /\ fits elem /\ 0 <= span elem <= getTypeAllocSize elem
  | LStruct elems =>
      (fix all (elems : list llvm_type) : Prop :=
         match elems with [] => True | t :: elems => (fits t /\ 0 <= span t <= getTypeAllocSize t) /\ all elems end) elems
  | _ => True
  end.
Lemma fits_struct elems : fits (LStruct elems) <-> Forall (fun t => fits t /\ 0 <= span t <= getTypeAllocSize t) elems.
Proof. induction elems as [|t ts IH]; [done|]. rewrite Forall_cons. cbn in *. by rewrite IH. Qed.
Lemma sizes_nonneg elems : fits (LStruct elems) -> 0 <= sizes elems.
Proof. rewrite fits_struct. unfold sizes. induction 1 as [|t ts [_ ?] _ IH]; cbn; lia. Qed.

(** ** Accesses to a part of the range *)
Lemma access_part data off bs o n k m :
  access e w data off bs o n -> 0 <= k -> k + m <= n ->
  exists off', IntOp_Create_ri simplify OpAdd off k = Ok off' /\ access e w data off' bs (o + k) m.
Proof.
  intros [] Hk Hm. destruct (add_ri_at e w off o k access_offset) as (off' & E & Ho). exists off'. split; [done|]. split; try done; lia.
Qed.
Lemma access_shorter data off bs o n m : access e w data off bs o n -> m <= n -> access e w data off bs o m.
Proof. intros [] ?. split; try done; lia. Qed.

(** *** Writing: what a write at offset [o] of [n] bytes does *)
Definition unchanged (lo hi : Z) (bs bs' : list (option APInt)) : Prop :=
  length bs' = length bs /\ forall j, Z.of_nat j < lo \/ hi <= Z.of_nat j -> bs' !! j = bs !! j.
Record wrote (a a' : Allocation) (bs bs' : list (option APInt)) (o n : Z) (cs : list Cell) : Prop := {
  wrote_data : with_data a a';
  wrote_array : aval e w (data_ a') bs';
  wrote_cells : Forall (cell_in bs') cs;
  wrote_range : Forall (cell_range o (o + n)) cs;
  wrote_frame : unchanged o (o + n) bs bs'
}.
Lemma cell_unchanged bs bs' lo hi c : unchanged lo hi bs bs' -> (forall z, 0 <= z -> cell_at c <= z < cell_at c + divceil (cell_width c) 8 -> z < lo \/ hi <= z) ->
  0 <= cell_at c -> cell_in bs c -> cell_in bs' c.
Proof.
  intros [_ Hu] Hr Hc Hin j b Hj. assert (Z.of_nat j < divceil (cell_width c) 8) as Hlt.
  { apply lookup_lt_Some in Hj. rewrite le_bytes_length in Hj. lia. }
  rewrite Hu; [by apply Hin|]. rewrite Z2Nat.id by lia. apply Hr; lia.
Qed.
Lemma wrote_nothing a bs o n : aval e w (data_ a) bs -> wrote a a bs bs o n [].
Proof. intros Ha. split; try done. by destruct a. Qed.
(** One more write, after what was written. *)
Lemma wrote_more a a1 a2 bs bs1 bs2 o k n c1 c2 :
  0 <= o -> 0 <= k -> 0 <= n -> wrote a a1 bs bs1 o k c1 -> wrote a1 a2 bs1 bs2 (o + k) n c2 -> wrote a a2 bs bs2 o (k + n) (c1 ++ c2).
Proof.
  intros Ho Hk Hn [Hd1 _ Hc1 Hr1 Hu1] [Hd2 Ha2 Hc2 Hr2 Hu2]. split; [|done| | |].
  - unfold with_data in *. rewrite Hd2, Hd1. done.
  - apply Forall_app. split; [|done]. rewrite Forall_forall in *. intros c Hc. specialize (Hc1 c Hc). specialize (Hr1 c Hc) as [? ?].
    eapply cell_unchanged; [done| |lia|done]. intros z _ ?. lia.
  - apply Forall_app. split; [eapply Forall_impl; [exact Hr1|]|eapply Forall_impl; [exact Hr2|]]; intros c [? ?]; split; lia.
  - destruct Hu1 as [Hl1 Hu1], Hu2 as [Hl2 Hu2]. split; [congruence|]. intros j Hj. rewrite Hu2, Hu1; [done| |]; lia.
Qed.
Lemma wrote_wider a a' bs bs' o n m cs : n <= m -> wrote a a' bs bs' o n cs -> wrote a a' bs bs' o m cs.
Proof.
  intros Hm [? ? ? Hr [Hl Hu]]. split; try done.
  - eapply Forall_impl; [exact Hr|]. intros c [? ?]. split; lia.
  - split; [done|]. intros j Hj. apply Hu. lia.
Qed.
Lemma wrote_access a a' bs bs' off o n k cs : access e w (data_ a) off bs o n -> wrote a a' bs bs' o k cs -> access e w (data_ a') off bs' o n.
Proof. intros Ha [_ Hd _ _ [Hl _]]. by eapply access_data_change. Qed.
Lemma wrote_perms a a' bs bs' o n cs : wrote a a' bs bs' o n cs -> perms_ a' = perms_ a.
Proof. intros [Hd _ _ _ _]. by rewrite Hd. Qed.
(** A write of [sp] bytes in the slot of [m] bytes at [k], in a loop. *)
Lemma step_write (f : Operation -> result Allocation) a0 a bs0 bs off o n k m sp done c1 :
  access e w (data_ a0) off bs0 o n -> wrote a0 a bs0 bs o k done -> 0 <= k -> 0 <= sp <= m -> k + m <= n ->
  (forall off', access e w (data_ a) off' bs (o + k) sp -> exists a' bs', f off' = Ok a' /\ wrote a a' bs bs' (o + k) sp c1) ->
  exists off' a' bs', IntOp_Create_ri simplify OpAdd off k = Ok off' /\ f off' = Ok a' /\ wrote a0 a' bs0 bs' o (k + m) (done ++ c1).
Proof.
  intros Ha Hw Hk Hsp Hn Hf. destruct (access_part _ _ _ _ _ k sp (wrote_access _ _ _ _ _ _ _ _ _ Ha Hw)) as (off' & E & Ha'); [lia..|].
  destruct (Hf off' Ha') as (a' & bs' & E' & Hw'). exists off', a', bs'. split_and!; [done|done|].
  apply (wrote_more a0 a a' bs0 bs bs' o k m); [apply Ha|lia|lia|done|]. eapply wrote_wider; [|exact Hw']. lia.
Qed.
Lemma slot_offset elem i data off bs o n : access e w data off bs o n -> 0 <= i * getTypeAllocSize elem <= n -> elem_offset elem i = i * getTypeAllocSize elem.
Proof. intros [] ?. apply wrap_small. unfold SIZE_MAX in *. lia. Qed.

Lemma write_num a off bs o k x cs : has_perm (perms_ a) PermWrite = true -> num_cell k x o cs -> access e w (data_ a) off bs o (divceil k 8) ->
  exists a' bs', write a off x = Ok a' /\ wrote a a' bs bs' o (divceil k 8) cs.
Proof.
  intros Hp (V & [Hk Hk8] & Hx & HV & ->) Ha. destruct (write_encodes e w a off bs o k x V) as (a' & bs' & E & Hd & Hav & Hl & Hb & Hu); try done.
  exists a', bs'. split; [done|]. split; try done; repeat constructor; cbn; [done|lia|lia].
Qed.
Lemma write_scalar_cells t s a off bs o cs : has_perm (perms_ a) PermWrite = true -> scalar_cells t s o cs -> access e w (data_ a) off bs o (span t) ->
  exists a' bs', write_scalar a off s mgr = Ok a' /\ wrote a a' bs bs' o (span t) cs.
Proof.
  intros Hp Hs Ha. destruct t; try done; cbn in Hs.
  - destruct Hs as (x & -> & Hx). by eapply write_num.
  - destruct Hs as (p & x & -> & Ex & Hx). cbn [write_scalar]. rewrite Ex, ok_bind. by eapply write_num.
Qed.
Section loops.
Context (a0 : Allocation) (off : Operation) (bs0 : list (option APInt)) (o n : Z).
Context (writable : has_perm (perms_ a0) PermWrite = true) (inside : access e w (data_ a0) off bs0 o n).
Lemma write_scalars_cells elem vs i a bs done cs : 0 <= span elem <= getTypeAllocSize elem -> 0 <= i ->
  (i + Z.of_nat (length vs)) * getTypeAllocSize elem <= n ->
  wrote a0 a bs0 bs o (i * getTypeAllocSize elem) done -> elements_cells (scalar_cells elem) (getTypeAllocSize elem) o i vs cs ->
  exists a' bs', write_scalars a elem off i vs mgr = Ok a' /\
    wrote a0 a' bs0 bs' o ((i + Z.of_nat (length vs)) * getTypeAllocSize elem) (done ++ cs).
Proof using All.
  intros Hsp. revert i a bs done cs. induction vs as [|v vs IH]; intros i a bs done cs Hi Hn Hw; cbn [elements_cells write_scalars length].
  { intros ->. exists a, bs. by rewrite Z.add_0_r, app_nil_r. }
  intros (c1 & c2 & -> & Hv & Hvs). cbn [length] in Hn. rewrite (slot_offset elem i _ _ _ _ _ inside) by nia.
  destruct (step_write (fun off' => write_scalar a off' v mgr) a0 a bs0 bs off o n (i * getTypeAllocSize elem) (getTypeAllocSize elem) (span elem) done c1)
    as (off' & a1 & bs1 & -> & E1 & Hw1); try done; [nia|nia| |].
  { intros off' Ha. apply write_scalar_cells; [by rewrite (wrote_perms _ _ _ _ _ _ _ Hw)|done|done]. }
  rewrite ok_bind, E1, ok_bind. destruct (IH (i + 1) a1 bs1 (done ++ c1) c2) as (a' & bs' & E' & Hw'); [lia|lia| |done|].
  { by replace ((i + 1) * getTypeAllocSize elem) with (i * getTypeAllocSize elem + getTypeAllocSize elem) by lia. }
  exists a', bs'. split; [done|]. rewrite <- app_assoc in Hw'. by replace (i + Z.of_nat (S (length vs))) with (i + 1 + Z.of_nat (length vs)) by lia.
Qed.
(** Values of type [t] are written as their cells. *)
Definition writes (t : llvm_type) : Prop := forall a off bs o v cs,
  has_perm (perms_ a) PermWrite = true -> fits t -> access e w (data_ a) off bs o (span t) -> cells t v o cs ->
  exists a' bs', write_value t mgr a off v = Ok a' /\ wrote a a' bs bs' o (span t) cs.
Lemma write_elements_cells elem vs i a bs done cs : writes elem -> fits elem -> 0 <= span elem <= getTypeAllocSize elem -> 0 <= i ->
  (i + Z.of_nat (length vs)) * getTypeAllocSize elem <= n ->
  wrote a0 a bs0 bs o (i * getTypeAllocSize elem) done -> elements_cells (cells elem) (getTypeAllocSize elem) o i vs cs ->
  exists a' bs', write_elements (write_value elem mgr) elem off a i vs = Ok a' /\
    wrote a0 a' bs0 bs' o ((i + Z.of_nat (length vs)) * getTypeAllocSize elem) (done ++ cs).
Proof using All.
  intros Hel Hfit Hsp. revert i a bs done cs. induction vs as [|v vs IH]; intros i a bs done cs Hi Hn Hw; cbn [elements_cells write_elements length].
  { intros ->. exists a, bs. by rewrite Z.add_0_r, app_nil_r. }
  intros (c1 & c2 & -> & Hv & Hvs). cbn [length] in Hn. rewrite (slot_offset elem i _ _ _ _ _ inside) by nia.
  destruct (step_write (fun off' => write_value elem mgr a off' v) a0 a bs0 bs off o n (i * getTypeAllocSize elem) (getTypeAllocSize elem) (span elem) done c1)
    as (off' & a1 & bs1 & -> & E1 & Hw1); try done; [nia|nia| |].
  { intros off' Ha. apply Hel; [by rewrite (wrote_perms _ _ _ _ _ _ _ Hw)|done..]. }
  rewrite ok_bind, E1, ok_bind. destruct (IH (i + 1) a1 bs1 (done ++ c1) c2) as (a' & bs' & E' & Hw'); [lia|lia| |done|].
  { by replace ((i + 1) * getTypeAllocSize elem) with (i * getTypeAllocSize elem + getTypeAllocSize elem) by lia. }
  exists a', bs'. split; [done|]. rewrite <- app_assoc in Hw'. by replace (i + Z.of_nat (S (length vs))) with (i + 1 + Z.of_nat (length vs)) by lia.
Qed.
Fixpoint write_members (elems : list llvm_type) (elem_off : Z) (a : Allocation) (ms : list LLVMValue) : result Allocation :=
  match elems, ms with
  | elem :: elems, v :: ms =>
      o ← IntOp_Create_ri simplify OpAdd off elem_off; a ← write_value elem mgr a o v;
      write_members elems (wrap 64 (elem_off + getTypeAllocSize elem)) a ms
  | _, _ => Ok a
  end.
Lemma write_members_cells elems ms k a bs done cs : Forall writes elems -> fits (LStruct elems) -> 0 <= k ->
  k + sizes elems <= n -> length ms = length elems -> wrote a0 a bs0 bs o k done -> members_cells o elems k ms cs ->
  exists a' bs', write_members elems k a ms = Ok a' /\ wrote a0 a' bs0 bs' o (k + sizes elems) (done ++ cs).
Proof using All.
  intros Hel. revert ms k a bs done cs. induction Hel as [|t ts Ht _ IH]; intros [|v ms] k a bs done cs Hfit Hk Hn Hl Hw; try discriminate Hl.
  { cbn. intros ->. exists a, bs. by rewrite Z.add_0_r, app_nil_r. }
  cbn [members_cells write_members]. intros (c1 & c2 & -> & Hv & Hvs). destruct Hfit as [[Hft Hsp] Hfits]. change (fits (LStruct ts)) in Hfits.
  change (sizes (t :: ts)) with (getTypeAllocSize t + sizes ts) in *. pose proof (sizes_nonneg ts Hfits) as Hs.
  destruct (step_write (fun off' => write_value t mgr a off' v) a0 a bs0 bs off o n k (getTypeAllocSize t) (span t) done c1)
    as (off' & a1 & bs1 & -> & E1 & Hw1); try done; [lia| |].
  { intros off' Ha. apply Ht; [by rewrite (wrote_perms _ _ _ _ _ _ _ Hw)|done..]. }
  rewrite ok_bind, E1, ok_bind. rewrite wrap_small by (destruct inside; unfold SIZE_MAX in *; lia).
  destruct (IH ms (k + getTypeAllocSize t) a1 bs1 (done ++ c1) c2) as (a' & bs' & E' & Hw'); [done|lia|lia|by injection Hl|done|done|].
  exists a', bs'. split; [done|]. rewrite <- app_assoc in Hw'. by rewrite Z.add_assoc.
Qed.
End loops.
Lemma write_one t s a off bs o cs : has_perm (perms_ a) PermWrite = true -> 0 <= span t -> scalar_cells t s o cs -> access e w (data_ a) off bs o (span t) ->
  exists a' bs', write_scalars a t off 0 [s] mgr = Ok a' /\ wrote a a' bs bs' o (span t) cs.
Proof.
  intros Hp Hsp Hs Ha. cbn [write_scalars]. assert (elem_offset t 0 = 0) as -> by (unfold elem_offset; by rewrite Z.mul_0_l, (wrap_small 64)).
  destruct (step_write (fun off' => write_scalar a off' s mgr) a a bs bs off o (span t) 0 (span t) (span t) [] cs)
    as (off' & a' & bs' & -> & E & Hw); try done; try lia; [apply wrote_nothing, Ha| |].
  { rewrite Z.add_0_r. intros off' Ha'. by apply write_scalar_cells. }
  rewrite ok_bind, E. exists a', bs'. split; [done|exact Hw].
Qed.
Lemma readable_span k : readable k -> 0 <= divceil k 8.
Proof. intros [Hk _]. destruct (byte_size_int k Hk) as (_ & ?). destruct Hk. lia. Qed.
Lemma scalar_span t s o cs : scalar_cells t s o cs -> 0 <= span t.
Proof. destruct t; try done; cbn; [intros (x & _ & V & Hr & _)|intros (p & x & _ & _ & V & Hr & _)]; by apply readable_span. Qed.
Lemma write_value_cells t : writes t.
Proof.
  induction t as [| | | | | | |k|fn sp| | | | |n t IHt|n t IHt|ts IHts|] using llvm_type_ind'; intros a off bs o v cs Hp Hfit Ha; try done.
  - intros (s & -> & Hs). cbn [write_value LLVMValue_of]. rewrite Hp. cbn [negb]. apply write_one; [done|by eapply scalar_span|done|done].
  - intros (s & -> & Hs). cbn [write_value LLVMValue_of]. rewrite Hp. cbn [negb]. apply write_one; [done|by eapply scalar_span|done|done].
  - intros (ms & -> & Hl & Hms). destruct Hfit as (Hn & Hfit & Hsp). cbn [write_value]. rewrite Hp. cbn [negb]. rewrite Hl, Z.eqb_refl. run_ok.
    destruct (write_elements_cells a off bs o _ Hp Ha t ms 0 a bs [] cs) as (a' & bs' & E & Hw); try done; cbn [span]; [lia|apply wrote_nothing, Ha|].
    exists a', bs'. split; [done|]. by rewrite Z.add_0_l, Hl in Hw.
  - intros (ss & -> & Hl & Hss). destruct Hfit as (Hn & Hfit & Hsp). cbn [write_value]. rewrite Hp. cbn [negb]. rewrite Hl, Z.eqb_refl. run_ok.
    destruct (write_scalars_cells a off bs o _ Hp Ha t ss 0 a bs [] cs) as (a' & bs' & E & Hw); try done; cbn [span]; [lia|apply wrote_nothing, Ha|].
    exists a', bs'. split; [done|]. by rewrite Z.add_0_l, Hl in Hw.
  - rewrite cells_struct. intros (ms & -> & Hl & Hms). cbn [write_value]. rewrite Hp. cbn [negb]. rewrite Hl, Z.eqb_refl. run_ok.
    destruct (write_members_cells a off bs o _ Hp Ha ts ms 0 a bs [] cs) as (a' & bs' & E & Hw); try done; cbn [span]; [apply wrote_nothing, Ha|].
    exists a', bs'. split; [exact E|exact Hw].
Qed.

(** *** Reading *)
Lemma read_num a off bs o k x cs : has_perm (perms_ a) PermRead = true -> num_cell k x o cs -> access e w (data_ a) off bs o (divceil k 8) ->
  Forall (cell_in bs) cs -> exists x', read a off (ity k) = Ok x' /\ num_cell k x' o cs.
Proof.
  intros Hp (V & Hr & Hx & HV & ->) Ha Hc. pose proof (readable_span k Hr). pose proof Hr as [Hk Hk8]. apply Forall_cons in Hc as [Hc _].
  destruct (byte_size_int k Hk) as (_ & Hn).
  destruct (read_at e w a off bs o k (le_bytes (Z.to_nat (divceil k 8)) V)) as (x' & E & Hx'); try done; [rewrite le_bytes_length; lia|apply le_bytes_range|].
  exists x'. split; [done|]. exists V. split_and!; try done; [|lia|lia]. rewrite le_roundtrip in Hx'. rewrite Z.mod_small in Hx'; [done|].
  rewrite Z2Nat.id, pow256_bits by lia. assert (2 ^ k <= 2 ^ (8 * divceil k 8)) by (apply Z.pow_le_mono_r; lia). lia.
Qed.
Definition reads (t : llvm_type) : Prop := forall a off bs o v cs,
  has_perm (perms_ a) PermRead = true -> fits t -> access e w (data_ a) off bs o (span t) -> cells t v o cs -> Forall (cell_in bs) cs ->
  exists v', read_value a t off = Ok v' /\ cells t v' o cs.
Lemma num_int k x o cs : num_cell k x o cs -> is_int (op_type x) = true.
Proof. intros (V & _ & (_ & -> & _ & _) & _). done. Qed.
Lemma read_scalar_cells t s a off bs o cs : has_perm (perms_ a) PermRead = true -> scalar_cells t s o cs -> access e w (data_ a) off bs o (span t) ->
  Forall (cell_in bs) cs -> exists s', read_value a t off = Ok (LLVMValue_of s') /\ scalar_cells t s' o cs.
Proof.
  intros Hp Hs Ha Hc. destruct t as [| | | | | | |k|f sp| | | | | | | |]; try done; cbn in Hs; cbn [read_value span] in *; rewrite Hp; cbn [negb].
  - destruct Hs as (x & -> & Hx). destruct (read_num a off bs o k x cs Hp Hx Ha Hc) as (x' & E & Hx').
    destruct Hx as (V & [Hk _] & _). change (from_llvm (LInteger k)) with (int_ty k). rewrite int_ty_good by done. run_ok. rewrite E, ok_bind.
    exists (Expr x'). split; [done|]. by exists x'.
  - destruct Hs as (p & x & -> & _ & Hx). destruct (read_num a off bs o _ x cs Hp Hx Ha Hc) as (x' & E & Hx').
    destruct Hx as (V & [Hk _] & _). rewrite int_ty_good by done. run_ok. rewrite E, ok_bind. unfold Pointer_abs, Pointer_ctor.
    rewrite (num_int _ _ _ _ Hx'). run_ok. eexists (Ptr _). split; [done|]. by eexists _, x'.
Qed.
Section read_loops.
Context (a : Allocation) (off : Operation) (bs : list (option APInt)) (o n : Z).
Context (may_read : has_perm (perms_ a) PermRead = true) (inside : access e w (data_ a) off bs o n).
Lemma read_elements_cells {A} (enc : A -> Z -> list Cell -> Prop) (val : A -> LLVMValue) elem vs i cs :
  (forall off' o' v c, access e w (data_ a) off' bs o' (span elem) -> enc v o' c -> Forall (cell_in bs) c ->
     exists v', read_value a elem off' = Ok (val v') /\ enc v' o' c) ->
  0 <= span elem <= getTypeAllocSize elem -> 0 <= i -> (i + Z.of_nat (length vs)) * getTypeAllocSize elem <= n ->
  elements_cells enc (getTypeAllocSize elem) o i vs cs -> Forall (cell_in bs) cs ->
  exists vs', read_elements (read_value a elem) elem off i (length vs) = Ok (val <$> vs') /\ length vs' = length vs /\
    elements_cells enc (getTypeAllocSize elem) o i vs' cs.
Proof using All.
  intros Hrd Hsp. revert i cs. induction vs as [|v vs IH]; intros i cs Hi Hn; cbn [elements_cells read_elements length].
  { intros -> _. by exists []. }
  intros (c1 & c2 & -> & Hv & Hvs) [Hc1 Hc2]%Forall_app. cbn [length] in Hn. rewrite (slot_offset elem i _ _ _ _ _ inside) by nia.
  destruct (access_part _ _ _ _ _ (i * getTypeAllocSize elem) (span elem) inside) as (off' & -> & Ha'); [nia..|]. rewrite ok_bind.
  destruct (Hrd off' _ v c1 Ha' Hv Hc1) as (v' & -> & Hv'). rewrite ok_bind.
  destruct (IH (i + 1) c2) as (vs' & -> & Hl & Hvs'); [lia|lia|done|done|]. rewrite ok_bind.
  exists (v' :: vs'). split_and!; [done|cbn; lia|]. by exists c1, c2.
Qed.
Fixpoint read_members (elems : list llvm_type) (elem_off : Z) : result (list LLVMValue) :=
  match elems with
  | [] => Ok []
  | elem :: elems =>
      newoffset ← IntOp_Create_ri simplify OpAdd off elem_off;
      m ← read_value a elem newoffset; ms ← read_members elems (wrap 64 (elem_off + getTypeAllocSize elem)); Ok (m :: ms)
  end.
Lemma read_members_cells elems ms k cs : Forall reads elems -> fits (LStruct elems) -> 0 <= k -> k + sizes elems <= n -> length ms = length elems ->
  members_cells o elems k ms cs -> Forall (cell_in bs) cs ->
  exists ms', read_members elems k = Ok ms' /\ length ms' = length elems /\ members_cells o elems k ms' cs.
Proof using All.
  intros Hel. revert ms k cs. induction Hel as [|t ts Ht _ IH]; intros [|v ms] k cs Hfit Hk Hn Hl; try discriminate Hl.
  { cbn. intros -> _. by exists []. }
  cbn [members_cells read_members]. intros (c1 & c2 & -> & Hv & Hvs) [Hc1 Hc2]%Forall_app. destruct Hfit as [[Hft Hsp] Hfits]. change (fits (LStruct ts)) in Hfits.
  change (sizes (t :: ts)) with (getTypeAllocSize t + sizes ts) in *. pose proof (sizes_nonneg ts Hfits) as Hs.
  destruct (access_part _ _ _ _ _ k (span t) inside) as (off' & -> & Ha'); [lia..|]. rewrite ok_bind.
  destruct (Ht a off' bs (o + k) v c1 may_read Hft Ha' Hv Hc1) as (v' & -> & Hv'). rewrite ok_bind.
  rewrite wrap_small by (destruct inside; unfold SIZE_MAX in *; lia).
  destruct (IH ms (k + getTypeAllocSize t) c2) as (ms' & -> & Hl' & Hms'); [done|lia|lia|by injection Hl|done|done|]. rewrite ok_bind.
  exists (v' :: ms'). split_and!; [done|cbn; lia|]. by exists c1, c2.
Qed.
End read_loops.
Lemma scalars_back ss : mapM value_scalar (LLVMValue_of <$> ss) = Ok ss.
Proof. induction ss as [|s ss IH]; [done|]. cbn. cbn in IH. by rewrite IH. Qed.
Lemma read_value_cells t : reads t.
Proof.
  induction t as [| | | | | | |k|fn sp| | | | |n t IHt|n t IHt|ts IHts|] using llvm_type_ind'; intros a off bs o v cs Hp Hfit Ha; try done.
  - intros (s & -> & Hs) Hc. destruct (read_scalar_cells _ s a off bs o cs Hp Hs Ha Hc) as (s' & E & Hs'). eexists. split; [exact E|]. by exists s'.
  - intros (s & -> & Hs) Hc. destruct (read_scalar_cells _ s a off bs o cs Hp Hs Ha Hc) as (s' & E & Hs'). eexists. split; [exact E|]. by exists s'.
  - intros (ms & -> & Hl & Hms) Hc. destruct Hfit as (Hn & Hfit & Hsp). cbn [read_value]. rewrite Hp. cbn [negb].
    destruct (read_elements_cells a off bs o _ Hp Ha (cells t) id t ms 0 cs) as (ms' & E & Hl' & Hms'); try done; [|cbn [span]; lia|].
    { intros off' o' v c Ha' Hv Hc'. by apply (IHt a off' bs o' v c). }
    rewrite <- Hl, Nat2Z.id, E, ok_bind. eexists. split; [done|]. rewrite list_fmap_id. exists ms'. by rewrite Hl'.
  - intros (ss & -> & Hl & Hss) Hc. destruct Hfit as (Hn & Hfit & Hsp). cbn [read_value]. rewrite Hp. cbn [negb].
    destruct (read_elements_cells a off bs o _ Hp Ha (scalar_cells t) LLVMValue_of t ss 0 cs) as (ss' & E & Hl' & Hss'); try done; [|cbn [span]; lia|].
    { intros off' o' s c Ha' Hs Hc'. by apply (read_scalar_cells t s a off' bs o' c). }
    rewrite <- Hl, Nat2Z.id, E, ok_bind, scalars_back, ok_bind. eexists. split; [done|]. exists ss'. by rewrite Hl'.
  - rewrite cells_struct. intros (ms & -> & Hl & Hms) Hc. cbn [read_value]. rewrite Hp. cbn [negb].
    destruct (read_members_cells a off bs o _ Hp Ha ts ms 0 cs) as (ms' & E & Hl' & Hms'); try done.
    fold (read_members a off). rewrite E, ok_bind. eexists. split; [done|]. rewrite cells_struct. by exists ms'.
Qed.
End roundtrip.

(** A value of a nested type that is written to an allocation is read back: the
    write succeeds, the value read has the type (the same shape, with scalars
    and pointers where the type has them) and, in the environment, the same
    number in every place; the bytes before and after are not changed.  The
    elements of the type have to fit in the slots of the data layout. *)
Theorem value_write_read_roundtrip `{PtrEq} `{MathExtrasAPI} `{Config} `{Layout} (e : Env) (w : Z) (mgr : MemHeapMgr)
    (a : Allocation) (off : Operation) (bs : list (option APInt)) (o : Z) (t : llvm_type) (v : LLVMValue) (cs : list Cell) :
  has_perm (perms_ a) PermRead = true -> has_perm (perms_ a) PermWrite = true ->
  fits t -> access e w (data_ a) off bs o (span t) -> cells e mgr t v o cs ->
  exists a' bs' v', write_value t mgr a off v = Ok a' /\ read_value a' t off = Ok v' /\ cells e mgr t v' o cs /\
    with_data a a' /\ aval e w (data_ a') bs' /\ unchanged o (o + span t) bs bs'.
Proof.
  intros Hr Hp Hfit Ha Hv. destruct (write_value_cells e w mgr t a off bs o v cs Hp Hfit Ha Hv) as (a' & bs' & E & Hw).
  destruct (read_value_cells e w mgr t a' off bs' o v cs) as (v' & E' & Hv'); try done.
  - by rewrite (wrote_perms _ _ _ _ _ _ _ _ _ Hw).
  - by eapply wrote_access.
  - apply Hw.
  - exists a', bs', v'. split_and!; try done; apply Hw.
Qed.

(** A struct of a 13-bit and an 8-bit integer, packed. *)
Module roundtrip_witness.
Import allocation_witness.
#[local] Instance on : Config := {| IMPLICIT_CONSTANT_FOLDING := true |}.
#[local] Instance packed : Layout := {|
  layout_pointers := {| getPointerSize := 8 |}; getPointerSizeInBits _ := 64;
  getTypeAllocSize t := match t with LInteger k => divceil k 8 | _ => 8 end; getTypeStoreSize _ := 8; getElementOffset _ i := 8 * i |}.
Definition pair_type : llvm_type := LStruct [LInteger 13; LInteger 8].
Definition pair : LLVMValue := Aggregate [LLVMValue_of (Expr (sym 13 "v")); LLVMValue_of (Expr (sym 8 "i"))].
Definition pair_cells : list Cell := [mkCell 1 13 4660; mkCell 3 8 1].
Lemma num_at w s v o : readable w -> denote env (sym w s) = Some (DInt (APInt_of w v)) -> 0 <= v < 2 ^ w -> num_cell env w (sym w s) o [mkCell o w v].
Proof. intros Hw Hd Hv. exists v. split_and!; try done; try apply Hv. apply sym_at; [apply Hw|done]. Qed.
Lemma pair_at : cells env (MemHeapMgr_ctor true) pair_type pair 1 pair_cells.
Proof.
  exists [LLVMValue_of (Expr (sym 13 "v")); LLVMValue_of (Expr (sym 8 "i"))]. split_and!; [done|done|].
  exists [mkCell 1 13 4660], [mkCell 3 8 1]. split_and!; [done| |].
  - eexists. split; [done|]. eexists. split; [done|]. apply num_at; [done|vm_decide|done].
  - exists [mkCell 3 8 1], []. split_and!; [done| |done]. eexists. split; [done|]. eexists. split; [done|]. apply (num_at 8); [done|vm_decide|done].
Qed.
Lemma pair_access : access env 8 (data_ alloc4) (sym 8 "i") bytes4 1 (span pair_type).
Proof. destruct four_access. by split. Qed.
Lemma value_write_read_roundtrip_witness : exists a' bs' v', write_value pair_type (MemHeapMgr_ctor true) alloc4 (sym 8 "i") pair = Ok a' /\
  read_value a' pair_type (sym 8 "i") = Ok v' /\ cells env (MemHeapMgr_ctor true) pair_type v' 1 pair_cells /\
  with_data alloc4 a' /\ aval env 8 (data_ a') bs' /\ unchanged 1 (1 + span pair_type) bytes4 bs'.
Proof.
  apply (value_write_read_roundtrip env 8 (MemHeapMgr_ctor true) alloc4 (sym 8 "i") bytes4 1 pair_type pair pair_cells).
  - reflexivity.
  - reflexivity.
  - repeat split; vm_compute; discriminate.
  - exact pair_access.
  - exact pair_at.
Defined.
End roundtrip_witness.
