(* ===== verification/MemoryAccess.v ===== *)
(** Memory through the execution context: what the interpreter writes through a
    resolved pointer it reads back through every pointer to the same place, and
    no other allocation changes. *)
From S2P Require Import Prelude LLVM IRType Value Opcode Operation Matching Create Semantics.
From S2P Require Import Simplifier SimplifierInt SimplifierSound Overflow AtEnv ModelEval SparseVector Assertions Slicer Solvers Allocation SlotMap BumpAllocator MemHeap.
From S2P Require Import UnionFind EGraph EGraphRebuild Extract GraphAssertions Frames Context ValueMemory Constprop EMatching Effects OperationBuilder InterpreterContext ValueRoundtrip.
Open Scope Z_scope.

Section memory.
Context `{PtrEq} `{!DataPtrEq} `{MapOrder} `{MathExtrasAPI} `{Config} `{HashOrder} `{!LLVMProgram} `{Layout}.

(** The allocation a heap and an id name. *)
Definition alloc_at (c : Context) (heap : Z) (id : AllocId) : option Allocation :=
  h ← heaps_ (heaps c) !! heap; match heap_at h id with Ok a => Some a | Err _ => None end.
Lemma alloc_at_inv c heap id a : alloc_at c heap id = Some a -> exists h, heaps_ (heaps c) !! heap = Some h /\ heap_at h id = Ok a.
Proof. unfold alloc_at. destruct (heaps_ (heaps c) !! heap) as [h|] eqn:E; [|done]. cbn. destruct (heap_at h id) eqn:Ea; [|done]. intros [= ->]. by exists h. Qed.

Lemma sm_update_at {T} (m : slot_map T) key x y : sm_at m key = Ok y -> sm_at (sm_update m key x) key = Ok x.
Proof.
  unfold sm_at, sm_update. cbn. intros E. apply bind_Ok in E as (en & En%of_option_Ok & E).
  rewrite list_lookup_alter_eq, En. cbn. unfold live_value in *. destruct (entry_slot en); [|done]. cbn in *. by destruct (_ =? _).
Qed.
Lemma sm_update_other {T} (m : slot_map T) key key' x : Z.to_nat key'.1 <> Z.to_nat key.1 -> sm_at (sm_update m key x) key' = sm_at m key'.
Proof. intros Hne. unfold sm_at, sm_update. cbn. by rewrite list_lookup_alter_ne. Qed.
Lemma get_allocation_run c p a : is_resolved p = true -> alloc_at c (heap_ p) (alloc_ p) = Some a -> get_allocation p c = (Ok a, c).
Proof.
  intros Hr (h & Eh & Ea)%alloc_at_inv. unfold get_allocation, apply_st, ptr_allocation, mgr_at. rewrite Hr. cbn [assert_]. rewrite ok_bind, Eh, Ea. cbn. by destruct c.
Qed.
(** A change of the allocation of a pointer. *)
Definition put_ctx (c : Context) (p : Pointer) (a : Allocation) : Context :=
  let '(h, m) := mgr_at (heaps c) (heap_ p) in set_heaps c (mgr_set m (heap_ p) (heap_update h (alloc_ p) a)).
Lemma put_ctx_at c p a a' : alloc_at c (heap_ p) (alloc_ p) = Some a -> alloc_at (put_ctx c p a') (heap_ p) (alloc_ p) = Some a'.
Proof.
  intros (h & Eh & Ea)%alloc_at_inv. unfold put_ctx, mgr_at. rewrite Eh. unfold alloc_at. cbn. rewrite lookup_insert_eq. cbn. unfold heap_at, heap_update. cbn.
  by rewrite (sm_update_at _ _ a' a Ea).
Qed.
Lemma put_ctx_other c p a a' heap id : alloc_at c (heap_ p) (alloc_ p) = Some a -> (heap <> heap_ p \/ Z.to_nat id.1 <> Z.to_nat (alloc_ p).1) ->
  alloc_at (put_ctx c p a') heap id = alloc_at c heap id.
Proof.
  intros (h & Eh & Ea)%alloc_at_inv Hne. unfold put_ctx, mgr_at. rewrite Eh. unfold alloc_at. cbn. destruct (decide (heap = heap_ p)) as [->|Hh].
  - rewrite lookup_insert_eq, Eh. cbn. unfold heap_at, heap_update. cbn. rewrite sm_update_other; [done|]. by destruct Hne.
  - by rewrite lookup_insert_ne by done.
Qed.

(** C10: A store and a load of integers and pointers, and of structs, arrays and
    vectors of them, nested in any way: a value that is written through a
    resolved pointer is read back, with its shape and all its numbers (of a
    pointer, its address), through every pointer to the same offset of the same
    allocation, whatever expression gives its offset; every other allocation is
    kept.  This is for an allocation with both permissions, in an environment
    in which its bytes and the offset have values, the bytes of the type lie
    within it, and the value to be written is defined ([access], [cells]).
    Values with floating-point members are left out ([cells]), and so are types
    with an element or member that takes more bytes than its slot ([fits]), as
    a vector of elements of less than a byte has inside of an array or struct. *)
Theorem store_load_roundtrip (e : Env) (w : Z) (c : Context) (p q : Pointer) (a : Allocation) (bs : list (option APInt)) (o : Z)
    (t : llvm_type) (v : LLVMValue) (cs : list Cell) :
  is_resolved p = true -> alloc_at c (heap_ p) (alloc_ p) = Some a ->
  has_perm (perms_ a) PermRead = true -> has_perm (perms_ a) PermWrite = true ->
  fits t -> access e w (data_ a) (ptr_offset p) bs o (span t) -> cells e (heaps c) t v o cs ->
  heap_ q = heap_ p -> alloc_ q = alloc_ p -> ival e w (ptr_offset q) o ->
  exists c' v', mem_write p t v c = (Ok tt, c') /\ mem_read q t c' = (Ok v', c') /\ cells e (heaps c) t v' o cs /\
    forall heap id, heap <> heap_ p \/ Z.to_nat id.1 <> Z.to_nat (alloc_ p).1 -> alloc_at c' heap id = alloc_at c heap id.
Proof.
  intros Hr Hat Hpr Hpw Hfit Ha Hv Eh Ei Hq.
  destruct (write_value_cells e w (heaps c) t a (ptr_offset p) bs o v cs Hpw Hfit Ha Hv) as (a' & bs' & Ew & Hw).
  destruct (read_value_cells e w (heaps c) t a' (ptr_offset q) bs' o v cs) as (v' & Er & Hv'); try done.
  { by rewrite (wrote_perms _ _ _ _ _ _ _ _ _ Hw). }
  { destruct (wrote_access _ _ _ _ _ _ _ _ _ _ _ Ha Hw). by split. }
  { apply Hw. }
  pose proof (put_ctx_at c p a a' Hat) as Hat'. exists (put_ctx c p a'), v'. split_and!; [| |done|].
  - unfold mem_write. rewrite (bind_eq _ _ c tt c) by (unfold check_that, lift; by rewrite Hr).
    rewrite (bind_eq _ _ c a c (get_allocation_run c p a Hr Hat)), (bind_eq _ _ c c c), (bind_eq _ _ c a' c); [done|unfold lift; by rewrite Ew|done].
  - assert (is_resolved q = true) as Hrq by (unfold is_resolved in *; by rewrite Ei).
    unfold mem_read. rewrite (bind_eq _ _ _ tt (put_ctx c p a')) by (unfold check_that, lift; by rewrite Hrq).
    rewrite (bind_eq _ _ _ a' (put_ctx c p a')); [unfold lift; by rewrite Er|]. apply get_allocation_run; [done|by rewrite Eh, Ei].
  - intros heap id Hne. by eapply put_ctx_other.
Qed.
End memory.

(** The packed struct of ValueRoundtrip.v, in the first slot of heap 0. *)
Module access_witness.
Import egraph_witness extract_witness allocation_witness roundtrip_witness.
#[local] Existing Instance roundtrip_witness.packed.
#[local] Instance on : Config := {| IMPLICIT_CONSTANT_FOLDING := true |}.
#[local] Instance clause_hash_capture : ClauseHash := fun c => if sc_capture c then 1 else 0.
#[local] Instance no_program : LLVMProgram := {|
  program_ir := {| block_insts _ := []; entry_block _ := 10; fn_args _ := []; invoke_dests _ := None |};
  inst_view _ := IOther; value_view _ := VInstruction; block_parent _ := 1; fn_empty _ := false; fn_is_intrinsic _ := false;
  fn_return_type _ := LVoid; is_call_or_invoke _ := true; is_call _ := true |}.
Definition heap0 : MemHeap := mkHeap (mkSlotMap [SlotMap.mkEntry (Occupied alloc4) 0] SlotMap.no_head) 0 Symbolic.
Definition ctx0 : Context := mkContext [] ∅ (mkHeaps (<[0 := heap0]> ∅) true) gl_empty ∅ 0 true eg_empty 0.
Definition ptr : Pointer := mkPointer (0, 0) (sym 8 "i") 0.
(** The number 1, like the symbol. *)
Definition alias : Pointer := mkPointer (0, 0) (byte 1) 0.
Lemma pair_here : cells env (heaps ctx0) pair_type pair 1 pair_cells.
Proof. exact pair_at. Qed.
Lemma alias_at : ival env 8 (byte 1) 1.
Proof. split_and!; [apply byte_wf|apply byte_wf|done|vm_decide]. Qed.
Lemma store_load_roundtrip_witness : exists c' v', mem_write ptr pair_type pair ctx0 = (Ok tt, c') /\ mem_read alias pair_type c' = (Ok v', c') /\
  cells env (heaps ctx0) pair_type v' 1 pair_cells.
Proof.
  destruct (store_load_roundtrip env 8 ctx0 ptr alias alloc4 bytes4 1 pair_type pair pair_cells) as (c' & v' & E1 & E2 & E3 & _).
  - reflexivity.
  - reflexivity.
  - reflexivity.
  - reflexivity.
  - repeat split; vm_compute; discriminate.
  - exact pair_access.
  - exact pair_here.
  - reflexivity.
  - reflexivity.
  - exact alias_at.
  - exists c', v'. split; [exact E1|]. split; [exact E2|exact E3].
Defined.
End access_witness.
