(* ===== verification/Externals.v ===== *)
(** The external functions and intrinsics the interpreter handles itself
    (src/Interpreter/ExternalFuncs/, src/Interpreter/Intrinsics/): the ones that
    finish in one call, as handlers of a [Machine].

    The types of a function's parameters, LLVM's index sizes, the options of the
    executor and the selector of an exception type are the class [ExternEnv].
    [llvm.memset], the chain of constructors, [setjmp], [longjmp] and unwinding
    keep their state in frames of their own and are not modelled. *)
From S2P Require Import Prelude LLVM IRType Value Opcode Operation Matching Create Semantics.
From S2P Require Import Simplifier SimplifierInt SimplifierSound Overflow AtEnv ModelEval SparseVector Assertions Slicer Solvers Allocation SlotMap BumpAllocator MemHeap.
From S2P Require Import UnionFind EGraph EGraphSound EGraphRebuild Extract GraphAssertions Frames Context ValueMemory Constprop EMatching RewriteSound Saturation Effects OperationBuilder InterpreterContext ExprEval Interpreter Paths Branching.
Open Scope Z_scope.

Class ExternEnv := {
  fn_arg_type : Z -> nat -> llvm_type;
  getIndexSizeInBits : Z -> Z;
  malloc_can_return_null : bool;
  malloc_alignment : Z;
  get_selector : Z -> Z
}.
#[export] Instance llvm_type_eq_dec : EqDecision llvm_type.
Proof.
  unfold EqDecision, Decision. fix go 1. intros x y. decide equality; try apply Z.eq_dec; try apply bool_dec. revert elems0.
  induction elems as [|t ts IH]; intros [|u us]; [by left|by right|by right|]. destruct (go t u) as [->|]; [|right; congruence].
  destruct (IH us) as [->|]; [by left|right; congruence].
Defined.
Definition is_integer_of (w : Z) (t : llvm_type) : bool := match t with LInteger k => k =? w | _ => false end.

Section externals.
Context `{PtrEq} `{!DataPtrEq} `{MapOrder} `{MathExtrasAPI} `{Config} `{HashOrder} `{!LLVMProgram} `{Layout} `{ExternEnv}.
Context (mc : Machine).
#[local] Instance extern_ops : PathOps Context := context_ops (mc_solver mc) (mc_fuel mc).

Definition nth_arg (args : list LLVMValue) (k : nat) : M World LLVMValue := lift (of_option UndefinedBehaviour (args !! k)).
(** [args[k].scalar().expr()] and [args[k].scalar().pointer()]. *)
Definition arg_expr (args : list LLVMValue) (k : nat) : M World Operation :=
  v ← nth_arg args k; s ← lift (value_scalar v); lift (scalar_expr s).
Definition arg_pointer (args : list LLVMValue) (k : nat) : M World Pointer :=
  v ← nth_arg args k; s ← lift (value_scalar v); lift (scalar_pointer s).
Definition return_value (i : nat) (v : option LLVMValue) : M World unit := in_context i (jump_return v).

(** ** External functions *)
Definition AbortFunction_call (i : nat) (args : list LLVMValue) : M World unit :=
  if negb (length args =? 0)%nat then interp_fail mc i "abort called with bad signature (wrong number of arguments)"
  else interp_fail mc i "program called abort".
Definition CaffeineAssertFunction_call (func : Z) (i : nat) (args : list LLVMValue) : M World unit :=
  if negb (length args =? 1)%nat then interp_fail mc i "caffeine_assert called with bad signature (wrong number of arguments)"
  else if negb (bool_decide (fn_arg_type func 0 = LInteger 1)) then interp_fail mc i "caffeine_assert had invalid signature (invalid parameter type)"
  else if negb (is_void_ty (fn_return_type func)) then interp_fail mc i "caffeine_assert has invalid signature (invalid return type)"
  else
    e ← arg_expr args 0; a ← lift (Assertion_ctor e);
    _ ← assert_or_fail mc i a "assertion failure"; return_value i None.
Definition CaffeineAssumeFunction_call (func : Z) (i : nat) (args : list LLVMValue) : M World unit :=
  if negb (length args =? 1)%nat then interp_fail mc i "caffeine_assume called with bad signature (wrong number of arguments)"
  else if negb (bool_decide (fn_arg_type func 0 = LInteger 1)) then interp_fail mc i "caffeine_assume had invalid signature (invalid parameter type)"
  else if negb (is_void_ty (fn_return_type func)) then interp_fail mc i "caffeine_assume has invalid signature (invalid return type)"
  else
    e ← arg_expr args 0; a ← lift (Assertion_ctor e);
    _ ← assume i a; return_value i None.

(** *** Pointers *)
Definition resolved_fork (i : nat) (mem ptr : Pointer) : M World unit :=
  k ← fork i;
  _ ← (if is_resolved mem then mret tt else in_context k (update_st (fun c => ctx_backprop c mem ptr)));
  c ← in_context k state; x ← lift (ptr_value_in mem (heaps c)); y ← lift (ptr_value_in ptr (heaps c));
  eq ← lift (CreateICmp simplify EQ x y); a ← lift (Assertion_ctor eq); _ ← assume k a;
  return_value k (Some (LLVMValue_of (Ptr ptr))).
Definition CaffeineBuiltinResolveFunction_call (func : Z) (i : nat) (args : list LLVMValue) : M World unit :=
  if negb (length args =? 2)%nat then interp_fail mc i "invalid caffeine_builtin_resolve signature (invalid number of arguments)"
  else if negb (bool_decide (fn_return_type func = fn_arg_type func 0)) || negb (is_pointer_ty (fn_return_type func))
  then interp_fail mc i "invalid caffeine_builtin_resolve signature (invalid first argument)"
  else if negb (is_integer_ty (fn_arg_type func 1)) then interp_fail mc i "invalid caffeine_builtin_resolve signature (invalid second argument)"
  else
    mem ← arg_pointer args 0; t ← lift (int_ty (getPointerSizeInBits (heap_ mem))); n ← arg_expr args 1;
    size ← lift (CreateTruncOrZExt simplify t n);
    resolved ← resolve_ptr mc i mem size "invalid pointer access";
    _ ← kill i; iter_m (resolved_fork i mem) resolved.
Definition free_fork (i : nat) (memptr ptr : Pointer) : M World unit :=
  k ← fork i; c ← in_context k state; x ← lift (ptr_value_in memptr (heaps c)); y ← lift (ptr_value_in ptr (heaps c));
  eq ← lift (CreateICmp simplify EQ x y); a ← lift (Assertion_ctor eq); _ ← assume k a;
  in_context k (in_heap (heap_ ptr) (fun h c => h ← heap_deallocate h (alloc_ ptr); Ok (tt, h, c))).
Definition CaffeineFreeFunction_call (func : Z) (i : nat) (args : list LLVMValue) : M World unit :=
  if negb (length args =? 1)%nat then interp_fail mc i "invalid caffeine_free signature (invalid number of arguments)"
  else if negb (is_void_ty (fn_return_type func)) then interp_fail mc i "invalid caffeine_free signature (invalid return type)"
  else if negb (is_pointer_ty (fn_arg_type func 0)) then interp_fail mc i "invalid caffeine_free signature (invalid first argument)"
  else
    memptr ← arg_pointer args 0;
    _ ← assert_ptr_starts_allocation mc i memptr "free called with an invalid pointer";
    zero ← lift (ConstantInt_CreateZero simplify (getPointerSizeInBits (heap_ memptr)));
    resolved ← resolve_ptr mc i memptr zero "free called with a pointer not allocated by malloc";
    _ ← kill i; iter_m (free_fork i memptr) resolved.

(** *** Allocations *)
(** The fork in which an allocation fails. *)
Definition null_fork (i : nat) (ptr_width address_space : Z) : M World unit :=
  if malloc_can_return_null then
    k ← fork i; zero ← lift (ConstantInt_CreateZero simplify ptr_width); p ← lift (Pointer_abs zero address_space);
    return_value k (Some (LLVMValue_of (Ptr p)))
  else mret tt.
Definition CallocFunction_call (func : Z) (i : nat) (args : list LLVMValue) : M World unit :=
  if negb (length args =? 1)%nat then interp_fail mc i "invalid caffeine_calloc signature (invalid number of arguments)"
  else
    c ← in_context i state; inst ← lift (getCurrentInstruction c); _ ← check_that (bool_decide (is_Some inst));
    match fn_return_type func with
    | LPointer _ address_space =>
        let ptr_width := getPointerSizeInBits address_space in
        if negb (is_integer_of (getIndexSizeInBits address_space) (fn_arg_type func 0))
        then interp_fail mc i "invalid caffeine_calloc signature (invalid first argument)"
        else
          _ ← null_fork i ptr_width address_space;
          t ← lift (int_ty ptr_width); n ← arg_expr args 0; size ← lift (CreateTruncOrZExt simplify t n);
          align ← lift (ConstantInt_Create simplify (APInt_of ptr_width malloc_alignment));
          byte ← lift (ConstantInt_Create simplify (APInt_of 8 0));
          p ← in_context i (allocate_repeated (mc_solver mc) (mc_fuel mc) size align byte address_space Malloc PermReadWrite);
          return_value i (Some (LLVMValue_of (Ptr p)))
    | _ => interp_fail mc i "invalid caffeine_calloc signature (invalid return type)"
    end.
Definition MallocAlignFunction_call (func : Z) (i : nat) (args : list LLVMValue) : M World unit :=
  if negb (length args =? 2)%nat then interp_fail mc i "invalid malloc_align signature (invalid number of arguments)"
  else
    match fn_return_type func with
    | LPointer _ address_space =>
        let ptr_width := getPointerSizeInBits address_space in
        if negb (is_integer_of (getIndexSizeInBits address_space) (fn_arg_type func 0))
        then interp_fail mc i "invalid malloc_align signature (invalid first argument)"
        else if negb (is_integer_of (getIndexSizeInBits address_space) (fn_arg_type func 1))
        then interp_fail mc i "invalid malloc_align signature (invalid second argument)"
        else
          _ ← null_fork i ptr_width address_space;
          size ← arg_expr args 0; align ← arg_expr args 1;
          t ← lift (int_ty ptr_width); size_op ← lift (CreateTruncOrZExt simplify t size);
          byte ← lift (ConstantInt_Create simplify (APInt_of 8 0xDD)); data ← lift (AllocOp_Create simplify size_op byte);
          alloc ← in_context i (in_heap address_space (fun h c => allocate h size_op align data Malloc PermReadWrite c));
          zero ← lift (ConstantInt_CreateZero simplify ptr_width); p ← lift (Pointer_ctor alloc zero address_space);
          return_value i (Some (LLVMValue_of (Ptr p)))
    | _ => interp_fail mc i "invalid malloc_align signature (invalid return type)"
    end.

(** ** Intrinsics *)

(** The absolute value, and the condition under which it is defined. *)
Definition abs_result (val is_min min_val : Operation) : result Operation :=
  neg ← CreateICmp_ri simplify SLT val 0; m ← IntOp_Create_li simplify OpMul (-1) val; s ← SelectOp_Create simplify neg m val;
  SelectOp_Create simplify is_min min_val s.
Definition AbsIntrinsic_call (func : Z) (i : nat) (args : list LLVMValue) : M World unit :=
  _ ← check_that (length args =? 2)%nat;
  v0 ← nth_arg args 0; _ ← check_that (is_scalar v0);
  should_poison ← arg_expr args 1; val ← arg_expr args 0;
  w ← lift (match fn_return_type func with LInteger w => Ok w | _ => Err UndefinedBehaviour end);
  min_val ← lift (ConstantInt_Create simplify (getSignedMinValue w)); is_min ← lift (CreateICmp simplify EQ val min_val);
  np ← in_context i (create_unop (CreateNot simplify) should_poison); nm ← lift (CreateNot simplify is_min);
  cond ← lift (CreateOr simplify np nm); will_succeed ← lift (Assertion_ctor cond);
  _ ← assert_or_fail mc i will_succeed "Taking absolute number of minimum value";
  r ← lift (abs_result val is_min min_val); return_value i (Some (LLVMValue_of (Expr r))).

(** The bytes of the value from [k] on, the lowest first. *)
Fixpoint bswap_bytes (value : Operation) (k : Z) (n : nat) : M Context (list Operation) :=
  match n with
  | O => mret []
  | S n =>
      s ← create_binop_ri (CreateLShr simplify) value (k * 8); t ← lift (int_ty 8); b ← create_convert (CreateTrunc simplify) t s;
      bs ← bswap_bytes value (k + 1) n; mret (b :: bs)
  end.
Fixpoint bswap_join (bitwidth : Z) (bytes : list Operation) (k : Z) (r : Operation) : M Context Operation :=
  match bytes with
  | [] => mret r
  | b :: bytes =>
      t ← lift (int_ty bitwidth); z ← create_convert (CreateZExt simplify) t b; s ← create_binop_ri (CreateShl simplify) z (k * 8);
      r ← create_binop (CreateOr simplify) r s; bswap_join bitwidth bytes (k + 1) r
  end.
Definition swap_single (value : Operation) (bitwidth : Z) : M Context Operation :=
  bytes ← bswap_bytes value 0 (Z.to_nat (bitwidth / 8));
  match rev bytes with
  | [] => raise UndefinedBehaviour
  | b :: bytes => t ← lift (int_ty bitwidth); r ← create_convert (CreateZExt simplify) t b; bswap_join bitwidth bytes 1 r
  end.
Definition scalar_width (t : llvm_type) : result Z :=
  match t with LInteger w | LVector _ (LInteger w) => Ok w | _ => Err UndefinedBehaviour end.
Definition BswapIntrinsic_call (func : Z) (i : nat) (args : list LLVMValue) : M World unit :=
  _ ← check_that (length args =? 1)%nat;
  w ← lift (scalar_width (fn_return_type func)); _ ← check_that (w mod 16 =? 0);
  v ← nth_arg args 0; es ← lift (value_vector v);
  rs ← map_m (fun s => e ← lift (scalar_expr s); r ← in_context i (swap_single e w); mret (Expr r)) es;
  return_value i (Some (Vector rs)).
(** The product and whether it overflows. *)
Definition mul_with_overflow (overflows : Operation -> Operation -> result Operation) (i : nat) (args : list LLVMValue) : M World unit :=
  _ ← check_that (length args =? 2)%nat; a ← nth_arg args 0; b ← nth_arg args 1;
  values ← for_exprs (on_two (fun x y => lift (CreateMul simplify x y))) [a; b];
  overflow ← for_exprs (on_two (fun x y => lift (overflows x y))) [a; b];
  return_value i (Some (Aggregate [values; overflow])).
Definition SMulWithOverflowIntrinsic_call := mul_with_overflow (CreateSMulOverflow simplify).
Definition UMulWithOverflowIntrinsic_call := mul_with_overflow (CreateUMulOverflow simplify).
(** The constant is the first operand of the call. *)
Definition EhTypeidForIntrinsic_call (i : nat) (args : list LLVMValue) : M World unit :=
  _ ← check_that (length args =? 1)%nat;
  c ← in_context i state; inst ← lift (getCurrentInstruction c);
  operand ← lift (match inst with
                  | Some n => match inst_view n with ICall _ _ (x :: _) | IIntrinsic _ _ _ (x :: _) => Ok x | _ => Err AssertFailed end
                  | None => Err UndefinedBehaviour
                  end);
  _ ← check_that (match value_view operand with VInstruction | VOtherValue => false | _ => true end);
  r ← lift (ConstantInt_Create simplify (APInt_of 32 (get_selector operand)));
  return_value i (Some (LLVMValue_of (Expr r))).
End externals.

(** ** The absolute value *)
Section absolute.
Context `{PtrEq} `{MathExtrasAPI} `{Config}.
Context (e : Env).
Lemma select_at w c x y b u v : bval e c b -> ival e w x u -> ival e w y v ->
  exists r, SelectOp_Create simplify c x y = Ok r /\ ival e w r (if b then u else v).
Proof.
  intros (Wc & Tc & _ & Dc) (Wx & Tx & Hw & Dx) (Wy & Ty & _ & Dy). assert (0 < w) by (destruct Hw; lia). assert (0 <= w) by lia.
  destruct (simplify_ok (mkOp (mkData OpSelect (ity w) NoPayload) [c; x; y])) as (r & Er & Wr & Tr & Dr).
  - constructor; [by repeat constructor|]. done.
  - done.
  - exists r. split.
    + unfold SelectOp_Create. rewrite int_ty_good, ok_bind, Tc, Tx, Ty, !ty_eqb_refl by done. exact Er.
    + split_and!; try done. apply Dr. cbn [denote fmap list_fmap]. rewrite Dc, Dx, Dy. unfold denote_node. cbn [od_opcode].
      rewrite APInt_of_value by done. by destruct b.
Qed.
Lemma mul_li_at w x a k : ival e w x a -> exists r, IntOp_Create_li simplify OpMul k x = Ok r /\ ival e w r (k * a).
Proof.
  intros Hx. pose proof Hx as (Wx & Tx & Hw & _). destruct (const_any w k Hw) as (c & Ec & _ & Dc).
  destruct (int_at e OpMul w c x k a _ eq_refl (Dc e) Hx eq_refl) as (r & Er & Hr).
  exists r. split.
  - unfold IntOp_Create_li. rewrite Tx, bitwidth_ity. run_ok. by rewrite Ec, ok_bind.
  - eapply ival_wrap; [|exact Hr]. unfold wrap. symmetry. apply Zmult_mod.
Qed.

Lemma abs_number w a : 0 < w -> 0 <= a < 2 ^ w ->
  wrap w (if a =? 2 ^ (w - 1) then 2 ^ (w - 1) else if sgn w a <? sgn w 0 then -1 * a else a) = wrap w (Z.abs (sgn w a)).
Proof.
  intros Hw Ha. assert (2 ^ w = 2 * 2 ^ (w - 1)) as E2 by (rewrite <- Z.pow_succ_r by lia; f_equal; lia).
  unfold sgn. destruct (Z.ltb_spec a (2 ^ (w - 1))), (Z.eqb_spec a (2 ^ (w - 1))), (Z.ltb_spec 0 (2 ^ (w - 1))); try lia.
  - destruct (Z.ltb_spec a 0); [lia|]. by rewrite Z.abs_eq by lia.
  - f_equal. lia.
  - destruct (Z.ltb_spec (a - 2 ^ w) 0); [|lia]. rewrite Z.abs_neq by lia. unfold wrap.
    replace (- (a - 2 ^ w)) with (-1 * a + 1 * 2 ^ w) by lia. by rewrite Z.mod_add by lia.
Qed.

(** C37: The result of [llvm.abs] is the absolute value of its operand, read as a
    signed number of its width; for the least number, whose absolute value is
    out of range, it is that number again, which is 2^(w-1) as an unsigned one.
    This holds in every environment that gives the operand, an integer
    expression, a value, and building the result never fails. *)
Theorem abs_value_correct (w a : Z) (val : Operation) : ival e w val a -> 0 <= a < 2 ^ w ->
  exists min_val is_min r, ConstantInt_Create simplify (getSignedMinValue w) = Ok min_val /\ CreateICmp simplify EQ val min_val = Ok is_min /\
    abs_result val is_min min_val = Ok r /\ op_type r = ity w /\ denote e r = Some (DInt (APInt_of w (Z.abs (sgn w a)))).
Proof.
  intros Hv Ha. pose proof Hv as (_ & _ & Hw & _). pose proof Hw as [Hw1 _].
  assert (2 ^ w = 2 * 2 ^ (w - 1)) as E2 by (rewrite <- Z.pow_succ_r by lia; f_equal; lia).
  assert (0 < 2 ^ (w - 1)) as Hp by (apply Z.pow_pos_nonneg; lia).
  destruct (const_any w (2 ^ (w - 1)) Hw) as (min_val & Em & _ & Dm).
  destruct (icmp_at e EQ w val min_val a _ Hv (Dm e)) as (is_min & Ei & Hi). rewrite !wrap_small in Hi by lia. cbn in Hi.
  destruct (icmp_zero_any SLT w val (ival_iwf e w val a Hv)) as (neg & En & _ & Dn). specialize (Dn e a Hv). rewrite wrap_small in Dn by lia. cbn in Dn.
  destruct (mul_li_at w val a (-1) Hv) as (m & Eu & Hm). destruct (select_at w neg m val _ _ _ Dn Hm Hv) as (s & Es & Hs).
  destruct (select_at w is_min min_val s _ _ _ Hi (Dm e) Hs) as (r & Er & Hr).
  exists min_val, is_min, r. rewrite getSignedMinValue_spec by lia. split_and!; [done|done| |apply Hr|].
  - unfold abs_result. by rewrite En, ok_bind, Eu, ok_bind, Es, ok_bind.
  - by destruct (ival_wrap e w r _ _ (abs_number w a Hw1 Ha) Hr) as (_ & _ & _ & Dr).
Qed.
End absolute.

(** ** Assumptions *)
Section assumptions.
#[local] Existing Instance no_arrays.
Context `{PtrEq} `{!DataPtrEq} `{MapOrder} `{MathExtrasAPI} `{Config} `{HashOrder} `{!LLVMProgram} `{Layout} `{ExternEnv}.
Context (mc : Machine).
Lemma jump_return_graphs v c u c' : jump_return v c = (Ok u, c') -> egraph c' = egraph c /\ assertions c' = assertions c.
Proof.
  intros E. unfold jump_return in E. apply bind_run in E as (c0 & c1 & [= <- <-] & E).
  apply bind_run in E as (? & ? & [_ ->]%check_run & E). apply bind_run in E as (inst & ? & [_ ->]%lift_run & E).
  apply bind_run in E as (? & ? & [_ ->]%check_run & E). unfold update_top in E. apply update_st_run in E.
  apply bind_Ok in E as (top & _ & E). by apply bind_Ok in E as (f & _ & [= <-]).
Qed.

(** C29: [caffeine_assume] adds its argument to the path of its context and does
    nothing else: no context is forked or killed and nothing is reported, whether
    or not the path can still be taken.  Every environment in which the e-graph
    was sound extends to the new classes, with the same symbols, so that the new
    graph is sound, and there the new path is taken if and only if the old one
    was and the argument is true.  This is for a function declared with one
    boolean argument and no result, a call that ends without an error, a
    context whose e-graph and assertions are well formed ([ctx_inv]), and an
    argument over the classes of the graph without the float constants 0 and NaN
    ([op_fits]), on which the comparison of nodes goes wrong. *)
Theorem assume_call_correct func w i c p w' :
  fn_arg_type func 0 = LInteger 1 -> fn_return_type func = LVoid -> at_entry w i false c -> boolean p ->
  CaffeineAssumeFunction_call mc func i [LLVMValue_of (Expr p)] w = (Ok tt, w') ->
  exists c', queue_ w' = <[i := mkEntry false c']> (queue_ w) /\ events w' = events w /\
    forall T, ctx_inv T c -> op_fits T (egraph c) p -> exists T', ctx_inv T' c' /\
      forall e, eg_sat T e (egraph c) -> exists e', same_symbols e e' /\ eg_sat T' e' (egraph c') /\
        (forall j, in_graph (egraph c) j -> T' j = T j /\ env_node e' j = env_node e j) /\
        (on_path e' c' <-> on_path e c /\ Holds e p).
Proof.
  intros Ha Hr Hi Hb E. unfold CaffeineAssumeFunction_call in E. rewrite Ha, Hr, bool_decide_eq_true_2 in E by done. cbn [length Nat.eqb negb is_void_ty] in E.
  apply bind_run in E as (x & w1 & E1 & E). unfold arg_expr, nth_arg in E1. cbn in E1. injection E1 as <- <-.
  apply bind_run in E as (a & w1 & [E1 ->]%lift_run & E). apply (assertion_run p a Hb) in E1 as ->.
  apply bind_run in E as ([] & w1 & E1 & E). unfold assume in E1. apply (in_context_ok i _ w false c tt w1 Hi) in E1 as (c1 & Ea%update_st_run & ->).
  unfold return_value in E. apply (in_context_ok i _ _ false c1 tt w' (set_entry_at i w false c _ _ Hi)) in E as (c2 & Ej & ->).
  apply jump_return_graphs in Ej as [Eg El]. exists c2. rewrite set_entry_twice. split_and!; [done|done|]. intros T Hc Hf.
  destruct (context_add_correct T c p Hc Hb Hf) as (c1' & T' & Ea' & I' & Hs). rewrite Ea in Ea'. injection Ea' as <-. exists T'.
  unfold on_path in *. rewrite Eg, El. split; [|exact Hs]. destruct I' as [I1 I2 I3 I4]. split; rewrite ?Eg, ?El; done.
Qed.
End assumptions.

Module externals_witness.
Import egraph_witness extract_witness graphlist_witness allocation_witness.
#[local] Instance on : Config := {| IMPLICIT_CONSTANT_FOLDING := true |}.
(** The 8-bit symbol is 1 there. *)
Lemma abs_value_correct_witness : exists min_val is_min r,
  ConstantInt_Create simplify (getSignedMinValue 8) = Ok min_val /\ CreateICmp simplify EQ (sym 8 "i") min_val = Ok is_min /\
  abs_result (sym 8 "i") is_min min_val = Ok r /\ op_type r = ity 8 /\ denote env r = Some (DInt (APInt_of 8 1)).
Proof. apply (abs_value_correct env 8 1 (sym 8 "i")); [apply sym_at; [done|vm_decide]|lia]. Defined.

Import branching_witness.
#[local] Existing Instances clause_hash_capture flat_layout.
(** A context behind the call of function 7 in function 1. *)
#[local] Instance one_call : LLVMProgram := {|
  program_ir := {| block_insts _ := [100; 101]; entry_block _ := 10; fn_args _ := []; invoke_dests _ := None |};
  inst_view _ := IOther; value_view _ := VInstruction; block_parent _ := 1; fn_empty _ := false; fn_is_intrinsic _ := false;
  fn_return_type _ := LVoid; is_call_or_invoke _ := true; is_call _ := true |}.
#[local] Instance externs : ExternEnv := {| fn_arg_type _ _ := LInteger 1; getIndexSizeInBits _ := 64; malloc_can_return_null := true;
  malloc_alignment := 16; get_selector _ := 1 |}.
Definition caller : Machine := mkMachine (guesser 1) 3 matcher0 6 4 (fun _ => None) (fun _ => None) (fun _ => raise Thrown) (Ok None)
  (fun _ => mkExtFrame 0 None None [] 0) None.
Definition ctx1 : Context :=
  mkContext [mkFrame (Regular (set_current (IRStackFrame_ctor 1 0) 1)) 0] ∅ (MemHeapMgr_ctor true) gl_empty ∅ 0 true eg_empty 0.
Definition world1 : World := mkWorld [mkEntry false ctx1] [] 1.
Definition assume_x : M World unit := CaffeineAssumeFunction_call caller 7 0 [LLVMValue_of (Expr (sym1 "x"))].
Lemma assume_ran : exists w', assume_x world1 = (Ok tt, w').
Proof. destruct (ran (assume_x world1)) as ([] & w' & E); [vm_decide|]. by exists w'. Qed.
Lemma ctx1_inv : ctx_inv T0 ctx1 /\ eg_sat T0 (zeros 1) (egraph ctx1).
Proof.
  destruct (proj1 (ctx0_path 1 (sym1 "x"))) as [[Hi Hb Hl Hm] Hg]. split; [split; [exact Hi|exact Hb|exact Hl|exact Hm]|].
  apply (gs_sat _ _ _ Hg). reflexivity.
Qed.
Lemma zero_not_true : ~ Holds (zeros 1) (sym1 "x").
Proof. refine (bool_decide_eq_false_1 (denote (zeros 1) (sym1 "x") = Some (den_bool true)) _). vm_compute. reflexivity. Qed.
(** The path goes on where the symbol is 1, and here it is 0. *)
Lemma assume_call_correct_witness : exists w' c' e', assume_x world1 = (Ok tt, w') /\ queue_ w' = [mkEntry false c'] /\
  same_symbols (zeros 1) e' /\ ~ on_path e' c'.
Proof.
  destruct assume_ran as [w' E].
  destruct (assume_call_correct caller 7 world1 0 ctx1 (sym1 "x") w') as (c' & Eq & _ & Hn).
  - reflexivity.
  - reflexivity.
  - reflexivity.
  - split; [apply sym1_wf|reflexivity].
  - exact E.
  - destruct (Hn T0 (proj1 ctx1_inv)) as (T' & _ & Hs).
    + apply fits_node; [reflexivity|exact Logic.I|constructor].
    + destruct (Hs (zeros 1) (proj2 ctx1_inv)) as (e' & Hsym & _ & _ & Hon). exists w', c', e'. split; [exact E|]. split; [exact Eq|]. split; [exact Hsym|].
      intros [_ Hx]%Hon. exact (zero_not_true Hx).
Defined.
End externals_witness.
