(* ===== verification/ContextStore.v ===== *)
(** The stores the workers share
    (src/Interpreter/Store/QueueingContextStore.cpp, RandomizedContextStore.cpp).

    The operations of a store run under its mutex, [next_context] up to the
    point where it waits on the condition variable and again when it wakes up.
    Each such section is a function on the store; a system of worker threads is
    a step relation over them, in which a thread that waits is asleep until it
    is notified or wakes up spuriously. *)
From S2P Require Import Prelude.
From stdpp Require Import list.

(** How a store takes out one of its contexts; the number is the choice of the
    random generator. *)
Class Removal (C : Type) := {
  dequeue : nat -> list C -> option (C * list C);
  dequeue_some : forall k q, q <> [] -> is_Some (dequeue k q);
  dequeue_perm : forall k q c q', dequeue k q = Some (c, q') -> q ≡ₚ c :: q'
}.

Section stores.
Context {C : Type}.

(** [QueueingContextStore::dequeue]. *)
Definition dequeue_front (_ : nat) (q : list C) : option (C * list C) := match q with [] => None | c :: q => Some (c, q) end.
(** [RandomizedContextStore::removeRandom]: the last one takes its place. *)
Definition removeRandom (k : nat) (contexts : list C) : option (C * list C) :=
  match last contexts with
  | None => None
  | Some back =>
      let selected := (k mod length contexts)%nat in
      ctx ← contexts !! selected; Some (ctx, removelast (<[selected := back]> contexts))
  end.

#[export, refine] Instance fifo : Removal C := {| dequeue := dequeue_front |}.
Proof.
  - intros k [|c q]; [done|]. by intros _; eexists.
  - intros k [|c q] c' q'; [done|]. by intros [= -> ->].
Defined.
Lemma removeRandom_perm k q c q' : removeRandom k q = Some (c, q') -> q ≡ₚ c :: q'.
Proof.
  unfold removeRandom. destruct (last q) as [back|] eqn:El; [|done]. apply last_Some in El as [s ->].
  set (i := (k mod _)%nat). destruct ((s ++ [back]) !! i) as [x|] eqn:Ex; [|done]. cbn. intros [= <- <-].
  apply lookup_app_Some in Ex as [Ex|[Hi Ex]].
  - rewrite insert_app_l by by eapply lookup_lt_Some. rewrite removelast_last.
    rewrite <- (take_drop_middle s i x Ex) at 1. rewrite insert_take_drop by by eapply lookup_lt_Some. solve_Permutation.
  - apply list_lookup_singleton_Some in Ex as [Hz <-]. assert (i = length s) as -> by lia.
    rewrite insert_app_r_alt, Nat.sub_diag by done. cbn. rewrite removelast_last. solve_Permutation.
Qed.
Lemma removeRandom_some k q : q <> [] -> is_Some (removeRandom k q).
Proof.
  intros Hq. unfold removeRandom. destruct (last q) as [back|] eqn:El; [|by apply last_None in El].
  destruct (lookup_lt_is_Some_2 q (k mod length q)) as [x Hx]; [|rewrite Hx; by eexists].
  apply Nat.mod_upper_bound. by destruct q.
Qed.
End stores.
Definition randomized {C} : Removal C := {| dequeue := removeRandom; dequeue_some := removeRandom_some; dequeue_perm := removeRandom_perm |}.

Section store.
Context {C : Type} `{!Removal C} (num_readers : nat).

Record Store : Type := mkStore { queue : list C; done : bool; blocked : nat }.
Definition QueueingContextStore_ctor : Store := mkStore [] false 0.
Inductive Outcome : Type := Returned (r : option C) | Blocks.

(** [next_context], from its start; the flag is [notify_all]. *)
Definition next_begin (k : nat) (s : Store) : Store * Outcome * bool :=
  if done s then (s, Returned None, false)
  else
    match dequeue k (queue s) with
    | Some (c, q) => (mkStore q (done s) (blocked s), Returned (Some c), false)
    | None =>
        if (S (blocked s) =? num_readers)%nat then (mkStore (queue s) true (blocked s), Returned None, true)
        else (mkStore (queue s) (done s) (S (blocked s)), Blocks, false)
    end.
(** [next_context], from where it waits. *)
Definition next_resume (k : nat) (s : Store) : Store * Outcome :=
  if done s then (mkStore (queue s) (done s) (blocked s - 1), Returned None)
  else
    match dequeue k (queue s) with
    | None => (s, Blocks)
    | Some (c, q) => (mkStore q (done s) (blocked s - 1), Returned (Some c))
    end.
(** [add_context] and [add_context_multi], up to the notification. *)
Definition add_contexts (cs : list C) (s : Store) : Store := mkStore (queue s ++ cs) (done s) (blocked s).
Definition shutdown (s : Store) : Store := mkStore (queue s) true (blocked s).

(** ** Workers *)

(** A worker is outside of the store, about to notify one or all sleepers,
    waiting asleep or awake, or told that there is nothing left. *)
Inductive Thread : Set := Outside | Notifying (all : bool) | Sleeping | Woken | Finished.
#[export] Instance Thread_eq_dec : EqDecision Thread.
Proof. solve_decision. Defined.
(** [closing]: the store was shut down and its sleepers are yet to be notified;
    [added] and [taken] are what went in and out. *)
Record System : Type := mkSystem {
  store : Store; threads : list Thread; closing : bool; was_shut : bool; added : list C; taken : list C }.
Definition wake (t : Thread) : Thread := match t with Sleeping => Woken | t => t end.
Definition wake_all (b : bool) (ts : list Thread) : list Thread := if b then wake <$> ts else ts.
(** What becomes of the thread, and what it takes. *)
Definition outcome_thread (o : Outcome) : Thread :=
  match o with Returned (Some _) => Outside | Returned None => Finished | Blocks => Sleeping end.
Definition outcome_taken (o : Outcome) : list C := match o with Returned (Some c) => [c] | _ => [] end.

(** The steps that need nobody from outside: no context is added, nobody wakes
    up by chance or shuts the store down. *)
Inductive quiet : System -> System -> Prop :=
| quiet_next s t k st o n : threads s !! t = Some Outside -> next_begin k (store s) = (st, o, n) ->
    quiet s (mkSystem st (wake_all n (<[t := outcome_thread o]> (threads s))) (closing s) (was_shut s) (added s) (taken s ++ outcome_taken o))
| quiet_resume s t k st o : threads s !! t = Some Woken -> next_resume k (store s) = (st, o) ->
    quiet s (mkSystem st (<[t := outcome_thread o]> (threads s)) (closing s) (was_shut s) (added s) (taken s ++ outcome_taken o))
| quiet_notify_all s t : threads s !! t = Some (Notifying true) ->
    quiet s (mkSystem (store s) (wake <$> <[t := Outside]> (threads s)) (closing s) (was_shut s) (added s) (taken s))
| quiet_notify_one s t u : threads s !! t = Some (Notifying false) -> threads s !! u = Some Sleeping ->
    quiet s (mkSystem (store s) (<[u := Woken]> (<[t := Outside]> (threads s))) (closing s) (was_shut s) (added s) (taken s))
| quiet_notify_none s t : threads s !! t = Some (Notifying false) -> Sleeping ∉ threads s ->
    quiet s (mkSystem (store s) (<[t := Outside]> (threads s)) (closing s) (was_shut s) (added s) (taken s))
| quiet_close s : closing s = true ->
    quiet s (mkSystem (store s) (wake <$> threads s) false (was_shut s) (added s) (taken s)).
Inductive step : System -> System -> Prop :=
| step_quiet s s' : quiet s s' -> step s s'
| step_add s t cs : threads s !! t = Some Outside ->
    step s (mkSystem (add_contexts cs (store s)) (<[t := Notifying (negb (length cs =? 1)%nat)]> (threads s)) (closing s) (was_shut s)
              (added s ++ cs) (taken s))
| step_spurious s t : threads s !! t = Some Sleeping ->
    step s (mkSystem (store s) (<[t := Woken]> (threads s)) (closing s) (was_shut s) (added s) (taken s))
| step_shutdown s : step s (mkSystem (shutdown (store s)) (threads s) true true (added s) (taken s)).
(** The store is filled before the workers start. *)
Definition initial (cs : list C) : System :=
  mkSystem (add_contexts cs QueueingContextStore_ctor) (replicate num_readers Outside) false false cs [].
Definition reachable (cs : list C) : System -> Prop := rtc step (initial cs).
End store.

(** ** What holds of every system a run of the workers reaches *)

Section facts.
Context {C : Type} `{!Removal C} (num_readers : nat) (readers : 0 < num_readers).
Implicit Types (s : System (C := C)) (ts : list Thread).

Definition waits (t : Thread) : nat := match t with Sleeping | Woken => 1 | _ => 0 end.

Lemma sum_list_with_insert {A} (f : A -> nat) (l : list A) i x y :
  l !! i = Some y -> sum_list_with f (<[i := x]> l) + f y = sum_list_with f l + f x.
Proof.
  revert i. induction l as [|a l IH]; intros [|i] H; [done|done| |].
  - injection H as ->. cbn. lia.
  - specialize (IH i H). change (<[S i := x]> (a :: l)) with (a :: <[i := x]> l). cbn [sum_list_with]. lia.
Qed.
Lemma sum_list_with_le {A} (f g : A -> nat) (l : list A) : (forall x, f x <= g x) -> sum_list_with f l <= sum_list_with g l.
Proof. intros H. induction l as [|a l IH]; cbn; [lia|]. specialize (H a). lia. Qed.
Lemma waits_wake ts : sum_list_with waits (wake <$> ts) = sum_list_with waits ts.
Proof. induction ts as [|[] ts IH]; cbn; lia. Qed.
Lemma waits_le ts : sum_list_with waits ts <= length ts.
Proof. induction ts as [|[] ts IH]; cbn; lia. Qed.
Lemma waits_full ts : sum_list_with waits ts = length ts -> Forall (fun t => waits t = 1) ts.
Proof.
  induction ts as [|t ts IH]; [constructor|]. pose proof (waits_le ts). cbn. intros E.
  constructor; [|apply IH]; destruct t; cbn in *; lia.
Qed.

Record sound s : Prop := {
  sound_length : length (threads s) = num_readers;
  sound_blocked : blocked (store s) = sum_list_with waits (threads s);
  sound_open : done (store s) = false -> blocked (store s) < num_readers /\ Forall (.≠ Finished) (threads s);
  sound_done : done (store s) = true -> was_shut s = false ->
    queue (store s) = [] /\ Forall (fun t => t = Woken \/ t = Finished) (threads s);
  sound_awake : done (store s) = true -> closing s = false -> Forall (.≠ Sleeping) (threads s);
  sound_closing : closing s = true -> done (store s) = true /\ was_shut s = true;
  sound_work : taken s ++ queue (store s) ≡ₚ added s
}.

Lemma Forall_wake (P : Thread -> Prop) ts : P Woken -> Forall P ts -> Forall P (wake <$> ts).
Proof. intros HW H. apply Forall_fmap. eapply Forall_impl; [done|]. by intros []. Qed.
Lemma awake_wake ts : Forall (.≠ Sleeping) (wake <$> ts).
Proof. apply Forall_fmap, Forall_true. by intros []. Qed.
Lemma settled_insert ts i t : ts !! i = Some t -> waits t = 0 -> S (sum_list_with waits ts) = length ts ->
  Forall (fun t => t = Woken \/ t = Finished) (wake <$> <[i := Finished]> ts).
Proof.
  intros Hi Ht Hn. pose proof (sum_list_with_insert waits ts i Woken t Hi) as E. cbn in E.
  assert (Forall (fun t => waits t = 1) (<[i := Woken]> ts)) as HF by (apply waits_full; rewrite length_insert; lia).
  apply Forall_fmap. rewrite Forall_lookup in *. intros j x Hx. specialize (HF j). destruct (decide (i = j)) as [->|Hj].
  - rewrite list_lookup_insert_eq in Hx by by eapply lookup_lt_Some. injection Hx as <-. by right.
  - rewrite list_lookup_insert_ne in Hx, HF by done. specialize (HF x Hx). destruct x; cbn in *; first [done|by left].
Qed.
Lemma dequeue_none k (q : list C) : dequeue k q = None -> q = [].
Proof. intros E. destruct q as [|c q]; [done|]. destruct (dequeue_some k (c :: q)) as [? E']; [done|]. congruence. Qed.
Lemma dequeued_work k q (c : C) q' l r : dequeue k q = Some (c, q') -> l ++ q ≡ₚ r -> (l ++ [c]) ++ q' ≡ₚ r.
Proof. intros E%dequeue_perm <-. rewrite E. solve_Permutation. Qed.

Lemma sound_initial cs : sound (initial num_readers cs).
Proof.
  assert (sum_list_with waits (replicate num_readers Outside) = 0) as E by (clear readers; induction num_readers as [|n IH]; [reflexivity|exact IH]).
  split; cbn; try done.
  - apply length_replicate.
  - intros _. split; [done|]. by apply Forall_replicate.
Qed.
Lemma sound_next s t k st o n : threads s !! t = Some Outside -> next_begin num_readers k (store s) = (st, o, n) -> sound s ->
  sound (mkSystem st (wake_all n (<[t := outcome_thread o]> (threads s))) (closing s) (was_shut s) (added s) (taken s ++ outcome_taken o)).
Proof.
  intros Ht Hn []. pose proof (fun x => sum_list_with_insert waits _ t x _ Ht) as Hw. unfold next_begin in Hn.
  destruct (done (store s)) eqn:Hd; [|destruct (dequeue k (queue (store s))) as [[c q]|] eqn:Hq; [|case_match eqn:Hb]];
    injection Hn as <- <- <-; cbn [wake_all outcome_thread outcome_taken].
  - specialize (Hw Finished). split; cbn; rewrite ?length_insert, ?app_nil_r, ?Hd; try done; try congruence.
    + cbn in Hw. lia.
    + intros _ Hs. destruct (sound_done0 eq_refl Hs) as [? ?]. split; [done|]. apply Forall_insert; [done|by right].
    + intros _ Hc. by apply Forall_insert; [apply sound_awake0|].
  - specialize (Hw Outside). destruct (sound_open0 eq_refl). split; cbn; rewrite ?length_insert; try done; try congruence.
    + cbn in Hw. lia.
    + intros _. split; [done|]. by apply Forall_insert.
    + by eapply dequeued_work.
  - specialize (Hw Finished). apply Nat.eqb_eq in Hb. split; cbn; rewrite ?length_fmap, ?length_insert, ?app_nil_r; try done.
    + rewrite waits_wake. cbn in Hw. lia.
    + intros _ _. apply dequeue_none in Hq. split; [done|]. eapply settled_insert; [done|done|]. lia.
    + intros _ _. apply awake_wake.
    + intros Hc. by destruct (sound_closing0 Hc).
  - specialize (Hw Sleeping). apply Nat.eqb_neq in Hb. destruct (sound_open0 eq_refl).
    split; cbn; rewrite ?length_insert, ?app_nil_r, ?Hd; try done; try congruence.
    + cbn in Hw. lia.
    + intros _. split; [lia|]. by apply Forall_insert.
Qed.
Lemma sound_resume s t k st o : threads s !! t = Some Woken -> next_resume k (store s) = (st, o) -> sound s ->
  sound (mkSystem st (<[t := outcome_thread o]> (threads s)) (closing s) (was_shut s) (added s) (taken s ++ outcome_taken o)).
Proof.
  intros Ht Hn []. pose proof (fun x => sum_list_with_insert waits _ t x _ Ht) as Hw. unfold next_resume in Hn.
  destruct (done (store s)) eqn:Hd; [|destruct (dequeue k (queue (store s))) as [[c q]|] eqn:Hq];
    injection Hn as <- <-; cbn [outcome_thread outcome_taken].
  - specialize (Hw Finished). split; cbn; rewrite ?length_insert, ?app_nil_r; try done.
    + cbn in Hw. lia.
    + intros _ Hs. destruct (sound_done0 eq_refl Hs) as [? ?]. split; [done|]. apply Forall_insert; [done|by right].
    + intros _ Hc. by apply Forall_insert; [apply sound_awake0|].
  - specialize (Hw Outside). destruct (sound_open0 eq_refl). split; cbn; rewrite ?length_insert; try done.
    + cbn in Hw. lia.
    + intros _. split; [lia|]. by apply Forall_insert.
    + by eapply dequeued_work.
  - specialize (Hw Sleeping). destruct (sound_open0 eq_refl). split; cbn; rewrite ?length_insert, ?app_nil_r, ?Hd; try done; try congruence.
    + cbn in Hw. lia.
    + intros _. split; [lia|]. by apply Forall_insert.
Qed.
(** Threads that move between states that wait alike, nobody falling asleep. *)
Lemma sound_threads s ts : length ts = length (threads s) -> sum_list_with waits ts = sum_list_with waits (threads s) ->
  (forall P : Thread -> Prop, P Outside -> P Woken -> Forall P (threads s) -> Forall P ts) ->
  Forall (fun t => t = Woken \/ t = Finished) ts \/ done (store s) = false \/ was_shut s = true -> sound s ->
  sound (mkSystem (store s) ts (closing s) (was_shut s) (added s) (taken s)).
Proof.
  intros Hl Hw HP Hs []. split; cbn; try done; try congruence.
  - intros Hd. destruct (sound_open0 Hd). split; [done|]. by apply HP.
  - intros Hd Hn. destruct (sound_done0 Hd Hn). split; [done|]. destruct Hs as [?|[?|?]]; congruence.
  - intros Hd Hn. apply HP; [done|done|]. by apply sound_awake0.
Qed.
(** Only a store that is open or was shut down has threads that are not settled. *)
Lemma unsettled s i x : sound s -> threads s !! i = Some x -> x <> Woken -> x <> Finished -> done (store s) = false \/ was_shut s = true.
Proof.
  intros Hs Hi HW HF. destruct (done (store s)) eqn:Hd; [|by left]. destruct (was_shut s) eqn:Hn; [by right|].
  destruct (sound_done s Hs Hd Hn) as [_ Hall]. by destruct (Forall_lookup_1 _ _ _ _ Hall Hi).
Qed.

Lemma sound_notify s i y : threads s !! i = Some (Notifying y) -> sound s ->
  sound (mkSystem (store s) (<[i := Outside]> (threads s)) (closing s) (was_shut s) (added s) (taken s)).
Proof.
  intros Hi Hs. apply sound_threads; [by rewrite length_insert| | |right; by eapply unsettled|done].
  - pose proof (sum_list_with_insert waits _ i Outside _ Hi) as E. cbn in E. lia.
  - intros P HO _ HF. by apply Forall_insert.
Qed.
Lemma sound_rouse s i : threads s !! i = Some Sleeping -> sound s ->
  sound (mkSystem (store s) (<[i := Woken]> (threads s)) (closing s) (was_shut s) (added s) (taken s)).
Proof.
  intros Hi Hs. apply sound_threads; [by rewrite length_insert| | |right; by eapply unsettled|done].
  - pose proof (sum_list_with_insert waits _ i Woken _ Hi) as E. cbn in E. lia.
  - intros P _ HW HF. by apply Forall_insert.
Qed.
Lemma sound_wake s : sound s -> sound (mkSystem (store s) (wake <$> threads s) (closing s) (was_shut s) (added s) (taken s)).
Proof.
  intros Hs. apply sound_threads; [by rewrite length_fmap|apply waits_wake|intros P _ HW; by apply Forall_wake| |done].
  destruct (done (store s)) eqn:Hd; [|by right; left]. destruct (was_shut s) eqn:Hn; [by right; right|].
  left. apply Forall_wake; [by left|]. by apply (sound_done s Hs).
Qed.
Lemma sound_close s : sound s -> closing s = true ->
  sound (mkSystem (store s) (wake <$> threads s) false (was_shut s) (added s) (taken s)).
Proof.
  intros Hs Hc. destruct (sound_wake s Hs). destruct (sound_closing s Hs Hc). split; try done.
  intros _ _. apply awake_wake.
Qed.
Lemma other_sleeps ts i u b : ts !! i = Some (Notifying b) -> ts !! u = Some Sleeping -> <[i := Outside]> ts !! u = Some Sleeping.
Proof. intros Hi Hu. rewrite list_lookup_insert_ne; [done|congruence]. Qed.
Lemma sound_quiet s s' : quiet num_readers s s' -> sound s -> sound s'.
Proof.
  intros [s0 i k st o n Hi E|s0 i k st o Hi E|s0 i Hi|s0 i u Hi Hu|s0 i Hi _|s0 Hc] Hs.
  - by eapply sound_next.
  - by eapply sound_resume.
  - apply (sound_wake (mkSystem (store s0) (<[i := Outside]> (threads s0)) _ _ _ _)). by eapply sound_notify.
  - apply (sound_rouse (mkSystem (store s0) (<[i := Outside]> (threads s0)) _ _ _ _) u); [|by eapply sound_notify].
    by eapply other_sleeps.
  - by eapply sound_notify.
  - by apply sound_close.
Qed.
Lemma sound_step s s' : step num_readers s s' -> sound s -> sound s'.
Proof.
  intros [s0 s1 H|s0 i cs Hi|s0 i Hi|s0] Hs.
  - by eapply sound_quiet.
  - pose proof (unsettled s0 i _ Hs Hi ltac:(done) ltac:(done)) as Hu. destruct Hs.
    pose proof (sum_list_with_insert waits _ i (Notifying (negb (length cs =? 1))) _ Hi) as E. cbn in E.
    split; cbn; rewrite ?length_insert; try done; try lia.
    + intros Hd. destruct (sound_open0 Hd). split; [done|]. by apply Forall_insert.
    + intros Hd Hn. destruct Hu; congruence.
    + intros Hd Hc. apply Forall_insert; [by apply sound_awake0|done].
    + by rewrite app_assoc, sound_work0.
  - by apply sound_rouse.
  - destruct Hs. by split.
Qed.
Lemma sound_reachable cs s : reachable num_readers cs s -> sound s.
Proof.
  apply (rtc_ind_r sound); [apply sound_initial|]. intros s1 s2 _ H IH. by eapply sound_step.
Qed.

(** ** Every run ends *)

Definition weight (t : Thread) : nat :=
  match t with Finished => 0 | Sleeping => 1 | Woken => 2 | Outside => 3 | Notifying _ => num_readers + 4 end.
Definition measure s : nat :=
  sum_list_with weight (threads s) + 2 * length (queue (store s)) + (if done (store s) then 0 else S num_readers)
  + (if closing s then S num_readers else 0).
Lemma weight_wake ts : sum_list_with weight (wake <$> ts) <= sum_list_with weight ts + length ts.
Proof. induction ts as [|[] ts IH]; cbn in *; lia. Qed.
Lemma measure_quiet s s' : sound s -> quiet num_readers s s' -> measure s' < measure s.
Proof.
  intros Hs H. pose proof (sound_length s Hs) as Hl. unfold measure.
  destruct H as [s0 i k st o n Hi E|s0 i k st o Hi E|s0 i Hi|s0 i u Hi Hu|s0 i Hi _|s0 Hc]; cbn [store threads closing].
  - pose proof (fun x => sum_list_with_insert weight _ i x _ Hi) as Hw. unfold next_begin in E.
    destruct (done (store s0)) eqn:Hd; [|destruct (dequeue k (queue (store s0))) as [[c q]|] eqn:Hq; [|case_match]];
      injection E as <- <- <-; cbn [outcome_thread wake_all queue done]; rewrite ?Hd.
    + specialize (Hw Finished). cbn [weight] in Hw. lia.
    + specialize (Hw Outside). apply dequeue_perm, Permutation_length in Hq. cbn in Hq. lia.
    + specialize (Hw Finished). cbn [weight] in Hw. pose proof (weight_wake (<[i:=Finished]> (threads s0))) as Hk.
      rewrite length_insert in Hk. lia.
    + specialize (Hw Sleeping). cbn [weight] in Hw. lia.
  - pose proof (fun x => sum_list_with_insert weight _ i x _ Hi) as Hw. unfold next_resume in E.
    destruct (done (store s0)) eqn:Hd; [|destruct (dequeue k (queue (store s0))) as [[c q]|] eqn:Hq];
      injection E as <- <-; cbn [outcome_thread queue done]; rewrite ?Hd.
    + specialize (Hw Finished). cbn [weight] in Hw. lia.
    + specialize (Hw Outside). cbn [weight] in Hw. apply dequeue_perm, Permutation_length in Hq. cbn in Hq. lia.
    + specialize (Hw Sleeping). cbn [weight] in Hw. lia.
  - pose proof (sum_list_with_insert weight _ i Outside _ Hi) as Hw. cbn [weight] in Hw.
    pose proof (weight_wake (<[i:=Outside]> (threads s0))) as Hk. rewrite length_insert in Hk. lia.
  - pose proof (sum_list_with_insert weight _ i Outside _ Hi) as Hw.
    pose proof (sum_list_with_insert weight _ u Woken _ (other_sleeps _ _ _ _ Hi Hu)) as Hw'. cbn [weight] in Hw, Hw'. lia.
  - pose proof (sum_list_with_insert weight _ i Outside _ Hi) as Hw. cbn [weight] in Hw. lia.
  - rewrite Hc. pose proof (weight_wake (threads s0)). lia.
Qed.
Lemma quiet_bounded n s s' : sound s -> nsteps (quiet num_readers) n s s' -> n + measure s' <= measure s.
Proof.
  intros Hs H. revert Hs. induction H as [s|n s1 s2 s3 H12 _ IH]; intros Hs; [lia|].
  pose proof (measure_quiet _ _ Hs H12). specialize (IH (sound_quiet _ _ H12 Hs)). lia.
Qed.
Lemma quiet_kept s s' : quiet num_readers s s' -> was_shut s' = was_shut s /\ added s' = added s.
Proof. by intros []. Qed.
Lemma quiet_run_kept s s' : rtc (quiet num_readers) s s' -> sound s ->
  sound s' /\ was_shut s' = was_shut s /\ added s' = added s.
Proof.
  induction 1 as [s|s1 s2 s3 H12 _ IH]; intros Hs; [done|].
  destruct (IH (sound_quiet _ _ H12 Hs)) as (? & -> & ->). destruct (quiet_kept _ _ H12) as [-> ->]. done.
Qed.
(** Some thread of every system can move, until all of them are finished. *)
Lemma finished_or_moves s : sound s -> Forall (eq Finished) (threads s) \/ exists s', quiet num_readers s s'.
Proof.
  intros Hs. destruct (closing s) eqn:Hc; [right; eexists; by eapply quiet_close|].
  destruct (decide (Forall (eq Finished) (threads s))) as [HF|HF]; [by left|]. right.
  destruct (decide (Exists (fun t => t <> Sleeping /\ t <> Finished) (threads s))) as [HE|HE].
  - apply Exists_exists in HE as (t & [i Hi]%list_elem_of_lookup & Ht1 & Ht2). destruct t as [|[]| | |]; try done.
    + destruct (next_begin num_readers 0 (store s)) as [[st o] n] eqn:E. eexists. by eapply quiet_next.
    + eexists. by eapply quiet_notify_all.
    + destruct (decide (Sleeping ∈ threads s)) as [[u Hu]%list_elem_of_lookup|Hu].
      * eexists. by eapply quiet_notify_one.
      * eexists. by eapply quiet_notify_none.
    + destruct (next_resume 0 (store s)) as [st o] eqn:E. eexists. by eapply quiet_resume.
  - exfalso. apply not_Exists_Forall in HE; [|intros x; apply _]. destruct (done (store s)) eqn:Hd.
    + pose proof (sound_awake s Hs Hd Hc) as Ha. apply HF. rewrite Forall_lookup in *. intros i t Hi.
      specialize (Ha i t Hi). specialize (HE i t Hi). cbn in *. destruct (decide (t = Finished)) as [->|]; [done|]. by destruct HE.
    + destruct (sound_open s Hs Hd) as [Hb Hn]. rewrite (sound_blocked s Hs) in Hb.
      assert (sum_list_with waits (threads s) = length (threads s)) as E; [|rewrite E, (sound_length s Hs) in Hb; lia].
      clear -HE Hn. induction (threads s) as [|t ts IH]; [done|]. inversion_clear HE as [|?? Ht ?]. inversion_clear Hn.
      cbn. rewrite IH by done. destruct t; try done; by destruct Ht.
Qed.
Lemma finished_done s : sound s -> Forall (eq Finished) (threads s) -> done (store s) = true.
Proof.
  intros Hs HF. destruct (done (store s)) eqn:Hd; [done|]. destruct (sound_open s Hs Hd) as [_ Hn].
  pose proof (sound_length s Hs) as Hl. destruct (threads s) as [|t ts]; cbn in Hl; [lia|].
  inversion_clear HF; inversion_clear Hn; congruence.
Qed.
Lemma workers_run_down s : sound s -> exists s', rtc (quiet num_readers) s s' /\ Forall (eq Finished) (threads s').
Proof.
  induction s as [s IH] using (induction_ltof1 _ measure). intros Hs.
  destruct (finished_or_moves s Hs) as [HF|[s1 H1]]; [by exists s|].
  destruct (IH s1) as (s' & Hr & HF); [by apply measure_quiet|by eapply sound_quiet|].
  exists s'. split; [by eapply rtc_l|done].
Qed.

(** C6: Workers that are left to themselves finish: from every system a run
    reaches, however contexts were added, threads woke up by chance and the
    store was shut down before, the workers make at most [measure] more moves
    (none is lost in a wait nobody ends); a system in which nobody can move is
    one whose workers are all finished, and it can always be reached. Unless the
    store was shut down, every context that was ever added has then been taken. *)
Theorem workers_finish cs s : reachable num_readers cs s ->
  (forall n s', nsteps (quiet num_readers) n s s' -> n <= measure s) /\
  (forall s', rtc (quiet num_readers) s s' -> (forall s'', ~ quiet num_readers s' s'') -> Forall (eq Finished) (threads s')) /\
  exists s', rtc (quiet num_readers) s s' /\ Forall (eq Finished) (threads s') /\
    (was_shut s = false -> queue (store s') = [] /\ taken s' ≡ₚ added s).
Proof.
  intros Hs%sound_reachable. split_and!.
  - intros n s' H. pose proof (quiet_bounded _ _ _ Hs H). lia.
  - intros s' H Hst. destruct (quiet_run_kept _ _ H Hs) as (Hs' & _ & _).
    destruct (finished_or_moves s' Hs') as [|[s'' H'']]; [done|]. by destruct (Hst s'').
  - destruct (workers_run_down s Hs) as (s' & H & HF). destruct (quiet_run_kept _ _ H Hs) as (Hs' & E & <-).
    exists s'. split_and!; [done..|]. intros Hn. rewrite <- E in Hn.
    destruct (sound_done s' Hs' (finished_done s' Hs' HF) Hn) as [Hq _]. split; [done|].
    pose proof (sound_work s' Hs') as Hw. by rewrite Hq, app_nil_r in Hw.
Qed.

(** C16: A store says that it is done, without having been shut down, only when
    there is nothing left to do: its queue is empty, no worker is out with a
    context that might add more, and every context added was handed out, once.
    While it is not done there is a worker that is not waiting. *)
Theorem done_means_no_work cs s : reachable num_readers cs s ->
  taken s ++ queue (store s) ≡ₚ added s /\
  (done (store s) = true -> was_shut s = false ->
    queue (store s) = [] /\ taken s ≡ₚ added s /\ Forall (fun t => t = Woken \/ t = Finished) (threads s)) /\
  (done (store s) = false -> exists i t, threads s !! i = Some t /\ t <> Sleeping /\ t <> Woken /\ t <> Finished).
Proof.
  intros Hs%sound_reachable. pose proof (sound_work s Hs) as Hw. split_and!; [done| |].
  - intros Hd Hn. destruct (sound_done s Hs Hd Hn) as [Hq Ht]. rewrite Hq, app_nil_r in Hw. done.
  - intros Hd. destruct (sound_open s Hs Hd) as [Hb Hn]. rewrite (sound_blocked s Hs) in Hb.
    rewrite <- (sound_length s Hs) in Hb. clear -Hb Hn. induction (threads s) as [|t ts IH]; cbn in *; [lia|].
    inversion_clear Hn. destruct (decide (waits t = 0)) as [E|E].
    + exists 0, t. split; [done|]. destruct t; done.
    + destruct IH as (i & t' & ?); [destruct t; cbn in *; lia|done|]. by exists (S i), t'.
Qed.
End facts.

(** The queueing store hands contexts out in the order they were added. *)
Lemma fifo_dequeue {C} k (q : list C) c q' : dequeue k q = Some (c, q') -> q = c :: q'.
Proof. destruct q; [done|]. by intros [= -> ->]. Qed.
Theorem queue_in_order {C} n (cs : list C) s : reachable n cs s -> taken s ++ queue (store s) = added s.
Proof.
  apply (rtc_ind_r (fun s => taken s ++ queue (store s) = added s)); [done|]. clear s. intros s1 s2 _ H IH.
  destruct H as [s s' H|s i cs' Hi|s i Hi|s]; cbn; [|by rewrite app_assoc, IH|done..].
  destruct H as [s i k st o m Hi E|s i k st o Hi E|?|?|?|?]; cbn; try done; rewrite <- IH.
  - unfold next_begin in E. destruct (done (store s)), (dequeue k (queue (store s))) as [[c q]|] eqn:Hq; repeat case_match;
      injection E as <- <- <-; cbn; rewrite ?app_nil_r; try done. apply fifo_dequeue in Hq as ->. by rewrite <- app_assoc.
  - unfold next_resume in E. destruct (done (store s)), (dequeue k (queue (store s))) as [[c q]|] eqn:Hq;
      injection E as <- <-; cbn; rewrite ?app_nil_r; try done. apply fifo_dequeue in Hq as ->. by rewrite <- app_assoc.
Qed.

(** Two workers: the first takes the one context there is, the second goes to
    sleep, the first adds another. *)
Module store_witness.
Definition added_one : System (C := nat) :=
  mkSystem (mkStore [8] false 1) [Notifying false; Sleeping] false false [7; 8] [7].
Lemma added_one_reachable : reachable 2 [7] added_one.
Proof.
  eapply rtc_l; [apply step_quiet, (quiet_next _ _ 0 0); reflexivity|].
  eapply rtc_l; [apply step_quiet, (quiet_next _ _ 1 0); reflexivity|].
  eapply rtc_l; [apply (step_add _ _ 0 [8]); reflexivity|]. apply rtc_refl.
Qed.
Lemma workers_finish_witness : exists s', rtc (quiet 2) added_one s' /\ Forall (eq Finished) (threads s') /\ taken s' ≡ₚ [7; 8].
Proof.
  destruct (workers_finish 2 ltac:(lia) [7] added_one added_one_reachable) as (_ & _ & s' & Hr & HF & Ht).
  exists s'. split; [exact Hr|]. split; [exact HF|]. exact (proj2 (Ht eq_refl)).
Defined.
Lemma done_means_no_work_witness : exists i t, threads added_one !! i = Some t /\ t <> Sleeping /\ t <> Woken /\ t <> Finished.
Proof. exact (proj2 (proj2 (done_means_no_work 2 ltac:(lia) [7] added_one added_one_reachable)) eq_refl). Defined.
End store_witness.
