(* ===== verification/StoreAdapters.v ===== *)
(** The stores as one worker uses them (include/caffeine/Interpreter/Store.h),
    and the stores that limit another one: [CountLimitedStore],
    [TimeLimitedStore]; [NullContextStore]; and the work-stealing
    [ThreadQueueContextStore].

    The interface is the class [ContextStore]; [StoreLaws] is what the worker
    relies on, [Stops] what the limiting stores rely on. *)
From S2P Require Import Prelude ContextStore.
From stdpp Require Import list.

(** [ExecutionContextStore]; the list holds the choices of the random generator. *)
Class ContextStore (St C : Type) := {
  next_context : list nat -> St -> Outcome (C := C) * St;
  add_context : C -> St -> St;
  add_context_multi : list C -> St -> St;
  store_shutdown : St -> St
}.
(** [ExecutionContextStore::add_context_multi], unless it is overridden. *)
Definition default_add_context_multi {St C} (add : C -> St -> St) (cs : list C) (s : St) : St := fold_left (fun s c => add c s) cs s.

Section instances.
Context {C : Type}.

(** The queueing store with one reader. *)
Definition single_next `{!Removal C} (ks : list nat) (s : Store (C := C)) : Outcome (C := C) * Store (C := C) :=
  let '(s, o, _) := next_begin 1 (hd 0 ks) s in (o, s).
#[export] Instance queueing_store : ContextStore (Store (C := C)) C := {|
  next_context := single_next (Removal0 := fifo);
  add_context c := add_contexts [c];
  add_context_multi := add_contexts;
  store_shutdown := shutdown
|}.
(** [RandomizedContextStore] overrides neither [add_context_multi] nor [shutdown]. *)
Record Randomized : Type := mkRandomized { random_store : Store (C := C) }.
#[export] Instance randomized_store : ContextStore Randomized C := {|
  next_context ks s := let '(o, s) := single_next (Removal0 := randomized) ks (random_store s) in (o, mkRandomized s);
  add_context c s := mkRandomized (add_contexts [c] (random_store s));
  add_context_multi := default_add_context_multi (fun c s => mkRandomized (add_contexts [c] (random_store s)));
  store_shutdown s := s
|}.
#[export] Instance NullContextStore : ContextStore unit C := {|
  next_context _ s := (Returned None, s);
  add_context _ s := s;
  add_context_multi _ s := s;
  store_shutdown s := s
|}.

(** *** [ThreadQueueContextStore] *)
(** The queues of the threads in the order of the map. The counters are
    [size_t]s that count threads and contexts in memory. *)
Record ThreadQueues : Type := mkThreadQueues {
  queues : list (nat * list C); tq_done : bool; explicit_shutdown : bool; tq_free : Z; size : Z }.
Definition steal (q : list C) : option (C * list C) := match q with [] => None | c :: q => Some (c, q) end.
Definition dequeue_back (q : list C) : option (C * list C) := match last q with None => None | Some c => Some (c, removelast q) end.
Definition find_queue (thread : nat) (qs : list (nat * list C)) : option (nat * list C) :=
  match list_find (fun p => p.1 = thread) qs with Some (i, p) => Some (i, p.2) | None => None end.
Definition set_queue_at (i : nat) (q : list C) (qs : list (nat * list C)) : list (nat * list C) :=
  match qs !! i with Some p => <[i := (p.1, q)]> qs | None => qs end.
(** The loop that tries a random queue until it finds a context or the store is
    done; without further choices it is still waiting. There is a queue: the
    first context is added before the workers start. *)
Fixpoint steal_loop (picks : list nat) (s : ThreadQueues) : Outcome (C := C) * ThreadQueues :=
  if tq_done s then (Returned None, s)
  else
    match picks with
    | [] => (Blocks, s)
    | k :: picks =>
        let index := (k mod length (queues s))%nat in
        match (p ← queues s !! index; steal p.2) with
        | Some (c, q) => (Returned (Some c), mkThreadQueues (set_queue_at index q (queues s)) (tq_done s) (explicit_shutdown s) (tq_free s) (size s - 1))
        | None => steal_loop picks s
        end
    end.
Definition set_free (s : ThreadQueues) (n : Z) : ThreadQueues := mkThreadQueues (queues s) (tq_done s) (explicit_shutdown s) n (size s).
Definition thread_next (thread : nat) (picks : list nat) (s : ThreadQueues) : Outcome (C := C) * ThreadQueues :=
  match (p ← find_queue thread (queues s); r ← dequeue_back p.2; Some (p.1, r)) with
  | Some (i, (c, q)) =>
      (Returned (Some c), mkThreadQueues (set_queue_at i q (queues s)) (tq_done s) (explicit_shutdown s) (tq_free s) (size s - 1))
  | None =>
      let cfree := (tq_free s - 1)%Z in
      if (cfree =? 0)%Z && (size s =? 0)%Z then
        (Returned None, mkThreadQueues (queues s) true (explicit_shutdown s) (cfree + 1) (size s))
      else
        match steal_loop picks (set_free s cfree) with
        | (Blocks, s) => (Blocks, s)
        | (o, s) => (o, set_free s (cfree + 1))
        end
  end.
(** [get_thread_queue] makes the queue of a thread that has none. *)
Definition get_thread_queue (thread : nat) (s : ThreadQueues) : nat * list C * ThreadQueues :=
  match find_queue thread (queues s) with
  | Some (i, q) => (i, q, s)
  | None => (length (queues s), [], mkThreadQueues (queues s ++ [(thread, [])]) (tq_done s) (explicit_shutdown s) (tq_free s) (size s))
  end.
Definition thread_add (thread : nat) (cs : list C) (s : ThreadQueues) : ThreadQueues :=
  let '(i, q, s) := get_thread_queue thread s in
  mkThreadQueues (set_queue_at i (q ++ cs) (queues s)) (tq_done s) (explicit_shutdown s) (tq_free s) (size s + Z.of_nat (length cs)).
Definition ThreadQueueContextStore_ctor (numthreads : Z) : ThreadQueues := mkThreadQueues [] false false numthreads 0.
Definition thread_shutdown (s : ThreadQueues) : ThreadQueues := mkThreadQueues (queues s) true true (tq_free s) (size s).
#[export] Instance thread_queue_store : ContextStore ThreadQueues C := {|
  next_context := thread_next 0;
  add_context c := thread_add 0 [c];
  add_context_multi := thread_add 0;
  store_shutdown := thread_shutdown
|}.
End instances.
Arguments Randomized : clear implicits.
Arguments ThreadQueues : clear implicits.

(** *** Stores around a store *)
Section adapters.
Context {St C : Type} `{!ContextStore St C}.
Open Scope Z_scope.

Record CountLimited : Type := mkCountLimited { cl_store : St; count : Z; limit : Z }.
Definition CountLimitedStore_ctor (context_limit : Z) (s : St) : CountLimited := mkCountLimited s 0 context_limit.
Definition CountLimited_next (ks : list nat) (s : CountLimited) : Outcome (C := C) * CountLimited :=
  let current := count s in
  let st := if current =? limit s then store_shutdown (cl_store s) else cl_store s in
  let counted st := mkCountLimited st (wrap 64 (current + 1)) (limit s) in
  if limit s <? current then (Returned None, counted st)
  else let '(o, st) := next_context ks st in (o, counted st).
Definition CountLimited_on (s : CountLimited) (f : St -> St) : CountLimited := mkCountLimited (f (cl_store s)) (count s) (limit s).
#[export] Instance count_limited_store : ContextStore CountLimited C := {|
  next_context := CountLimited_next;
  add_context c s := CountLimited_on s (add_context c);
  add_context_multi cs s := CountLimited_on s (add_context_multi cs);
  store_shutdown s := CountLimited_on s store_shutdown
|}.

(** [clock] is what the steady clock reads at the next call. *)
Record TimeLimited : Type := mkTimeLimited { tl_store : St; endpoint : Z; shutdown_started : bool; clock : list Z }.
Definition TimeLimited_shutdown (s : TimeLimited) : TimeLimited :=
  mkTimeLimited (if shutdown_started s then tl_store s else store_shutdown (tl_store s)) (endpoint s) true (clock s).
Definition TimeLimited_next (ks : list nat) (s : TimeLimited) : Outcome (C := C) * TimeLimited :=
  let now := hd 0 (clock s) in
  let s := mkTimeLimited (tl_store s) (endpoint s) (shutdown_started s) (tail (clock s)) in
  if endpoint s <? now then (Returned None, TimeLimited_shutdown s)
  else let '(o, st) := next_context ks (tl_store s) in (o, mkTimeLimited st (endpoint s) (shutdown_started s) (clock s)).
Definition TimeLimited_on (s : TimeLimited) (f : St -> St) : TimeLimited :=
  mkTimeLimited (f (tl_store s)) (endpoint s) (shutdown_started s) (clock s).
#[export] Instance time_limited_store : ContextStore TimeLimited C := {|
  next_context := TimeLimited_next;
  add_context c s := TimeLimited_on s (add_context c);
  add_context_multi cs s := TimeLimited_on s (add_context_multi cs);
  store_shutdown := TimeLimited_shutdown
|}.
End adapters.
Arguments CountLimited : clear implicits.
Arguments TimeLimited : clear implicits.

(** ** What a worker relies on *)
Class StoreLaws (St C : Type) `{!ContextStore St C} := {
  contents : St -> list C;
  (** nobody shut the store down, and it has not given up *)
  open_store : St -> Prop;
  next_some : forall ks s c s', next_context ks s = (Returned (Some c), s') -> contents s ≡ₚ c :: contents s' /\ (open_store s -> open_store s');
  next_none : forall ks s s', next_context ks s = (Returned None, s') -> contents s' = contents s /\ (open_store s -> contents s = []);
  add_keeps : forall c s, contents (add_context c s) ≡ₚ c :: contents s /\ (open_store s -> open_store (add_context c s))
}.

Section laws.
Context {C : Type}.
Lemma single_next_some `{!Removal C} ks (s : Store (C := C)) c s' :
  single_next ks s = (Returned (Some c), s') -> queue s ≡ₚ c :: queue s' /\ (done s = false -> done s' = false).
Proof.
  unfold single_next, next_begin. destruct (done s) eqn:Hd; [done|].
  destruct (dequeue _ (queue s)) as [[c' q]|] eqn:Hq; [|by destruct (_ =? _)%nat]. intros [= <- <-]. split; [by eapply dequeue_perm|done].
Qed.
Lemma single_next_none `{!Removal C} ks (s s' : Store (C := C)) :
  single_next ks s = (Returned None, s') -> queue s' = queue s /\ (done s = false -> queue s = []).
Proof.
  unfold single_next, next_begin. destruct (done s) eqn:Hd; [by intros [= <-]|].
  destruct (dequeue _ (queue s)) as [[c' q]|] eqn:Hq; [done|]. destruct (_ =? _)%nat; [|done]. intros [= <-]. split; [done|]. intros _.
  by eapply dequeue_none.
Qed.
#[export, refine] Instance queueing_laws : StoreLaws (Store (C := C)) C := {| contents := queue; open_store s := done s = false |}.
Proof.
  - intros ks s c s'. apply (single_next_some (Removal0 := fifo)).
  - intros ks s s'. apply (single_next_none (Removal0 := fifo)).
  - intros c s. split; [|done]. cbn. solve_Permutation.
Defined.
#[export, refine] Instance randomized_laws : StoreLaws (Randomized C) C :=
  {| contents s := queue (random_store s); open_store s := done (random_store s) = false |}.
Proof.
  - intros ks [s] c [s']. cbn. destruct (single_next ks s) as [o t] eqn:E. intros [= -> <-]. by eapply (single_next_some (Removal0 := randomized)).
  - intros ks [s] [s']. cbn. destruct (single_next ks s) as [o t] eqn:E. intros [= -> <-]. by eapply (single_next_none (Removal0 := randomized)).
  - intros c [s]. split; [|done]. cbn. solve_Permutation.
Defined.

(** *** The thread queues *)
Definition all_queued (s : ThreadQueues C) : list C := concat (queues s).*2.
Lemma queue_split (qs : list (nat * list C)) i p q : qs !! i = Some p -> exists rest,
  concat qs.*2 ≡ₚ p.2 ++ rest /\ concat (set_queue_at i q qs).*2 ≡ₚ q ++ rest.
Proof.
  intros Hi. exists (concat (take i qs ++ drop (S i) qs).*2). unfold set_queue_at. rewrite Hi.
  rewrite insert_take_drop by by eapply lookup_lt_Some. rewrite <- (take_drop_middle qs i p Hi) at 1.
  rewrite !fmap_app, !concat_app. cbn. split; solve_Permutation.
Qed.
Lemma find_queue_lookup t (qs : list (nat * list C)) i q : find_queue t qs = Some (i, q) -> exists u, qs !! i = Some (u, q).
Proof.
  unfold find_queue. destruct (list_find _ qs) as [[j [u q']]|] eqn:E; [|done]. intros [= -> <-].
  apply list_find_Some in E as (E & _). by exists u.
Qed.
Lemma dequeue_back_perm (q : list C) c q' : dequeue_back q = Some (c, q') -> q = q' ++ [c].
Proof.
  unfold dequeue_back. destruct (last q) as [x|] eqn:E; [|done]. apply last_Some in E as [s ->]. rewrite removelast_last.
  by intros [= <- <-].
Qed.
Lemma took_one (s : ThreadQueues C) i p c q : queues s !! i = Some p -> p.2 ≡ₚ c :: q ->
  all_queued s ≡ₚ c :: concat (set_queue_at i q (queues s)).*2.
Proof. intros Hi Hq. destruct (queue_split _ _ _ q Hi) as (rest & E1 & E2). unfold all_queued. by rewrite E1, E2, Hq. Qed.
(** The counter of contexts is right. *)
Definition counted (s : ThreadQueues C) : Prop := size s = Z.of_nat (length (all_queued s)).
Lemma counted_took (s : ThreadQueues C) c (l : list C) : counted s -> all_queued s ≡ₚ c :: l -> (size s - 1)%Z = Z.of_nat (length l).
Proof. unfold counted. intros -> ->%Permutation_length. cbn [length]. lia. Qed.
Lemma steal_loop_spec picks (s : ThreadQueues C) o s' : steal_loop picks s = (o, s') ->
  match o with
  | Returned (Some c) => all_queued s ≡ₚ c :: all_queued s' /\ (tq_done s = false /\ counted s -> tq_done s' = false /\ counted s')
  | Returned None => s' = s /\ tq_done s = true
  | Blocks => s' = s
  end.
Proof.
  induction picks as [|k picks IH]; cbn; destruct (tq_done s) eqn:Hd; try (by intros [= <- <-]).
  destruct (queues s !! _) as [[u [|c q]]|] eqn:Hi; cbn; [done| |done]. intros [= <- <-].
  assert (all_queued s ≡ₚ c :: concat (set_queue_at (k mod length (queues s)) q (queues s)).*2) as E by by eapply took_one.
  split; [done|]. intros [_ Hc]. split; [done|]. by eapply counted_took.
Qed.
Lemma thread_next_some t picks (s : ThreadQueues C) c s' : thread_next t picks s = (Returned (Some c), s') ->
  all_queued s ≡ₚ c :: all_queued s' /\ (tq_done s = false /\ counted s -> tq_done s' = false /\ counted s').
Proof.
  unfold thread_next. destruct (find_queue t (queues s)) as [[i q]|] eqn:Hf; cbn; [destruct (dequeue_back q) as [[x q']|] eqn:Hq; cbn|].
  - intros [= <- <-]. apply find_queue_lookup in Hf as [u Hi]. apply dequeue_back_perm in Hq as ->.
    assert (all_queued s ≡ₚ x :: concat (set_queue_at i q' (queues s)).*2) as E by (eapply took_one; [done|]; cbn; solve_Permutation).
    split; [done|]. intros [? Hc]. split; [done|]. by eapply counted_took.
  - case_match; [done|]. destruct (steal_loop _ _) as [[[x|]|] s1] eqn:Hl; try done. intros [= <- <-]. exact (steal_loop_spec _ _ _ _ Hl).
  - case_match; [done|]. destruct (steal_loop _ _) as [[[x|]|] s1] eqn:Hl; try done. intros [= <- <-]. exact (steal_loop_spec _ _ _ _ Hl).
Qed.
Lemma thread_next_none t picks (s s' : ThreadQueues C) : thread_next t picks s = (Returned None, s') ->
  all_queued s' = all_queued s /\ (tq_done s = false /\ counted s -> all_queued s = []).
Proof.
  unfold thread_next. destruct (p ← _; _) as [[i [x q']]|]; [done|].
  destruct ((_ =? 0)%Z && (size s =? 0)%Z) eqn:E0.
  - intros [= <-]. split; [done|]. intros [_ Hc]. apply andb_prop in E0 as [_ Hz%Z.eqb_eq]. unfold counted in Hc.
    destruct (all_queued s); [done|cbn in Hc; lia].
  - destruct (steal_loop _ _) as [[[x|]|] s1] eqn:Hl; try done. intros [= <-]. destruct (steal_loop_spec _ _ _ _ Hl) as [-> Hd].
    split; [done|]. intros [Hn _]. cbn in Hd. congruence.
Qed.
Lemma thread_add_spec t cs (s : ThreadQueues C) : all_queued (thread_add t cs s) ≡ₚ cs ++ all_queued s /\
  tq_done (thread_add t cs s) = tq_done s /\ size (thread_add t cs s) = (size s + Z.of_nat (length cs))%Z.
Proof.
  unfold thread_add, get_thread_queue. destruct (find_queue t (queues s)) as [[i q]|] eqn:Hf; cbn; (split; [|done]).
  - apply find_queue_lookup in Hf as [u Hi]. destruct (queue_split _ _ _ (q ++ cs) Hi) as (rest & E1 & E2).
    unfold all_queued. cbn. rewrite E1, E2. cbn. solve_Permutation.
  - assert ((queues s ++ [(t, [])]) !! length (queues s) = Some (t, [] : list C)) as Hi by by apply list_lookup_middle.
    destruct (queue_split _ _ _ cs Hi) as (rest & E1 & E2). unfold all_queued. cbn. rewrite E2.
    rewrite fmap_app, concat_app in E1. cbn in E1. rewrite app_nil_r in E1. by rewrite E1.
Qed.
#[export, refine] Instance thread_queue_laws : StoreLaws (ThreadQueues C) C :=
  {| contents := all_queued; open_store s := tq_done s = false /\ counted s |}.
Proof.
  - intros ks s c s'. apply thread_next_some.
  - intros ks s s'. apply thread_next_none.
  - intros c s. destruct (thread_add_spec 0 [c] s) as (E & Hd & Hs). split; [exact E|]. intros [Ho Hc].
    split; [cbn; by rewrite Hd|]. unfold counted in *. cbn [add_context thread_queue_store]. rewrite Hs, Hc, E. cbn [length app]. lia.
Defined.
End laws.

(** ** What the limits rely on *)
Class Stops (St C : Type) `{!ContextStore St C} := {
  stopped : St -> Prop;
  shutdown_stops : forall s, stopped (store_shutdown s);
  stopped_next : forall ks s, stopped s -> (next_context ks s).1 = Returned None /\ stopped (next_context ks s).2;
  stopped_add : forall c s, stopped s -> stopped (add_context c s);
  stopped_multi : forall cs s, stopped s -> stopped (add_context_multi cs s)
}.
#[export, refine] Instance queueing_stops {C} : Stops (Store (C := C)) C := {| stopped s := done s = true |}.
Proof.
  - done.
  - intros ks [q [] b]; [done|]. intros [=].
  - done.
  - done.
Defined.

(** A worker's calls of a store, and the contexts it is handed. *)
Inductive StoreCall (C : Type) : Type := CallNext (ks : list nat) | CallAdd (c : C) | CallAddMulti (cs : list C).
Arguments CallNext {_}. Arguments CallAdd {_}. Arguments CallAddMulti {_}.

Section limits.
Context {St C : Type} `{!ContextStore St C}.
Definition call_store (op : StoreCall C) (s : St) : list C * St :=
  match op with
  | CallNext ks => let '(o, s) := next_context ks s in (outcome_taken o, s)
  | CallAdd c => ([], add_context c s)
  | CallAddMulti cs => ([], add_context_multi cs s)
  end.
Fixpoint call_all (ops : list (StoreCall C)) (s : St) : list C * St :=
  match ops with
  | [] => ([], s)
  | op :: ops => let '(r, s) := call_store op s in let '(rs, s) := call_all ops s in (r ++ rs, s)
  end.
End limits.

Section count_limit.
Context {St C : Type} `{!ContextStore St C} `{!Stops St C}.
Open Scope Z_scope.
(** [n] contexts may still be handed out. *)
Definition may_hand_out (s : CountLimited St) (calls : nat) (n : Z) : Prop :=
  0 <= count s /\ count s + Z.of_nat calls < 2 ^ 64 /\ 0 <= n /\ limit s - count s <= n /\ (limit s < count s -> stopped (cl_store s)).
Lemma taken_one (o : Outcome (C := C)) : (length (outcome_taken o) <= 1)%nat.
Proof. destruct o as [[]|]; cbn; lia. Qed.
Lemma call_limited op (s : CountLimited St) calls n : may_hand_out s (S calls) n ->
  let '(r, s') := call_store op s in may_hand_out s' calls (n - Z.of_nat (length r)).
Proof.
  intros (H0 & H1 & H2 & H3 & H4). destruct op as [ks|c|cs]; cbn [call_store].
  - cbn [next_context count_limited_store]. unfold CountLimited_next. rewrite wrap_small by lia.
    destruct (Z.ltb_spec (limit s) (count s)) as [Hl|Hl].
    + destruct (Z.eqb_spec (count s) (limit s)); [lia|]. cbn. repeat split; cbn; try lia. intros _. by apply H4.
    + destruct (Z.eqb_spec (count s) (limit s)) as [He|He].
      * destruct (stopped_next ks _ (shutdown_stops (cl_store s))) as [E Hs]. destruct (next_context ks _) as [o st].
        cbn in E, Hs. subst o. cbn. repeat split; cbn; try lia. by intros _.
      * destruct (next_context ks (cl_store s)) as [o st]. pose proof (taken_one o). repeat split; cbn; lia.
  - cbn. repeat split; cbn; try lia. intros Hl. by apply stopped_add, H4.
  - cbn. repeat split; cbn; try lia. intros Hl. by apply stopped_multi, H4.
Qed.
Lemma calls_limited ops (s : CountLimited St) n : may_hand_out s (length ops) n -> Z.of_nat (length (call_all ops s).1) <= n.
Proof.
  revert s n. induction ops as [|op ops IH]; intros s n H; [destruct H as (? & ? & ? & _); cbn; lia|].
  pose proof (call_limited op s (length ops) n H) as H'. cbn. destruct (call_store op s) as [r s'].
  specialize (IH s' _ H'). destruct (call_all ops s') as [rs s'']. cbn in *. rewrite length_app. lia.
Qed.

(** A [CountLimitedStore] around a store that stops when it is shut down hands
    out no more contexts than its limit, whatever calls are made (fewer than
    2^64 of them). *)
Theorem count_limit_respected (n : Z) (s : St) (ops : list (StoreCall C)) :
  0 <= n -> Z.of_nat (length ops) < 2 ^ 64 ->
  Z.of_nat (length (call_all ops (CountLimitedStore_ctor n s)).1) <= n.
Proof. intros H0 Hn. apply calls_limited. repeat split; cbn; lia. Qed.
End count_limit.

(** The [ThreadQueueContextStore] does not look at [done] while the worker's own
    queue has contexts: limited to one context it hands out two, and so does the
    [RandomizedContextStore], whose [shutdown] does nothing. *)
Theorem count_limit_exceeded :
  let calls := [CallAddMulti [1; 2; 3]; CallNext []; CallNext []; CallNext []] in
  (call_all calls (CountLimitedStore_ctor 1 (ThreadQueueContextStore_ctor 1))).1 = [3; 2] /\
  (call_all calls (CountLimitedStore_ctor 1 (mkRandomized QueueingContextStore_ctor))).1 = [1; 3] /\
  (call_all calls (CountLimitedStore_ctor 1 (QueueingContextStore_ctor (C := nat)))).1 = [1].
Proof. vm_compute. done. Qed.

Module adapters_witness.
Lemma count_limit_respected_witness :
  (Z.of_nat (length (call_all [CallAdd 5%nat; CallNext []; CallAdd 6%nat; CallNext []] (CountLimitedStore_ctor 1 QueueingContextStore_ctor)).1) <= 1)%Z.
Proof. apply (count_limit_respected 1 (QueueingContextStore_ctor (C := nat)) [CallAdd 5; CallNext []; CallAdd 6; CallNext []]); cbn; lia. Defined.
End adapters_witness.
