(* ===== verification/Executor.v ===== *)
(** The workers of the executor (src/Interpreter/Executor.cpp).

    A worker takes a context from the store and executes it one instruction at a
    time; of the live contexts an instruction leaves it keeps the first and
    hands the others back to the store.  The store is any [ContextStore]; the
    theorem relies on its [StoreLaws]. *)
From S2P Require Import Prelude LLVM IRType Value Opcode Operation Matching Create Semantics.
From S2P Require Import Simplifier ModelEval SparseVector Assertions Slicer Solvers Allocation SlotMap BumpAllocator MemHeap.
From S2P Require Import UnionFind EGraph EGraphRebuild Extract GraphAssertions Frames Context ValueMemory Constprop EMatching Effects OperationBuilder InterpreterContext ExprEval Interpreter.
From S2P Require Import ContextStore StoreAdapters.
From stdpp Require Import list.

Section executor.
Context `{PtrEq} `{!DataPtrEq} `{MapOrder} `{MathExtrasAPI} `{Config} `{HashOrder} `{!LLVMProgram} `{Layout}.
Context (mc : Machine) {St : Type} `{!ContextStore St Context}.
(** The flag [should_stop] at each round, the random choices of the store, the
    message of an exception and what is left of a context that was moved from. *)
Context (should_stop : nat -> bool) (choices : nat -> list nat) (what : string) (moved_from : Context -> Context).

(** What happened to a context: an instruction of it was executed and left some
    contexts alive, an exception ended it, or the worker was told to stop. *)
Inductive WorkLog : Type :=
| Ran (c : Context) (rest : list Context)
| Excepted (c : Context) (rest : list Context)
| Interrupted (rest : list Context).
Record Worker : Type := mkWorker { world : World; wstore : St; current_ctx : option Context; work_log : list WorkLog; round : nat }.
Inductive Round : Type := NextRound (w : Worker) | WorkerDone (w : Worker) | Waiting | ProcessExit (e : error).

Definition live (q : list ContextQueueEntry) : list Context := entry_context <$> filter (fun e => dead e = false) q.
(** [boost::remove_if] and the loop that empties the queue from its back. *)
Definition hand_over (q : list ContextQueueEntry) (st : St) : list ContextQueueEntry * St :=
  let q := filter (fun e => dead e = false) q in
  (take 1 q, fold_left (fun st e => add_context (entry_context e) st) (rev (drop 1 q)) st).
(** One round of the two loops of [run_worker]: a context is taken when the
    queue is empty, otherwise one instruction of the first entry is executed. *)
Definition worker_round (w : Worker) : Round :=
  let advance wd st cur l := NextRound (mkWorker wd st cur (work_log w ++ l) (S (round w))) in
  match queue_ (world w) with
  | [] =>
      match next_context (choices (round w)) (wstore w) with
      | (Returned (Some c), st) => advance (set_queue (world w) [mkEntry false c]) st (Some c) []
      | (Returned None, st) => WorkerDone (mkWorker (world w) st None (work_log w) (S (round w)))
      | (Blocks, _) => Waiting
      end
  | e :: q =>
      if should_stop (round w) then advance (set_queue (world w) []) (wstore w) (current_ctx w) [Interrupted (live (e :: q))]
      else
        match execute mc 0 (world w) with
        | (Ok _, wd) =>
            let '(q, st) := hand_over (queue_ wd) (wstore w) in
            advance (set_queue wd q) st (current_ctx w) [Ran (entry_context e) (live (queue_ wd))]
        | (Err Thrown, wd) =>
            match current_ctx w, Assertion_default with
            | Some c, Ok t =>
                advance (mkWorld [] (events wd ++ [LogFailure None (moved_from c) t what]) (next_frame_id wd)) (wstore w) (current_ctx w)
                  [Excepted (entry_context e) (live (queue_ wd))]
            | _, _ => ProcessExit UndefinedBehaviour
            end
        | (Err err, _) => ProcessExit err
        end
  end.
Fixpoint run_worker (n : nat) (w : Worker) : Round :=
  match n with
  | O => NextRound w
  | S n => match worker_round w with NextRound w => run_worker n w | r => r end
  end.
Definition start_worker (evs : list Event) (next : Z) (st : St) : Worker := mkWorker (mkWorld [] evs next) st None [] 0.

(** ** Every context is accounted for *)

(** The contexts an instruction of which was executed, those it left alive, and
    those that were dropped with the queue: by an exception, all that were alive
    when it was thrown, and by the flag, what the worker held. *)
Definition executed (l : list WorkLog) : list Context :=
  l ≫= (fun e => match e with Ran c _ | Excepted c _ => [c] | Interrupted _ => [] end).
Definition produced (l : list WorkLog) : list Context :=
  l ≫= (fun e => match e with Ran _ rest | Excepted _ rest => rest | Interrupted _ => [] end).
Definition dropped (l : list WorkLog) : list Context :=
  l ≫= (fun e => match e with Ran _ _ => [] | Excepted _ rest | Interrupted rest => rest end).
Context `{!StoreLaws St Context}.
Definition pending (w : Worker) : list Context := live (queue_ (world w)) ++ contents (wstore w).
Definition one_at_a_time (w : Worker) : Prop := queue_ (world w) = [] \/ exists c, queue_ (world w) = [mkEntry false c].

Lemma executed_app l l' : executed (l ++ l') = executed l ++ executed l'.
Proof. apply bind_app. Qed.
Lemma produced_app l l' : produced (l ++ l') = produced l ++ produced l'.
Proof. apply bind_app. Qed.
Lemma dropped_app l l' : dropped (l ++ l') = dropped l ++ dropped l'.
Proof. apply bind_app. Qed.
Lemma add_all es (st : St) :
  let st' := fold_left (fun st e => add_context (entry_context e) st) es st in
  contents st' ≡ₚ (entry_context <$> es) ++ contents st /\ (open_store st -> open_store st').
Proof.
  revert st. induction es as [|e es IH]; intros st; [done|]. cbn. destruct (IH (add_context (entry_context e) st)) as [E Ho].
  destruct (add_keeps (entry_context e) st) as [E1 Ho1]. split; [|by intros ?; apply Ho, Ho1]. rewrite E, E1. solve_Permutation.
Qed.
Lemma hand_over_keeps q (st : St) : let '(q', st') := hand_over q st in
  live q' ++ contents st' ≡ₚ live q ++ contents st /\ (open_store st -> open_store st') /\
  (q' = [] \/ exists c, q' = [mkEntry false c]).
Proof.
  unfold hand_over. destruct (add_all (rev (drop 1 (filter (fun e => dead e = false) q))) st) as [E Ho].
  cbn zeta in *. split_and!; [|done|].
  - rewrite E. unfold live. destruct (filter _ q) as [|e es] eqn:Hf; [done|].
    assert (e ∈ filter (fun e => dead e = false) q) as [Hd _]%list_elem_of_filter by (rewrite Hf; by left).
    cbn [take drop fmap list_fmap]. rewrite filter_cons_True by done. cbn. constructor. by rewrite drop_0, <- Permutation_rev.
  - destruct (filter _ q) as [|e es] eqn:Hf; [by left|]. right. exists (entry_context e). cbn.
    assert (e ∈ filter (fun e => dead e = false) q) as [Hd _]%list_elem_of_filter; [rewrite Hf; by left|]. by destruct e; cbn in *; subst.
Qed.

(** A worker at any point of its run. *)
Context (initially : list Context).
Definition accounted (w : Worker) : Prop :=
  one_at_a_time w /\ open_store (wstore w) /\ initially ++ produced (work_log w) ≡ₚ executed (work_log w) ++ dropped (work_log w) ++ pending w.
Definition explores (r : Round) : Prop :=
  match r with
  | NextRound w => accounted w
  | WorkerDone w => initially ++ produced (work_log w) ≡ₚ executed (work_log w) ++ dropped (work_log w) /\ contents (wstore w) = []
  | Waiting | ProcessExit _ => True
  end.
Lemma round_explores w : accounted w -> explores (worker_round w).
Proof.
  intros ([Hq|[c Hq]] & Ho & Hp); unfold worker_round; rewrite Hq; unfold pending in Hp; rewrite Hq in Hp.
  - destruct (next_context _ (wstore w)) as [[[c|]|] st] eqn:En; cbn; [| |done].
    + destruct (next_some _ _ _ _ En) as [E Ho']. split_and!; [right; by exists c|by apply Ho'|].
      unfold pending. cbn [queue_ world set_queue wstore work_log]. rewrite app_nil_r. by rewrite Hp, E.
    + destruct (next_none _ _ _ En) as [E He]. rewrite (He Ho) in *. cbn in Hp. rewrite !app_nil_r in Hp. by rewrite E.
  - destruct (should_stop (round w)).
    { split_and!; [by left|done|]. unfold pending. cbn [work_log world set_queue queue_ wstore].
      rewrite executed_app, produced_app, dropped_app. cbn. rewrite !app_nil_r, Hp. cbn. solve_Permutation. }
    destruct (execute mc 0 (world w)) as [[u|[]] wd]; try done.
    + pose proof (hand_over_keeps (queue_ wd) (wstore w)) as Hh. destruct (hand_over (queue_ wd) (wstore w)) as [q st].
      destruct Hh as (E & Ho' & Hone). split_and!; [exact Hone|by apply Ho'|].
      unfold pending. cbn [work_log world set_queue queue_ wstore]. rewrite executed_app, produced_app, dropped_app, E, app_assoc, Hp. cbn.
      rewrite !app_nil_r. solve_Permutation.
    + destruct (current_ctx w); [|done]. destruct Assertion_default; [|done]. split_and!; [by left|done|].
      unfold pending. cbn [work_log world set_queue queue_ wstore]. rewrite executed_app, produced_app, dropped_app, app_assoc, Hp. cbn.
      rewrite !app_nil_r. solve_Permutation.
Qed.
Lemma run_explores n w : accounted w -> explores (run_worker n w).
Proof.
  revert w. induction n as [|n IH]; intros w Hw; [done|]. cbn. pose proof (round_explores w Hw) as Hr.
  destruct (worker_round w) as [w'| | |]; [by apply IH|done..].
Qed.

(** ** Interruption *)

(** The flag, if the executor was given one, the store, and the solvers of the
    workers, by number, with those that were told to interrupt their query. *)
Record Executor : Type := mkExecutor { stop_flag : option bool; ex_store : St; solvers : list nat; interrupted : list nat }.
Definition interrupt (ex : Executor) : Executor :=
  mkExecutor ((fun _ => true) <$> stop_flag ex) (store_shutdown (ex_store ex)) [] (interrupted ex ++ solvers ex).

(** A worker whose flag is up and whose store is shut down ends within two
    rounds, without executing another instruction; what it held is dropped. *)
Theorem interrupted_worker_ends `{!Stops St Context} w :
  (forall n, (round w <= n)%nat -> should_stop n = true) -> stopped (wstore w) ->
  exists w', run_worker 2 w = WorkerDone w' /\ executed (work_log w') = executed (work_log w) /\ queue_ (world w') = [].
Proof.
  intros Hf Hs. assert (forall v, queue_ (world v) = [] -> stopped (wstore v) ->
    exists v', worker_round v = WorkerDone v' /\ work_log v' = work_log v /\ queue_ (world v') = []) as Hend.
  { intros v Hq Hv. unfold worker_round. rewrite Hq. destruct (stopped_next (choices (round v)) (wstore v) Hv) as [E _].
    destruct (next_context _ (wstore v)) as [o st]. cbn in E. subst o. by eexists. }
  cbn [run_worker]. destruct (queue_ (world w)) as [|e q] eqn:Hq.
  - destruct (Hend w Hq Hs) as (w' & -> & Hl & Hq'). exists w'. by rewrite Hl.
  - unfold worker_round at 1. rewrite Hq, Hf by lia.
    destruct (Hend (mkWorker (set_queue (world w) []) (wstore w) (current_ctx w) (work_log w ++ [Interrupted (live (e :: q))]) (S (round w)))) as (w' & -> & Hl & Hq');
      [done|done|]. exists w'. rewrite Hl. cbn [work_log]. by rewrite executed_app, app_nil_r.
Qed.
End executor.

(** C5: A worker accounts for every context and executes none twice.  For a
    worker that is alone on its store (any store with the laws of [StoreLaws]),
    after every number of rounds, the contexts the store held at the start and
    those that instructions left alive are, up to their order, the ones of which
    an instruction was executed, the ones that are waiting, in the worker's
    queue (at most one) or in the store, and the ones that were dropped; and
    when the worker is done none is waiting.  Contexts are dropped in two cases
    only, and are counted: when an instruction throws, all that are alive in the
    queue at that moment, the forks of that instruction included, and when the
    worker is told to stop, the one in its queue.  Nothing is said of a worker
    that waits for the store or of a process that ends in a failed assertion. *)
Theorem worker_explores_all `{PtrEq} `{!DataPtrEq} `{MapOrder} `{MathExtrasAPI} `{Config} `{HashOrder} `{!LLVMProgram} `{Layout}
    (mc : Machine) {St} `{!ContextStore St Context} `{!StoreLaws St Context}
    (should_stop : nat -> bool) (choices : nat -> list nat) (what : string) (moved_from : Context -> Context)
    (st : St) (evs : list Event) (next : Z) (n : nat) :
  open_store st ->
  match run_worker mc should_stop choices what moved_from n (start_worker evs next st) with
  | NextRound w => one_at_a_time w /\ contents st ++ produced (work_log w) ≡ₚ executed (work_log w) ++ dropped (work_log w) ++ pending w
  | WorkerDone w => contents st ++ produced (work_log w) ≡ₚ executed (work_log w) ++ dropped (work_log w) /\ contents (wstore w) = []
  | Waiting | ProcessExit _ => True
  end.
Proof.
  intros Ho.
  assert (explores (contents st) (run_worker mc should_stop choices what moved_from n (start_worker evs next st))) as Hr.
  { apply run_explores. split_and!; [by left|done|]. unfold pending. cbn. by rewrite app_nil_r. }
  destruct (run_worker _ _ _ _ _ _ _) as [w|w| |]; [|done..]. destruct Hr as (? & _ & ?). done.
Qed.

(** One context of a function that returns at once. *)
Module executor_witness.
Import egraph_witness extract_witness.
#[local] Instance on : Config := {| IMPLICIT_CONSTANT_FOLDING := true |}.
#[local] Instance clause_hash_capture : ClauseHash := fun c => if sc_capture c then 1%Z else 0%Z.
#[local] Instance one_function : LLVMProgram := {|
  program_ir := {| block_insts _ := [100%Z]; entry_block _ := 10%Z; fn_args _ := []; invoke_dests _ := None |};
  inst_view _ := IRet None; value_view _ := VInstruction; block_parent _ := 1%Z; fn_empty _ := false; fn_is_intrinsic _ := false;
  fn_return_type _ := LVoid; is_call_or_invoke _ := false; is_call _ := false |}.
#[local] Instance flat_layout : Layout := {|
  layout_pointers := {| getPointerSize := 8%Z |}; getPointerSizeInBits _ := 64%Z; getTypeAllocSize _ := 8%Z; getTypeStoreSize _ := 8%Z;
  getElementOffset _ i := (8 * i)%Z |}.
Definition no_solver : Solver := mkSolver (fun l _ => Ok (mkResult Unknown None, l)) (fun l _ => Ok (mkResult Unknown None, l)).
Definition machine : Machine := mkMachine no_solver 3 (mkMatcher [] [] [] []) 6 4 (fun _ => None) (fun _ => None) (fun _ => raise Thrown) (Ok None)
  (fun _ => mkExtFrame 0 None None [] 0) None.
Definition ctx0 : Context := mkContext [mkFrame (Regular (IRStackFrame_ctor 1 0)) 0] ∅ (MemHeapMgr_ctor true) gl_empty ∅ 0 true eg_empty 0.
Definition store0 : Store (C := Context) := add_contexts [ctx0] QueueingContextStore_ctor.
Definition run3 : Round := run_worker machine (fun _ => false) (fun _ => []) "" id 3 (start_worker [] 1 store0).
Lemma run3_done : match run3 with WorkerDone w => bool_decide (length (executed (work_log w)) = 1) | _ => false end = true.
Proof. vm_compute. reflexivity. Qed.
Lemma worker_explores_all_witness : exists w, run3 = WorkerDone w /\ [ctx0] ++ produced (work_log w) ≡ₚ executed (work_log w) ++ dropped (work_log w).
Proof.
  pose proof (worker_explores_all machine (fun _ => false) (fun _ => []) "" id store0 [] 1%Z 3 eq_refl) as H.
  fold run3 in H. pose proof run3_done as Hd. destruct run3 as [w|w| |]; try discriminate Hd. exists w. split; [reflexivity|exact (proj1 H)].
Defined.
End executor_witness.
