(* ===== verification/Z3Convert.v ===== *)
(** The translation of expressions into Z3 terms (src/Solver/Z3/Convert.cpp).

    Z3 is not part of the repository.  Its terms are the class [Z3API]: an
    abstract type with the functions of z3++.h and z3_fpa.h that are called, as
    an operation [ZOp] applied to terms, and the sort of a term.  [Z3Laws] is
    what the translation relies on: the sorts, the constants of a term, and the
    value of a term under an interpretation of its constants, which is that of
    the SMT-LIB theories of bit-vectors and arrays.  Nothing is assumed about
    the values of floating-point terms. *)
From S2P Require Import Prelude LLVM IRType Value Opcode Operation Matching Create Semantics.
From S2P Require Import Simplifier SimplifierInt SimplifierSound Effects.
Open Scope Z_scope.

(** ** Z3 *)
Inductive ZSort : Set := SortBool | SortBv (w : Z) | SortFp (ebits sbits : Z) | SortArr (w : Z).
Inductive ZName : Set := ZStr (s : string) | ZInt (n : Z).
#[export] Instance ZSort_eq_dec : EqDecision ZSort.
Proof. solve_decision. Defined.
#[export] Instance ZName_eq_dec : EqDecision ZName.
Proof. solve_decision. Defined.

(** The functions of the interface; [operator%] of two bit-vectors is
    [bvsmod], [operator/] is [bvsdiv]. *)
Inductive ZFpOp : Set :=
| FpMk | FpZero (ebits sbits : Z) | FpNeg | FpIsNan | FpLt | FpLeq | FpGt | FpGeq | FpToIeeeBv (w : Z)
| FpToFpSigned (ebits sbits : Z) | FpToFpUnsigned (ebits sbits : Z) | FpToSbv (w : Z) | FpToUbv (w : Z) | FpToFpFloat (ebits sbits : Z).
Inductive ZBin : Set := ZPlus | ZMinus | ZTimes | ZSlash | ZPercent | ZUdiv | ZUrem | ZHat | ZAmp | ZBar | ZShl | ZLshr | ZAshr.
Inductive ZOp : Set :=
| ZBvVal (v w : Z) | ZIte | ZEq | ZNe | ZBang | ZAndAnd | ZOrOr | ZTilde | ZBinOp (b : ZBin) | ZCmp (c : ICmpOpcode)
| ZExtract (hi lo : Z) | ZZext (k : Z) | ZSext (k : Z) | ZSelect | ZStore | ZConstArray (w : Z) | ZFp (f : ZFpOp).
Class Z3API := {
  Zexpr : Type;
  z_app : ZOp -> list Zexpr -> Zexpr;
  z_const : ZName -> ZSort -> Zexpr;
  z_sort : Zexpr -> ZSort
}.

(** *** Values *)
Inductive ZVal : Type := VBool (b : bool) | VBv (w v : Z) | VFp (ebits sbits bits : Z) | VArr (w : Z) (f : Z -> Z).
Definition sort_of (v : ZVal) : ZSort :=
  match v with VBool _ => SortBool | VBv w _ => SortBv w | VFp e s _ => SortFp e s | VArr w _ => SortArr w end.
Definition bin_sem (b : ZBin) (w x y : Z) : Z :=
  match b with
  | ZPlus => x + y | ZMinus => x - y | ZTimes => x * y
  | ZSlash => if y =? 0 then (if sgn w x <? 0 then 1 else -1) else Z.quot (sgn w x) (sgn w y)
  | ZPercent => if y =? 0 then x else sgn w x mod sgn w y
  | ZUdiv => if y =? 0 then -1 else x / y
  | ZUrem => if y =? 0 then x else x mod y
  | ZHat => Z.lxor x y | ZAmp => Z.land x y | ZBar => Z.lor x y
  | ZShl => Z.shiftl x y | ZLshr => Z.shiftr x y | ZAshr => Z.shiftr (sgn w x) y
  end.
Definition zval_eqb (u v : ZVal) : option bool :=
  match u, v with
  | VBool a, VBool b => Some (eqb a b)
  | VBv w x, VBv w' y => if w =? w' then Some (x =? y) else None
  | _, _ => None
  end.
Definition zsem (o : ZOp) (vs : list ZVal) : option ZVal :=
  match o, vs with
  | ZBvVal v w, [] => Some (VBv w (wrap w v))
  | ZIte, [VBool b; x; y] => if decide (sort_of x = sort_of y) then Some (if b then x else y) else None
  | ZEq, [x; y] => VBool <$> zval_eqb x y
  | ZNe, [x; y] => (fun b => VBool (negb b)) <$> zval_eqb x y
  | ZBang, [VBool b] => Some (VBool (negb b))
  | ZAndAnd, [VBool a; VBool b] => Some (VBool (a && b))
  | ZOrOr, [VBool a; VBool b] => Some (VBool (a || b))
  | ZTilde, [VBv w x] => Some (VBv w (wrap w (Z.lnot x)))
  | ZBinOp b, [VBv w x; VBv w' y] => if w =? w' then Some (VBv w (wrap w (bin_sem b w x y))) else None
  | ZCmp c, [VBv w x; VBv w' y] => if w =? w' then Some (VBool (sem_icmp c w x y)) else None
  | ZExtract hi lo, [VBv w x] => if (0 <=? lo) && (lo <=? hi) && (hi <? w) then Some (VBv (hi - lo + 1) (wrap (hi - lo + 1) (Z.shiftr x lo))) else None
  | ZZext k, [VBv w x] => if (0 <? w) && (0 <=? k) then Some (VBv (w + k) x) else None
  | ZSext k, [VBv w x] => if (0 <? w) && (0 <=? k) then Some (VBv (w + k) (wrap (w + k) (sgn w x))) else None
  | ZSelect, [VArr w f; VBv w' i] => if w =? w' then Some (VBv 8 (f i)) else None
  | ZStore, [VArr w f; VBv w' i; VBv 8 v] => if w =? w' then Some (VArr w (fun j => if j =? i then v else f j)) else None
  | ZConstArray w, [VBv 8 v] => Some (VArr w (fun _ => v))
  | _, _ => None
  end.
(** The values of a bit-vector sort are below 2^w, those of an array bytes. *)
Definition in_range (v : ZVal) : Prop :=
  match v with VBv w x => wrap w x = x | VArr _ f => forall i, wrap 8 (f i) = f i | _ => True end.
(** An interpretation gives every constant a value of its sort. *)
Definition Interp : Type := ZName -> ZSort -> ZVal.
Definition sorted (s : Interp) : Prop := forall n t, sort_of (s n t) = t /\ in_range (s n t).
Class Z3Laws `{Z3API} := {
  z_eval : Interp -> Zexpr -> ZVal;
  z_names : Zexpr -> list ZName;
  z_eval_const : forall s n t, z_eval s (z_const n t) = s n t;
  z_eval_app : forall s o xs v, zsem o (z_eval s <$> xs) = Some v -> z_eval s (z_app o xs) = v;
  z_sort_eval : forall s x, sorted s -> sort_of (z_eval s x) = z_sort x /\ in_range (z_eval s x);
  z_names_const : forall n t, z_names (z_const n t) = [n];
  z_names_app : forall o xs n, n ∈ z_names (z_app o xs) -> exists x, x ∈ xs /\ n ∈ z_names x;
  z_eval_names : forall s s' x, (forall n t, n ∈ z_names x -> s n t = s' n t) -> z_eval s x = z_eval s' x
}.

(** ** The translation *)
Section convert.
Context `{PtrEq} `{MathExtrasAPI} `{Config} `{Z3API}.

Definition is_bool (x : Zexpr) : bool := bool_decide (z_sort x = SortBool).
Definition is_bv1 (x : Zexpr) : bool := bool_decide (z_sort x = SortBv 1).
Definition bv_size (x : Zexpr) : result Z := match z_sort x with SortBv w => Ok w | _ => Err Thrown end.
(** Their assertions on the sort are the conditions of the callers below. *)
Definition bool_to_bv (x : Zexpr) : Zexpr := z_app ZIte [x; z_app (ZBvVal 1 1) []; z_app (ZBvVal 0 1) []].
Definition bv_to_bool (x : Zexpr) : Zexpr := z_app ZEq [x; z_app (ZBvVal 1 1) []].
Definition normalize_to_bool (x : Zexpr) : Zexpr := if is_bv1 x then bv_to_bool x else x.
Definition normalize_to_bv (x : Zexpr) : Zexpr := if is_bool x then bool_to_bv x else x.
Definition op_name (s : Symbol) : ZName := match s with Numbered n => ZInt n | Named s => ZStr s end.
Definition INT_MAX : Z := 2 ^ 31 - 1.
Definition name_to_symbol (n : ZName) : result ZName :=
  match n with ZStr _ => Ok n | ZInt k => assert_ (k <=? INT_MAX) ;; Ok n end.
Definition type_to_sort (t : Ty) : result ZSort :=
  match kind_ t with
  | KInteger => w ← bitwidth t; Ok (SortBv w)
  | KFloatingPoint => e ← exponent_bits t; s ← mantissa_bits t; Ok (SortFp e s)
  | KArray => w ← bitwidth t; Ok (SortArr w)
  | _ => Err Aborted
  end.

Record ZState : Type := mkZState {
  const_map : list (ZName * Zexpr); z_asserts : list Zexpr; z_cache : list (Operation * Zexpr); tmpConstNum : Z }.
Definition tmpConstMin : Z := 2 ^ 29.
Definition tmpConstMax : Z := 2 ^ 30 - 1.
Definition ZState_ctor : ZState := mkZState [] [] [] tmpConstMin.
Definition z_add (x : Zexpr) : M ZState unit :=
  modify (fun s => mkZState (const_map s) (z_asserts s ++ [x]) (z_cache s) (tmpConstNum s)).
Definition next_const (t : ZSort) : M ZState Zexpr := fun s =>
  if tmpConstNum s =? tmpConstMax then (Err AssertFailed, s)
  else (Ok (z_const (ZInt (tmpConstNum s)) t), mkZState (const_map s) (z_asserts s) (z_cache s) (tmpConstNum s + 1)).
Definition find_const (n : ZName) (m : list (ZName * Zexpr)) : option Zexpr := snd <$> hd_error (filter (fun p => p.1 = n) m).
(** [visitConstant] and [visitConstantArray]. *)
Definition visit_constant (s : Symbol) (t : Ty) : M ZState Zexpr :=
  st ← state;
  match find_const (op_name s) (const_map st) with
  | Some x => mret x
  | None =>
      srt ← lift (type_to_sort t); n ← lift (name_to_symbol (op_name s));
      let x := z_const n srt in
      _ ← modify (fun st => mkZState ((op_name s, x) :: const_map st) (z_asserts st) (z_cache st) (tmpConstNum st)); mret x
  end.
Definition bv_of (a : APInt) : Zexpr := z_app (ZBvVal (getZExtValue a) (getBitWidth a)) [].
Definition bv_to_fpa (dst : Ty) (src : Zexpr) : result Zexpr :=
  e ← exponent_bits dst; s ← mantissa_bits dst; let t := e + s in
  Ok (z_app (ZFp FpMk) [z_app (ZExtract (t - 1) (t - 1)) [src]; z_app (ZExtract (t - 2) (s - 1)) [src]; z_app (ZExtract (s - 2) 0) [src]]).
Definition visitUndef (t : Ty) : result Zexpr :=
  if is_int t then w ← bitwidth t; Ok (z_app (ZBvVal 0 w) [])
  else if is_float t then e ← exponent_bits t; s ← mantissa_bits t; Ok (z_app (ZFp (FpZero e s)) [])
  else Err Unimplemented.
(** [CAFFEINE_BINOP_IMPL]. *)
Definition visit_binop (o : ZOp) (x y : Zexpr) : Zexpr := z_app o [normalize_to_bv x; normalize_to_bv y].
Definition binop_of (o : Opcode) : option ZBin :=
  match o with
  | OpAdd | OpFAdd => Some ZPlus | OpSub | OpFSub => Some ZMinus | OpMul | OpFMul => Some ZTimes
  | OpUDiv => Some ZUdiv | OpSDiv | OpFDiv => Some ZSlash | OpURem => Some ZUrem | OpSRem | OpFRem => Some ZPercent
  | OpXor => Some ZHat | OpShl => Some ZShl | OpLShr => Some ZLshr | OpAShr => Some ZAshr
  | _ => None
  end.
Definition visit_junction (on_bool on_bv : ZOp) (x y : Zexpr) : Zexpr :=
  let lhs := normalize_to_bool x in let rhs := normalize_to_bool y in
  if is_bool lhs then z_app on_bool [lhs; rhs] else z_app on_bv [lhs; rhs].
Definition z_visitAnd : Zexpr -> Zexpr -> Zexpr := visit_junction ZAndAnd (ZBinOp ZAmp).
Definition z_visitOr : Zexpr -> Zexpr -> Zexpr := visit_junction ZOrOr (ZBinOp ZBar).
Definition z_visitICmp (c : ICmpOpcode) (x y : Zexpr) : Zexpr :=
  visit_binop (match c with EQ => ZEq | NE => ZNe | c => ZCmp c end) x y.
Definition z_visitFCmp (c : FCmpOpcode) (x y : Zexpr) : Zexpr :=
  z_app (match c with FEQ => ZEq | FNE => ZNe | FGT => ZFp FpGt | FGE => ZFp FpGeq | FLT => ZFp FpLt | FLE => ZFp FpLeq end) [x; y].
Definition z_visitNot (x : Zexpr) : Zexpr :=
  let x := normalize_to_bool x in if is_bool x then z_app ZBang [x] else z_app ZTilde [x].
Definition z_visitSelect (c t f : Zexpr) : Zexpr := z_app ZIte [normalize_to_bool c; normalize_to_bv t; normalize_to_bv f].
Definition z_visitTrunc (t : Ty) (x : Zexpr) : result Zexpr := w ← bitwidth t; Ok (z_app (ZExtract (w - 1) 0) [normalize_to_bv x]).
Definition z_visitExt (ext : Z -> ZOp) (t : Ty) (x : Zexpr) : result Zexpr :=
  let src := normalize_to_bv x in w ← bitwidth t; n ← bv_size src; Ok (z_app (ext (w - n)) [src]).
Definition z_visitBitcast (t src_ty : Ty) (x : Zexpr) : result Zexpr :=
  let src := normalize_to_bv x in
  if ty_eqb t src_ty then Ok src
  else if is_int t && is_float src_ty then w ← bitwidth t; Ok (z_app (ZFp (FpToIeeeBv w)) [src])
  else if is_float t && is_int src_ty then bv_to_fpa t src
  else Err Unimplemented.
Definition z_visitZExt : Ty -> Zexpr -> result Zexpr := z_visitExt ZZext.
Definition z_visitSExt : Ty -> Zexpr -> result Zexpr := z_visitExt ZSext.
(** The visit of the temporary integer; the cache entry it leaves for the
    address of the temporary is left out. *)
Definition z_visitConstantFloat (t : Ty) (f : APFloat) : result Zexpr := bv_to_fpa t (bv_of (bitcastToAPInt f)).
Definition z_visitFNeg (x : Zexpr) : Zexpr := z_app (ZFp FpNeg) [x].
Definition z_visitFIsNaN (x : Zexpr) : Zexpr := z_app (ZFp FpIsNan) [x].
Definition fp_sort (f : Z -> Z -> ZFpOp) (t : Ty) (x : Zexpr) : result Zexpr :=
  srt ← type_to_sort t; match srt with SortFp e s => Ok (z_app (ZFp (f e s)) [x]) | _ => Err Thrown end.
Definition z_visitSIToFp (t : Ty) (x : Zexpr) : result Zexpr := fp_sort FpToFpSigned t (normalize_to_bv x).
Definition z_visitUIToFp (t : Ty) (x : Zexpr) : result Zexpr := fp_sort FpToFpUnsigned t (normalize_to_bv x).
Definition z_visitFpToSI (t : Ty) (x : Zexpr) : result Zexpr := w ← bitwidth t; Ok (z_app (ZFp (FpToSbv w)) [x]).
Definition z_visitFpToUI (t : Ty) (x : Zexpr) : result Zexpr := w ← bitwidth t; Ok (z_app (ZFp (FpToUbv w)) [x]).
Definition z_visitFpExt : Ty -> Zexpr -> result Zexpr := fp_sort FpToFpFloat.
Definition z_visitFpTrunc : Ty -> Zexpr -> result Zexpr := fp_sort FpToFpFloat.
Definition z_visitLoad (a i : Zexpr) : Zexpr := z_app ZSelect [a; i].
Definition z_visitStore (a i v : Zexpr) : Zexpr := z_app ZStore [a; i; v].
Definition z_visitAlloc (size_ty : Ty) (v : Zexpr) : result Zexpr := w ← bitwidth size_ty; Ok (z_app (ZConstArray w) [v]).
(** What is built from the terms of the operands that are visited: the dispatch
    on the opcode. *)
Definition build_node (d : OperationData) (l : list Operation) (xs : list Zexpr) : result Zexpr :=
  let t := od_type d in
  match od_opcode d, xs with
  | OpConstantInt, [] => match od_payload d with PInt a => Ok (bv_of a) | _ => Err UndefinedBehaviour end
  | OpConstantFloat, [] => match od_payload d with PFloat f => z_visitConstantFloat t f | _ => Err UndefinedBehaviour end
  | OpUndef, [] => visitUndef t
  | OpAnd, [x; y] => Ok (z_visitAnd x y)
  | OpOr, [x; y] => Ok (z_visitOr x y)
  | OpICmp c, [x; y] => Ok (z_visitICmp c x y)
  | OpFCmp c, [x; y] => Ok (z_visitFCmp c x y)
  | OpNot, [x] => Ok (z_visitNot x)
  | OpFNeg, [x] => Ok (z_visitFNeg x)
  | OpFIsNaN, [x] => Ok (z_visitFIsNaN x)
  | OpSelect, [c; x; y] => Ok (z_visitSelect c x y)
  | OpTrunc, [x] => z_visitTrunc t x
  | OpZExt, [x] => z_visitZExt t x
  | OpSExt, [x] => z_visitSExt t x
  | OpBitcast, [x] => match l with [o] => z_visitBitcast t (op_type o) x | _ => Err UndefinedBehaviour end
  | OpSIToFp, [x] => z_visitSIToFp t x
  | OpUIToFp, [x] => z_visitUIToFp t x
  | OpFpToSI, [x] => z_visitFpToSI t x
  | OpFpToUI, [x] => z_visitFpToUI t x
  | OpFpExt, [x] => z_visitFpExt t x
  | OpFpTrunc, [x] => z_visitFpTrunc t x
  | OpLoad, [a; i] => Ok (z_visitLoad a i)
  | OpStore, [a; i; v] => Ok (z_visitStore a i v)
  | OpAlloc, [v] => match l with n :: _ => z_visitAlloc (op_type n) v | [] => Err UndefinedBehaviour end
  | (OpFunctionObject | OpEGraphNode), _ => Err Aborted
  | o, [x; y] => match binop_of o with Some b => Ok (visit_binop (ZBinOp b) x y) | None => Err Aborted end
  | _, _ => Err Aborted
  end.
(** The loop of [visitFixedArray] over the elements from [i] on. *)
Fixpoint fixed_array (array : Zexpr) (w i : Z) (vs : list (M ZState Zexpr)) : M ZState unit :=
  match vs with
  | [] => mret tt
  | v :: vs =>
      x ← v; _ ← z_add (z_app ZEq [z_app ZSelect [array; z_app (ZBvVal i w) []]; x]); fixed_array array w (i + 1) vs
  end.
(** The operands that are visited, in order. *)
Definition visited_operands {A} (o : Opcode) (vs : list A) : list A :=
  match o, vs with OpAlloc, [_; v] => [v] | _, _ => vs end.
Definition visit_node (d : OperationData) (l : list Operation) (vs : list (M ZState Zexpr)) : M ZState Zexpr :=
  match od_opcode d with
  | OpConstantNamed | OpConstantNumbered | OpConstantArray =>
      match od_payload d with PSymbol s => visit_constant s (od_type d) | _ => raise UndefinedBehaviour end
  | OpFixedArray =>
      w ← lift (bitwidth (od_type d)); array ← next_const (SortArr w); _ ← fixed_array array w 0 vs; mret array
  | o => xs ← map_m id (visited_operands o vs); lift (build_node d l xs)
  end.
(** [visit], which looks in the cache first. *)
Definition memoized (op : Operation) (m : M ZState Zexpr) : M ZState Zexpr :=
  st ← state;
  match hd_error (filter (fun p => ptr_eq p.1 op = true) (z_cache st)) with
  | Some (_, x) => mret x
  | None =>
      x ← m;
      _ ← modify (fun st => mkZState (const_map st) (z_asserts st) ((op, x) :: z_cache st) (tmpConstNum st)); mret x
  end.
Fixpoint z_visit (op : Operation) : M ZState Zexpr :=
  memoized op (let 'mkOp d l := op in visit_node d l (z_visit <$> l)).
End convert.
