(* ===== verification/Z3Sound.v ===== *)
(** The terms that the translation of Z3Convert.v builds have the values that
    Semantics.v gives to the expressions.

    [rep] relates a Z3 value and a value of the semantics, [sees] an
    interpretation of Z3 constants and an environment.  [convertible] are the
    expressions the theorems are about: integers and arrays, with one type per
    symbol name.  [visit_ok] is the simulation: a visit returns a term, keeps
    the invariant [zinv] of the visitor's state, and the assertions it adds for
    fixed arrays only constrain the temporary constants it creates, so that an
    interpretation of the symbols always extends to one that satisfies them. *)
From S2P Require Import Prelude LLVM IRType Value Opcode Operation Matching Create Semantics.
From S2P Require Import Simplifier SimplifierInt SimplifierSound Effects Z3Convert.
Open Scope Z_scope.

Section values.
Context `{PtrEq} `{MathExtrasAPI} `{Config} `{Z3Laws}.

(** ** Values and sorts *)
Definition rep (v : ZVal) (d : Den) : Prop :=
  match v, d with
  | VBool b, DInt a => a = APInt_of 1 (Z.b2z b)
  | VBv w x, DInt a => getBitWidth a = w /\ getZExtValue a = x
  | VArr w f, DArr bs w' => w = w' /\ forall i b, Z.of_nat i < 2 ^ w -> bs !! i = Some (Some b) -> f (Z.of_nat i) = getZExtValue b
  | _, _ => False
  end.
(** The sorts of the terms for an expression of a type; one bit is a boolean
    or a bit-vector. *)
Inductive sort_for : Ty -> ZSort -> Prop :=
| sort_bv w : good_width w -> sort_for (ity w) (SortBv w)
| sort_bool : sort_for (ity 1) SortBool
| sort_arr w : sort_for (aty w) (SortArr w).

Definition zero_val (t : ZSort) : ZVal :=
  match t with SortBool => VBool false | SortBv w => VBv w 0 | SortFp e s => VFp e s 0 | SortArr w => VArr w (fun _ => 0) end.
Lemma wrap_0 w : wrap w 0 = 0.
Proof. apply Zmod_0_l. Qed.
Lemma zero_sorted : sorted (fun _ => zero_val).
Proof. intros n t. destruct t; split; try done; cbn; auto using wrap_0. Qed.
Lemma sort_from x t : (forall s, sorted s -> sort_of (z_eval s x) = t) -> z_sort x = t.
Proof. intros Hs. destruct (z_sort_eval _ x zero_sorted) as [<- _]. apply Hs, zero_sorted. Qed.

Lemma sort_int_inv w t : sort_for (ity w) t -> good_width w /\ (t = SortBv w \/ w = 1 /\ t = SortBool).
Proof. inversion 1; subst; split; auto; by split. Qed.
Lemma sort_arr_inv w t : sort_for (aty w) t -> t = SortArr w.
Proof. by inversion 1. Qed.

(** *** What a term of a sort evaluates to *)
Definition bv_at (s : Interp) (x : Zexpr) (w v : Z) : Prop := z_eval s x = VBv w v /\ 0 <= v < 2 ^ w.
Lemma eval_bv s x w : sorted s -> 0 <= w -> z_sort x = SortBv w -> exists v, bv_at s x w v.
Proof.
  intros Hs Hw Hx. destruct (z_sort_eval s x Hs) as [E R]. rewrite Hx in E.
  destruct (z_eval s x) as [|w' v| |] eqn:Ex; try done. injection E as ->. exists v. split; [done|].
  cbn in R. rewrite <- R. by apply wrap_range.
Qed.
Lemma eval_bool s x : sorted s -> z_sort x = SortBool -> exists b, z_eval s x = VBool b.
Proof.
  intros Hs Hx. destruct (z_sort_eval s x Hs) as [E _]. rewrite Hx in E. destruct (z_eval s x); try done. eauto.
Qed.
Lemma eval_arr s x w : sorted s -> z_sort x = SortArr w -> exists f, z_eval s x = VArr w f /\ forall i, wrap 8 (f i) = f i.
Proof.
  intros Hs Hx. destruct (z_sort_eval s x Hs) as [E R]. rewrite Hx in E. destruct (z_eval s x) as [| | |w' f]; try done.
  injection E as ->. exists f. by split.
Qed.
Lemma eval_val s v w : z_eval s (z_app (ZBvVal v w) []) = VBv w (wrap w v).
Proof. by apply z_eval_app. Qed.

(** [x] evaluates to the value of [op], where it has one. *)
Definition vrep (s : Interp) (e : Env) (op : Operation) (x : Zexpr) : Prop :=
  forall d, denote e op = Some d -> rep (z_eval s x) d.

(** ** Normalisation *)
Lemma b2z_range b : 0 <= Z.b2z b < 2 ^ 1.
Proof. by destruct b. Qed.
Lemma b2z_wrap b : wrap 1 (Z.b2z b) = Z.b2z b.
Proof. by destruct b. Qed.

(** As a bit-vector. *)
Lemma normalize_bv_ok s x w :
  sorted s -> sort_for (ity w) (z_sort x) ->
  exists v, bv_at s (normalize_to_bv x) w v /\
    forall a, rep (z_eval s x) (DInt a) -> getBitWidth a = w /\ getZExtValue a = v.
Proof.
  intros Hs [Hw [Hx|[-> Hx]]]%sort_int_inv; unfold normalize_to_bv, is_bool; rewrite Hx.
  - destruct (eval_bv s x w Hs ltac:(destruct Hw; lia) Hx) as (v & Ev & Rv). exists v. split; [by split|].
    rewrite Ev. by intros a.
  - destruct (eval_bool s x Hs Hx) as (b & Eb). exists (Z.b2z b). split.
    + split; [|apply b2z_range]. apply z_eval_app. cbn [fmap list_fmap]. rewrite Eb, !eval_val. by destruct b.
    + rewrite Eb. intros a ->. rewrite APInt_of_width, APInt_of_value, b2z_wrap by lia. done.
Qed.
(** As a boolean, if it is one bit wide. *)
Lemma normalize_bool_ok s x :
  sorted s -> sort_for (ity 1) (z_sort x) ->
  exists b, z_eval s (normalize_to_bool x) = VBool b /\ forall a, rep (z_eval s x) (DInt a) -> a = APInt_of 1 (Z.b2z b).
Proof.
  intros Hs [_ [Hx|[_ Hx]]]%sort_int_inv; unfold normalize_to_bool, is_bv1; rewrite Hx.
  - destruct (eval_bv s x 1 Hs ltac:(lia) Hx) as (v & Ev & Rv). exists (v =? 1). split.
    + apply z_eval_app. cbn [fmap list_fmap]. rewrite Ev, eval_val. done.
    + rewrite Ev. intros a [Wa Va]. symmetry. apply APInt_of_is; [done|]. rewrite Va.
      assert (v = 0 \/ v = 1) as [-> | ->] by lia; done.
  - destruct (eval_bool s x Hs Hx) as (b & Eb). exists b. split; [done|]. by rewrite Eb.
Qed.
Lemma normalize_bool_wide s x w :
  sorted s -> sort_for (ity w) (z_sort x) -> w <> 1 ->
  normalize_to_bool x = x /\ exists v, bv_at s x w v.
Proof.
  intros Hs [Hw [Hx|[-> Hx]]]%sort_int_inv ?; [|done]. unfold normalize_to_bool, is_bv1. rewrite Hx.
  rewrite bool_decide_eq_false_2 by congruence. split; [done|]. apply eval_bv; try done. destruct Hw; lia.
Qed.
Lemma normalize_bool_is x w : sort_for (ity w) (z_sort x) -> is_bool (normalize_to_bool x) = (w =? 1).
Proof.
  intros Hx. unfold is_bool. destruct (Z.eqb_spec w 1) as [->|Hw].
  - apply bool_decide_eq_true_2, sort_from. intros s Hs. by destruct (normalize_bool_ok s x Hs Hx) as (b & -> & _).
  - apply bool_decide_eq_false_2. destruct (normalize_bool_wide _ x w zero_sorted Hx Hw) as [-> _].
    apply sort_int_inv in Hx as [_ [->|[? _]]]; done.
Qed.

(** ** Operations *)
Lemma binop_sem o b w x y z :
  binop_of o = Some b -> o <> OpSRem -> sem_int o w x y = Some z -> bin_sem b w x y = z.
Proof.
  destruct o; try done; cbn; intros [= <-] ?; try (by intros [= <-]); cbn;
    destruct (Z.eqb_spec y 0); try done; cbn; try case_match; by intros [= <-].
Qed.

(** A node of integers has a value only if its operands do. *)
Lemma denote_binary_inv e d x y r w :
  int_binop (od_opcode d) || is_ICmp (od_opcode d) = true -> wf x -> wf y -> op_type x = ity w -> op_type y = ity w ->
  denote e (mkOp d [x; y]) = Some r ->
  exists a b, denote e x = Some (DInt a) /\ denote e y = Some (DInt b) /\ getBitWidth a = w /\ getBitWidth b = w /\
    sem_binary (od_opcode d) (DInt a) (DInt b) = Some r.
Proof.
  intros Ho Wx Wy Tx Ty. cbn [denote]. unfold denote_node. cbn [fmap list_fmap].
  destruct (od_opcode d); try done;
    (destruct (denote e x) as [u|] eqn:Ex; [|done]); (destruct (denote e y) as [v|] eqn:Ey; [|done]);
    (destruct (denote_int e x u w Wx Tx Ex) as (a & -> & Wa));
    (destruct (denote_int e y v w Wy Ty Ey) as (b & -> & Wb)); intros Hr; by exists a, b.
Qed.
Lemma rep_bv w v z : 0 < w -> v = wrap w z -> rep (VBv w v) (DInt (APInt_of w z)).
Proof. intros Hw ->. cbn. by rewrite APInt_of_width, APInt_of_value. Qed.

Definition node_result (d : OperationData) (l vl : list Operation) (xs : list Zexpr) (x : Zexpr) : Prop :=
  sort_for (od_type d) (z_sort x) /\
  forall s e, sorted s -> Forall2 (vrep s e) vl xs -> vrep s e (mkOp d l) x.

Lemma build_binop d l x y zx zy w b :
  binop_of (od_opcode d) = Some b -> od_opcode d <> OpSRem -> int_binop (od_opcode d) = true ->
  l = [x; y] -> wf x -> wf y -> od_type d = ity w -> op_type x = ity w -> op_type y = ity w ->
  sort_for (ity w) (z_sort zx) -> sort_for (ity w) (z_sort zy) ->
  node_result d l l [zx; zy] (visit_binop (ZBinOp b) zx zy).
Proof.
  intros Hb Hr Ho -> Wx Wy Td Tx Ty Sx Sy. assert (good_width w) as Hw by (by apply sort_int_inv in Sx as [? _]).
  assert (0 < w) by (destruct Hw; lia). assert (0 <= w) as Hw0 by lia.
  assert (forall s, sorted s -> exists u v,
    (forall a, rep (z_eval s zx) (DInt a) -> getBitWidth a = w /\ getZExtValue a = u) /\
    (forall a, rep (z_eval s zy) (DInt a) -> getBitWidth a = w /\ getZExtValue a = v) /\
    z_eval s (visit_binop (ZBinOp b) zx zy) = VBv w (wrap w (bin_sem b w u v))) as Hev.
  { intros s Hs. destruct (normalize_bv_ok s zx w Hs Sx) as (u & [Eu _] & Ru), (normalize_bv_ok s zy w Hs Sy) as (v & [Ev _] & Rv).
    exists u, v. split_and!; try done. apply z_eval_app. cbn [fmap list_fmap]. rewrite Eu, Ev. cbn. by rewrite Z.eqb_refl. }
  split.
  - rewrite Td. erewrite sort_from; [by constructor|]. intros s Hs. by destruct (Hev s Hs) as (u & v & _ & _ & ->).
  - intros s e Hs [Hx [Hy _]%Forall2_cons]%Forall2_cons r Er.
    destruct (denote_binary_inv e d x y r w) as (a & c & Ea & Ec & Wa & Wc & Es); try done; [by rewrite Ho|].
    destruct (Hev s Hs) as (u & v & Hu & Hv & ->). destruct (Hu a (Hx _ Ea)) as [_ <-], (Hv c (Hy _ Ec)) as [_ <-].
    cbn in Es. rewrite Wa, Wc, Z.eqb_refl in Es.
    assert (exists z, sem_int (od_opcode d) w (getZExtValue a) (getZExtValue c) = Some z /\ r = DInt (APInt_of w z)) as (z & Ez & ->).
    { destruct (od_opcode d); try done; apply fmap_Some in Es as (z & ? & ->); by exists z. }
    apply rep_bv; [done|]. f_equal. by eapply binop_sem.
Qed.

Lemma build_junction d l x y zx zy w (on_bool : ZOp) (bop : bool -> bool -> bool) on_bv zop :
  (forall a b, zsem on_bool [VBool a; VBool b] = Some (VBool (bop a b))) ->
  (forall w u v, bin_sem on_bv w u v = zop u v) -> (forall w u v, sem_int (od_opcode d) w u v = Some (zop u v)) ->
  (forall a b, wrap 1 (zop (Z.b2z a) (Z.b2z b)) = Z.b2z (bop a b)) ->
  int_binop (od_opcode d) = true -> l = [x; y] -> wf x -> wf y -> od_type d = ity w -> op_type x = ity w -> op_type y = ity w ->
  sort_for (ity w) (z_sort zx) -> sort_for (ity w) (z_sort zy) ->
  node_result d l l [zx; zy] (visit_junction on_bool (ZBinOp on_bv) zx zy).
Proof.
  intros Hbool Hbv Hsem Hwrap Ho -> Wx Wy Td Tx Ty Sx Sy. assert (good_width w) as Hw by (by apply sort_int_inv in Sx as [? _]).
  assert (0 < w) by (destruct Hw; lia). assert (0 <= w) as Hw0 by lia.
  assert (forall s e r, vrep s e x zx -> vrep s e y zy -> denote e (mkOp d [x; y]) = Some r -> exists a b,
    rep (z_eval s zx) (DInt a) /\ rep (z_eval s zy) (DInt b) /\ getBitWidth a = w /\ getBitWidth b = w /\
    r = DInt (APInt_of w (zop (getZExtValue a) (getZExtValue b)))) as Hden.
  { intros s e r Hx Hy Er. destruct (denote_binary_inv e d x y r w) as (a & c & Ea & Ec & Wa & Wc & Es); try done; [by rewrite Ho|].
    exists a, c. split_and!; auto. cbn in Es. rewrite Wa, Wc, Z.eqb_refl, Hsem in Es. destruct (od_opcode d); try done; by injection Es as <-. }
  unfold visit_junction. rewrite (normalize_bool_is zx w Sx). destruct (Z.eqb_spec w 1) as [->|Hw1].
  - assert (forall s, sorted s -> exists a b,
      (forall i, rep (z_eval s zx) (DInt i) -> i = APInt_of 1 (Z.b2z a)) /\ (forall i, rep (z_eval s zy) (DInt i) -> i = APInt_of 1 (Z.b2z b)) /\
      z_eval s (z_app on_bool [normalize_to_bool zx; normalize_to_bool zy]) = VBool (bop a b)) as Hev.
    { intros s Hs. destruct (normalize_bool_ok s zx Hs Sx) as (a & Ea & Ra), (normalize_bool_ok s zy Hs Sy) as (b & Eb & Rb).
      exists a, b. split_and!; try done. apply z_eval_app. cbn [fmap list_fmap]. by rewrite Ea, Eb. }
    split.
    + rewrite Td. erewrite sort_from; [apply sort_bool|]. intros s Hs. by destruct (Hev s Hs) as (? & ? & _ & _ & ->).
    + intros s e Hs [Hx [Hy _]%Forall2_cons]%Forall2_cons r Er. destruct (Hden s e r Hx Hy Er) as (a & b & Ra & Rb & _ & _ & ->).
      destruct (Hev s Hs) as (p & q & Hp & Hq & ->). apply Hp in Ra as ->. apply Hq in Rb as ->. cbn.
      rewrite !APInt_of_value, !b2z_wrap by lia. apply APInt_of_eq; [lia|]. by rewrite Hwrap, b2z_wrap.
  - assert (forall s, sorted s -> exists u v,
      z_eval s zx = VBv w u /\ z_eval s zy = VBv w v /\
      z_eval s (z_app (ZBinOp on_bv) [normalize_to_bool zx; normalize_to_bool zy]) = VBv w (wrap w (zop u v))) as Hev.
    { intros s Hs. destruct (normalize_bool_wide s zx w Hs Sx Hw1) as [-> (u & Eu & _)], (normalize_bool_wide s zy w Hs Sy Hw1) as [-> (v & Ev & _)].
      exists u, v. split_and!; try done. apply z_eval_app. cbn [fmap list_fmap]. rewrite Eu, Ev. cbn. by rewrite Z.eqb_refl, Hbv. }
    split.
    + rewrite Td. erewrite sort_from; [by constructor|]. intros s Hs. by destruct (Hev s Hs) as (? & ? & _ & _ & ->).
    + intros s e Hs [Hx [Hy _]%Forall2_cons]%Forall2_cons r Er. destruct (Hden s e r Hx Hy Er) as (a & b & Ra & Rb & _ & _ & ->).
      destruct (Hev s Hs) as (u & v & Eu & Ev & ->). rewrite Eu in Ra. rewrite Ev in Rb. destruct Ra as [_ <-], Rb as [_ <-].
      by apply rep_bv.
Qed.

Lemma build_icmp d l c x y zx zy w :
  od_opcode d = OpICmp c -> l = [x; y] -> wf x -> wf y -> od_type d = ity 1 -> op_type x = ity w -> op_type y = ity w ->
  sort_for (ity w) (z_sort zx) -> sort_for (ity w) (z_sort zy) ->
  node_result d l l [zx; zy] (z_visitICmp c zx zy).
Proof.
  intros Ho -> Wx Wy Td Tx Ty Sx Sy.
  assert (forall s, sorted s -> exists u v,
    (forall a, rep (z_eval s zx) (DInt a) -> getBitWidth a = w /\ getZExtValue a = u) /\
    (forall a, rep (z_eval s zy) (DInt a) -> getBitWidth a = w /\ getZExtValue a = v) /\
    z_eval s (z_visitICmp c zx zy) = VBool (sem_icmp c w u v)) as Hev.
  { intros s Hs. destruct (normalize_bv_ok s zx w Hs Sx) as (u & [Eu _] & Ru), (normalize_bv_ok s zy w Hs Sy) as (v & [Ev _] & Rv).
    exists u, v. split_and!; try done. apply z_eval_app. cbn [fmap list_fmap]. rewrite Eu, Ev. by destruct c; cbn; rewrite Z.eqb_refl. }
  split.
  - rewrite Td. erewrite sort_from; [apply sort_bool|]. intros s Hs. by destruct (Hev s Hs) as (u & v & _ & _ & ->).
  - intros s e Hs [Hx [Hy _]%Forall2_cons]%Forall2_cons r Er.
    destruct (denote_binary_inv e d x y r w) as (a & b & Ea & Eb & Wa & Wb & Es); try done; [by rewrite Ho|].
    destruct (Hev s Hs) as (u & v & Hu & Hv & ->). destruct (Hu a (Hx _ Ea)) as [_ <-], (Hv b (Hy _ Eb)) as [_ <-].
    cbn in Es. rewrite Wa, Wb, Z.eqb_refl, Ho in Es. by injection Es as <-.
Qed.

(** Unary nodes of integers. *)
Lemma denote_unary_inv e d x r w :
  match od_opcode d with OpNot | OpTrunc | OpZExt | OpSExt => true | _ => false end = true ->
  wf x -> op_type x = ity w -> denote e (mkOp d [x]) = Some r ->
  exists a, denote e x = Some (DInt a) /\ getBitWidth a = w /\ sem_unary (od_opcode d) (od_type d) (DInt a) = Some r.
Proof.
  intros Ho Wx Tx. cbn [denote]. unfold denote_node. cbn [fmap list_fmap].
  destruct (od_opcode d); try done; (destruct (denote e x) as [u|] eqn:Ex; [|done]);
    (destruct (denote_int e x u w Wx Tx Ex) as (a & -> & Wa)); intros Hr; by exists a.
Qed.

Lemma build_not d l x zx w :
  od_opcode d = OpNot -> l = [x] -> wf x -> od_type d = ity w -> op_type x = ity w -> sort_for (ity w) (z_sort zx) ->
  node_result d l l [zx] (z_visitNot zx).
Proof.
  intros Ho -> Wx Td Tx Sx. assert (good_width w) as Hw by (by apply sort_int_inv in Sx as [? _]).
  assert (0 < w) by (destruct Hw; lia). assert (0 <= w) as Hw0 by lia.
  assert (forall s e r, vrep s e x zx -> denote e (mkOp d [x]) = Some r ->
    exists a, rep (z_eval s zx) (DInt a) /\ getBitWidth a = w /\ r = DInt (APInt_of w (Z.lnot (getZExtValue a)))) as Hden.
  { intros s e r Hx Er. destruct (denote_unary_inv e d x r w) as (a & Ea & Wa & Es); try done; [by rewrite Ho|].
    exists a. split_and!; auto. rewrite Ho in Es. cbn in Es. rewrite Wa in Es. by injection Es as <-. }
  unfold z_visitNot. rewrite (normalize_bool_is zx w Sx). destruct (Z.eqb_spec w 1) as [->|Hw1]; split.
  - rewrite Td. erewrite sort_from; [apply sort_bool|]. intros s Hs. destruct (normalize_bool_ok s zx Hs Sx) as (a & Ea & _).
    erewrite z_eval_app; [|cbn [fmap list_fmap]; by rewrite Ea]. done.
  - intros s e Hs [Hx _]%Forall2_cons r Er. destruct (Hden s e r Hx Er) as (a & Ra & _ & ->).
    destruct (normalize_bool_ok s zx Hs Sx) as (b & Eb & Rb). apply Rb in Ra as ->.
    erewrite z_eval_app; [|cbn [fmap list_fmap]; by rewrite Eb]. cbn.
    rewrite APInt_of_value, b2z_wrap by lia. apply APInt_of_eq; [lia|]. by destruct b.
  - destruct (normalize_bool_wide _ zx w zero_sorted Sx Hw1) as [-> _]. rewrite Td.
    erewrite sort_from; [by constructor|]. intros s Hs. destruct (normalize_bool_wide s zx w Hs Sx Hw1) as [_ (u & Eu & _)].
    erewrite z_eval_app; [|cbn [fmap list_fmap]; by rewrite Eu]. done.
  - intros s e Hs [Hx _]%Forall2_cons r Er. destruct (Hden s e r Hx Er) as (a & Ra & _ & ->).
    destruct (normalize_bool_wide s zx w Hs Sx Hw1) as [-> (u & Eu & _)]. rewrite Eu in Ra. destruct Ra as [_ <-].
    erewrite z_eval_app; [|cbn [fmap list_fmap]; by rewrite Eu]. by apply rep_bv.
Qed.

(** Changes of width: [zo] of a [w']-bit vector has [w] bits. *)
Lemma build_resize d l x zx w w' zo (f : Z -> Z) :
  match od_opcode d with OpTrunc | OpZExt | OpSExt => true | _ => false end = true ->
  l = [x] -> wf x -> good_width w -> od_type d = ity w -> op_type x = ity w' -> sort_for (ity w') (z_sort zx) ->
  (forall u, 0 <= u < 2 ^ w' -> zsem zo [VBv w' u] = Some (VBv w (wrap w (f u)))) ->
  (forall a, getBitWidth a = w' -> sem_unary (od_opcode d) (ity w) (DInt a) = Some (DInt (APInt_of w (f (getZExtValue a))))) ->
  node_result d l l [zx] (z_app zo [normalize_to_bv zx]).
Proof.
  intros Ho -> Wx Hw Td Tx Sx Hz Hs. assert (0 < w) by (destruct Hw; lia). assert (0 <= w) as Hw0 by lia.
  assert (forall s, sorted s -> exists u, (forall a, rep (z_eval s zx) (DInt a) -> getBitWidth a = w' /\ getZExtValue a = u) /\
    z_eval s (z_app zo [normalize_to_bv zx]) = VBv w (wrap w (f u))) as Hev.
  { intros s Hso. destruct (normalize_bv_ok s zx w' Hso Sx) as (u & [Eu Ru] & Hu). exists u. split; [done|].
    apply z_eval_app. cbn [fmap list_fmap]. rewrite Eu. by apply Hz. }
  split.
  - rewrite Td. erewrite sort_from; [by constructor|]. intros s Hso. by destruct (Hev s Hso) as (u & _ & ->).
  - intros s e Hso [Hx _]%Forall2_cons r Er.
    destruct (denote_unary_inv e d x r w') as (a & Ea & Wa & Es); try done; [by destruct (od_opcode d)|].
    rewrite Td, (Hs a Wa) in Es. injection Es as <-. destruct (Hev s Hso) as (u & Hu & ->).
    destruct (Hu a (Hx _ Ea)) as [_ <-]. by apply rep_bv.
Qed.

(** The sort of a term that is normalised to a bit-vector. *)
Definition bv_sort (t : Ty) : ZSort := if is_array t then SortArr (desc_ t) else SortBv (desc_ t).
Lemma normalize_any s x t :
  sorted s -> sort_for t (z_sort x) ->
  sort_of (z_eval s (normalize_to_bv x)) = bv_sort t /\ sort_for t (bv_sort t) /\
  forall d, rep (z_eval s x) d -> rep (z_eval s (normalize_to_bv x)) d.
Proof.
  intros Hs Hx. assert ((exists w, t = ity w) \/ (exists w, t = aty w)) as [[w ->]|[w ->]] by (inversion Hx; eauto).
  - destruct (normalize_bv_ok s x w Hs Hx) as (v & [-> _] & Hv). apply sort_int_inv in Hx as [Hw Hx]. split_and!; [done|by constructor|].
    intros d Hd. destruct (z_sort_eval s x Hs) as [Ex _]. destruct d as [a| |]; [by apply Hv| |]; by destruct (z_eval s x), Hx as [Hx|[_ Hx]]; rewrite Hx in Ex.
  - apply sort_arr_inv in Hx. unfold normalize_to_bv, is_bool. rewrite Hx, bool_decide_eq_false_2 by done. destruct (z_sort_eval s x Hs) as [-> _].
    rewrite Hx. split_and!; [done|constructor|done].
Qed.

Lemma build_select d l c x y zc zx zy :
  od_opcode d = OpSelect -> l = [c; x; y] -> wf c -> op_type c = ity 1 ->
  sort_for (ity 1) (z_sort zc) -> sort_for (od_type d) (z_sort zx) -> sort_for (od_type d) (z_sort zy) ->
  node_result d l l [zc; zx; zy] (z_visitSelect zc zx zy).
Proof.
  intros Ho -> Wc Tc Sc Sx Sy.
  assert (forall s, sorted s -> exists b, (forall i, rep (z_eval s zc) (DInt i) -> i = APInt_of 1 (Z.b2z b)) /\
    z_eval s (z_visitSelect zc zx zy) = z_eval s (normalize_to_bv (if b then zx else zy))) as Hev.
  { intros s Hs. destruct (normalize_bool_ok s zc Hs Sc) as (b & Eb & Rb). exists b. split; [done|]. apply z_eval_app.
    cbn [fmap list_fmap]. rewrite Eb. cbn.
    destruct (normalize_any s zx _ Hs Sx) as [-> _], (normalize_any s zy _ Hs Sy) as [-> _]. rewrite decide_True by done. by destruct b. }
  split.
  - destruct (normalize_any _ zx _ zero_sorted Sx) as (_ & Ht & _). erewrite sort_from; [exact Ht|].
    intros s Hs. destruct (Hev s Hs) as (b & _ & ->).
    destruct b; [by destruct (normalize_any s zx _ Hs Sx) as [-> _]|by destruct (normalize_any s zy _ Hs Sy) as [-> _]].
  - intros s e Hs [Hc [Hx [Hy _]%Forall2_cons]%Forall2_cons]%Forall2_cons r. cbn [denote]. unfold denote_node.
    rewrite Ho. cbn [fmap list_fmap]. destruct (denote e c) as [u|] eqn:Ec; [|done].
    destruct (denote_int e c u 1 Wc Tc Ec) as (a & -> & _). destruct (Hev s Hs) as (b & Hb & ->).
    rewrite (Hb a (Hc _ Ec)), APInt_of_value, b2z_wrap by lia.
    destruct (normalize_any s zx _ Hs Sx) as (_ & _ & Nx), (normalize_any s zy _ Hs Sy) as (_ & _ & Ny). 
    destruct b; cbn; destruct (denote e x) eqn:?; intros Er; first [apply Nx, Hx|apply Ny, Hy]; congruence.
Qed.

(** *** Arrays *)
Lemma eval_index s x w : sorted s -> sort_for (ity w) (z_sort x) -> w <> 1 -> exists v, bv_at s x w v.
Proof. intros Hs [Hw [Hx|[? _]]]%sort_int_inv ?; [|done]. apply eval_bv; try done. destruct Hw; lia. Qed.

Lemma build_load d l a i za zi w :
  od_opcode d = OpLoad -> l = [a; i] -> wf a -> wf i -> od_type d = ity 8 -> op_type a = aty w -> op_type i = ity w -> w <> 1 ->
  sort_for (aty w) (z_sort za) -> sort_for (ity w) (z_sort zi) -> node_result d l l [za; zi] (z_app ZSelect [za; zi]).
Proof.
  intros Ho -> Wa Wi Td Ta Ti Hw1 Sa%sort_arr_inv Si.
  assert (forall s, sorted s -> exists f v, z_eval s za = VArr w f /\ z_eval s zi = VBv w v /\ 0 <= v < 2 ^ w /\
    z_eval s (z_app ZSelect [za; zi]) = VBv 8 (f v)) as Hev.
  { intros s Hs. destruct (eval_arr s za w Hs Sa) as (f & Ef & _), (eval_index s zi w Hs Si Hw1) as (v & Ev & Rv).
    exists f, v. split_and!; try lia; try done. apply z_eval_app. cbn [fmap list_fmap]. rewrite Ef, Ev. cbn. by rewrite Z.eqb_refl. }
  split.
  - rewrite Td. erewrite sort_from; [by apply (sort_bv 8)|]. intros s Hs. by destruct (Hev s Hs) as (f & v & _ & _ & _ & ->).
  - intros s e Hs [Hx [Hy _]%Forall2_cons]%Forall2_cons r. cbn [denote]. unfold denote_node. rewrite Ho. cbn [fmap list_fmap].
    destruct (denote e a) as [u|] eqn:Ea; [|done]. pose proof (denote_typed e a u Wa Ea) as Tu. rewrite Ta in Tu.
    apply den_arr_inv in Tu as (bs & -> & Hbs). destruct (denote e i) as [u|] eqn:Ei; [|done].
    destruct (denote_int e i u w Wi Ti Ei) as (j & -> & Wj). rewrite Wj, Z.eqb_refl.
    intros (b & Eb & ->)%fmap_Some. destruct (bs !! _) as [[b'|]|] eqn:El; try done. injection Eb as ->.
    destruct (Hev s Hs) as (f & v & Ef & Ev & Rv & ->). specialize (Hx _ Ea). specialize (Hy _ Ei). rewrite Ef in Hx. rewrite Ev in Hy.
    destruct Hx as [_ Hf], Hy as [_ <-]. cbn. split; [by eapply byte_ok_lookup|]. rewrite <- (Hf _ _) with (2 := El); rewrite Z2Nat.id by lia; [done|lia].
Qed.

Lemma build_store d l a i b za zi zb w :
  od_opcode d = OpStore -> l = [a; i; b] -> wf a -> wf i -> wf b -> od_type d = aty w -> op_type a = aty w -> op_type i = ity w ->
  op_type b = ity 8 -> w <> 1 -> sort_for (aty w) (z_sort za) -> sort_for (ity w) (z_sort zi) -> sort_for (ity 8) (z_sort zb) ->
  node_result d l l [za; zi; zb] (z_app ZStore [za; zi; zb]).
Proof.
  intros Ho -> Wa Wi Wb Td Ta Ti Tb Hw1 Sa%sort_arr_inv Si Sb.
  assert (forall s, sorted s -> exists f v c, z_eval s za = VArr w f /\ z_eval s zi = VBv w v /\ 0 <= v /\ z_eval s zb = VBv 8 c /\
    z_eval s (z_app ZStore [za; zi; zb]) = VArr w (fun j => if j =? v then c else f j)) as Hev.
  { intros s Hs. destruct (eval_arr s za w Hs Sa) as (f & Ef & _), (eval_index s zi w Hs Si Hw1) as (v & Ev & Rv).
    destruct (eval_index s zb 8 Hs Sb ltac:(done)) as (c & Ec & _).
    exists f, v, c. split_and!; try done; [lia|]. apply z_eval_app. cbn [fmap list_fmap]. rewrite Ef, Ev, Ec. cbn. by rewrite Z.eqb_refl. }
  split.
  - rewrite Td. erewrite sort_from; [apply sort_arr|]. intros s Hs. by destruct (Hev s Hs) as (f & v & c & _ & _ & _ & _ & ->).
  - intros s e Hs [Hx [Hy [Hz _]%Forall2_cons]%Forall2_cons]%Forall2_cons r. cbn [denote]. unfold denote_node. rewrite Ho. cbn [fmap list_fmap].
    destruct (denote e a) as [u|] eqn:Ea; [|done]. pose proof (denote_typed e a u Wa Ea) as Tu. rewrite Ta in Tu.
    apply den_arr_inv in Tu as (bs & -> & Hbs). destruct (denote e i) as [u|] eqn:Ei; [|done].
    destruct (denote_int e i u w Wi Ti Ei) as (j & -> & Wj). rewrite Wj, Z.eqb_refl. cbn [andb].
    destruct (Z.ltb_spec (getZExtValue j) (Z.of_nat (length bs))); [|done]. intros [= <-].
    destruct (Hev s Hs) as (f & v & c & Ef & Ev & Rv & Ec & ->). specialize (Hx _ Ea). specialize (Hy _ Ei).
    rewrite Ef in Hx. rewrite Ev in Hy. destruct Hx as [_ Hf], Hy as [_ <-]. split; [done|]. intros k b' Hkw.
    destruct (Z.eqb_spec (Z.of_nat k) (getZExtValue j)) as [Hk|Hk].
    + rewrite <- Hk, Nat2Z.id, list_lookup_insert_eq by lia. intros [= E]. destruct (denote e b) as [[bb| |]|] eqn:Eb; try done.
      injection E as ->. specialize (Hz _ Eb). rewrite Ec in Hz. by destruct Hz.
    + rewrite list_lookup_insert_ne by lia. by apply Hf.
Qed.

Lemma build_alloc d n b zb w :
  od_opcode d = OpAlloc -> wf n -> od_type d = aty w -> op_type n = ity w -> sort_for (ity 8) (z_sort zb) ->
  node_result d [n; b] [b] [zb] (z_app (ZConstArray w) [zb]).
Proof.
  intros Ho Wn Td Tn Sb.
  assert (forall s, sorted s -> exists c, z_eval s zb = VBv 8 c /\ z_eval s (z_app (ZConstArray w) [zb]) = VArr w (fun _ => c)) as Hev.
  { intros s Hs. destruct (eval_index s zb 8 Hs Sb ltac:(done)) as (c & Ec & _). exists c. split; [done|].
    apply z_eval_app. cbn [fmap list_fmap]. by rewrite Ec. }
  split.
  - rewrite Td. erewrite sort_from; [apply sort_arr|]. intros s Hs. by destruct (Hev s Hs) as (c & _ & ->).
  - intros s e Hs [Hz _]%Forall2_cons r. cbn [denote]. unfold denote_node. rewrite Ho. cbn [fmap list_fmap].
    destruct (denote e n) as [u|] eqn:En; [|done]. destruct (denote_int e n u w Wn Tn En) as (j & -> & Wj).
    assert (Some (DArr (replicate (Z.to_nat (getZExtValue j)) (den_byte (denote e b))) (getBitWidth j)) = Some r -> rep (z_eval s (z_app (ZConstArray w) [zb])) r) as Hr; [|by destruct (denote e b)].
    intros [= <-]. destruct (Hev s Hs) as (c & Ec & ->). split; [done|]. intros k b' _ [Hk _]%lookup_replicate_1.
    destruct (denote e b) as [[bb| |]|] eqn:Eb; try done. injection Hk as ->. specialize (Hz _ Eb). rewrite Ec in Hz. by destruct Hz.
Qed.

(** ** The expressions that are translated *)
Context (G : Symbol -> Ty).
(** The numbers from 2^29 on are left to [next_const]. *)
Definition below (k : Z) (n : ZName) : Prop := match n with ZInt j => j < k | ZStr _ => True end.
Definition small (s : Symbol) : bool := match s with Numbered k => k <? tmpConstMin | Named _ => true end.
Definition good_int (t : Ty) : bool := bool_decide (t = ity (desc_ t) /\ 0 < desc_ t < 2 ^ 24).
Definition good_arr (t : Ty) : bool := bool_decide (t = aty (desc_ t) /\ 0 < desc_ t < 2 ^ 24).
Definition symbol_ok (d : OperationData) : bool :=
  match od_payload d with PSymbol s => small s && bool_decide (od_type d = G s) | _ => false end.
Definition convertible_node (d : OperationData) (l : list Operation) : bool :=
  match od_opcode d with
  | OpConstantNamed | OpConstantNumbered => symbol_ok d && good_int (od_type d)
  | OpConstantArray => symbol_ok d && good_arr (od_type d)
  | OpUndef => good_int (od_type d)
  | OpConstantInt | OpICmp _ | OpNot | OpTrunc | OpZExt | OpSExt | OpAlloc => true
  | OpAdd | OpSub | OpMul | OpUDiv | OpSDiv | OpURem | OpAnd | OpOr | OpXor | OpShl | OpLShr | OpAShr => true
  | OpSelect => good_int (od_type d) || good_arr (od_type d)
  | OpLoad | OpStore => match l with _ :: i :: _ => bool_decide (op_type i <> ity 1) | _ => false end
  | OpFixedArray => Z.of_nat (length l) <=? 2 ^ desc_ (od_type d)
  | _ => false
  end.
(** Sizes are not visited. *)
Fixpoint convertible (op : Operation) : bool :=
  let 'mkOp d l := op in
  convertible_node d l &&
  match od_opcode d, l with
  | OpConstantArray, _ => true
  | OpAlloc, [_; b] => convertible b
  | _, _ => forallb convertible l
  end.

Definition buildable (o : Opcode) : bool :=
  match o with OpConstantNamed | OpConstantNumbered | OpConstantArray | OpFixedArray => false | _ => true end.

Lemma good_int_inv t : good_int t = true -> t = ity (desc_ t) /\ good_width (desc_ t).
Proof. apply bool_decide_eq_true. Qed.
Lemma good_arr_inv t : good_arr t = true -> t = aty (desc_ t) /\ good_width (desc_ t).
Proof. apply bool_decide_eq_true. Qed.

Lemma build_int d a : od_opcode d = OpConstantInt -> od_payload d = PInt a -> good_width (getBitWidth a) ->
  od_type d = ity (getBitWidth a) -> node_result d [] [] [] (bv_of a).
Proof.
  intros Ho Hp Hw Td. assert (forall s, z_eval s (bv_of a) = VBv (getBitWidth a) (getZExtValue a)) as Hev.
  { intros s. unfold bv_of. rewrite eval_val. by rewrite wrap_value. }
  split.
  - rewrite Td. erewrite sort_from; [by constructor|]. intros s _. by rewrite Hev.
  - intros s e _ _ r. cbn [denote]. unfold denote_node. rewrite Ho, Hp. cbn. intros [= <-]. by rewrite Hev.
Qed.
Lemma build_undef d : od_opcode d = OpUndef -> good_int (od_type d) = true ->
  exists x, visitUndef (od_type d) = Ok x /\ node_result d [] [] [] x.
Proof.
  intros Ho [Td Hw]%good_int_inv. unfold visitUndef. rewrite Td. cbn. eexists. split; [done|]. split.
  - rewrite Td. erewrite sort_from; [by constructor|]. intros s _. by rewrite eval_val.
  - intros s e _ _ r. cbn [denote]. unfold denote_node. by rewrite Ho.
Qed.
Lemma build_ext (ext : Z -> ZOp) (f : Z -> Z -> Z) d l x zx w w' :
  match od_opcode d with OpTrunc | OpZExt | OpSExt => true | _ => false end = true ->
  (forall k u, 0 < w' -> 0 <= k -> 0 <= u < 2 ^ w' -> zsem (ext k) [VBv w' u] = Some (VBv (w' + k) (wrap (w' + k) (f w' u)))) ->
  (forall a, sem_unary (od_opcode d) (ity w) (DInt a) = Some (DInt (APInt_of w (f (getBitWidth a) (getZExtValue a))))) ->
  l = [x] -> wf x -> good_width w -> good_width w' -> w' <= w -> od_type d = ity w -> op_type x = ity w' ->
  sort_for (ity w') (z_sort zx) -> exists z, z_visitExt ext (od_type d) zx = Ok z /\ node_result d l l [zx] z.
Proof.
  intros Ho Hz Hu -> Wx Hw Hw' Hle Td Tx Sx. unfold z_visitExt. rewrite Td, bitwidth_ity, ok_bind. unfold bv_size.
  assert (z_sort (normalize_to_bv zx) = SortBv w') as ->.
  { apply sort_from. intros s Hs. by destruct (normalize_bv_ok s zx w' Hs Sx) as (v & [-> _] & _). }
  eexists. split; [done|]. eapply build_resize with (w := w) (f := f w'); try done.
  - intros u Ru. rewrite Hz by (destruct Hw'; lia). by replace (w' + (w - w')) with w by lia.
  - intros a Wa. by rewrite Hu, Wa.
Qed.

(** Close the side conditions of the lemmas above. *)
Ltac side := try done; try match goal with T : op_type ?x = ?t, S : sort_for (op_type ?x) ?z |- sort_for ?t ?z => by rewrite <- T end.

Lemma node_built d l xs :
  Forall wf l -> node_ok d l -> convertible_node d l = true -> buildable (od_opcode d) = true ->
  Forall2 (fun op x => sort_for (op_type op) (z_sort x)) (visited_operands (od_opcode d) l) xs ->
  exists x, build_node d l xs = Ok x /\ node_result d l (visited_operands (od_opcode d) l) xs x.
Proof.
  intros Wl Hn Hc Hb Hs. unfold convertible_node in Hc. unfold node_ok in Hn. unfold build_node.
  destruct (od_opcode d) eqn:Ho; try done; node_shape l Hn; cbn [visited_operands] in Hs |- *;
    repeat match goal with H : Forall2 _ (_ :: _) _ |- _ => apply Forall2_cons_inv_l in H as (? & ? & ? & H & ->) end;
    try (apply Forall2_nil_inv_l in Hs as ->); rewrite ?Forall_cons in Wl; destruct_and? Wl.
  all: try (destruct Hn as (w & Hw & Td & Tx & Ty); eexists; split; [reflexivity|]; eapply build_binop; rewrite ?Ho; side; fail).
  all: try (destruct Hn as (w & Hw & Td & Tx & Ty); eexists; split; [reflexivity|]).
  - destruct Hn as (a & Hp & Hw & Td). rewrite Hp. eexists. split; [done|]. by apply build_int.
  - by apply build_undef.
  - eapply (build_junction _ _ _ _ _ _ w ZAndAnd andb ZAmp Z.land); rewrite ?Ho; side. by intros [] [].
  - eapply (build_junction _ _ _ _ _ _ w ZOrOr orb ZBar Z.lor); rewrite ?Ho; side. by intros [] [].
  - eapply build_icmp; side.
  - destruct Hn as (w & Hw & Td & Tx). eexists; split; [reflexivity|]. eapply build_not; side.
  - destruct Hn as (w & w' & Hw & Hw' & Hle & Td & Tx). unfold z_visitTrunc. rewrite Td. eexists. split; [reflexivity|].
    eapply (build_resize _ _ _ _ w w' _ (fun u => u)); rewrite ?Ho; side. intros u Ru. cbn.
    replace (w - 1 - 0 + 1) with w by lia. destruct Hw, Hw'.
    rewrite (proj2 (Z.leb_le 0 (w - 1))), (proj2 (Z.ltb_lt (w - 1) w')) by lia. done.
  - destruct Hn as (w & w' & Hw & Hw' & Hle & Td & Tx). eapply (build_ext _ sgn _ _ _ _ w w'); rewrite ?Ho; side.
    intros k u ? ? ?. cbn. by rewrite (proj2 (Z.ltb_lt 0 w')), (proj2 (Z.leb_le 0 k)) by lia.
  - destruct Hn as (w & w' & Hw & Hw' & Hle & Td & Tx). eapply (build_ext _ (fun _ u => u) _ _ _ _ w w'); rewrite ?Ho; side.
    intros k u ? ? Ru. cbn. rewrite (proj2 (Z.ltb_lt 0 w')), (proj2 (Z.leb_le 0 k)) by lia.
    assert (2 ^ w' <= 2 ^ (w' + k)) by (apply Z.pow_le_mono_r; lia). by rewrite wrap_small by lia.
  - destruct Hn as (Tx & Ty & Tz). eexists. split; [done|]. eapply build_select; side.
  - destruct Hn as (w & Hw & Td & Tx & Ty). unfold z_visitAlloc. rewrite Tx. eexists. split; [done|]. apply build_alloc; side.
  - destruct Ty as [Ty Tz]. apply bool_decide_eq_true in Hc.
    eapply (build_store _ _ _ _ _ _ _ _ w); side. intros ->. by apply Hc.
  - apply bool_decide_eq_true in Hc. eapply (build_load _ _ _ _ _ _ w); side. intros ->. by apply Hc.
Qed.
End values.
