(* ===== verification/Z3Visit.v ===== *)
(** The visitor of src/Solver/Z3/Convert.cpp as a whole: its cache, its map of
    constants, the temporary constants and the assertions it adds to the solver
    for fixed arrays.

    [zinv Q] is the invariant of its state, for a set [Q] of names that the
    cached terms stay inside, [zstep Q] what a visit does to the state.
    [visit_ok] is the simulation: a visit of a convertible expression returns,
    keeps the invariant, and makes such a step. *)
From S2P Require Import Prelude LLVM IRType Value Opcode Operation Matching Create Semantics.
From S2P Require Import Simplifier SimplifierInt SimplifierSound Effects Z3Convert Z3Sound.
Open Scope Z_scope.

Lemma hd_filter {A} (P : A -> Prop) `{!forall a, Decision (P a)} l a : hd_error (filter P l) = Some a -> P a /\ a ∈ l.
Proof.
  intros E. apply (list_elem_of_filter P l a). destruct (filter P l); [done|]. injection E as ->. by left.
Qed.

Section visits.
Context `{PtrEq} `{MathExtrasAPI} `{Config} `{Z3Laws}.
Context (G : Symbol -> Ty).

(** ** Environments and interpretations *)

(** The interpretation gives the symbols the values they have in [e]. *)
Definition sees (s : Interp) (e : Env) : Prop :=
  forall y, small y = true ->
    (forall w v, typed (ity w) (env_symbol e y) = Some v -> rep (s (op_name y) (SortBv w)) v) /\
    (forall w n v, typed (aty w) (env_array e y n) = Some v -> rep (s (op_name y) (SortArr w)) v).
Definition sat (s : Interp) (xs : list Zexpr) : Prop := Forall (fun x => z_eval s x = VBool true) xs.
(** [s'] differs from [s] at most on the temporary constants from [lo] to [hi]. *)
Definition agree (lo hi : Z) (s s' : Interp) : Prop := forall n t, (forall j, lo <= j < hi -> n <> ZInt j) -> s n t = s' n t.

Lemma agree_refl lo hi s : agree lo hi s s.
Proof. done. Qed.
Lemma agree_trans a b c s1 s2 s3 : a <= b <= c -> agree a b s1 s2 -> agree b c s2 s3 -> agree a c s1 s3.
Proof. intros ? H12 H23 n t Hn. rewrite H12 by (intros; apply Hn; lia). apply H23. intros; apply Hn; lia. Qed.
Lemma agree_wider a b a' b' s s' : a' <= a -> b <= b' -> agree a b s s' -> agree a' b' s s'.
Proof. intros ? ? Hs n t Hn. apply Hs. intros j Hj. apply Hn. lia. Qed.
Lemma agree_below a b s s' n t : agree a b s s' -> below a n -> s n t = s' n t.
Proof. intros Hs Hn. apply Hs. intros j ? ->. cbn in Hn. lia. Qed.
Lemma agree_eval a b s s' x : agree a b s s' -> (forall n, n ∈ z_names x -> below a n) -> z_eval s x = z_eval s' x.
Proof. intros Hs Hx. apply z_eval_names. intros n t Hn. eapply agree_below; eauto. Qed.
Lemma agree_sat a b s s' xs :
  agree a b s s' -> (forall x n, x ∈ xs -> n ∈ z_names x -> below a n) -> sat s xs <-> sat s' xs.
Proof.
  intros Hs Hx. unfold sat. rewrite !Forall_forall.
  split; intros Hall x Hin; [rewrite <- (agree_eval a b s s')|rewrite (agree_eval a b s s')]; eauto.
Qed.
Lemma small_below y : small y = true -> below tmpConstMin (op_name y).
Proof. destruct y; cbn; [done|]. apply Z.ltb_lt. Qed.
Lemma agree_sees a b s s' e : tmpConstMin <= a -> agree a b s s' -> sees s e -> sees s' e.
Proof.
  intros Ha Hs He y Hy. assert (below a (op_name y)) as Hb.
  { apply small_below in Hy. destruct (op_name y); cbn in *; [done|lia]. }
  destruct (He y Hy) as [Hi Hr]. split; intros; rewrite <- (agree_below a b s s'); eauto.
Qed.

(** ** The state of the visitor *)
Definition conv (xs : list Zexpr) (op : Operation) (x : Zexpr) : Prop :=
  sort_for (op_type op) (z_sort x) /\
  forall s e, sorted s -> sees s e -> sat s xs -> vrep s e op x.
Definition names_in (Q : ZName -> Prop) (k : Z) (x : Zexpr) : Prop := forall n, n ∈ z_names x -> below k n /\ Q n.

Record zinv (Q : ZName -> Prop) (st : ZState) : Prop := {
  zi_num : tmpConstMin <= tmpConstNum st;
  zi_small : forall n, below tmpConstMin n -> Q n;
  zi_fresh : forall j, tmpConstNum st <= j -> Q (ZInt j);
  zi_const : forall n x, (n, x) ∈ const_map st ->
    exists y srt, n = op_name y /\ small y = true /\ (good_int (G y) = true \/ good_arr (G y) = true) /\
      type_to_sort (G y) = Ok srt /\ x = z_const n srt;
  zi_cache : forall op x, (op, x) ∈ z_cache st -> conv (z_asserts st) op x /\ names_in Q (tmpConstNum st) x;
  zi_asserts : forall x n, x ∈ z_asserts st -> n ∈ z_names x -> below (tmpConstNum st) n
}.
Record zstep (Q : ZName -> Prop) (st st' : ZState) : Prop := {
  zs_num : tmpConstNum st <= tmpConstNum st';
  zs_cache : z_cache st ⊆ z_cache st';
  zs_asserts : exists new, z_asserts st' = z_asserts st ++ new /\ forall x n, x ∈ new -> n ∈ z_names x -> Q n;
  zs_ext : forall s, sorted s -> sat s (z_asserts st) ->
    exists s', sorted s' /\ agree (tmpConstNum st) (tmpConstNum st') s s' /\ sat s' (z_asserts st')
}.

Lemma conv_mono xs ys op x : conv xs op x -> conv (xs ++ ys) op x.
Proof. intros [Hs Hv]. split; [done|]. intros s e Hso He [Hx _]%Forall_app. by apply Hv. Qed.
Lemma below_mono a b n : a <= b -> below a n -> below b n.
Proof. destruct n; cbn; [done|lia]. Qed.
Lemma zstep_refl Q st : zstep Q st st.
Proof.
  split; [lia|done|exists []; rewrite app_nil_r; split; [done|set_solver]|].
  intros s Hs Hx. by exists s.
Qed.
Lemma zstep_trans Q a b c : zstep Q a b -> zstep Q b c -> zstep Q a c.
Proof.
  intros [N1 C1 (x1 & A1 & Q1) E1] [N2 C2 (x2 & A2 & Q2) E2]. split; [lia|set_solver|..].
  - exists (x1 ++ x2). rewrite A2, A1, app_assoc. split; [done|]. intros x n [Hx|Hx]%elem_of_app; eauto.
  - intros s Hs Hx. destruct (E1 s Hs Hx) as (s1 & Hs1 & Ha1 & Hx1), (E2 s1 Hs1 Hx1) as (s2 & Hs2 & Ha2 & Hx2).
    exists s2. split_and!; try done. eapply agree_trans; eauto.
Qed.
(** A smaller set of names. *)
Lemma zstep_weaken (Q Q' : ZName -> Prop) a b : (forall n, Q n -> Q' n) -> zstep Q a b -> zstep Q' a b.
Proof. intros HQ [N C (x & A & HA) E]. split; try done. exists x. eauto. Qed.

(** What a visit of [op] does. *)
Definition visit_spec (Q : ZName -> Prop) (op : Operation) (k : Z) (m : M ZState Zexpr) : Prop :=
  forall st, zinv Q st -> tmpConstNum st + k <= tmpConstMax ->
    exists x st', m st = (Ok x, st') /\ zinv Q st' /\ zstep Q st st' /\ (op, x) ∈ z_cache st' /\
      tmpConstNum st' <= tmpConstNum st + k.
(** The same before the result is cached. *)
Definition node_spec (Q : ZName -> Prop) (op : Operation) (k : Z) (m : M ZState Zexpr) : Prop :=
  forall st, zinv Q st -> tmpConstNum st + k <= tmpConstMax ->
    exists x st', m st = (Ok x, st') /\ zinv Q st' /\ zstep Q st st' /\ conv (z_asserts st') op x /\
      names_in Q (tmpConstNum st') x /\ tmpConstNum st' <= tmpConstNum st + k.

(** ** The cache *)
Lemma memoized_ok Q op k m : 0 <= k -> node_spec Q op k m -> visit_spec Q op k (memoized op m).
Proof.
  intros Hk Hm st Hi Hr. unfold memoized. rewrite (bind_eq state _ st st st) by done.
  destruct (hd_error (filter _ (z_cache st))) as [[op' x]|] eqn:Eh.
  - apply hd_filter in Eh as [Hp Hin]. cbn in Hp. apply ptr_eq_sound in Hp as ->. exists x, st. split_and!; try done; [apply zstep_refl|lia].
  - destruct (Hm st Hi Hr) as (x & st' & Em & Hi' & Hs & Hc & Hn & Hk').
    exists x, (mkZState (const_map st') (z_asserts st') ((op, x) :: z_cache st') (tmpConstNum st')).
    rewrite (bind_eq _ _ _ _ _ Em). split; [done|]. split_and!; [| |set_solver|done].
    + destruct Hi'. split; try done. intros op' x' [[= -> ->]|Hin]%elem_of_cons; [done|by apply zi_cache0].
    + destruct Hs. split; try done. cbn. set_solver.
Qed.

Lemma map_ok Q ops ks :
  Forall2 (fun op k => 0 <= k /\ visit_spec Q op k (z_visit op)) ops ks ->
  forall st, zinv Q st -> tmpConstNum st + foldr Z.add 0 ks <= tmpConstMax ->
    exists xs st', map_m id (z_visit <$> ops) st = (Ok xs, st') /\ zinv Q st' /\ zstep Q st st' /\
      Forall2 (fun op x => (op, x) ∈ z_cache st') ops xs /\ tmpConstNum st' <= tmpConstNum st + foldr Z.add 0 ks.
Proof.
  induction 1 as [|op k ops ks [Hk Hv] Hrest IH]; intros st Hi Hr; cbn [foldr] in Hr |- *.
  - exists [], st. split_and!; try done; [apply zstep_refl|lia].
  - assert (0 <= foldr Z.add 0 ks) as Hks by (clear -Hrest; induction Hrest as [|? ? ? ? [? _]]; cbn; lia).
    destruct (Hv st Hi ltac:(lia)) as (x & st1 & E1 & Hi1 & Hs1 & Hc1 & Hk1).
    destruct (IH st1 Hi1 ltac:(lia)) as (xs & st2 & E2 & Hi2 & Hs2 & Hc2 & Hk2).
    exists (x :: xs), st2. split_and!; try done; [|by eapply zstep_trans| |lia].
    + cbn [fmap list_fmap map_m id]. rewrite (bind_eq _ _ _ _ _ E1), (bind_eq _ _ _ _ _ E2). done.
    + constructor; [|done]. destruct Hs2. set_solver.
Qed.

(** ** Names of the terms that are built *)
Definition within (P : ZName -> Prop) (x : Zexpr) : Prop := forall n, n ∈ z_names x -> P n.
Lemma within_app P o xs : Forall (within P) xs -> within P (z_app o xs).
Proof. intros Hx n (x & Hin & Hn)%z_names_app. rewrite Forall_forall in Hx. by apply (Hx x). Qed.
Lemma within_bv P x : within P x -> within P (normalize_to_bv x).
Proof. intros Hx. unfold normalize_to_bv. case_match; [|done]. repeat first [done|apply within_app|constructor]. Qed.
Lemma within_bool P x : within P x -> within P (normalize_to_bool x).
Proof. intros Hx. unfold normalize_to_bool. case_match; [|done]. repeat first [done|apply within_app|constructor]. Qed.
Ltac within := repeat first [done|apply within_bv|apply within_bool|apply within_app|apply Forall_cons; split|apply Forall_nil].

Lemma build_names P d l xs x : build_node d l xs = Ok x -> Forall (within P) xs -> within P x.
Proof.
  unfold build_node. intros E Hxs.
  destruct xs as [|x1 [|x2 [|x3 [|x4 xs]]]]; rewrite ?Forall_cons in Hxs; destruct_and? Hxs;
    destruct (od_opcode d); try done;
    repeat (unfold z_visitConstantFloat, z_visitZExt, z_visitSExt, z_visitFNeg, z_visitFIsNaN, z_visitSIToFp, z_visitUIToFp, z_visitFpToSI,
              z_visitFpToUI, z_visitFpExt, z_visitFpTrunc, z_visitLoad, z_visitStore, z_visitAlloc, visitUndef, bv_to_fpa, z_visitBitcast, z_visitTrunc, z_visitExt, fp_sort, z_visitAnd, z_visitOr,
              z_visitICmp, z_visitFCmp, z_visitNot, z_visitSelect, visit_junction, visit_binop, bv_of in *; cbn [binop_of] in E; inv_ok; repeat case_match; inv_ok; simplify_eq; try done);
    within.
Qed.

(** ** Symbols *)
Lemma op_name_inj y y' : op_name y = op_name y' -> y = y'.
Proof. destruct y, y'; cbn; congruence. Qed.

Lemma constant_ok Q d l y :
  match od_opcode d with OpConstantNamed | OpConstantNumbered | OpConstantArray => true | _ => false end = true ->
  node_ok d l -> od_payload d = PSymbol y -> small y = true -> od_type d = G y ->
  match od_opcode d with OpConstantArray => good_arr (G y) | _ => good_int (G y) end = true ->
  node_spec Q (mkOp d l) 0 (visit_constant y (od_type d)).
Proof.
  intros Ho Hok Hp Hy Ht Hg st Hi Hr. unfold visit_constant. rewrite (bind_eq state _ st st st) by done. rewrite Ht.
  assert (exists srt, type_to_sort (G y) = Ok srt /\ sort_for (G y) srt) as (srt & Es & Hs).
  { assert (good_int (G y) = true \/ good_arr (G y) = true) as [[E ?]%good_int_inv|[E ?]%good_arr_inv] by (destruct (od_opcode d); auto);
      rewrite E; eexists; (split; [done|by constructor]). }
  assert (forall xs, conv xs (mkOp d l) (z_const (op_name y) srt)) as Hc.
  { intros xs. split.
    - cbn. unfold op_type. cbn [op_data]. rewrite Ht. erewrite sort_from; [exact Hs|]. intros s Hso. rewrite z_eval_const. apply Hso.
    - intros s e Hso He _ v. rewrite z_eval_const. cbn [denote]. unfold denote_node. intros Ev. destruct (He y Hy) as [Hey Hea].
      unfold node_ok in Hok. destruct (od_opcode d); try done; destruct l as [|? [|]]; try done; cbn in Ev; rewrite Hp, Ht in Ev.
      1, 2: apply good_int_inv in Hg as [E _]; rewrite E in Es, Ev; injection Es as <-; by apply Hey.
      apply good_arr_inv in Hg as [E _]. rewrite E in Es, Ev. injection Es as <-. repeat case_match; simplify_eq. by eapply Hea. }
  assert (names_in Q (tmpConstNum st) (z_const (op_name y) srt)) as Hn.
  { intros n. rewrite z_names_const, list_elem_of_singleton. intros ->. pose proof (small_below y Hy). destruct Hi.
    split; [by eapply below_mono|auto]. }
  unfold find_const. destruct (hd_error (filter _ (const_map st))) as [[n x]|] eqn:Eh; cbn [fmap option_fmap option_map].
  - apply hd_filter in Eh as [Hnm Hin]. cbn in Hnm. subst n. destruct (zi_const _ _ Hi _ _ Hin) as (y' & srt' & E' & _ & _ & Es' & ->). apply op_name_inj in E' as <-.
    rewrite Es in Es'. injection Es' as <-. exists (z_const (op_name y) srt), st. split_and!; try done; [apply zstep_refl|lia].
  - assert (name_to_symbol (op_name y) = Ok (op_name y)) as En.
    { destruct y as [|k]; [done|]. cbn in Hy |- *. apply Z.ltb_lt in Hy. unfold INT_MAX, tmpConstMin in *.
      by rewrite (proj2 (Z.leb_le k _)) by lia. }
    exists (z_const (op_name y) srt), (mkZState ((op_name y, z_const (op_name y) srt) :: const_map st) (z_asserts st) (z_cache st) (tmpConstNum st)).
    split; [unfold mbind, M_bind, lift; by rewrite Es, En|]. split_and!; try done; [| |cbn; lia].
    + destruct Hi. split; try done. intros n x [[= -> ->]|Hin]%elem_of_cons; [|by apply zi_const0].
      exists y, srt. split_and!; try done. destruct (od_opcode d); auto.
    + by destruct (zstep_refl Q st).
Qed.

(** ** Fixed arrays *)

(** The interpretation with another array for the temporary constant [k]. *)
Definition with_array (k w : Z) (f : Z -> Z) (s : Interp) : Interp :=
  fun n t => if decide (n = ZInt k /\ t = SortArr w) then VArr w f else s n t.
Definition array_at (k w : Z) (s : Interp) : Z -> Z := match s (ZInt k) (SortArr w) with VArr _ f => f | _ => fun _ => 0 end.
Definition bytes_fun (f : Z -> Z) : Prop := forall i, wrap 8 (f i) = f i.
Lemma with_array_sorted k w f s : sorted s -> bytes_fun f -> sorted (with_array k w f s).
Proof. intros Hs Hf n t. unfold with_array. case_decide as Hd; [|apply Hs]. destruct Hd as [_ ->]. by split. Qed.
Lemma array_at_bytes k w s : sorted s -> bytes_fun (array_at k w s).
Proof. intros Hs i. unfold array_at. destruct (Hs (ZInt k) (SortArr w)) as [E R], (s _ _); try apply wrap_0. apply R. Qed.
Lemma with_array_agree k w f s : agree k (k + 1) s (with_array k w f s).
Proof. intros n t Hn. unfold with_array. rewrite decide_False; [done|]. intros [-> _]. by apply (Hn k); [lia|]. Qed.
Lemma with_array_eval k w f s x : within (fun n => n <> ZInt k) x -> z_eval (with_array k w f s) x = z_eval s x.
Proof. intros Hx. apply z_eval_names. intros n t Hn. unfold with_array. rewrite decide_False; [done|]. intros [-> _]. by apply (Hx _ Hn). Qed.
Lemma with_array_same k w s : sorted s -> forall n t, with_array k w (array_at k w s) s n t = s n t.
Proof.
  intros Hs n t. unfold with_array. case_decide as Hd; [|done]. destruct Hd as [-> ->]. unfold array_at.
  destruct (Hs (ZInt k) (SortArr w)) as [E _], (s _ _); try done. by injection E as ->.
Qed.

(** The assertion about the element at [i]. *)
Definition element_is (k w i : Z) (x : Zexpr) : Zexpr := z_app ZEq [z_app ZSelect [z_const (ZInt k) (SortArr w); z_app (ZBvVal i w) []]; x].
Lemma element_eval k w i x s c :
  0 <= i < 2 ^ w -> 0 <= w -> sorted s -> z_eval s x = VBv 8 c -> z_eval s (element_is k w i x) = VBool (array_at k w s i =? c).
Proof.
  intros Hi Hw Hs Ex. apply z_eval_app. cbn [fmap list_fmap]. rewrite Ex.
  erewrite (z_eval_app s ZSelect _ (VBv 8 (array_at k w s i))); [done|]. cbn [fmap list_fmap]. rewrite z_eval_const, eval_val, wrap_small by done.
  unfold array_at. destruct (Hs (ZInt k) (SortArr w)) as [E _], (s _ _); try done. injection E as ->. cbn. by rewrite Z.eqb_refl.
Qed.

(** [s] satisfies [xs] whatever the array has from [i] on. *)
Definition robust (k w i : Z) (s : Interp) (xs : list Zexpr) : Prop :=
  forall f, bytes_fun f -> (forall j, 0 <= j < i -> f j = array_at k w s j) -> sat (with_array k w f s) xs.
Lemma robust_sat k w i s xs : sorted s -> robust k w i s xs -> sat s xs.
Proof.
  intros Hs Hr. eapply Forall_impl; [apply (Hr (array_at k w s)); [by apply array_at_bytes|done]|].
  cbn. intros x <-. apply z_eval_names. intros n t _. by rewrite with_array_same.
Qed.
Lemma robust_avoid k w i s xs : sat s xs -> (forall x, x ∈ xs -> within (fun n => n <> ZInt k) x) -> robust k w i s xs.
Proof. unfold robust, sat. rewrite Forall_forall. intros Hx Hn f _ _. rewrite Forall_forall. intros x Hin. rewrite with_array_eval; auto. Qed.
Lemma robust_app k w i s xs ys : robust k w i s xs -> robust k w i s ys -> robust k w i s (xs ++ ys).
Proof. intros Hx Hy f Hb Hf. apply Forall_app. split; [by apply Hx|by apply Hy]. Qed.
(** New temporary constants do not matter. *)
Lemma robust_agree k w i a b s s' xs :
  agree a b s s' -> k < a -> (forall x n, x ∈ xs -> n ∈ z_names x -> below a n) -> robust k w i s xs -> robust k w i s' xs.
Proof.
  intros Ha Hk Hn Hr f Hb Hf. assert (array_at k w s = array_at k w s') as Ea.
  { unfold array_at. by rewrite (agree_below a b s s' (ZInt k) (SortArr w) Ha Hk). }
  rewrite <- Ea in Hf. specialize (Hr f Hb Hf). eapply (agree_sat a b); [|exact Hn|exact Hr].
  intros n t Hnt. unfold with_array. case_decide; [done|]. symmetry. apply (Ha n t Hnt).
Qed.
(** An element is stored at [i]. *)
Lemma robust_store k w i s xs x c :
  sorted s -> 0 <= i < 2 ^ w -> 0 <= w -> robust k w i s xs -> within (fun n => n <> ZInt k) x -> z_eval s x = VBv 8 c -> wrap 8 c = c ->
  let s' := with_array k w (fun j => if j =? i then c else array_at k w s j) s in
  sorted s' /\ robust k w (i + 1) s' (xs ++ [element_is k w i x]).
Proof.
  intros Hs Hi Hw Hr Hx Ex Hc s'. assert (sorted s') as Hs'.
  { apply with_array_sorted; [done|]. intros j. cbn. case_match; [done|]. by apply array_at_bytes. }
  assert (forall f, array_at k w (with_array k w f s) = f) as Eat.
  { intros f. unfold array_at, with_array. by rewrite decide_True. }
  split; [done|]. intros f Hb Hf. unfold s' in Hf. rewrite Eat in Hf.
  assert (forall xs, sat (with_array k w f s) xs -> sat (with_array k w f s') xs) as Hsame.
  { intros ys Hys. eapply Forall_impl; [exact Hys|]. cbn. intros y <-. apply z_eval_names. intros n t _. unfold s', with_array. by case_decide. }
  apply Hsame, Forall_app. split.
  - apply Hr; [done|]. intros j Hj. rewrite Hf by lia. by rewrite (proj2 (Z.eqb_neq j i)) by lia.
  - constructor; [|constructor]. rewrite (element_eval k w i x _ c); try done; [|by apply with_array_sorted|by rewrite with_array_eval].
    rewrite Eat, (Hf i) by lia. by rewrite !Z.eqb_refl.
Qed.

(** What the loop of [visitFixedArray] does from the element [i] on: the terms
    and names other than the new array [k] stay inside [Q]. *)
Record loop_result (Q : ZName -> Prop) (k w i : Z) (ops : list Operation) (st st' : ZState) : Prop := {
  lr_num : tmpConstNum st <= tmpConstNum st';
  lr_cache : z_cache st ⊆ z_cache st';
  lr_asserts : exists new, z_asserts st' = z_asserts st ++ new /\ forall x n, x ∈ new -> n ∈ z_names x -> Q n \/ n = ZInt k;
  lr_elements : forall j op, ops !! j = Some op -> exists x, (op, x) ∈ z_cache st' /\ element_is k w (i + Z.of_nat j) x ∈ z_asserts st';
  lr_ext : forall s, sorted s -> robust k w i s (z_asserts st) ->
    exists s', sorted s' /\ agree k (tmpConstNum st') s s' /\ sat s' (z_asserts st')
}.

Lemma element_names k w i x n : n ∈ z_names (element_is k w i x) -> n = ZInt k \/ n ∈ z_names x.
Proof.
  intros (y & Hy & Hn)%z_names_app. apply elem_of_cons in Hy as [->|Hy]; [|apply list_elem_of_singleton in Hy as ->; by right].
  apply z_names_app in Hn as (y & Hy & Hn). apply elem_of_cons in Hy as [->|Hy].
  - rewrite z_names_const in Hn. left. set_solver.
  - apply list_elem_of_singleton in Hy as ->. apply z_names_app in Hn as (? & ? & _). set_solver.
Qed.
Lemma zinv_assert Q st x :
  zinv Q st -> (forall n, n ∈ z_names x -> below (tmpConstNum st) n) ->
  zinv Q (mkZState (const_map st) (z_asserts st ++ [x]) (z_cache st) (tmpConstNum st)).
Proof.
  intros [] Hx. split; try done; cbn.
  - intros op y [? ?]%zi_cache0. split; [by apply conv_mono|done].
  - intros y n [Hy| ->%list_elem_of_singleton]%elem_of_app; eauto.
Qed.

Lemma elements_ok Q k w ops ks :
  (forall n, Q n -> n <> ZInt k) -> 0 <= w ->
  Forall (fun op => op_type op = ity 8) ops ->
  Forall2 (fun op k => 0 <= k /\ visit_spec Q op k (z_visit op)) ops ks ->
  forall i st, zinv Q st -> k < tmpConstNum st -> 0 <= i -> i + Z.of_nat (length ops) <= 2 ^ w ->
    tmpConstNum st + foldr Z.add 0 ks <= tmpConstMax ->
    exists st', fixed_array (z_const (ZInt k) (SortArr w)) w i (z_visit <$> ops) st = (Ok tt, st') /\ zinv Q st' /\
      loop_result Q k w i ops st st' /\ tmpConstNum st' <= tmpConstNum st + foldr Z.add 0 ks.
Proof.
  intros HQ Hw Ht. induction 1 as [|op kk ops ks [Hk Hv] Hrest IH]; intros i st Hi Hlt Hi0 Hlen Hr; cbn [foldr length] in *.
  - exists st. split_and!; try done; [|lia]. split; [lia|done|exists []; rewrite app_nil_r; set_solver|done|].
    intros s Hs Hro. exists s. split_and!; try done. by eapply robust_sat.
  - assert (0 <= foldr Z.add 0 ks) as Hks by (clear -Hrest; induction Hrest as [|? ? ? ? [? _]]; cbn; lia).
    apply Forall_cons in Ht as [Top Ht]. destruct (Hv st Hi ltac:(lia)) as (x & st1 & E1 & Hi1 & Hs1 & Hc1 & Hk1).
    destruct (zi_cache _ _ Hi1 _ _ Hc1) as [[Sx _] Nx]. rewrite Top in Sx.
    set (st2 := mkZState (const_map st1) (z_asserts st1 ++ [element_is k w i x]) (z_cache st1) (tmpConstNum st1)).
    destruct Hs1 as [N1 C1 (new1 & A1 & Q1) X1].
    assert (zinv Q st2) as Hi2.
    { apply zinv_assert; [done|]. intros n [->|Hn]%element_names; [cbn; lia|by apply Nx]. }
    destruct (IH Ht (i + 1) st2 Hi2 ltac:(cbn; lia) ltac:(lia) ltac:(lia) ltac:(cbn; lia)) as (st3 & E3 & Hi3 & [N3 C3 (new3 & A3 & Q3) L3 X3] & Hk3).
    cbn [st2 tmpConstNum z_cache z_asserts] in *. exists st3. split_and!; try done; [|split|lia]; [|lia|set_solver|..].
    + cbn [fmap list_fmap fixed_array]. rewrite (bind_eq _ _ _ _ _ E1). exact E3.
    + exists (new1 ++ [element_is k w i x] ++ new3). rewrite A3, A1. split; [by rewrite !app_assoc|].
      intros y n. rewrite !elem_of_app, list_elem_of_singleton. intros [Hy|[->|Hy]] Hn; [left; by eapply Q1| |by eapply Q3].
      apply element_names in Hn as [->|Hn]; [by right|]. left. by apply Nx.
    + intros [|j] op'; cbn [lookup list_lookup].
      * intros [= <-]. exists x. split; [set_solver|]. rewrite A3, Z.add_0_r. set_solver.
      * intros (y & Hy & Ey)%L3. exists y. split; [done|]. by replace (i + Z.of_nat (S j)) with (i + 1 + Z.of_nat j) by lia.
    + intros s Hs Hro. destruct (X1 s Hs (robust_sat _ _ _ _ _ Hs Hro)) as (s1 & Hs1 & Ha1 & Hx1).
      assert (robust k w i s1 (z_asserts st1)) as Hro1.
      { rewrite A1 in Hx1 |- *. apply Forall_app in Hx1 as [_ Hx1]. apply robust_app.
        - eapply robust_agree; [exact Ha1|done|apply (zi_asserts _ _ Hi)|done].
        - apply robust_avoid; [done|]. intros y Hy n Hn. by eapply HQ, Q1. }
      destruct (eval_index s1 x 8 Hs1 Sx ltac:(done)) as (c & Ec & Rc).
      edestruct (robust_store k w i s1 (z_asserts st1) x c Hs1) as [Hs2 Hro2]; [lia|done|exact Hro1|intros n Hn; apply HQ, Nx, Hn|done|by apply wrap_small|].
      destruct (X3 _ Hs2 Hro2) as (s' & Hs' & Ha' & Hx'). exists s'. split_and!; try done.
      intros n t Hn. rewrite (agree_wider (tmpConstNum st) (tmpConstNum st1) k (tmpConstNum st3) _ _ ltac:(lia) ltac:(lia) Ha1 n t Hn).
      rewrite <- (Ha' n t Hn). eapply (agree_wider _ _ k (tmpConstNum st3)); [..|apply with_array_agree|done]; lia.
Qed.

Definition visits_all (ops : list Operation) (ks : list Z) : Prop :=
  Forall2 (fun op k => 0 <= k /\ forall Q, visit_spec Q op k (z_visit op)) ops ks.
Lemma visits_for Q ops ks : visits_all ops ks -> Forall2 (fun op k => 0 <= k /\ visit_spec Q op k (z_visit op)) ops ks.
Proof. intros Hv. eapply Forall2_impl; [exact Hv|]. cbn. intros op k [? ?]. auto. Qed.

(** The elements determine the array. *)
Lemma fixed_array_conv d l k w st :
  od_opcode d = OpFixedArray -> od_type d = aty w -> 0 <= w -> Z.of_nat (length l) <= 2 ^ w ->
  Forall (fun op => op_type op = ity 8) l -> Forall wf l ->
  (forall j op, l !! j = Some op -> exists x, conv (z_asserts st) op x /\ element_is k w (Z.of_nat j) x ∈ z_asserts st) ->
  conv (z_asserts st) (mkOp d l) (z_const (ZInt k) (SortArr w)).
Proof.
  intros Ho Td Hw Hlen Ht Wl Hel. split.
  - unfold op_type. cbn [op_data]. rewrite Td. erewrite sort_from; [apply sort_arr|]. intros s Hs. rewrite z_eval_const. apply Hs.
  - intros s e Hs He Hsat v. cbn [denote]. unfold denote_node. rewrite Ho, Td. intros [= <-]. rewrite z_eval_const.
    assert (s (ZInt k) (SortArr w) = VArr w (array_at k w s)) as ->.
    { unfold array_at. destruct (Hs (ZInt k) (SortArr w)) as [E _], (s _ _); try done. by injection E as ->. }
    split; [done|]. intros i b _. rewrite !list_lookup_fmap. destruct (l !! i) as [op|] eqn:El; [|done]. cbn. intros [= Eb].
    destruct (Hel i op El) as (x & [Sx Vx] & Hin). pose proof (lookup_lt_Some _ _ _ El).
    rewrite Forall_forall in Ht. rewrite (Ht op (list_elem_of_lookup_2 _ _ _ El)) in Sx.
    destruct (eval_index s x 8 Hs Sx ltac:(done)) as (c & Ec & _). unfold sat in Hsat. rewrite Forall_forall in Hsat.
    pose proof (Hsat _ Hin) as E. rewrite (element_eval k w _ x s c) in E by (try done; lia). injection E as E%Z.eqb_eq.
    destruct (denote e op) as [[b'| |]|] eqn:Ed; try done. injection Eb as ->.
    assert (vrep s e op x) as Hv. { apply Vx; try done. unfold sat. by rewrite Forall_forall. }
    specialize (Hv _ Ed). rewrite Ec in Hv. destruct Hv as [_ ->]. done.
Qed.

Lemma fixed_array_ok Q d l ks :
  od_opcode d = OpFixedArray -> node_ok d l -> Forall wf l -> convertible_node G d l = true -> visits_all l ks ->
  node_spec Q (mkOp d l) (1 + foldr Z.add 0 ks) (visit_node d l (z_visit <$> l)).
Proof.
  intros Ho Hn Wl Hc Hv st Hi Hr. unfold node_ok in Hn. unfold convertible_node in Hc. rewrite Ho in Hn, Hc.
  destruct Hn as (w & [Hw _] & Td & Ht & _). rewrite Td in Hc. cbn in Hc. apply Z.leb_le in Hc.
  assert (0 <= foldr Z.add 0 ks) as Hks by (clear -Hv; induction Hv as [|? ? ? ? [? _]]; cbn; lia).
  set (k := tmpConstNum st). set (Q' := fun n => Q n /\ n <> ZInt k).
  set (st1 := mkZState (const_map st) (z_asserts st) (z_cache st) (k + 1)).
  assert (zinv Q' st1) as Hi1.
  { pose proof (zi_num _ _ Hi) as Hk. destruct Hi. split; cbn; try done; [lia|..].
    - intros n Hb. split; [by apply zi_small0|]. intros ->. cbn in Hb. unfold k in Hb. lia.
    - intros j Hj. split; [apply zi_fresh0; unfold k in Hj; lia|]. intros [= ->]. lia.
    - intros op x [? Hx]%zi_cache0. split; [done|]. intros n [Hb HQ]%Hx. split; [eapply below_mono; [|exact Hb]; unfold k; lia|].
      split; [done|]. intros ->. cbn in Hb. unfold k in Hb. lia.
    - intros x n Hx Hnx. eapply below_mono; [|by eapply zi_asserts0]. unfold k. lia. }
  destruct (elements_ok Q' k w l ks ltac:(by intros n [_ ?]) ltac:(lia) Ht (visits_for Q' l ks Hv) 0 st1 Hi1)
    as (st2 & E2 & Hi2 & [N2 C2 (new & A2 & Q2) L2 X2] & Hk2); cbn [st1 tmpConstNum z_asserts z_cache] in *; try lia.
  assert (Q (ZInt k)) as HQk by (apply (zi_fresh _ _ Hi); unfold k; lia).
  exists (z_const (ZInt k) (SortArr w)), st2. split_and!.
  - unfold visit_node. rewrite Ho, Td. unfold mbind at 1, M_bind at 1, lift. rewrite bitwidth_aty.
    unfold mbind at 1, M_bind at 1, next_const. rewrite (proj2 (Z.eqb_neq (tmpConstNum st) tmpConstMax)) by lia.
    fold k st1. by rewrite (bind_eq _ _ _ _ _ E2).
  - destruct Hi2. split; try done; [by apply (zi_small _ _ Hi)|intros j Hj; apply (zi_fresh _ _ Hi); unfold k in *; lia|].
    intros op x [? Hx]%zi_cache0. split; [done|]. intros n Hnx. by destruct (Hx n Hnx) as [? [? _]].
  - split; [unfold k in *; lia|done|exists new; split; [done|]; intros x n Hx Hnx; by destruct (Q2 x n Hx Hnx) as [[? _]| ->]|].
    intros s Hs Hsat. apply X2; [done|]. apply robust_avoid; [done|]. intros x Hx n Hnx ->.
    pose proof (zi_asserts _ _ Hi _ _ Hx Hnx) as Hb. cbn in Hb. unfold k in Hb. lia.
  - apply (fixed_array_conv d l k w); try done; [lia|]. intros j op (x & Hx & Ex)%L2. exists x. split; [|done].
    by apply (zi_cache _ _ Hi2).
  - intros n. rewrite z_names_const, list_elem_of_singleton. intros ->. split; [cbn; lia|done].
  - unfold k in *. lia.
Qed.

(** ** The visit *)

(** The temporary constants a visit can need. *)
Fixpoint arrays (op : Operation) : Z :=
  let 'mkOp d l := op in (if decide (od_opcode d = OpFixedArray) then 1 else 0) + foldr Z.add 0 (arrays <$> l).
Lemma sum_nonneg ks : Forall (fun k => 0 <= k) ks -> 0 <= foldr Z.add 0 ks.
Proof. induction 1; cbn; lia. Qed.
Lemma arrays_nonneg op : 0 <= arrays op.
Proof.
  induction op as [d l IH] using operation_ind'. cbn [arrays].
  assert (0 <= foldr Z.add 0 (arrays <$> l)) by (by apply sum_nonneg, Forall_fmap).
  case_decide; lia.
Qed.
Lemma visited_fmap {A B} (f : A -> B) o (l : list A) : visited_operands o (f <$> l) = f <$> visited_operands o l.
Proof. by destruct o, l as [|? [|? [|]]]. Qed.
Lemma visited_sum o l : foldr Z.add 0 (arrays <$> visited_operands o l) <= foldr Z.add 0 (arrays <$> l).
Proof.
  destruct o; cbn; try done. destruct l as [|n [|b [|]]]; try done. cbn. pose proof (arrays_nonneg n). lia.
Qed.
Lemma visited_sub o (l : list Operation) : visited_operands o l ⊆ l.
Proof. destruct o; cbn; try done. destruct l as [|n [|b [|]]]; set_solver. Qed.

Lemma build_node_spec Q d l ks :
  Forall wf l -> node_ok d l -> convertible_node G d l = true -> buildable (od_opcode d) = true ->
  visits_all (visited_operands (od_opcode d) l) ks ->
  node_spec Q (mkOp d l) (foldr Z.add 0 ks) (visit_node d l (z_visit <$> l)).
Proof.
  intros Wl Hn Hc Hb Hv st Hi Hr.
  destruct (map_ok Q _ ks (visits_for Q _ _ Hv) st Hi Hr) as (xs & st' & Em & Hi' & Hs & Hxs & Hk).
  destruct (node_built G d l xs) as (x & Ex & Sx & Vx); try done.
  { eapply Forall2_impl; [exact Hxs|]. cbn. intros op x Hin. by destruct (zi_cache _ _ Hi' _ _ Hin) as [[? _] _]. }
  exists x, st'. split_and!; try done.
  - unfold visit_node. destruct (od_opcode d); try done; rewrite visited_fmap, (bind_eq _ _ _ _ _ Em); by apply lift_run.
  - split; [done|]. intros s e Hso He Hsat. apply Vx; [done|]. eapply Forall2_impl; [exact Hxs|]. cbn. intros op y Hin.
    destruct (zi_cache _ _ Hi' _ _ Hin) as [[_ ?] _]. auto.
  - apply (build_names (fun n => below (tmpConstNum st') n /\ Q n) d l xs x Ex). rewrite Forall_forall. intros y Hy.
    apply list_elem_of_lookup in Hy as [i Hy]. destruct (Forall2_lookup_r _ _ _ _ _ Hxs Hy) as (op & _ & Hin). by apply (zi_cache _ _ Hi' op y).
Qed.

Lemma node_spec_more Q op k k' m : k <= k' -> node_spec Q op k m -> node_spec Q op k' m.
Proof.
  intros Hk Hm st Hi Hr. destruct (Hm st Hi ltac:(lia)) as (x & st' & ? & ? & ? & ? & ? & ?).
  exists x, st'. split_and!; try done. lia.
Qed.

Lemma convertible_visited d l op :
  convertible G (mkOp d l) = true -> od_opcode d <> OpConstantArray -> op ∈ visited_operands (od_opcode d) l -> convertible G op = true.
Proof.
  cbn [convertible]. intros [_ Hc]%andb_true_iff Ho Hin.
  assert (forallb (convertible G) l = true -> op ∈ l -> convertible G op = true) as Hall.
  { rewrite forallb_forall. intros Hf Hl. by apply Hf, list_elem_of_In. }
  destruct (od_opcode d); try done; auto. destruct l as [|n [|b [|]]]; auto. cbn in Hin. set_solver.
Qed.

Lemma visit_ok Q op : wf op -> convertible G op = true -> visit_spec Q op (arrays op) (z_visit op).
Proof.
  revert Q. induction op as [d l IH] using operation_ind'. intros Q Hwf Hc. inversion Hwf as [? ? Wl Hn]; subst.
  pose proof (arrays_nonneg (mkOp d l)) as Ha. cbn [z_visit]. apply memoized_ok; [done|].
  assert (convertible_node G d l = true) as Hcn by (cbn [convertible] in Hc; by apply andb_true_iff in Hc as [? _]).
  assert (od_opcode d <> OpConstantArray -> visits_all (visited_operands (od_opcode d) l) (arrays <$> visited_operands (od_opcode d) l)) as Hv.
  { intros Ho. apply Forall2_fmap_r, Forall_Forall2_diag, Forall_forall. intros op Hop. cbn. split; [apply arrays_nonneg|].
    rewrite Forall_forall in IH, Wl. pose proof (visited_sub _ _ _ Hop). intros Q'. apply IH; auto. by eapply convertible_visited. }
  destruct (buildable (od_opcode d)) eqn:Hb.
  - eapply node_spec_more; [|apply build_node_spec; try done; by apply Hv; intros E; rewrite E in Hb].
    cbn [arrays]. pose proof (visited_sum (od_opcode d) l). case_decide; lia.
  - destruct (decide (od_opcode d = OpFixedArray)) as [Ho|Ho].
    + cbn [arrays]. rewrite decide_True by done. rewrite Ho in Hv. apply fixed_array_ok; try done. by apply Hv.
    + unfold convertible_node in Hcn. unfold visit_node. eapply (node_spec_more Q _ 0); [done|].
      assert (symbol_ok G d = true /\ match od_opcode d with OpConstantArray => good_arr (od_type d) | _ => good_int (od_type d) end = true) as [Hs Hg]
        by (destruct (od_opcode d); try done; apply andb_true_iff in Hcn as [? ?]; auto).
      unfold symbol_ok in Hs. destruct (od_payload d) as [|y| | | |] eqn:Hp; try done. apply andb_true_iff in Hs as [Hy Ht%bool_decide_eq_true].
      destruct (od_opcode d) eqn:E; try done; apply constant_ok; rewrite ?E, <- ?Ht; try done.
Qed.
End visits.
