(* ===== verification/Z3Solver.v ===== *)
(** The Z3 backend (src/Solver/Z3Solver.cpp, Z3Solver.h): queries, answers and
    models.

    [Z3Check] is what is used of Z3's solver and of its numerals: the answer
    for a list of assertions, with a model, and the parts of a floating-point
    numeral.  A model is an interpretation, and [model.eval] with completion is
    [z_eval].  The theorems say that an answer of [Z3_resolve] is right for the
    path condition it was asked about, in the sense of Semantics.v, and that
    its model is one. *)
From S2P Require Import Prelude LLVM IRType Value Opcode Operation Matching Create Semantics.
From S2P Require Import Simplifier SimplifierInt SimplifierSound ModelEval SparseVector Assertions Slicer Solvers.
From S2P Require Import Effects Z3Convert Z3Sound Z3Visit.
Open Scope Z_scope.

Inductive ZAnswer : Type := ZSat (model : Interp) | ZUnsat | ZUnknown.
Class Z3Check `{Z3Laws} := {
  z_check : list Zexpr -> ZAnswer;
  z_check_sat : forall xs s, z_check xs = ZSat s -> sorted s /\ Forall (fun x => z_eval s x = VBool true) xs;
  z_check_unsat : forall xs s, z_check xs = ZUnsat -> sorted s -> ~ Forall (fun x => z_eval s x = VBool true) xs;
  (** The significand without its hidden bit, the biased exponent. *)
  fpa_is_nan : ZVal -> bool;
  fpa_is_inf : ZVal -> bool;
  fpa_significand_uint64 : ZVal -> option Z;
  fpa_significand_string : ZVal -> Z;
  fpa_exponent_int64 : ZVal -> option Z;
  fpa_sign : ZVal -> option bool
}.

Section z3solver.
Context `{PtrEq} `{MathExtrasAPI} `{Config} `{Z3Check}.

(** ** Numerals *)

(** A numeral that does not fit in 64 bits is read as a decimal string. *)
Definition z3_to_apint (v : ZVal) : result APInt :=
  match v with VBv w x => Ok (APInt_of w (if x <? 2 ^ 64 then wrap 64 x else x)) | _ => Err AssertFailed end.
Definition z3_to_apfloat (v : ZVal) : result APFloat :=
  match v with
  | VFp ebits sbits _ =>
      let mantissa :=
        if fpa_is_nan v then APInt_of sbits (-1)
        else match fpa_significand_uint64 v with
             | Some s => APInt_of sbits s | None => APInt_of sbits (fpa_significand_string v) end in
      let mantissa := ap_trunc mantissa (getBitWidth mantissa - 1) in
      exponent ←
        (if fpa_is_nan v then Ok (APInt_of ebits (-1))
         else if fpa_is_inf v then Ok (APInt_of ebits (-1))
         else match fpa_exponent_int64 v with Some e => Ok (APInt_of ebits e) | None => Err Unimplemented end);
      sign ← (if fpa_is_nan v then Ok false else of_option Aborted (fpa_sign v));
      let total := ap_or (ap_zext mantissa (ebits + sbits))
                         (ap_shl (ap_zext exponent (ebits + sbits)) (APInt_of (ebits + sbits) (sbits - 1))) in
      let total := if sign : bool then ap_or total (APInt_of (ebits + sbits) (2 ^ (ebits + sbits - 1))) else total in
      t ← float_ty ebits sbits; r ← bitcast (VInt total) t; v_apfloat r
  | _ => Err AssertFailed
  end.

(** ** Models *)
Definition numeral_byte (v : ZVal) : result Z := match v with VBv _ x => Ok (wrap 8 x) | _ => Err Thrown end.
Definition z3_lookup (s : Interp) (constants : list (ZName * Zexpr)) (symbol : Symbol) (size : option Z) : result Value :=
  match find_const (op_name symbol) constants with
  | None => Ok VEmpty
  | Some x =>
      match z_sort x with
      | SortBv _ => a ← z3_to_apint (z_eval s x); Ok (VInt a)
      | SortFp _ _ => f ← z3_to_apfloat (z_eval s x); Ok (VFloat f)
      | SortArr w =>
          n ← of_option AssertFailed size;
          data ← mapM (fun i => numeral_byte (z_eval s (z_app ZSelect [x; z_app (ZBvVal i w) []]))) (seqZ 0 n);
          t ← int_ty w; Value_of_array data t
      | SortBool => Err Aborted
      end
  end.
(** The model object.  A size is a [size_t]; a lookup that does not return has
    no value. *)
Definition Z3Model (s : Interp) (constants : list (ZName * Zexpr)) : Model :=
  mkModel (fun symbol size =>
    if match size with Some n => (0 <=? n) && (n <=? SIZE_MAX) | None => true end
    then match z3_lookup s constants symbol size with Ok v => v | Err _ => VEmpty end else VEmpty).

(** ** The solver *)
Definition z3_assert (a : Operation) : M ZState unit := x ← z_visit a; z_add (normalize_to_bool x).
Definition z3_assert_all (l : list Operation) (extra : Operation) : M ZState unit :=
  _ ← iter_m z3_assert l; if is_constant_value extra true then mret tt else z3_assert extra.
Definition Z3_resolve (l : AssertionList) (extra : Operation) : result (SolverResult * AssertionList) :=
  if is_constant_value extra false then r ← SolverResult_ctor UNSAT None; Ok (r, l)
  else if existsb (fun a => is_constant_value a false) (all_assertions l) then r ← SolverResult_ctor UNSAT None; Ok (r, l)
  else
    let '(res, st) := z3_assert_all (all_assertions l) extra ZState_ctor in
    _ ← res;
    r ← (match z_check (z_asserts st) with
         | ZSat s => SolverResult_ctor SAT (Some (Z3Model s (const_map st)))
         | ZUnsat => SolverResult_ctor UNSAT None
         | ZUnknown => SolverResult_ctor Unknown None
         end);
    Ok (r, l).
Definition Z3_check (l : AssertionList) (extra : Operation) : result (SolverResult * AssertionList) :=
  us ← unproven l;
  if bool_decide (us = []) && is_constant_value extra true then r ← SolverResult_ctor SAT None; Ok (r, l)
  else if is_constant_value extra false then r ← SolverResult_ctor UNSAT None; Ok (r, l)
  else
    let mark := checkpoint l in
    l ← al_insert l extra; us ← unproven l;
    if bool_decide (us = []) then r ← SolverResult_ctor SAT None; l ← restore l mark; Ok (r, l)
    else
      t ← Assertion_default; '(r, l) ← Z3_resolve l t; r ← SolverResult_ctor (kind_ r) None;
      l ← restore l mark; Ok (r, l).
Definition Z3Solver : Solver := mkSolver Z3_check Z3_resolve.
(** [evaluate], for tests. *)
Definition z3_evaluate (expr : Operation) : M ZState Zexpr := x ← z_visit expr; mret (normalize_to_bool x).

(** ** The assertions that are added *)
Context (G : Symbol -> Ty).
Definition any_name (n : ZName) : Prop := True.

(** The assertions of the solver say what [done] says. *)
Record tracks (done : list Operation) (st : ZState) : Prop := {
  tr_inv : zinv G any_name st;
  tr_sound : forall s e, sorted s -> sees s e -> sat s (z_asserts st) -> Forall (fun a => Defined e a -> Holds e a) done;
  tr_complete : forall s e, sorted s -> sees s e -> Forall (Holds e) done -> exists s', sorted s' /\ sees s' e /\ sat s' (z_asserts st)
}.

Lemma tracks_start : tracks [] ZState_ctor.
Proof.
  split; [split; cbn; try done; set_solver|done|]. intros s e Hs He _. exists s. split_and!; try done. constructor.
Qed.

(** A boolean holds where its term is true. *)
Lemma bool_term s e a x :
  sorted s -> boolean a -> sort_for (op_type a) (z_sort x) -> vrep s e a x -> Defined e a ->
  z_eval s (normalize_to_bool x) = VBool true <-> Holds e a.
Proof.
  intros Hs [Wa Ta] Sx Hv Hd. rewrite Ta in Sx. destruct (normalize_bool_ok s x Hs Sx) as (b & -> & Hb).
  unfold Defined in Hd. unfold Holds. destruct (denote e a) as [v|] eqn:Ea; [|done].
  destruct (bool_value e a v Wa Ta Ea) as (c & ->). specialize (Hb _ (Hv _ Ea)).
  assert (Z.b2z c = Z.b2z b) as E%Z.b2z_inj.
  { apply (f_equal getZExtValue) in Hb. by rewrite !APInt_of_value, !b2z_wrap in Hb by lia. }
  subst c. split; [by intros [= ->]|]. intros [= E']. f_equal. apply (f_equal getZExtValue) in E'.
  rewrite !APInt_of_value, !b2z_wrap in E' by lia. by apply Z.b2z_inj.
Qed.

Lemma z3_assert_ok done st a :
  tracks done st -> boolean a -> convertible G a = true -> tmpConstNum st + arrays a <= tmpConstMax ->
  exists st', z3_assert a st = (Ok tt, st') /\ tracks (done ++ [a]) st' /\ tmpConstNum st' <= tmpConstNum st + arrays a.
Proof.
  intros [Hi Hso Hco] Ha Hc Hr. destruct (visit_ok G any_name a (proj1 Ha) Hc st Hi Hr) as (x & st1 & E1 & Hi1 & Hs1 & Hin & Hk).
  destruct (zi_cache _ _ _ Hi1 _ _ Hin) as [[Sx Vx] Nx].
  exists (mkZState (const_map st1) (z_asserts st1 ++ [normalize_to_bool x]) (z_cache st1) (tmpConstNum st1)).
  split; [unfold z3_assert; by rewrite (bind_eq _ _ _ _ _ E1)|]. split; [|done]. split; cbn [z_asserts].
  - apply zinv_assert; [done|]. apply within_bool. intros n Hn. by apply Nx.
  - intros s e Hs He [Hx1 Hx]%Forall_app. rewrite Forall_singleton in Hx. apply Forall_app. split.
    + apply (Hso s e Hs He). destruct Hs1 as [_ _ (new & A & _) _]. rewrite A in Hx1. by apply Forall_app in Hx1 as [? _].
    + apply Forall_singleton. intros Hd. by apply (bool_term s e a x Hs Ha Sx (Vx s e Hs He Hx1) Hd).
  - intros s e Hs He [Hdone Hh]%Forall_app. rewrite Forall_singleton in Hh. destruct (Hco s e Hs He Hdone) as (s1 & Hss1 & He1 & Hx1).
    destruct (zs_ext _ _ _ Hs1 s1 Hss1 Hx1) as (s2 & Hss2 & Hag & Hx2). exists s2.
    assert (sees s2 e) as He2 by (eapply agree_sees; [apply (zi_num _ _ _ Hi)|done|done]). split_and!; try done.
    apply Forall_app. split; [done|]. apply Forall_singleton.
    apply (bool_term s2 e a x Hss2 Ha Sx (Vx s2 e Hss2 He2 Hx2)); [|done]. unfold Defined. by rewrite Hh.
Qed.

Lemma z3_iter_ok l : forall done st,
  tracks done st -> Forall boolean l -> Forall (fun a => convertible G a = true) l ->
  tmpConstNum st + foldr Z.add 0 (arrays <$> l) <= tmpConstMax ->
  exists st', iter_m z3_assert l st = (Ok tt, st') /\ tracks (done ++ l) st' /\
    tmpConstNum st' <= tmpConstNum st + foldr Z.add 0 (arrays <$> l).
Proof.
  induction l as [|a l IHl]; intros done st Ht Hb Hc Hr; cbn [fmap list_fmap foldr] in *.
  - exists st. rewrite app_nil_r. split_and!; try done. lia.
  - apply Forall_cons in Hb as [Ha Hb], Hc as [Ca Hc].
    assert (0 <= foldr Z.add 0 (arrays <$> l)) by (apply sum_nonneg, Forall_fmap, Forall_true; apply arrays_nonneg).
    destruct (z3_assert_ok done st a Ht Ha Ca ltac:(lia)) as (st1 & E1 & Ht1 & Hk1).
    destruct (IHl _ st1 Ht1 Hb Hc ltac:(lia)) as (st2 & E2 & Ht2 & Hk2). rewrite <- app_assoc in Ht2.
    exists st2. split_and!; [|done|lia]. cbn [iter_m]. by rewrite (bind_eq _ _ _ _ _ E1).
Qed.

(** ** Models as environments *)
Definition model_env (s : Interp) : Env :=
  let int_of y := match s (op_name y) (SortBv (desc_ (G y))) with VBv w x => DInt (APInt_of w x) | _ => DArr [] 0 end in
  {| env_symbol y := if good_int (G y) then int_of y else DArr [] 0;
     env_array y n :=
       if good_int (G y) then int_of y
       else if good_arr (G y) then
         match s (op_name y) (SortArr (desc_ (G y))) with
         | VArr w f => DArr ((fun c => Some (APInt_of 8 c)) <$> ((fun i => f (wrap w i)) <$> seqZ 0 n)) w
         | _ => DArr [] 0
         end
       else DArr [] 0;
     env_node _ := None |}.

Lemma interp_bv s n w : sorted s -> exists v, s n (SortBv w) = VBv w v /\ wrap w v = v.
Proof. intros Hs. destruct (Hs n (SortBv w)) as [E R]. destruct (s n _); try done. injection E as ->. by eexists. Qed.
Lemma interp_arr s n w : sorted s -> exists f, s n (SortArr w) = VArr w f /\ forall i, wrap 8 (f i) = f i.
Proof. intros Hs. destruct (Hs n (SortArr w)) as [E R]. destruct (s n _); try done. injection E as ->. by eexists. Qed.

Lemma rep_empty (s : Interp) n w v : sorted s -> typed (aty w) (DArr [] 0) = Some v -> rep (s n (SortArr w)) v.
Proof.
  intros Hs [-> Ht]%typed_Some. injection Ht as <-. destruct (interp_arr s n 0 Hs) as (f & -> & _). by split.
Qed.
Lemma model_env_sees s : sorted s -> sees s (model_env s).
Proof.
  intros Hs y _. cbn [model_env env_symbol env_array].
  destruct (good_int (G y)) eqn:Hg; [|destruct (good_arr (G y)) eqn:Ha]; split.
  - intros w v. apply good_int_inv in Hg as [_ [Hw _]]. destruct (interp_bv s (op_name y) (desc_ (G y)) Hs) as (x & Ex & Rx). rewrite Ex.
    intros [-> Ht]%typed_Some. apply den_ty_int in Ht as [_ [= ->]]. rewrite APInt_of_width, Ex by lia. apply rep_bv; [lia|done].
  - intros w n v. destruct (interp_bv s (op_name y) (desc_ (G y)) Hs) as (x & Ex & Rx). rewrite Ex. by intros [_ [_ [=]]%den_ty_int]%typed_Some.
  - intros w v. by intros [_ [=]]%typed_Some.
  - destruct (interp_arr s (op_name y) (desc_ (G y)) Hs) as (f & Ef & Rf). intros w n v. rewrite Ef. intros [-> Ht]%typed_Some.
    apply good_arr_inv in Ha as [_ Hw]. rewrite den_ty_arr in Ht; [|done|by apply forallb_forall; intros b Hb%list_elem_of_In; apply list_elem_of_fmap in Hb as (c & -> & _); cbn; rewrite APInt_of_width].
    injection Ht as <-. rewrite Ef. split; [done|]. intros i b Hi.
    rewrite !list_lookup_fmap. destruct (seqZ 0 n !! i) as [j|] eqn:Ej; [|done]. apply lookup_seqZ in Ej as [-> _].
    cbn. intros [= <-]. rewrite APInt_of_value, Rf by lia. by rewrite wrap_small by lia.
  - intros w v. by intros [_ [=]]%typed_Some.
  - intros w n v. by apply rep_empty.
Qed.

(** An environment in which the arrays of a symbol, whatever their length, are
    parts of one array, is seen by an interpretation. *)
Definition backed (e : Env) (f : Symbol -> Z -> Z -> Z) : Prop :=
  forall y w n bs i b, env_array e y n = DArr bs w -> bs !! i = Some (Some b) -> f y w (Z.of_nat i) = getZExtValue b.
Definition symbol_of (n : ZName) : Symbol := match n with ZStr s => Named s | ZInt k => Numbered k end.
Definition env_interp (e : Env) (f : Symbol -> Z -> Z -> Z) : Interp := fun n t =>
  match t with
  | SortBv w => match env_symbol e (symbol_of n) with DInt a => VBv w (wrap w (getZExtValue a)) | _ => VBv w 0 end
  | SortArr w => VArr w (fun i => wrap 8 (f (symbol_of n) w i))
  | t => zero_val t
  end.
Lemma env_is_seen e f : backed e f -> sorted (env_interp e f) /\ sees (env_interp e f) e.
Proof.
  intros Hb. split.
  - intros n t. destruct t; cbn; try done; [destruct (env_symbol e (symbol_of n)); split; try done; cbn; apply Zmod_mod || apply wrap_0|].
    split; [done|]. intros i. apply Zmod_mod.
  - intros y _. assert (symbol_of (op_name y) = y) as Ey by (by destruct y). unfold env_interp. rewrite Ey. split.
    + intros w v [-> Ht]%typed_Some. apply den_int_inv in Ht as (a & -> & <-). by rewrite wrap_value.
    + intros w n v [-> Ht]%typed_Some. apply den_arr_inv in Ht as (bs & Ebs & Hbs). rewrite Ebs. split; [done|]. intros i b _ Hi.
      rewrite (Hb y w n bs i b Ebs Hi), <- (byte_ok_lookup bs i b Hbs Hi). apply wrap_value.
Qed.

Lemma mapM_Ok {A B} (f : A -> result B) (g : A -> B) l : (forall a, f a = Ok (g a)) -> mapM f l = Ok (g <$> l).
Proof. intros Hf. induction l as [|a l IHl]; [done|]. cbn. by rewrite Hf, ok_bind, IHl. Qed.

(** What the model says of a symbol it has. *)
Lemma lookup_value s st y size :
  sorted s -> zinv G any_name st ->
  z3_lookup s (const_map st) y size = Ok VEmpty \/
  (good_int (G y) = true /\ exists w x, w = desc_ (G y) /\ s (op_name y) (SortBv w) = VBv w x /\ z3_lookup s (const_map st) y size = Ok (VInt (APInt_of w x))) \/
  (good_arr (G y) = true /\ exists w f, w = desc_ (G y) /\ s (op_name y) (SortArr w) = VArr w f /\ (forall i, wrap 8 (f i) = f i) /\
    z3_lookup s (const_map st) y size =
      match size with Some n => Ok (VArray ((fun i => f (wrap w i)) <$> seqZ 0 n) w) | None => Err AssertFailed end).
Proof.
  intros Hs Hi. unfold z3_lookup, find_const. destruct (hd_error (filter _ (const_map st))) as [[n x]|] eqn:Eh; [right|by left].
  apply hd_filter in Eh as [Hnm Hin]. cbn in Hnm. subst n. cbn [fmap option_fmap option_map snd].
  destruct (zi_const _ _ _ Hi _ _ Hin) as (y' & srt & Ey & _ & Hg & Es & ->). apply op_name_inj in Ey as <-.
  assert (z_sort (z_const (op_name y) srt) = srt) as -> by (apply sort_from; intros s' Hs'; rewrite z_eval_const; apply Hs').
  rewrite z_eval_const. destruct Hg as [Hg|Hg]; [left|right]; (split; [done|]).
  - apply good_int_inv in Hg as [E Hw]. rewrite E in Es. injection Es as <-.
    destruct (interp_bv s (op_name y) (desc_ (G y)) Hs) as (v & Ev & Rv). exists (desc_ (G y)), v. split_and!; try done.
    rewrite Ev. cbn. do 3 f_equal. case_match eqn:Hv; [|done]. apply Z.ltb_lt in Hv.
    assert (0 <= desc_ (G y)) as Hw0 by (destruct Hw; lia). pose proof (wrap_range (desc_ (G y)) Hw0 v). apply wrap_small; lia.
  - apply good_arr_inv in Hg as [E Hw]. rewrite E in Es. injection Es as <-. cbn [desc_ aty].
    destruct (interp_arr s (op_name y) (desc_ (G y)) Hs) as (f & Ef & Rf). exists (desc_ (G y)), f. split_and!; try done.
    destruct size as [k|]; [|done]. cbn [of_option]. rewrite ok_bind.
    erewrite (mapM_Ok _ (fun i => f (wrap (desc_ (G y)) i))), ok_bind, int_ty_good, ok_bind by
      (try done; intros i; erewrite z_eval_app by (cbn [fmap list_fmap]; rewrite z_eval_const, Ef, eval_val; cbn; by rewrite Z.eqb_refl); cbn; by rewrite Rf).
    done.
Qed.
Lemma model_env_agrees s st : sorted s -> zinv G any_name st -> agrees (Z3Model s (const_map st)) (model_env s).
Proof.
  intros Hs Hi. split; cbn [Z3Model lookup_symbol model_env env_symbol env_array].
  - intros y. destruct (lookup_value s st y None Hs Hi) as [->|[(-> & w & x & -> & -> & ->)|(_ & w & f & _ & _ & _ & ->)]]; done.
  - intros y n. destruct (_ && _) eqn:Hn; [|done]. apply andb_true_iff in Hn as [H0n%Z.leb_le Hn%Z.leb_le].
    destruct (lookup_value s st y (Some n) Hs Hi) as [->|[(-> & w & x & -> & -> & ->)|(Hg & w & f & -> & Ef & Rf & ->)]]; try done.
    assert (good_int (G y) = false) as ->.
    { apply good_arr_inv in Hg as [E _]. apply not_true_iff_false. intros [E' _]%good_int_inv. rewrite E in E'. done. }
    rewrite Hg, Ef. intros _. split_and!; try done.
    + rewrite length_fmap, length_seqZ. lia.
    + apply Forall_fmap, Forall_true. intros i. cbn. rewrite <- Rf. by apply wrap_range.
Qed.

(** ** Answers *)

(** The queries the backend translates: their expressions are convertible and
    need no more temporary constants than there are. *)
Record z3_query (l : AssertionList) (extra : Operation) : Prop := {
  zq_inv : al_inv l;
  zq_extra : boolean extra;
  zq_convertible : Forall (fun a => convertible G a = true) (extra :: al_values l);
  zq_room : foldr Z.add 0 (arrays <$> extra :: al_values l) < 2 ^ 29
}.
(** A right answer: UNSAT only if no environment that an interpretation can see
    satisfies the query, SAT only with a model of it. *)
Definition z3_answer (as_ : list Operation) (r : SolverResult) : Prop :=
  (kind_ r = UNSAT -> forall s e, sorted s -> sees s e -> ~ Forall (Holds e) as_) /\
  (kind_ r = SAT -> exists m e, model_ r = Some m /\ agrees m e /\ Forall (fun a => Defined e a -> Holds e a) as_).

Lemma z3_assert_all_ok l extra :
  z3_query l extra ->
  exists st, z3_assert_all (al_values l) extra ZState_ctor = (Ok tt, st) /\
    (tracks (al_values l ++ [extra]) st \/ is_constant_value extra true = true /\ tracks (al_values l) st).
Proof.
  intros [Hi He Hc Hr]. apply Forall_cons in Hc as [Ce Hc]. cbn [fmap list_fmap foldr] in Hr.
  pose proof (arrays_nonneg extra) as Ha. assert (Forall boolean (al_values l)) as Hb by apply (al_wf l Hi).
  assert (tmpConstNum ZState_ctor + (arrays extra + foldr Z.add 0 (arrays <$> al_values l)) <= tmpConstMax) as Hroom.
  { cbn. unfold tmpConstMin, tmpConstMax. lia. }
  destruct (z3_iter_ok (al_values l) [] ZState_ctor tracks_start Hb Hc ltac:(lia)) as (st & Est & Ht & Hk). cbn [app] in Ht.
  unfold z3_assert_all. rewrite (bind_eq _ _ _ _ _ Est). destruct (is_constant_value extra true) eqn:Hx; [exists st; eauto|].
  destruct (z3_assert_ok _ st extra Ht He Ce ltac:(lia)) as (st' & Est' & Ht' & _). exists st'. eauto.
Qed.
Lemma z3_resolve_ok l extra : z3_query l extra -> exists r, Z3_resolve l extra = Ok (r, l) /\ z3_answer (extra :: al_values l) r.
Proof.
  intros Hq. pose proof Hq as [Hi [We Te] _ _]. unfold Z3_resolve. rewrite all_assertions_vals.
  assert ((forall e, ~ Forall (Holds e) (extra :: al_values l)) -> z3_answer (extra :: al_values l) (mkResult UNSAT None)) as Hun.
  { intros Hno. split; [|done]. intros _ s e _ _. apply Hno. }
  destruct (is_constant_value extra false) eqn:Hf.
  { eexists. split; [done|]. apply Hun. intros e [He _]%Forall_cons. by eapply constant_false_fails. }
  destruct (existsb _ _) eqn:Hx.
  { eexists. split; [done|]. apply Hun. intros e [_ He]%Forall_cons.
    apply existsb_exists in Hx as (a & Hin%list_elem_of_In & Ha). pose proof (al_wf l Hi) as Hw. rewrite Forall_forall in Hw, He.
    destruct (Hw a Hin) as [Wa Ta]. by apply (constant_false_fails e a Wa Ta Ha), He. }
  destruct (z3_assert_all_ok l extra Hq) as (st & -> & Ht). rewrite ok_bind.
  assert (zinv G any_name st) as Hz by (destruct Ht as [Ht|[_ Ht]]; apply Ht).
  destruct (z_check (z_asserts st)) as [s| |] eqn:Ec; (eexists; split; [done|]); split; try done.
  - intros _. apply z_check_sat in Ec as [Hs Hsat]. eexists _, (model_env s). split_and!; [done|by apply model_env_agrees|].
    destruct Ht as [Ht|[Htr Ht]]; pose proof (tr_sound _ _ Ht s _ Hs (model_env_sees s Hs) Hsat) as Hall.
    + rewrite Forall_app, Forall_singleton in Hall. destruct Hall. by constructor.
    + constructor; [|done]. intros _. by apply constant_true_holds.
  - intros _ s e Hs He [Hex Hall]%Forall_cons.
    assert (exists s', sorted s' /\ sees s' e /\ sat s' (z_asserts st)) as (s' & Hs' & _ & Hsat).
    { destruct Ht as [Ht|[_ Ht]]; apply (tr_complete _ _ Ht s e Hs He); [|done]. rewrite Forall_app, Forall_singleton. by split. }
    by apply (z_check_unsat _ s' Ec Hs').
Qed.

(** *** [check] *)
Lemma true_boolean : boolean (cint (APInt_of 1 1)).
Proof.
  assert (getBitWidth (APInt_of 1 1) = 1) as Hw by (by rewrite APInt_of_width).
  split; [apply cint_wf; by rewrite Hw|]. change (ity (getBitWidth (APInt_of 1 1)) = ity 1). by rewrite Hw.
Qed.
Lemma true_default : Assertion_default = Ok (cint (APInt_of 1 1)).
Proof.
  unfold Assertion_default, Assertion_constant. cbn [Z.b2z]. rewrite ConstantInt_Create_cint by (by rewrite APInt_of_width by lia).
  rewrite ok_bind. unfold Assertion_ctor. rewrite int_ty_good, ok_bind, (proj2 true_boolean), ty_eqb_refl by done. done.
Qed.
Lemma true_query l :
  al_inv l -> Forall (fun a => convertible G a = true) (al_values l) -> foldr Z.add 0 (arrays <$> al_values l) < 2 ^ 29 ->
  z3_query l (cint (APInt_of 1 1)).
Proof. intros Hi Hc Hr. split; [done|apply true_boolean|by constructor|done]. Qed.

(** The list after the extra assertion is inserted. *)
Definition z3_check_query (l : AssertionList) (extra : Operation) : Prop :=
  backing_size (list_ l) + Z.of_nat (dsize extra) < no_head /\
  forall l1, al_insert l extra = Ok l1 ->
    Forall (fun a => convertible G a = true) (al_values l1) /\ foldr Z.add 0 (arrays <$> al_values l1) < 2 ^ 29.

Lemma insert_nothing_new l l1 (new : list Operation) :
  al_inv l -> al_inv l1 -> mark_ l1 = mark_ l -> elements_ (list_ l1) = elements_ (list_ l) ++ (Elem <$> new) ->
  unproven l1 = Ok [] -> proven l = Ok (al_values l) /\ al_values l1 = al_values l.
Proof.
  intros Hi Hi1 Hm Hn Eu. destruct (proven_unproven l1 Hi1) as (ps1 & us1 & _ & Eu1 & _ & Hus1). rewrite Eu in Eu1. injection Eu1 as <-.
  destruct (proven_unproven l Hi) as (ps & us & Ep & _ & Hv & Hus).
  rewrite Hm, Hn, drop_app_le, vals_app in Hus1 by (pose proof (al_mark l Hi); unfold backing_size in *; lia).
  symmetry in Hus1. apply app_eq_nil in Hus1 as [Hd Hnew]. rewrite Hd in Hus. subst us. rewrite app_nil_r in Hv. split; [congruence|].
  unfold al_values. by rewrite Hn, vals_app, Hnew, app_nil_r.
Qed.
Lemma restore_insert l l1 (new : list Operation) :
  al_inv l1 -> elements_ (list_ l1) = elements_ (list_ l) ++ (Elem <$> new) -> mark_ l1 = mark_ l ->
  exists l2, restore l1 (checkpoint l) = Ok l2 /\ al_inv l2 /\ al_values l2 = al_values l /\ mark_ l2 = mark_ l.
Proof.
  intros Hi1 Hn Hm. destruct (restore_ok l1 (checkpoint l) Hi1) as (l2 & E & Hi2 & Hm2 & Hv).
  { unfold checkpoint, it_end. rewrite Hn, length_app. lia. }
  exists l2. split_and!; [done|done| |congruence]. rewrite Hv, Hn. unfold checkpoint, it_end. by rewrite Nat2Z.id, take_app_length.
Qed.

(** C22: The translation of a convertible expression returns a term of the sort of
    its type.  Under every interpretation that satisfies the assertions added on
    the way, the term has the value that the expression has in the environment
    the interpretation sees, where it has one; and every interpretation of the
    program's symbols extends, on temporary constants only, to one that
    satisfies these assertions.  Convertible ([convertible]) are the well-formed
    expressions of integers and byte arrays, which leaves out floating-point operations, [SRem]
    (which is translated as another operation, [z3_srem_is_smod]) and [Bitcast],
    loads and stores with a 1-bit index, and fixed arrays longer than their
    indices reach; every symbol has one type, and the numbers of symbols are
    below 2^29; and there are fewer than 2^29 fixed arrays in the expression. *)
Theorem z3_translation_correct op :
  wf op -> convertible G op = true -> arrays op < 2 ^ 29 ->
  exists x st, z_visit op ZState_ctor = (Ok x, st) /\ sort_for (op_type op) (z_sort x) /\
    (forall s e v, sorted s -> sees s e -> sat s (z_asserts st) -> denote e op = Some v -> rep (z_eval s x) v) /\
    (forall s, sorted s -> exists s', sorted s' /\ (forall n t, below tmpConstMin n -> s' n t = s n t) /\ sat s' (z_asserts st)).
Proof.
  intros Hwf Hc Hr. destruct (visit_ok G any_name op Hwf Hc ZState_ctor) as (x & st & E & Hi & Hs & Hin & _).
  - apply tracks_start.
  - cbn. unfold tmpConstMin, tmpConstMax. lia.
  - exists x, st. destruct (zi_cache _ _ _ Hi _ _ Hin) as [[Sx Vx] _]. split_and!; try done.
    + intros s e v Hso He Hsat Hd. by apply (Vx s e Hso He Hsat).
    + intros s Hso. destruct (zs_ext _ _ _ Hs s Hso ltac:(constructor)) as (s' & Hs' & Ha & Hsat). exists s'.
      split_and!; try done. intros n t Hn. symmetry. by eapply agree_below.
Qed.

(** C23: A [resolve] of the backend on a convertible query returns and leaves the
    path condition alone.  An UNSAT answer means that no environment in which
    the arrays of a symbol are parts of one array satisfies the path condition
    and the extra assertion.  A SAT answer comes with a model, whose values are
    those of an environment in which every assertion of the query that has a
    value holds.  A query is convertible ([z3_query]) when the path condition
    and the extra assertion are, which leaves out floating-point operations, [SRem]
    (which is translated as another operation, [z3_srem_is_smod]) and [Bitcast],
    loads and stores with a 1-bit index, and fixed arrays longer than their
    indices reach; every symbol has one type, and the numbers of symbols are
    below 2^29; and when they have fewer than 2^29 fixed arrays. *)
Theorem z3_resolve_correct l extra :
  z3_query l extra ->
  exists r, Z3_resolve l extra = Ok (r, l) /\
    (kind_ r = UNSAT -> forall e f, backed e f -> ~ Forall (Holds e) (extra :: al_values l)) /\
    (kind_ r = SAT -> exists m e, model_ r = Some m /\ agrees m e /\
      Forall (fun a => Defined e a -> Holds e a) (extra :: al_values l)).
Proof.
  intros Hq. destruct (z3_resolve_ok l extra Hq) as (r & E & Hun & Hsat). exists r. split_and!; try done.
  intros Hk e f Hb. destruct (env_is_seen e f Hb) as [Hs He]. by apply (Hun Hk _ e Hs He).
Qed.

(** C24: A [check] of the backend on a convertible query returns, leaves the path
    condition as it was, with its mark, and answers rightly: UNSAT only if no
    environment in which the arrays of a symbol are parts of one array satisfies
    the path condition and the extra assertion, SAT only if some environment
    satisfies every assertion of the extended list that has a value there.  The
    query is convertible ([z3_check_query]) when there is room in the list for
    the conjuncts of the extra assertion and the assertions of the list after
    they are inserted are convertible, which leaves out floating-point operations, [SRem]
    (which is translated as another operation, [z3_srem_is_smod]) and [Bitcast],
    loads and stores with a 1-bit index, and fixed arrays longer than their
    indices reach; every symbol has one type, and the numbers of symbols are
    below 2^29; and when they have fewer than 2^29 fixed arrays; the proven part of
    the path condition holds somewhere ([query_ok]). *)
Theorem z3_check_correct l extra :
  query_ok l extra -> z3_check_query l extra ->
  exists r l', Z3_check l extra = Ok (r, l') /\ al_inv l' /\ al_values l' = al_values l /\ mark_ l' = mark_ l /\
    (kind_ r = UNSAT -> forall e f, backed e f -> ~ Forall (Holds e) (extra :: al_values l)) /\
    (kind_ r = SAT -> exists e l1, al_insert l extra = Ok l1 /\ Forall (fun a => Defined e a -> Holds e a) (al_values l1)).
Proof.
  intros Hq [Hroom Hins]. pose proof Hq as [Hi Hb (ps & e & Ep & Hps)]. unfold Z3_check.
  destruct (al_insert_ok l extra Hi Hb Hroom) as (l1 & E1 & Hi1 & Hm1 & (new & Hn1 & _) & Hh1). specialize (Hins l1 E1). destruct Hins as [Hc1 Hr1].
  destruct (proven_unproven l Hi) as (ps' & us & Ep' & -> & Hv & _). rewrite ok_bind. rewrite Ep in Ep'. injection Ep' as <-.
  assert (forall e, Forall (Holds e) (al_values l1) -> exists e l1, al_insert l extra = Ok l1 /\ Forall (fun a => Defined e a -> Holds e a) (al_values l1)) as Hsat.
  { intros e' He'. exists e', l1. split; [done|]. by eapply Forall_impl; [exact He'|]. }
  destruct (bool_decide (us = []) && is_constant_value extra true) eqn:Hearly.
  { apply andb_true_iff in Hearly as [->%bool_decide_eq_true Ht]. eexists _, l. split_and!; try done. intros _. apply (Hsat e).
    pose proof (constant_true_holds e extra (proj1 Hb) (proj2 Hb) Ht) as He.
    rewrite Hh1, Forall_singleton by (constructor; [by apply Holds_Defined|done]). by rewrite Hv, app_nil_r. }
  destruct (is_constant_value extra false) eqn:Hf.
  { eexists _, l. split_and!; try done. intros _ e' f _. by apply extra_false_unsat. }
  rewrite E1 in Hsat |- *. rewrite ok_bind. destruct (restore_insert l l1 new Hi1 Hn1 Hm1) as (l2 & E2 & Hi2 & Hv2 & Hm2).
  destruct (proven_unproven l1 Hi1) as (ps1 & us1 & _ & Eu1 & _ & _). rewrite Eu1, ok_bind. clear Hearly. case_bool_decide as Hus.
  { subst us1. change (SolverResult_ctor SAT None) with (@Ok SolverResult (mkResult SAT None)). rewrite ok_bind, E2. eexists _, l2. split_and!; try done. intros _. apply (Hsat e).
    destruct (insert_nothing_new l l1 new Hi Hi1 Hm1 Hn1 Eu1) as [Ep1 ->]. rewrite Ep in Ep1. by injection Ep1 as <-. }
  rewrite true_default, ok_bind. destruct (z3_resolve_ok l1 _ (true_query l1 Hi1 Hc1 Hr1)) as (r & Er & Hun & Hsa).
  rewrite Er, ok_bind.
  assert (SolverResult_ctor (kind_ r) None = Ok (mkResult (kind_ r) None)) as -> by (by destruct (kind_ r)). rewrite ok_bind, E2.
  exists (mkResult (kind_ r) None), l2. split_and!; try done.
  - cbn. intros Hk e' f Hb' [Hex Hall]%Forall_cons. destruct (env_is_seen e' f Hb') as [Hs He']. apply (Hun Hk _ e' Hs He'). constructor; [done|].
    rewrite Hh1, Forall_singleton by (constructor; [by apply Holds_Defined|done]). done.
  - cbn. intros Hk. destruct (Hsa Hk) as (m & e' & _ & _ & Hall). apply Forall_cons in Hall as [_ Hall]. eauto.
Qed.

(** *** Signed remainders *)
Lemma wrap_signed_inj w u v : 0 < w -> - 2 ^ (w - 1) < u < 2 ^ (w - 1) -> - 2 ^ (w - 1) < v < 2 ^ (w - 1) -> wrap w u = wrap w v -> u = v.
Proof.
  intros Hw Hu Hv E. unfold wrap in E. assert (2 ^ w = 2 * 2 ^ (w - 1)) as P by (rewrite <- Z.pow_succ_r by lia; f_equal; lia).
  assert (0 < 2 ^ w) as Hp by (apply Z.pow_pos_nonneg; lia).
  pose proof (Z.div_mod u (2 ^ w) ltac:(lia)) as Du. pose proof (Z.div_mod v (2 ^ w) ltac:(lia)) as Dv.
  rewrite E in Du. set (q := u / 2 ^ w) in *. set (q' := v / 2 ^ w) in *.
  set (p := 2 ^ w) in *. set (h := 2 ^ (w - 1)) in *. clearbody q q' p h. assert (q = q') as -> by nia. lia.
Qed.

(** C40: The translation of a signed remainder is not a remainder: [operator%] of Z3
    takes the sign of the divisor.  The term for
    [x srem y], with convertible operands, agrees with the meaning of the
    expression, for a divisor that is not 0, exactly where the truncated and the
    floored remainders coincide; they differ for -7 srem 2. *)
Theorem z3_srem_is_smod x y w :
  wf x -> wf y -> op_type x = ity w -> op_type y = ity w -> good_width w ->
  convertible G x = true -> convertible G y = true -> arrays x + arrays y < 2 ^ 29 ->
  exists z st, z_visit (mkOp (mkData OpSRem (ity w) NoPayload) [x; y]) ZState_ctor = (Ok z, st) /\
    forall s e a b v, sorted s -> sees s e -> sat s (z_asserts st) ->
      denote e x = Some (DInt a) -> denote e y = Some (DInt b) -> getZExtValue b <> 0 ->
      denote e (mkOp (mkData OpSRem (ity w) NoPayload) [x; y]) = Some v ->
      rep (z_eval s z) v <->
      Z.rem (sgn w (getZExtValue a)) (sgn w (getZExtValue b)) = sgn w (getZExtValue a) mod sgn w (getZExtValue b).
Proof.
  intros Wx Wy Tx Ty Hw Cx Cy Hr. set (d := mkData OpSRem (ity w) NoPayload). pose proof (arrays_nonneg x). pose proof (arrays_nonneg y).
  destruct (map_ok G any_name [x; y] [arrays x; arrays y]) with (st := ZState_ctor) as (xs & st & Em & Hi & _ & Hxs & _).
  { repeat constructor; try apply arrays_nonneg; by apply visit_ok. }
  { apply tracks_start. }
  { cbn. unfold tmpConstMin, tmpConstMax. lia. }
  apply Forall2_cons_inv_l in Hxs as (zx & xs' & Hx & Hxs & ->). apply Forall2_cons_inv_l in Hxs as (zy & xs'' & Hy & Hxs & ->).
  apply Forall2_nil_inv_l in Hxs as ->.
  destruct (zi_cache _ _ _ Hi _ _ Hx) as [[Sx Vx] _], (zi_cache _ _ _ Hi _ _ Hy) as [[Sy Vy] _]. rewrite Tx in Sx. rewrite Ty in Sy.
  set (z := visit_binop (ZBinOp ZPercent) zx zy).
  exists z, (mkZState (const_map st) (z_asserts st) ((mkOp d [x; y], z) :: z_cache st) (tmpConstNum st)). split.
  { cbn [z_visit fmap list_fmap]. unfold memoized. rewrite (bind_eq state _ _ _ _ eq_refl). cbn [z_cache ZState_ctor filter list_filter hd_error].
    assert (visit_node d [x; y] [z_visit x; z_visit y] ZState_ctor = (Ok z, st)) as En.
    { unfold visit_node. cbn [d od_opcode visited]. change [z_visit x; z_visit y] with (z_visit <$> [x; y]).
      by rewrite (bind_eq _ _ _ _ _ Em). }
    by rewrite (bind_eq _ _ _ _ _ En). }
  cbn [z_asserts]. intros s e a b v Hs He Hsat Da Db Hb0 Hv.
  destruct (denote_binary_inv e d x y v w eq_refl Wx Wy Tx Ty Hv) as (a' & b' & Da' & Db' & Wa & Wb & Es).
  rewrite Da in Da'. injection Da' as <-. rewrite Db in Db'. injection Db' as <-.
  destruct (normalize_bv_ok s zx w Hs Sx) as (u & [Eu Ru] & Hu), (normalize_bv_ok s zy w Hs Sy) as (u' & [Eu' Ru'] & Hu').
  destruct (Hu a (Vx s e Hs He Hsat _ Da)) as [_ <-], (Hu' b (Vy s e Hs He Hsat _ Db)) as [_ <-].
  assert (z_eval s z = VBv w (wrap w (sgn w (getZExtValue a) mod sgn w (getZExtValue b)))) as ->.
  { apply z_eval_app. cbn [fmap list_fmap]. rewrite Eu, Eu'. cbn. rewrite Z.eqb_refl. by rewrite (proj2 (Z.eqb_neq _ _) Hb0). }
  cbn in Es. rewrite Wa, Wb, Z.eqb_refl, (proj2 (Z.eqb_neq _ _) Hb0) in Es. cbn in Es. injection Es as <-. destruct Hw as [Hw _].
  cbn [rep]. rewrite APInt_of_width, APInt_of_value by lia.
  pose proof (sgn_range w ltac:(lia) _ Hw Ru'). assert (sgn w (getZExtValue b) <> 0) as Hs0.
  { intros E. apply Hb0. rewrite <- (wrap_sgn w ltac:(lia) _ Ru'), E. apply wrap_0. }
  split; [intros [_ E]|intros ->; done]. apply (wrap_signed_inj w); [done|..|done].
  - pose proof (Z.rem_bound_abs (sgn w (getZExtValue a)) _ Hs0). lia.
  - pose proof (Z.mod_pos_bound (sgn w (getZExtValue a)) (sgn w (getZExtValue b))).
    pose proof (Z.mod_neg_bound (sgn w (getZExtValue a)) (sgn w (getZExtValue b))). lia.
Qed.
End z3solver.
