(* ===== verification/Z3Instance.v ===== *)
(** A concrete Z3: terms as trees, evaluated by [zsem], with a solver that
    tries one interpretation and recognises assertions without constants that
    are false.  It shows that the laws of [Z3Laws] and [Z3Check] can hold, and
    the theorems on the backend are applied to it. *)
From S2P Require Import Prelude LLVM IRType Value Opcode Operation Matching Create Semantics.
From S2P Require Import Simplifier SimplifierInt SimplifierSound ModelEval SparseVector Assertions Slicer Solvers.
From S2P Require Import Effects Z3Convert Z3Sound Z3Visit Z3Solver.
Open Scope Z_scope.

Inductive term : Set := TApp (o : ZOp) (xs : list term) | TConst (n : ZName) (t : ZSort).

Section term_ind.
Context (P : term -> Prop) (Happ : forall o xs, Forall P xs -> P (TApp o xs)) (Hconst : forall n t, P (TConst n t)).
Fixpoint term_ind' (x : term) : P x :=
  match x with
  | TApp o xs => Happ o xs ((fix go xs := match xs return Forall P xs with
                              | [] => Forall_nil_2 P | x :: xs => Forall_cons_2 P x xs (term_ind' x) (go xs) end) xs)
  | TConst n t => Hconst n t
  end.
End term_ind.

(** The sort of an application; floating-point terms have no values here. *)
Definition op_sort (o : ZOp) (ss : list ZSort) : ZSort :=
  match o, ss with
  | ZBvVal _ w, _ => SortBv w
  | ZIte, [_; t; _] => t
  | ZTilde, [t] | ZBinOp _, [t; _] | ZStore, [t; _; _] => t
  | ZExtract hi lo, _ => SortBv (hi - lo + 1)
  | (ZZext k | ZSext k), [SortBv w] => SortBv (w + k)
  | ZSelect, _ => SortBv 8
  | ZConstArray w, _ => SortArr w
  | _, _ => SortBool
  end.
Fixpoint t_sort (x : term) : ZSort :=
  match x with TApp o xs => op_sort o (t_sort <$> xs) | TConst _ t => t end.
Fixpoint t_eval (s : Interp) (x : term) : ZVal :=
  match x with
  | TApp o xs => match zsem o (t_eval s <$> xs) with Some v => v | None => zero_val (op_sort o (t_sort <$> xs)) end
  | TConst n t => s n t
  end.
Fixpoint t_names (x : term) : list ZName :=
  match x with TApp o xs => mjoin (t_names <$> xs) | TConst n _ => [n] end.

Lemma wrap_idem w x : wrap w (wrap w x) = wrap w x.
Proof. apply Zmod_mod. Qed.
Lemma zsem_sort o vs v : zsem o vs = Some v -> sort_of v = op_sort o (sort_of <$> vs).
Proof.
  destruct o, vs as [|v1 [|v2 [|v3 [|]]]]; try done; cbn;
    repeat match goal with |- context [match ?x with VBool _ => _ | _ => _ end] => destruct x; try done end;
    cbn; repeat case_match; simplify_eq; try done; intros; simplify_eq; try done;
    repeat match goal with H : _ <$> _ = Some _ |- _ => apply fmap_Some in H as (? & ? & ->) end; done.
Qed.
Lemma zsem_range o vs v : zsem o vs = Some v -> Forall in_range vs -> in_range v.
Proof.
  destruct o, vs as [|v1 [|v2 [|v3 [|]]]]; try done; cbn;
    repeat match goal with |- context [match ?x with VBool _ => _ | _ => _ end] => destruct x; try done end;
    rewrite ?Forall_cons; intros E Hv; destruct_and? Hv; cbn in *; repeat case_match; simplify_eq; cbn; auto using wrap_idem;
    try (apply fmap_Some in E as (? & ? & ->); done); try (intros j; case_match; auto; fail).
  match goal with H : (0 <? ?w) && (0 <=? ?k) = true |- _ => apply andb_true_iff in H as [Hw%Z.ltb_lt Hk%Z.leb_le] end.
  match goal with H : wrap ?w ?x = ?x |- _ => pose proof (wrap_range w ltac:(lia) x) as Hx; rewrite H in Hx end.
  apply wrap_small. assert (2 ^ w <= 2 ^ (w + k)) by (apply Z.pow_le_mono_r; lia). lia.
Qed.

#[export] Instance term_API : Z3API := {| Zexpr := term; z_app := TApp; z_const := TConst; z_sort := t_sort |}.

Lemma zero_val_ok t : sort_of (zero_val t) = t /\ in_range (zero_val t).
Proof. apply (zero_sorted (ZInt 0)). Qed.
Lemma t_eval_sorted s x : sorted s -> sort_of (t_eval s x) = t_sort x /\ in_range (t_eval s x).
Proof.
  intros Hs. induction x as [o xs IH|n t] using term_ind'; cbn [t_eval t_sort]; [|apply Hs].
  destruct (zsem o (t_eval s <$> xs)) as [v|] eqn:E; [|apply zero_val_ok]. split.
  - rewrite (zsem_sort _ _ _ E), <- list_fmap_compose. f_equal. apply list_fmap_ext. intros i x Hx. rewrite Forall_forall in IH.
    apply IH. by eapply list_elem_of_lookup_2.
  - apply (zsem_range _ _ _ E), Forall_fmap. eapply Forall_impl; [exact IH|]. by intros x [_ ?].
Qed.
Lemma t_eval_names s s' x : (forall n t, n ∈ t_names x -> s n t = s' n t) -> t_eval s x = t_eval s' x.
Proof.
  induction x as [o xs IH|n t] using term_ind'; cbn [t_eval t_names]; intros Hn; [|apply Hn; set_solver].
  assert (t_eval s <$> xs = t_eval s' <$> xs) as ->; [|done]. apply list_fmap_ext. intros i x Hx. apply list_elem_of_lookup_2 in Hx.
  rewrite Forall_forall in IH. apply IH; [done|]. intros n t Hnt. apply Hn, list_elem_of_join. exists (t_names x).
  split; [done|]. by apply list_elem_of_fmap_2.
Qed.
#[export, refine] Instance term_Laws : Z3Laws := {| z_eval := t_eval; z_names := t_names |}.
Proof.
  - done.
  - intros s o xs v E. cbn in *. by rewrite E.
  - apply t_eval_sorted.
  - done.
  - intros o xs n. cbn. intros (ns & Hn & Hns)%list_elem_of_join. apply list_elem_of_fmap in Hns as (x & -> & Hx). eauto.
  - apply t_eval_names.
Defined.

(** A closed assertion that is false, and the interpretation of zeros. *)
Definition is_true (v : ZVal) : bool := match v with VBool b => b | _ => false end.
Definition zeros : Interp := fun _ => zero_val.
Definition closed_false (x : term) : bool :=
  match t_names x with [] => negb (is_true (t_eval zeros x)) | _ => false end.
#[export, refine] Instance term_Check : Z3Check := {|
  z_check xs := if forallb (fun x => is_true (t_eval zeros x)) xs then ZSat zeros
                else if existsb closed_false xs then ZUnsat else ZUnknown;
  fpa_is_nan _ := false; fpa_is_inf _ := false; fpa_significand_uint64 _ := None; fpa_significand_string _ := 0;
  fpa_exponent_int64 _ := None; fpa_sign _ := None
|}.
Proof.
  - intros xs s. destruct (forallb (fun x => is_true (t_eval zeros x)) xs) eqn:E; [|by case_match]. intros [= <-]. split; [apply zero_sorted|].
    rewrite forallb_forall in E. apply Forall_forall. intros x Hx%list_elem_of_In%E. cbn. by destruct (t_eval zeros x) as [[]| | |].
  - intros xs s. destruct (forallb (fun x => is_true (t_eval zeros x)) xs); [done|]. destruct (existsb closed_false xs) eqn:E; [|done]. intros _ Hs Hall.
    apply existsb_exists in E as (x & Hx%list_elem_of_In & Hc). unfold closed_false in Hc. destruct (t_names x) eqn:En; [|done].
    rewrite Forall_forall in Hall. specialize (Hall x Hx). cbn in Hall. rewrite (t_eval_names s zeros) in Hall; [by rewrite Hall in Hc|].
    rewrite En. set_solver.
Defined.

Module z3_witness.
Import slicer_witness.
#[local] Instance on : Config := {| IMPLICIT_CONSTANT_FOLDING := true |}.

(** The element [k] of the array of [x] and 5 is not [x]. *)
Definition sym (s : string) (w : Z) : Operation := mkOp (mkData OpConstantNamed (ity w) (PSymbol (Named s))) [].
Definition types (y : Symbol) : Ty := if decide (y = Named "x") then ity 8 else ity 32.
Definition table : Operation := mkOp (mkData OpFixedArray (aty 32) NoPayload) [sym "x" 8; cint (APInt_of 8 5)].
Definition elem_k : Operation := mkOp (mkData OpLoad (ity 8) NoPayload) [table; sym "k" 32].
Definition differs : Operation := mkOp (mkData (OpICmp NE) (ity 1) NoPayload) [elem_k; sym "x" 8].
Lemma z3_sym_wf s w : wf (sym s w).
Proof. constructor; [done|]. cbn. eauto. Qed.
Lemma cint_ok w v : good_width w -> wf (cint (APInt_of w v)).
Proof. intros Hw. apply cint_wf. rewrite APInt_of_width; [done|]. destruct Hw. lia. Qed.
Lemma table_wf : wf table.
Proof.
  constructor; [constructor; [apply z3_sym_wf|constructor; [by apply cint_ok|done]]|]. exists 32. split_and!; try done. repeat constructor.
Qed.
Lemma differs_boolean : boolean differs.
Proof.
  split; [|done]. constructor; [|by exists 8]. constructor; [|constructor; [apply z3_sym_wf|done]].
  constructor; [|by exists 32]. constructor; [apply table_wf|constructor; [apply z3_sym_wf|done]].
Qed.

Lemma z3_translation_correct_witness :
  exists x st, z_visit differs ZState_ctor = (Ok x, st) /\ sort_for (op_type differs) (z_sort x) /\
    (forall s e v, sorted s -> sees s e -> sat s (z_asserts st) -> denote e differs = Some v -> rep (z_eval s x) v) /\
    (forall s, sorted s -> exists s', sorted s' /\ (forall n t, below tmpConstMin n -> s' n t = s n t) /\ sat s' (z_asserts st)).
Proof. apply (z3_translation_correct types differs); [apply differs_boolean|vm_decide|vm_decide]. Defined.

(** The path condition is that [differs] and is asked about [k == 1]. *)
Definition k_is_1 : Operation := mkOp (mkData (OpICmp EQ) (ity 1) NoPayload) [sym "k" 32; cint (APInt_of 32 1)].
Lemma k_is_1_boolean : boolean k_is_1.
Proof.
  split; [|done]. constructor; [|by exists 32]. constructor; [apply z3_sym_wf|constructor; [by apply cint_ok|done]].
Qed.
Definition path : AssertionList := list_of [differs] 0.
Lemma path_inv : al_inv path.
Proof. apply list_of_inv; [|done|done]. constructor; [apply differs_boolean|done]. Qed.
Lemma path_query : z3_query types path k_is_1.
Proof. split; [apply path_inv|apply k_is_1_boolean|vm_decide|vm_decide]. Qed.
Lemma z3_resolve_correct_witness :
  exists r, Z3_resolve path k_is_1 = Ok (r, path) /\
    (kind_ r = UNSAT -> forall e f, backed e f -> ~ Forall (Holds e) (k_is_1 :: al_values path)) /\
    (kind_ r = SAT -> exists m e, model_ r = Some m /\ agrees m e /\
      Forall (fun a => Defined e a -> Holds e a) (k_is_1 :: al_values path)).
Proof. apply (z3_resolve_correct types path k_is_1), path_query. Defined.

(** Answers of the concrete solver: 1 == 0 is unsatisfiable, [x == 0] is not. *)
Definition one_is_0 : Operation := mkOp (mkData (OpICmp EQ) (ity 1) NoPayload) [cint (APInt_of 8 1); cint (APInt_of 8 0)].
Definition x_is_0 : Operation := mkOp (mkData (OpICmp EQ) (ity 1) NoPayload) [sym "x" 8; cint (APInt_of 8 0)].
Lemma answers_unsat_here : (fun p => kind_ p.1) <$> Z3_resolve al_empty one_is_0 = Ok UNSAT.
Proof. vm_decide. Qed.
Lemma answers_sat_here :
  (fun p => (kind_ p.1, (fun m => lookup_symbol m (Named "x") None) <$> model_ p.1)) <$> Z3_resolve al_empty x_is_0 =
  Ok (SAT, Some (VInt (APInt_of 8 0))).
Proof. vm_cast_no_check (eq_refl (Ok (SAT, Some (VInt (APInt_of 8 0))))). Qed.

Lemma path_extended : al_insert path k_is_1 = Ok (list_of [differs; k_is_1] 0).
Proof. vm_cast_no_check (eq_refl (al_insert path k_is_1)). Qed.
Lemma path_check_query : z3_check_query types path k_is_1.
Proof.
  split; [vm_decide|]. rewrite path_extended.
  intros l1 [= <-]. split; vm_decide.
Qed.
Lemma path_query_ok : query_ok path k_is_1.
Proof.
  split; [apply path_inv|apply k_is_1_boolean|]. by apply (marked_zero path (const_env true)); [apply path_inv|].
Qed.
Lemma z3_check_correct_witness :
  exists r l', Z3_check path k_is_1 = Ok (r, l') /\ al_inv l' /\ al_values l' = al_values path /\ mark_ l' = mark_ path /\
    (kind_ r = UNSAT -> forall e f, backed e f -> ~ Forall (Holds e) (k_is_1 :: al_values path)) /\
    (kind_ r = SAT -> exists e l1, al_insert path k_is_1 = Ok l1 /\ Forall (fun a => Defined e a -> Holds e a) (al_values l1)).
Proof. apply (z3_check_correct types path k_is_1); [apply path_query_ok|apply path_check_query]. Defined.

(** -7 srem 2 is -1; the term for it is 1. *)
Definition minus7 : Operation := cint (APInt_of 8 (-7)).
Definition two : Operation := cint (APInt_of 8 2).
Definition srem72 : Operation := mkOp (mkData OpSRem (ity 8) NoPayload) [minus7; two].
Definition any_env : Env := const_env true.
Lemma srem72_values :
  denote any_env srem72 = Some (DInt (APInt_of 8 (-1))) /\
  (fun x => z_eval zeros x) <$> (z_visit srem72 ZState_ctor).1 = Ok (VBv 8 1).
Proof. split; [vm_decide|]. vm_cast_no_check (eq_refl (Ok (VBv 8 1))). Qed.
Lemma z3_srem_is_smod_witness :
  exists z st, z_visit srem72 ZState_ctor = (Ok z, st) /\
    forall s e a b v, sorted s -> sees s e -> sat s (z_asserts st) ->
      denote e minus7 = Some (DInt a) -> denote e two = Some (DInt b) -> getZExtValue b <> 0 ->
      denote e srem72 = Some v ->
      rep (z_eval s z) v <-> Z.rem (sgn 8 (getZExtValue a)) (sgn 8 (getZExtValue b)) = sgn 8 (getZExtValue a) mod sgn 8 (getZExtValue b).
Proof. apply (z3_srem_is_smod types minus7 two 8); first [by apply cint_ok|vm_decide|done]. Defined.
End z3_witness.
